(* ===== verification/_CoqProject ===== *)
-Q . S2P
Prelude.v
BtreeNode.v
PageStore.v
TestStore.v
Btree.v
Overflow.v
Lean.v
KvMap.v
BtreeRep.v
BtreeInsert.v
BtreeDelete.v
BtreeSnapshot.v
BtreeHostile.v
BtreeRange.v
Cursor.v
BtreeCollect.v
BtreeSpec.v
BtreeView.v
Machine.v
Demo.v
BtreeTheorems.v
Text.v
Value.v
FloatOrder.v
Keycode.v
KeycodeOrder.v
NumericOrder.v
Decimal.v
ColumnOrder.v
KeycodeDecode.v
KeycodeHostile.v
KeycodeTheorems.v
Calendar.v
DateText.v
DateTextRoundtrip.v
ValueCodec.v
ValueTheorems.v
Row.v
RowCodec.v
RowTheorems.v
Subedit.v
Optimistic.v
OptimisticSound.v
OptimisticRebase.v
ConcurrencyTheorems.v
Readers.v
ReadersSlots.v
ReadersPins.v
PrivatePins.v
ReaderTheorems.v
ReaderProgress.v
Txn.v
TxnOps.v
TxnPool.v
TxnStore.v
FreelistCodec.v
FreelistAccount.v
FreelistWrite.v
FreelistPlan.v
FreelistCommit.v
TxnCommit.v
TxnRun.v
TxnDb.v
TxnTheorems.v
Extent.v
ExtentTheorems.v
Savepoint.v
Rollback.v
Session.v
SessionRefine.v
SavepointTheorems.v
Wal.v
WalCodec.v
Crash.v
CrashInv.v
WalRecover.v
WalDb.v
WalTheorems.v
