(* ===== verification/Prelude.v ===== *)
(** * mpedb: the storage layer and its codecs, verified

    mpedb is an embedded SQL database over a shared memory mapping. A table or
    an index is a copy-on-write B+tree of 4 KiB pages; what the trees store is
    rows and keys, encoded from typed values. This development models that
    core, from the bytes of a page up to the map a tree holds, the codecs that
    turn values into keys and rows, the checks by which optimistic writers stay
    out of each other's way, the table by which readers keep the pages of
    their snapshots from being reused, and the write transaction on top: its
    page allocation, commit, savepoints and sessions; and the write-ahead log
    under it, with recovery after a power loss.

    ** How the parts fit together

    - [btree.rs] keeps the trees. It reads and writes pages through the
      [PageStore] trait of [pagestore.rs] and never writes a committed page in
      place. A value of up to 1 KiB sits in a leaf cell, a larger one in a chain
      of overflow pages, an extent or an external file.
    - [btree/cursor.rs] scans a tree forward between two keys.
    - [value.rs] defines values, column types and collations, how values
      compare, and their forms as text and as bytes.
    - [keycode.rs] encodes the columns of a key so that comparing bytes is
      comparing values; the trees compare keys as bytes only.
    - [row.rs] encodes a row as the value a tree stores under its key.
    - [shm/optimistic.rs] keeps a ring with the footprint of the last 256
      commits; [engine/write/concurrency.rs] accumulates what a transaction
      writes and what a guarded one depends on, [engine/commit.rs] checks the
      guard against the ring and publishes the footprint, and [ring_exec.rs]
      derives both from a statement. [subedit.rs] is the algebra of edits
      within one value.
    - [shm/readers.rs] is the table of reader slots: a reader claims a slot and
      pins the newest transaction, a writer scans the slots for the oldest pin
      and reuses only pages freed before it, anyone sweeps the slots of dead
      processes. [shm/pages.rs] publishes and reads the two meta pages. A
      private in-memory database pins in a process-local array instead.

    - [engine/write.rs] holds the state of a write transaction and
      [engine/freelist.rs] makes it a [PageStore]: a page comes from the free
      list when no pin can reach it, or from above the high-water mark; a freed
      page waits for the commit. [engine/extent.rs] does the same for runs of
      pages that hold large values, with a buffer in front of the file.
    - [engine/commit.rs] writes the roots of changed trees to the catalog, then
      rewrites the free list, itself a B+tree whose pages come from what it
      lists, until it settles, and publishes a meta page.
    - [engine/write/savepoint.rs] takes savepoints: a copy of the bookkeeping
      and, while a full savepoint is open, a journal of the first image of each
      page. [write_session.rs] keeps the stack of named savepoints and runs
      statements and batches that leave nothing behind when they fail.
    - [shm/wal.rs] logs a commit's dirty pages and roots before the commit
      publishes its meta page, syncs the log then ([wal]) or later ([async]),
      checkpoints the mapping, and replays the log when the file is opened
      after a reboot. [shm.rs] has the format of a record.

    The sources are under [src/crates/mpedb-core/src] ([btree.rs],
    [btree/cursor.rs], [pagestore.rs], [row.rs], [shm.rs], [shm/], [engine/]),
    [src/crates/mpedb-types/src] ([value.rs], [keycode.rs], [subedit.rs]) and
    [src/crates/mpedb/src] ([ring_exec.rs], [write_session.rs], [lib.rs]).

    ** The files

    - Prelude: the result type [res] ([Ok], [Err], [Panic]), the state and
      error monad [M] the stateful code is written in, machine integers and
      their byte images, slices, list lemmas, the development's tactics and
      hint databases.
    - BtreeNode: a page as 4096 bytes, with the accessors, cell encoders,
      insertion, removal, compaction and search of [btree.rs], and the
      predicate that says which cells a page holds.
    - PageStore: the trait as the class [PageStore], its laws as the class
      [StoreLaws], and [cow]. TestStore: the in-memory store of
      [pagestore.rs], an instance of both.
    - Btree: every operation of [btree.rs] on trees, as programs over any
      [PageStore]. Overflow: the chains. KvMap: sorted association lists.
      BtreeRep: when the pages of a store form a tree with given bindings.
      BtreeInsert, BtreeDelete, BtreeRange, BtreeCollect: each operation
      against that predicate. BtreeSnapshot: copy-on-write safety on any
      input. BtreeHostile: reads of damaged pages. Cursor: scans. BtreeSpec:
      the contract as a finite map ([gmap]). Machine: histories of operations
      over the in-memory store. Demo: a concrete history. BtreeTheorems: the
      statements (C13 to C23). Lean: pages without the bytes nobody reads.
      BtreeView: one tree seen through two stores.
    - Text: the parts of Rust's [str] the codecs use. Value: types,
      comparison, decimals. FloatOrder, NumericOrder, Decimal: doubles and
      decimals as the numbers they stand for.
    - Keycode: the encoders and decoders of [keycode.rs]. KeycodeOrder,
      ColumnOrder: keys order as values. KeycodeDecode, KeycodeHostile:
      decoding. KeycodeTheorems: the statements (C24 to C26).
    - Calendar, DateText, DateTextRoundtrip: days, dates and their text.
      ValueCodec: the length-prefixed form of values. ValueTheorems: the
      statements (C27 to C30).
    - Row: [row.rs]. RowCodec: its lemmas. RowTheorems: the statements (C31 and
      C32).
    - Subedit: [subedit.rs]. Optimistic: the ring, the footprint and the
      guard. OptimisticSound: what a commit publishes covers what it changed.
      OptimisticRebase: the walk of the ring against the algebra.
      ConcurrencyTheorems: the statements (C33 to C36).
    - Readers: the reader table and the meta pages as threads of processes that
      start, move one shared access at a time, and die. ReadersSlots: who owns
      a slot, with generations as ghost state. ReadersPins: what a pin and the
      meta pages guarantee. PrivatePins: the private database. ReaderTheorems:
      the statements (C37 to C39). ReaderProgress: a reader that runs alone
      (C40).
    - Txn, TxnOps: the write transaction: its state, allocation, the free list
      at commit, runs, extents, catalog, commit, savepoints. TxnPool: which
      pages can be drawn. TxnStore: the transaction meets [StoreLaws], so the
      B+tree's theorems hold of it. FreelistCodec, FreelistAccount,
      FreelistWrite, FreelistPlan, FreelistCommit: no page is lost and the
      commit's free list lists each free page once. TxnCommit, TxnRun, TxnDb:
      whole transactions and histories of them. TxnTheorems: the statements
      (C1, C2, C6).
    - Extent, ExtentTheorems: extent payloads and the pool of runs (C10).
    - Savepoint, Rollback: what the journal keeps and that a rollback restores
      it. Session: the write session over an [Executor] of statements.
      SessionRefine: the session against a stack of maps. SavepointTheorems:
      the statements (C5, C11, C12).
    - Wal: records, append, flush, checkpoint, recovery. WalCodec: records
      decode. Crash: the log, the writer, the kernel's write-back and the disk
      as a machine that takes events, and what a power loss leaves of it.
      CrashInv: what every step keeps. WalRecover: recovery from there. WalDb:
      recovered pages as a database, transactions as runs of the machine.
      WalTheorems: the statements (C3, C4, C7 to C9).

    ** How code becomes definitions

    A byte is a [Z] in 0..255, a machine integer a [Z] with its width written
    out where it wraps, saturates or is checked; a string is its UTF-8 bytes; a
    double is its 64-bit pattern. Code that mutates a page or a store passes
    it along in the monad [M St]; an error keeps the state reached, since the
    caller's transaction can look at it. A panic (an index out of range,
    [unreachable!], an overflow of checked arithmetic, a stack that ends) is
    the value [Panic], so that a theorem can exclude it. A [&mut usize]
    position is an argument and a result.

    Messages of errors that print a number are kept without the number.

    Fuel: loops over bytes and columns recurse on a number that is enough by
    construction (the length of what is left). The descent of a tree has the
    depth bound of the source; recursion that the source does not bound
    ([insert_rec], [delete_rec], [collect_pages], [read_value]) takes a depth
    that stands for the stack, and running out of it is [Panic]; the theorems
    say which depth is enough (the height of the tree, the number of bytes
    left) or that none is ([nested_lists_exhaust_stack]). In a transaction the
    depth is the number of pages of the file, which no tree exceeds in height;
    [alloc_run] draws at most that many entries. Recovery has as many rounds as
    the log has bytes, more than it has records. The fixpoint of a commit has
    the source's bound of 64 passes. The theorems on transactions assume a file
    of at most [120 * 2^16] pages (30 GiB), so that the 16-bit chunk number of a
    free-list key does not wrap, and a free-list tree below the 64 levels a
    cursor walks.

    ** What the theorems show

    - C1, C2, C5, C6: transactions. A transaction commits as a whole or leaves
      the database as it was; readers of a pinned snapshot and of the newest one
      read the maps these stand for, in any history of commits and aborts; a
      session with savepoints is a stack of maps, for every executor of
      statements that meets [ExecutorLaws]; the commit's catalog names the trees
      the transaction changed. C1 to C3 are about transactions that put and
      delete system rows in the catalog, on a mapping that is not written in
      place, and touch no extents ([R0] are the pages of runs, which they leave
      alone); the tree operations, allocation and commit are the ones every
      statement uses.
    - C3, C4, C7 to C9: the log. A power loss at any step of a transaction
      leaves the database before or after it; more generally recovery brings
      back the last counted commit, whatever the kernel wrote back and when;
      records decode to pages with the same cells. A writer that dies before it
      publishes breaks this, and [async] mode does not have it. The pages a
      snapshot uses ([c_use]) are ghost state: a writer stores to other pages
      only, and logs every page its snapshot adds, which C3 shows of the
      transaction. What the checksum buys is the hypothesis [torn_tail]: behind
      the counted records lies a record that was written there, or nothing that
      decodes.
    - C10 to C12: extents read back; and two places where savepoints do not do
      what they mean to.
    - C13 to C18: a tree is a finite map. Any history of operations agrees with
      the map's, keeps the tree well-formed, leaks no page, and leaves every
      committed page alone.
    - C19 and C20: scans and reads of a part of a value return what the map
      says.
    - C21 to C23: damaged pages give errors and never panics; overflow chains
      round-trip; a split always finds its point.
    - C24 to C26: byte order of keys is the order of rows; keys decode, and
      decoding anything else is an error.
    - C27 to C30: the calendar counts days; decimals compare by exact value; the
      binary forms of values round-trip; reading ends on any bytes.
    - C31 and C32: rows round-trip, and the one-pass decoder is the per-column
      one.
    - C33 to C36: sub-edits compose; the ring hides no conflict from a guard or
      a single key; three histories on which its rebase is not that of the
      algebra; and a guard that a rebase switches off. C34 assumes that a
      statement changes only cells its footprint names ([cm_ok]) and depends
      only on such cells ([uses]); the ring may start in any state that names no
      later transaction.
    - C37 to C40: a pin protects its snapshot from reuse in every interleaving
      with commits, sweeps and deaths, up to a run in which commits overtake
      the recheck, and that run; the in-place writer of a private database; and
      a reader that runs alone pins. Runs are shorter than [2^32] steps, so that
      no slot's generation wraps.

    The files of statements hold further results in the same form: counts
    agree with scans, the page walk finds what a tree owns, a limit of the cycle
    guard of overflow chains, grouping keys and decimals order as values do,
    dates read back from their text, the limits of the date parsers and of the
    value reader, streamed rows, the rebase of single splices, stale pins of a
    private database, first fit in the pool of runs.

    ** Not modelled

    - In the modelled files: [partition_keys] (cursor.rs), the type names and
      affinities of value.rs, [array_elements], [Display]; the file-backed fast
      path of a blob source. The content hash of an external value is a
      parameter.
    - How a compiled plan yields the footprint of a statement, and the
      notification half of [shm/notify.rs]. The ring is read and written under
      the writer lock, so its words are plain state here.
    - Of the readers table: the ungated durability modes, the advisory census,
      reads nested in a private writer. Each access is sequentially consistent
      here; the fences that make it so are not.
    - Of the transaction: what surrounds the meta page in a commit besides the
      log ([msync], publication of the footprint, notification) and the
      reload of the schema. The bound [pin_scan] is what the scan of the reader
      table returned, which the readers' part is about. Rows by primary key,
      indexes, constraints, foreign keys and DDL sit between the session and the
      trees: the class [Executor] stands for them.
    - Of the log: opening and formatting its file, the page-wise flush of a
      checkpoint on macOS, errors of the operating system, extents (synced
      before the record). A machine step is atomic; the hash is a parameter with
      64-bit values.
    - The intent ring, opening and growing the mapping.
    - The SQL front end, the expression machine, bindings, servers, mirrors
      and benchmarks: layers above the storage core. *)

From Stdlib Require Export ZArith Lia String.
From stdpp Require Export base tactics list numbers option.
From stdpp Require Export strings sorting.

Declare Scope mpedb_scope.
Delimit Scope mpedb_scope with mpedb.
#[global] Open Scope mpedb_scope.

(** * Results *)

(** The error type of the workspace, restricted to the variants the modelled
    code raises. *)
Inductive Error :=
| Corrupt (msg : string)
| Internal (msg : string)
| Unsupported (msg : string)
| TypeMismatch (msg : string)
| DbFull
| Bind (msg : string).

(** The outcome of a fallible Rust call: [Ok], an [Error], or a panic. *)
Inductive res (A : Type) :=
| Ok (a : A)
| Err (e : Error)
| Panic.
Arguments Ok {A} a.
Arguments Err {A} e.
Arguments Panic {A}.

#[global] Instance res_mret : MRet res := fun A a => Ok a.
#[global] Instance res_mbind : MBind res := fun A B f m =>
  match m with Ok a => f a | Err e => Err e | Panic => Panic end.

Definition res_of_option {A} (e : Error) (o : option A) : res A :=
  match o with Some a => Ok a | None => Err e end.

Definition is_panic {A} (r : res A) : bool :=
  match r with Panic => true | _ => false end.

Definition is_ok {A} (r : res A) : bool :=
  match r with Ok _ => true | _ => false end.

Lemma bind_Ok {A B} (f : A → res B) (m : res A) (b : B) :
  (m ≫= f) = Ok b → ∃ a, m = Ok a ∧ f a = Ok b.
Proof. destruct m; [naive_solver|done|done]. Qed.

(** Case analysis on every bind of a hypothesis that returns [Ok]. *)
Ltac inv_res :=
  repeat match goal with
  | H : (_ ≫= _) = Ok _ |- _ =>
      let a := fresh "a" in let Ha := fresh "Ha" in
      apply bind_Ok in H; destruct H as [a [Ha H]]
  | H : Ok _ = Ok _ |- _ => injection H as H; try subst
  | H : Err _ = Ok _ |- _ => discriminate H
  | H : Panic = Ok _ |- _ => discriminate H
  | H : context [if decide ?P then _ else _] |- _ => destruct (decide P)
  end.

(** Two results of one computation agree. *)
Ltac det_ok :=
  repeat match goal with
  | H1 : ?x = Ok ?a, H2 : ?x = Ok ?b |- _ =>
      assert (a = b) by congruence; clear H2
  end; simplify_eq.

(** * State and error *)

(** A computation that reads and writes a state of type [St] and may fail.
    The state survives a failure, as the memory behind a [&mut] does. *)
Definition M (St A : Type) : Type := St → res A * St.

#[global] Instance M_mret {St} : MRet (M St) := fun A a s => (Ok a, s).
#[global] Instance M_mbind {St} : MBind (M St) := fun A B f m s =>
  match m s with
  | (Ok a, s') => f a s'
  | (Err e, s') => (Err e, s')
  | (Panic, s') => (Panic, s')
  end.

(** A call through [&self]: the state is read, not written. *)
Definition reads {St A} (f : St → res A) : M St A := fun s => (f s, s).
Definition lift {St A} (r : res A) : M St A := fun s => (r, s).
Definition modify {St} (f : St → St) : M St unit := fun s => (Ok tt, f s).
(** A step that mutates the state or fails leaving it unchanged. *)
Definition update {St} (f : St → res St) : M St unit := fun s =>
  match f s with
  | Ok s' => (Ok tt, s')
  | Err e => (Err e, s)
  | Panic => (Panic, s)
  end.

Section WP.
Context {St : Type} (fails : option Error → St → Prop).

(** [wp m Q s]: run from [s], [m] returns a value and a state that satisfy
    [Q], or fails in a state where [fails] allows it ([None] is a panic). *)
Definition wp {A} (m : M St A) (Q : A → St → Prop) (s : St) : Prop :=
  match m s with
  | (Ok a, s') => Q a s'
  | (Err e, s') => fails (Some e) s'
  | (Panic, s') => fails None s'
  end.

Lemma wp_ret {A} (a : A) (Q : A → St → Prop) (s : St) :
  Q a s → wp (mret a) Q s.
Proof. done. Qed.

Lemma wp_bind {A B} (m : M St A) (f : A → M St B) (Q : B → St → Prop) (s : St) :
  wp m (λ a s', wp (f a) Q s') s → wp (m ≫= f) Q s.
Proof. unfold wp, mbind, M_mbind. destruct (m s) as [[]]; auto. Qed.

Lemma wp_mono {A} (m : M St A) (Q Q' : A → St → Prop) (s : St) :
  wp m Q s → (∀ a s', Q a s' → Q' a s') → wp m Q' s.
Proof. unfold wp. destruct (m s) as [[]]; auto. Qed.

(** A step [f a] whose result is not used, before the continuation. *)
Lemma wp_bind_then {A B} (m : M St A) (f : A → M St unit) (k : A → M St B)
    (Q : B → St → Prop) (s : St) :
  wp (a ← m; f a;; mret a) (λ a s', wp (k a) Q s') s → wp (a ← m; f a;; k a) Q s.
Proof.
  unfold wp, mbind, M_mbind. destruct (m s) as [[a|e|] s1]; [|done|done].
  by destruct (f a s1) as [[]].
Qed.

Lemma wp_reads {A} (f : St → res A) (a : A) (Q : A → St → Prop) (s : St) :
  f s = Ok a → Q a s → wp (reads f) Q s.
Proof. unfold wp, reads. by intros ->. Qed.

Lemma wp_lift {A} (r : res A) (a : A) (Q : A → St → Prop) (s : St) :
  r = Ok a → Q a s → wp (lift r) Q s.
Proof. unfold wp, lift. by intros ->. Qed.

Lemma wp_update (f : St → res St) (s s' : St) (Q : unit → St → Prop) :
  f s = Ok s' → Q tt s' → wp (update f) Q s.
Proof. unfold wp, update. by intros ->. Qed.
End WP.

Lemma wp_weaken {St A} (fails fails' : option Error → St → Prop) (m : M St A) Q s :
  (∀ e s', fails e s' → fails' e s') → wp fails m Q s → wp fails' m Q s.
Proof. unfold wp. destruct (m s) as [[]]; auto. Qed.

(** A computation that can only move the state along the preorder [R],
    whatever it returns: value, error or panic. *)
Definition moves {St A} (R : relation St) (m : M St A) : Prop :=
  ∀ s, R s (m s).2.

Section Moves.
Context {St : Type} (R : relation St) `{!PreOrder R}.

Lemma moves_ret {A} (a : A) : moves R (mret a : M St A).
Proof. intros s. simpl. reflexivity. Qed.

Lemma moves_reads {A} (f : St → res A) : moves R (reads f).
Proof. intros s. simpl. reflexivity. Qed.

Lemma moves_lift {A} (r : res A) : moves R (lift r).
Proof. intros s. simpl. reflexivity. Qed.

Lemma moves_bind {A B} (m : M St A) (f : A → M St B) :
  moves R m → (∀ a, moves R (f a)) → moves R (m ≫= f).
Proof.
  intros Hm Hf s. specialize (Hm s). unfold mbind, M_mbind.
  destruct (m s) as [[a|e|] s'] eqn:E; simpl in *; [|done|done].
  etransitivity; [exact Hm|apply Hf].
Qed.

Lemma wp_moves {A} fails (m : M St A) Q s :
  moves R m → wp fails m Q s → wp fails m (λ a s', Q a s' ∧ R s s') s.
Proof. intros Hm. specialize (Hm s). unfold wp. by destruct (m s) as [[] s']. Qed.
End Moves.

(** * Slices *)

(** [sub off len p] is the slice [p[off..off+len]] when it is in range. *)
Definition sub {A} (off len : nat) (p : list A) : list A := take len (drop off p).

(** [p[a..b]]: panics when the range is not inside the slice. *)
Definition slice {A} (a b : nat) (p : list A) : res (list A) :=
  if decide (a ≤ b ∧ b ≤ length p) then Ok (sub a (b - a) p) else Panic.

(** [p.get(a..b)]. *)
Definition get_range {A} (a b : nat) (p : list A) : option (list A) :=
  if decide (a ≤ b ∧ b ≤ length p) then Some (sub a (b - a) p) else None.

(** [p[off..off+bs.len()].copy_from_slice(bs)]. *)
Definition blit {A} (off : nat) (bs p : list A) : res (list A) :=
  if decide (off + length bs ≤ length p)
  then Ok (take off p ++ bs ++ drop (off + length bs) p) else Panic.

Section Slices.
Context {A : Type}.
Implicit Types (p bs q : list A) (off len : nat).

Lemma length_sub off len p : off + len ≤ length p → length (sub off len p) = len.
Proof. intros ?. unfold sub. rewrite length_take, length_drop. lia. Qed.

Lemma lookup_sub off len p i :
  sub off len p !! i = if decide (i < len) then p !! (off + i) else None.
Proof.
  unfold sub. rewrite lookup_take. case_decide; [|done]. apply lookup_drop.
Qed.

Lemma slice_Ok a b p : a ≤ b → b ≤ length p → slice a b p = Ok (sub a (b - a) p).
Proof. intros. unfold slice. by rewrite decide_True. Qed.

Lemma get_range_Some a b p :
  a ≤ b → b ≤ length p → get_range a b p = Some (sub a (b - a) p).
Proof. intros. unfold get_range. by rewrite decide_True. Qed.

Lemma sub_0_all p : sub 0 (length p) p = p.
Proof. unfold sub. rewrite drop_0. apply take_ge. lia. Qed.

Lemma sub_app_l off len p q :
  off + len ≤ length p → sub off len (p ++ q) = sub off len p.
Proof.
  intros. apply list_eq. intros i. rewrite !lookup_sub. case_decide; [|done].
  rewrite lookup_app_l by lia. done.
Qed.

Lemma sub_app_r off len p q :
  length p ≤ off → sub off len (p ++ q) = sub (off - length p) len q.
Proof.
  intros. apply list_eq. intros i. rewrite !lookup_sub. case_decide; [|done].
  rewrite lookup_app_r by lia. f_equal. lia.
Qed.

Lemma sub_app_exact p q : sub 0 (length p) (p ++ q) = p.
Proof. rewrite sub_app_l by lia. apply sub_0_all. Qed.

Lemma sub_sub off len off' len' p :
  off' + len' ≤ len → sub off' len' (sub off len p) = sub (off + off') len' p.
Proof.
  intros. apply list_eq. intros i. rewrite !lookup_sub. case_decide; [|done].
  rewrite decide_True by lia. f_equal. lia.
Qed.

Lemma drop_sub off len p : off + len ≤ length p → drop off p = sub off len p ++ drop (off + len) p.
Proof.
  intros. unfold sub. rewrite <- (take_drop len (drop off p)) at 1.
  by rewrite drop_drop.
Qed.

Lemma sub_split off a b p : sub off (a + b) p = sub off a p ++ sub (off + a) b p.
Proof. unfold sub. by rewrite <- take_take_drop, drop_drop. Qed.

Lemma length_blit off bs p q : blit off bs p = Ok q → length q = length p.
Proof.
  unfold blit. case_decide; [|done]. intros [= <-].
  rewrite !length_app, length_take, length_drop. lia.
Qed.

Lemma lookup_blit off bs p q i :
  blit off bs p = Ok q →
  q !! i = if decide (off ≤ i < off + length bs) then bs !! (i - off) else p !! i.
Proof.
  unfold blit. case_decide as Hr; [|done]. intros [= <-].
  destruct (decide (i < off)) as [Hlt|Hge].
  - rewrite decide_False by lia. rewrite lookup_app_l by (rewrite length_take; lia).
    rewrite lookup_take. by rewrite decide_True.
  - rewrite lookup_app_r by (rewrite length_take; lia).
    rewrite length_take, Nat.min_l by lia.
    case_decide.
    + by rewrite lookup_app_l by lia.
    + rewrite lookup_app_r by lia. rewrite lookup_drop. f_equal. lia.
Qed.

Lemma blit_Ok off bs p :
  off + length bs ≤ length p → ∃ q, blit off bs p = Ok q.
Proof. intros. unfold blit. rewrite decide_True by lia. eauto. Qed.

Lemma sub_blit_same off bs p q : blit off bs p = Ok q → sub off (length bs) q = bs.
Proof.
  intros H. apply list_eq. intros i. rewrite lookup_sub.
  rewrite (lookup_blit _ _ _ _ _ H). repeat case_decide; try lia.
  - f_equal. lia.
  - symmetry. apply lookup_ge_None_2. lia.
Qed.

Lemma sub_blit_disj off bs p q off' len' :
  blit off bs p = Ok q → off' + len' ≤ off ∨ off + length bs ≤ off' →
  sub off' len' q = sub off' len' p.
Proof.
  intros H Hd. apply list_eq. intros i. rewrite !lookup_sub. case_decide; [|done].
  rewrite (lookup_blit _ _ _ _ _ H). by rewrite decide_False by lia.
Qed.
End Slices.

(** * Machine integers and bytes *)

(** A byte is a [Z] below 256. *)
Abbreviation bytes := (list Z).

(** Case analysis on every boolean comparison of [Z] in the goal. *)
Ltac zcases :=
  repeat match goal with
  | |- context [(?a <? ?b)%Z] => destruct (Z.ltb_spec a b)
  | |- context [(?a <=? ?b)%Z] => destruct (Z.leb_spec a b)
  | |- context [(?a =? ?b)%Z] => destruct (Z.eqb_spec a b)
  | |- context [(?a ?= ?b)%Z] => destruct (Z.compare_spec a b)
  end.

(** Bytes are [Z] values in [0, 256); words of [w] bits are [Z] values in
    [0, 2^w), and [iw] values in [-2^(w-1), 2^(w-1)). *)
Definition is_byte (b : Z) : Prop := (0 ≤ b < 256)%Z.
Definition is_uint (w z : Z) : Prop := (0 ≤ z < 2 ^ w)%Z.
Definition is_sint (w z : Z) : Prop := (- 2 ^ (w - 1) ≤ z < 2 ^ (w - 1))%Z.

(** [x as uW] and [x as iW]. *)
Definition to_uint (w z : Z) : Z := (z mod 2 ^ w)%Z.
Definition to_sint (w z : Z) : Z :=
  let u := (z mod 2 ^ w)%Z in if (u <? 2 ^ (w - 1))%Z then u else (u - 2 ^ w)%Z.

Fixpoint le_encode (n : nat) (z : Z) : list Z :=
  match n with
  | O => []
  | S n => (z mod 256)%Z :: le_encode n (z / 256)%Z
  end.

Fixpoint le_decode (l : list Z) : Z :=
  match l with
  | [] => 0%Z
  | b :: l => (b + 256 * le_decode l)%Z
  end.

Definition be_encode (n : nat) (z : Z) : list Z := reverse (le_encode n z).
Definition be_decode (l : list Z) : Z := le_decode (reverse l).

Section Words.
Open Scope Z_scope.

Lemma length_le_encode n z : length (le_encode n z) = n.
Proof. revert z; induction n; intros; simpl; auto. Qed.

Lemma length_be_encode n z : length (be_encode n z) = n.
Proof. unfold be_encode. rewrite length_reverse. apply length_le_encode. Qed.

Lemma pow2_8S n : 2 ^ (8 * Z.of_nat (S n)) = 256 * 2 ^ (8 * Z.of_nat n).
Proof.
  replace (8 * Z.of_nat (S n)) with (8 + 8 * Z.of_nat n) by lia.
  by rewrite Z.pow_add_r by lia.
Qed.

Lemma le_decode_encode n z : le_decode (le_encode n z) = z mod 2 ^ (8 * Z.of_nat n).
Proof.
  revert z; induction n as [|n IH]; intros z.
  - simpl. by rewrite Z.mod_1_r.
  - cbn [le_encode le_decode]. rewrite IH, pow2_8S.
    rewrite (Z.rem_mul_r z 256) by lia. lia.
Qed.

Lemma le_decode_encode_id n z :
  0 ≤ z < 2 ^ (8 * Z.of_nat n) → le_decode (le_encode n z) = z.
Proof. intros. rewrite le_decode_encode. by apply Z.mod_small. Qed.

Lemma be_decode_encode_id n z :
  0 ≤ z < 2 ^ (8 * Z.of_nat n) → be_decode (be_encode n z) = z.
Proof.
  intros. unfold be_decode, be_encode. rewrite reverse_involutive.
  by apply le_decode_encode_id.
Qed.

Lemma le_encode_bytes n z : Forall is_byte (le_encode n z).
Proof.
  revert z; induction n; intros z; constructor; auto.
  unfold is_byte. pose proof (Z.mod_pos_bound z 256). lia.
Qed.

Lemma be_encode_bytes n z : Forall is_byte (be_encode n z).
Proof. apply Forall_reverse, le_encode_bytes. Qed.

Lemma le_decode_bound l :
  Forall is_byte l → 0 ≤ le_decode l < 2 ^ (8 * Z.of_nat (length l)).
Proof.
  induction 1 as [|b l Hb Hl IH]; [simpl; lia|].
  cbn [le_decode length]. rewrite pow2_8S. unfold is_byte in Hb. lia.
Qed.

Lemma le_encode_decode l : Forall is_byte l → le_encode (length l) (le_decode l) = l.
Proof.
  induction 1 as [|b l Hb Hl IH]; [done|].
  cbn [length le_encode le_decode]. unfold is_byte in Hb.
  rewrite Z.mul_comm, Z.mod_add, Z.mod_small, Z.div_add, Z.div_small by lia.
  rewrite Z.add_0_l. by rewrite IH.
Qed.

Lemma be_encode_decode l : Forall is_byte l → be_encode (length l) (be_decode l) = l.
Proof.
  intros H. unfold be_encode, be_decode. rewrite <- (length_reverse l).
  rewrite le_encode_decode by by apply Forall_reverse. apply reverse_involutive.
Qed.

Lemma be_encode_S n z :
  be_encode (S n) z = be_encode n (z / 256) ++ [z mod 256].
Proof. unfold be_encode. cbn [le_encode]. by rewrite reverse_cons. Qed.

Lemma is_sint_to_uint w z : 0 < w → is_uint w (to_uint w z).
Proof. intros. unfold is_uint, to_uint. apply Z.mod_pos_bound. by apply Z.pow_pos_nonneg; lia. Qed.

Lemma pow2_split w : 0 < w → 2 ^ w = 2 * 2 ^ (w - 1).
Proof. intros. rewrite <- Z.pow_succ_r by lia. f_equal. lia. Qed.

Lemma to_uint_cases w z :
  0 < w → is_sint w z → to_uint w z = if z <? 0 then z + 2 ^ w else z.
Proof.
  intros Hw [Hl Hh]. unfold to_uint. pose proof (pow2_split w Hw).
  destruct (Z.ltb_spec z 0).
  - rewrite <- (Z.mod_add z 1) by lia. rewrite Z.mod_small; lia.
  - rewrite Z.mod_small; lia.
Qed.

Lemma to_sint_to_uint w z : 0 < w → is_sint w z → to_sint w (to_uint w z) = z.
Proof.
  intros Hw Hs. pose proof (pow2_split w Hw) as Hp. unfold to_sint, to_uint.
  rewrite Z.mod_mod by lia. fold (to_uint w z). rewrite (to_uint_cases w z Hw Hs).
  destruct Hs. zcases; lia.
Qed.

(** Toggling the top bit of a two's complement image shifts it by half the
    range: the classic sign flip of an ordered integer key. *)
Lemma lxor_top_bit w u :
  0 < w → is_uint w u →
  Z.lxor u (2 ^ (w - 1)) = if u <? 2 ^ (w - 1) then u + 2 ^ (w - 1) else u - 2 ^ (w - 1).
Proof.
  intros Hw [Hl Hh]. pose proof (pow2_split w Hw) as Hp.
  assert (0 < 2 ^ (w - 1)) by (apply Z.pow_pos_nonneg; lia).
  assert (Hlow : ∀ v, 0 ≤ v < 2 ^ (w - 1) → Z.lxor v (2 ^ (w - 1)) = v + 2 ^ (w - 1)).
  { intros v Hv. rewrite <- Z.add_nocarry_lxor; [done|].
    apply Z.bits_inj'. intros i Hi. rewrite Z.land_spec, Z.bits_0.
    rewrite Z.pow2_bits_eqb by lia.
    destruct (Z.eqb_spec (w - 1) i) as [<-|]; [|by rewrite andb_false_r].
    rewrite andb_true_r, <- (Z.mod_small v (2 ^ (w - 1))) by done.
    apply Z.mod_pow2_bits_high. lia. }
  destruct (Z.ltb_spec u (2 ^ (w - 1))); [by apply Hlow|].
  replace u with ((u - 2 ^ (w - 1)) + 2 ^ (w - 1)) at 1 by lia.
  rewrite <- Hlow by lia. rewrite Z.lxor_assoc, Z.lxor_nilpotent, Z.lxor_0_r. done.
Qed.

Lemma flip_sint w z :
  0 < w → is_sint w z → Z.lxor (to_uint w z) (2 ^ (w - 1)) = z + 2 ^ (w - 1).
Proof.
  intros Hw Hs. rewrite lxor_top_bit by (auto using is_sint_to_uint).
  rewrite to_uint_cases by done. pose proof (pow2_split w Hw). destruct Hs.
  zcases; lia.
Qed.
End Words.

(** * Byte-string order *)

(** [<[u8] as Ord>::cmp], the memcmp order. *)
Fixpoint lex_cmp (a b : list Z) : comparison :=
  match a, b with
  | [], [] => Eq
  | [], _ :: _ => Lt
  | _ :: _, [] => Gt
  | x :: a, y :: b =>
      match (x ?= y)%Z with Eq => lex_cmp a b | c => c end
  end.

Section Lex.
Implicit Types a b c : list Z.

Lemma lex_cmp_refl a : lex_cmp a a = Eq.
Proof. induction a as [|x a IH]; simpl; [done|]. by rewrite Z.compare_refl. Qed.

Lemma lex_cmp_eq a b : lex_cmp a b = Eq ↔ a = b.
Proof.
  split; [|intros ->; apply lex_cmp_refl].
  revert b; induction a as [|x a IH]; intros [|y b]; simpl; try done.
  destruct (Z.compare_spec x y); try done. subst. by intros <-%IH.
Qed.

Lemma lex_cmp_antisym a b : lex_cmp b a = CompOpp (lex_cmp a b).
Proof.
  revert b; induction a as [|x a IH]; intros [|y b]; simpl; try done.
  rewrite (Z.compare_antisym x y). destruct (x ?= y)%Z; simpl; auto.
Qed.

Lemma lex_lt_trans a b c : lex_cmp a b = Lt → lex_cmp b c = Lt → lex_cmp a c = Lt.
Proof.
  revert b c; induction a as [|x a IH]; intros [|y b] [|z c]; simpl; try done.
  destruct (Z.compare_spec x y), (Z.compare_spec y z); try done; subst; intros.
  - rewrite Z.compare_refl. eauto.
  - destruct (Z.compare_spec y z); [lia|done|lia].
  - destruct (Z.compare_spec x z); [lia|done|lia].
  - destruct (Z.compare_spec x z); [lia|done|lia].
Qed.

Lemma lex_cmp_app_l p a b : lex_cmp (p ++ a) (p ++ b) = lex_cmp a b.
Proof. induction p as [|x p IH]; simpl; [done|]. by rewrite Z.compare_refl. Qed.

(** Strings of one length compare by their first difference, whatever
    follows. *)
Lemma lex_cmp_app_same_length a b a' b' :
  length a = length b →
  lex_cmp (a ++ a') (b ++ b') =
    match lex_cmp a b with Eq => lex_cmp a' b' | c => c end.
Proof.
  revert b; induction a as [|x a IH]; intros [|y b]; simpl; intros Hl; try done.
  destruct (x ?= y)%Z; auto.
Qed.
End Lex.

Definition key_lt (a b : list Z) : Prop := lex_cmp a b = Lt.
Definition key_le (a b : list Z) : Prop := lex_cmp a b ≠ Gt.

From Stdlib Require Import Structures.Orders Structures.OrdersTac Structures.GenericMinMax.

(** The order tactic of the standard library at the byte-string order. *)
Module KeyOrder <: TotalOrder.
Definition t := list Z.
Definition eq := @eq t.
Definition eq_equiv : Equivalence eq := eq_equivalence.
Definition lt := key_lt.
Definition le := key_le.
Lemma lt_strorder : StrictOrder lt.
Proof.
  split.
  - intros a. unfold complement, lt, key_lt. by rewrite lex_cmp_refl.
  - intros a b c. apply lex_lt_trans.
Qed.
Lemma lt_compat : Proper (eq ==> eq ==> iff) lt.
Proof. by intros ?? -> ?? ->. Qed.
Lemma le_lteq a b : le a b ↔ lt a b ∨ eq a b.
Proof.
  unfold le, lt, key_le, key_lt, eq. rewrite <- lex_cmp_eq.
  destruct (lex_cmp a b); naive_solver.
Qed.
Lemma lt_total a b : lt a b ∨ eq a b ∨ lt b a.
Proof.
  unfold lt, key_lt, eq. rewrite <- lex_cmp_eq, (lex_cmp_antisym a b).
  destruct (lex_cmp a b); naive_solver.
Qed.
End KeyOrder.
Module KeyTac := !MakeOrderTac KeyOrder KeyOrder.

(** Solves goals about [key_lt], [key_le] and equality of byte strings. *)
Ltac korder :=
  change key_lt with KeyOrder.lt in *; change key_le with KeyOrder.le in *;
  change (@eq (list Z)) with KeyOrder.eq in *; KeyTac.order.

Lemma lex_cmp_spec (a b : list Z) :
  CompareSpec (a = b) (key_lt a b) (key_lt b a) (lex_cmp a b).
Proof.
  destruct (lex_cmp a b) eqn:E; constructor.
  - by apply lex_cmp_eq.
  - done.
  - unfold key_lt. by rewrite lex_cmp_antisym, E.
Qed.

#[global] Instance key_lt_dec a b : Decision (key_lt a b).
Proof. unfold key_lt. apply _. Defined.

(** * Lists *)

(** [Vec::insert]. *)
Definition insert_at {A} (i : nat) (x : A) (l : list A) : list A :=
  take i l ++ x :: drop i l.

Section Lists.
Context {A : Type}.
Implicit Types (l : list A) (x : A) (i j : nat).

Lemma length_insert_at i x l : length (insert_at i x l) = S (length l).
Proof.
  unfold insert_at. rewrite length_app. cbn [length]. rewrite length_take, length_drop. lia.
Qed.

Lemma lookup_insert_at i x l j :
  i ≤ length l →
  insert_at i x l !! j =
    if decide (j < i) then l !! j else if decide (j = i) then Some x else l !! (j - 1).
Proof.
  intros Hi. unfold insert_at. repeat case_decide.
  - rewrite lookup_app_l by (rewrite length_take; lia). rewrite lookup_take.
    by rewrite decide_True.
  - subst. rewrite lookup_app_r by (rewrite length_take; lia).
    rewrite length_take, Nat.min_l, Nat.sub_diag by lia. done.
  - rewrite lookup_app_r by (rewrite length_take; lia).
    rewrite length_take, Nat.min_l by lia.
    destruct (j - i) as [|m] eqn:E; [lia|]. change ((x :: drop i l) !! S m) with (drop i l !! m).
    rewrite lookup_drop. f_equal. lia.
Qed.

Lemma Forall_insert_at (P : A → Prop) i x l :
  P x → Forall P l → Forall P (insert_at i x l).
Proof.
  intros. unfold insert_at. apply Forall_app. split; [by apply Forall_take|].
  constructor; [done|by apply Forall_drop].
Qed.

Lemma Forall_delete_list (P : A → Prop) i l : Forall P l → Forall P (delete i l).
Proof.
  intros. rewrite delete_take_drop. apply Forall_app.
  split; [by apply Forall_take|by apply Forall_drop].
Qed.

Lemma map_insert_at {B} (f : A → B) i x l :
  map f (insert_at i x l) = insert_at i (f x) (map f l).
Proof. unfold insert_at. by rewrite map_app, firstn_map, skipn_map. Qed.

Lemma map_delete {B} (f : A → B) i l : map f (delete i l) = delete i (map f l).
Proof. by rewrite !delete_take_drop, map_app, firstn_map, skipn_map. Qed.
End Lists.

(** A pass over the indices of a list, one successful step per element. *)
Lemma mapM_seq {A B} (l : list A) (f : nat → res B) (g : A → B) :
  (∀ i x, l !! i = Some x → f i = Ok (g x)) → mapM f (seq 0 (length l)) = Ok (map g l).
Proof.
  intros Hf. assert (∀ l a, (∀ i c, l !! i = Some c → f (a + i) = Ok (g c)) →
    mapM f (seq a (length l)) = Ok (map g l)) as Hgen; [|by apply Hgen].
  clear Hf l. induction l as [|c l IH]; intros a Hf; [done|]. cbn.
  pose proof (Hf 0 c eq_refl) as Hf0. rewrite Nat.add_0_r in Hf0. rewrite Hf0. cbn.
  rewrite (IH (S a)); [done|]. intros i c' Hi. rewrite <- (Hf (S i) c' Hi). f_equal. lia.
Qed.

Lemma sum_list_app (l l' : list nat) : sum_list (l ++ l') = sum_list l + sum_list l'.
Proof. induction l; simpl; lia. Qed.

Lemma sum_list_insert_at i x (l : list nat) : sum_list (insert_at i x l) = x + sum_list l.
Proof.
  unfold insert_at. rewrite <- (take_drop i l) at 3. rewrite !sum_list_app. simpl. lia.
Qed.

Lemma sum_list_delete i x (l : list nat) :
  l !! i = Some x → sum_list l = x + sum_list (delete i l).
Proof.
  intros H. rewrite delete_take_drop. rewrite <- (take_drop_middle l i x H) at 1.
  rewrite !sum_list_app. simpl. lia.
Qed.

#[global] Arguments sub : simpl never.
#[global] Arguments le_encode : simpl never.
#[global] Arguments le_decode : simpl never.
#[global] Arguments be_encode : simpl never.
#[global] Arguments be_decode : simpl never.
#[global] Arguments insert_at : simpl never.
#[global] Arguments slice : simpl never.
#[global] Arguments get_range : simpl never.
#[global] Arguments blit : simpl never.

(** * Results of decoders *)

(** [r] is no panic, and its value satisfies [Q]. *)
Definition yields {A} (r : res A) (Q : A → Prop) : Prop :=
  match r with Ok a => Q a | Err _ => True | Panic => False end.

Lemma yields_bind {A B} (r : res A) (f : A → res B) Q : yields r (λ a, yields (f a) Q) → yields (r ≫= f) Q.
Proof. by destruct r. Qed.
Lemma yields_mono {A} (r : res A) (P Q : A → Prop) : yields r P → (∀ a, P a → Q a) → yields r Q.
Proof. destruct r; cbn; auto. Qed.
Lemma yields_option {A} e (o : option A) (Q : A → Prop) : (∀ a, o = Some a → Q a) → yields (res_of_option e o) Q.
Proof. destruct o; cbn; auto. Qed.

Lemma get_range_inv {A} a b (p q : list A) : get_range a b p = Some q →
  (a ≤ b ≤ length p)%nat ∧ q = sub a (b - a) p.
Proof. unfold get_range. case_match; [|done]. intros [= <-]. naive_solver. Qed.

Lemma Forall_sub {A} (P : A → Prop) off len l : Forall P l → Forall P (sub off len l).
Proof. intros H. unfold sub. by apply Forall_take, Forall_drop. Qed.

Lemma be_decode_bound l : Forall is_byte l → (0 ≤ be_decode l < 2 ^ (8 * Z.of_nat (length l)))%Z.
Proof. intros H. unfold be_decode. rewrite <- length_reverse. apply le_decode_bound. by apply Forall_reverse. Qed.
