(* ===== verification/BtreeNode.v ===== *)
(** B+tree pages at the byte level: the slotted-page layout of
    [crates/mpedb-core/src/btree.rs] (header and cell accessors, free-space
    management, binary search, cell encoders), the representation predicate
    [node_rep] that relates the 4096 bytes of a page to its list of cells,
    and the theorems that every page operation implements the corresponding
    list operation. *)

From S2P Require Import Prelude.

(** * Layout constants *)

Definition PAGE_SIZE : nat := Z.to_nat 4096.
Definition MAX_KEY : nat := Z.to_nat 976.
Definition MAX_INLINE_VAL : nat := Z.to_nat 1024.
Definition HDR : nat := 16.
Definition KIND_BRANCH : Z := 1.
Definition KIND_LEAF : Z := 2.
Definition KIND_OVERFLOW : Z := 3.
Definition OVERFLOW_CAP : nat := PAGE_SIZE - HDR.
Definition EXTENT_REF_LEN : nat := 20.
Definition EXTERNAL_REF_LEN : nat := 24.

(** Arithmetic with the layout constants unfolded. *)
Ltac sizes :=
  unfold OVERFLOW_CAP, PAGE_SIZE, MAX_KEY, MAX_INLINE_VAL, HDR,
    EXTENT_REF_LEN, EXTERNAL_REF_LEN in *; lia.


Definition corrupt (msg : string) : Error := Corrupt (String.append "btree: " msg).

(** * Header accessors *)

Definition kind (p : bytes) : Z := default 0%Z (p !! 0).
Definition nkeys (p : bytes) : nat := Z.to_nat (le_decode (sub 2 2 p)).
Definition set_nkeys (n : nat) : M bytes unit :=
  update (blit 2 (le_encode 2 (Z.of_nat n))).
Definition cell_start (p : bytes) : nat := Z.to_nat (le_decode (sub 4 2 p)).
Definition set_cell_start (v : nat) : M bytes unit :=
  update (blit 4 (le_encode 2 (Z.of_nat v))).
Definition extra (p : bytes) : Z := le_decode (sub 8 8 p).
Definition set_extra (v : Z) : M bytes unit := update (blit 8 (le_encode 8 v)).
Definition slot (p : bytes) (i : nat) : res nat :=
  let off := HDR + i * 2 in
  b ← slice off (off + 2) p; Ok (Z.to_nat (le_decode b)).
Definition set_slot (i v : nat) : M bytes unit :=
  let off := HDR + i * 2 in
  update (blit off (le_encode 2 (Z.of_nat v))).

Definition init_node (k : Z) : M bytes unit :=
  update (blit 0 (replicate HDR 0%Z));;
  update (blit 0 [k]);;
  set_cell_start PAGE_SIZE.

Definition check_node (p : bytes) : res unit :=
  if bool_decide (kind p = KIND_LEAF ∨ kind p = KIND_BRANCH) then
    let n := nkeys p in
    let cs := cell_start p in
    if bool_decide ((PAGE_SIZE - HDR) / 2 < n ∨ ¬ (HDR ≤ cs ≤ PAGE_SIZE)
                    ∨ cs < HDR + n * 2)
    then Err (corrupt "corrupt node header")
    else Ok tt
  else if bool_decide (kind p = KIND_OVERFLOW) then Ok tt
  else Err (corrupt "bad page kind").

(** * Cell accessors *)

Inductive LeafVal :=
| Inline (v : bytes)
| Overflow (total_len first_page : Z)
| Extent (start_page total_len npages : Z)
| External (hash total_len : Z).

Definition cell_bytes (p : bytes) (i : nat) : res bytes :=
  off ← slot p i;
  if bool_decide (HDR ≤ off < PAGE_SIZE) then slice off (length p) p
  else Err (corrupt "cell offset out of range").

(** The value part of a leaf cell, after the key. *)
Definition leaf_val (vkind : Z) (rest : bytes) : res LeafVal :=
  match vkind with
  | 0%Z =>
      if bool_decide (length rest < 2) then Err (corrupt "truncated inline len")
      else
        let vlen := Z.to_nat (le_decode (sub 0 2 rest)) in
        v ← res_of_option (corrupt "truncated inline value") (get_range 2 (2 + vlen) rest);
        Ok (Inline v)
  | 1%Z =>
      if bool_decide (length rest < 12) then Err (corrupt "truncated overflow ref")
      else Ok (Overflow (le_decode (sub 0 4 rest)) (le_decode (sub 4 8 rest)))
  | 4%Z =>
      if bool_decide (length rest < EXTERNAL_REF_LEN)
      then Err (corrupt "truncated external ref")
      else
        let hash := le_decode (sub 0 16 rest) in
        let total_len := le_decode (sub 16 8 rest) in
        if bool_decide (total_len = 0%Z)
        then Err (corrupt "external ref of zero length")
        else Ok (External hash total_len)
  | 2%Z =>
      if bool_decide (length rest < EXTENT_REF_LEN)
      then Err (corrupt "truncated extent ref")
      else
        let start_page := le_decode (sub 0 8 rest) in
        let total_len := le_decode (sub 8 8 rest) in
        let npages := le_decode (sub 16 4 rest) in
        if bool_decide (2 ^ 64 ≤ total_len + 4095)%Z
        then Err (corrupt "extent length overflow")
        else if bool_decide (npages ≠ (total_len + 4095) / 4096 ∨ npages = 0)%Z
        then Err (corrupt "extent length/page-count mismatch")
        else if bool_decide (2 ^ 64 ≤ start_page + npages)%Z
        then Err (corrupt "extent run overflows the page space")
        else Ok (Extent start_page total_len npages)
  | 3%Z => Err (corrupt "extent kind base+diff is reserved but not yet supported")
  | _ => Err (corrupt "bad vkind")
  end.

Definition leaf_cell (p : bytes) (i : nat) : res (bytes * LeafVal) :=
  c ← cell_bytes p i;
  if bool_decide (length c < 3) then Err (corrupt "truncated leaf cell")
  else
    let klen := Z.to_nat (le_decode (sub 0 2 c)) in
    let vkind := default 0%Z (c !! 2) in
    key ← res_of_option (corrupt "truncated key") (get_range 3 (3 + klen) c);
    rest ← slice (3 + klen) (length c) c;
    val ← leaf_val vkind rest;
    Ok (key, val).

Definition leaf_cell_len (p : bytes) (i : nat) : res nat :=
  '(key, val) ← leaf_cell p i;
  Ok (match val with
      | Inline v => 3 + length key + 2 + length v
      | Overflow _ _ => 3 + length key + 12
      | Extent _ _ _ => 3 + length key + EXTENT_REF_LEN
      | External _ _ => 3 + length key + EXTERNAL_REF_LEN
      end).

Definition branch_cell (p : bytes) (i : nat) : res (bytes * Z) :=
  c ← cell_bytes p i;
  if bool_decide (length c < 2) then Err (corrupt "truncated branch cell")
  else
    let klen := Z.to_nat (le_decode (sub 0 2 c)) in
    key ← res_of_option (corrupt "truncated key") (get_range 2 (2 + klen) c);
    child_raw ← res_of_option (corrupt "truncated child")
                  (get_range (2 + klen) (2 + klen + 8) c);
    Ok (key, le_decode child_raw).

Definition branch_cell_len (p : bytes) (i : nat) : res nat :=
  '(key, _) ← branch_cell p i; Ok (2 + length key + 8).

Definition branch_child (p : bytes) (idx : nat) : res Z :=
  match idx with
  | O => Ok (extra p)
  | S i => '(_, c) ← branch_cell p i; Ok c
  end.

Definition set_branch_child (idx : nat) (child : Z) : M bytes unit :=
  match idx with
  | O => set_extra child
  | S i =>
      off ← reads (λ p, slot p i);
      kl ← reads (slice off (off + 2));
      let klen := Z.to_nat (le_decode kl) in
      let coff := off + 2 + klen in
      if bool_decide (PAGE_SIZE < coff + 8)
      then lift (Err (corrupt "child pointer out of range"))
      else update (blit coff (le_encode 8 child))
  end.

(** * Free space *)

Definition free_space (p : bytes) : nat := cell_start p - (HDR + nkeys p * 2).

Definition cell_len (p : bytes) (i : nat) : res nat :=
  if bool_decide (kind p = KIND_LEAF) then leaf_cell_len p i else branch_cell_len p i.

Definition used_cell_bytes (p : bytes) : res nat :=
  ls ← mapM (cell_len p) (seq 0 (nkeys p)); Ok (sum_list ls).

(** One cell's bytes, as [compact] and [all_cells] copy them out. *)
Definition cell_copy (p : bytes) (i : nat) : res bytes :=
  len ← cell_len p i;
  off ← slot p i;
  slice off (off + len) p.

Definition all_cells (p : bytes) : res (list bytes) :=
  mapM (cell_copy p) (seq 0 (nkeys p)).

Fixpoint compact_loop (cells : list bytes) (i pos : nat) : M bytes nat :=
  match cells with
  | [] => mret pos
  | c :: cells =>
      if bool_decide (pos < length c) then lift Panic
      else
        let pos := pos - length c in
        update (blit pos c);;
        set_slot i pos;;
        compact_loop cells (S i) pos
  end.

Definition compact : M bytes unit :=
  cells ← reads all_cells;
  pos ← compact_loop cells 0 PAGE_SIZE;
  set_cell_start pos.

(** [for j in (i..i+k).rev()]: slot [j] moves to [j+1]. *)
Fixpoint shift_right (i k : nat) : M bytes unit :=
  match k with
  | O => mret tt
  | S k =>
      v ← reads (λ p, slot p (i + k));
      set_slot (S (i + k)) v;;
      shift_right i k
  end.

Definition insert_cell (i : nat) (cell : bytes) : M bytes unit :=
  full ← reads (λ p, Ok (bool_decide (free_space p < length cell + 2)));
  (if (full : bool) then
     compact;;
     still ← reads (λ p, Ok (bool_decide (free_space p < length cell + 2)));
     (if (still : bool) then lift (Err (Internal "insert_cell without space")) else mret tt)
   else mret tt);;
  n ← reads (λ p, Ok (nkeys p));
  cs ← reads (λ p, Ok (cell_start p));
  if bool_decide (cs < length cell) then lift Panic
  else
    let pos := cs - length cell in
    update (blit pos cell);;
    set_cell_start pos;;
    shift_right i (n - i);;
    set_slot i pos;;
    set_nkeys (S n).

(** [for j in j..j+k]: slot [j] moves to [j-1]. *)
Fixpoint shift_left (j k : nat) : M bytes unit :=
  match k with
  | O => mret tt
  | S k =>
      v ← reads (λ p, slot p j);
      set_slot (j - 1) v;;
      shift_left (S j) k
  end.

Definition remove_cell (i : nat) : M bytes unit :=
  n ← reads (λ p, Ok (nkeys p));
  shift_left (S i) (n - S i);;
  if bool_decide (n = 0) then lift Panic else set_nkeys (n - 1).

Definition fits (p : bytes) (cell_len : nat) : res bool :=
  if bool_decide (cell_len + 2 ≤ free_space p) then Ok true
  else
    used ← used_cell_bytes p;
    Ok (bool_decide (cell_len ≤ PAGE_SIZE - (HDR + (nkeys p + 1) * 2 + used))).

Definition used_span (p : bytes) : nat * nat :=
  if bool_decide (length p ≠ PAGE_SIZE) then (PAGE_SIZE, PAGE_SIZE)
  else if bool_decide (kind p = KIND_LEAF ∨ kind p = KIND_BRANCH) && is_ok (check_node p)
  then (HDR + nkeys p * 2, cell_start p)
  else if bool_decide (kind p = KIND_OVERFLOW) then
    let payload := Z.to_nat (le_decode (sub 6 2 p)) in
    ((HDR + payload) `min` PAGE_SIZE, PAGE_SIZE)
  else (PAGE_SIZE, PAGE_SIZE).

(** * Key search *)

Definition key_at (p : bytes) (i : nat) : res bytes :=
  if bool_decide (kind p = KIND_LEAF)
  then '(k, _) ← leaf_cell p i; Ok k
  else '(k, _) ← branch_cell p i; Ok k.

(** The result of a search: found at a slot, or the first slot above. *)
Inductive Found := FoundAt (i : nat) | NotFound (i : nat).

Fixpoint search_loop (fuel : nat) (p key : bytes) (lo hi : nat) : res Found :=
  match fuel with
  | O => Panic
  | S fuel =>
      if bool_decide (lo < hi) then
        let mid := (lo + hi) / 2 in
        k ← key_at p mid;
        match lex_cmp k key with
        | Lt => search_loop fuel p key (mid + 1) hi
        | Gt => search_loop fuel p key lo mid
        | Eq => Ok (FoundAt mid)
        end
      else Ok (NotFound lo)
  end.

Definition search (p key : bytes) : res Found :=
  search_loop (S (nkeys p)) p key 0 (nkeys p).

Definition descent_index (p key : bytes) : res nat :=
  f ← search p key;
  Ok (match f with FoundAt i => i + 1 | NotFound i => i end).

(** * Payloads and cell encoders *)

(** A value on its way into the tree. [Parts] is the concatenation of its
    slices; a [Stream] is a head followed by the bytes its source yields. *)
Inductive Payload :=
| Flat (b : bytes)
| Parts (ps : list bytes)
| Stream (head src : bytes)
| ExtentRef (start_page total_len npages : Z)
| ExternalRef (hash total_len : Z).

Definition payload_len (v : Payload) : nat :=
  match v with
  | Flat b => length b
  | Parts ps => sum_list (map length ps)
  | Stream head src => length head + length src
  | ExtentRef _ _ _ => EXTENT_REF_LEN
  | ExternalRef _ _ => EXTERNAL_REF_LEN
  end.

Definition pieces (v : Payload) : list bytes :=
  match v with
  | Flat b => [b]
  | Parts ps => ps
  | Stream _ _ | ExtentRef _ _ _ | ExternalRef _ _ => []
  end.

Definition make_leaf_cell (key : bytes) (val : Payload) (overflow_page : Z) : bytes :=
  let c := le_encode 2 (Z.of_nat (length key)) in
  match val with
  | ExtentRef start_page total_len npages =>
      c ++ [2%Z] ++ key ++ le_encode 8 start_page ++ le_encode 8 total_len
        ++ le_encode 4 npages
  | ExternalRef hash total_len =>
      c ++ [4%Z] ++ key ++ le_encode 16 hash ++ le_encode 8 total_len
  | _ =>
      if bool_decide (overflow_page = 0%Z) then
        c ++ [0%Z] ++ key ++ le_encode 2 (Z.of_nat (payload_len val))
          ++ mjoin (pieces val)
      else
        c ++ [1%Z] ++ key ++ le_encode 4 (Z.of_nat (payload_len val))
          ++ le_encode 8 overflow_page
  end.

Definition make_branch_cell (key : bytes) (child : Z) : bytes :=
  le_encode 2 (Z.of_nat (length key)) ++ key ++ le_encode 8 child.

(** * Well-formed cells *)

(** The bytes of a leaf cell that holds [v] under [key]. *)
Definition enc_leaf_val (v : LeafVal) : Z * bytes :=
  match v with
  | Inline b => (0%Z, le_encode 2 (Z.of_nat (length b)) ++ b)
  | Overflow total first => (1%Z, le_encode 4 total ++ le_encode 8 first)
  | Extent start total npages =>
      (2%Z, le_encode 8 start ++ le_encode 8 total ++ le_encode 4 npages)
  | External hash total => (4%Z, le_encode 16 hash ++ le_encode 8 total)
  end.

Definition enc_leaf (e : bytes * LeafVal) : bytes :=
  le_encode 2 (Z.of_nat (length e.1)) ++ [(enc_leaf_val e.2).1] ++ e.1 ++ (enc_leaf_val e.2).2.

Definition enc_branch (e : bytes * Z) : bytes := make_branch_cell e.1 e.2.

Definition wf_leaf_val (v : LeafVal) : Prop :=
  match v with
  | Inline b => length b ≤ MAX_INLINE_VAL
  | Overflow total first => is_uint 32 total ∧ is_uint 64 first
  | Extent start total npages =>
      is_uint 64 start ∧ is_uint 64 total ∧ is_uint 32 npages ∧
      (total + 4095 < 2 ^ 64 ∧ npages = (total + 4095) / 4096 ∧ npages ≠ 0
       ∧ start + npages < 2 ^ 64)%Z
  | External hash total => is_uint 128 hash ∧ is_uint 64 total ∧ total ≠ 0%Z
  end.

Definition wf_leaf (e : bytes * LeafVal) : Prop :=
  length e.1 ≤ MAX_KEY ∧ wf_leaf_val e.2.

Definition wf_branch (e : bytes * Z) : Prop :=
  length e.1 ≤ MAX_KEY ∧ is_uint 64 e.2.

(** The cells a page of the given kind may hold. *)
Definition wf_cell (k : Z) (c : bytes) : Prop :=
  (k = KIND_LEAF ∧ ∃ e, wf_leaf e ∧ c = enc_leaf e) ∨
  (k = KIND_BRANCH ∧ ∃ e, wf_branch e ∧ c = enc_branch e).

Definition total_len (cells : list bytes) : nat := sum_list (map length cells).

(** No two cells share a byte. *)
Definition disjoint_cells (p : bytes) (cells : list bytes) : Prop :=
  ∀ i j ci cj oi oj, i ≠ j → cells !! i = Some ci → cells !! j = Some cj →
    slot p i = Ok oi → slot p j = Ok oj →
    oi + length ci ≤ oj ∨ oj + length cj ≤ oi.

(** The page [p] holds exactly [cells], in slot order. *)
Record node_rep (p : bytes) (k lm : Z) (cells : list bytes) : Prop := {
  nr_len : length p = PAGE_SIZE;
  nr_kind : kind p = k;
  nr_extra : extra p = lm;
  nr_nkeys : nkeys p = length cells;
  nr_cells : Forall (wf_cell k) cells;
  nr_room : HDR + 2 * length cells ≤ cell_start p;
  nr_slots : ∀ i c, cells !! i = Some c →
    ∃ off, slot p i = Ok off ∧ cell_start p ≤ off ∧ off + length c ≤ PAGE_SIZE
           ∧ sub off (length c) p = c;
  nr_sum : total_len cells + cell_start p ≤ PAGE_SIZE;
  nr_disj : disjoint_cells p cells;
}.

(** * Reading cells back *)

Section Sub.
Context {A : Type}.
Lemma sub_app_here (n : nat) (a r : list A) : length a = n → sub 0 n (a ++ r) = a.
Proof. intros <-. apply sub_app_exact. Qed.
Lemma sub_app_skip (n off len : nat) (a r : list A) :
  length a = n → n ≤ off → sub off len (a ++ r) = sub (off - n) len r.
Proof. intros <- ?. by apply sub_app_r. Qed.
Lemma get_range_skip (a b n : nat) (p : list A) (v r : list A) :
  length p = a → length v = n → b = a + n → get_range a b (p ++ v ++ r) = Some v.
Proof.
  intros <- <- ->. rewrite get_range_Some; [|lia|rewrite !length_app; lia].
  f_equal. rewrite sub_app_skip with (n := length p) by lia.
  replace (length p - length p) with 0 by lia. apply sub_app_here. lia.
Qed.
Lemma slice_skip (a : nat) (p r : list A) :
  length p = a → slice a (length (p ++ r)) (p ++ r) = Ok r.
Proof.
  intros <-. rewrite slice_Ok; [|rewrite length_app; lia|lia].
  f_equal. rewrite length_app, sub_app_skip with (n := length p) by lia.
  rewrite Nat.sub_diag. replace (length p + length r - length p) with (length r) by lia.
  apply sub_0_all.
Qed.
End Sub.

Lemma is_uint_pow n z : is_uint (8 * Z.of_nat n) z → le_decode (le_encode n z) = z.
Proof. intros. by apply le_decode_encode_id. Qed.

Lemma klen_decode (k : bytes) :
  length k ≤ MAX_KEY → Z.to_nat (le_decode (le_encode 2 (Z.of_nat (length k)))) = length k.
Proof. intros. rewrite le_decode_encode_id; sizes. Qed.

Lemma length_enc_leaf e :
  length (enc_leaf e) =
    match e.2 with
    | Inline v => 3 + length e.1 + 2 + length v
    | Overflow _ _ => 3 + length e.1 + 12
    | Extent _ _ _ => 3 + length e.1 + EXTENT_REF_LEN
    | External _ _ => 3 + length e.1 + EXTERNAL_REF_LEN
    end.
Proof.
  unfold enc_leaf. rewrite !length_app, length_le_encode.
  destruct e as [k []]; cbn -[le_encode]; rewrite ?length_app, ?length_le_encode; sizes.
Qed.

Lemma length_enc_branch e : length (enc_branch e) = 2 + length e.1 + 8.
Proof. unfold enc_branch, make_branch_cell. rewrite !length_app, !length_le_encode. lia. Qed.

Lemma leaf_val_enc v r : wf_leaf_val v →
  leaf_val (enc_leaf_val v).1 ((enc_leaf_val v).2 ++ r) = Ok v.
Proof.
  destruct v as [b|t f|st t np|h t]; intros Hwf; unfold enc_leaf_val, leaf_val;
    cbn [fst snd]; cbn [wf_leaf_val] in Hwf; rewrite <- ?app_assoc.
  - rewrite bool_decide_false by (rewrite !length_app, length_le_encode; lia).
    rewrite (sub_app_here 2) by apply length_le_encode.
    rewrite le_decode_encode_id by sizes. rewrite Nat2Z.id.
    by rewrite (get_range_skip 2 (2 + length b) (length b)); [|apply length_le_encode|done|done].
  - destruct Hwf as [? ?].
    rewrite bool_decide_false by (rewrite !length_app, !length_le_encode; lia).
    rewrite (sub_app_here 4) by apply length_le_encode.
    rewrite (sub_app_skip 4) by (rewrite ?length_le_encode; lia).
    rewrite (sub_app_here 8) by apply length_le_encode. by rewrite !is_uint_pow.
  - destruct Hwf as (?&?&?&?&Hn&Hn0&?).
    rewrite bool_decide_false by (rewrite !length_app, !length_le_encode; sizes).
    rewrite (sub_app_here 8) by apply length_le_encode.
    rewrite (sub_app_skip 8 8) by (rewrite ?length_le_encode; lia).
    rewrite (sub_app_skip 8 16) by (rewrite ?length_le_encode; lia).
    change (8 - 8) with 0. change (16 - 8) with 8.
    rewrite (sub_app_skip 8 8) by (rewrite ?length_le_encode; lia).
    rewrite !sub_app_here by (rewrite ?length_le_encode; lia). rewrite !is_uint_pow by done.
    rewrite bool_decide_false by lia. rewrite bool_decide_false by lia.
    by rewrite bool_decide_false by lia.
  - destruct Hwf as (?&?&?).
    rewrite bool_decide_false by (rewrite !length_app, !length_le_encode; sizes).
    rewrite (sub_app_here 16) by apply length_le_encode.
    rewrite (sub_app_skip 16) by (rewrite ?length_le_encode; lia).
    rewrite !sub_app_here by (rewrite ?length_le_encode; lia). rewrite !is_uint_pow by done.
    by rewrite bool_decide_false by done.
Qed.

Section Rep.
Context (p : bytes) (k lm : Z) (cells : list bytes) (Hrep : node_rep p k lm cells).

Lemma wf_cell_nonempty c : wf_cell k c → 0 < length c.
Proof.
  intros [(_&e&_&->)|(_&e&_&->)]; [rewrite length_enc_leaf; destruct e as [? []]; cbn [snd]; sizes|].
  rewrite length_enc_branch. lia.
Qed.

Lemma cell_bytes_ok i c :
  cells !! i = Some c → ∃ rest, cell_bytes p i = Ok (c ++ rest).
Proof.
  intros Hc. destruct (nr_slots _ _ _ _ Hrep _ _ Hc) as (off&Hs&Hlo&Hhi&Hsub).
  pose proof (nr_len _ _ _ _ Hrep) as Hlen. pose proof (nr_room _ _ _ _ Hrep).
  pose proof (wf_cell_nonempty c (Forall_lookup_1 _ _ _ _ (nr_cells _ _ _ _ Hrep) Hc)).
  exists (drop (off + length c) p). unfold cell_bytes. rewrite Hs. cbn [mbind res_mbind].
  rewrite bool_decide_true by sizes. rewrite slice_Ok by lia. f_equal.
  transitivity (drop off p); [|rewrite (drop_sub off (length c)) by lia; by rewrite Hsub].
  unfold sub. apply take_ge. rewrite length_drop. lia.
Qed.

Lemma leaf_cell_ok i e :
  cells !! i = Some (enc_leaf e) → wf_leaf e → leaf_cell p i = Ok e.
Proof.
  intros Hc [Hk Hv]. destruct (cell_bytes_ok i _ Hc) as [rest Hb].
  unfold leaf_cell. rewrite Hb. cbn [mbind res_mbind]. unfold enc_leaf.
  destruct e as [key v]. cbn [fst snd] in *. rewrite <- !app_assoc.
  rewrite bool_decide_false by (rewrite !length_app, length_le_encode; simpl; lia).
  rewrite (sub_app_here 2) by apply length_le_encode. rewrite klen_decode by done.
  rewrite (lookup_app_r _ _ 2) by (rewrite length_le_encode; lia).
  rewrite length_le_encode. cbn [Nat.sub lookup list_lookup app default].
  rewrite cons_middle, (app_assoc (le_encode _ _)).
  erewrite get_range_skip; [|rewrite length_app, length_le_encode; done|done|lia].
  cbn [res_of_option mbind res_mbind]. rewrite (app_assoc _ key).
  rewrite slice_skip by (rewrite !length_app, length_le_encode; simpl; lia).
  cbn [mbind res_mbind id]. by rewrite leaf_val_enc.
Qed.

Lemma branch_cell_ok i e :
  cells !! i = Some (enc_branch e) → wf_branch e → branch_cell p i = Ok e.
Proof.
  intros Hc [Hk Hv]. destruct (cell_bytes_ok i _ Hc) as [rest Hb].
  unfold branch_cell. rewrite Hb. cbn [mbind res_mbind]. unfold enc_branch, make_branch_cell.
  destruct e as [key v]. cbn [fst snd] in *. rewrite <- !app_assoc.
  rewrite bool_decide_false by (rewrite !length_app, length_le_encode; simpl; lia).
  rewrite (sub_app_here 2) by apply length_le_encode. rewrite klen_decode by done.
  rewrite (get_range_skip 2 (2 + length key) (length key)); [|apply length_le_encode|done|done].
  cbn [res_of_option mbind res_mbind]. rewrite (app_assoc _ key).
  erewrite get_range_skip; [|rewrite length_app, length_le_encode; done|apply length_le_encode|lia].
  cbn [res_of_option mbind res_mbind]. by rewrite is_uint_pow.
Qed.

Lemma cell_len_ok i c : cells !! i = Some c → cell_len p i = Ok (length c).
Proof.
  intros Hc. pose proof (Forall_lookup_1 _ _ _ _ (nr_cells _ _ _ _ Hrep) Hc) as Hwf.
  unfold cell_len. rewrite (nr_kind _ _ _ _ Hrep).
  destruct Hwf as [(Hk&e&Hwf&->)|(Hk&e&Hwf&->)].
  - rewrite bool_decide_true by done. unfold leaf_cell_len.
    rewrite (leaf_cell_ok i e) by done. cbn -[enc_leaf]. rewrite length_enc_leaf.
    by destruct e as [? []].
  - rewrite bool_decide_false by by rewrite Hk. unfold branch_cell_len.
    rewrite (branch_cell_ok i e) by done. cbn -[enc_branch]. rewrite length_enc_branch.
    by destruct e.
Qed.

Lemma used_cell_bytes_ok : used_cell_bytes p = Ok (total_len cells).
Proof.
  unfold used_cell_bytes. rewrite (nr_nkeys _ _ _ _ Hrep).
  by rewrite (mapM_seq cells _ length) by apply cell_len_ok.
Qed.

Lemma all_cells_ok : all_cells p = Ok cells.
Proof.
  unfold all_cells. rewrite (nr_nkeys _ _ _ _ Hrep).
  rewrite (mapM_seq cells _ id); [by rewrite map_id|]. intros i c Hc.
  unfold cell_copy. rewrite (cell_len_ok i c Hc). cbn.
  destruct (nr_slots _ _ _ _ Hrep _ _ Hc) as (off&Hs&Hlo&Hhi&Hsub).
  rewrite Hs. cbn. pose proof (nr_len _ _ _ _ Hrep). rewrite slice_Ok by lia.
  replace (off + length c - off) with (length c) by lia. by rewrite Hsub.
Qed.

Lemma check_node_ok : k = KIND_LEAF ∨ k = KIND_BRANCH → check_node p = Ok tt.
Proof.
  intros Hk. unfold check_node. rewrite (nr_kind _ _ _ _ Hrep), bool_decide_true by done.
  pose proof (nr_room _ _ _ _ Hrep). pose proof (nr_sum _ _ _ _ Hrep).
  rewrite (nr_nkeys _ _ _ _ Hrep).
  rewrite bool_decide_false; [done|]. intros [Hn|[Hn|Hn]]; [|sizes|sizes].
  assert ((PAGE_SIZE - HDR) / 2 = Z.to_nat 2040) as Hd by (vm_compute; reflexivity).
  rewrite Hd in Hn. sizes.
Qed.

Lemma fits_ok len : 0 < len →
  fits p len = Ok (bool_decide (HDR + 2 * (length cells + 1) + total_len cells + len ≤ PAGE_SIZE)).
Proof.
  intros Hpos. unfold fits. pose proof (nr_sum _ _ _ _ Hrep). pose proof (nr_room _ _ _ _ Hrep).
  unfold free_space. rewrite (nr_nkeys _ _ _ _ Hrep). case_bool_decide as Hf.
  - rewrite bool_decide_true; [done|]. sizes.
  - rewrite used_cell_bytes_ok. cbn [mbind res_mbind]. f_equal. apply bool_decide_ext.
    sizes.
Qed.
End Rep.

(** * Page updates *)

(** Page code in isolation: it must succeed. *)
Abbreviation wpp := (wp (λ (_ : option Error) (_ : bytes), False)).

(** The header of [q] is the header of [p]. *)
Definition same_hdr (p q : bytes) : Prop :=
  length q = length p ∧ kind q = kind p ∧ nkeys q = nkeys p ∧
  cell_start q = cell_start p ∧ extra q = extra p.

#[global] Instance same_hdr_preorder : PreOrder same_hdr.
Proof. split; [done|]. unfold same_hdr. intros ???. intuition congruence. Qed.

(** Every slice from offset [o] on is the same. *)
Definition same_above (o : nat) (p q : bytes) : Prop :=
  ∀ off len, o ≤ off → sub off len q = sub off len p.

#[global] Instance same_above_preorder o : PreOrder (same_above o).
Proof. split; [done|]. intros ??? H1 H2 off len ?. by rewrite H2, H1. Qed.

Lemma wpp_blit off bs p (Q : unit → bytes → Prop) :
  off + length bs ≤ length p →
  (∀ q, blit off bs p = Ok q → Q tt q) → wpp (update (blit off bs)) Q p.
Proof.
  intros Hle HQ. destruct (blit_Ok off bs p Hle) as [q Hq].
  eapply wp_update; [exact Hq|auto].
Qed.

Lemma blit_same_hdr off bs p q : HDR ≤ off → blit off bs p = Ok q → same_hdr p q.
Proof.
  intros Ho Hb. unfold same_hdr, kind, nkeys, cell_start, extra.
  rewrite (length_blit _ _ _ _ Hb).
  rewrite !(sub_blit_disj _ _ _ _ _ _ Hb) by (unfold HDR in *; lia).
  rewrite (lookup_blit _ _ _ _ _ Hb). rewrite decide_False by (unfold HDR in *; lia). done.
Qed.

Lemma slot_blit off bs p q i :
  blit off bs p = Ok q → HDR + i * 2 + 2 ≤ off ∨ off + length bs ≤ HDR + i * 2 →
  slot q i = slot p i.
Proof.
  intros Hb Hd. unfold slot, slice. rewrite (length_blit _ _ _ _ Hb).
  case_decide; [|done]. cbn [mbind res_mbind].
  by rewrite (sub_blit_disj _ _ _ _ _ _ Hb) by lia.
Qed.

Lemma sub_blit_le off n z p q :
  blit off (le_encode n z) p = Ok q → sub off n q = le_encode n z.
Proof. intros Hb. rewrite <- (length_le_encode n z) at 1. by eapply sub_blit_same. Qed.

Lemma set_slot_spec i v p (Q : unit → bytes → Prop) :
  HDR + i * 2 + 2 ≤ length p → (Z.of_nat v < 65536)%Z →
  (∀ q, same_hdr p q → slot q i = Ok v → (∀ j, j ≠ i → slot q j = slot p j) →
        same_above (HDR + i * 2 + 2) p q → Q tt q) →
  wpp (set_slot i v) Q p.
Proof.
  intros Hle Hv HQ. unfold set_slot. apply wpp_blit; [rewrite length_le_encode; lia|].
  intros q Hb. apply HQ.
  - eapply blit_same_hdr; [|exact Hb]. lia.
  - unfold slot. rewrite slice_Ok by (rewrite ?(length_blit _ _ _ _ Hb); lia).
    replace (HDR + i * 2 + 2 - (HDR + i * 2)) with 2 by lia.
    rewrite (sub_blit_le _ _ _ _ _ Hb). cbn [mbind res_mbind]. f_equal.
    rewrite le_decode_encode_id; lia.
  - intros j Hj. eapply slot_blit; [exact Hb|]. rewrite length_le_encode. lia.
  - intros off len Ho. eapply sub_blit_disj; [exact Hb|]. rewrite length_le_encode. lia.
Qed.

(** Updates of the header words leave slots and cells alone. *)
Lemma hdr_blit_spec off z n p (Q : unit → bytes → Prop) :
  0 < off → off + n ≤ HDR → HDR ≤ length p →
  (∀ q, blit off (le_encode n z) p = Ok q → length q = length p → kind q = kind p →
        (∀ i, slot q i = slot p i) → same_above HDR p q → Q tt q) →
  wpp (update (blit off (le_encode n z))) Q p.
Proof.
  intros Ho Hn Hl HQ. apply wpp_blit; [rewrite length_le_encode; lia|].
  intros q Hb. apply HQ; [done|by eapply length_blit| | |].
  - unfold kind. rewrite (lookup_blit _ _ _ _ _ Hb). by rewrite decide_False by lia.
  - intros i. eapply slot_blit; [exact Hb|]. rewrite length_le_encode. lia.
  - intros o len ?. eapply sub_blit_disj; [exact Hb|]. rewrite length_le_encode. lia.
Qed.

Lemma set_nkeys_spec n p (Q : unit → bytes → Prop) :
  HDR ≤ length p → (Z.of_nat n < 65536)%Z →
  (∀ q, length q = length p → kind q = kind p → nkeys q = n → cell_start q = cell_start p →
        extra q = extra p → (∀ i, slot q i = slot p i) → same_above HDR p q → Q tt q) →
  wpp (set_nkeys n) Q p.
Proof.
  intros Hl Hn HQ. unfold set_nkeys. apply hdr_blit_spec; [lia|unfold HDR; lia|done|].
  intros q Hb ?? Hs Ha. apply HQ; try done.
  - unfold nkeys. rewrite (sub_blit_le _ _ _ _ _ Hb). rewrite le_decode_encode_id; lia.
  - unfold cell_start. by rewrite (sub_blit_disj _ _ _ _ _ _ Hb) by (rewrite length_le_encode; lia).
  - unfold extra. by rewrite (sub_blit_disj _ _ _ _ _ _ Hb) by (rewrite length_le_encode; lia).
Qed.

Lemma set_cell_start_spec v p (Q : unit → bytes → Prop) :
  HDR ≤ length p → (Z.of_nat v < 65536)%Z →
  (∀ q, length q = length p → kind q = kind p → nkeys q = nkeys p → cell_start q = v →
        extra q = extra p → (∀ i, slot q i = slot p i) → same_above HDR p q → Q tt q) →
  wpp (set_cell_start v) Q p.
Proof.
  intros Hl Hn HQ. unfold set_cell_start. apply hdr_blit_spec; [lia|unfold HDR; lia|done|].
  intros q Hb ?? Hs Ha. apply HQ; try done.
  - unfold nkeys. by rewrite (sub_blit_disj _ _ _ _ _ _ Hb) by (rewrite length_le_encode; lia).
  - unfold cell_start. rewrite (sub_blit_le _ _ _ _ _ Hb). rewrite le_decode_encode_id; lia.
  - unfold extra. by rewrite (sub_blit_disj _ _ _ _ _ _ Hb) by (rewrite length_le_encode; lia).
Qed.

Lemma set_extra_spec v p (Q : unit → bytes → Prop) :
  HDR ≤ length p → is_uint 64 v →
  (∀ q, length q = length p → kind q = kind p → nkeys q = nkeys p →
        cell_start q = cell_start p → extra q = v → (∀ i, slot q i = slot p i) →
        same_above HDR p q → Q tt q) →
  wpp (set_extra v) Q p.
Proof.
  intros Hl Hn HQ. unfold set_extra. apply hdr_blit_spec; [lia|unfold HDR; lia|done|].
  intros q Hb ?? Hs Ha. apply HQ; try done.
  - unfold nkeys. by rewrite (sub_blit_disj _ _ _ _ _ _ Hb) by (rewrite length_le_encode; lia).
  - unfold cell_start. by rewrite (sub_blit_disj _ _ _ _ _ _ Hb) by (rewrite length_le_encode; lia).
  - unfold extra. rewrite (sub_blit_le _ _ _ _ _ Hb). by apply le_decode_encode_id.
Qed.

Lemma init_node_rep k p :
  length p = PAGE_SIZE → wpp (init_node k) (λ _ q, node_rep q k 0 []) p.
Proof.
  intros Hl. unfold init_node. apply wp_bind, wpp_blit; [rewrite length_replicate; sizes|].
  intros q Hb. apply wp_bind, wpp_blit; [rewrite (length_blit _ _ _ _ Hb); simpl; sizes|].
  intros q2 Hb2. pose proof (length_blit _ _ _ _ Hb). pose proof (length_blit _ _ _ _ Hb2).
  assert (∀ off len, 1 ≤ off → off + len ≤ HDR → sub off len q2 = replicate len 0%Z) as Hz.
  { intros off len Ho Hh. rewrite (sub_blit_disj _ _ _ _ _ _ Hb2) by (simpl; lia).
    pose proof (sub_blit_same _ _ _ _ Hb) as Hs. rewrite length_replicate in Hs.
    rewrite <- (Nat.add_0_l off), <- (sub_sub 0 HDR) by lia. rewrite Hs. unfold sub.
    rewrite drop_replicate, take_replicate. f_equal. lia. }
  apply set_cell_start_spec; [sizes|sizes|].
  intros q3 Hl3 Hk3 Hn3 Hc3 He3 Hs3 _. split.
  - congruence.
  - rewrite Hk3. unfold kind. rewrite (lookup_blit _ _ _ _ _ Hb2). done.
  - rewrite He3. unfold extra. by rewrite Hz by (unfold HDR; lia).
  - rewrite Hn3. unfold nkeys. by rewrite Hz by (unfold HDR; lia).
  - constructor.
  - rewrite Hc3. simpl. sizes.
  - intros i c Hc. by rewrite lookup_nil in Hc.
  - rewrite Hc3. unfold total_len. simpl. lia.
  - intros i j ci cj oi oj _ Hi. by rewrite lookup_nil in Hi.
Qed.

Definition slot_fits (p : bytes) (j : nat) : Prop :=
  ∃ v, slot p j = Ok v ∧ (Z.of_nat v < 65536)%Z.

Lemma shift_right_spec i k p lim (Q : unit → bytes → Prop) :
  HDR + (i + k) * 2 + 2 ≤ lim → lim ≤ length p →
  (∀ j, i ≤ j < i + k → slot_fits p j) →
  (∀ q, same_hdr p q → same_above lim p q →
        (∀ j, slot q j = if decide (i < j ≤ i + k) then slot p (j - 1) else slot p j) → Q tt q) →
  wpp (shift_right i k) Q p.
Proof.
  revert p Q. induction k as [|k IH]; intros p Q Hlim Hlen Hv HQ; cbn [shift_right].
  - apply wp_ret, HQ; [done|done|]. intros j. by rewrite decide_False by lia.
  - destruct (Hv (i + k)) as (v & Hs & Hlt); [lia|].
    apply wp_bind. eapply wp_reads; [exact Hs|]. apply wp_bind.
    apply set_slot_spec; [lia|done|]. intros q Hh Hsl Ho Ha.
    apply IH; [lia|by rewrite (proj1 Hh)| |].
    + intros j Hj. destruct (Hv j) as (w & Hw & ?); [lia|]. exists w.
      by rewrite Ho by lia.
    + intros q' Hh' Ha' Hs'. apply HQ.
      * by etransitivity.
      * etransitivity; [|exact Ha']. intros o l ?. apply Ha. lia.
      * intros j. rewrite Hs'. repeat case_decide; try lia.
        -- by rewrite Ho by lia.
        -- destruct (decide (j = S (i + k))) as [->|]; [|lia].
           rewrite Hsl. rewrite <- Hs. f_equal. lia.
        -- by rewrite Ho by lia.
Qed.

Lemma shift_left_spec j0 k p (Q : unit → bytes → Prop) lim :
  1 ≤ j0 → HDR + (j0 + k) * 2 ≤ lim → lim ≤ length p →
  (∀ j, j0 ≤ j < j0 + k → slot_fits p j) →
  (∀ q, same_hdr p q → same_above lim p q →
        (∀ j, slot q j = if decide (j0 - 1 ≤ j < j0 - 1 + k) then slot p (S j) else slot p j) → Q tt q) →
  wpp (shift_left j0 k) Q p.
Proof.
  revert j0 p Q. induction k as [|k IH]; intros j0 p Q Hj0 Hlim Hlen Hv HQ; cbn [shift_left].
  - apply wp_ret, HQ; [done|done|]. intros j. by rewrite decide_False by lia.
  - destruct (Hv j0) as (v & Hs & Hlt); [lia|].
    apply wp_bind. eapply wp_reads; [exact Hs|]. apply wp_bind.
    apply set_slot_spec; [lia|done|]. intros q Hh Hsl Ho Ha.
    apply IH; [lia|lia|by rewrite (proj1 Hh)| |].
    + intros j Hj. destruct (Hv j) as (w & Hw & ?); [lia|]. exists w.
      by rewrite Ho by lia.
    + intros q' Hh' Ha' Hs'. apply HQ.
      * by etransitivity.
      * etransitivity; [|exact Ha']. intros o l ?. apply Ha. lia.
      * intros j. rewrite Hs'. repeat case_decide; try lia.
        -- by rewrite Ho by lia.
        -- destruct (decide (j = j0 - 1)) as [->|]; [|lia].
           rewrite Hsl, <- Hs. f_equal. lia.
        -- by rewrite Ho by lia.
Qed.

Lemma nr_slot_fits p k lm cells i :
  node_rep p k lm cells → i < length cells → slot_fits p i.
Proof.
  intros Hr Hi. destruct (lookup_lt_is_Some_2 cells i Hi) as [c Hc].
  destruct (nr_slots _ _ _ _ Hr _ _ Hc) as (off&Hs&?&?&?). exists off. split; [done|sizes].
Qed.

Lemma total_len_app l l' : total_len (l ++ l') = total_len l + total_len l'.
Proof. unfold total_len. by rewrite map_app, sum_list_app. Qed.

(** Part of a compacted page: the cells [cs] sit at slots [0..], packed in
    [pos, PAGE_SIZE). *)
Definition packed (q : bytes) (cs : list bytes) (pos : nat) : Prop :=
  ∀ i c, cs !! i = Some c →
    ∃ off, slot q i = Ok off ∧ pos ≤ off ∧ off + length c ≤ PAGE_SIZE ∧ sub off (length c) q = c.

Lemma disjoint_cells_snoc q cs c pos off :
  disjoint_cells q cs → slot q (length cs) = Ok off → off + length c ≤ pos →
  (∀ i ci oi, cs !! i = Some ci → slot q i = Ok oi → pos ≤ oi) →
  disjoint_cells q (cs ++ [c]).
Proof.
  intros Hd Hs Hle Hge i j ci cj oi oj Hij Hi Hj Hoi Hoj.
  apply lookup_app_Some in Hi as [Hi|[Hi1 Hi2]], Hj as [Hj|[Hj1 Hj2]].
  - eauto.
  - apply list_lookup_singleton_Some in Hj2 as [Hj2 <-].
    replace j with (length cs) in Hoj by lia. det_ok.
    pose proof (Hge _ _ _ Hi Hoi). lia.
  - apply list_lookup_singleton_Some in Hi2 as [Hi2 <-].
    replace i with (length cs) in Hoi by lia. det_ok.
    pose proof (Hge _ _ _ Hj Hoj). lia.
  - apply list_lookup_singleton_Some in Hi2 as [? _], Hj2 as [? _]. lia.
Qed.

Lemma compact_loop_spec todo done pos q n (Q : nat → bytes → Prop) :
  length q = PAGE_SIZE → length done + length todo = n →
  HDR + 2 * n + total_len todo ≤ pos → pos + total_len done = PAGE_SIZE →
  packed q done pos → disjoint_cells q done →
  (∀ q', same_hdr q q' → packed q' (done ++ todo) (pos - total_len todo) →
         disjoint_cells q' (done ++ todo) → Q (pos - total_len todo) q') →
  wpp (compact_loop todo (length done) pos) Q q.
Proof.
  revert done pos q Q. induction todo as [|c todo IH]; intros done pos q Q Hlen Hn Hpos Hdone Hpk Hdj HQ;
    cbn [compact_loop].
  - apply wp_ret. unfold total_len in *. simpl in *. rewrite Nat.sub_0_r in HQ.
    apply HQ; [done|..]; by rewrite app_nil_r.
  - assert (total_len (c :: todo) = length c + total_len todo) as Ht by done.
    rewrite bool_decide_false by lia.
    apply wp_bind, wpp_blit; [sizes|]. intros q1 Hb1. cbn [length] in *.
    pose proof (length_blit _ _ _ _ Hb1) as Hl1.
    apply wp_bind. apply set_slot_spec; [sizes|sizes|]. intros q2 Hh2 Hs2 Ho2 Ha2.
    replace (S (length done)) with (length (done ++ [c])) by (rewrite length_app; simpl; lia).
    assert (same_hdr q q1) as Hh1 by (eapply blit_same_hdr; [|exact Hb1]; lia).
    pose proof (proj1 Hh2) as Hl2. pose proof (sub_blit_same _ _ _ _ Hb1) as Hc1.
    assert (Hold : ∀ j, j < length done → slot q2 j = slot q j).
    { intros j ?. rewrite Ho2 by lia. eapply slot_blit; [exact Hb1|]. lia. }
    apply IH.
    + congruence.
    + rewrite length_app. simpl. lia.
    + lia.
    + rewrite total_len_app. unfold total_len at 2. simpl. lia.
    + intros i c' Hi. apply lookup_app_Some in Hi as [Hi|[Hi1 Hi2]].
      * destruct (Hpk _ _ Hi) as (off&?&?&?&?). exists off.
        pose proof (lookup_lt_Some _ _ _ Hi).
        split_and!; [|lia|lia|].
        -- by rewrite Hold by lia.
        -- rewrite Ha2 by lia. rewrite (sub_blit_disj _ _ _ _ _ _ Hb1); [done|]. lia.
      * apply list_lookup_singleton_Some in Hi2 as [Hi2 <-].
        exists (pos - length c). replace i with (length done) by lia.
        split_and!; [done|lia|sizes|]. rewrite Ha2 by lia. done.
    + apply disjoint_cells_snoc with (pos := pos) (off := pos - length c); [|done|lia|].
      * intros i j ci cj oi oj Hij Hi Hj.
        rewrite !Hold by (by eapply lookup_lt_Some). by apply Hdj.
      * intros i ci oi Hi. rewrite Hold by (by eapply lookup_lt_Some).
        destruct (Hpk _ _ Hi) as (o&->&?&_). by intros [= <-].
    + intros q' Hh'.
      replace (pos - length c - total_len todo) with (pos - total_len (c :: todo)) by lia.
      rewrite <- app_assoc. apply HQ. by do 2 (etransitivity; [eassumption|]).
Qed.

Lemma compact_rep p k lm cells :
  node_rep p k lm cells →
  wpp compact (λ _ q, node_rep q k lm cells ∧ total_len cells + cell_start q = PAGE_SIZE) p.
Proof.
  intros Hr. pose proof (nr_len _ _ _ _ Hr) as Hl. pose proof (nr_sum _ _ _ _ Hr).
  pose proof (nr_room _ _ _ _ Hr).
  unfold compact. apply wp_bind. eapply wp_reads; [by eapply all_cells_ok|]. apply wp_bind.
  apply (compact_loop_spec cells [] PAGE_SIZE p (length cells)); [done|done|lia|done|done|done|].
  intros q Hh Hpk Hdj. pose proof Hh as (Hl'&Hk'&Hn'&_&He'). cbn [app] in Hpk.
  apply set_cell_start_spec; [sizes|sizes|]. intros q2 Hl2 Hk2 Hn2 Hc2 He2 Hs2 Ha2.
  split; [|lia]. split.
  - congruence.
  - rewrite Hk2, Hk'. by apply Hr.
  - rewrite He2, He'. by apply Hr.
  - rewrite Hn2, Hn'. by apply Hr.
  - by apply Hr.
  - lia.
  - intros i c Hc. destruct (Hpk i c Hc) as (off&?&?&?&?). exists off.
    split_and!; [by rewrite Hs2|lia|lia|]. by rewrite Ha2 by lia.
  - lia.
  - intros i j ci cj oi oj. rewrite !Hs2. apply Hdj.
Qed.

(** C-level refinement of [insert_cell] by list insertion. *)
Lemma insert_cell_rep p k lm cells i c :
  node_rep p k lm cells → i ≤ length cells → wf_cell k c →
  HDR + 2 * (length cells + 1) + total_len cells + length c ≤ PAGE_SIZE →
  wpp (insert_cell i c) (λ _ q, node_rep q k lm (insert_at i c cells)) p.
Proof.
  intros Hr Hi Hwf Hfit. unfold insert_cell.
  apply wp_bind. eapply wp_reads; [done|]. apply wp_bind.
  apply (wp_mono _ _ (λ _ q, node_rep q k lm cells ∧
            HDR + 2 * length cells + length c + 2 ≤ cell_start q)).
  { case_bool_decide as Hfull.
    - apply wp_bind. eapply wp_mono; [by apply compact_rep|].
      intros _ q [Hq Hpk]. apply wp_bind. eapply wp_reads; [done|].
      unfold free_space. rewrite (nr_nkeys _ _ _ _ Hq).
      rewrite bool_decide_false by sizes. apply wp_ret. split; [done|sizes].
    - apply wp_ret. split; [done|]. pose proof (nr_room _ _ _ _ Hr).
      unfold free_space in Hfull. rewrite (nr_nkeys _ _ _ _ Hr) in Hfull. lia. }
  clear Hr p. intros _ p [Hr Hroom]. apply wp_bind. eapply wp_reads; [done|].
  apply wp_bind. eapply wp_reads; [done|]. rewrite bool_decide_false by lia.
  pose proof (nr_len _ _ _ _ Hr) as Hl. pose proof (nr_sum _ _ _ _ Hr).
  set (pos := cell_start p - length c).
  apply wp_bind, wpp_blit; [sizes|]. intros q1 Hb1.
  assert (same_hdr p q1) as (Hl1&Hk1&Hn1&Hc1&He1) by (eapply blit_same_hdr; [|exact Hb1]; lia).
  apply wp_bind, set_cell_start_spec; [sizes|sizes|]. intros q2 Hl2 Hk2 Hn2 Hc2 He2 Hs2 Ha2.
  assert (Hslot : ∀ j, j ≤ length cells → slot q2 j = slot p j).
  { intros j ?. rewrite Hs2. eapply slot_blit; [exact Hb1|]. lia. }
  rewrite (nr_nkeys _ _ _ _ Hr).
  apply wp_bind, (shift_right_spec _ _ _ (HDR + length cells * 2 + 2)); [lia|sizes| |].
  { intros j ?. destruct (nr_slot_fits _ _ _ _ j Hr) as (v&?&?); [lia|]. exists v.
    by rewrite Hslot by lia. }
  intros q3 (Hl3&Hk3&Hn3&Hc3&He3) Ha3 Hs3.
  apply wp_bind, set_slot_spec; [sizes|sizes|]. intros q4 (Hl4&Hk4&Hn4&Hc4&He4) Hi4 Ho4 Ha4.
  apply set_nkeys_spec; [sizes|sizes|]. intros q5 Hl5 Hk5 Hn5 Hc5 He5 Hs5 Ha5.
  assert (Hcs : cell_start q5 = pos) by congruence.
  assert (Habove : ∀ o l, HDR + 2 * length cells + 2 ≤ o → sub o l q5 = sub o l q1).
  { intros o l ?. rewrite Ha5, Ha4, Ha3, Ha2 by lia. done. }
  split.
  - congruence.
  - rewrite Hk5, Hk4, Hk3, Hk2, Hk1. by apply Hr.
  - rewrite He5, He4, He3, He2, He1. by apply Hr.
  - rewrite length_insert_at. done.
  - apply Forall_insert_at; [done|by apply Hr].
  - rewrite length_insert_at. lia.
  - intros j c' Hj. rewrite lookup_insert_at in Hj by done. rewrite Hcs, Hs5.
    repeat case_decide; subst.
    + destruct (nr_slots _ _ _ _ Hr _ _ Hj) as (off&?&?&?&?). exists off.
      rewrite Ho4, Hs3, decide_False, Hslot by lia.
      split_and!; [done|lia|done|]. rewrite Habove by lia.
      rewrite (sub_blit_disj _ _ _ _ _ _ Hb1); [done|lia].
    + injection Hj as <-. exists pos. split_and!; [done|lia|lia|].
      rewrite Habove by lia. by eapply sub_blit_same.
    + destruct (nr_slots _ _ _ _ Hr _ _ Hj) as (off&Hoff&?&?&?). exists off.
      pose proof (lookup_lt_Some _ _ _ Hj).
      rewrite Ho4, Hs3, decide_True, Hslot by lia.
      split_and!; [done|lia|done|]. rewrite Habove by lia.
      rewrite (sub_blit_disj _ _ _ _ _ _ Hb1); [done|lia].
  - unfold total_len. rewrite map_insert_at, sum_list_insert_at. unfold total_len in *. lia.
  - assert (Hcase : ∀ j cj oj, insert_at i c cells !! j = Some cj → slot q5 j = Ok oj →
      (j = i ∧ cj = c ∧ oj = pos) ∨
      (j ≠ i ∧ cells !! (if decide (j < i) then j else j - 1) = Some cj ∧
       slot p (if decide (j < i) then j else j - 1) = Ok oj ∧ pos + length c ≤ oj)).
    { intros j cj oj Hj Hs. rewrite lookup_insert_at in Hj by done. rewrite Hs5 in Hs.
      assert (∀ m, cells !! m = Some cj → slot p m = Ok oj → pos + length c ≤ oj) as Hlow.
      { intros m Hm Hsm. destruct (nr_slots _ _ _ _ Hr _ _ Hm) as (?&?&?&?&?). det_ok. lia. }
      repeat case_decide; subst.
      - rewrite Ho4, Hs3, decide_False, Hslot in Hs by lia. eauto 10 with lia.
      - left. split_and!; congruence.
      - pose proof (lookup_lt_Some _ _ _ Hj).
        rewrite Ho4, Hs3, decide_True, Hslot in Hs by lia. eauto 10. }
    intros j j' cj cj' oj oj' Hne Hj Hj' Hs Hs'.
    destruct (Hcase _ _ _ Hj Hs) as [(?&->&->)|(?&Hm&Hsm&?)],
      (Hcase _ _ _ Hj' Hs') as [(?&->&->)|(?&Hm'&Hsm'&?)]; [lia|lia|lia|].
    eapply (nr_disj _ _ _ _ Hr); [|exact Hm|exact Hm'|done|done]. repeat case_decide; lia.
Qed.

Lemma remove_cell_rep p k lm cells i :
  node_rep p k lm cells → i < length cells →
  wpp (remove_cell i) (λ _ q, node_rep q k lm (delete i cells)) p.
Proof.
  intros Hr Hi. pose proof (nr_len _ _ _ _ Hr) as Hl. pose proof (nr_sum _ _ _ _ Hr).
  pose proof (nr_room _ _ _ _ Hr).
  destruct (lookup_lt_is_Some_2 cells i Hi) as [ci Hci].
  unfold remove_cell. apply wp_bind. eapply wp_reads; [done|].
  rewrite (nr_nkeys _ _ _ _ Hr).
  apply wp_bind, (shift_left_spec _ _ _ _ (HDR + 2 * length cells)); [lia|lia|sizes| |].
  { intros j ?. apply (nr_slot_fits _ _ _ _ j Hr). lia. }
  intros q (Hlq&Hkq&Hnq&Hcq&Heq) Haq Hsq. rewrite bool_decide_false by lia.
  apply set_nkeys_spec; [sizes|sizes|]. intros q2 Hl2 Hk2 Hn2 Hc2 He2 Hs2 Ha2.
  split.
  - congruence.
  - rewrite Hk2, Hkq. by apply Hr.
  - rewrite He2, Heq. by apply Hr.
  - rewrite length_delete by eauto. done.
  - apply Forall_delete_list. by apply Hr.
  - rewrite length_delete by eauto. lia.
  - intros j c Hj. rewrite Hs2, Hsq, Hc2, Hcq. rewrite list_lookup_delete in Hj.
    destruct (decide (j < i)).
    + destruct (nr_slots _ _ _ _ Hr _ _ Hj) as (off&?&?&?&?). exists off.
      rewrite decide_False by lia. split_and!; [done|done|done|].
      by rewrite Ha2, Haq by lia.
    + destruct (nr_slots _ _ _ _ Hr _ _ Hj) as (off&?&?&?&?). exists off.
      pose proof (lookup_lt_Some _ _ _ Hj).
      rewrite decide_True by lia. split_and!; [done|done|done|].
      by rewrite Ha2, Haq by lia.
  - unfold total_len in *. rewrite map_delete.
    rewrite (sum_list_delete i (length ci) (map length cells)) in H
      by (rewrite list_lookup_fmap, Hci; done). lia.
  - intros j j' cj cj' oj oj' Hne Hj Hj'. rewrite !Hs2, !Hsq.
    rewrite !list_lookup_delete in Hj, Hj'.
    pose proof (lookup_lt_Some _ _ _ Hj). pose proof (lookup_lt_Some _ _ _ Hj').
    intros Hoj Hoj'. eapply (nr_disj _ _ _ _ Hr); [|exact Hj|exact Hj'|..].
    + repeat case_decide; lia.
    + revert Hoj. repeat case_decide; try lia; done.
    + revert Hoj'. repeat case_decide; try lia; done.
Qed.

Lemma set_extra_rep p k lm cells v :
  node_rep p k lm cells → is_uint 64 v →
  wpp (set_extra v) (λ _ q, node_rep q k v cells) p.
Proof.
  intros Hr Hv. pose proof (nr_len _ _ _ _ Hr) as Hl. pose proof (nr_room _ _ _ _ Hr).
  apply set_extra_spec; [sizes|done|]. intros q ??? Hc ? Hs Ha.
  split; rewrite ?Hc; try (by apply Hr); try congruence.
  - rewrite H1. by apply Hr.
  - rewrite H2. by apply Hr.
  - intros i c Hi. destruct (nr_slots _ _ _ _ Hr _ _ Hi) as (off&?&?&?&?). exists off.
    rewrite Hs, Ha by lia. done.
  - intros i j ci cj oi oj. rewrite !Hs. apply Hr.
Qed.

(** * Child pointers *)

(** Replacing child [idx] of a branch: the leftmost pointer or a cell's. *)
Definition set_child (idx : nat) (child : Z) (lm : Z) (seps : list (bytes * Z))
  : Z * list (bytes * Z) :=
  match idx with
  | O => (child, seps)
  | S i => (lm, alter (λ e, (e.1, child)) i seps)
  end.

Lemma wf_cell_enc_branch e : wf_branch e → wf_cell KIND_BRANCH (enc_branch e).
Proof. intros. right. eauto. Qed.

Lemma wf_cell_enc_leaf e : wf_leaf e → wf_cell KIND_LEAF (enc_leaf e).
Proof. intros. left. eauto. Qed.

(** Overwriting one cell in place by another of the same length. *)
Lemma node_rep_update p q k lm cells i c c' off :
  node_rep p k lm cells → cells !! i = Some c → slot p i = Ok off →
  wf_cell k c' → length c' = length c →
  same_hdr p q → (∀ j, j < length cells → slot q j = slot p j) → sub off (length c') q = c' →
  (∀ o l, o + l ≤ off ∨ off + length c ≤ o → sub o l q = sub o l p) →
  node_rep q k lm (<[i:=c']> cells).
Proof.
  intros Hr Hc Hoff Hwf Hlc (Hl&Hk&Hn&Hcs&He) Hs Hsub Hdis.
  assert (Hlens : map length (<[i:=c']> cells) = map length cells).
  { apply list_eq. intros j. rewrite !list_lookup_fmap.
    destruct (decide (j = i)) as [->|].
    - rewrite list_lookup_insert_eq by (by eapply lookup_lt_Some). rewrite Hc. simpl.
      by rewrite Hlc.
    - by rewrite list_lookup_insert_ne by done. }
  assert (Hlook : ∀ j cj, <[i:=c']> cells !! j = Some cj →
            ∃ cj0, cells !! j = Some cj0 ∧ length cj = length cj0 ∧ (j ≠ i → cj = cj0) ∧ (j = i → cj = c')).
  { intros j cj Hj. apply list_lookup_insert_Some in Hj as [(->&->&?)|(?&?)].
    - exists c. naive_solver.
    - exists cj. naive_solver. }
  split; rewrite ?Hk, ?He, ?Hn, ?Hcs, ?length_insert; try (by apply Hr).
  - rewrite Hl. by apply Hr.
  - apply Forall_insert; [by apply Hr|done].
  - intros j cj Hj. destruct (Hlook _ _ Hj) as (cj0&Hj0&Hlen&Hne&Heq).
    destruct (nr_slots _ _ _ _ Hr _ _ Hj0) as (o&Ho&?&?&?). exists o.
    rewrite Hs by (by eapply lookup_lt_Some). rewrite Hlen.
    split_and!; [done|done|done|]. destruct (decide (j = i)) as [->|Hji].
    + rewrite Heq by done. rewrite <- Hlen, Heq by done. by det_ok.
    + rewrite (Hne Hji). rewrite Hdis; [done|].
      destruct (nr_disj _ _ _ _ Hr j i cj0 c o off); auto.
  - unfold total_len. rewrite Hlens. by apply Hr.
  - intros j j' cj cj' oj oj' Hne Hj Hj'.
    destruct (Hlook _ _ Hj) as (cj0&Hj0&->&_). destruct (Hlook _ _ Hj') as (cj1&Hj1&->&_).
    rewrite !Hs by (by eapply lookup_lt_Some). by apply (nr_disj _ _ _ _ Hr).
Qed.

Lemma set_branch_child_rep p lm seps idx child :
  node_rep p KIND_BRANCH lm (map enc_branch seps) → Forall wf_branch seps →
  idx ≤ length seps → is_uint 64 child →
  wpp (set_branch_child idx child)
    (λ _ q, node_rep q KIND_BRANCH (set_child idx child lm seps).1
              (map enc_branch (set_child idx child lm seps).2)) p.
Proof.
  intros Hr Hwf Hidx Hch. destruct idx as [|i]; [by eapply set_extra_rep|].
  cbn [set_branch_child set_child fst snd].
  destruct (lookup_lt_is_Some_2 seps i ltac:(lia)) as [[k c] Hi].
  pose proof (Forall_lookup_1 _ _ _ _ Hwf Hi) as [Hk Hc]. cbn [fst snd] in *.
  assert (Hcell : map enc_branch seps !! i = Some (enc_branch (k, c)))
    by (rewrite list_lookup_fmap, Hi; done).
  destruct (nr_slots _ _ _ _ Hr _ _ Hcell) as (off&Hoff&Hlo&Hhi&Hsub).
  pose proof (nr_len _ _ _ _ Hr) as Hlen. rewrite length_enc_branch in Hhi, Hsub. cbn [fst] in *.
  assert (Hkl : sub off 2 p = le_encode 2 (Z.of_nat (length k))).
  { replace off with (off + 0) by lia. rewrite <- (sub_sub off (2 + length k + 8)) by lia.
    rewrite Hsub. unfold enc_branch, make_branch_cell. by apply sub_app_here. }
  assert (Hkk : sub off (2 + length k) p = le_encode 2 (Z.of_nat (length k)) ++ k).
  { rewrite sub_split, Hkl. f_equal. rewrite <- (sub_sub off (2 + length k + 8)) by lia.
    rewrite Hsub. unfold enc_branch, make_branch_cell.
    rewrite sub_app_skip with (n := 2) by (rewrite ?length_le_encode; lia).
    by apply sub_app_here. }
  apply wp_bind. eapply wp_reads; [exact Hoff|]. apply wp_bind.
  eapply wp_reads; [apply slice_Ok; lia|]. replace (off + 2 - off) with 2 by lia.
  rewrite Hkl, klen_decode by done. rewrite bool_decide_false by lia.
  apply wpp_blit; [rewrite length_le_encode; lia|]. intros q Hb.
  pose proof (nr_room _ _ _ _ Hr).
  assert (Heq : map enc_branch (alter (λ e, (e.1, child)) i seps)
                = <[i := enc_branch (k, child)]> (map enc_branch seps)).
  { apply list_eq. intros j. rewrite list_lookup_fmap. destruct (decide (j = i)) as [->|].
    - rewrite list_lookup_alter_eq, Hi, list_lookup_insert_eq; [done|].
      by eapply lookup_lt_Some.
    - rewrite list_lookup_alter_ne, list_lookup_insert_ne by done. by rewrite list_lookup_fmap. }
  rewrite Heq. eapply (node_rep_update _ _ _ _ _ _ _ _ off Hr Hcell Hoff).
  - by apply wf_cell_enc_branch.
  - by rewrite !length_enc_branch.
  - eapply blit_same_hdr; [|exact Hb]. lia.
  - intros j Hj. eapply slot_blit; [exact Hb|]. lia.
  - rewrite length_enc_branch. cbn [fst]. rewrite (sub_split off (2 + length k)).
    rewrite (sub_blit_disj _ _ _ _ _ _ Hb) by lia. rewrite Hkk. rewrite <- app_assoc.
    unfold enc_branch, make_branch_cell. do 2 f_equal.
    replace (off + (2 + length k)) with (off + 2 + length k) by lia. by eapply sub_blit_le.
  - intros o l Ho. rewrite length_enc_branch in Ho. cbn [fst] in Ho.
    eapply sub_blit_disj; [exact Hb|]. rewrite length_le_encode. lia.
Qed.

(** * Search *)

(** What a search result says about the sorted keys [ks]. *)
Definition found_spec (ks : list bytes) (key : bytes) (f : Found) : Prop :=
  match f with
  | FoundAt i => ks !! i = Some key
  | NotFound i =>
      i ≤ length ks ∧
      (∀ j k, j < i → ks !! j = Some k → key_lt k key) ∧
      (∀ j k, i ≤ j → ks !! j = Some k → key_lt key k)
  end.

Lemma sorted_lookup_lt (ks : list bytes) i j a b :
  StronglySorted key_lt ks → i < j → ks !! i = Some a → ks !! j = Some b → key_lt a b.
Proof.
  intros Hs Hij Ha Hb.
  rewrite <- (take_drop (S i) ks) in Hs.
  eapply StronglySorted_app_1_elem_of; [exact Hs|..]; apply list_elem_of_lookup.
  - exists i. rewrite lookup_take. by rewrite decide_True by lia.
  - exists (j - S i). rewrite lookup_drop. rewrite <- Hb. f_equal. lia.
Qed.

Lemma mid_bounds lo hi : lo < hi → lo ≤ (lo + hi) / 2 < hi.
Proof.
  split; [apply Nat.div_le_lower_bound; lia|apply Nat.Div0.div_lt_upper_bound; lia].
Qed.

Lemma search_loop_ok p key ks fuel lo hi :
  (∀ i k, ks !! i = Some k → key_at p i = Ok k) → StronglySorted key_lt ks →
  hi - lo < fuel → lo ≤ hi → hi ≤ length ks →
  (∀ j k, j < lo → ks !! j = Some k → key_lt k key) →
  (∀ j k, hi ≤ j → ks !! j = Some k → key_lt key k) →
  ∃ f, search_loop fuel p key lo hi = Ok f ∧ found_spec ks key f.
Proof.
  intros Hkey Hs. revert lo hi.
  induction fuel as [|fuel IH]; intros lo hi Hf Hlo Hhi Hbelow Habove; [lia|].
  cbn [search_loop]. case_bool_decide as Hlt.
  2:{ exists (NotFound lo). split; [done|]. split_and!; [lia|done|].
      intros j k ?. apply Habove. lia. }
  set (mid := (lo + hi) / 2).
  assert (Hmid : lo ≤ mid < hi) by by apply mid_bounds.
  destruct (lookup_lt_is_Some_2 ks mid ltac:(lia)) as [k Hk].
  rewrite (Hkey _ _ Hk). cbn [mbind res_mbind].
  destruct (lex_cmp_spec k key) as [->|Hl|Hg].
  - exists (FoundAt mid). done.
  - apply IH; [lia|lia|done| |done]. intros j k' Hj Hk'.
    destruct (decide (j = mid)) as [->|]; [by simplify_eq|].
    assert (key_lt k' k) by (eapply (sorted_lookup_lt ks j mid); eauto; lia). korder.
  - apply IH; [lia|lia|lia|done|]. intros j k' Hj Hk'.
    destruct (decide (j = mid)) as [->|]; [by simplify_eq|].
    assert (key_lt k k') by (eapply (sorted_lookup_lt ks mid j); eauto; lia). korder.
Qed.

Lemma search_ok p key ks :
  (∀ i k, ks !! i = Some k → key_at p i = Ok k) → StronglySorted key_lt ks →
  nkeys p = length ks → ∃ f, search p key = Ok f ∧ found_spec ks key f.
Proof.
  intros Hkey Hs Hn. unfold search. rewrite Hn. apply search_loop_ok; try done; try lia.
  intros j k Hj Hk. apply lookup_lt_Some in Hk. lia.
Qed.

Lemma key_at_leaf p lm es i k :
  node_rep p KIND_LEAF lm (map enc_leaf es) → Forall wf_leaf es →
  map fst es !! i = Some k → key_at p i = Ok k.
Proof.
  intros Hr Hwf Hk. rewrite list_lookup_fmap in Hk.
  destruct (es !! i) as [e|] eqn:Hi; [|done]. simplify_eq/=.
  unfold key_at. rewrite (nr_kind _ _ _ _ Hr), bool_decide_true by done.
  rewrite (leaf_cell_ok _ _ _ _ Hr i e).
  - by destruct e.
  - by rewrite list_lookup_fmap, Hi.
  - by eapply Forall_lookup_1.
Qed.

Lemma key_at_branch p lm es i k :
  node_rep p KIND_BRANCH lm (map enc_branch es) → Forall wf_branch es →
  map fst es !! i = Some k → key_at p i = Ok k.
Proof.
  intros Hr Hwf Hk. rewrite list_lookup_fmap in Hk.
  destruct (es !! i) as [e|] eqn:Hi; [|done]. simplify_eq/=.
  unfold key_at. rewrite (nr_kind _ _ _ _ Hr), bool_decide_false by done.
  rewrite (branch_cell_ok _ _ _ _ Hr i e).
  - by destruct e.
  - by rewrite list_lookup_fmap, Hi.
  - by eapply Forall_lookup_1.
Qed.

(** [descent_index] is the number of separators at most the key. *)
Lemma descent_index_ok p lm es key :
  node_rep p KIND_BRANCH lm (map enc_branch es) → Forall wf_branch es →
  StronglySorted key_lt (map fst es) →
  ∃ idx, descent_index p key = Ok idx ∧ idx ≤ length es ∧
    (∀ j k, j < idx → map fst es !! j = Some k → key_le k key) ∧
    (∀ j k, idx ≤ j → map fst es !! j = Some k → key_lt key k).
Proof.
  intros Hr Hwf Hs.
  destruct (search_ok p key (map fst es)) as (f & Hf & Hspec); [|done| |].
  - intros i k. by eapply key_at_branch.
  - rewrite (nr_nkeys _ _ _ _ Hr). by rewrite !length_map.
  - unfold descent_index. rewrite Hf. cbn [mbind res_mbind].
    destruct f as [i|i]; cbn [found_spec] in Hspec; eexists; (split; [done|]).
    + pose proof (lookup_lt_Some _ _ _ Hspec) as Hlt. rewrite length_map in Hlt.
      split_and!; [lia| |].
      * intros j k Hj Hk. destruct (decide (j = i)) as [->|]; [simplify_eq; korder|].
        pose proof (sorted_lookup_lt _ j i _ _ Hs ltac:(lia) Hk Hspec). korder.
      * intros j k Hj Hk. eapply (sorted_lookup_lt _ i j); eauto. lia.
    + rewrite length_map in Hspec. destruct Hspec as (?&Hb&Ha). split_and!; [done| |done].
      intros j k ? Hk. specialize (Hb _ _ ltac:(done) Hk). korder.
Qed.

Lemma branch_child_ok p lm es idx :
  node_rep p KIND_BRANCH lm (map enc_branch es) → Forall wf_branch es → idx ≤ length es →
  branch_child p idx = Ok (match idx with O => lm | S i => default 0%Z (snd <$> es !! i) end).
Proof.
  intros Hr Hwf Hle. destruct idx as [|i]; cbn [branch_child].
  - f_equal. by apply Hr.
  - destruct (lookup_lt_is_Some_2 es i ltac:(lia)) as [e He].
    rewrite (branch_cell_ok _ _ _ _ Hr i e); [|by rewrite list_lookup_fmap, He|by eapply Forall_lookup_1].
    rewrite He. by destruct e.
Qed.

(** * Hostile bytes *)

(** A page of the right size whose header passed [check_node]. *)
Definition checked (p : bytes) : Prop :=
  length p = PAGE_SIZE ∧ (kind p = KIND_LEAF ∨ kind p = KIND_BRANCH) ∧ check_node p = Ok tt.

Lemma checked_bounds p : checked p → HDR + nkeys p * 2 ≤ PAGE_SIZE.
Proof.
  intros (Hl&Hk&Hc). unfold check_node in Hc. rewrite bool_decide_true in Hc by done.
  case_bool_decide as Hb; [done|]. sizes.
Qed.

Lemma bind_no_panic {A B} (m : res A) (f : A → res B) :
  m ≠ Panic → (∀ a, m = Ok a → f a ≠ Panic) → (m ≫= f) ≠ Panic.
Proof. destruct m; simpl; auto. Qed.

Lemma res_of_option_no_panic {A} e (o : option A) : res_of_option e o ≠ Panic.
Proof. by destruct o. Qed.

Lemma slot_no_panic p i : checked p → i < nkeys p → slot p i ≠ Panic.
Proof.
  intros Hc Hi. pose proof (checked_bounds _ Hc). destruct Hc as (Hl&_).
  unfold slot. rewrite slice_Ok by lia. done.
Qed.

Lemma cell_bytes_no_panic p i : checked p → i < nkeys p → cell_bytes p i ≠ Panic.
Proof.
  intros Hc Hi. apply bind_no_panic; [by apply slot_no_panic|]. intros off _.
  case_bool_decide; [|done]. destruct Hc as (Hl&_). rewrite slice_Ok by lia. done.
Qed.

Lemma leaf_val_no_panic vkind rest : leaf_val vkind rest ≠ Panic.
Proof.
  unfold leaf_val. repeat case_match; try done.
  apply bind_no_panic; [apply res_of_option_no_panic|done].
Qed.

Lemma get_range_length {A} a b (p : list A) v : get_range a b p = Some v → b ≤ length p.
Proof. unfold get_range. case_decide; [lia|done]. Qed.

Lemma leaf_cell_no_panic p i : checked p → i < nkeys p → leaf_cell p i ≠ Panic.
Proof.
  intros Hc Hi. apply bind_no_panic; [by apply cell_bytes_no_panic|]. intros c _.
  case_bool_decide; [done|]. apply bind_no_panic; [apply res_of_option_no_panic|].
  intros key Hkey. apply bind_no_panic.
  - destruct (get_range _ _ _) eqn:Hg; [|done]. apply get_range_length in Hg.
    rewrite slice_Ok by lia. done.
  - intros rest _. apply bind_no_panic; [apply leaf_val_no_panic|done].
Qed.

Lemma branch_cell_no_panic p i : checked p → i < nkeys p → branch_cell p i ≠ Panic.
Proof.
  intros Hc Hi. apply bind_no_panic; [by apply cell_bytes_no_panic|]. intros c _.
  case_bool_decide; [done|]. apply bind_no_panic; [apply res_of_option_no_panic|].
  intros key _. apply bind_no_panic; [apply res_of_option_no_panic|done].
Qed.

Lemma key_at_no_panic p i : checked p → i < nkeys p → key_at p i ≠ Panic.
Proof.
  intros Hc Hi. unfold key_at. case_bool_decide.
  - apply bind_no_panic; [by apply leaf_cell_no_panic|]. by intros [].
  - apply bind_no_panic; [by apply branch_cell_no_panic|]. by intros [].
Qed.

Lemma search_loop_bound p key fuel lo hi f :
  lo ≤ hi → search_loop fuel p key lo hi = Ok f →
  match f with FoundAt i => i < hi | NotFound i => i ≤ hi end.
Proof.
  revert lo hi; induction fuel as [|fuel IH]; intros lo hi Hle Hs; [done|].
  cbn [search_loop] in Hs. case_bool_decide; [|by simplify_eq].
  pose proof (mid_bounds lo hi ltac:(done)) as Hmid.
  apply bind_Ok in Hs as (k & _ & Hs). destruct (lex_cmp k key); simplify_eq; [apply Hmid| |].
  - apply IH in Hs; [done|lia].
  - apply IH in Hs; [|lia]. destruct f; lia.
Qed.

Lemma search_no_panic p key : checked p → search p key ≠ Panic.
Proof.
  intros Hc. unfold search.
  assert (∀ fuel lo hi, hi - lo < fuel → hi ≤ nkeys p → search_loop fuel p key lo hi ≠ Panic) as H.
  { induction fuel as [|fuel IH]; intros lo hi Hf Hn; [lia|]. cbn [search_loop].
    case_bool_decide; [|done].
    pose proof (mid_bounds lo hi ltac:(done)) as Hmid.
    apply bind_no_panic; [apply key_at_no_panic; [done|lia]|]. intros k _.
    destruct (lex_cmp k key); [done|apply IH; lia|apply IH; lia]. }
  apply H; lia.
Qed.

Lemma descent_index_no_panic p key : checked p → descent_index p key ≠ Panic.
Proof. intros. apply bind_no_panic; [by apply search_no_panic|done]. Qed.

Lemma descent_index_bound p key idx : descent_index p key = Ok idx → idx ≤ nkeys p.
Proof.
  unfold descent_index. intros H. apply bind_Ok in H as (f & Hf & H). simplify_eq.
  unfold search in Hf. apply search_loop_bound in Hf; [|lia]. destruct f; lia.
Qed.

Lemma branch_child_no_panic p idx : checked p → idx ≤ nkeys p → branch_child p idx ≠ Panic.
Proof.
  intros Hc Hi. destruct idx as [|i]; [done|]. cbn [branch_child].
  apply bind_no_panic; [apply branch_cell_no_panic; [done|lia]|]. by intros [].
Qed.
