(* ===== verification/PageStore.v ===== *)
(** The page store of [crates/mpedb-core/src/pagestore.rs]: the [PageStore]
    trait as a class of operations, the laws its clients rely on as a second
    class, and the copy-on-write step [cow] proved against those laws. *)

From stdpp Require Export gmap.
From S2P Require Import Prelude BtreeNode.

(** * The trait *)

(** [page_mut] returns a mutable borrow of a page: here the bytes it gives
    access to, with [ps_put] as the write-back when the borrow ends.
    [read_extent] and [read_external] append to a buffer every caller passes
    empty; here they return the bytes. *)
Class PageStore (St : Type) := {
  ps_page : Z → St → res bytes;
  ps_page_mut : Z → St → res bytes;
  ps_put : Z → bytes → St → St;
  ps_alloc : M St Z;
  ps_alloc_raw : M St Z;
  ps_free : Z → M St unit;
  ps_is_dirty : Z → St → bool;
  ps_adopt_inplace : Z → M St bool;
  ps_read_extent : Z → Z → St → res bytes;
  ps_free_extent : Z → Z → M St unit;
  ps_read_external : Z → Z → St → res bytes;
  ps_release_external : Z → M St unit;
}.

(** Equalities of unions, and disjointness of unions from that of parts. *)
Ltac unions :=
  apply set_eq; intros ?; rewrite ?elem_of_union, ?elem_of_empty; tauto.

Ltac disj :=
  repeat match goal with
  | |- _ ∪ _ ## _ => apply disjoint_union_l; split
  | |- _ ## _ ∪ _ => apply disjoint_union_r; split
  | H : _ ∪ _ ## _ |- _ => apply disjoint_union_l in H; destruct H
  | H : _ ## _ ∪ _ |- _ => apply disjoint_union_r in H; destruct H
  end;
  try solve [assumption | symmetry; assumption | apply disjoint_empty_l | apply disjoint_empty_r
    | apply disjoint_singleton_l; assumption | apply disjoint_singleton_r; assumption].

Section Ops.
Context {St : Type} `{!PageStore St}.

(** [f(store.page_mut(id)?)]. *)
Definition with_page_mut {A} (id : Z) (m : M bytes A) : M St A := fun s =>
  match ps_page_mut id s with
  | Ok p => let '(r, p') := m p in (r, ps_put id p' s)
  | Err e => (Err e, s)
  | Panic => (Panic, s)
  end.

(** [dst.copy_from_slice(&src)]. *)
Definition copy_from_slice (src : bytes) : M bytes unit :=
  update (λ p, if bool_decide (length p = length src) then Ok src else Panic).

Definition cow (id : Z) : M St Z :=
  d ← reads (λ s, Ok (ps_is_dirty id s));
  if (d : bool) then mret id
  else
    adopted ← ps_adopt_inplace id;
    if (adopted : bool) then mret id
    else
      new_id ← ps_alloc;
      src ← reads (ps_page id);
      (if bool_decide (length src = PAGE_SIZE) then mret tt
       else lift (Err (Internal "page store returned wrong page size")));;
      with_page_mut new_id (copy_from_slice src);;
      ps_free id;;
      mret new_id.
End Ops.

(** * The laws *)

(** A resource of the store: a page by id, or an extent by its first page. *)
Abbreviation rsrc := (Z + Z)%type.
Abbreviation rset := (gset rsrc).
Abbreviation Pg := (@inl Z Z).
Abbreviation Ex := (@inr Z Z).

(** What a client may see of a store: which resources are live, the bytes of
    a page, the states in which an operation may fail, the consistent states,
    and the pages some committed snapshot can still read. *)
Class StoreView (St : Type) := {
  live : St → rsrc → Prop;
  bytes_at : St → Z → bytes;
  ok : St → Prop;
  out_of_space : option Error → St → Prop;
  pinned : St → Z → Prop;
}.

Section View.
Context {St : Type} `{!PageStore St, !StoreView St}.
Implicit Types (s : St) (F G : rset).

(** The resource [r] reads the same in [s] and [s']. *)
Definition same_rsrc (s s' : St) (r : rsrc) : Prop :=
  match r with
  | inl id => bytes_at s' id = bytes_at s id ∧ ps_is_dirty id s' = ps_is_dirty id s
  | inr e => (∀ total, ps_read_extent e total s' = ps_read_extent e total s)
  end.

(** Going from [s] to [s'] touched only the resources [F], which became
    [F']: every other live resource is unchanged and no member of [F']
    aliases one; nothing else came to life, so what is in [F] and not in
    [F'] was given back. *)
Record eff (s s' : St) (F F' : rset) : Prop := {
  eff_ok : ok s';
  eff_frame : ∀ r, live s r → r ∉ F → (r ∉ F') ∧ live s' r ∧ same_rsrc s s' r;
  eff_live : ∀ r, r ∈ F' → live s' r;
  eff_back : ∀ r, live s' r → r ∈ F' ∨ (live s r ∧ r ∉ F);
  eff_ext : ∀ h t, ps_read_external h t s' = ps_read_external h t s;
}.

(** A snapshot reader's view: pinned pages stay pinned, bytes unchanged. *)
Definition keeps (s s' : St) : Prop :=
  ∀ id, pinned s id → pinned s' id ∧ bytes_at s' id = bytes_at s id.

#[global] Instance keeps_preorder : PreOrder keeps.
Proof.
  split; [by intros s id|]. intros s1 s2 s3 H1 H2 id Hid.
  destruct (H1 _ Hid) as [Hp Hb]. destruct (H2 _ Hp) as [? Hb2]. split; congruence.
Qed.
End View.

Abbreviation wps := (wp out_of_space).

(** A preorder on stores that every store operation follows, whatever its
    outcome. *)
Class Respects {St : Type} `{!PageStore St} (R : relation St) := {
  rs_preorder :: PreOrder R;
  rs_put s id p p' : ps_page_mut id s = Ok p → R s (ps_put id p' s);
  rs_alloc : moves R ps_alloc;
  rs_alloc_raw : moves R ps_alloc_raw;
  rs_free id : moves R (ps_free id);
  rs_adopt id : moves R (ps_adopt_inplace id);
  rs_free_extent e n : moves R (ps_free_extent e n);
  rs_release_external h : moves R (ps_release_external h);
}.

Class StoreLaws (St : Type) `{!PageStore St, !StoreView St} := {
  page_law s id : live s (Pg id) → ps_page id s = Ok (bytes_at s id);
  length_law s id : ok s → live s (Pg id) → length (bytes_at s id) = PAGE_SIZE;
  id_law s id : ok s → live s (Pg id) → (0 < id < 2 ^ 64)%Z;
  page_mut_law s id :
    live s (Pg id) → ps_is_dirty id s = true → ps_page_mut id s = Ok (bytes_at s id);
  put_law s id p :
    ok s → live s (Pg id) → ps_is_dirty id s = true → length p = PAGE_SIZE →
    let s' := ps_put id p s in
    eff s s' {[Pg id]} {[Pg id]} ∧ bytes_at s' id = p ∧ ps_is_dirty id s' = true;
  alloc_law s : ok s →
    wps ps_alloc (λ id s', eff s s' ∅ {[Pg id]} ∧
      bytes_at s' id = replicate PAGE_SIZE 0%Z ∧ ps_is_dirty id s' = true) s;
  alloc_raw_law s : ok s →
    wps ps_alloc_raw (λ id s', eff s s' ∅ {[Pg id]} ∧ ps_is_dirty id s' = true) s;
  free_law s id : ok s → live s (Pg id) →
    wps (ps_free id) (λ _ s', eff s s' {[Pg id]} ∅) s;
  adopt_law s id : ok s → live s (Pg id) →
    wps (ps_adopt_inplace id) (λ b s', eff s s' {[Pg id]} {[Pg id]} ∧
      bytes_at s' id = bytes_at s id ∧ (b = true → ps_is_dirty id s' = true)) s;
  free_extent_law s e n : ok s → live s (Ex e) →
    wps (ps_free_extent e n) (λ _ s', eff s s' {[Ex e]} ∅) s;
  release_external_law s h : ok s →
    wps (ps_release_external h) (λ _ s', eff s s' ∅ ∅) s;
  (* No operation, successful or not, touches a pinned page. *)
  keeps_law :: Respects (keeps : relation St);
}.

(** * Reasoning with the laws *)

Section Laws.
Context {St : Type} `{!PageStore St, !StoreView St, !StoreLaws St}.
Implicit Types (s : St) (F G : rset).

Lemma eff_refl s F : ok s → (∀ r, r ∈ F → live s r) → eff s s F F.
Proof.
  intros Hok Hl. split; [done| |done| |done].
  - intros [id|e] Hr Hf; repeat split; done.
  - intros r Hr. destruct (decide (r ∈ F)); auto.
Qed.

Lemma same_rsrc_trans s1 s2 s3 r :
  same_rsrc s1 s2 r → same_rsrc s2 s3 r → same_rsrc s1 s3 r.
Proof.
  destruct r; simpl; [intuition congruence|]. intros H1 H2 t. by rewrite H2.
Qed.

Lemma eff_trans s1 s2 s3 F1 F2 F3 :
  eff s1 s2 F1 F2 → eff s2 s3 F2 F3 → eff s1 s3 F1 F3.
Proof.
  intros E1 E2. split.
  - by eapply eff_ok.
  - intros r Hl Hf. destruct (eff_frame _ _ _ _ E1 r Hl Hf) as (Hf2&Hl2&Hs).
    destruct (eff_frame _ _ _ _ E2 r Hl2 Hf2) as (?&?&?).
    split_and!; [done|done|]. by eapply same_rsrc_trans.
  - by eapply eff_live.
  - intros r Hr. destruct (eff_back _ _ _ _ E2 r Hr) as [|[Hr2 Hn2]]; [by left|].
    destruct (eff_back _ _ _ _ E1 r Hr2) as [|]; [done|by right].
  - intros. by rewrite (eff_ext _ _ _ _ E2), (eff_ext _ _ _ _ E1).
Qed.

(** A step on [F] leaves a disjoint live [G] alone. *)
Lemma eff_framed s s' F F' G : eff s s' F F' → (∀ r, r ∈ G → live s r) → F ## G →
  F' ## G ∧ (∀ r, r ∈ G → live s' r ∧ same_rsrc s s' r).
Proof.
  intros E Hl Hd. split.
  - intros r H1 H2. by destruct (eff_frame _ _ _ _ E r (Hl _ H2) ltac:(set_solver)).
  - intros r Hr. by destruct (eff_frame _ _ _ _ E r (Hl _ Hr) ltac:(set_solver)).
Qed.

Lemma eff_extend s s' F F' G F1 F1' :
  eff s s' F F' → (∀ r, r ∈ G → live s r) → F ## G →
  F1 = F ∪ G → F1' = F' ∪ G → eff s s' F1 F1'.
Proof.
  intros E Hl Hd -> ->. destruct (eff_framed _ _ _ _ _ E Hl Hd) as [Hd' Hg]. split.
  - by eapply eff_ok.
  - intros r Hr Hn. destruct (eff_frame _ _ _ _ E r Hr ltac:(set_solver)) as (?&?&?).
    split_and!; [set_solver|done|done].
  - intros r [?|?]%elem_of_union; [by eapply eff_live|]. by apply Hg.
  - intros r Hr. rewrite !elem_of_union.
    destruct (eff_back _ _ _ _ E r Hr) as [|[? ?]]; [tauto|].
    destruct (decide (r ∈ G)); [tauto|]. right. split; [done|]. tauto.
  - by eapply eff_ext.
Qed.

Lemma eff_page s s' F F' id : eff s s' F F' → live s (Pg id) → Pg id ∉ F →
  (Pg id ∉ F') ∧ live s' (Pg id) ∧ bytes_at s' id = bytes_at s id ∧
  ps_is_dirty id s' = ps_is_dirty id s.
Proof. intros E Hl Hn. destruct (eff_frame _ _ _ _ E _ Hl Hn) as (?&?&[]). done. Qed.

(** Two steps on disjoint resources. *)
Lemma eff_seq s1 s2 s3 F F' G G' :
  eff s1 s2 F F' → eff s2 s3 G G' → (∀ r, r ∈ G → live s1 r) → F ## G →
  eff s1 s3 (F ∪ G) (F' ∪ G') ∧ F' ## G'.
Proof.
  intros E1 E2 Hl Hd. destruct (eff_framed _ _ _ _ _ E1 Hl Hd) as [Hd' _].
  assert (∀ r, r ∈ F' → live s2 r) as Hl2 by (intros; by eapply eff_live).
  destruct (eff_framed _ _ _ _ F' E2 Hl2) as [Hd2 _]; [done|]. split; [|done].
  eapply eff_trans.
  - eapply (eff_extend _ _ _ _ G _ (F' ∪ G) E1); done.
  - eapply (eff_extend _ _ _ _ F' _ _ E2); [done|done|apply (comm_L (∪))..].
Qed.

(** One more step, on the part [G] of the owned resources: the rest [R]
    reads the same. *)
Lemma eff_step s0 s s' X O G G' R :
  eff s0 s X O → eff s s' G G' → O = G ∪ R → G ## R →
  eff s0 s' X (G' ∪ R) ∧ G' ## R ∧
  (∀ r, r ∈ R → live s' r ∧ same_rsrc s s' r).
Proof.
  intros E0 E -> Hd.
  assert (∀ r, r ∈ R → live s r) as Hl.
  { intros r Hr. eapply eff_live; [exact E0|]. by apply elem_of_union_r. }
  destruct (eff_framed _ _ _ _ R E Hl Hd) as [? ?]. split_and!; [|done|done].
  eapply eff_trans; [exact E0|]. by eapply (eff_extend _ _ _ _ R _ _ E).
Qed.

Lemma wp_page id s (Q : bytes → St → Prop) :
  live s (Pg id) → Q (bytes_at s id) s → wps (reads (ps_page id)) Q s.
Proof. intros. eapply wp_reads; [by apply page_law|done]. Qed.

Lemma wp_page_mut {A} id (m : M bytes A) s (Q : A → St → Prop) :
  ok s → live s (Pg id) → ps_is_dirty id s = true →
  wpp m (λ a p', length p' = PAGE_SIZE ∧
          ∀ s', eff s s' {[Pg id]} {[Pg id]} → bytes_at s' id = p' →
                ps_is_dirty id s' = true → Q a s') (bytes_at s id) →
  wps (with_page_mut id m) Q s.
Proof.
  intros Hok Hl Hd. unfold wp at 1 2, with_page_mut. rewrite page_mut_law by done.
  destruct (m (bytes_at s id)) as [[a|e|] p']; [|done|done]. intros [Hlen HQ].
  destruct (put_law s id p' Hok Hl Hd Hlen) as (?&?&?). auto.
Qed.

(** Copy-on-write gives a dirty page with the same bytes in the place of
    the page it was given. *)
Lemma cow_spec id s : ok s → live s (Pg id) →
  wps (cow id) (λ id' s', eff s s' {[Pg id]} {[Pg id']} ∧
    bytes_at s' id' = bytes_at s id ∧ ps_is_dirty id' s' = true) s.
Proof.
  intros Hok Hl. unfold cow. apply wp_bind. eapply wp_reads; [done|].
  destruct (ps_is_dirty id s) eqn:Hd.
  { apply wp_ret. split_and!; [|done|done]. apply eff_refl; set_solver. }
  apply wp_bind. eapply wp_mono; [by apply adopt_law|]. intros b s1 (E1&Hb1&Hd1).
  destruct b; [apply wp_ret; auto|].
  apply wp_bind. eapply wp_mono; [apply alloc_law, (eff_ok _ _ _ _ E1)|].
  intros new s2 (E2&_&Hd2).
  assert (Hl1 : live s1 (Pg id)) by (eapply eff_live; [exact E1|set_solver]).
  destruct (eff_framed _ _ _ _ {[Pg id]} E2) as [Hdj Hk2]; [set_solver|set_solver|].
  destruct (Hk2 (Pg id) ltac:(set_solver)) as [Hl2 [Hb2 _]].
  assert (Hln : live s2 (Pg new)) by (eapply eff_live; [exact E2|set_solver]).
  assert (Hok2 : ok s2) by by eapply eff_ok.
  apply wp_bind, wp_page; [done|]. rewrite bool_decide_true by by apply length_law.
  apply wp_bind, wp_ret. apply wp_bind. eapply wp_page_mut; [by eapply eff_ok|done|done|].
  unfold copy_from_slice. eapply wp_update; [by rewrite bool_decide_true; [|rewrite !length_law]|].
  split; [by apply length_law|]. intros s3 E3 Hb3 Hd3.
  destruct (eff_framed _ _ _ _ {[Pg id]} E3) as [_ Hk3]; [set_solver|set_solver|].
  destruct (Hk3 (Pg id) ltac:(set_solver)) as [Hl3 _].
  apply wp_bind. eapply wp_mono; [apply free_law; [by eapply eff_ok|done]|].
  intros [] s4 E4. apply wp_ret.
  destruct (eff_framed _ _ _ _ {[Pg new]} E4) as [_ Hk4].
  { intros r ->%elem_of_singleton. eapply eff_live; [exact E3|set_solver]. }
  { set_solver. }
  destruct (Hk4 (Pg new) ltac:(set_solver)) as [_ [Hb4 Hd4]].
  split_and!; [|congruence|congruence].
  eapply eff_trans; [exact E1|]. eapply eff_trans.
  { eapply (eff_extend _ _ _ _ {[Pg id]} _ ({[Pg new]} ∪ {[Pg id]}) E2); set_solver. }
  eapply eff_trans.
  { eapply (eff_extend _ _ _ _ {[Pg id]} _ ({[Pg new]} ∪ {[Pg id]}) E3); set_solver. }
  eapply (eff_extend _ _ _ _ {[Pg new]} _ _ E4); [|set_solver..].
  intros r ->%elem_of_singleton. eapply eff_live; [exact E3|set_solver].
Qed.
End Laws.

Section Moves.
Context {St : Type} `{!PageStore St} (R : relation St) `{!Respects R}.

Lemma moves_page_mut {A} id (m : M bytes A) : moves R (with_page_mut id m).
Proof.
  intros s. unfold with_page_mut. destruct (ps_page_mut id s) as [p| |] eqn:Hp;
    [|simpl; reflexivity|simpl; reflexivity].
  destruct (m p) as [r p']. simpl. by eapply rs_put.
Qed.

Lemma moves_cow id : moves R (cow id).
Proof.
  unfold cow. apply moves_bind; [apply _|apply moves_reads, _|]. intros [].
  { apply moves_ret, _. }
  apply moves_bind; [apply _|apply rs_adopt|]. intros []; [apply moves_ret, _|].
  apply moves_bind; [apply _|apply rs_alloc|]. intros new.
  apply moves_bind; [apply _|apply moves_reads, _|]. intros src.
  apply moves_bind; [apply _|case_bool_decide; [apply moves_ret, _|apply moves_lift, _]|].
  intros _. apply moves_bind; [apply _|apply moves_page_mut|]. intros _.
  apply moves_bind; [apply _|apply rs_free|]. intros _. apply moves_ret, _.
Qed.
End Moves.
