(* ===== verification/TestStore.v ===== *)
(** The in-memory store of [crates/mpedb-core/src/pagestore.rs] (module
    [test_store]): pages in a vector, a free list, pending frees, the dirty
    set, and the extent and external arenas. It is shown to satisfy the laws
    of [PageStore.StoreLaws], so every theorem proved of the B+tree against
    those laws holds of it. *)

From S2P Require Import Prelude BtreeNode PageStore.

(** [free] is the Rust vector with its last element first. *)
Record TestStore := MkTestStore {
  pages : list bytes;
  free : list Z;
  freed_pending : gset Z;
  dirty : gset Z;
  extents : gmap Z bytes;
  extents_pending_free : gset Z;
  next_extent : Z;
  external : gmap Z bytes;
  external_refs : gmap Z Z;
}.

Definition new : TestStore := MkTestStore [] [] ∅ ∅ ∅ ∅ 0 ∅ ∅.

Definition idx (id : Z) : nat := Z.to_nat (id - 1).

(** [pages[id as usize - 1]], [None] when the index underflows or is past the
    end. *)
Definition page_at (id : Z) (s : TestStore) : option bytes :=
  if bool_decide (0 < id)%Z then pages s !! idx id else None.

Definition page (id : Z) (s : TestStore) : res bytes :=
  if bool_decide (id = 0%Z ∨ id ∈ freed_pending s ∨ id ∈ free s)
  then Err (Internal "read of dead page")
  else res_of_option (Internal "read of unallocated page") (page_at id s).

Definition page_mut (id : Z) (s : TestStore) : res bytes :=
  if bool_decide (id ∈ dirty s)
  then match page_at id s with Some p => Ok p | None => Panic end
  else Err (Internal "page_mut on non-dirty page (COW violation)").

Definition set_pages (ps : list bytes) (s : TestStore) : TestStore :=
  MkTestStore ps (free s) (freed_pending s) (dirty s) (extents s)
    (extents_pending_free s) (next_extent s) (external s) (external_refs s).
Definition set_free (l : list Z) (s : TestStore) : TestStore :=
  MkTestStore (pages s) l (freed_pending s) (dirty s) (extents s)
    (extents_pending_free s) (next_extent s) (external s) (external_refs s).
Definition set_freed_pending (x : gset Z) (s : TestStore) : TestStore :=
  MkTestStore (pages s) (free s) x (dirty s) (extents s)
    (extents_pending_free s) (next_extent s) (external s) (external_refs s).
Definition set_dirty (x : gset Z) (s : TestStore) : TestStore :=
  MkTestStore (pages s) (free s) (freed_pending s) x (extents s)
    (extents_pending_free s) (next_extent s) (external s) (external_refs s).
Definition set_extents (m : gmap Z bytes) (x : gset Z) (n : Z) (s : TestStore) : TestStore :=
  MkTestStore (pages s) (free s) (freed_pending s) (dirty s) m x n (external s)
    (external_refs s).
Definition set_external (m : gmap Z bytes) (r : gmap Z Z) (s : TestStore) : TestStore :=
  MkTestStore (pages s) (free s) (freed_pending s) (dirty s) (extents s)
    (extents_pending_free s) (next_extent s) m r.

Definition put (id : Z) (p : bytes) (s : TestStore) : TestStore :=
  set_pages (<[idx id := p]> (pages s)) s.

(** A [Vec] of boxes grows to [isize::MAX] bytes at most; pushing past that
    panics. *)
Definition MAX_PAGES : Z := 2 ^ 60 - 1.

Definition alloc : M TestStore Z := fun s =>
  match free s with
  | id :: rest =>
      match page_at id s with
      | Some _ =>
          (Ok id, set_dirty ({[id]} ∪ dirty s)
                    (set_pages (<[idx id := replicate PAGE_SIZE 0%Z]> (pages s))
                       (set_free rest s)))
      | None => (Panic, set_free rest s)
      end
  | [] =>
      if bool_decide (MAX_PAGES ≤ Z.of_nat (length (pages s)))%Z then (Panic, s)
      else
        let ps := pages s ++ [replicate PAGE_SIZE 0%Z] in
        let id := Z.of_nat (length ps) in
        (Ok id, set_dirty ({[id]} ∪ dirty s) (set_pages ps s))
  end.

Definition free_page (id : Z) : M TestStore unit := fun s =>
  if bool_decide (id ∈ dirty s) then
    (Ok tt, set_free (id :: free s) (set_dirty (dirty s ∖ {[id]}) s))
  else if bool_decide (id ∈ free s) then
    (Err (Internal "double free of page (already in the committed free list)"), s)
  else if bool_decide (id ∈ freed_pending s) then
    (Err (Internal "double free of page"), s)
  else (Ok tt, set_freed_pending ({[id]} ∪ freed_pending s) s).

Definition is_dirty (id : Z) (s : TestStore) : bool := bool_decide (id ∈ dirty s).

Definition read_extent (start_page total : Z) (s : TestStore) : res bytes :=
  match extents s !! start_page with
  | None => Err (Internal "read of dead extent")
  | Some b =>
      if bool_decide (start_page ∈ extents_pending_free s)
      then Err (Internal "read of pending-free extent")
      else if bool_decide (Z.of_nat (length b) ≠ total)
      then Err (Corrupt "extent length mismatch")
      else Ok b
  end.

Definition free_extent (start_page npages : Z) : M TestStore unit := fun s =>
  match extents s !! start_page with
  | None => (Err (Internal "free of unknown extent"), s)
  | Some _ =>
      if bool_decide (start_page ∈ extents_pending_free s)
      then (Err (Internal "double free of extent"), s)
      else (Ok tt, set_extents (extents s) ({[start_page]} ∪ extents_pending_free s)
                     (next_extent s) s)
  end.

Definition read_external (hash total : Z) (s : TestStore) : res bytes :=
  match external s !! hash with
  | None => Err (Corrupt "external payload not here")
  | Some b =>
      if bool_decide (Z.of_nat (length b) ≠ total)
      then Err (Corrupt "external length mismatch")
      else Ok b
  end.

Definition release_external (hash : Z) : M TestStore unit := fun s =>
  match external_refs s !! hash with
  | Some n => (Ok tt, set_external (external s) (<[hash := Z.max 0 (n - 1)]> (external_refs s)) s)
  | None => (Ok tt, s)
  end.

(** The trait's default [adopt_inplace] refuses; [alloc_raw] forwards. *)
Definition adopt_inplace (id : Z) : M TestStore bool := mret false.

Definition commit (s : TestStore) : TestStore :=
  MkTestStore (pages s)
    (reverse (merge_sort Z.le (elements (freed_pending s))) ++ free s)
    ∅ ∅
    (filter (λ kv, kv.1 ∉ extents_pending_free s) (extents s)) ∅
    (next_extent s) (external s) (external_refs s).

Definition live_pages (s : TestStore) : Z :=
  Z.of_nat (length (pages s)) - Z.of_nat (length (free s)) - Z.of_nat (size (freed_pending s)).

(** The counters are 64-bit; a debug build panics when one overflows. *)
Definition put_extent (b : bytes) : M TestStore (Z * Z * Z) := fun s =>
  let start := (next_extent s + 1)%Z in
  let npages := (Z.max ((Z.of_nat (length b) + 4095) / 4096) 1 `mod` 2 ^ 32)%Z in
  if bool_decide (2 ^ 64 ≤ start)%Z then (Panic, s)
  else (Ok (start, Z.of_nat (length b), npages),
        set_extents (<[start := b]> (extents s)) (extents_pending_free s) start s).

(** [content_hash] is a digest taken from a library. *)
Definition put_external (content_hash : bytes → Z) (b : bytes) : M TestStore (Z * Z) := fun s =>
  let hash := content_hash b in
  let ext := <[hash := b]> (external s) in
  let n := (default 0 (external_refs s !! hash) + 1)%Z in
  if bool_decide (2 ^ 64 ≤ n)%Z then (Panic, set_external ext (external_refs s) s)
  else (Ok (hash, Z.of_nat (length b)), set_external ext (<[hash := n]> (external_refs s)) s).

(** The two lists of keys, in the order a [BTreeMap] iterates in. *)
Definition live_external (s : TestStore) : list Z :=
  merge_sort Z.le (elements (dom (filter (λ kv, (0 < kv.2)%Z) (external_refs s)))).

Definition stored_external (s : TestStore) : Z := Z.of_nat (size (external s)).

Definition live_extents (s : TestStore) : list Z :=
  merge_sort Z.le (elements (dom (extents s) ∖ extents_pending_free s)).

#[global] Instance TestStore_ops : PageStore TestStore := {
  ps_page := page;
  ps_page_mut := page_mut;
  ps_put := put;
  ps_alloc := alloc;
  ps_alloc_raw := alloc;
  ps_free := free_page;
  ps_is_dirty := is_dirty;
  ps_adopt_inplace := adopt_inplace;
  ps_read_extent := read_extent;
  ps_free_extent := free_extent;
  ps_read_external := read_external;
  ps_release_external := release_external;
}.

(** * Consistency *)

Definition valid_id (s : TestStore) (id : Z) : Prop :=
  (1 ≤ id ≤ Z.of_nat (length (pages s)))%Z.

Record store_ok (s : TestStore) : Prop := {
  so_len : Forall (λ p, length p = PAGE_SIZE) (pages s);
  so_cap : (Z.of_nat (length (pages s)) ≤ MAX_PAGES)%Z;
  so_free : Forall (valid_id s) (free s);
  so_nodup : NoDup (free s);
  so_pending : ∀ id, id ∈ freed_pending s → valid_id s id ∧ (id ∉ free s) ∧ (id ∉ dirty s);
  so_dirty : ∀ id, id ∈ dirty s → valid_id s id ∧ id ∉ free s;
  so_extent : ∀ e, is_Some (extents s !! e) ∨ e ∈ extents_pending_free s → (e ≤ next_extent s)%Z;
}.

Definition page_live (s : TestStore) (id : Z) : Prop :=
  valid_id s id ∧ (id ∉ free s) ∧ (id ∉ freed_pending s).

Definition extent_live (s : TestStore) (e : Z) : Prop :=
  is_Some (extents s !! e) ∧ e ∉ extents_pending_free s.

#[global] Instance TestStore_view : StoreView TestStore := {
  live s r := match r with inl id => page_live s id | inr e => extent_live s e end;
  bytes_at s id := default [] (pages s !! idx id);
  ok := store_ok;
  out_of_space o s := o = None ∧ Z.of_nat (length (pages s)) = MAX_PAGES;
  pinned s id := valid_id s id ∧ (id ∉ dirty s) ∧ (id ∉ free s);
}.

Lemma valid_lookup s id : valid_id s id → is_Some (pages s !! idx id).
Proof. intros []. apply lookup_lt_is_Some_2. unfold idx. lia. Qed.

Lemma valid_page_at s id : valid_id s id → page_at id s = pages s !! idx id.
Proof. intros []. unfold page_at. rewrite bool_decide_true; [done|lia]. Qed.

Lemma page_at_valid s id p : page_at id s = Some p → valid_id s id.
Proof.
  unfold page_at. case_bool_decide; [|done]. intros Hl%lookup_lt_Some.
  unfold valid_id, idx in *. lia.
Qed.

Lemma idx_inj s id id' : valid_id s id → valid_id s id' → idx id = idx id' → id = id'.
Proof. unfold valid_id, idx. lia. Qed.

Lemma valid_put s id p j : valid_id (put id p s) j ↔ valid_id s j.
Proof. unfold valid_id, put. cbn. by rewrite length_insert. Qed.

Lemma page_live_put s id p j : page_live (put id p s) j ↔ page_live s j.
Proof. unfold page_live. by rewrite valid_put. Qed.

Lemma bytes_put_ne s id p j :
  valid_id s id → valid_id s j → j ≠ id →
  bytes_at (put id p s) j = bytes_at s j.
Proof.
  intros Hi Hj Hne. cbn. rewrite list_lookup_insert_ne; [done|].
  intros He. by eapply Hne, eq_sym, idx_inj.
Qed.

Lemma put_ok s id p : store_ok s → length p = PAGE_SIZE → store_ok (put id p s).
Proof.
  intros [] Hp. split; cbn; rewrite ?length_insert; try done.
  - by apply Forall_insert.
  - eapply Forall_impl; [exact so_free0|]. intros. by apply valid_put.
  - intros j Hj. rewrite valid_put. auto.
  - intros j Hj. rewrite valid_put. auto.
Qed.

Lemma put_eff s id p :
  store_ok s → page_live s id → is_dirty id s = true → length p = PAGE_SIZE →
  eff s (put id p s) {[Pg id]} {[Pg id]} ∧ bytes_at (put id p s) id = p ∧
  is_dirty id (put id p s) = true.
Proof.
  intros Hok Hlive Hd Hlen. pose proof Hlive as (Hv&_&_). split_and!; [|cbn|done].
  - split; [by apply put_ok| |intros r ->%elem_of_singleton; by apply page_live_put| |done].
    + intros [j|e] Hl Hj; [|done]. split_and!; [set_solver|by apply page_live_put|].
      split; [|done]. apply bytes_put_ne; [done|by apply Hl|set_solver].
    + intros r Hr. destruct (decide (r ∈ ({[Pg id]} : rset))); [by left|right].
      split; [|done]. destruct r; [by apply (page_live_put s id p)|done].
  - rewrite list_lookup_insert_eq; [done|]. destruct Hv. unfold idx. lia.
Qed.

(** A page enters the live set: nothing else changes. *)
Lemma alloc_eff s s' id :
  store_ok s' → ¬ page_live s id → page_live s' id → dirty s' = {[id]} ∪ dirty s →
  extents s' = extents s → extents_pending_free s' = extents_pending_free s →
  external s' = external s →
  (∀ j, page_live s j → page_live s' j ∧ pages s' !! idx j = pages s !! idx j) →
  (∀ j, page_live s' j → j = id ∨ page_live s j) →
  eff s s' ∅ {[Pg id]}.
Proof.
  intros Hok Hn Hl Hd He Hep Hx Hkeep Hback. split; [done| | | |].
  - intros [j|e] Hj _.
    + assert (j ≠ id) by (intros ->; done). destruct (Hkeep j Hj) as [Hlj Hpj].
      split_and!; [by intros [= ->]%elem_of_singleton|done|].
      split; cbn; [by rewrite Hpj|]. unfold is_dirty. apply bool_decide_ext.
      rewrite Hd, elem_of_union, elem_of_singleton. tauto.
    + split_and!; [by intros ?%elem_of_singleton| |].
      * cbn in *. unfold extent_live. by rewrite He, Hep.
      * intros total. cbn. unfold read_extent. by rewrite He, Hep.
  - by intros r ->%elem_of_singleton.
  - intros [j|e] Hr.
    + destruct (Hback j Hr) as [->|]; [left; by apply elem_of_singleton|].
      right. split; [done|apply not_elem_of_empty].
    + right. split; [|apply not_elem_of_empty]. cbn in *. unfold extent_live in *. by rewrite <- He, <- Hep.
  - intros h t. cbn. unfold read_external. by rewrite Hx.
Qed.

Lemma alloc_grow_ok s :
  store_ok s → (Z.of_nat (length (pages s)) < MAX_PAGES)%Z →
  let ps := pages s ++ [replicate PAGE_SIZE 0%Z] in
  let id := Z.of_nat (length ps) in
  free s = [] → store_ok (set_dirty ({[id]} ∪ dirty s) (set_pages ps s)).
Proof.
  intros [] Hcap ps id Hf.
  assert (Hid : id = (Z.of_nat (length (pages s)) + 1)%Z) by (unfold id, ps; rewrite length_app; simpl; lia).
  split; cbn; rewrite ?Hf.
  - apply Forall_app. split; [done|]. apply Forall_singleton, length_replicate.
  - fold id. lia.
  - constructor.
  - constructor.
  - intros j Hj. destruct (so_pending0 j Hj) as ([]&_&Hnd). unfold valid_id. cbn. fold id.
    split_and!; [lia|lia|apply not_elem_of_nil|]. rewrite not_elem_of_union, not_elem_of_singleton.
    split; [lia|done].
  - intros j [->%elem_of_singleton|Hj]%elem_of_union; unfold valid_id; cbn; fold id.
    + split; [lia|apply not_elem_of_nil].
    + destruct (so_dirty0 j Hj) as [[] _]. split; [lia|apply not_elem_of_nil].
  - done.
Qed.

Lemma alloc_reuse_ok s id rest :
  store_ok s → free s = id :: rest →
  store_ok (set_dirty ({[id]} ∪ dirty s)
    (set_pages (<[idx id := replicate PAGE_SIZE 0%Z]> (pages s)) (set_free rest s))).
Proof.
  intros [] Hf. rewrite Hf in *. apply Forall_cons in so_free0 as [Hv Hrest].
  apply NoDup_cons in so_nodup0 as [Hnin Hnd].
  split; cbn; unfold valid_id in *; cbn; rewrite ?length_insert; try done.
  - apply Forall_insert; [done|apply length_replicate].
  - intros j Hj. destruct (so_pending0 _ Hj) as (?&Hn&?). apply not_elem_of_cons in Hn as [? Hn].
    split_and!; [lia|lia|done|]. rewrite not_elem_of_union, not_elem_of_singleton. done.
  - intros j [->%elem_of_singleton|Hj]%elem_of_union; [done|].
    destruct (so_dirty0 _ Hj) as [? Hn]. apply not_elem_of_cons in Hn as [? Hn]. done.
Qed.

Lemma alloc_spec s : store_ok s →
  wps alloc (λ id s', eff s s' ∅ {[Pg id]} ∧
      bytes_at s' id = replicate PAGE_SIZE 0%Z ∧ is_dirty id s' = true) s.
Proof.
  intros Hok. pose proof (so_cap _ Hok) as Hcap'. unfold wp, alloc.
  destruct (free s) as [|id rest] eqn:Hfree.
  - case_bool_decide as Hcap; [split; [done|lia]|].
    set (n := Z.of_nat (length (pages s ++ [replicate PAGE_SIZE 0%Z]))).
    assert (Hn : n = (Z.of_nat (length (pages s)) + 1)%Z) by (unfold n; rewrite length_app; simpl; lia).
    assert (Hidx : idx n = length (pages s)) by (unfold idx; lia).
    assert (Hnv : ¬ valid_id s n) by (unfold valid_id; lia).
    split_and!.
    + apply alloc_eff; try done.
      * apply alloc_grow_ok; [done|lia|done].
      * by intros [].
      * split_and!; [unfold valid_id; cbn; fold n; lia|by cbn; rewrite Hfree; apply not_elem_of_nil|].
        intros Hp. by destruct (so_pending _ Hok _ Hp).
      * intros j (Hv&?&?). split.
        -- split_and!; [unfold valid_id in *; cbn; fold n; lia|done|done].
        -- cbn. rewrite lookup_app_l; [done|]. destruct Hv. unfold idx. lia.
      * intros j (Hv&?&?). destruct (decide (j = n)) as [->|]; [by left|right].
        split_and!; [|done|done]. unfold valid_id in *. cbn in Hv. fold n in Hv. lia.
    + cbn. rewrite Hidx, list_lookup_middle; done.
    + cbn. apply bool_decide_true, elem_of_union_l, elem_of_singleton_2. done.
  - pose proof (so_free _ Hok) as Hv. pose proof (so_nodup _ Hok) as Hnd. rewrite Hfree in Hv, Hnd.
    apply Forall_cons in Hv as [Hv _]. apply NoDup_cons in Hnd as [Hnin _].
    destruct (valid_lookup s id Hv) as [p0 Hp0]. rewrite valid_page_at, Hp0 by done. split_and!.
    + apply alloc_eff; try done.
      * by apply alloc_reuse_ok.
      * intros (_&Hx&_). rewrite Hfree in Hx. by apply Hx, list_elem_of_here.
      * split_and!; [unfold valid_id; cbn; by rewrite length_insert|done|].
        intros Hp. destruct (so_pending _ Hok _ Hp) as (_&Hx&_). rewrite Hfree in Hx.
        by apply Hx, list_elem_of_here.
      * intros j (Hvj&Hfj&?). rewrite Hfree in Hfj. apply not_elem_of_cons in Hfj as [Hne Hfj]. split.
        -- split_and!; unfold valid_id in *; cbn; rewrite ?length_insert; done.
        -- cbn. rewrite list_lookup_insert_ne; [done|]. intros He.
           by apply Hne, (idx_inj s).
      * intros j (Hvj&Hfj&?). destruct (decide (j = id)) as [->|]; [by left|right].
        split_and!; [|by rewrite Hfree, not_elem_of_cons|done].
        unfold valid_id in *. cbn in Hvj. by rewrite length_insert in Hvj.
    + cbn. rewrite list_lookup_insert_eq; [done|]. by eapply lookup_lt_Some.
    + cbn. apply bool_decide_true, elem_of_union_l, elem_of_singleton_2. done.
Qed.

Lemma free_page_ok s id :
  store_ok s → page_live s id → store_ok (free_page id s).2.
Proof.
  intros [] (Hv&Hnf&Hnp). unfold free_page. repeat case_bool_decide; [|done|done|]; split; cbn; try done.
  - by constructor.
  - by constructor.
  - intros j Hj. destruct (so_pending0 j Hj) as (?&?&?).
    split_and!; [done| |]; [rewrite not_elem_of_cons; split; [by intros ->|done]|].
    rewrite elem_of_difference. tauto.
  - intros j [Hj Hne]%elem_of_difference. destruct (so_dirty0 j Hj) as [? ?].
    split; [done|]. rewrite not_elem_of_cons. split; [|done].
    intros ->. by apply Hne, elem_of_singleton_2.
  - intros j [->%elem_of_singleton|Hj]%elem_of_union; [done|]. by apply so_pending0.
Qed.

Lemma free_spec s id : store_ok s → page_live s id →
  wps (free_page id) (λ _ s', eff s s' {[Pg id]} ∅) s.
Proof.
  intros Hok Hl. pose proof (free_page_ok s id Hok Hl) as Hok'.
  destruct Hl as (Hv&Hnf&Hnp). unfold wp, free_page in *.
  repeat case_bool_decide; try done; cbn in Hok';
    (split; [done| |by intros r ?%not_elem_of_empty| |done]).
  - intros [j|e] Hj Hn; [|split_and!; [apply not_elem_of_empty|done|done]].
    assert (Hne : j ≠ id) by (intros ->; by apply Hn, elem_of_singleton_2).
    destruct Hj as (Hvj&?&?).
    split_and!; [apply not_elem_of_empty|split_and!; [done| |done]|split; cbn; [done|]].
    + cbn. rewrite not_elem_of_cons. done.
    + unfold is_dirty. cbn. apply bool_decide_ext. rewrite elem_of_difference, elem_of_singleton. tauto.
  - intros [j|e] Hj; right; [|split; [done|by intros ?%elem_of_singleton]].
    destruct Hj as (Hvj&Hfj&?). cbn in Hfj. apply not_elem_of_cons in Hfj as [Hne ?].
    split; [done|]. by intros [= ->]%elem_of_singleton.
  - intros [j|e] Hj Hn; [|split_and!; [apply not_elem_of_empty|done|done]].
    assert (Hne : j ≠ id) by (intros ->; by apply Hn, elem_of_singleton_2).
    destruct Hj as (Hvj&?&?).
    split_and!; [apply not_elem_of_empty|split_and!; [done|done|]|done].
    cbn. rewrite not_elem_of_union, not_elem_of_singleton. done.
  - intros [j|e] Hj; right; [|split; [done|by intros ?%elem_of_singleton]].
    destruct Hj as (Hvj&?&Hpj). cbn in Hpj.
    apply not_elem_of_union in Hpj as [Hne ?]. rewrite not_elem_of_singleton in Hne.
    split; [done|]. by intros [= ->]%elem_of_singleton.
Qed.

Lemma free_extent_spec s e n : store_ok s → extent_live s e →
  wps (free_extent e n) (λ _ s', eff s s' {[Ex e]} ∅) s.
Proof.
  intros [] [[b Hb] Hnp]. unfold wp, free_extent. rewrite Hb, bool_decide_false by done.
  split; [split; cbn; try done| |by intros r ?%not_elem_of_empty| |done].
  - intros e' [?|[->%elem_of_singleton|?]%elem_of_union]; apply so_extent0; eauto.
  - intros [j|e'] Hj Hn; [split_and!; [apply not_elem_of_empty|done|done]|].
    assert (Hne : e' ≠ e) by (intros ->; by apply Hn, elem_of_singleton_2).
    split_and!; [apply not_elem_of_empty| |].
    + destruct Hj as [? ?]. split; [done|]. cbn. rewrite not_elem_of_union, not_elem_of_singleton. done.
    + intros total. cbn. unfold read_extent. cbn. destruct (extents s !! e'); [|done].
      rewrite (bool_decide_ext (e' ∈ {[e]} ∪ extents_pending_free s) (e' ∈ extents_pending_free s)); [done|].
      rewrite elem_of_union, elem_of_singleton. tauto.
  - intros [j|e'] Hj; right; (split; [|]); [done|by intros ?%elem_of_singleton| |].
    + destruct Hj as [? Hp]. cbn in Hp. apply not_elem_of_union in Hp as [_ ?]. done.
    + destruct Hj as [_ Hp]. cbn in Hp. apply not_elem_of_union in Hp as [Hp _].
      intros [= ->]%elem_of_singleton. by apply Hp, elem_of_singleton.
Qed.

Lemma keeps_same (s s' : TestStore) :
  (∀ id, pinned s id → pinned s' id ∧ pages s' !! idx id = pages s !! idx id) → keeps s s'.
Proof. intros H id Hid. destruct (H id Hid) as [? Hp]. split; [done|]. cbn. by rewrite Hp. Qed.

Lemma keeps_alloc_page : moves keeps alloc.
Proof.
  intros s. apply keeps_same. intros j (Hv&Hd&Hf). unfold alloc.
  destruct (free s) as [|id rest] eqn:Hfr.
  - case_bool_decide; cbn; [split; [by rewrite Hfr|done]|]. unfold valid_id in *. split.
    + cbn. rewrite Hfr. split_and!; [lia|rewrite length_app; lia| |done].
      rewrite not_elem_of_union, not_elem_of_singleton, length_app. cbn. split; [lia|done].
    + rewrite lookup_app_l; [done|]. unfold idx. lia.
  - apply not_elem_of_cons in Hf as [Hne Hf].
    destruct (page_at id s) as [p|] eqn:Hat; cbn; [|done].
    apply page_at_valid in Hat. split.
    + split_and!; [unfold valid_id in *; cbn; by rewrite length_insert| |done].
      rewrite not_elem_of_union, not_elem_of_singleton. done.
    + rewrite list_lookup_insert_ne; [done|]. intros He. by apply Hne, (idx_inj s).
Qed.

Lemma keeps_respects : Respects (keeps : relation TestStore).
Proof.
  split; [exact _| |exact keeps_alloc_page|exact keeps_alloc_page| | | |].
  - intros s id p p' Hp. apply keeps_same. intros j (Hv&Hd&Hf). cbn in Hp. unfold page_mut in Hp.
    case_bool_decide as Hdi; [|done]. destruct (page_at id s) eqn:Hat; [|done].
    split; [split_and!; [cbn; by rewrite valid_put|done|done]|].
    cbn. rewrite list_lookup_insert_ne; [done|]. intros He.
    apply Hd. rewrite <- (idx_inj s id j); [done|by eapply page_at_valid|done|done].
  - intros id s. apply keeps_same. intros j (Hv&Hd&Hf). cbn. unfold free_page.
    repeat case_bool_decide; (split; [|done]); (split_and!; [done| |]); cbn; try done.
    + rewrite elem_of_difference. tauto.
    + rewrite not_elem_of_cons. split; [by intros ->|done].
  - intros id. apply moves_ret, _.
  - intros e n s. apply keeps_same. intros j Hj. cbn. unfold free_extent.
    repeat case_match; done.
  - intros h s. apply keeps_same. intros j Hj. cbn. unfold release_external.
    repeat case_match; done.
Qed.

#[global] Instance TestStore_laws : StoreLaws TestStore.
Proof.
  split.
  - intros s id (Hv&?&?). cbn. unfold page. rewrite bool_decide_false.
    + destruct (valid_lookup s id Hv) as [p Hp]. by rewrite valid_page_at, Hp.
    + unfold valid_id in Hv. intros [?|[?|?]]; [lia|done|done].
  - intros s id Hok (Hv&?&?). cbn. destruct (valid_lookup s id Hv) as [p Hp]. rewrite Hp.
    by eapply (Forall_lookup_1 _ _ _ _ (so_len _ Hok)).
  - intros s id Hok (Hv&?&?). pose proof (so_cap _ Hok). unfold MAX_PAGES in *.
    unfold valid_id in Hv. lia.
  - intros s id (Hv&?&?) Hd. cbn in *. unfold page_mut. unfold is_dirty in Hd. rewrite Hd.
    destruct (valid_lookup s id Hv) as [p Hp]. by rewrite valid_page_at, Hp.
  - intros s id p. apply put_eff.
  - apply alloc_spec.
  - intros s Hok. eapply wp_mono; [by apply alloc_spec|]. intros id s' (?&?&?). done.
  - apply free_spec.
  - intros s id Hok Hl. apply wp_ret. split_and!; [|done|done]. apply eff_refl; [done|].
    by intros r ->%elem_of_singleton.
  - apply free_extent_spec.
  - intros s h Hok. unfold wp. cbn. unfold release_external.
    destruct (external_refs s !! h); [|by apply eff_refl].
    split; [by destruct Hok; split| |done| |done].
    + intros [j|e] Hr _; split_and!; done.
    + intros [j|e] Hr; right; (split; [done|apply not_elem_of_empty]).
  - apply keeps_respects.
Qed.

(** Only placing an extent takes a new extent id. *)
Definition same_next (s s' : TestStore) : Prop := next_extent s' = next_extent s.

#[global] Instance same_next_respects : Respects same_next.
Proof.
  split.
  - split; [by intros s|]. intros s1 s2 s3 H1 H2. by transitivity (next_extent s2).
  - done.
  - intros s. unfold same_next. cbn. unfold alloc. by repeat case_match.
  - intros s. unfold same_next. cbn. unfold alloc. by repeat case_match.
  - intros id s. unfold same_next. cbn. unfold free_page. by repeat case_match.
  - done.
  - intros e n s. unfold same_next. cbn. unfold free_extent. by repeat case_match.
  - intros h s. unfold same_next. cbn. unfold release_external. by repeat case_match.
Qed.

(** * Commit *)

Lemma new_ok : store_ok new.
Proof.
  split; cbn; try constructor; try done; try (by intros ? ?%elem_of_empty).
  intros e [[b Hb]|?%elem_of_empty]; [by rewrite lookup_empty in Hb|done].
Qed.

Lemma elem_of_commit_free s id :
  id ∈ free (commit s) ↔ id ∈ freed_pending s ∨ id ∈ free s.
Proof.
  cbn. rewrite elem_of_app, elem_of_reverse, (merge_sort_Permutation Z.le), elem_of_elements. done.
Qed.

Lemma commit_live s id : page_live (commit s) id ↔ page_live s id.
Proof.
  unfold page_live. rewrite elem_of_commit_free. unfold valid_id. cbn.
  pose proof (not_elem_of_empty (C := gset Z) id). tauto.
Qed.

Lemma commit_extent_live s e : extent_live (commit s) e ↔ extent_live s e.
Proof.
  unfold extent_live. cbn. rewrite map_lookup_filter. split.
  - intros [[b Hb] _]. destruct (extents s !! e) as [b'|] eqn:E; [|done]. cbn in Hb.
    destruct (decide (e ∉ extents_pending_free s)); [eauto|]. by rewrite option_guard_False in Hb.
  - intros [[b Hb] Hn]. rewrite Hb. cbn. rewrite option_guard_True by done.
    split; [eauto|apply not_elem_of_empty].
Qed.

Lemma commit_ok s : store_ok s → store_ok (commit s).
Proof.
  intros [Hl Hc Hf Hn Hp Hd He]. split.
  - done.
  - done.
  - apply Forall_forall. intros id [Hid|Hid]%elem_of_commit_free; [by apply Hp|].
    by eapply Forall_forall in Hf.
  - cbn. apply NoDup_app. split_and!; [|intros id|done].
    + rewrite reverse_Permutation, (merge_sort_Permutation Z.le). apply NoDup_elements.
    + rewrite elem_of_reverse, (merge_sort_Permutation Z.le), elem_of_elements.
      intros Hid. by apply Hp.
  - by intros id ?%elem_of_empty.
  - by intros id ?%elem_of_empty.
  - intros e [[b Hb]|?%elem_of_empty]; [|done]. apply He. cbn in Hb.
    apply map_lookup_filter_Some in Hb as [Hb _]. eauto.
Qed.

(** Committing forgets nothing a reader of live data can see. *)
Lemma commit_reads s e total :
  extent_live s e → read_extent e total (commit s) = read_extent e total s.
Proof.
  intros [[b Hb] Hn]. unfold read_extent. cbn. rewrite map_lookup_filter, Hb. cbn.
  rewrite option_guard_True by done.
  rewrite (bool_decide_false (e ∈ (∅ : gset Z))) by apply not_elem_of_empty.
  by rewrite (bool_decide_false (e ∈ extents_pending_free s)).
Qed.

(** * The arenas *)

(** Placing a payload makes exactly one new extent live. *)
Lemma put_extent_spec s b : store_ok s → (next_extent s < 2 ^ 64 - 1)%Z →
  ∃ s', let start := (next_extent s + 1)%Z in
    let npages := (Z.max ((Z.of_nat (length b) + 4095) / 4096) 1 `mod` 2 ^ 32)%Z in
    put_extent b s = (Ok (start, Z.of_nat (length b), npages), s') ∧
    next_extent s' = start ∧ eff s s' ∅ {[Ex start]} ∧
    read_extent start (Z.of_nat (length b)) s' = Ok b.
Proof.
  intros Hok Hn. unfold put_extent. rewrite bool_decide_false by lia. eexists. cbv zeta. split; [done|]. split; [done|].
  assert (Hnew : ¬ extent_live s (next_extent s + 1)).
  { intros [Hs _]. pose proof (so_extent _ Hok _ (or_introl Hs)). lia. }
  assert (Hpend : (next_extent s + 1)%Z ∉ extents_pending_free s).
  { intros Hp. pose proof (so_extent _ Hok _ (or_intror Hp)). lia. }
  assert (Hread : ∀ t e, e ≠ (next_extent s + 1)%Z →
    read_extent e t (set_extents (<[(next_extent s + 1)%Z := b]> (extents s))
      (extents_pending_free s) (next_extent s + 1) s) = read_extent e t s).
  { intros t e He. unfold read_extent. cbn. by rewrite lookup_insert_ne by done. }
  split.
  - split; [| | | |done].
    + destruct Hok. split; try done. cbn. intros e He.
      destruct (decide (e = next_extent s + 1)%Z) as [->|Hne]; [done|].
      rewrite lookup_insert_ne in He by done. pose proof (so_extent0 e He). lia.
    + intros [j|e] Hl _; [split_and!; [by intros ?%elem_of_singleton|done|done]|].
      assert (He : e ≠ (next_extent s + 1)%Z) by (intros ->; done).
      split_and!; [by intros [= ->]%elem_of_singleton| |by intros t; apply Hread].
      destruct Hl. split; [|done]. cbn. by rewrite lookup_insert_ne.
    + intros r ->%elem_of_singleton. split; [|done]. cbn. rewrite lookup_insert_eq. eauto.
    + intros [j|e] Hl; [right; split; [done|apply not_elem_of_empty]|].
      destruct (decide (e = next_extent s + 1)%Z) as [->|Hne]; [left; by apply elem_of_singleton|].
      right. split; [|apply not_elem_of_empty]. destruct Hl as [Hs ?]. split; [|done].
      cbn in Hs. by rewrite lookup_insert_ne in Hs.
  - unfold read_extent. cbn. rewrite lookup_insert_eq, (bool_decide_false (_ ∈ _)) by done.
    by rewrite bool_decide_false by tauto.
Qed.

(** Storing bytes under their digest makes them readable under it and leaves
    every other name alone. *)
Lemma put_external_spec content_hash s b :
  (default 0 (external_refs s !! content_hash b) < 2 ^ 64 - 1)%Z →
  ∃ s', put_external content_hash b s = (Ok (content_hash b, Z.of_nat (length b)), s') ∧
    read_external (content_hash b) (Z.of_nat (length b)) s' = Ok b ∧
    (∀ h t, h ≠ content_hash b → read_external h t s' = read_external h t s).
Proof.
  intros Hn. unfold put_external. rewrite bool_decide_false by lia. eexists. split_and!; [done| |].
  - unfold read_external. cbn. rewrite lookup_insert_eq. by rewrite bool_decide_false by tauto.
  - intros h t Hh. unfold read_external. cbn. by rewrite lookup_insert_ne.
Qed.

Lemma elem_of_live_extents s e : e ∈ live_extents s ↔ extent_live s e.
Proof.
  unfold live_extents, extent_live.
  rewrite (merge_sort_Permutation Z.le), elem_of_elements, elem_of_difference, elem_of_dom. done.
Qed.

(** * Counting live pages *)

Definition live_ids (s : TestStore) : gset Z :=
  list_to_set (seqZ 1 (Z.of_nat (length (pages s)))) ∖ list_to_set (free s) ∖ freed_pending s.

Lemma elem_of_live_ids s id : id ∈ live_ids s ↔ page_live s id.
Proof.
  unfold live_ids, page_live, valid_id.
  rewrite !elem_of_difference, !elem_of_list_to_set, elem_of_seqZ. intuition lia.
Qed.

(** The count the leak checks use is the number of live pages. *)
Lemma live_pages_size s : store_ok s → live_pages s = Z.of_nat (size (live_ids s)).
Proof.
  intros Hok. unfold live_pages, live_ids.
  assert (Hsz : size (list_to_set (seqZ 1 (Z.of_nat (length (pages s)))) : gset Z) = length (pages s)).
  { rewrite size_list_to_set; [rewrite length_seqZ; lia|apply NoDup_seqZ]. }
  assert (Hin : ∀ id, valid_id s id →
    id ∈ (list_to_set (seqZ 1 (Z.of_nat (length (pages s)))) : gset Z)).
  { intros id [? ?]. rewrite elem_of_list_to_set, elem_of_seqZ. lia. }
  assert (Hfree : (list_to_set (free s) : gset Z) ⊆ list_to_set (seqZ 1 (Z.of_nat (length (pages s))))).
  { intros id Hid%elem_of_list_to_set. apply Hin.
    exact (proj1 (Forall_forall _ _) (so_free _ Hok) id Hid). }
  assert (Hpend : freed_pending s ⊆
    list_to_set (seqZ 1 (Z.of_nat (length (pages s)))) ∖ (list_to_set (free s) : gset Z)).
  { intros id Hid. destruct (so_pending _ Hok id Hid) as (?&?&?).
    apply elem_of_difference. split; [by apply Hin|by rewrite elem_of_list_to_set]. }
  pose proof (size_difference _ _ Hfree) as H1. pose proof (size_difference _ _ Hpend) as H2.
  pose proof (subseteq_size _ _ Hfree). pose proof (subseteq_size _ _ Hpend).
  pose proof (size_list_to_set (C := gset Z) _ (so_nodup _ Hok)). lia.
Qed.
