(* ===== verification/Btree.v ===== *)
(** The copy-on-write B+tree of [crates/mpedb-core/src/btree.rs]: overflow
    chains, point reads, insertion with node splits, deletion with leaf
    merges, and the page-accounting walks, as programs over any [PageStore].

    Rust's unbounded recursion ([insert_rec], [delete_rec]) takes a fuel
    argument that stands for the call stack; running out of it is a panic.
    [while] loops take the bound the code itself enforces, or a measure that
    is proved sufficient. *)

From S2P Require Import Prelude BtreeNode PageStore.

(** * Streaming a payload *)

(** The position of a walk over the pieces of a payload. *)
Record PayloadCursor := MkPayloadCursor {
  pc_pieces : list bytes;
  pc_ix : nat;
  pc_off : nat;
}.

(** Next run of at most [want] contiguous bytes, skipping drained pieces. *)
Fixpoint next_chunk_loop (fuel want : nat) (c : PayloadCursor)
  : option (bytes * PayloadCursor) :=
  match fuel with
  | O => None
  | S fuel =>
      match pc_pieces c !! pc_ix c with
      | None => None
      | Some piece =>
          if bool_decide (length piece ≤ pc_off c) then
            next_chunk_loop fuel want (MkPayloadCursor (pc_pieces c) (S (pc_ix c)) 0)
          else
            let take := want `min` (length piece - pc_off c) in
            Some (sub (pc_off c) take piece,
                  MkPayloadCursor (pc_pieces c) (pc_ix c) (pc_off c + take))
      end
  end.

Definition next_chunk (want : nat) (c : PayloadCursor) : option (bytes * PayloadCursor) :=
  next_chunk_loop (S (length (pc_pieces c) - pc_ix c)) want c.

(** A [Stream] source is the list of bytes it has yet to produce. *)
Inductive PayloadReader :=
| Slices (cur : PayloadCursor)
| StreamSrc (rest : bytes).

Fixpoint fill_slices (fuel n : nat) (c : PayloadCursor) : res (bytes * PayloadCursor) :=
  match fuel with
  | O => Panic
  | S fuel =>
      if bool_decide (n = 0) then Ok ([], c)
      else
        '(chunk, c) ← res_of_option (corrupt "payload shorter than its own length")
                        (next_chunk n c);
        '(more, c) ← fill_slices fuel (n - length chunk) c;
        Ok (chunk ++ more, c)
  end.

(** [PayloadReader::fill] on a buffer of [n] bytes. A source that runs dry
    breaks [BlobSource]'s contract; it is reported as an error. *)
Definition fill (n : nat) (r : PayloadReader) : res (bytes * PayloadReader) :=
  match r with
  | Slices c => '(b, c) ← fill_slices (S n) n c; Ok (b, Slices c)
  | StreamSrc rest =>
      if bool_decide (n ≤ length rest) then Ok (take n rest, StreamSrc (drop n rest))
      else Err (Internal "blob source ended early")
  end.

(** * What a cell owns, and outcomes *)

Inductive OldVal :=
| OldNone
| OldOverflow (first : Z)
| OldExtent (start npages : Z)
| OldExternal (hash : Z).

Inductive InsertMode := InsertOnly | Upsert.

#[global] Instance InsertMode_eq_dec : EqDecision InsertMode.
Proof. solve_decision. Defined.

Record InsertOutcome := MkInsertOutcome { ins_root : Z; ins_existed : bool }.
Record DeleteOutcome := MkDeleteOutcome { del_root : Z; del_existed : bool }.

Inductive Ins :=
| Done (id : Z) (existed : bool)
| Split (left : Z) (sep : bytes) (right : Z) (existed : bool).

Record Del := MkDel { new_id : Z; d_existed : bool }.

Inductive ValueLoc :=
| LocInline (v : bytes)
| LocOverflow (total_len first_page : Z)
| LocExtent (start_page total_len : Z)
| LocExternal (hash total_len : Z).

Definition value_loc_len (l : ValueLoc) : Z :=
  match l with
  | LocInline v => Z.of_nat (length v)
  | LocOverflow total_len _ => total_len
  | LocExtent _ total_len => total_len
  | LocExternal _ total_len => total_len
  end.

(** * Split points *)

(** The loop of [split_dirty] over the candidate split points [s..]:
    [sizes] are the sizes from [s-1] on, [left_acc] what is left of it. *)
Fixpoint pick_split_loop (leaf : bool) (total cap : nat) (sizes : list nat)
    (s left_acc : nat) (best : option (nat * nat)) : option (nat * nat) :=
  match sizes with
  | sz :: ((nxt :: _) as rest) =>
      let left_acc := left_acc + sz in
      let right := if leaf then total - left_acc else total - left_acc - nxt in
      let best :=
        if bool_decide (left_acc ≤ cap ∧ right ≤ cap) then
          let d := (left_acc - total / 2) + (total / 2 - left_acc) in
          match best with
          | None => Some (s, d)
          | Some (_, bd) => if bool_decide (d < bd) then Some (s, d) else best
          end
        else best in
      pick_split_loop leaf total cap rest (S s) left_acc best
  | _ => best
  end.

Definition pick_split (leaf : bool) (cells : list bytes) : option nat :=
  let sizes := map (λ c, length c + 2) cells in
  fst <$> pick_split_loop leaf (sum_list sizes) (PAGE_SIZE - HDR) sizes 1 0 None.

Section Tree.
Context {St : Type} `{!PageStore St}.
(** xxh3_128, from the [xxhash_rust] crate. *)
Variable content_hash : bytes → Z.

(** * Overflow chains *)

(** One page of a chain: header, payload length, head bytes, source bytes,
    zeroed tail. Returns how much of the head was used and the reader. *)
Definition fill_overflow_page (take : nat) (head : bytes) (head_done : nat)
    (reader : PayloadReader) : M bytes (nat * PayloadReader) :=
  init_node KIND_OVERFLOW;;
  update (blit 6 (le_encode 2 (Z.of_nat take)));;
  filled ← (if bool_decide (head_done < length head) then
              let n := take `min` (length head - head_done) in
              update (blit HDR (sub head_done n head));; mret n
            else mret 0);
  reader ← (if bool_decide (filled < take) then
              '(b, reader) ← lift (fill (take - filled) reader);
              update (blit (HDR + filled) b);; mret reader
            else mret reader);
  update (λ p, blit (HDR + take) (replicate (length p - (HDR + take)) 0%Z) p);;
  mret (head_done + filled, reader).

Fixpoint write_overflow_loop (fuel : nat) (total : nat) (head : bytes)
    (head_done : nat) (reader : PayloadReader) (first prev : Z) (written : nat) : M St Z :=
  match fuel with
  | O => lift Panic
  | S fuel =>
      let take := OVERFLOW_CAP `min` (total - written) in
      id ← ps_alloc_raw;
      '(head_done, reader) ← with_page_mut id (fill_overflow_page take head head_done reader);
      let written := written + take in
      first ← (if bool_decide (first = 0%Z) then mret id
               else with_page_mut prev (set_extra id);; mret first);
      if bool_decide (written = total) then mret first
      else write_overflow_loop fuel total head head_done reader first id written
  end.

Definition write_overflow (data : Payload) : M St Z :=
  let total := payload_len data in
  let '(head, reader) :=
    match data with
    | Stream head src => (head, StreamSrc src)
    | other => ([], Slices (MkPayloadCursor (pieces other) 0 0))
    end in
  write_overflow_loop (S (total / OVERFLOW_CAP + 1)) total head 0 reader 0 0 0.

Fixpoint read_overflow_loop (fuel hops : nat) (total_len id : Z) (out : bytes) (s : St)
  : res bytes :=
  match fuel with
  | O => Panic
  | S fuel =>
      if bool_decide (id = 0%Z) then Ok out
      else if bool_decide (Z.to_nat total_len / OVERFLOW_CAP + 2 < hops)
      then Err (corrupt "overflow chain too long")
      else
        p ← ps_page id s;
        if bool_decide (kind p ≠ KIND_OVERFLOW) then Err (corrupt "bad overflow page kind")
        else
          let len := Z.to_nat (le_decode (sub 6 2 p)) in
          if bool_decide (OVERFLOW_CAP < len) then Err (corrupt "overflow chunk too large")
          else
            chunk ← slice HDR (HDR + len) p;
            read_overflow_loop fuel (S hops) total_len (extra p) (out ++ chunk) s
  end.

Definition read_overflow (first_page total_len : Z) (s : St) : res bytes :=
  out ← read_overflow_loop (Z.to_nat total_len / OVERFLOW_CAP + 5) 0 total_len first_page [] s;
  if bool_decide (Z.of_nat (length out) ≠ total_len)
  then Err (corrupt "overflow length mismatch")
  else Ok out.

(** The most pages [free_overflow] follows: it stops when [hops] exceeds
    [PAGE_SIZE * 16]. *)
Definition FREE_HOPS : nat := Z.to_nat 65536.

Fixpoint free_overflow_loop (fuel hops : nat) (id : Z) : M St unit :=
  match fuel with
  | O => lift Panic
  | S fuel =>
      if bool_decide (id = 0%Z) then mret tt
      else if bool_decide (FREE_HOPS < hops) then lift (Err (corrupt "overflow chain cycle"))
      else
        p ← reads (ps_page id);
        if bool_decide (kind p ≠ KIND_OVERFLOW)
        then lift (Err (corrupt "free_overflow reached a non-overflow page"))
        else
          let next := extra p in
          ps_free id;;
          free_overflow_loop fuel (S hops) next
  end.

Definition free_overflow (first_page : Z) : M St unit :=
  free_overflow_loop (FREE_HOPS + 3) 0 first_page.

Definition free_old_val (old : OldVal) : M St unit :=
  match old with
  | OldNone => mret tt
  | OldOverflow first => free_overflow first
  | OldExtent start npages => ps_free_extent start npages
  | OldExternal hash => ps_release_external hash
  end.

Definition old_val (v : LeafVal) : OldVal :=
  match v with
  | Overflow _ first_page => OldOverflow first_page
  | Extent start_page _ npages => OldExtent start_page npages
  | External hash _ => OldExternal hash
  | Inline _ => OldNone
  end.

Definition read_leaf_val (v : LeafVal) (s : St) : res bytes :=
  match v with
  | Inline v => Ok v
  | Overflow total_len first_page => read_overflow first_page total_len s
  | Extent start_page total_len _ =>
      out ← ps_read_extent start_page total_len s;
      if bool_decide (Z.of_nat (length out) ≠ total_len)
      then Err (corrupt "extent read returned wrong length")
      else Ok out
  | External hash total_len =>
      out ← ps_read_external hash total_len s;
      if bool_decide (Z.of_nat (length out) ≠ total_len)
      then Err (corrupt "external read returned wrong length")
      else if bool_decide (content_hash out ≠ hash)
      then Err (corrupt "external payload does not match its content hash")
      else Ok out
  end.

(** * Point reads *)

(** The descent [get], [value_loc] and [max_key] share: at most 64 levels,
    [pick] chooses the child of a branch, [leaf] answers at the leaf. *)
Fixpoint descend {A} (levels : nat) (what : string) (pick : bytes → res nat)
    (leaf : bytes → res A) (id : Z) (s : St) : res A :=
  match levels with
  | O => Err (corrupt "tree too deep (cycle?)")
  | S levels =>
      p ← ps_page id s;
      check_node p;;
      if bool_decide (kind p = KIND_BRANCH) then
        idx ← pick p;
        child ← branch_child p idx;
        descend levels what pick leaf child s
      else if bool_decide (kind p = KIND_LEAF) then leaf p
      else Err (corrupt what)
  end.

Definition get (root : Z) (key : bytes) (s : St) : res (option bytes) :=
  if bool_decide (root = 0%Z) then Ok None
  else
    descend 64 "unexpected page kind in descent" (λ p, descent_index p key)
      (λ p,
        f ← search p key;
        match f with
        | FoundAt i =>
            '(_, val) ← leaf_cell p i;
            v ← read_leaf_val val s;
            Ok (Some v)
        | NotFound _ => Ok None
        end) root s.

Definition value_loc (root : Z) (key : bytes) (s : St) : res (option ValueLoc) :=
  if bool_decide (root = 0%Z) then Ok None
  else
    descend 64 "unexpected page kind in descent" (λ p, descent_index p key)
      (λ p,
        f ← search p key;
        match f with
        | FoundAt i =>
            '(_, val) ← leaf_cell p i;
            Ok (Some (match val with
                      | Inline v => LocInline v
                      | Overflow total_len first_page => LocOverflow total_len first_page
                      | Extent start_page total_len _ => LocExtent start_page total_len
                      | External hash total_len => LocExternal hash total_len
                      end))
        | NotFound _ => Ok None
        end) root s.

Definition max_key (root : Z) (s : St) : res (option bytes) :=
  if bool_decide (root = 0%Z) then Ok None
  else
    descend 64 "unexpected page kind in max_key descent" (λ p, Ok (nkeys p))
      (λ p,
        let n := nkeys p in
        if bool_decide (n = 0) then Ok None
        else '(key, _) ← leaf_cell p (n - 1); Ok (Some key)) root s.

(** * Range reads of one value *)

Fixpoint range_overflow_loop (fuel hops : nat) (total_len id : Z) (skip want : nat)
    (out : bytes) (s : St) : res bytes :=
  match fuel with
  | O => Panic
  | S fuel =>
      if bool_decide (id ≠ 0%Z ∧ length out < want) then
        if bool_decide (Z.to_nat total_len / OVERFLOW_CAP + 2 < hops)
        then Err (corrupt "overflow chain too long")
        else
          p ← ps_page id s;
          if bool_decide (kind p ≠ KIND_OVERFLOW) then Err (corrupt "bad overflow page kind")
          else
            let len := Z.to_nat (le_decode (sub 6 2 p)) in
            if bool_decide (OVERFLOW_CAP < len) then Err (corrupt "overflow chunk too large")
            else if bool_decide (len ≤ skip) then
              range_overflow_loop fuel (S hops) total_len (extra p) (skip - len) want out s
            else
              let take := (len - skip) `min` (want - length out) in
              chunk ← slice (HDR + skip) (HDR + skip + take) p;
              range_overflow_loop fuel (S hops) total_len (extra p) 0 want (out ++ chunk) s
      else if bool_decide (length out < want)
      then Err (corrupt "overflow chain shorter than its total_len")
      else Ok out
  end.

(** The bytes [off .. off+n) of the value at [loc]. *)
Definition read_value_range (loc : ValueLoc) (off : Z) (n : nat) (s : St) : res bytes :=
  if bool_decide (n = 0) then Ok []
  else if bool_decide (2 ^ 64 ≤ off + Z.of_nat n)%Z
  then Err (corrupt "value range overflows")
  else if bool_decide (value_loc_len loc < off + Z.of_nat n)%Z
  then Err (corrupt "value range past the end of the value")
  else
    match loc with
    | LocInline v => slice (Z.to_nat off) (Z.to_nat off + n) v
    | LocOverflow total_len first_page =>
        range_overflow_loop (Z.to_nat total_len / OVERFLOW_CAP + 5) 0 total_len first_page
          (Z.to_nat off) n [] s
    | LocExtent start_page _ =>
        let page := (start_page + off / 4096)%Z in
        let skip := Z.to_nat (off mod 4096) in
        scratch ← ps_read_extent page (Z.of_nat (skip + n)) s;
        if bool_decide (length scratch ≠ skip + n)
        then Err (corrupt "extent read returned wrong length")
        else slice skip (length scratch) scratch
    | LocExternal hash total_len =>
        whole ← ps_read_external hash total_len s;
        if bool_decide (Z.of_nat (length whole) ≠ total_len)
        then Err (corrupt "external read returned wrong length")
        else if bool_decide (content_hash whole ≠ hash)
        then Err (corrupt "external payload does not match its content hash")
        else slice (Z.to_nat off) (Z.to_nat off + n) whole
    end.

(** * Insertion *)

Fixpoint insert_cells (i : nat) (cells : list bytes) : M bytes unit :=
  match cells with
  | [] => mret tt
  | c :: cells => insert_cell i c;; insert_cells (S i) cells
  end.

Definition rebuild (node_kind : Z) (cells : list bytes) (lm : Z) : M bytes unit :=
  init_node node_kind;;
  (if bool_decide (node_kind = KIND_BRANCH) then set_extra lm else mret tt);;
  insert_cells 0 cells.

Definition cell_klen (c : bytes) : res nat :=
  b ← slice 0 2 c; Ok (Z.to_nat (le_decode b)).

(** Separator, leftmost child of the right node, and the two cell lists. *)
Definition split_parts (node_kind : Z) (cells : list bytes) (split_at : nat)
  : res (bytes * Z * list bytes * list bytes) :=
  match cells !! split_at with
  | None => Panic
  | Some c =>
      klen ← cell_klen c;
      if bool_decide (node_kind = KIND_LEAF) then
        key ← slice 3 (3 + klen) c;
        Ok (key, 0%Z, take split_at cells, drop split_at cells)
      else
        key ← slice 2 (2 + klen) c;
        child ← slice (2 + klen) (2 + klen + 8) c;
        Ok (key, le_decode child, take split_at cells, drop (S split_at) cells)
  end.

Definition split_dirty (page_id node_kind : Z) (cells : list bytes) (leftmost : Z)
  : M St (bytes * Z) :=
  split_at ← lift (res_of_option (corrupt "no feasible split point (oversized cells)")
                     (pick_split (bool_decide (node_kind = KIND_LEAF)) cells));
  right_id ← ps_alloc;
  '(sep, right_leftmost, left_cells, right_cells) ← lift (split_parts node_kind cells split_at);
  with_page_mut page_id (rebuild node_kind left_cells leftmost);;
  with_page_mut right_id (rebuild node_kind right_cells right_leftmost);;
  mret (sep, right_id).

(** The leaf cell for [val], writing its overflow chain first when the
    value does not fit inline. A small [Stream] is drained into a buffer. *)
Definition build_leaf_cell (key : bytes) (val : Payload) : M St bytes :=
  match val with
  | Stream head src =>
      if bool_decide (length head + length src ≤ MAX_INLINE_VAL)
      then mret (make_leaf_cell key (Flat (head ++ src)) 0)
      else op ← write_overflow val; mret (make_leaf_cell key val op)
  | ExtentRef _ _ _ | ExternalRef _ _ => mret (make_leaf_cell key val 0)
  | _ =>
      op ← (if bool_decide (MAX_INLINE_VAL < payload_len val) then write_overflow val
            else mret 0%Z);
      mret (make_leaf_cell key val op)
  end.

(** Removes the entry at [pos] and gives back what its value owns. *)
Definition leaf_drop (id : Z) (pos : nat) : M St unit :=
  '(_, v) ← reads (λ s, p ← ps_page id s; leaf_cell p pos);
  free_old_val (old_val v);;
  with_page_mut id (remove_cell pos).

(** Stores the new entry at [pos] of the dirty leaf [id]. *)
Definition leaf_put (id : Z) (pos : nat) (key : bytes) (val : Payload) (existing : bool)
  : M St Ins :=
  cell ← build_leaf_cell key val;
  b ← reads (λ s, p ← ps_page id s; fits p (length cell));
  if (b : bool) then
    with_page_mut id (insert_cell pos cell);;
    mret (Done id existing)
  else
    cells ← reads (λ s, p ← ps_page id s; all_cells p);
    '(sep, r_id) ← split_dirty id KIND_LEAF (insert_at pos cell cells) 0;
    mret (Split id sep r_id existing).

Definition insert_leaf (page_id : Z) (key : bytes) (val : Payload) (mode : InsertMode)
  : M St Ins :=
  f ← reads (λ s, p ← ps_page page_id s; search p key);
  let '(pos, existing) :=
    match f with FoundAt i => (i, true) | NotFound i => (i, false) end in
  if existing && bool_decide (mode = InsertOnly) then mret (Done page_id true)
  else
    id ← cow page_id;
    (if (existing : bool) then leaf_drop id pos else mret tt);;
    leaf_put id pos key val existing.

Definition insert_branch (page_id : Z) (idx : nat) (child : Z) (r : Ins) : M St Ins :=
  match r with
  | Done id existed =>
      dirty ← reads (λ s, Ok (ps_is_dirty page_id s));
      if bool_decide (id = child) && negb dirty then mret (Done page_id existed)
      else
        my_id ← cow page_id;
        with_page_mut my_id (set_branch_child idx id);;
        mret (Done my_id existed)
  | Split l_id sep r_id existed =>
      my_id ← cow page_id;
      with_page_mut my_id (set_branch_child idx l_id);;
      let cell := make_branch_cell sep r_id in
      b ← reads (λ s, p ← ps_page my_id s; fits p (length cell));
      if (b : bool) then
        with_page_mut my_id (insert_cell idx cell);;
        mret (Done my_id existed)
      else
        cells ← reads (λ s, p ← ps_page my_id s; all_cells p);
        leftmost ← reads (λ s, p ← ps_page my_id s; Ok (extra p));
        '(up_sep, up_right) ← split_dirty my_id KIND_BRANCH (insert_at idx cell cells) leftmost;
        mret (Split my_id up_sep up_right existed)
  end.

Fixpoint insert_rec (fuel : nat) (page_id : Z) (key : bytes) (val : Payload)
    (mode : InsertMode) : M St Ins :=
  match fuel with
  | O => lift Panic
  | S fuel =>
      node_kind ← reads (λ s, p ← ps_page page_id s; check_node p;; Ok (kind p));
      if bool_decide (node_kind = KIND_LEAF) then insert_leaf page_id key val mode
      else if bool_decide (node_kind = KIND_BRANCH) then
        idx ← reads (λ s, p ← ps_page page_id s; descent_index p key);
        child ← reads (λ s, p ← ps_page page_id s; branch_child p idx);
        r ← insert_rec fuel child key val mode;
        insert_branch page_id idx child r
      else lift (Err (corrupt "unexpected page kind in insert"))
  end.

Definition insert (fuel : nat) (root : Z) (key : bytes) (val : Payload) (mode : InsertMode)
  : M St InsertOutcome :=
  if bool_decide (MAX_KEY < length key) then lift (Err (Unsupported "encoded key too long"))
  else if bool_decide (2 ^ 32 - 1 < Z.of_nat (payload_len val))%Z
  then lift (Err (Unsupported "value larger than 4 GiB"))
  else if bool_decide (root = 0%Z) then
    id ← ps_alloc;
    with_page_mut id (init_node KIND_LEAF);;
    overflow_page ← (if bool_decide (MAX_INLINE_VAL < payload_len val) then write_overflow val
                     else mret 0%Z);
    with_page_mut id (insert_cell 0 (make_leaf_cell key val overflow_page));;
    mret (MkInsertOutcome id false)
  else
    r ← insert_rec fuel root key val mode;
    match r with
    | Done id existed => mret (MkInsertOutcome id existed)
    | Split l_id sep r_id existed =>
        new_root ← ps_alloc;
        with_page_mut new_root (init_node KIND_BRANCH;; set_extra l_id);;
        with_page_mut new_root (insert_cell 0 (make_branch_cell sep r_id));;
        mret (MkInsertOutcome new_root existed)
    end.

(** * Deletion *)

Fixpoint merge_cells (base : nat) (cells : list bytes) (l_id : Z) : M St unit :=
  match cells with
  | [] => mret tt
  | c :: cells =>
      tight ← reads (λ s, p ← ps_page l_id s; Ok (bool_decide (free_space p < length c + 2)));
      (if (tight : bool) then with_page_mut l_id compact else mret tt);;
      with_page_mut l_id (insert_cell base c);;
      merge_cells (S base) cells l_id
  end.

Definition used (id : Z) (s : St) : res nat :=
  p ← ps_page id s; u ← used_cell_bytes p; Ok (u + nkeys p * 2).

(** Appends the cells of [r_id] to a private copy of [l_id]. *)
Definition join_leaves (l_id r_id : Z) : M St Z :=
  l_id ← cow l_id;
  right_cells ← reads (λ s, p ← ps_page r_id s; all_cells p);
  base ← reads (λ s, p ← ps_page l_id s; Ok (nkeys p));
  merge_cells base right_cells l_id;;
  ps_free r_id;;
  mret l_id.

Definition merge_siblings (branch_id : Z) (li ri : nat) : M St unit :=
  l_id ← reads (λ s, p ← ps_page branch_id s; branch_child p li);
  r_id ← reads (λ s, p ← ps_page branch_id s; branch_child p ri);
  reads (λ s, p ← ps_page l_id s; check_node p);;
  reads (λ s, p ← ps_page r_id s; check_node p);;
  kl ← reads (λ s, p ← ps_page l_id s; Ok (kind p));
  kr ← reads (λ s, p ← ps_page r_id s; Ok (kind p));
  if bool_decide (kl ≠ KIND_LEAF ∨ kr ≠ KIND_LEAF) then mret tt
  else
    ul ← reads (used l_id);
    ur ← reads (used r_id);
    if bool_decide (PAGE_SIZE - HDR < ul + ur) then mret tt
    else
      l_id ← join_leaves l_id r_id;
      with_page_mut branch_id (set_branch_child li l_id;; remove_cell li).

Definition try_merge_leaves (branch_id : Z) (idx : nat) : M St unit :=
  n ← reads (λ s, p ← ps_page branch_id s; Ok (nkeys p));
  child ← reads (λ s, p ← ps_page branch_id s; branch_child p idx);
  reads (λ s, p ← ps_page child s; check_node p);;
  k ← reads (λ s, p ← ps_page child s; Ok (kind p));
  if bool_decide (k ≠ KIND_LEAF) then mret tt
  else
    child_used ← reads (used child);
    if bool_decide ((PAGE_SIZE - HDR) / 4 ≤ child_used) then mret tt
    else
      match (if bool_decide (idx < n) then Some (idx, S idx)
             else match idx with S i => Some (i, idx) | O => None end) with
      | None => mret tt
      | Some (li, ri) => merge_siblings branch_id li ri
      end.

Definition delete_leaf (page_id : Z) (key : bytes) : M St Del :=
  f ← reads (λ s, p ← ps_page page_id s; search p key);
  match f with
  | NotFound _ => mret (MkDel page_id false)
  | FoundAt pos =>
      id ← cow page_id;
      leaf_drop id pos;;
      n ← reads (λ s, p ← ps_page id s; Ok (nkeys p));
      if bool_decide (n = 0) then ps_free id;; mret (MkDel 0 true)
      else mret (MkDel id true)
  end.

Definition delete_branch (page_id : Z) (idx : nat) (child : Z) (r : Del) : M St Del :=
  dirty ← reads (λ s, Ok (ps_is_dirty page_id s));
  if negb (d_existed r) && bool_decide (new_id r = child) && negb dirty
  then mret (MkDel page_id false)
  else
    my_id ← cow page_id;
    if bool_decide (new_id r ≠ 0%Z) then
      with_page_mut my_id (set_branch_child idx (new_id r));;
      try_merge_leaves my_id idx;;
      mret (MkDel my_id (d_existed r))
    else
      n ← reads (λ s, p ← ps_page my_id s; Ok (nkeys p));
      match idx with
      | O =>
          if bool_decide (n = 0) then ps_free my_id;; mret (MkDel 0 (d_existed r))
          else
            '(_, new_leftmost) ← reads (λ s, p ← ps_page my_id s; branch_cell p 0);
            with_page_mut my_id (set_extra new_leftmost;; remove_cell 0);;
            mret (MkDel my_id (d_existed r))
      | S i =>
          with_page_mut my_id (remove_cell i);;
          mret (MkDel my_id (d_existed r))
      end.

Fixpoint delete_rec (fuel : nat) (page_id : Z) (key : bytes) : M St Del :=
  match fuel with
  | O => lift Panic
  | S fuel =>
      reads (λ s, p ← ps_page page_id s; check_node p);;
      k ← reads (λ s, p ← ps_page page_id s; Ok (kind p));
      if bool_decide (k = KIND_LEAF) then delete_leaf page_id key
      else if bool_decide (k = KIND_BRANCH) then
        idx ← reads (λ s, p ← ps_page page_id s; descent_index p key);
        child ← reads (λ s, p ← ps_page page_id s; branch_child p idx);
        r ← delete_rec fuel child key;
        delete_branch page_id idx child r
      else lift (Err (corrupt "unexpected page kind in delete"))
  end.

(** Collapse of single-child branches at the root. *)
Fixpoint collapse_root (fuel : nat) (root : Z) : M St Z :=
  match fuel with
  | O => lift Panic
  | S fuel =>
      if bool_decide (root = 0%Z) then mret root
      else
        p ← reads (ps_page root);
        if bool_decide (kind p = KIND_BRANCH ∧ nkeys p = 0) then
          let only_child := extra p in
          ps_free root;;
          collapse_root fuel only_child
        else mret root
  end.

Definition delete (fuel : nat) (root : Z) (key : bytes) : M St DeleteOutcome :=
  if bool_decide (root = 0%Z) then mret (MkDeleteOutcome 0 false)
  else
    r ← delete_rec fuel root key;
    new_root ← collapse_root (S fuel) (new_id r);
    mret (MkDeleteOutcome new_root (d_existed r)).
End Tree.
