(* ===== verification/Overflow.v ===== *)
(** Overflow chains of [crates/mpedb-core/src/btree.rs]: what a chain of
    pages holds, that [write_overflow] builds such a chain from any payload,
    that [read_overflow] and [read_value_range] read it back, and that
    [free_overflow] gives its pages back. *)

From S2P Require Import Prelude BtreeNode PageStore Btree.

(** * The bytes a payload reader has yet to yield *)

Definition cursor_rest (c : PayloadCursor) : bytes :=
  drop (pc_off c) (mjoin (drop (pc_ix c) (pc_pieces c))).

(** The offset stays inside the current piece. *)
Definition cursor_ok (c : PayloadCursor) : Prop :=
  match pc_pieces c !! pc_ix c with Some p => pc_off c ≤ length p | None => pc_off c = 0 end.

Definition reader_rest (r : PayloadReader) : bytes :=
  match r with Slices c => cursor_rest c | StreamSrc rest => rest end.

Definition reader_ok (r : PayloadReader) : Prop :=
  match r with Slices c => cursor_ok c | StreamSrc _ => True end.

Lemma next_chunk_loop_spec fuel want c :
  length (pc_pieces c) - pc_ix c < fuel → 0 < want → cursor_ok c → cursor_rest c ≠ [] →
  ∃ chunk c', next_chunk_loop fuel want c = Some (chunk, c') ∧ cursor_ok c' ∧
    0 < length chunk ≤ want ∧ cursor_rest c = chunk ++ cursor_rest c'.
Proof.
  revert c; induction fuel as [|fuel IH]; intros [ps i off] Hf Hw Hok Hne; [lia|].
  unfold cursor_ok, cursor_rest in *. cbn [next_chunk_loop pc_pieces pc_ix pc_off] in *.
  destruct (ps !! i) as [piece|] eqn:Hi.
  2:{ apply lookup_ge_None_1 in Hi. rewrite (drop_ge ps) in Hne by done. by destruct off. }
  pose proof (lookup_lt_Some _ _ _ Hi) as Hlt.
  rewrite (drop_S _ _ _ Hi) in *. cbn [mjoin list_join] in *. rewrite drop_app in *.
  case_bool_decide as Hd.
  - rewrite (drop_ge piece) in * by lia. replace (off - length piece) with 0 in * by lia.
    rewrite drop_0, app_nil_l in *.
    destruct (IH (MkPayloadCursor ps (S i) 0)) as (ch&c'&Hn&?&?&Hr); cbn; [lia|lia| |done|].
    { unfold cursor_ok; cbn. destruct (ps !! S i); lia. }
    exists ch, c'. split_and!; try done; try lia. 
  - eexists _, _. split; [done|]. cbn [pc_pieces pc_ix pc_off]. rewrite Hi.
    set (t := want `min` (length piece - off)).
    rewrite (drop_S _ _ _ Hi). cbn [mjoin list_join]. rewrite drop_app.
    split; [lia|]. rewrite length_sub by lia. split; [lia|]. rewrite app_assoc. f_equal; [|f_equal; lia].
    unfold sub. by rewrite <- drop_drop, take_drop.
Qed.

Lemma next_chunk_spec want c :
  0 < want → cursor_ok c → cursor_rest c ≠ [] →
  ∃ chunk c', next_chunk want c = Some (chunk, c') ∧ cursor_ok c' ∧
    0 < length chunk ≤ want ∧ cursor_rest c = chunk ++ cursor_rest c'.
Proof. intros. apply next_chunk_loop_spec; [lia|done..]. Qed.

Lemma fill_slices_spec fuel n c :
  n < fuel → cursor_ok c → n ≤ length (cursor_rest c) →
  ∃ c', fill_slices fuel n c = Ok (take n (cursor_rest c), c') ∧ cursor_ok c' ∧
    cursor_rest c' = drop n (cursor_rest c).
Proof.
  revert n c; induction fuel as [|fuel IH]; intros n c Hf Hok Hn; [lia|].
  cbn [fill_slices]. case_bool_decide as H0.
  { subst. exists c. by rewrite drop_0. }
  destruct (next_chunk_spec n c) as (ch&c'&Hc&Hok'&Hl&Hr); [lia|done| |].
  { intros E. rewrite E in Hn. simpl in Hn. lia. }
  rewrite Hc. cbn [res_of_option mbind res_mbind]. rewrite Hr, length_app in Hn.
  destruct (IH (n - length ch) c') as (c''&Hf'&?&Hr'); [lia|done|lia|].
  rewrite Hf'. exists c''. cbn [mbind res_mbind]. rewrite Hr' , Hr. split_and!; [|done|].
  - by rewrite take_app, (take_ge ch) by lia.
  - by rewrite drop_app, (drop_ge ch) by lia.
Qed.

Lemma fill_spec n r :
  reader_ok r → n ≤ length (reader_rest r) →
  ∃ r', fill n r = Ok (take n (reader_rest r), r') ∧ reader_ok r' ∧
    reader_rest r' = drop n (reader_rest r).
Proof.
  intros Hok Hn. destruct r as [c|rest]; cbn [fill reader_rest] in *.
  - destruct (fill_slices_spec (S n) n c) as (c'&H&?&?); [lia|done|done|].
    rewrite H. by exists (Slices c').
  - rewrite bool_decide_true by done. eauto.
Qed.

(** The bytes a payload stands for when it is written to pages. *)
Definition payload_bytes (v : Payload) : bytes :=
  match v with
  | Flat b => b
  | Parts ps => mjoin ps
  | Stream head src => head ++ src
  | ExtentRef _ _ _ | ExternalRef _ _ => []
  end.

Definition is_plain (v : Payload) : Prop :=
  match v with ExtentRef _ _ _ | ExternalRef _ _ => False | _ => True end.

Lemma length_mjoin {A} (ls : list (list A)) : length (mjoin ls) = sum_list (map length ls).
Proof. induction ls; simpl; [done|]. rewrite length_app. by f_equal. Qed.

Lemma length_payload_bytes v : is_plain v → length (payload_bytes v) = payload_len v.
Proof.
  destruct v; simpl; intros; try done; [apply length_mjoin|apply length_app].
Qed.

(** * One page of a chain *)

(** The page [p] carries [chunk] and points to the page [next]. *)
Record holds (p chunk : bytes) (next : Z) : Prop := {
  h_len : length p = PAGE_SIZE;
  h_kind : kind p = KIND_OVERFLOW;
  h_size : le_decode (sub 6 2 p) = Z.of_nat (length chunk);
  h_cap : length chunk ≤ OVERFLOW_CAP;
  h_data : sub HDR (length chunk) p = chunk;
  h_next : extra p = next;
}.

(** A write above the header leaves the chain fields alone. *)
Lemma blit_body off bs p q : HDR ≤ off → blit off bs p = Ok q →
  length q = length p ∧ kind q = kind p ∧ extra q = extra p ∧ sub 6 2 q = sub 6 2 p.
Proof.
  intros Ho Hb. pose proof (blit_same_hdr _ _ _ _ Ho Hb) as (?&?&?&?&?).
  split_and!; try done. eapply sub_blit_disj; [exact Hb|]. unfold HDR in Ho. lia.
Qed.

Lemma sub_blit_snoc off (a bs p q : bytes) :
  blit (off + length a) bs p = Ok q → sub off (length a) p = a →
  sub off (length (a ++ bs)) q = a ++ bs.
Proof.
  intros Hb Ha. rewrite length_app, sub_split. f_equal.
  - rewrite <- Ha at 2. eapply sub_blit_disj; [exact Hb|]. lia.
  - by eapply sub_blit_same.
Qed.

(** What is still to be written: the rest of the head, then the source. *)
Definition pending (head : bytes) (head_done : nat) (r : PayloadReader) : bytes :=
  drop head_done head ++ reader_rest r.

Section FillPage.
Context (n : nat) (head : bytes) (Hn : n ≤ OVERFLOW_CAP).

(** The page under construction: header done, [chunk] written so far. *)
Definition filling (p chunk : bytes) : Prop :=
  length p = PAGE_SIZE ∧ kind p = KIND_OVERFLOW ∧ extra p = 0%Z ∧
  le_decode (sub 6 2 p) = Z.of_nat n ∧ sub HDR (length chunk) p = chunk.

Lemma filling_more chunk bs p : length chunk + length bs ≤ n → filling p chunk →
  wpp (update (blit (HDR + length chunk) bs)) (λ _ q, filling q (chunk ++ bs)) p.
Proof.
  intros Hle (Hl&Hk&He&Hs&Hd). apply wpp_blit; [sizes|]. intros q Hb.
  destruct (blit_body _ _ _ _ (Nat.le_add_r _ _) Hb) as (?&?&?&?).
  split_and!; [congruence..|]. by eapply sub_blit_snoc.
Qed.

Lemma filling_start p : node_rep p KIND_OVERFLOW 0 [] →
  wpp (update (blit 6 (le_encode 2 (Z.of_nat n)))) (λ _ q, filling q []) p.
Proof.
  intros Hr. pose proof (nr_len _ _ _ _ Hr). pose proof (length_le_encode 2 (Z.of_nat n)).
  apply wpp_blit; [sizes|]. intros q Hb. unfold filling.
  rewrite (length_blit _ _ _ _ Hb), (sub_blit_le _ _ _ _ _ Hb), le_decode_encode_id by sizes.
  rewrite <- (nr_kind _ _ _ _ Hr), <- (nr_extra _ _ _ _ Hr). unfold kind, extra.
  rewrite (lookup_blit _ _ _ _ _ Hb), decide_False by lia.
  by rewrite (sub_blit_disj _ _ _ _ _ _ Hb) by lia.
Qed.

Lemma filling_done chunk p : length chunk = n → filling p chunk →
  wpp (update (λ p, blit (HDR + n) (replicate (length p - (HDR + n)) 0%Z) p))
    (λ _ q, holds q chunk 0) p.
Proof.
  intros Hc (Hl&Hk&He&Hs&Hd).
  destruct (blit_Ok (HDR + n) (replicate (length p - (HDR + n)) 0%Z) p) as [q Hb].
  { rewrite length_replicate. sizes. }
  eapply wp_update; [exact Hb|]. destruct (blit_body _ _ _ _ (Nat.le_add_r _ _) Hb) as (?&?&?&?).
  split; try congruence. rewrite <- Hd at 2.
  eapply sub_blit_disj; [exact Hb|]. lia.
Qed.

Lemma fill_overflow_page_spec done r p :
  length p = PAGE_SIZE → done ≤ length head → reader_ok r →
  n ≤ length (pending head done r) →
  wpp (fill_overflow_page n head done r)
    (λ '(done', r') q, holds q (take n (pending head done r)) 0 ∧ done' ≤ length head ∧
       reader_ok r' ∧ pending head done' r' = drop n (pending head done r)) p.
Proof.
  intros Hl Hd Hr Hlen. unfold fill_overflow_page, pending in *.
  apply wp_bind. eapply wp_mono; [by apply init_node_rep|]. intros [] p1 Hp1.
  apply wp_bind. eapply wp_mono; [by apply filling_start|]. intros [] p2 Hp2.
  rewrite length_app, length_drop in Hlen. apply wp_bind.
  eapply (wp_mono _ _ (λ k q, k = n `min` (length head - done) ∧
    filling q (sub done k head))).
  { case_bool_decide as Hlt.
    - apply wp_bind. eapply wp_mono.
      { eapply (filling_more []); [|exact Hp2]. simpl. rewrite length_sub; lia. }
      intros [] q Hq. by apply wp_ret.
    - apply wp_ret. split; [lia|]. by rewrite <- (take_0 (drop done head)) in Hp2. }
  intros k p3 [-> Hp3]. set (k := n `min` (length head - done)) in *.
  assert (length (sub done k head) = k) as Hk by (rewrite length_sub; lia).
  apply wp_bind.
  eapply (wp_mono _ _ (λ r' q, filling q (sub done k head ++ take (n - k) (reader_rest r)) ∧
    reader_ok r' ∧ reader_rest r' = drop (n - k) (reader_rest r))).
  { case_bool_decide as Hlt.
    - destruct (fill_spec (n - k) r Hr) as (r'&Hf&?&Hrest); [lia|].
      apply wp_bind. eapply wp_lift; [exact Hf|]. apply wp_bind.
      rewrite <- Hk at 1. eapply wp_mono; [eapply filling_more; [|exact Hp3]|].
      { rewrite length_take. lia. }
      intros [] q Hq. by apply wp_ret.
    - apply wp_ret. replace (n - k) with 0 by lia. by rewrite take_0, app_nil_r, drop_0. }
  intros r' p4 (Hp4&Hr'&Hrest). apply wp_bind.
  eapply wp_mono; [eapply filling_done; [|exact Hp4]|].
  { rewrite length_app, length_take. lia. }
  intros [] q Hq. apply wp_ret. split_and!; [|lia|done|].
  - rewrite take_app, length_drop. unfold sub in Hq. unfold k in *.
    replace (n - (length head - done)) with (n - n `min` (length head - done)) by lia.
    replace (take n (drop done head)) with (take (n `min` (length head - done)) (drop done head)); [done|].
    destruct (decide (n ≤ length head - done)); [by rewrite Nat.min_l by lia|].
    rewrite Nat.min_r by lia. rewrite !take_ge by (rewrite length_drop; lia). done.
  - rewrite Hrest, drop_app, drop_drop, length_drop. f_equal; [|f_equal; lia].
    destruct (decide (n ≤ length head - done)); [f_equal; lia|].
    rewrite !drop_ge by lia. done.
Qed.
End FillPage.

(** * Chains in a store *)

Definition pgs (ids : list Z) : rset := list_to_set (Pg <$> ids).

Lemma elem_of_pgs r ids : r ∈ pgs ids ↔ ∃ id, r = Pg id ∧ id ∈ ids.
Proof. unfold pgs. rewrite elem_of_list_to_set, list_elem_of_fmap. done. Qed.

Lemma pgs_app ids ids' : pgs (ids ++ ids') = pgs ids ∪ pgs ids'.
Proof. unfold pgs. by rewrite fmap_app, list_to_set_app_L. Qed.

Lemma pgs_singleton id : pgs [id] = {[Pg id]}.
Proof. unfold pgs. simpl. by rewrite (right_id_L ∅ (∪)). Qed.

Lemma elem_of_Pg_pgs id ids : Pg id ∈ pgs ids ↔ id ∈ ids.
Proof. rewrite elem_of_pgs. split; [by intros (?&[= ->]&?)|eauto]. Qed.

#[local] Opaque FREE_HOPS.

Section Chain.
Context {St : Type} `{!PageStore St, !StoreView St, !StoreLaws St}.
Implicit Types s : St.

Definition page_holds s (id : Z) (chunk : bytes) (next : Z) : Prop :=
  live s (Pg id) ∧ holds (bytes_at s id) chunk next.

(** Full pages [ids], linked from [a] to [e], carrying [w]. *)
Inductive lseg s : Z → list Z → bytes → Z → Prop :=
| lseg_nil a : lseg s a [] [] a
| lseg_cons id chunk next ids w e :
    page_holds s id chunk next → length chunk = OVERFLOW_CAP → lseg s next ids w e →
    lseg s id (id :: ids) (chunk ++ w) e.

(** A whole chain: full pages, then a last page that is not empty. *)
Definition chain s (first : Z) (ids : list Z) (v : bytes) : Prop :=
  ∃ ids' w last chunk, ids = ids' ++ [last] ∧ v = w ++ chunk ∧
    lseg s first ids' w last ∧ page_holds s last chunk 0 ∧ 0 < length chunk.

Definition unchanged s s' (ids : list Z) : Prop :=
  ∀ id, id ∈ ids → live s' (Pg id) ∧ bytes_at s' id = bytes_at s id.

Lemma lseg_frame s s' a ids w e : unchanged s s' ids → lseg s a ids w e → lseg s' a ids w e.
Proof.
  intros Hu Hs. induction Hs as [|id chunk next ids w e [Hl Hh] Hc _ IH]; [constructor|].
  econstructor; [|done|].
  - destruct (Hu id) as [? Heq]; [constructor|]. split; [done|]. by rewrite Heq.
  - apply IH. intros i Hi. apply Hu. by constructor.
Qed.

Lemma chain_frame s s' first ids v :
  unchanged s s' ids → chain s first ids v → chain s' first ids v.
Proof.
  intros Hu (ids'&w&last&chunk&->&->&Hs&[Hl Hh]&?). exists ids', w, last, chunk.
  split_and!; try done.
  - eapply lseg_frame; [|done]. intros id Hid. apply Hu, elem_of_app. auto.
  - destruct (Hu last) as [? Heq]; [apply elem_of_app; right; constructor|].
    split; [done|]. by rewrite Heq.
Qed.

Lemma lseg_snoc s a ids w id chunk e :
  lseg s a ids w id → page_holds s id chunk e → length chunk = OVERFLOW_CAP →
  lseg s a (ids ++ [id]) (w ++ chunk) e.
Proof.
  intros Hs Hh Hc. induction Hs; simpl.
  - rewrite <- (app_nil_r chunk). econstructor; [done|done|constructor].
  - rewrite <- app_assoc. econstructor; eauto.
Qed.

Lemma lseg_take s a ids w e n :
  lseg s a ids w e → live s (Pg e) → n ≤ length ids →
  ∃ m w1, lseg s a (take n ids) w1 m ∧ live s (Pg m).
Proof.
  intros Hs He. revert n. induction Hs as [|id chunk next ids w e Hh Hc Hs IH]; intros n Hn.
  - exists a, []. rewrite take_nil. split; [constructor|done].
  - destruct n as [|n].
    + exists id, []. split; [constructor|by destruct Hh].
    + destruct (IH He n) as (m&w1&?&?); [simpl in Hn; lia|].
      exists m, (chunk ++ w1). split; [by econstructor|done].
Qed.

Lemma lseg_length s a ids w e : lseg s a ids w e → length w = OVERFLOW_CAP * length ids.
Proof.
  induction 1 as [|????????? IH]; [cbn [length]; lia|].
  rewrite length_app, IH. cbn [length]. lia.
Qed.

Lemma lseg_live s a ids w e id : lseg s a ids w e → id ∈ ids → live s (Pg id).
Proof.
  induction 1 as [|????? ? [Hl _] _ _ IH]; [by intros ?%elem_of_nil|].
  intros [->|?]%elem_of_cons; auto.
Qed.

Lemma chain_live s first ids v id : chain s first ids v → id ∈ ids → live s (Pg id).
Proof.
  intros (ids'&w&last&chunk&->&->&Hs&[Hl _]&_).
  intros [?| ->%list_elem_of_singleton]%elem_of_app; [by eapply lseg_live|done].
Qed.

(** A chain has one page per [OVERFLOW_CAP] bytes, rounded up. *)
Lemma chain_length s first ids v : chain s first ids v →
  OVERFLOW_CAP * (length ids - 1) < length v ≤ OVERFLOW_CAP * length ids ∧ 0 < length ids.
Proof.
  intros (ids'&w&last&chunk&->&->&Hs&[_ Hh]&?). pose proof (h_cap _ _ _ Hh).
  rewrite !length_app, (lseg_length _ _ _ _ _ Hs). cbn [length]. lia.
Qed.

Lemma chain_first s first ids v : ok s → chain s first ids v → (0 < first < 2 ^ 64)%Z.
Proof.
  intros Hok (ids'&w&last&chunk&->&->&Hs&[Hl _]&?). apply id_law with (s := s); [done|].
  by destruct Hs as [|???? ? ? [Hl' _]].
Qed.

(** ** Reading *)

Section Read.
Context (s : St) (Hok : ok s) (total : Z).

Lemma read_overflow_page fuel hops id chunk next out :
  page_holds s id chunk next → hops ≤ Z.to_nat total / OVERFLOW_CAP + 2 →
  read_overflow_loop (S fuel) hops total id out s =
  read_overflow_loop fuel (S hops) total next (out ++ chunk) s.
Proof.
  intros [Hl Hh] Hhops. cbn [read_overflow_loop]. pose proof (id_law s id Hok Hl).
  rewrite bool_decide_false by lia. rewrite bool_decide_false by lia.
  rewrite page_law by done. cbn [mbind res_mbind].
  rewrite bool_decide_false by (intros Hne; apply Hne, Hh).
  pose proof (h_cap _ _ _ Hh). pose proof (h_len _ _ _ Hh).
  rewrite (h_size _ _ _ Hh), Nat2Z.id. rewrite bool_decide_false by lia.
  rewrite slice_Ok by sizes. cbn [mbind res_mbind].
  rewrite (Nat.add_comm HDR), Nat.add_sub, (h_data _ _ _ Hh), (h_next _ _ _ Hh). done.
Qed.

Lemma read_overflow_lseg ids w a e fuel hops out :
  lseg s a ids w e → hops + length ids ≤ Z.to_nat total / OVERFLOW_CAP + 2 →
  read_overflow_loop (length ids + fuel) hops total a out s =
  read_overflow_loop fuel (hops + length ids) total e (out ++ w) s.
Proof.
  intros Hs. revert hops out. induction Hs as [|id chunk next ids w e Hh Hc _ IH];
    intros hops out Hle; cbn [length Nat.add] in *.
  - by rewrite app_nil_r, Nat.add_0_r.
  - rewrite (read_overflow_page _ _ _ _ _ _ Hh) by lia. rewrite IH by lia.
    by rewrite <- app_assoc, Nat.add_succ_r.
Qed.
End Read.

Lemma read_overflow_spec s first ids v :
  ok s → chain s first ids v → read_overflow first (Z.of_nat (length v)) s = Ok v.
Proof.
  intros Hok Hc. destruct (chain_length _ _ _ _ Hc) as [[Hlo Hhi] _].
  destruct Hc as (ids'&w&last&chunk&->&->&Hs&Hh&Hpos). rewrite length_app in Hlo.
  assert (length ids' ≤ length (w ++ chunk) / OVERFLOW_CAP) as Hn.
  { apply Nat.div_le_lower_bound; [sizes|]. cbn [length] in Hlo.
    rewrite Nat.add_sub in Hlo. lia. }
  unfold read_overflow. rewrite Nat2Z.id.
  set (q := length (w ++ chunk) / OVERFLOW_CAP) in *.
  replace (q + 5) with (length ids' + S (S (q + 3 - length ids'))) by lia.
  rewrite (read_overflow_lseg _ Hok _ _ _ _ _ _ _ _ Hs) by (rewrite Nat2Z.id; lia).
  rewrite (read_overflow_page _ Hok _ _ _ _ _ _ _ Hh) by (rewrite Nat2Z.id; lia).
  cbn [read_overflow_loop mbind res_mbind]. rewrite bool_decide_true by done.
  cbn [mbind res_mbind]. by rewrite bool_decide_false by (intros []; done).
Qed.

(** ** Freeing *)

Lemma eff_unchanged s s' F F' ids :
  eff s s' F F' → (∀ id, id ∈ ids → live s (Pg id)) → F ## pgs ids →
  unchanged s s' ids ∧ F' ## pgs ids.
Proof.
  intros E Hl Hd. destruct (eff_framed _ _ _ _ (pgs ids) E) as [? Hf]; [|done|].
  { intros r (id&->&?)%elem_of_pgs. auto. }
  split; [|done]. intros id Hid. by destruct (Hf (Pg id)) as [? []]; [apply elem_of_Pg_pgs|].
Qed.

Section Free.
Context (fails : option Error → St → Prop).
Context (Hfails : ∀ e s, out_of_space e s → fails e s).

Lemma free_overflow_page fuel hops id chunk next s Q :
  ok s → page_holds s id chunk next → hops ≤ FREE_HOPS →
  (∀ s', eff s s' {[Pg id]} ∅ → wp fails (free_overflow_loop fuel (S hops) next) Q s') →
  wp fails (free_overflow_loop (S fuel) hops id) Q s.
Proof.
  intros Hok [Hl Hh] Hhops HQ. cbn [free_overflow_loop]. pose proof (id_law s id Hok Hl).
  rewrite bool_decide_false by lia. rewrite bool_decide_false by lia.
  apply wp_bind. eapply wp_reads; [by apply page_law|].
  rewrite bool_decide_false by (intros Hne; apply Hne, Hh).
  apply wp_bind. eapply wp_weaken; [exact Hfails|].
  eapply wp_mono; [by apply free_law|]. intros [] s' E.
  rewrite (h_next _ _ _ Hh). auto.
Qed.

Lemma free_overflow_lseg ids w a e fuel hops s Q :
  ok s → lseg s a ids w e → NoDup ids → hops + length ids ≤ S FREE_HOPS →
  (∀ s', eff s s' (pgs ids) ∅ →
         wp fails (free_overflow_loop fuel (hops + length ids) e) Q s') →
  wp fails (free_overflow_loop (length ids + fuel) hops a) Q s.
Proof.
  intros Hok Hs. revert hops s Hok Hs.
  induction ids as [|id ids IH] in w, a |- *; intros hops s Hok Hs Hnd Hle HQ; inversion Hs; subst.
  - cbn [length] in *. rewrite Nat.add_0_r in HQ. apply HQ. apply eff_refl; [done|]. by intros ? ?%elem_of_empty.
  - cbn [length Nat.add] in *. apply NoDup_cons in Hnd as [Hni Hnd].
    eapply free_overflow_page; [done|done|lia|]. intros s1 E1.
    assert (∀ i, i ∈ ids → live s (Pg i)) as Hlv by (intros; by eapply lseg_live).
    assert ({[Pg id]} ## pgs ids) as Hdj.
    { intros r ->%elem_of_singleton. by rewrite elem_of_Pg_pgs. }
    destruct (eff_unchanged _ _ _ _ ids E1 Hlv Hdj) as [Hu _].
    eapply IH; [by eapply eff_ok|by eapply lseg_frame|done|lia|]. intros s2 E2.
    replace (S hops + length ids) with (hops + S (length ids)) by lia. apply HQ.
    destruct (eff_seq _ _ _ _ _ _ _ E1 E2) as [E _]; [|done|].
    { intros r (i&->&?)%elem_of_pgs. auto. }
    by rewrite (left_id_L ∅ (∪)) in E.
Qed.
End Free.

Lemma free_overflow_spec s first ids v :
  ok s → chain s first ids v → NoDup ids → length ids ≤ S FREE_HOPS →
  wps (free_overflow first) (λ _ s', eff s s' (pgs ids) ∅) s.
Proof.
  intros Hok (ids'&w&last&chunk&->&->&Hs&Hh&Hpos) Hnd Hle.
  rewrite length_app in Hle. cbn [length] in Hle. apply NoDup_app in Hnd as (Hnd&Hni&_).
  unfold free_overflow.
  replace (FREE_HOPS + 3) with (length ids' + S (S (FREE_HOPS + 1 - length ids'))) by lia.
  eapply free_overflow_lseg; [done|done|done|done|lia|]. intros s1 E1.
  assert (pgs ids' ## pgs [last]) as Hdj.
  { rewrite pgs_singleton. intros r (id&->&?)%elem_of_pgs [= ->]%elem_of_singleton.
    eapply Hni; [done|constructor]. }
  destruct Hh as [Hl Hh].
  destruct (eff_unchanged _ _ _ _ [last] E1) as [Hu _]; [|done|].
  { by intros ? ->%list_elem_of_singleton. }
  destruct (Hu last) as [Hl1 Hb1]; [constructor|].
  eapply free_overflow_page; [done|by eapply eff_ok|split; [done|by rewrite Hb1]|lia|].
  intros s2 E2. cbn [free_overflow_loop]. rewrite bool_decide_true by done. apply wp_ret.
  rewrite pgs_app, pgs_singleton. rewrite pgs_singleton in Hdj.
  destruct (eff_seq _ _ _ _ _ _ _ E1 E2) as [E _]; [|done|].
  { by intros ? ->%elem_of_singleton. }
  by rewrite (left_id_L ∅ (∪)) in E.
Qed.

(** A chain longer than the hop limit is never freed. *)
Lemma free_overflow_too_long s first ids v :
  ok s → chain s first ids v → NoDup ids → S FREE_HOPS < length ids →
  wp (λ e s', out_of_space e s' ∨ e = Some (corrupt "overflow chain cycle"))
    (free_overflow first) (λ _ _, False) s.
Proof.
  intros Hok (ids'&w&last&chunk&->&->&Hs&Hh&Hpos) Hnd Hlt.
  rewrite length_app in Hlt. cbn [length] in Hlt. apply NoDup_app in Hnd as (Hnd&_&_).
  destruct (lseg_take s first ids' w last (S FREE_HOPS)) as (m&w1&Hs1&Hm);
    [done|by destruct Hh|lia|].
  unfold free_overflow.
  assert (length (take (S FREE_HOPS) ids') = S FREE_HOPS) as Hlen by (rewrite length_take; lia).
  replace (FREE_HOPS + 3) with (length (take (S FREE_HOPS) ids') + 2) by lia.
  eapply free_overflow_lseg; [by auto|done|exact Hs1|by eapply sublist_NoDup, sublist_take|lia|].
  intros s1 E1. rewrite Hlen. cbn [Nat.add free_overflow_loop].
  pose proof (id_law s m Hok Hm). rewrite bool_decide_false by lia.
  rewrite bool_decide_true by lia. by right.
Qed.

(** ** Writing *)

(** The chain built so far: none, or full pages up to the dirty page
    [prev], whose link is still null. *)
Definition built s (first prev : Z) (ids : list Z) (w : bytes) : Prop :=
  NoDup ids ∧
  (first = 0%Z ∧ ids = [] ∧ w = [] ∨
   ∃ ids' w' chunk, first ≠ 0%Z ∧ ids = ids' ++ [prev] ∧ w = w' ++ chunk ∧
     lseg s first ids' w' prev ∧ page_holds s prev chunk 0 ∧
     length chunk = OVERFLOW_CAP ∧ ps_is_dirty prev s = true).

Lemma holds_set_extra p chunk next v : holds p chunk next → is_uint 64 v →
  wpp (set_extra v) (λ _ q, holds q chunk v) p.
Proof.
  intros Hh Hv. pose proof (h_len _ _ _ Hh). unfold set_extra.
  apply hdr_blit_spec; [lia|unfold HDR; lia|sizes|].
  intros q Hb Hl Hk _ Ha. pose proof (length_le_encode 8 v).
  split; [congruence|by rewrite Hk; apply Hh| |apply Hh| |].
  - rewrite (sub_blit_disj _ _ _ _ _ _ Hb) by lia. apply Hh.
  - rewrite Ha by lia. apply Hh.
  - unfold extra. rewrite (sub_blit_le _ _ _ _ _ Hb). by apply le_decode_encode_id.
Qed.

Lemma built_live s first prev ids w id : built s first prev ids w → id ∈ ids → live s (Pg id).
Proof.
  intros [_ [(_&->&_)|(ids'&w'&chunk&_&->&_&Hs&[Hl _]&_)]]; [by intros ?%elem_of_nil|].
  intros [?| ->%list_elem_of_singleton]%elem_of_app; [by eapply lseg_live|done].
Qed.

(** Linking the new page [id] behind [prev]. *)
Lemma link_spec s first prev ids w id chunk :
  ok s → built s first prev ids w → page_holds s id chunk 0 → ps_is_dirty id s = true →
  id ∉ ids →
  wps (if bool_decide (first = 0%Z) then mret id
       else with_page_mut prev (set_extra id);; mret first)
    (λ f s', eff s s' (pgs ids) (pgs ids) ∧ f ≠ 0%Z ∧ lseg s' f ids w id ∧
       page_holds s' id chunk 0 ∧ ps_is_dirty id s' = true) s.
Proof.
  intros Hok Hb Hh Hd Hni. pose proof (id_law s id Hok (proj1 Hh)) as Hid.
  pose proof (λ i, built_live _ _ _ _ _ i Hb) as Hlive.
  destruct Hb as [Hnd [(->&->&->)|(ids'&w'&c'&Hf&->&->&Hs&Hp&Hc&Hdp)]].
  { rewrite bool_decide_true by done. apply wp_ret.
    split_and!; [|lia|constructor|done|done]. apply eff_refl; [done|]. by intros ? ?%elem_of_empty. }
  rewrite bool_decide_false by done. apply wp_bind, wp_page_mut; [done|apply Hp|done|].
  eapply wp_mono; [apply (holds_set_extra _ _ _ id (proj2 Hp)); unfold is_uint; lia|].
  intros [] q Hq. split; [apply Hq|]. intros s' E Hbq Hdq. apply wp_ret.
  assert (∀ l, l ⊆ ids' ++ [id] → unchanged s s' l ∧ {[Pg prev]} ## pgs l) as Hu.
  { intros l Hl. eapply eff_unchanged; [exact E| |].
    - intros i [?| ->%list_elem_of_singleton]%Hl%elem_of_app; [|apply Hh].
      apply Hlive, elem_of_app. auto.
    - intros r ->%elem_of_singleton. rewrite elem_of_Pg_pgs.
      intros [?| ->%list_elem_of_singleton]%Hl%elem_of_app.
      + apply NoDup_app in Hnd as (_&Hx&_). eapply Hx; [done|constructor].
      + apply Hni, elem_of_app. right. constructor. }
  destruct (Hu ids') as [Hu1 Hd1]; [set_solver|].
  split_and!; [|done| | |].
  - rewrite pgs_app, pgs_singleton.
    eapply (eff_extend _ _ _ _ (pgs ids') _ _ E); [|done|apply (comm_L (∪))..].
    intros r (i&->&?)%elem_of_pgs. apply Hlive, elem_of_app. auto.
  - eapply lseg_snoc; [by eapply lseg_frame| |done].
    split; [eapply eff_live; [exact E|by apply elem_of_singleton]|by rewrite Hbq].
  - destruct (Hu [id]) as [Hu2 _]; [set_solver|].
    destruct (Hu2 id) as [? Heq]; [constructor|]. split; [done|]. rewrite Heq. apply Hh.
  - destruct (eff_frame _ _ _ _ E (Pg id)) as (_&_&[_ Heq]); [apply Hh| |by rewrite Heq].
    intros [= ->]%elem_of_singleton. apply Hni, elem_of_app. right. constructor.
Qed.

Lemma built_frame s s' first prev ids w F' :
  built s first prev ids w → eff s s' ∅ F' → built s' first prev ids w.
Proof.
  intros Hb E. destruct (eff_unchanged _ _ _ _ ids E) as [Hu _].
  { intros. by eapply built_live. }
  { by intros ? ?%elem_of_empty. }
  destruct Hb as [Hnd [?|(ids'&w'&c'&Hf&->&->&Hs&Hp&Hc&Hdp)]]; [by split; auto|].
  split; [done|]. right. exists ids', w', c'. split_and!; try done.
  - eapply lseg_frame; [|done]. intros ??. apply Hu, elem_of_app. auto.
  - destruct (Hu prev) as [? Heq]; [apply elem_of_app; right; constructor|].
    split; [done|]. rewrite Heq. apply Hp.
  - destruct (eff_frame _ _ _ _ E (Pg prev)) as (_&_&[_ Heq]); [apply Hp| |by rewrite Heq].
    by intros ?%elem_of_empty.
Qed.

Lemma write_overflow_loop_spec fuel total head done r first prev ids w s :
  ok s → built s first prev ids w → done ≤ length head → reader_ok r →
  total = length w + length (pending head done r) →
  0 < length (pending head done r) ≤ fuel * OVERFLOW_CAP →
  wps (write_overflow_loop fuel total head done r first prev (length w))
    (λ f s', ∃ ids', chain s' f (ids ++ ids') (w ++ pending head done r) ∧
       NoDup (ids ++ ids') ∧ eff s s' (pgs ids) (pgs (ids ++ ids'))) s.
Proof.
  revert done r first prev ids w s.
  induction fuel as [|fuel IH]; intros done r first prev ids w s Hok Hb Hdone Hr Htot Hrest; [lia|].
  cbn [write_overflow_loop]. set (rest := pending head done r) in *.
  replace (total - length w) with (length rest) by lia.
  set (n := OVERFLOW_CAP `min` length rest) in *.
  apply wp_bind. eapply wp_mono; [by apply alloc_raw_law|]. intros id s1 [E1 Hd1].
  assert (Hl1 : live s1 (Pg id)) by (eapply eff_live; [exact E1|by apply elem_of_singleton]).
  assert (Hok1 : ok s1) by by eapply eff_ok.
  apply wp_bind, wp_page_mut; [done|done|done|].
  eapply wp_mono; [apply fill_overflow_page_spec; [lia|by apply length_law|done|done|fold rest; lia]|].
  intros [done' r'] q (Hh&Hdone'&Hr'&Hpend). fold rest in Hh, Hpend. split; [apply Hh|].
  intros s2 E2 Hb2 Hd2. assert (E02 : eff s s2 ∅ {[Pg id]}) by by eapply eff_trans.
  destruct (eff_unchanged _ _ _ _ ids E02) as [_ Hni].
  { intros. by eapply built_live. }
  { by intros ? ?%elem_of_empty. }
  assert (Hni' : id ∉ ids).
  { intros ?. eapply Hni; [by apply elem_of_singleton|by apply elem_of_Pg_pgs]. }
  apply wp_bind. eapply wp_mono.
  { eapply (link_spec s2 first prev ids w id (take n rest)); [by eapply eff_ok|by eapply built_frame| |done|done].
    split; [eapply eff_live; [exact E02|by apply elem_of_singleton]|by rewrite Hb2]. }
  intros f s3 (E3&Hf&Hseg&Hp3&Hd3).
  destruct (eff_seq _ _ _ _ _ _ _ E02 E3) as [E03 _].
  { intros r0 (i&->&?)%elem_of_pgs. by eapply built_live. }
  { by intros ? ?%elem_of_empty. }
  rewrite (left_id_L ∅ (∪)), (comm_L (∪)), <- pgs_singleton, <- pgs_app in E03.
  assert (Hnd : NoDup (ids ++ [id])).
  { apply NoDup_app. split_and!; [apply Hb| |apply NoDup_singleton].
    by intros ? ? ->%list_elem_of_singleton. }
  assert (Hln : length (take n rest) = n) by (rewrite length_take; lia).
  case_bool_decide as Hend.
  - apply wp_ret. exists [id]. split_and!; [|done|done].
    rewrite <- (take_ge rest n) by lia. exists ids, w, id, (take n rest).
    split_and!; try done. lia.
  - rewrite <- Hln, <- length_app. eapply wp_mono.
    { eapply IH; [by eapply eff_ok| |done|done| |].
      - split; [done|]. right. exists ids, w, (take n rest). split_and!; try done. lia.
      - rewrite length_app, Hpend, length_drop. lia.
      - rewrite Hpend, length_drop. lia. }
    intros f' s4 (ids'&Hc&Hnd'&E4). exists (id :: ids').
    rewrite <- (take_drop n rest), <- Hpend. rewrite <- !app_assoc in *. split_and!; [done|done|]. by eapply eff_trans.
Qed.

(** Writing a payload builds a fresh chain with exactly its bytes. *)
Lemma write_overflow_spec data s :
  ok s → is_plain data → 0 < payload_len data →
  wps (write_overflow data)
    (λ f s', ∃ ids, chain s' f ids (payload_bytes data) ∧ NoDup ids ∧ eff s s' ∅ (pgs ids)) s.
Proof.
  intros Hok Hp Hpos. pose proof (length_payload_bytes data Hp) as Hlen.
  unfold write_overflow. set (hr := match data with Stream _ _ => _ | _ => _ end).
  assert (reader_ok hr.2 ∧ pending hr.1 0 hr.2 = payload_bytes data) as [Hr Hpend].
  { subst hr. destruct data as [b|ps|h src|a b c|a b]; try done; unfold pending; cbn.
    - split; [unfold cursor_ok; cbn; lia|]. unfold cursor_rest; cbn. by rewrite app_nil_r.
    - split; [unfold cursor_ok; cbn; destruct ps; cbn; lia|]. unfold cursor_rest; cbn.
      by rewrite !drop_0. }
  destruct hr as [head r]. cbn [fst snd] in *. rewrite <- Hlen, <- Hpend.
  eapply wp_mono; [apply (write_overflow_loop_spec _ _ head 0 r 0 0 [] [])|].
  - done.
  - split; [constructor|auto].
  - lia.
  - done.
  - done.
  - rewrite Hpend, Hlen. split; [lia|]. pose proof (Nat.div_mod_eq (payload_len data) OVERFLOW_CAP).
    pose proof (Nat.mod_upper_bound (payload_len data) OVERFLOW_CAP ltac:(sizes)).
    set (q := payload_len data / OVERFLOW_CAP) in *. clearbody q. lia.
  - cbn. intros f s' (ids&?&?&?). eauto.
Qed.
End Chain.
