(* ===== verification/Lean.v ===== *)
(** Lean page images. The log leaves out the bytes of a page between its used
    prefix and its used suffix ([used_span]), and replay fills them with zeros.
    A page restored like this holds the same cells, and the same part of an
    overflow chain. *)

From S2P Require Import Prelude BtreeNode PageStore Btree Overflow.

Definition lean (p : bytes) : bytes :=
  let '(a, b) := used_span p in take a p ++ replicate (b - a) 0%Z ++ drop b p.

(** [q] is [p], or [p] without the bytes nobody reads. *)
Definition reads_as (p q : bytes) : Prop := q = p ∨ q = lean p.

#[global] Instance reads_as_refl : Reflexive reads_as.
Proof. by left. Qed.

Lemma used_span_le p : length p = PAGE_SIZE → ((used_span p).1 ≤ (used_span p).2 ≤ PAGE_SIZE).
Proof.
  intros Hl. unfold used_span. rewrite bool_decide_false by naive_solver. case_match eqn:E; cbn [fst snd].
  - apply andb_prop in E as [Hk Hc]. unfold check_node in Hc. rewrite Hk in Hc. case_bool_decide as Hn; [done|].
    split; [|destruct (decide (cell_start p ≤ PAGE_SIZE)) as [?|?]; [done|exfalso; apply Hn; right; left; lia]].
    destruct (decide (HDR + nkeys p * 2 ≤ cell_start p)) as [?|?]; [done|exfalso; apply Hn; right; right; lia].
  - clear E. case_bool_decide; cbn [fst snd]; lia.
Qed.

(** Outside the gap the bytes are the same. *)
Lemma lean_outside p : length p = PAGE_SIZE → let '(a, b) := used_span p in
  length (lean p) = PAGE_SIZE ∧ (∀ i, (i < a)%nat → lean p !! i = p !! i) ∧
  (∀ off len, off + len ≤ a → sub off len (lean p) = sub off len p) ∧
  (∀ off len, b ≤ off → sub off len (lean p) = sub off len p).
Proof.
  intros Hl. pose proof (used_span_le p Hl) as Hs. unfold lean. destruct (used_span p) as [a b]. cbn [fst snd] in Hs.
  assert (length (take a p) = a) as Ha by (rewrite length_take; lia).
  split_and!.
  - rewrite !length_app, length_replicate, length_drop, Ha. lia.
  - intros i Hi. rewrite lookup_app_l by lia. by apply lookup_take_lt.
  - intros off len Hle. unfold sub. rewrite drop_app_le by lia. rewrite take_app_le by (rewrite length_drop; lia).
    rewrite <- (take_drop a p) at 2. rewrite drop_app_le by lia. by rewrite take_app_le by (rewrite length_drop; lia).
  - intros off len Hle. unfold sub. f_equal. rewrite drop_app_ge by lia. rewrite drop_app_ge by (rewrite length_replicate; lia).
    rewrite drop_drop. f_equal. rewrite length_replicate. lia.
Qed.

Lemma lean_hdr p : length p = PAGE_SIZE → HDR ≤ (used_span p).1 → same_hdr p (lean p).
Proof.
  intros Hl Ha. pose proof (lean_outside p Hl) as H. destruct (used_span p) as [a b]. destruct H as (H1&H2&H3&_). cbn [fst snd] in Ha.
  unfold same_hdr, kind, nkeys, cell_start, extra. rewrite !H3 by (unfold HDR in *; lia). rewrite H2 by (unfold HDR in *; lia).
  split_and!; [congruence|done..].
Qed.

Lemma lean_node p k lm cells : k = KIND_LEAF ∨ k = KIND_BRANCH → node_rep p k lm cells → node_rep (lean p) k lm cells.
Proof.
  intros Hk Hr. pose proof (nr_len _ _ _ _ Hr) as Hl. pose proof (nr_kind _ _ _ _ Hr) as Hkd.
  assert (used_span p = (HDR + length cells * 2, cell_start p)) as Hs.
  { unfold used_span. rewrite bool_decide_false by naive_solver. rewrite Hkd, bool_decide_true by done.
    rewrite (check_node_ok p k lm cells Hr Hk). simpl. by rewrite (nr_nkeys _ _ _ _ Hr). }
  pose proof (lean_hdr p Hl) as Hh. rewrite Hs in Hh. destruct Hh as (Hh1&Hh2&Hh3&Hh4&Hh5); [cbn [fst]; lia|].
  pose proof (lean_outside p Hl) as Ho. rewrite Hs in Ho. destruct Ho as (_&_&O3&O4).
  assert (∀ i, i < length cells → slot (lean p) i = slot p i) as Hsl.
  { intros i Hi. unfold slot. pose proof (nr_room _ _ _ _ Hr). pose proof (nr_sum _ _ _ _ Hr).
    rewrite !slice_Ok by lia. rewrite O3 by lia. done. }
  destruct Hr as [N1 N2 N3 N4 N5 N6 N7 N8 N9]. split; rewrite ?Hh1, ?Hh2, ?Hh3, ?Hh4, ?Hh5; try done.
  - intros i c Hc. destruct (N7 i c Hc) as (off&E1&E2&E3&E4). exists off.
    rewrite Hsl by (by eapply lookup_lt_Some). rewrite O4 by done. done.
  - intros i j ci cj oi oj Hij Hi Hj. rewrite !Hsl by (by eapply lookup_lt_Some). by apply N9.
Qed.

Lemma lean_holds p chunk next : holds p chunk next → holds (lean p) chunk next.
Proof.
  intros [H1 H2 H3 H4 H5 H6].
  assert (used_span p = (HDR + length chunk, PAGE_SIZE)) as Hs.
  { unfold used_span. rewrite bool_decide_false by naive_solver. rewrite H2. simpl. rewrite H3, Nat2Z.id. f_equal. sizes. }
  pose proof (lean_outside p H1) as Ho. rewrite Hs in Ho. destruct Ho as (O1&O2&O3&_).
  split; [done|..]; unfold kind, extra in *; rewrite ?O2, ?O3 by (unfold HDR; lia); done.
Qed.

Lemma reads_as_node p q k lm cells : k = KIND_LEAF ∨ k = KIND_BRANCH → reads_as p q → node_rep p k lm cells → node_rep q k lm cells.
Proof. intros ? [->| ->]; [done|]. by apply lean_node. Qed.
Lemma reads_as_holds p q chunk next : reads_as p q → holds p chunk next → holds q chunk next.
Proof. intros [->| ->]; [done|]. apply lean_holds. Qed.
