(* ===== verification/KvMap.v ===== *)
(** The abstract value of a tree: its bindings in key order, as a sorted
    association list with lookup, insertion and deletion, and their
    agreement with finite-map operations. *)

From S2P Require Import Prelude BtreeNode.
From stdpp Require Import gmap.

Abbreviation kvs := (list (bytes * bytes)).

Fixpoint kv_get (k : bytes) (m : kvs) : option bytes :=
  match m with
  | [] => None
  | e :: m => if decide (e.1 = k) then Some e.2 else kv_get k m
  end.

Fixpoint kv_put (k v : bytes) (m : kvs) : kvs :=
  match m with
  | [] => [(k, v)]
  | e :: m' =>
      match lex_cmp k e.1 with
      | Lt => (k, v) :: e :: m'
      | Eq => (k, v) :: m'
      | Gt => e :: kv_put k v m'
      end
  end.

Definition kv_del (k : bytes) (m : kvs) : kvs := filter (λ e, e.1 ≠ k) m.

Definition kv_sorted (m : kvs) : Prop := StronglySorted key_lt m.*1.

(** Bounds of a subtree: [None] is minus infinity as a lower bound and plus
    infinity as an upper one. *)
Abbreviation bnd := (option bytes).

Definition above (lo : bnd) (k : bytes) : Prop :=
  match lo with Some l => key_le l k | None => True end.
Definition below (hi : bnd) (k : bytes) : Prop :=
  match hi with Some h => key_lt k h | None => True end.

(** The bindings of a nonempty subtree with bounds [lo] and [hi]. *)
Record good (lo hi : bnd) (m : kvs) : Prop := {
  g_ne : m ≠ [];
  g_sorted : kv_sorted m;
  g_lo : Forall (above lo) m.*1;
  g_hi : Forall (below hi) m.*1;
}.

Lemma StronglySorted_app_iff {A} (R : relation A) (l l' : list A) :
  StronglySorted R (l ++ l') ↔
  StronglySorted R l ∧ StronglySorted R l' ∧ (∀ x y, x ∈ l → y ∈ l' → R x y).
Proof.
  induction l as [|x l IH]; simpl.
  - split; [intros; split_and!; [constructor|done|by intros ?? ?%elem_of_nil]|naive_solver].
  - split.
    + intros [Hs Hf]%StronglySorted_inv. apply IH in Hs as (?&?&Hxy).
      apply Forall_app in Hf as [Hf1 Hf2]. split_and!; [by constructor|done|].
      intros a b [->|?]%elem_of_cons ?; [|auto]. by eapply Forall_forall in Hf2.
    + intros ([Hs Hf]%StronglySorted_inv&?&Hxy). constructor.
      * apply IH. split_and!; [done|done|]. intros; apply Hxy; [by constructor|done].
      * apply Forall_app. split; [done|]. apply Forall_forall. intros; apply Hxy; [constructor|done].
Qed.

Lemma kv_sorted_app (m m' : kvs) :
  kv_sorted (m ++ m') ↔
  kv_sorted m ∧ kv_sorted m' ∧ (∀ x y, x ∈ m.*1 → y ∈ m'.*1 → key_lt x y).
Proof. unfold kv_sorted. by rewrite fmap_app, StronglySorted_app_iff. Qed.

Lemma good_app lo k hi m m' :
  good lo (Some k) m → good (Some k) hi m' → good lo hi (m ++ m').
Proof.
  intros [Hn Hs Hl Hh] [Hn' Hs' Hl' Hh']. rewrite !Forall_forall in *.
  assert (∀ x y, x ∈ m.*1 → y ∈ m'.*1 → key_lt x y) as Hxy.
  { intros x y Hx Hy. apply Hh in Hx. apply Hl' in Hy. simpl in *. korder. }
  destruct m as [|[k0 v0] m]; [done|]. destruct m' as [|[k1 v1] m']; [done|].
  split; [done|by apply kv_sorted_app| |]; rewrite fmap_app; apply Forall_app;
    split; apply Forall_forall; auto.
  - intros y Hy. destruct lo as [l|]; [|done]. simpl.
    pose proof (Hl k0 ltac:(constructor)). pose proof (Hxy k0 y ltac:(constructor) Hy).
    simpl in *. korder.
  - intros x Hx. destruct hi as [h|]; [|done]. simpl.
    pose proof (Hh' k1 ltac:(constructor)). pose proof (Hxy x k1 Hx ltac:(constructor)).
    simpl in *. korder.
Qed.

(** The bounds of a nonempty subtree are in order. *)
Lemma good_bounds l h m : good (Some l) (Some h) m → key_lt l h.
Proof.
  intros [Hn _ Hl Hh]. destruct m as [|[k v] m]; [done|].
  inversion Hl; subst. inversion Hh; subst. simpl in *. korder.
Qed.

Lemma good_weaken_lo lo lo' hi m :
  good lo hi m → (∀ k, above lo k → above lo' k) → good lo' hi m.
Proof. intros [Hn Hs Hl Hh] H. split; try done. by eapply Forall_impl; [exact Hl|]. Qed.

Lemma good_weaken_hi lo hi hi' m :
  good lo hi m → (∀ k, below hi k → below hi' k) → good lo hi' m.
Proof. intros [Hn Hs Hl Hh] H. split; try done. by eapply Forall_impl; [exact Hh|]. Qed.

(** * Local updates *)

Lemma kv_put_app_r k v m m' :
  (∀ x, x ∈ m.*1 → key_lt x k) → kv_put k v (m ++ m') = m ++ kv_put k v m'.
Proof.
  induction m as [|[k' v'] m IH]; intros H; [done|]. simpl.
  pose proof (H k' ltac:(constructor)). destruct (lex_cmp_spec k k'); [korder|korder|].
  rewrite IH; [done|]. intros; apply H. by constructor.
Qed.

Lemma kv_put_app_l k v m m' :
  (∀ x, x ∈ m'.*1 → key_lt k x) → kv_put k v (m ++ m') = kv_put k v m ++ m'.
Proof.
  intros H. induction m as [|[k' v'] m IH]; simpl.
  - destruct m' as [|[k' v'] m']; [done|]. simpl.
    pose proof (H k' ltac:(constructor)). destruct (lex_cmp_spec k k'); [korder|done|korder].
  - destruct (lex_cmp k k'); [done|done|]. by rewrite IH.
Qed.

Lemma kv_put_middle k v m1 m2 m3 :
  (∀ x, x ∈ m1.*1 → key_lt x k) → (∀ x, x ∈ m3.*1 → key_lt k x) →
  kv_put k v (m1 ++ m2 ++ m3) = m1 ++ kv_put k v m2 ++ m3.
Proof. intros. by rewrite kv_put_app_r, kv_put_app_l. Qed.

Lemma kv_del_absent k m : k ∉ m.*1 → kv_del k m = m.
Proof.
  unfold kv_del. induction m as [|[k' v] m IH]; [done|]. simpl. rewrite not_elem_of_cons.
  intros [??]. by rewrite filter_cons_True, IH by (done || (simpl; congruence)).
Qed.

Lemma kv_del_middle k m1 m2 m3 : k ∉ m1.*1 → k ∉ m3.*1 →
  kv_del k (m1 ++ m2 ++ m3) = m1 ++ kv_del k m2 ++ m3.
Proof.
  intros. unfold kv_del. rewrite !filter_app. f_equal; [by apply kv_del_absent|].
  f_equal. by apply kv_del_absent.
Qed.

Lemma kv_get_None k m : kv_get k m = None ↔ k ∉ m.*1.
Proof.
  induction m as [|[k' v'] m IH]; simpl; [split; [intros _; apply not_elem_of_nil|done]|].
  rewrite not_elem_of_cons. case_decide; [|rewrite IH]; intuition congruence.
Qed.

Lemma kv_get_app_r k m1 m2 : k ∉ m1.*1 → kv_get k (m1 ++ m2) = kv_get k m2.
Proof.
  induction m1 as [|[k' v'] m IH]; [done|]. simpl. rewrite not_elem_of_cons. intros [??].
  rewrite decide_False by congruence. auto.
Qed.

Lemma kv_get_app_l k m1 m2 : k ∉ m2.*1 → kv_get k (m1 ++ m2) = kv_get k m1.
Proof.
  intros H2. induction m1 as [|[k' v'] m IH]; simpl; [by apply kv_get_None|]. by rewrite IH.
Qed.

Lemma kv_get_middle k m1 m2 m3 : k ∉ m1.*1 → k ∉ m3.*1 →
  kv_get k (m1 ++ m2 ++ m3) = kv_get k m2.
Proof. intros. by rewrite kv_get_app_r, kv_get_app_l. Qed.

(** * Agreement with finite maps *)

Definition to_map (m : kvs) : gmap bytes bytes := list_to_map m.

Lemma kv_sorted_NoDup m : kv_sorted m → NoDup m.*1.
Proof.
  unfold kv_sorted. induction 1 as [|x l Hs IH Hf]; constructor; [|done].
  intros Hx. rewrite Forall_forall in Hf. specialize (Hf x Hx). korder.
Qed.

Lemma to_map_get m k : to_map m !! k = kv_get k m.
Proof.
  unfold to_map. induction m as [|[k' v] m IH]; simpl; [done|].
  case_decide; [subst; by rewrite lookup_insert_eq|]. by rewrite lookup_insert_ne.
Qed.

Lemma to_map_empty_inv m : to_map m = ∅ → m = [].
Proof.
  destruct m as [|[k v] m]; [done|]. intros Hm. apply (f_equal (lookup k)) in Hm.
  by rewrite to_map_get, lookup_empty in Hm; simpl in Hm; rewrite decide_True in Hm.
Qed.

Lemma kv_get_put k v m k' :
  kv_sorted m → kv_get k' (kv_put k v m) = if decide (k = k') then Some v else kv_get k' m.
Proof.
  unfold kv_sorted. induction m as [|[k0 v0] m IH]; intros Hs; simpl; [done|].
  apply StronglySorted_inv in Hs as [Hs Hf]. destruct (lex_cmp_spec k k0); simpl.
  - subst. by repeat case_decide.
  - done.
  - rewrite IH by done. repeat case_decide; subst; try done. korder.
Qed.

Lemma kv_get_del k m k' :
  kv_get k' (kv_del k m) = if decide (k = k') then None else kv_get k' m.
Proof.
  unfold kv_del. induction m as [|[k0 v0] m IH]; simpl; [by case_decide|].
  rewrite filter_cons. simpl. repeat case_decide; simpl; repeat case_decide; try congruence.
Qed.

Lemma to_map_put k v m : kv_sorted m → to_map (kv_put k v m) = <[k := v]> (to_map m).
Proof.
  intros Hs. apply map_eq. intros k'. rewrite to_map_get, kv_get_put by done.
  case_decide; [subst; by rewrite lookup_insert_eq|]. by rewrite lookup_insert_ne, to_map_get.
Qed.

Lemma to_map_del k m : to_map (kv_del k m) = delete k (to_map m).
Proof.
  apply map_eq. intros k'. rewrite to_map_get, kv_get_del.
  case_decide; [subst; by rewrite lookup_delete_eq|]. by rewrite lookup_delete_ne, to_map_get.
Qed.

(** * Preservation of order and bounds *)

Lemma elem_of_kv_put k v m x : x ∈ (kv_put k v m).*1 → x = k ∨ x ∈ m.*1.
Proof.
  induction m as [|[k0 v0] m IH]; simpl; [by intros ->%list_elem_of_singleton; left|].
  destruct (lex_cmp_spec k k0) as [->| |]; simpl; rewrite !elem_of_cons; intuition.
Qed.

Lemma kv_put_sorted k v m : kv_sorted m → kv_sorted (kv_put k v m).
Proof.
  unfold kv_sorted. induction m as [|[k0 v0] m IH]; intros Hs; simpl.
  { repeat constructor. }
  apply StronglySorted_inv in Hs as [Hs Hf].
  destruct (lex_cmp_spec k k0) as [->|Hlt|Hgt]; simpl; constructor; auto.
  - by constructor.
  - constructor; [done|]. eapply Forall_impl; [exact Hf|]. intros x ?. simpl in *. korder.
  - apply Forall_forall. intros x [->|Hx]%elem_of_kv_put; [done|].
    by eapply Forall_forall in Hf.
Qed.

Lemma kv_put_good lo hi k v m :
  good lo hi m → above lo k → below hi k → good lo hi (kv_put k v m).
Proof.
  intros [Hn Hs Hl Hh] Ha Hb. split.
  - destruct m as [|e m]; [done|]. simpl. by destruct (lex_cmp k e.1).
  - by apply kv_put_sorted.
  - apply Forall_forall. intros x [->|?]%elem_of_kv_put; [done|]. by eapply Forall_forall in Hl.
  - apply Forall_forall. intros x [->|?]%elem_of_kv_put; [done|]. by eapply Forall_forall in Hh.
Qed.

Lemma kv_del_sublist k m : kv_del k m `sublist_of` m.
Proof. apply sublist_filter. Qed.

Lemma kv_del_sorted k m : kv_sorted m → kv_sorted (kv_del k m).
Proof.
  unfold kv_sorted, kv_del. induction m as [|[k0 v0] m IH]; simpl; [done|].
  intros [Hs Hf]%StronglySorted_inv. rewrite filter_cons. case_decide; simpl; [|auto].
  constructor; [auto|]. apply Forall_forall. intros x (e&->&He)%list_elem_of_fmap.
  rewrite Forall_forall in Hf. apply Hf. apply list_elem_of_filter in He as [_ He].
  apply list_elem_of_fmap. eauto.
Qed.

(** Overwriting and inserting by position. *)
Lemma kv_put_at m i k v :
  kv_sorted m → found_spec m.*1 k (NotFound i) → kv_put k v m = insert_at i (k, v) m.
Proof.
  intros Hs (Hi&Hlt&Hgt). unfold insert_at. rewrite <- (take_drop i m) at 1.
  rewrite kv_put_app_r.
  - f_equal. rewrite <- (app_nil_l (drop i m)) at 1. rewrite kv_put_app_l; [done|].
    intros x (j&Hj)%list_elem_of_lookup. rewrite list_lookup_fmap, lookup_drop in Hj.
    eapply (Hgt (i + j)); [lia|]. by rewrite list_lookup_fmap.
  - intros x (j&Hj)%list_elem_of_lookup. rewrite list_lookup_fmap in Hj.
    assert (j < i) as Hji.
    { destruct (take i m !! j) eqn:E; [|done]. apply lookup_lt_Some in E.
      rewrite length_take in E. lia. }
    rewrite lookup_take_lt in Hj by done. eapply (Hlt j); [done|]. by rewrite list_lookup_fmap.
Qed.

Lemma kv_found m i k v : kv_sorted m → m !! i = Some (k, v) →
  kv_get k m = Some v ∧ kv_del k m = delete i m ∧
  (∀ w, kv_put k w m = insert_at i (k, w) (delete i m)).
Proof.
  intros Hs Hi. rewrite <- (take_drop_middle m i (k, v) Hi) in Hs.
  apply kv_sorted_app in Hs as (Hs1&Hs2&Hx).
  change ((k, v) :: drop (S i) m) with ([(k, v)] ++ drop (S i) m) in Hs2.
  apply kv_sorted_app in Hs2 as (_&Hs2&Hy).
  assert (∀ x, x ∈ (take i m).*1 → key_lt x k) as H1.
  { intros x ?. apply Hx; [done|constructor]. }
  assert (∀ x, x ∈ (drop (S i) m).*1 → key_lt k x) as H2.
  { intros x ?. apply Hy; [constructor|done]. }
  assert (k ∉ (take i m).*1) as Hn1 by (intros ?%H1; korder).
  assert (k ∉ (drop (S i) m).*1) as Hn2 by (intros ?%H2; korder).
  assert (length (take i m) = i) as Hl.
  { rewrite length_take. apply lookup_lt_Some in Hi. lia. }
  assert (m = take i m ++ [(k, v)] ++ drop (S i) m) as Hm by by rewrite <- (take_drop_middle m i (k, v) Hi) at 1.
  rewrite delete_take_drop. split_and!.
  - rewrite Hm, kv_get_middle by done. simpl. by rewrite decide_True.
  - rewrite Hm at 1. rewrite kv_del_middle by done. unfold kv_del.
    by rewrite filter_cons_False by (simpl; tauto).
  - intros w. rewrite Hm at 1. rewrite kv_put_middle by done. simpl. rewrite lex_cmp_refl.
    unfold insert_at. rewrite take_app_length', drop_app_length' by done. done.
Qed.

(** A run of bindings cut before its [n]th key. *)
Lemma good_split lo hi m n k v :
  good lo hi m → 0 < n → m !! n = Some (k, v) →
  good lo (Some k) (take n m) ∧ good (Some k) hi (drop n m).
Proof.
  intros [Hn Hs Hl Hh] Hpos Hk. pose proof (lookup_lt_Some _ _ _ Hk) as Hlt.
  rewrite <- (take_drop n m) in Hs, Hl, Hh. rewrite fmap_app in Hl, Hh.
  apply Forall_app in Hl as [Hl1 Hl2], Hh as [Hh1 Hh2].
  apply kv_sorted_app in Hs as (Hs1&Hs2&Hx). pose proof Hs2 as Hs3.
  rewrite (drop_S _ _ _ Hk) in *. split; split; try done.
  - intros Ht. apply (f_equal length) in Ht. rewrite length_take in Ht. simpl in Ht. lia.
  - apply Forall_forall. intros x ?. apply Hx; [done|constructor].
  - unfold kv_sorted in Hs3. simpl in *. apply StronglySorted_inv in Hs3 as [_ Hf].
    constructor; [simpl; korder|]. eapply Forall_impl; [exact Hf|]. intros x ?. simpl in *. korder.
Qed.
