(* ===== verification/BtreeRep.v ===== *)
(** When the pages of a store form a B+tree with given bindings.

    [tree h lo hi id F m]: the subtree of height [h] rooted at page [id] owns
    exactly the resources [F] and holds exactly the bindings [m], all between
    the bounds [lo] and [hi]. Footprints of siblings are disjoint, so no page
    is shared and no reachable page is free. *)

From S2P Require Import Prelude BtreeNode PageStore Btree Overflow KvMap.

Section Rep.
Context {St : Type} `{!PageStore St, !StoreView St, !StoreLaws St}.
Context (content_hash : bytes → Z).
Implicit Types (s : St) (F : rset) (m : kvs) (lo hi : bnd).

(** * Values *)

(** The leaf value [lv] denotes the bytes [x] and owns [F]. *)
Definition val_rep s (lv : LeafVal) (x : bytes) F : Prop :=
  match lv with
  | Inline b => x = b ∧ F = ∅
  | Overflow total first =>
      ∃ ids, chain s first ids x ∧ NoDup ids ∧ total = Z.of_nat (length x) ∧ F = pgs ids
  | Extent start total npages =>
      live s (Ex start) ∧ ps_read_extent start total s = Ok x ∧
      Z.of_nat (length x) = total ∧ F = {[Ex start]}
  | External hash total =>
      ps_read_external hash total s = Ok x ∧ Z.of_nat (length x) = total ∧
      content_hash x = hash ∧ F = ∅
  end.

Inductive vals s : list (bytes * LeafVal) → rset → kvs → Prop :=
| vals_nil : vals s [] ∅ []
| vals_cons k lv x es F1 F2 m :
    val_rep s lv x F1 → F1 ## F2 → vals s es F2 m →
    vals s ((k, lv) :: es) (F1 ∪ F2) ((k, x) :: m).

(** * Nodes *)

(** The page [id] is a leaf with entries [es], which own [F0]. *)
Record lnode s (id : Z) (es : list (bytes * LeafVal)) F0 m : Prop := {
  ln_live : live s (Pg id);
  ln_page : node_rep (bytes_at s id) KIND_LEAF 0 (map enc_leaf es);
  ln_wf : Forall wf_leaf es;
  ln_vals : vals s es F0 m;
  ln_fresh : Pg id ∉ F0;
}.

Definition leaf s lo hi (id : Z) F m : Prop :=
  ∃ es F0, lnode s id es F0 m ∧ F = {[Pg id]} ∪ F0 ∧ good lo hi m.

(** The children of a branch, each with its lower bound. *)
Definition children lo (lm : Z) (seps : list (bytes * Z)) : list (bnd * Z) :=
  (lo, lm) :: map (λ e, (Some e.1, e.2)) seps.

(** Adjacent subtrees covering [a] to [e]. *)
Inductive seg (P : bnd → bnd → Z → rset → kvs → Prop)
  : bnd → bnd → list (bnd * Z) → rset → kvs → Prop :=
| seg_nil a : seg P a a [] ∅ []
| seg_cons a b e c cs F1 F2 m1 m2 :
    P a b c F1 m1 → F1 ## F2 → seg P b e cs F2 m2 →
    seg P a e ((a, c) :: cs) (F1 ∪ F2) (m1 ++ m2).

(** The page [id] is a branch with leftmost child [lm] and cells [seps]. *)
Record bnode s (id lm : Z) (seps : list (bytes * Z)) : Prop := {
  bn_live : live s (Pg id);
  bn_page : node_rep (bytes_at s id) KIND_BRANCH lm (map enc_branch seps);
  bn_wf : Forall wf_branch seps;
  bn_lm : is_uint 64 lm;
}.

Definition branch (P : bnd → bnd → Z → rset → kvs → Prop) s lo hi (id : Z) F m : Prop :=
  ∃ lm seps F0, bnode s id lm seps ∧ seg P lo hi (children lo lm seps) F0 m ∧
    (Pg id ∉ F0) ∧ F = {[Pg id]} ∪ F0.

Fixpoint tree s (h : nat) lo hi (id : Z) F m : Prop :=
  match h with
  | O => leaf s lo hi id F m
  | S h => branch (tree s h) s lo hi id F m
  end.

(** A tree under a root pointer; 0 is the empty tree. *)
Definition tree_rep s (h : nat) (root : Z) F m : Prop :=
  root = 0%Z ∧ m = [] ∧ F = ∅ ∨ root ≠ 0%Z ∧ tree s h None None root F m.

(** * Footprints are live, and nothing else matters *)

Definition same_on s s' F : Prop :=
  (∀ r, r ∈ F → live s' r ∧ same_rsrc s s' r) ∧
  (∀ h t, ps_read_external h t s' = ps_read_external h t s).

(** A weaker relation, enough for what a tree reads: it does not say which
    pages are dirty. *)
Definition alike s s' F : Prop :=
  (∀ r, r ∈ F → live s' r ∧
     match r with
     | inl id => bytes_at s' id = bytes_at s id
     | inr e => ∀ total, ps_read_extent e total s' = ps_read_extent e total s
     end) ∧
  (∀ h t, ps_read_external h t s' = ps_read_external h t s).

Lemma same_on_alike s s' F : same_on s s' F → alike s s' F.
Proof.
  intros [H1 H2]. split; [|done]. intros [id|e] Hr; destruct (H1 _ Hr) as [? Hs]; [|done].
  destruct Hs. done.
Qed.

Lemma alike_subseteq s s' F F' : alike s s' F → F' ⊆ F → alike s s' F'.
Proof. intros [H1 H2] Hs. split; [|done]. intros r Hr. by apply H1, Hs. Qed.

Lemma same_on_subseteq s s' F F' : same_on s s' F → F' ⊆ F → same_on s s' F'.
Proof. intros [H1 H2] Hs. split; [|done]. intros r Hr. by apply H1, Hs. Qed.

Lemma eff_same_on s s' F F' G :
  eff s s' F F' → (∀ r, r ∈ G → live s r) → F ## G → same_on s s' G ∧ F' ## G.
Proof.
  intros E Hl Hd. destruct (eff_framed _ _ _ _ _ E Hl Hd). split; [|done].
  split; [done|]. by eapply eff_ext.
Qed.

(** Owning [G ∪ R], step on [G]: [R] is still there, unchanged. *)
Lemma own_step s0 s s' X O G G' R :
  eff s0 s X O → eff s s' G G' → O = G ∪ R → G ## R →
  eff s0 s' X (G' ∪ R) ∧ G' ## R ∧ same_on s s' R.
Proof.
  intros E0 E HO Hd. destruct (eff_step _ _ _ _ _ _ _ _ E0 E HO Hd) as (?&?&?).
  split_and!; [done|done|]. split; [done|]. by eapply eff_ext.
Qed.

Lemma same_on_trans s1 s2 s3 F : same_on s1 s2 F → same_on s2 s3 F → same_on s1 s3 F.
Proof.
  intros [H1 X1] [H2 X2]. split; [|intros; by rewrite X2, X1]. intros r Hr.
  destruct (H1 r Hr), (H2 r Hr). split; [done|]. by eapply same_rsrc_trans.
Qed.

Lemma val_live s lv x F r : val_rep s lv x F → r ∈ F → live s r.
Proof.
  destruct lv; simpl.
  - by intros [_ ->] ?%elem_of_empty.
  - intros (ids&Hc&_&_&->) (id&->&?)%elem_of_pgs. by eapply chain_live.
  - by intros (?&_&_&->) ->%elem_of_singleton.
  - by intros (_&_&_&->) ?%elem_of_empty.
Qed.

Lemma val_alike s s' lv x F : val_rep s lv x F → alike s s' F → val_rep s' lv x F.
Proof.
  intros Hv [Hs Hx]. destruct lv; simpl in *.
  - done.
  - destruct Hv as (ids&Hc&?&?&->). exists ids. split_and!; try done.
    eapply chain_frame; [|done]. intros id Hid. destruct (Hs (Pg id)) as [? ?]; [|done].
    by apply elem_of_Pg_pgs.
  - destruct Hv as (?&?&?&->). destruct (Hs (Ex start_page)) as [? Hr]; [by apply elem_of_singleton|].
    simpl in Hr. by rewrite Hr.
  - by rewrite Hx.
Qed.

Lemma vals_live s es F m r : vals s es F m → r ∈ F → live s r.
Proof.
  induction 1; [by intros ?%elem_of_empty|]. intros [?|?]%elem_of_union; [|auto].
  by eapply val_live.
Qed.

Lemma vals_alike s s' es F m : vals s es F m → alike s s' F → vals s' es F m.
Proof.
  induction 1 as [|k lv x es F1 F2 m Hv Hd _ IH]; intros Hs; constructor; try done.
  - eapply val_alike; [done|]. eapply alike_subseteq; [done|]. apply union_subseteq_l.
  - apply IH. eapply alike_subseteq; [done|]. apply union_subseteq_r.
Qed.

Lemma lnode_alike s s' id es F0 m :
  lnode s id es F0 m → alike s s' ({[Pg id]} ∪ F0) → lnode s' id es F0 m.
Proof.
  intros [Hl Hr Hw Hv Hn] Hs.
  destruct (proj1 Hs (Pg id)) as [? Hb]; [by apply elem_of_union_l, elem_of_singleton|].
  split; try done; [by rewrite Hb|]. eapply vals_alike; [done|].
  eapply alike_subseteq; [done|]. apply union_subseteq_r.
Qed.

Lemma bnode_alike s s' id lm seps :
  bnode s id lm seps → alike s s' {[Pg id]} → bnode s' id lm seps.
Proof.
  intros [Hl Hr Hw] Hs. destruct (proj1 Hs (Pg id)) as [? Hb]; [by apply elem_of_singleton|].
  split; try done. by rewrite Hb.
Qed.

Lemma seg_mono (P Q : bnd → bnd → Z → rset → kvs → Prop) a e cs F m :
  (∀ a b c F' m', F' ⊆ F → P a b c F' m' → Q a b c F' m') →
  seg P a e cs F m → seg Q a e cs F m.
Proof.
  intros HPQ Hs. induction Hs as [|a b e c cs F1 F2 m1 m2 HP Hd _ IH]; [constructor|].
  econstructor; [|done|].
  - apply HPQ; [apply union_subseteq_l|done].
  - apply IH. intros. apply HPQ; [|done]. etrans; [done|]. apply union_subseteq_r.
Qed.

Lemma seg_elim (P : bnd → bnd → Z → rset → kvs → Prop) (R : rsrc → Prop) a e cs F m r :
  (∀ a b c F' m', P a b c F' m' → r ∈ F' → R r) → seg P a e cs F m → r ∈ F → R r.
Proof.
  intros HP. induction 1; [by intros ?%elem_of_empty|].
  intros [?|?]%elem_of_union; [by eapply HP|auto].
Qed.

Lemma tree_live s h lo hi id F m r : tree s h lo hi id F m → r ∈ F → live s r.
Proof.
  revert lo hi id F m. induction h as [|h IH]; intros lo hi id F m; simpl.
  - intros (es&F0&Hn&->&_) [->%elem_of_singleton|?]%elem_of_union; [apply Hn|].
    eapply vals_live; [apply Hn|done].
  - intros (lm&seps&F0&Hn&Hs&_&->) [->%elem_of_singleton|?]%elem_of_union; [apply Hn|].
    eapply (seg_elim _ (live s)); [|done|done]. intros. by eapply IH.
Qed.

Lemma tree_alike s s' h lo hi id F m :
  tree s h lo hi id F m → alike s s' F → tree s' h lo hi id F m.
Proof.
  revert lo hi id F m. induction h as [|h IH]; intros lo hi id F m; simpl.
  - intros (es&F0&Hn&->&Hg) Hs. exists es, F0. split_and!; try done. by eapply lnode_alike.
  - intros (lm&seps&F0&Hn&Hv&?&->) Hs. exists lm, seps, F0. split_and!; try done.
    { eapply bnode_alike; [done|]. eapply alike_subseteq; [done|]. apply union_subseteq_l. }
    eapply seg_mono; [|done].
    intros a b c F' m' Hsub Ht. apply IH; [done|]. eapply alike_subseteq; [done|].
    etrans; [done|]. apply union_subseteq_r.
Qed.

Lemma val_frame s s' lv x F : val_rep s lv x F → same_on s s' F → val_rep s' lv x F.
Proof. intros ? ?%same_on_alike. by eapply val_alike. Qed.

Lemma vals_frame s s' es F m : vals s es F m → same_on s s' F → vals s' es F m.
Proof. intros ? ?%same_on_alike. by eapply vals_alike. Qed.

Lemma lnode_frame s s' id es F0 m :
  lnode s id es F0 m → same_on s s' ({[Pg id]} ∪ F0) → lnode s' id es F0 m.
Proof. intros ? ?%same_on_alike. by eapply lnode_alike. Qed.

Lemma bnode_frame s s' id lm seps :
  bnode s id lm seps → same_on s s' {[Pg id]} → bnode s' id lm seps.
Proof. intros ? ?%same_on_alike. by eapply bnode_alike. Qed.

Lemma tree_frame s s' h lo hi id F m :
  tree s h lo hi id F m → same_on s s' F → tree s' h lo hi id F m.
Proof. intros ? ?%same_on_alike. by eapply tree_alike. Qed.

Lemma seg_frame s s' h a e cs F m :
  seg (tree s h) a e cs F m → same_on s s' F → seg (tree s' h) a e cs F m.
Proof.
  intros Hs Ho. eapply seg_mono; [|done]. intros ? ? ? F' ? Hsub Ht.
  eapply tree_frame; [done|]. by eapply same_on_subseteq.
Qed.

Lemma seg_live s h a e cs F m r : seg (tree s h) a e cs F m → r ∈ F → live s r.
Proof.
  intros Hs Hr. eapply (seg_elim _ (live s)); [|done|done]. intros. by eapply tree_live.
Qed.

Lemma tree_root_live s h lo hi id F m : tree s h lo hi id F m → live s (Pg id) ∧ Pg id ∈ F.
Proof.
  destruct h.
  - intros (es&F0&[]&->&_). split; [done|]. by apply elem_of_union_l, elem_of_singleton.
  - intros (lm&seps&F0&[]&_&_&->). split; [done|]. by apply elem_of_union_l, elem_of_singleton.
Qed.

Lemma tree_root_id s h lo hi id F m : ok s → tree s h lo hi id F m → id ≠ 0%Z ∧ is_uint 64 id.
Proof.
  intros Hok [Hl _]%tree_root_live. pose proof (id_law s id Hok Hl). unfold is_uint. lia.
Qed.

(** A step elsewhere leaves a tree alone. *)
Lemma tree_eff s s' h lo hi id F m G G' :
  tree s h lo hi id F m → eff s s' G G' → G ## F → tree s' h lo hi id F m ∧ G' ## F.
Proof.
  intros Ht E Hd. destruct (eff_same_on _ _ _ _ F E) as [Hs ?]; [|done|].
  { intros. by eapply tree_live. }
  split; [by eapply tree_frame|done].
Qed.

(** * Splitting and joining runs of children *)

Lemma seg_app_intro P a b e cs1 cs2 F1 F2 m1 m2 F m :
  seg P a b cs1 F1 m1 → seg P b e cs2 F2 m2 → F1 ## F2 → F = F1 ∪ F2 → m = m1 ++ m2 →
  seg P a e (cs1 ++ cs2) F m.
Proof.
  intros H1 H2. revert F m. induction H1 as [|a b e' c cs F1 F1' m1 m1' HP Hd _ IH]; intros F m Hdj -> ->.
  - by rewrite (left_id_L ∅ (∪)).
  - rewrite <- (assoc_L (∪)), <- app_assoc. simpl. apply disjoint_union_l in Hdj as [??].
    econstructor; [done| |by apply IH]. apply disjoint_union_r. done.
Qed.

Lemma seg_app_inv P a e cs1 cs2 F m :
  seg P a e (cs1 ++ cs2) F m →
  ∃ b F1 F2 m1 m2, seg P a b cs1 F1 m1 ∧ seg P b e cs2 F2 m2 ∧ F1 ## F2 ∧
    F = F1 ∪ F2 ∧ m = m1 ++ m2.
Proof.
  revert a F m. induction cs1 as [|[a' c] cs1 IH]; intros a F m; simpl.
  - intros H. exists a, ∅, F, [], m. split_and!; [constructor|done|apply disjoint_empty_l| |done].
    by rewrite (left_id_L ∅ (∪)).
  - intros H. inversion H as [|? b ? ? ? F1 F2 m1 m2 HP Hd Hs]; subst.
    destruct (IH _ _ _ Hs) as (b'&G1&G2&n1&n2&?&?&?&->&->).
    apply disjoint_union_r in Hd as [??]. exists b', (F1 ∪ G1), G2, (m1 ++ n1), n2.
    rewrite (assoc_L (∪)), app_assoc. split_and!; [by econstructor|done| |done|done].
    apply disjoint_union_l. done.
Qed.

Lemma seg_one P a b c F m : P a b c F m → seg P a b [(a, c)] F m.
Proof.
  intros H. rewrite <- (right_id_L ∅ (∪) F), <- (app_nil_r m).
  econstructor; [done|apply disjoint_empty_r|constructor].
Qed.

Lemma seg_cons_inv P a e a' c cs F m :
  seg P a e ((a', c) :: cs) F m →
  ∃ b F1 F2 m1 m2, a' = a ∧ P a b c F1 m1 ∧ seg P b e cs F2 m2 ∧ F1 ## F2 ∧
    F = F1 ∪ F2 ∧ m = m1 ++ m2.
Proof.
  intros H. inversion H as [|? b ? ? ? F1 F2 m1 m2 HP Hd Hs]; subst.
  exists b, F1, F2, m1, m2. done.
Qed.

(** The lower bound a run starts with, and its upper bound when it is empty. *)
Lemma seg_start P a e cs F m :
  seg P a e cs F m → (cs = [] ∧ a = e ∧ F = ∅ ∧ m = []) ∨ fst <$> head cs = Some a.
Proof. intros []; [by left|by right]. Qed.

(** ** Bounds of a run *)

Lemma seg_good (P : bnd → bnd → Z → rset → kvs → Prop) a e cs F m :
  (∀ a b c F m, P a b c F m → good a b m) →
  seg P a e cs F m → Forall (λ x, is_Some x.1) (tail cs) → cs ≠ [] → good a e m.
Proof.
  intros HP. induction 1 as [|a b e c cs F1 F2 m1 m2 H _ Hs IH]; [done|]. intros Hf _. simpl in Hf.
  destruct (seg_start _ _ _ _ _ _ Hs) as [(->&->&->&->)|Hst].
  { rewrite app_nil_r. by eapply HP. }
  destruct cs as [|[b' c'] cs]; [done|]. simplify_eq/=.
  inversion Hf as [|? ? [k Hk] Hf']; subst. simpl in Hk. subst. eapply good_app; [by eapply HP|].
  apply IH; [done|done].
Qed.

Lemma children_tail lo lm seps : Forall (λ x, is_Some x.1) (tail (children lo lm seps)).
Proof. simpl. apply Forall_map, Forall_forall. intros. simpl. eauto. Qed.

Lemma tree_good s h lo hi id F m : tree s h lo hi id F m → good lo hi m.
Proof.
  revert lo hi id F m. induction h as [|h IH]; intros lo hi id F m; simpl.
  - by intros (es&F0&_&_&Hg).
  - intros (lm&seps&F0&_&Hs&_&_). eapply seg_good; [exact IH|done|apply children_tail|done].
Qed.

(** Bounds may be relaxed. *)

Lemma seg_weaken_hi (P : bnd → bnd → Z → rset → kvs → Prop) a e e' cs F m :
  (∀ a c F m, P a e c F m → P a e' c F m) →
  seg P a e cs F m → cs ≠ [] → seg P a e' cs F m.
Proof.
  intros HP. induction 1 as [|a b e c cs F1 F2 m1 m2 H ? Hs IH]; [done|]. intros _.
  destruct cs as [|x cs].
  - inversion Hs; subst. rewrite (right_id_L ∅ (∪)), app_nil_r. apply seg_one. auto.
  - econstructor; [done|done|]. by apply IH.
Qed.

Lemma seg_weaken_lo (P : bnd → bnd → Z → rset → kvs → Prop) a a' e c cs F m :
  (∀ b F m, P a b c F m → P a' b c F m) →
  seg P a e ((a, c) :: cs) F m → seg P a' e ((a', c) :: cs) F m.
Proof.
  intros HP (b&F1&F2&m1&m2&_&H&?&?&->&->)%seg_cons_inv. econstructor; eauto.
Qed.

Lemma tree_weaken s h lo lo' hi hi' id F m :
  tree s h lo hi id F m → (∀ k, above lo k → above lo' k) → (∀ k, below hi k → below hi' k) →
  tree s h lo' hi' id F m.
Proof.
  revert lo lo' hi hi' id F m. induction h as [|h IH]; intros lo lo' hi hi' id F m; simpl.
  - intros (es&F0&?&?&Hg) ??. exists es, F0. split_and!; try done.
    eapply good_weaken_lo; [|done]. by eapply good_weaken_hi.
  - intros (lm&seps&F0&?&Hs&?&?) Hlo Hhi. exists lm, seps, F0. split_and!; try done.
    eapply seg_weaken_hi; [| |done].
    { intros ???? Ht. eapply IH; [exact Ht|done|exact Hhi]. }
    unfold children in *. eapply seg_weaken_lo; [|done].
    intros ??? Ht. eapply IH; [exact Ht|exact Hlo|done].
Qed.

(** * The child a key descends into *)

Lemma children_cons lo lm k c seps :
  children lo lm ((k, c) :: seps) = (lo, lm) :: children (Some k) c seps.
Proof. done. Qed.

Lemma length_children lo lm seps : length (children lo lm seps) = S (length seps).
Proof. unfold children. simpl. by rewrite length_map. Qed.

Lemma children_lookup_0 lo lm seps : children lo lm seps !! 0 = Some (lo, lm).
Proof. done. Qed.

Lemma children_lookup_S lo lm seps i :
  children lo lm seps !! S i = (λ e, (Some e.1, e.2)) <$> seps !! i.
Proof. unfold children. simpl. apply list_lookup_fmap. Qed.

Lemma children_set_child lo lm seps idx l r1 a c r2 :
  children lo lm seps = r1 ++ (a, c) :: r2 → length r1 = idx →
  children lo (set_child idx l lm seps).1 (set_child idx l lm seps).2 = r1 ++ (a, l) :: r2.
Proof.
  intros Hc Hl. assert (children lo (set_child idx l lm seps).1 (set_child idx l lm seps).2
    = <[idx := (a, l)]> (children lo lm seps)) as ->.
  { assert (children lo lm seps !! idx = Some (a, c)) as Hi.
    { rewrite Hc, lookup_app_r by lia. by rewrite Hl, Nat.sub_diag. }
    destruct idx as [|i]; [by simplify_eq/=|]. unfold children, set_child. cbn [fst snd].
    simpl. f_equal. rewrite children_lookup_S in Hi.
    apply list_eq. intros j. rewrite list_lookup_fmap.
    destruct (decide (j = i)) as [->|].
    - rewrite list_lookup_alter_eq. destruct (seps !! i) as [[k z]|] eqn:E; simplify_eq/=.
      rewrite list_lookup_insert_eq; [done|]. rewrite length_map. by eapply lookup_lt_Some.
    - rewrite list_lookup_alter_ne, list_lookup_insert_ne by done. by rewrite list_lookup_fmap. }
  rewrite Hc. subst idx. by rewrite insert_app_r_alt, Nat.sub_diag by lia.
Qed.

Lemma children_insert_at lo lm seps idx k r r1 x r2 :
  children lo lm seps = r1 ++ x :: r2 → length r1 = idx →
  children lo lm (insert_at idx (k, r) seps) = r1 ++ x :: (Some k, r) :: r2.
Proof.
  intros Hc Hl. unfold children in *. rewrite map_insert_at. cbn [fst snd].
  destruct r1 as [|y r1]; simplify_eq/=; [done|]. unfold insert_at.
  rewrite H0. rewrite (cons_middle x r1 r2), app_assoc.
  rewrite take_app_length', drop_app_length'; [by rewrite <- app_assoc|..];
    rewrite length_app; simpl; lia.
Qed.

Lemma children_delete lo lm seps i r1 x r2 :
  children lo lm seps = r1 ++ x :: r2 → length r1 = S i →
  children lo lm (base.delete i seps) = r1 ++ r2.
Proof.
  intros Hc Hl. unfold children in *. rewrite Prelude.map_delete.
  destruct r1 as [|y r1]; simplify_eq/=. f_equal. rewrite H0.
  rewrite delete_take_drop, take_app_length. f_equal.
  replace (S (length r1)) with (length (r1 ++ [x])) by (rewrite length_app; simpl; lia).
  by rewrite (cons_middle x r1 r2), app_assoc, drop_app_length.
Qed.

Section Focus.
Context (P : bnd → bnd → Z → rset → kvs → Prop).
Context (HP : ∀ a b c F m, P a b c F m → good a b m).

Lemma seg_seps_sorted lo hi lm seps F m :
  seg P lo hi (children lo lm seps) F m → StronglySorted key_lt (map fst seps).
Proof.
  intros Hs. apply Sorted_StronglySorted; [intros ???; apply lex_lt_trans|].
  revert lo lm F m Hs. induction seps as [|[k c] seps IH]; intros lo lm F m Hs; [constructor|].
  rewrite children_cons in Hs. apply seg_cons_inv in Hs as (b&F1&F2&m1&m2&_&_&Hs&_).
  simpl. constructor.
  - destruct (seg_start _ _ _ _ _ _ Hs) as [(?&_)|Hst]; [done|]. simplify_eq/=. by eapply IH.
  - destruct seps as [|[k2 c2] seps]; [constructor|]. constructor. simpl.
    rewrite children_cons in Hs. apply seg_cons_inv in Hs as (b2&G1&G2&n1&n2&<-&H1&Hs2&_).
    destruct (seg_start _ _ _ _ _ _ Hs2) as [(?&_)|Hst]; [done|]. simplify_eq/=.
    eapply good_bounds. by eapply HP.
Qed.

Lemma seg_focus lo hi lm seps F m idx :
  seg P lo hi (children lo lm seps) F m → idx ≤ length seps →
  ∃ r1 a b c r2 F1 F2 F3 m1 m2 m3,
    children lo lm seps = r1 ++ (a, c) :: r2 ∧ length r1 = idx ∧
    seg P lo a r1 F1 m1 ∧ P a b c F2 m2 ∧ seg P b hi r2 F3 m3 ∧
    F1 ## F2 ∧ F1 ## F3 ∧ F2 ## F3 ∧ F = F1 ∪ (F2 ∪ F3) ∧ m = m1 ++ m2 ++ m3.
Proof.
  intros Hs Hi. destruct (lookup_lt_is_Some_2 (children lo lm seps) idx) as [[a c] Hc].
  { rewrite length_children. lia. }
  rewrite <- (take_drop_middle _ _ _ Hc) in Hs.
  apply seg_app_inv in Hs as (a'&F1&F0&m1&m0&Hs1&Hs&Hd&->&->).
  apply seg_cons_inv in Hs as (b&F2&F3&m2&m3&->&Ht&Hs3&Hd'&->&->).
  apply disjoint_union_r in Hd as [??].
  eexists (take idx (children lo lm seps)), a', b, c, (drop (S idx) (children lo lm seps)), F1, F2, F3, m1, m2, m3.
  split_and!; try done; [by rewrite take_drop_middle|].
  rewrite length_take, length_children. lia.
Qed.

(** The descent index isolates the bindings a key belongs to. *)
Lemma seg_focus_key lo hi lm seps key r1 a b c r2 F1 F3 m1 m3 :
  children lo lm seps = r1 ++ (a, c) :: r2 →
  seg P lo a r1 F1 m1 → seg P b hi r2 F3 m3 →
  (∀ j k, j < length r1 → map fst seps !! j = Some k → key_le k key) →
  (∀ j k, length r1 ≤ j → map fst seps !! j = Some k → key_lt key k) →
  above lo key → below hi key →
  above a key ∧ below b key ∧
  (∀ x, x ∈ m1.*1 → key_lt x key) ∧ (∀ x, x ∈ m3.*1 → key_lt key x).
Proof.
  intros Hc Hs1 Hs3 Hlt Hge Hlo Hhi. pose proof (children_tail lo lm seps) as Hf.
  rewrite Hc in Hf.
  assert (above a key ∧ ∀ x, x ∈ m1.*1 → key_lt x key) as [? ?].
  { destruct r1 as [|y r1].
    - inversion Hs1; subst. split; [done|]. by intros ? ?%elem_of_nil.
    - assert (children lo lm seps !! S (length r1) = Some (a, c)) as Hi.
      { rewrite Hc. simpl. rewrite lookup_app_r by lia. by rewrite Nat.sub_diag. }
      rewrite children_lookup_S in Hi.
      destruct (seps !! length r1) as [[k z]|] eqn:E; simplify_eq/=.
      assert (key_le k key) as Hk.
      { apply (Hlt (length r1)); [lia|]. by rewrite list_lookup_fmap, E. }
      split; [done|]. intros x Hx. apply Forall_app in Hf as [Hf _].
      apply (seg_good _ _ _ _ _ _ HP) in Hs1; [|done|done].
      pose proof (g_hi _ _ _ Hs1) as Hh. rewrite Forall_forall in Hh. apply Hh in Hx.
      simpl in Hx. korder. }
  split; [done|]. rewrite (assoc and). rewrite (comm and (below b key)), <- (assoc and).
  split; [done|]. destruct r2 as [|[b' c'] r2].
  - inversion Hs3; subst. split; [done|]. by intros ? ?%elem_of_nil.
  - assert (children lo lm seps !! S (length r1) = Some (b', c')) as Hi.
    { rewrite Hc. rewrite lookup_app_r by lia. by replace (S (length r1) - length r1) with 1 by lia. }
    rewrite children_lookup_S in Hi.
    destruct (seps !! length r1) as [[k z]|] eqn:E; simplify_eq/=.
    assert (key_lt key k) as Hk.
    { apply (Hge (length r1)); [lia|]. by rewrite list_lookup_fmap, E. }
    destruct (seg_start _ _ _ _ _ _ Hs3) as [(?&_)|Hst]; [done|]. simplify_eq/=.
    split; [done|]. intros x Hx.
    assert (Forall (λ x : bnd * Z, is_Some x.1) r2).
    { destruct r1; simpl in Hf; [by inversion Hf|].
      apply Forall_app in Hf as [_ Hf]. inversion Hf as [|? ? _ Hf2]. by inversion Hf2. }
    apply (seg_good _ _ _ _ _ _ HP) in Hs3; [|done|done].
    pose proof (g_lo _ _ _ Hs3) as Hh. rewrite Forall_forall in Hh. apply Hh in Hx.
    simpl in Hx. korder.
Qed.
End Focus.

(** * Point reads *)

Lemma vals_keys s es F m : vals s es F m → map fst es = m.*1.
Proof. induction 1 as [|?????????? IH]; [done|]. simpl. by rewrite IH. Qed.

Lemma vals_lookup s es F m i k lv :
  vals s es F m → es !! i = Some (k, lv) →
  ∃ x F', m !! i = Some (k, x) ∧ val_rep s lv x F' ∧ F' ⊆ F.
Proof.
  intros Hv. revert i. induction Hv as [|k' lv' x es F1 F2 m Hv Hd _ IH]; intros i Hi; [done|].
  destruct i as [|i]; simplify_eq/=.
  - exists x, F1. split_and!; [done|done|apply union_subseteq_l].
  - destruct (IH _ Hi) as (y&F'&?&?&?). exists y, F'. split_and!; [done|done|].
    etrans; [done|]. apply union_subseteq_r.
Qed.

Lemma read_leaf_val_spec s lv x F :
  ok s → val_rep s lv x F → read_leaf_val content_hash lv s = Ok x.
Proof.
  intros Hok. destruct lv; simpl.
  - by intros [-> _].
  - intros (ids&Hc&_&->&_). by eapply read_overflow_spec.
  - intros (_&Hr&Hlen&_). rewrite Hr. cbn [mbind res_mbind].
    by rewrite bool_decide_false by (intros Hn; by apply Hn).
  - intros (Hr&Hlen&Hh&_). rewrite Hr. cbn [mbind res_mbind].
    rewrite bool_decide_false by (intros Hn; by apply Hn).
    by rewrite bool_decide_false by (intros Hn; by apply Hn).
Qed.

(** A search in a leaf finds exactly the binding of its key. *)
Lemma leaf_search p es m k F s :
  node_rep p KIND_LEAF 0 (map enc_leaf es) → Forall wf_leaf es → vals s es F m →
  kv_sorted m → ∃ f, search p k = Ok f ∧ found_spec m.*1 k f.
Proof.
  intros Hr Hw Hv Hs. eapply search_ok.
  - intros i k' Hi. eapply key_at_leaf; [done|done|]. by erewrite vals_keys.
  - done.
  - erewrite nr_nkeys by done. rewrite length_map, length_fmap, <- (length_fmap fst m).
    erewrite <- vals_keys by done. by rewrite length_map.
Qed.

Lemma leaf_page_of s id es F0 m : lnode s id es F0 m →
  ps_page id s = Ok (bytes_at s id) ∧ check_node (bytes_at s id) = Ok tt.
Proof.
  intros [Hl Hr _ _ _]. split; [by apply page_law|]. eapply check_node_ok; [done|auto].
Qed.

Lemma leaf_page s lo hi id F m : leaf s lo hi id F m →
  ps_page id s = Ok (bytes_at s id) ∧ check_node (bytes_at s id) = Ok tt ∧
  kind (bytes_at s id) = KIND_LEAF.
Proof.
  intros (es&F0&[Hl Hr _ _ _]&_). split_and!; [by apply page_law| |apply Hr].
  eapply check_node_ok; [done|auto].
Qed.

Lemma branch_page P s lo hi id F m : branch P s lo hi id F m →
  ps_page id s = Ok (bytes_at s id) ∧ check_node (bytes_at s id) = Ok tt ∧
  kind (bytes_at s id) = KIND_BRANCH.
Proof.
  intros (lm&seps&F0&[Hl Hr _ _]&_). split_and!; [by apply page_law| |apply Hr].
  eapply check_node_ok; [done|auto].
Qed.

(** The step of every descent by key. *)
Lemma branch_descent s h lo hi id lm seps F m key :
  bnode s id lm seps →
  seg (tree s h) lo hi (children lo lm seps) F m → above lo key → below hi key →
  ∃ r1 a b c r2 F1 F2 F3 m1 m2 m3,
    descent_index (bytes_at s id) key = Ok (length r1) ∧
    branch_child (bytes_at s id) (length r1) = Ok c ∧ length r1 ≤ length seps ∧
    children lo lm seps = r1 ++ (a, c) :: r2 ∧
    seg (tree s h) lo a r1 F1 m1 ∧ tree s h a b c F2 m2 ∧ seg (tree s h) b hi r2 F3 m3 ∧
    F1 ## F2 ∧ F1 ## F3 ∧ F2 ## F3 ∧ F = F1 ∪ (F2 ∪ F3) ∧ m = m1 ++ m2 ++ m3 ∧
    above a key ∧ below b key ∧
    (∀ x, x ∈ m1.*1 → key_lt x key) ∧ (∀ x, x ∈ m3.*1 → key_lt key x).
Proof.
  intros [Hl Hr Hw _] Hs Hlo Hhi. pose proof (tree_good s h) as Hg.
  destruct (descent_index_ok _ _ _ key Hr Hw) as (idx&Hd&Hi&Hlt&Hge).
  { by eapply seg_seps_sorted. }
  destruct (seg_focus _ lo hi lm seps F m idx Hs Hi)
    as (r1&a&b&c&r2&F1&F2&F3&m1&m2&m3&Hc&<-&Hs1&Ht&Hs3&?&?&?&->&->).
  destruct (seg_focus_key _ Hg _ _ _ _ key _ _ _ _ _ _ _ _ _ Hc Hs1 Hs3 Hlt Hge Hlo Hhi)
    as (?&?&?&?).
  exists r1, a, b, c, r2, F1, F2, F3, m1, m2, m3. split_and!; try done.
  rewrite (branch_child_ok _ _ _ _ Hr Hw Hi). f_equal.
  assert (children lo lm seps !! length r1 = Some (a, c)) as Hx.
  { rewrite Hc, lookup_app_r by lia. by rewrite Nat.sub_diag. }
  destruct (length r1) as [|i]; [by simplify_eq/=|]. rewrite children_lookup_S in Hx.
  destruct (seps !! i) as [[]|]; by simplify_eq/=.
Qed.

Lemma lt_not_elem_of (k : bytes) (l : list bytes) : (∀ x, x ∈ l → key_lt x k) → k ∉ l.
Proof. intros H ?%H. korder. Qed.
Lemma gt_not_elem_of (k : bytes) (l : list bytes) : (∀ x, x ∈ l → key_lt k x) → k ∉ l.
Proof. intros H ?%H. korder. Qed.

Lemma descend_spec s h lo hi id F m key levels :
  tree s h lo hi id F m → h < levels → above lo key → below hi key →
  ∃ lo' hi' id' F' m', leaf s lo' hi' id' F' m' ∧ kv_get key m = kv_get key m' ∧
    ∀ A what (f : bytes → res A),
      descend levels what (λ p, descent_index p key) f id s = f (bytes_at s id').
Proof.
  revert lo hi id F m levels. induction h as [|h IH]; intros lo hi id F m [|levels] Ht Hh Hlo Hhi;
    try lia; cbn [descend].
  - exists lo, hi, id, F, m. split_and!; [done|done|]. intros A what f.
    destruct (leaf_page _ _ _ _ _ _ Ht) as (->&Hc&Hk). cbn [mbind res_mbind]. rewrite Hc, Hk. done.
  - destruct (branch_page _ _ _ _ _ _ _ Ht) as (Hpg&Hc&Hk).
    destruct Ht as (lm&seps&F0&Hn&Hs&_).
    destruct (branch_descent _ _ _ _ _ _ _ _ _ key Hn Hs Hlo Hhi)
      as (r1&a&b&c&r2&F1&F2&F3&m1&m2&m3&Hdi&Hbc&_&_&_&Ht&_&_&_&_&_&->&?&?&H1&H3).
    destruct (IH a b c F2 m2 levels) as (lo'&hi'&id'&F'&m'&?&Hm&Hd); [done|lia|done|done|].
    exists lo', hi', id', F', m'. split_and!; [done| |].
    + rewrite kv_get_middle; [done|by apply lt_not_elem_of|by apply gt_not_elem_of].
    + intros A what f. rewrite Hpg. cbn [mbind res_mbind]. rewrite Hc, Hk. cbn [mbind res_mbind].
      rewrite bool_decide_true by done. rewrite Hdi. cbn [mbind res_mbind]. rewrite Hbc. apply Hd.
Qed.

Lemma get_spec s h root F m key :
  ok s → tree_rep s h root F m → h < 64 →
  get content_hash root key s = Ok (kv_get key m).
Proof.
  intros Hok [(->&->&_)|[Hr Ht]] Hh; unfold get; [done|]. rewrite bool_decide_false by done.
  destruct (descend_spec _ _ _ _ _ _ _ key 64 Ht Hh) as (lo&hi&id&F'&m'&Hleaf&Hm&Hd); [done|done|].
  rewrite Hd, Hm. clear Hd Hm. destruct Hleaf as (es&F0&[_ Hrep Hw Hv _]&_&Hg).
  destruct (leaf_search _ _ _ key _ _ Hrep Hw Hv (g_sorted _ _ _ Hg)) as (f&Hf&Hspec).
  rewrite Hf. cbn [mbind res_mbind]. destruct f as [i|i].
  - simpl in Hspec. rewrite <- (vals_keys _ _ _ _ Hv), list_lookup_fmap in Hspec.
    destruct (es !! i) as [[k lv]|] eqn:Hi; [|done]. injection Hspec as Hk. simpl in Hk. subst k.
    destruct (vals_lookup _ _ _ _ _ _ _ Hv Hi) as (x&Fx&Hx&Hvx&_).
    rewrite (leaf_cell_ok _ _ _ _ Hrep i (key, lv)); [|by rewrite list_lookup_fmap, Hi|by eapply Forall_lookup_1].
    cbn [mbind res_mbind]. rewrite (read_leaf_val_spec _ _ _ _ Hok Hvx).
    destruct (kv_found m' i key x) as [-> _]; [apply Hg|done|done].
  - f_equal. symmetry. apply kv_get_None. intros (j&Hj)%list_elem_of_lookup.
    destruct Hspec as (_&Hlt&Hgt). destruct (decide (j < i)).
    + specialize (Hlt j key ltac:(lia) Hj). korder.
    + specialize (Hgt j key ltac:(lia) Hj). korder.
Qed.

(** * Entries of a leaf by position *)

Lemma vals_length s es F m : vals s es F m → length es = length m.
Proof. induction 1 as [|?????????? IH]; [done|]. simpl. by f_equal. Qed.

Lemma vals_app_intro s es1 es2 F1 F2 m1 m2 F :
  vals s es1 F1 m1 → vals s es2 F2 m2 → F1 ## F2 → F = F1 ∪ F2 →
  vals s (es1 ++ es2) F (m1 ++ m2).
Proof.
  intros H1 H2. revert F. induction H1 as [|k lv x es G1 G2 m Hv Hd _ IH]; intros F Hdj ->.
  - by rewrite (left_id_L ∅ (∪)).
  - rewrite <- (assoc_L (∪)). simpl. disj. constructor; [done| |by apply IH]. disj.
Qed.

Lemma vals_split s es F m n : vals s es F m →
  ∃ F1 F2, vals s (take n es) F1 (take n m) ∧ vals s (drop n es) F2 (drop n m) ∧
    F1 ## F2 ∧ F = F1 ∪ F2.
Proof.
  intros Hv. revert n. induction Hv as [|k lv x es G1 G2 m Hv Hd Hvs IH]; intros n.
  - exists ∅, ∅. rewrite !take_nil, !drop_nil. split_and!; [constructor..|disj|unions].
  - destruct n as [|n]; simpl.
    + exists ∅, (G1 ∪ G2). split_and!; [constructor|by constructor|disj|unions].
    + destruct (IH n) as (F1&F2&?&?&?&->). exists (G1 ∪ F1), F2.
      split_and!; [constructor; [done|disj|done]|done|disj|unions].
Qed.

Lemma vals_insert_at s es F m i k lv x C :
  vals s es F m → val_rep s lv x C → F ## C →
  vals s (insert_at i (k, lv) es) (F ∪ C) (insert_at i (k, x) m).
Proof.
  intros Hv Hx Hd. destruct (vals_split _ _ _ _ i Hv) as (F1&F2&?&?&?&->). unfold insert_at.
  eapply (vals_app_intro _ _ _ F1 (C ∪ F2)); [done|constructor; [done|disj|done]|disj|unions].
Qed.

Lemma vals_delete s es F m i k lv :
  vals s es F m → es !! i = Some (k, lv) →
  ∃ x Fi F', m !! i = Some (k, x) ∧ val_rep s lv x Fi ∧ Fi ## F' ∧ F = Fi ∪ F' ∧
    vals s (base.delete i es) F' (base.delete i m).
Proof.
  intros Hv Hi. destruct (vals_split _ _ _ _ i Hv) as (F1&F2&Hv1&Hv2&?&->).
  rewrite (drop_S _ _ _ Hi) in Hv2.
  assert (∃ e, m !! i = Some e) as [e He].
  { apply lookup_lt_is_Some_2. rewrite <- (vals_length _ _ _ _ Hv). by eapply lookup_lt_Some. }
  rewrite (drop_S _ _ _ He) in Hv2.
  inversion Hv2 as [|? ? x ? Fi F3 ? Hx ? Hv3]; subst. exists x, Fi, (F1 ∪ F3).
  rewrite !delete_take_drop.
  split_and!; [done|done|disj|unions|]. eapply vals_app_intro; [done|done|disj|done].
Qed.

Lemma found_leaf s id es F0 m key :
  lnode s id es F0 m → kv_sorted m →
  ∃ f, search (bytes_at s id) key = Ok f ∧ found_spec m.*1 key f.
Proof. intros [Hl Hr Hw Hv _] Hs. by eapply leaf_search. Qed.

Lemma found_entry s id es F0 m key i :
  lnode s id es F0 m → kv_sorted m → found_spec m.*1 key (FoundAt i) →
  ∃ lv x, es !! i = Some (key, lv) ∧ m !! i = Some (key, x) ∧ kv_get key m = Some x ∧
    kv_del key m = base.delete i m ∧
    (∀ w, kv_put key w m = insert_at i (key, w) (base.delete i m)).
Proof.
  intros [_ _ _ Hv _] Hs Hf. simpl in Hf. pose proof Hf as Hf'.
  rewrite <- (vals_keys _ _ _ _ Hv), list_lookup_fmap in Hf.
  destruct (es !! i) as [[k lv]|] eqn:He; [|done]. injection Hf as Hk. simpl in Hk. subst k.
  destruct (vals_lookup _ _ _ _ _ _ _ Hv He) as (x&_&Hm&_).
  exists lv, x. destruct (kv_found m i key x Hs Hm) as (?&?&?). done.
Qed.

Lemma notfound_get m key i : found_spec m.*1 key (NotFound i) → kv_get key m = None.
Proof.
  intros (_&Hlt&Hgt). apply kv_get_None. intros (j&Hj)%list_elem_of_lookup.
  destruct (decide (j < i)).
  - specialize (Hlt j key ltac:(lia) Hj). korder.
  - specialize (Hgt j key ltac:(lia) Hj). korder.
Qed.

Lemma tree_page s h lo hi id F m : tree s h lo hi id F m →
  ps_page id s = Ok (bytes_at s id) ∧ check_node (bytes_at s id) = Ok tt ∧
  kind (bytes_at s id) = match h with O => KIND_LEAF | S _ => KIND_BRANCH end.
Proof. destruct h; [apply leaf_page|apply branch_page]. Qed.

Lemma child_at s lo lm seps id i r1 a c r2 :
  bnode s id lm seps → children lo lm seps = r1 ++ (a, c) :: r2 → length r1 = i →
  branch_child (bytes_at s id) i = Ok c.
Proof.
  intros [_ Hr Hw _] Hch <-.
  assert (length r1 ≤ length seps) as Hi.
  { pose proof (f_equal length Hch) as HL. rewrite length_children, length_app in HL. simpl in HL. lia. }
  rewrite (branch_child_ok _ _ _ _ Hr Hw Hi). f_equal.
  assert (children lo lm seps !! length r1 = Some (a, c)) as Hx.
  { rewrite Hch, lookup_app_r by lia. by rewrite Nat.sub_diag. }
  destruct (length r1) as [|j]; [by simplify_eq/=|]. rewrite children_lookup_S in Hx.
  destruct (seps !! j) as [[]|]; by simplify_eq/=.
Qed.

(** * Steps on an owned branch page *)

Lemma cow_bnode s0 X s id lm seps R :
  eff s0 s X ({[Pg id]} ∪ R) → bnode s id lm seps → {[Pg id]} ## R →
  wps (cow id) (λ id' s', bnode s' id' lm seps ∧ ps_is_dirty id' s' = true ∧
    eff s0 s' X ({[Pg id']} ∪ R) ∧ {[Pg id']} ## R ∧ same_on s s' R) s.
Proof.
  intros E0 [Hl Hr Hw Hlm] Hdj. eapply wp_mono; [apply cow_spec; [by eapply eff_ok|done]|].
  intros id' s1 (E1&Hb1&Hd1).
  destruct (own_step _ _ _ _ _ _ _ R E0 E1) as (?&?&?); [done|done|].
  split_and!; try done. split; try done; [|by rewrite Hb1].
  eapply eff_live; [exact E1|by apply elem_of_singleton].
Qed.

Lemma bnode_mut s0 X s id lm seps R (f : M bytes unit) lm' seps' :
  eff s0 s X ({[Pg id]} ∪ R) → bnode s id lm seps → {[Pg id]} ## R → ps_is_dirty id s = true →
  wpp f (λ _ q, node_rep q KIND_BRANCH lm' (map enc_branch seps')) (bytes_at s id) →
  Forall wf_branch seps' → is_uint 64 lm' →
  wps (with_page_mut id f) (λ (_ : unit) s', bnode s' id lm' seps' ∧ ps_is_dirty id s' = true ∧
    eff s0 s' X ({[Pg id]} ∪ R) ∧ same_on s s' R) s.
Proof.
  intros E0 [Hl Hr Hw _] Hdj Hd Hm Hw' Hlm'.
  eapply wp_page_mut; [by eapply eff_ok|done|done|]. eapply wp_mono; [exact Hm|].
  intros [] q Hq. split; [apply Hq|]. intros s1 E1 Hb1 Hd1.
  destruct (own_step _ _ _ _ _ _ _ R E0 E1) as (?&?&?); [done|done|].
  split_and!; try done. split; try done; [|by rewrite Hb1].
  eapply eff_live; [exact E1|by apply elem_of_singleton].
Qed.

Lemma branch_intro s h lo hi id lm seps F m F' :
  bnode s id lm seps → seg (tree s h) lo hi (children lo lm seps) F m → {[Pg id]} ## F →
  F' = {[Pg id]} ∪ F → tree s (S h) lo hi id F' m.
Proof.
  intros Hn Hs Hd ->. exists lm, seps, F. split_and!; try done. by apply disjoint_singleton_l.
Qed.
End Rep.
