(* ===== verification/BtreeInsert.v ===== *)
(** Insertion into the B+tree of [crates/mpedb-core/src/btree.rs] implements
    insertion into the sorted map, node splits included. *)

From S2P Require Import Prelude BtreeNode PageStore Btree Overflow KvMap BtreeRep.

(** * A feasible split point always exists *)

(** Splitting [sizes] at [n] leaves both nodes within [cap]; a branch moves
    the cell at [n] up. *)
Definition splits (leaf : bool) (cap : nat) (sizes : list nat) (n : nat) : Prop :=
  1 ≤ n < length sizes ∧ sum_list (take n sizes) ≤ cap ∧
  sum_list (drop (if leaf then n else S n) sizes) ≤ cap.

Lemma sum_list_take_drop n (l : list nat) :
  sum_list l = sum_list (take n l) + sum_list (drop n l).
Proof. by rewrite <- sum_list_app, take_drop. Qed.

Lemma pick_split_loop_spec leaf cap pre sizes best :
  let full := pre ++ sizes in
  (∀ b d, best = Some (b, d) → splits leaf cap full b) →
  match pick_split_loop leaf (sum_list full) cap sizes (S (length pre)) (sum_list pre) best with
  | Some (b, _) => splits leaf cap full b
  | None => best = None ∧ ∀ n, S (length pre) ≤ n → ¬ splits leaf cap full n
  end.
Proof.
  revert pre best. induction sizes as [|sz sizes IH]; intros pre best full Hb; subst full; simpl.
  { destruct best as [[b d]|]; [by eapply Hb|]. split; [done|]. intros n Hn [Hl _].
    rewrite app_nil_r in Hl. lia. }
  destruct sizes as [|nxt sizes].
  { destruct best as [[b d]|]; [by eapply Hb|]. split; [done|]. intros n Hn [Hl _].
    rewrite length_app in Hl. simpl in Hl. lia. }
  set (full := pre ++ sz :: nxt :: sizes) in *.
  assert (full = (pre ++ [sz]) ++ nxt :: sizes) as Hfull by (subst full; by rewrite <- app_assoc).
  assert (splits leaf cap full (S (length pre)) ↔
    sum_list pre + sz ≤ cap ∧
    (if leaf then sum_list full - (sum_list pre + sz)
     else sum_list full - (sum_list pre + sz) - nxt) ≤ cap) as Hcand.
  { unfold splits. replace (S (length pre)) with (length (pre ++ [sz])) by (rewrite length_app; simpl; lia).
    assert (length (pre ++ [sz]) < length full) by (rewrite Hfull, !length_app; simpl; lia).
    assert (1 ≤ length (pre ++ [sz])) by (rewrite length_app; simpl; lia).
    assert (sum_list full = sum_list pre + sz + (nxt + sum_list sizes)) as ->.
    { rewrite Hfull, !sum_list_app. simpl. lia. }
    assert (sum_list (take (length (pre ++ [sz])) full) = sum_list pre + sz) as ->.
    { rewrite Hfull, take_app_length, sum_list_app. simpl. lia. }
    assert (sum_list (drop (if leaf then length (pre ++ [sz]) else S (length (pre ++ [sz]))) full)
      = if leaf then nxt + sum_list sizes else sum_list sizes) as ->.
    { rewrite Hfull. destruct leaf.
      - by rewrite drop_app_length.
      - rewrite drop_app, drop_ge by lia. by rewrite Nat.sub_succ_l, Nat.sub_diag by lia. }
    destruct leaf; lia. }
  specialize (IH (pre ++ [sz])). rewrite <- Hfull in IH. cbv zeta in IH.
  rewrite length_app, sum_list_app in IH.
  replace (length pre + length [sz]) with (S (length pre)) in IH by (simpl; lia).
  replace (sum_list pre + sum_list [sz]) with (sum_list pre + sz) in IH by (simpl; lia).
  match goal with |- context [pick_split_loop _ _ _ _ _ _ ?b] => set (best' := b) in * end.
  specialize (IH best'). destruct (pick_split_loop _ _ _ _ _ _ best') as [[b d]|].
  - apply IH. intros b' d'. subst best'. case_bool_decide as Hc; [|by apply Hb].
    destruct best as [[b0 d0]|]; [|by intros [= <- _]; apply Hcand].
    case_bool_decide; [by intros [= <- _]; apply Hcand|by apply Hb].
  - destruct IH as [Hn Hnone]; [|].
    { intros b' d'. subst best'. case_bool_decide as Hc; [|by apply Hb].
      destruct best as [[b0 d0]|]; [|by intros [= <- _]; apply Hcand].
      case_bool_decide; [by intros [= <- _]; apply Hcand|by apply Hb]. }
    subst best'. case_bool_decide as Hc; [destruct best as [[]|]; [by case_bool_decide|done]|].
    split; [done|]. intros n Hle Hs. destruct (decide (n = S (length pre))) as [->|].
    + by apply Hc, Hcand.
    + eapply Hnone; [|done]. lia.
Qed.

(** The largest prefix that fits is a split point, when no cell is larger
    than [big] and the whole exceeds one node by at most one cell. *)
Lemma splits_exist leaf cap big sizes :
  Forall (λ z, 0 < z ≤ big) sizes → 2 * big ≤ cap → cap < sum_list sizes ≤ cap + big →
  ∃ n, splits leaf cap sizes n.
Proof.
  intros Hf Hbig [Hlo Hhi].
  assert (∃ n x, sizes !! n = Some x ∧ sum_list (take n sizes) ≤ cap < sum_list (take n sizes) + x)
    as (n&x&Hn&Hle&Hgt).
  { clear -Hlo. revert cap Hlo. induction sizes as [|z sizes IH]; intros cap Hlo; simpl in *; [lia|].
    destruct (decide (cap < z)).
    - exists 0, z. split; [done|]. simpl. lia.
    - destruct (IH (cap - z)) as (n0&x&?&?&?); [lia|]. exists (S n0), x. simpl. split; [done|lia]. }
  pose proof (Forall_lookup_1 _ _ _ _ Hf Hn) as Hx. pose proof (lookup_lt_Some _ _ _ Hn).
  exists n. pose proof (sum_list_take_drop n sizes) as Hsum.
  assert (n ≠ 0) by (intros ->; simpl in *; lia).
  split; [lia|]. split; [done|]. destruct leaf; [cbv beta in Hx; cbv iota; lia|].
  rewrite (drop_S _ _ _ Hn) in Hsum. simpl in Hsum. lia.
Qed.

Lemma pick_split_spec leaf big cells :
  Forall (λ c, 0 < length c ∧ length c + 2 ≤ big) cells → 2 * big ≤ PAGE_SIZE - HDR →
  PAGE_SIZE - HDR < sum_list (map (λ c, length c + 2) cells) ≤ PAGE_SIZE - HDR + big →
  ∃ n, pick_split leaf cells = Some n ∧
       splits leaf (PAGE_SIZE - HDR) (map (λ c, length c + 2) cells) n.
Proof.
  intros Hf Hbig Hsum. unfold pick_split.
  set (sizes := map (λ c : bytes, length c + 2) cells) in *.
  destruct (splits_exist leaf (PAGE_SIZE - HDR) big sizes) as (n0&Hn0); [|done|done|].
  { subst sizes. apply Forall_map. eapply Forall_impl; [exact Hf|]. simpl. lia. }
  pose proof (pick_split_loop_spec leaf (PAGE_SIZE - HDR) [] sizes None) as Hl.
  cbn [app length sum_list] in Hl. specialize (Hl ltac:(done)).
  destruct (pick_split_loop _ _ _ _ _ _ _) as [[b d]|]; [by exists b|].
  destruct Hl as [_ Hno]. destruct (Hno n0); [|done]. destruct Hn0 as [? _]. lia.
Qed.

(** * Rebuilding a node from its cells *)

Abbreviation cell_sum cells := (sum_list (map (λ c : bytes, length c + 2) cells)).

Lemma cell_sum_eq cells : cell_sum cells = total_len cells + 2 * length cells.
Proof. unfold total_len. induction cells; simpl; lia. Qed.

Lemma cell_sum_app l l' : cell_sum (l ++ l') = cell_sum l + cell_sum l'.
Proof. by rewrite map_app, sum_list_app. Qed.

Lemma insert_at_end {A} (l : list A) x : insert_at (length l) x l = l ++ [x].
Proof. unfold insert_at. by rewrite firstn_all, drop_all. Qed.

Lemma insert_cells_rep k lm cs pre p :
  node_rep p k lm pre → Forall (wf_cell k) cs → HDR + cell_sum (pre ++ cs) ≤ PAGE_SIZE →
  wpp (insert_cells (length pre) cs) (λ _ q, node_rep q k lm (pre ++ cs)) p.
Proof.
  revert pre p. induction cs as [|c cs IH]; intros pre p Hr Hf Hsz; cbn [insert_cells].
  { apply wp_ret. by rewrite app_nil_r. }
  inversion Hf as [|? ? Hwf Hf']; subst. apply wp_bind. eapply wp_mono.
  { eapply insert_cell_rep; [done|lia|done|]. rewrite cell_sum_app in Hsz.
    rewrite !cell_sum_eq in Hsz. unfold total_len in *. cbn [map length sum_list id] in Hsz. lia. }
  intros [] q Hq. rewrite insert_at_end in Hq. rewrite (cons_middle c), app_assoc.
  replace (S (length pre)) with (length (pre ++ [c])) by (rewrite length_app; simpl; lia).
  apply IH; [done|done|]. by rewrite <- app_assoc.
Qed.

Lemma rebuild_rep k lm cs p :
  length p = PAGE_SIZE → k = KIND_LEAF ∧ lm = 0%Z ∨ k = KIND_BRANCH → is_uint 64 lm →
  Forall (wf_cell k) cs → HDR + cell_sum cs ≤ PAGE_SIZE →
  wpp (rebuild k cs lm) (λ _ q, node_rep q k lm cs) p.
Proof.
  intros Hl Hk Hlm Hf Hsz. unfold rebuild. apply wp_bind.
  eapply wp_mono; [by apply init_node_rep|]. intros [] q Hq. apply wp_bind.
  apply (wp_mono _ _ (λ _ q, node_rep q k lm [])).
  { destruct Hk as [[-> ->]| ->].
    - by apply wp_ret.
    - rewrite bool_decide_true by done. by eapply set_extra_rep. }
  intros [] q' Hq'. by apply (insert_cells_rep k lm cs []).
Qed.

(** * The parts of a split *)

Lemma cell_klen_ok (k rest : bytes) :
  length k ≤ MAX_KEY → cell_klen (le_encode 2 (Z.of_nat (length k)) ++ rest) = Ok (length k).
Proof.
  intros Hk. unfold cell_klen. rewrite slice_Ok by (rewrite ?length_app, ?length_le_encode; lia).
  cbn [mbind res_mbind]. rewrite sub_app_here by apply length_le_encode. by rewrite klen_decode.
Qed.

Lemma slice_mid (a b : nat) (p v r : bytes) :
  length p = a → b = a + length v → slice a b (p ++ v ++ r) = Ok v.
Proof.
  intros <- ->. rewrite slice_Ok by (rewrite ?length_app; lia). f_equal.
  rewrite sub_app_r, Nat.sub_diag by lia. rewrite Nat.add_comm, Nat.add_sub. by apply sub_app_here.
Qed.

Lemma split_parts_leaf es n k lv :
  es !! n = Some (k, lv) → wf_leaf (k, lv) →
  split_parts KIND_LEAF (map enc_leaf es) n =
    Ok (k, 0%Z, map enc_leaf (take n es), map enc_leaf (drop n es)).
Proof.
  intros Hn [Hk _]. cbn [fst] in Hk. unfold split_parts. rewrite list_lookup_fmap, Hn. cbn [fmap option_fmap option_map].
  change (enc_leaf (k, lv)) with (le_encode 2 (Z.of_nat (length k)) ++ [(enc_leaf_val lv).1] ++ k
    ++ (enc_leaf_val lv).2). rewrite cell_klen_ok by done. cbn [mbind res_mbind].
  rewrite bool_decide_true by done. rewrite app_assoc.
  rewrite slice_mid; [|by rewrite length_app, length_le_encode|done]. cbn [mbind res_mbind].
  by rewrite firstn_map, skipn_map.
Qed.

Lemma split_parts_branch es n k c :
  es !! n = Some (k, c) → wf_branch (k, c) →
  split_parts KIND_BRANCH (map enc_branch es) n =
    Ok (k, c, map enc_branch (take n es), map enc_branch (drop (S n) es)).
Proof.
  intros Hn [Hk Hc]. cbn [fst snd] in *. unfold split_parts. rewrite list_lookup_fmap, Hn.
  cbn [fmap option_fmap option_map]. change (enc_branch (k, c)) with (make_branch_cell k c).
  unfold make_branch_cell.
  rewrite cell_klen_ok by done. cbn [mbind res_mbind]. rewrite bool_decide_false by done.
  rewrite (slice_mid 2); [|apply length_le_encode|done]. cbn [mbind res_mbind].
  rewrite (app_assoc _ k), <- (app_nil_r (le_encode 8 c)).
  rewrite slice_mid; [|by rewrite length_app, length_le_encode|by rewrite length_le_encode].
  cbn [mbind res_mbind]. rewrite is_uint_pow by done. by rewrite firstn_map, skipn_map.
Qed.

(** * Encoding a payload as a leaf cell *)

Definition is_flat (v : Payload) : Prop :=
  match v with Flat _ | Parts _ => True | _ => False end.

Lemma make_leaf_cell_inline key val : is_flat val →
  make_leaf_cell key val 0 = enc_leaf (key, Inline (payload_bytes val)).
Proof.
  intros Hf. unfold enc_leaf. cbn [fst snd enc_leaf_val].
  rewrite length_payload_bytes by by destruct val.
  destruct val; try done; simpl; by rewrite ?app_nil_r.
Qed.

Lemma make_leaf_cell_overflow key val op : is_plain val → op ≠ 0%Z →
  make_leaf_cell key val op = enc_leaf (key, Overflow (Z.of_nat (payload_len val)) op).
Proof.
  intros Hp Hop. unfold make_leaf_cell, enc_leaf. cbn [fst snd enc_leaf_val].
  rewrite bool_decide_false by done. by destruct val.
Qed.

(** * What an insertion does to the map *)

(** The new map, and whether the key was already bound. *)
Definition kv_ins (mode : InsertMode) (key x : bytes) (m : kvs) : kvs * bool :=
  match kv_get key m, mode with
  | Some _, InsertOnly => (m, true)
  | Some _, Upsert => (kv_put key x m, true)
  | None, _ => (kv_put key x m, false)
  end.

(** Whether the payload ends up in the tree. *)
Definition consumes (mode : InsertMode) (key : bytes) (m : kvs) : bool :=
  match kv_get key m, mode with Some _, InsertOnly => false | _, _ => true end.

Lemma kv_ins_middle mode key x m1 m2 m3 :
  (∀ y, y ∈ m1.*1 → key_lt y key) → (∀ y, y ∈ m3.*1 → key_lt key y) →
  kv_ins mode key x (m1 ++ m2 ++ m3) =
    (m1 ++ (kv_ins mode key x m2).1 ++ m3, (kv_ins mode key x m2).2).
Proof.
  intros H1 H3. unfold kv_ins.
  rewrite kv_get_middle by (first [by apply lt_not_elem_of|by apply gt_not_elem_of]).
  rewrite kv_put_middle by done. by destruct (kv_get key m2), mode.
Qed.

Lemma consumes_middle mode key m1 m2 m3 :
  (∀ y, y ∈ m1.*1 → key_lt y key) → (∀ y, y ∈ m3.*1 → key_lt key y) →
  consumes mode key (m1 ++ m2 ++ m3) = consumes mode key m2.
Proof.
  intros H1 H3. unfold consumes.
  by rewrite kv_get_middle by (first [by apply lt_not_elem_of|by apply gt_not_elem_of]).
Qed.

(** The longest overflow value [free_overflow] can give back. *)
Definition MAX_FREEABLE : Z := 267390960.

Section Insert.
Context {St : Type} `{!PageStore St, !StoreView St, !StoreLaws St}.
Context (content_hash : bytes → Z).
Implicit Types (s : St) (F : rset) (m : kvs) (lo hi : bnd).

Abbreviation tree := (tree content_hash).
Abbreviation leaf := (leaf content_hash).
Abbreviation vals := (vals content_hash).
Abbreviation val_rep := (val_rep content_hash).

Lemma split_dirty_spec s id k cells lm n sep rlm lc rc :
  ok s → live s (Pg id) → ps_is_dirty id s = true →
  pick_split (bool_decide (k = KIND_LEAF)) cells = Some n →
  split_parts k cells n = Ok (sep, rlm, lc, rc) →
  (k = KIND_LEAF ∧ lm = 0%Z ∧ rlm = 0%Z ∨ k = KIND_BRANCH) →
  is_uint 64 lm → is_uint 64 rlm → Forall (wf_cell k) lc → Forall (wf_cell k) rc →
  HDR + cell_sum lc ≤ PAGE_SIZE → HDR + cell_sum rc ≤ PAGE_SIZE →
  wps (split_dirty id k cells lm)
    (λ '(sep', r) s', sep' = sep ∧ r ≠ id ∧ eff s s' {[Pg id]} ({[Pg id]} ∪ {[Pg r]}) ∧
       node_rep (bytes_at s' id) k lm lc ∧ node_rep (bytes_at s' r) k rlm rc) s.
Proof.
  intros Hok Hl Hd Hp Hsp Hk Hlm Hrlm Hfl Hfr Hsl Hsr. unfold split_dirty.
  apply wp_bind. eapply wp_lift; [by rewrite Hp|]. apply wp_bind.
  eapply wp_mono; [by apply alloc_law|]. intros r s1 (E1&_&Hdr).
  destruct (eff_page _ _ _ _ id E1 Hl) as (Hne&Hl1&_&Hd1); [apply not_elem_of_empty|].
  assert (r ≠ id) by (intros ->; by apply Hne, elem_of_singleton). rewrite Hd in Hd1.
  apply wp_bind. eapply wp_lift; [exact Hsp|]. apply wp_bind.
  assert (live s1 (Pg r)) by (eapply eff_live; [exact E1|by apply elem_of_singleton]).
  eapply wp_page_mut; [by eapply eff_ok|done|done|].
  eapply wp_mono; [apply rebuild_rep; [apply length_law; [by eapply eff_ok|done]| |done|done|done]|].
  { destruct Hk as [(?&?&?)|?]; auto. }
  intros [] q Hq. split; [apply Hq|]. intros s2 E2 Hb2 Hd2. apply wp_bind.
  destruct (eff_page _ _ _ _ r E2) as (_&Hl2&_&Hdr2); [done|by intros [= ->]%elem_of_singleton|].
  rewrite Hdr in Hdr2. eapply wp_page_mut; [by eapply eff_ok|done|done|].
  eapply wp_mono; [apply rebuild_rep; [apply length_law; [by eapply eff_ok|done]| |done|done|done]|].
  { destruct Hk as [(?&?&?)|?]; auto. }
  intros [] q' Hq'. split; [apply Hq'|]. intros s3 E3 Hb3 Hd3. apply wp_ret.
  destruct (eff_page _ _ _ _ id E3) as (_&_&Hbi&_).
  { eapply eff_live; [exact E2|by apply elem_of_singleton]. }
  { by intros [= ->]%elem_of_singleton. }
  split_and!; [done|done| |by rewrite Hbi, Hb2|by rewrite Hb3].
  eapply eff_trans.
  - eapply (eff_extend _ _ _ _ {[Pg id]} _ ({[Pg r]} ∪ {[Pg id]}) E1);
      [by intros ? ->%elem_of_singleton|by intros ? ?%elem_of_empty|by rewrite (left_id_L ∅ (∪))|done].
  - destruct (eff_seq _ _ _ _ _ _ _ E2 E3) as [E _].
    { by intros ? ->%elem_of_singleton. }
    { by intros ? ->%elem_of_singleton [= ->]%elem_of_singleton. }
    by rewrite (comm_L (∪) {[Pg r]}) at 1.
Qed.

(** * Values of payloads *)

(** A value within the bound fits in a chain that can be freed again. *)
Lemma chain_freeable s first ids x :
  chain s first ids x → (Z.of_nat (length x) ≤ MAX_FREEABLE)%Z → length ids ≤ S FREE_HOPS.
Proof.
  intros Hc Hx. pose proof (chain_length _ _ _ _ Hc). unfold MAX_FREEABLE in Hx.
  unfold FREE_HOPS. sizes.
Qed.

(** The payload denotes [x]; a reference owns the extent it names. *)
Definition pay_rep s (val : Payload) (x : bytes) F : Prop :=
  match val with
  | ExtentRef start total npages =>
      wf_leaf_val (Extent start total npages) ∧ val_rep s (Extent start total npages) x F
  | ExternalRef hash total =>
      wf_leaf_val (External hash total) ∧ val_rep s (External hash total) x F
  | _ => x = payload_bytes val ∧ F = ∅
  end.

Lemma pay_live s val x F r : pay_rep s val x F → r ∈ F → live s r.
Proof.
  destruct val; simpl; try by intros [_ ->] ?%elem_of_empty.
  - by intros (_&?&_&_&->) ->%elem_of_singleton.
  - by intros (_&_&_&_&->) ?%elem_of_empty.
Qed.

Lemma pay_frame s s' val x F : pay_rep s val x F → same_on s s' F → pay_rep s' val x F.
Proof.
  intros Hp Hs. destruct val; try done; destruct Hp as [Hw Hv]; split; try done;
    by eapply (val_frame content_hash).
Qed.

(** The cell built for a value that goes to an overflow chain. *)
Lemma build_overflow key val s :
  ok s → is_plain val → MAX_INLINE_VAL < payload_len val →
  (Z.of_nat (payload_len val) ≤ 2 ^ 32 - 1)%Z →
  wps (write_overflow val)
    (λ op s', ∃ lv C', make_leaf_cell key val op = enc_leaf (key, lv) ∧ wf_leaf_val lv ∧
       val_rep s' lv (payload_bytes val) C' ∧ eff s s' ∅ C') s.
Proof.
  intros Hok Hp Hbig Hsmall.
  eapply wp_mono; [apply write_overflow_spec; [done|done|lia]|]. intros op s' (ids&Hc&Hnd&E).
  pose proof (chain_first _ _ _ _ (eff_ok _ _ _ _ E) Hc).
  rewrite make_leaf_cell_overflow by (done || lia). rewrite <- length_payload_bytes by done.
  exists (Overflow (Z.of_nat (length (payload_bytes val))) op), (pgs ids). split_and!; try done.
  - split; unfold is_uint; [rewrite length_payload_bytes by done|]; lia.
  - exists ids. done.
Qed.

(** Payloads the root case of [insert] stores whole: all but a stream short
    enough to be stored inline. *)
Definition drained (val : Payload) : Prop :=
  match val with Stream h src => MAX_INLINE_VAL < length h + length src | _ => True end.

Lemma first_cell_spec key val x C s :
  ok s → pay_rep s val x C → (Z.of_nat (payload_len val) ≤ 2 ^ 32 - 1)%Z → drained val →
  wps (if bool_decide (MAX_INLINE_VAL < payload_len val) then write_overflow val
       else mret 0%Z)
    (λ op s', ∃ lv C', make_leaf_cell key val op = enc_leaf (key, lv) ∧ wf_leaf_val lv ∧
       val_rep s' lv x C' ∧ eff s s' C C') s.
Proof.
  intros Hok Hp Hlen Hdr. pose proof (λ r, pay_live _ _ _ _ r Hp) as Hlive.
  assert (is_flat val ∨ (∃ h src, val = Stream h src) ∨
    (∃ a b c, val = ExtentRef a b c) ∨ (∃ a b, val = ExternalRef a b)) as Hcases.
  { destruct val; simpl; eauto 10. }
  destruct Hcases as [Hf|[(h&src&->)|[(st&tot&np&->)|(hh&tot&->)]]].
  - assert (x = payload_bytes val ∧ C = ∅) as [-> ->] by by destruct val.
    case_bool_decide as Hbig; [by apply build_overflow; [|destruct val|..]|].
    apply wp_ret. rewrite make_leaf_cell_inline by done.
    exists (Inline (payload_bytes val)), ∅. split_and!; [done| |done|by apply eff_refl].
    simpl. rewrite length_payload_bytes by by destruct val. lia.
  - destruct Hp as [-> ->]. rewrite bool_decide_true by done.
    by apply (build_overflow key (Stream h src)).
  - destruct Hp as [Hw Hv]. rewrite bool_decide_false by (simpl; sizes). apply wp_ret.
    exists (Extent st tot np), C. split_and!; [done|done|done|]. by apply eff_refl.
  - destruct Hp as [Hw Hv]. rewrite bool_decide_false by (simpl; sizes). apply wp_ret.
    exists (External hh tot), C. split_and!; [done|done|done|]. by apply eff_refl.
Qed.

Lemma build_leaf_cell_spec key val x C s :
  ok s → pay_rep s val x C → (Z.of_nat (payload_len val) ≤ 2 ^ 32 - 1)%Z →
  wps (build_leaf_cell key val)
    (λ cell s', ∃ lv C', cell = enc_leaf (key, lv) ∧ wf_leaf_val lv ∧
       val_rep s' lv x C' ∧ eff s s' C C') s.
Proof.
  intros Hok Hp Hlen. pose proof (first_cell_spec key val x C s Hok Hp Hlen) as Hfirst.
  unfold build_leaf_cell. destruct val as [b|ps|h src|st tot np|hh tot].
  - apply wp_bind. eapply wp_mono; [by apply Hfirst|]. intros op s' ?. by apply wp_ret.
  - apply wp_bind. eapply wp_mono; [by apply Hfirst|]. intros op s' ?. by apply wp_ret.
  - destruct (decide (length h + length src ≤ MAX_INLINE_VAL)) as [Hs|Hs].
    + rewrite bool_decide_true by done. destruct Hp as [-> ->]. apply wp_ret. rewrite make_leaf_cell_inline by done.
      exists (Inline (h ++ src)), ∅. split_and!; [done| |done|].
      * simpl. rewrite length_app. lia.
      * apply eff_refl; [done|by intros ? ?%elem_of_empty].
    + rewrite bool_decide_false by done. rewrite bool_decide_true in Hfirst by (simpl; lia).
      apply wp_bind.
      eapply wp_mono; [apply Hfirst; simpl; lia|]. intros op s' ?. by apply wp_ret.
  - rewrite bool_decide_false in Hfirst by (simpl; sizes). by apply Hfirst.
  - rewrite bool_decide_false in Hfirst by (simpl; sizes). by apply Hfirst.
Qed.

Lemma free_old_val_spec s lv x F :
  ok s → val_rep s lv x F → (Z.of_nat (length x) ≤ MAX_FREEABLE)%Z →
  wps (free_old_val (old_val lv)) (λ _ s', eff s s' F ∅) s.
Proof.
  intros Hok Hv Hx. destruct lv; simpl in *.
  - destruct Hv as [_ ->]. apply wp_ret. apply eff_refl; [done|by intros ? ?%elem_of_empty].
  - destruct Hv as (ids&Hc&Hnd&_&->). eapply free_overflow_spec; [done|done|done|].
    by eapply chain_freeable.
  - destruct Hv as (?&_&_&->). by apply free_extent_law.
  - destruct Hv as (_&_&_&->). by apply release_external_law.
Qed.

(** What an insertion needs: a key and a value in range, a payload that
    denotes [x] and, if it is stored, shares nothing with the tree [F], and
    an old value that can be given back. *)
Record ins_pre s (mode : InsertMode) key val x C F m : Prop := {
  ip_key : length key ≤ MAX_KEY;
  ip_len : (Z.of_nat (payload_len val) ≤ 2 ^ 32 - 1)%Z;
  ip_pay : if consumes mode key m then pay_rep s val x C else C = ∅;
  ip_disj : F ## C;
  ip_old : ∀ y, kv_get key m = Some y → mode = Upsert →
           (Z.of_nat (length y) ≤ MAX_FREEABLE)%Z;
}.

(** * Insertion into a leaf *)

(** Removing the entry at [pos] and freeing what its value owns. *)
Lemma leaf_drop_spec s id es F0 m pos k lv x :
  ok s → lnode content_hash s id es F0 m → ps_is_dirty id s = true →
  es !! pos = Some (k, lv) → m !! pos = Some (k, x) →
  (Z.of_nat (length x) ≤ MAX_FREEABLE)%Z →
  wps (leaf_drop id pos)
    (λ _ s', ∃ F1, lnode content_hash s' id (base.delete pos es) F1 (base.delete pos m) ∧
       ps_is_dirty id s' = true ∧ eff s s' ({[Pg id]} ∪ F0) ({[Pg id]} ∪ F1)) s.
Proof.
  intros Hok Hn Hd Hes Hm Hx. destruct Hn as [Hl Hr Hw Hv Hfr].
  pose proof (λ r, vals_live content_hash _ _ _ _ r Hv) as Hlv.
  unfold leaf_drop. apply wp_bind. eapply wp_reads.
  { rewrite page_law by done. cbn [mbind res_mbind].
    eapply (leaf_cell_ok _ _ _ _ Hr pos (k, lv)); [by rewrite list_lookup_fmap, Hes|by eapply Forall_lookup_1]. }
  destruct (vals_delete content_hash _ _ _ _ _ _ _ Hv Hes) as (x'&Fi&F1&Hm'&Hvx&Hdj&->&Hv1). simplify_eq.
  apply not_elem_of_union in Hfr as [Hfi Hf1].
  assert (E0 : eff s s ({[Pg id]} ∪ (Fi ∪ F1)) ({[Pg id]} ∪ (Fi ∪ F1))).
  { apply eff_refl; [done|]. intros r [->%elem_of_singleton|?]%elem_of_union; auto. }
  apply wp_bind. eapply wp_mono; [by eapply free_old_val_spec|]. intros [] s1 E1.
  destruct (own_step _ _ _ _ _ _ _ ({[Pg id]} ∪ F1) E0 E1) as (E01&_&Hs1); [unions|disj|].
  destruct (proj1 Hs1 (Pg id)) as [Hl1 [Hb1 Hd1]]; [by apply elem_of_union_l, elem_of_singleton|].
  eapply wp_page_mut; [by eapply eff_ok|done|congruence|]. rewrite Hb1.
  eapply wp_mono; [eapply remove_cell_rep; [exact Hr|]|].
  { rewrite length_map. by eapply lookup_lt_Some. }
  intros [] q Hq. split; [apply Hq|]. intros s2 E2 Hb2 Hd2.
  destruct (own_step _ _ _ _ _ _ _ F1 E01 E2) as (E02&_&Hs2); [unions|disj|].
  exists F1. split_and!; [|done|done]. split; try done.
  - eapply eff_live; [exact E2|by apply elem_of_singleton].
  - by rewrite Hb2, Prelude.map_delete.
  - by apply Forall_delete_list.
  - eapply vals_frame; [|done]. eapply vals_frame; [done|].
    eapply same_on_subseteq; [done|]. apply union_subseteq_r.
Qed.

(** What an insertion into a subtree of height [h] leaves behind, having
    started in [s0] with the resources [X]: the subtree, or its two halves. *)
Definition ins_post s0 X h lo hi m' (existed : bool) (r : Ins) s' : Prop :=
  match r with
  | Done id e => e = existed ∧ ∃ F', eff s0 s' X F' ∧ tree s' h lo hi id F' m'
  | Split l sep r e => e = existed ∧ length sep ≤ MAX_KEY ∧ ∃ F1 F2 m1 m2,
      eff s0 s' X (F1 ∪ F2) ∧ F1 ## F2 ∧ m' = m1 ++ m2 ∧
      tree s' h lo (Some sep) l F1 m1 ∧ tree s' h (Some sep) hi r F2 m2
  end.

Lemma node_fit p k lm cells : node_rep p k lm cells → HDR + cell_sum cells ≤ PAGE_SIZE.
Proof.
  intros Hr. rewrite cell_sum_eq. pose proof (nr_room _ _ _ _ Hr). pose proof (nr_sum _ _ _ _ Hr).
  lia.
Qed.

Lemma length_enc_leaf_bound e : wf_leaf e → 0 < length (enc_leaf e) ∧ length (enc_leaf e) + 2 ≤ Z.to_nat 2007.
Proof.
  intros [Hk Hv]. rewrite length_enc_leaf. destruct e as [k []]; cbn [fst snd wf_leaf_val] in *; sizes.
Qed.

Lemma length_enc_branch_bound e : wf_branch e → 0 < length (enc_branch e) ∧ length (enc_branch e) + 2 ≤ Z.to_nat 988.
Proof. intros [Hk _]. rewrite length_enc_branch. sizes. Qed.

Lemma cell_sum_insert_at i c cells : cell_sum (insert_at i c cells) = length c + 2 + cell_sum cells.
Proof. by rewrite map_insert_at, sum_list_insert_at. Qed.

(** Splitting an overfull leaf, given as its page and all its entries. *)
Lemma split_leaf_spec s id es F0 m' lo hi :
  ok s → live s (Pg id) → ps_is_dirty id s = true → Forall wf_leaf es → vals s es F0 m' →
  Pg id ∉ F0 → good lo hi m' →
  PAGE_SIZE - HDR < cell_sum (map enc_leaf es) ≤ PAGE_SIZE - HDR + Z.to_nat 2007 →
  wps (split_dirty id KIND_LEAF (map enc_leaf es) 0)
    (λ '(sep, r) s', length sep ≤ MAX_KEY ∧ ∃ F1 F2 m1 m2,
      eff s s' ({[Pg id]} ∪ F0) (F1 ∪ F2) ∧ F1 ## F2 ∧ m' = m1 ++ m2 ∧
      tree s' 0 lo (Some sep) id F1 m1 ∧ tree s' 0 (Some sep) hi r F2 m2) s.
Proof.
  intros Hok Hl Hd Hw Hv Hfr Hg Hsz.
  destruct (pick_split_spec true (Z.to_nat 2007) (map enc_leaf es)) as (n&Hp&[Hn1 Hn2] &Hc1&Hc2).
  { apply Forall_map. eapply Forall_impl; [exact Hw|]. apply length_enc_leaf_bound. }
  { sizes. }
  { done. }
  rewrite !length_map in Hn2. destruct (lookup_lt_is_Some_2 es n Hn2) as [[k lv] Hes].
  pose proof (Forall_lookup_1 _ _ _ _ Hw Hes) as Hwk.
  destruct (vals_lookup content_hash _ _ _ _ _ _ _ Hv Hes) as (x&_&Hm&_).
  destruct (vals_split content_hash _ _ _ _ n Hv) as (F1&F2&Hv1&Hv2&Hdj&->).
  apply not_elem_of_union in Hfr as [Hf1 Hf2].
  destruct (good_split _ _ _ _ _ _ Hg Hn1 Hm) as [Hg1 Hg2].
  rewrite !firstn_map in Hc1. rewrite !skipn_map in Hc2.
  eapply wp_mono.
  { eapply (split_dirty_spec s id KIND_LEAF _ 0 n k 0); [done|done|done|done| |auto|by vm_compute|by vm_compute| | | |].
    - by apply (split_parts_leaf es n k lv).
    - apply Forall_map, Forall_take. eapply Forall_impl; [exact Hw|]. apply wf_cell_enc_leaf.
    - apply Forall_map, Forall_drop. eapply Forall_impl; [exact Hw|]. apply wf_cell_enc_leaf.
    - sizes.
    - sizes. }
  intros [sep r] s' (->&Hne&E&Hr1&Hr2). split; [apply Hwk|].
  assert (E0 : eff s s ({[Pg id]} ∪ (F1 ∪ F2)) ({[Pg id]} ∪ (F1 ∪ F2))).
  { apply eff_refl; [done|]. intros y [->%elem_of_singleton|?]%elem_of_union; [done|].
    eapply (vals_live content_hash); [exact Hv|done]. }
  destruct (own_step _ _ _ _ _ _ _ (F1 ∪ F2) E0 E) as (E'&Hdj'&Hs); [done|disj|].
  exists ({[Pg id]} ∪ F1), ({[Pg r]} ∪ F2), (take n m'), (drop n m').
  assert ({[Pg r]} ## F1 ∧ {[Pg r]} ## F2 ∧ {[Pg id]} ## ({[Pg r]} : rset)) as (?&?&?).
  { disj. split_and!; [done|done|]. apply disjoint_singleton_l. by intros [= ->]%elem_of_singleton. }
  split_and!; [|disj|by rewrite take_drop| |].
  - replace ({[Pg id]} ∪ F1 ∪ ({[Pg r]} ∪ F2)) with ({[Pg id]} ∪ {[Pg r]} ∪ (F1 ∪ F2)) by unions. done.
  - exists (take n es), F1. split_and!; [|done|done]. split; try done.
    + eapply eff_live; [exact E|]. by apply elem_of_union_l, elem_of_singleton.
    + by apply Forall_take.
    + eapply vals_frame; [done|]. eapply same_on_subseteq; [done|]. apply union_subseteq_l.
  - exists (drop n es), F2. split_and!; [|done|done]. split; try done.
    + eapply eff_live; [exact E|]. by apply elem_of_union_r, elem_of_singleton.
    + by apply Forall_drop.
    + eapply vals_frame; [done|]. eapply same_on_subseteq; [done|]. apply union_subseteq_r.
    + by apply disjoint_singleton_l.
Qed.

Lemma leaf_put_spec s0 X s id es F0 m pos key val x C existing lo hi :
  eff s0 s X ({[Pg id]} ∪ F0 ∪ C) → lnode content_hash s id es F0 m →
  ps_is_dirty id s = true → pay_rep s val x C → {[Pg id]} ∪ F0 ## C →
  length key ≤ MAX_KEY → (Z.of_nat (payload_len val) ≤ 2 ^ 32 - 1)%Z → pos ≤ length es →
  good lo hi (insert_at pos (key, x) m) →
  wps (leaf_put id pos key val existing)
    (ins_post s0 X 0 lo hi (insert_at pos (key, x) m) existing) s.
Proof.
  intros E Hn Hd Hp Hdj Hk Hlen Hpos Hg. unfold leaf_put. apply wp_bind.
  eapply wp_mono; [apply build_leaf_cell_spec; [by eapply eff_ok|done|done]|].
  intros cell s1 (lv&C'&->&Hwv&Hv&E1).
  destruct (own_step _ _ _ _ _ _ _ ({[Pg id]} ∪ F0) E E1) as (E01&Hdj1&Hs1); [unions|disj|].
  pose proof (lnode_frame content_hash _ _ _ _ _ _ Hn Hs1) as Hn1.
  destruct (proj1 Hs1 (Pg id)) as [_ [_ Hd1]]; [by apply elem_of_union_l, elem_of_singleton|].
  rewrite Hd in Hd1. clear Hn Hs1 Hp Hd E. destruct Hn1 as [Hl Hr Hw Hvs Hfr].
  assert (Hok1 : ok s1) by by eapply eff_ok.
  assert (Hwl : wf_leaf (key, lv)) by done.
  assert (Hvs' : vals s1 (insert_at pos (key, lv) es) (F0 ∪ C') (insert_at pos (key, x) m)).
  { apply vals_insert_at; [done|done|disj]. }
  assert (Hfr' : Pg id ∉ F0 ∪ C').
  { apply not_elem_of_union. split; [done|]. apply disjoint_singleton_l. disj. }
  assert (Hw' : Forall wf_leaf (insert_at pos (key, lv) es)) by by apply Forall_insert_at.
  apply wp_bind. eapply wp_reads.
  { rewrite page_law by done. cbn [mbind res_mbind]. eapply fits_ok; [exact Hr|].
    by apply length_enc_leaf_bound. }
  cbv zeta. case_bool_decide as Hfit.
  - apply wp_bind. eapply wp_page_mut; [done|done|done|].
    eapply wp_mono.
    { eapply insert_cell_rep; [exact Hr|by rewrite length_map|by apply wf_cell_enc_leaf|done]. }
    intros [] q Hq. split; [apply Hq|]. intros s2 E2 Hb2 Hd2. apply wp_ret. split; [done|].
    destruct (own_step _ _ _ _ _ _ _ (F0 ∪ C') E01 E2) as (E02&Hdj2&Hs2); [unions|disj|].
    exists ({[Pg id]} ∪ (F0 ∪ C')). split; [done|]. eexists _, _. split_and!; [|done|done].
    split; [|by rewrite Hb2, map_insert_at|done| |done].
    + eapply eff_live; [exact E2|by apply elem_of_singleton].
    + by eapply vals_frame.
  - apply wp_bind. eapply wp_reads.
    { rewrite page_law by done. cbn [mbind res_mbind]. by eapply all_cells_ok. }
    rewrite <- map_insert_at. apply wp_bind. eapply wp_mono.
    { eapply split_leaf_spec; [done|done|done|done|done|done|done|].
      rewrite map_insert_at, cell_sum_insert_at, cell_sum_eq.
      pose proof (length_enc_leaf_bound _ Hwl). pose proof (node_fit _ _ _ _ Hr) as Hnf.
      rewrite cell_sum_eq in Hnf. sizes. }
    intros [sep r] s2 (Hsep&F1&F2&m1&m2&E2&Hd12&Hm&Ht1&Ht2). apply wp_ret.
    split_and!; [done|done|]. exists F1, F2, m1, m2. split_and!; try done.
    eapply eff_trans; [|exact E2].
    replace ({[Pg id]} ∪ (F0 ∪ C')) with (C' ∪ ({[Pg id]} ∪ F0)) by unions. done.
Qed.

(** Copy-on-write of an owned leaf page. *)
Lemma cow_leaf s id es F0 m C :
  ok s → lnode content_hash s id es F0 m → {[Pg id]} ∪ F0 ## C → (∀ r, r ∈ C → live s r) →
  wps (cow id) (λ id' s', lnode content_hash s' id' es F0 m ∧ ps_is_dirty id' s' = true ∧
    eff s s' ({[Pg id]} ∪ F0 ∪ C) ({[Pg id']} ∪ F0 ∪ C) ∧ {[Pg id']} ∪ F0 ## C ∧
    same_on s s' C) s.
Proof.
  intros Hok [Hl Hr Hw Hv Hfr] Hdj HlC. eapply wp_mono; [by apply cow_spec|].
  intros id' s1 (E1&Hb1&Hd1).
  assert (E0 : eff s s ({[Pg id]} ∪ F0 ∪ C) ({[Pg id]} ∪ F0 ∪ C)).
  { apply eff_refl; [done|]. intros r [[->%elem_of_singleton|?]%elem_of_union|?]%elem_of_union; auto.
    by eapply (vals_live content_hash). }
  destruct (own_step _ _ _ _ _ _ _ (F0 ∪ C) E0 E1) as (E01&Hdj1&Hs1); [unions|disj|].
  split_and!.
  - split; [|by rewrite Hb1|done| |].
    + eapply eff_live; [exact E1|by apply elem_of_singleton].
    + eapply vals_frame; [done|]. eapply same_on_subseteq; [done|]. apply union_subseteq_l.
    + apply disjoint_singleton_l. disj.
  - done.
  - by rewrite <- (assoc_L (∪) {[Pg id']}).
  - disj.
  - eapply same_on_subseteq; [done|]. apply union_subseteq_r.
Qed.

Lemma insert_leaf_spec s lo hi id F m key val x C mode :
  ok s → leaf s lo hi id F m → ins_pre s mode key val x C F m → above lo key → below hi key →
  wps (insert_leaf id key val mode)
    (ins_post s (F ∪ C) 0 lo hi (kv_ins mode key x m).1 (kv_ins mode key x m).2) s.
Proof.
  intros Hok Hleaf [Hk Hlen Hpay Hdj Hold] Hlo Hhi. pose proof Hleaf as (es&F0&Hn&->&Hg).
  pose proof (kv_put_good lo hi key x m Hg Hlo Hhi) as Hg'.
  destruct (found_leaf content_hash _ _ _ _ _ key Hn (g_sorted _ _ _ Hg)) as (f&Hf&Hspec).
  unfold insert_leaf. apply wp_bind. eapply wp_reads.
  { rewrite page_law by apply Hn. exact Hf. }
  unfold kv_ins. unfold consumes in Hpay. destruct f as [pos|pos].
  - destruct (found_entry content_hash _ _ _ _ _ _ _ Hn (g_sorted _ _ _ Hg) Hspec)
      as (lv&y&Hes&Hm&Hget&_&Hput). rewrite Hget in *. destruct mode.
    { rewrite bool_decide_true by done. cbn [andb fst snd]. subst C. apply wp_ret.
      split; [done|]. exists ({[Pg id]} ∪ F0). split; [|done].
      rewrite (right_id_L ∅ (∪)). apply eff_refl; [done|].
      intros r Hr. eapply (tree_live content_hash s 0); [exact Hleaf|done]. }
    rewrite bool_decide_false by done. cbn [andb fst snd]. apply wp_bind.
    eapply wp_mono; [eapply cow_leaf; [done|done|done|intros r; by apply (pay_live s val x C)]|].
    intros id' s1 (Hn1&Hd1&E1&Hdj1&HsC). apply wp_bind. eapply wp_mono.
    { eapply leaf_drop_spec; [by eapply eff_ok|done|done|done|done|by apply Hold]. }
    intros [] s2 (F1&Hn2&Hd2&E2).
    destruct (own_step _ _ _ _ _ _ _ C E1 E2) as (E02&Hdj2&Hs2); [done|done|].
    rewrite Hput in Hg'. rewrite Hput.
    eapply leaf_put_spec; try done.
    + by eapply pay_frame; [eapply pay_frame|].
    + pose proof (lookup_lt_Some _ _ _ Hes). rewrite length_delete by by eexists. lia.
  - rewrite (notfound_get _ _ _ Hspec) in *. cbn [andb fst snd].
    rewrite (kv_put_at _ _ _ _ (g_sorted _ _ _ Hg) Hspec) in *. apply wp_bind.
    eapply wp_mono; [eapply cow_leaf; [done|done|done|intros r; by apply (pay_live s val x C)]|].
    intros id' s1 (Hn1&Hd1&E1&Hdj1&HsC). apply wp_bind, wp_ret.
    eapply leaf_put_spec; try done.
    + by eapply pay_frame.
    + destruct Hspec as [Hi _]. rewrite length_fmap in Hi.
      by rewrite (vals_length _ _ _ _ _ (ln_vals _ _ _ _ _ _ Hn)).
Qed.

(** * Insertion below a branch *)

Lemma children_split lo lm seps n k c :
  seps !! n = Some (k, c) →
  children lo lm seps = children lo lm (take n seps) ++ children (Some k) c (drop (S n) seps).
Proof.
  intros Hn. unfold children. rewrite <- (take_drop_middle _ _ _ Hn) at 1. by rewrite map_app.
Qed.

Lemma split_branch_spec s h id lm seps F0 m lo hi :
  ok s → live s (Pg id) → ps_is_dirty id s = true → Forall wf_branch seps → is_uint 64 lm →
  seg (tree s h) lo hi (children lo lm seps) F0 m → {[Pg id]} ## F0 →
  PAGE_SIZE - HDR < cell_sum (map enc_branch seps) ≤ PAGE_SIZE - HDR + Z.to_nat 988 →
  wps (split_dirty id KIND_BRANCH (map enc_branch seps) lm)
    (λ '(sep, r) s', length sep ≤ MAX_KEY ∧ ∃ F1 F2 m1 m2,
      eff s s' ({[Pg id]} ∪ F0) (F1 ∪ F2) ∧ F1 ## F2 ∧ m = m1 ++ m2 ∧
      tree s' (S h) lo (Some sep) id F1 m1 ∧ tree s' (S h) (Some sep) hi r F2 m2) s.
Proof.
  intros Hok Hl Hd Hw Hlm Hs Hdj Hsz.
  destruct (pick_split_spec false (Z.to_nat 988) (map enc_branch seps)) as (n&Hp&[Hn1 Hn2] &Hc1&Hc2).
  { apply Forall_map. eapply Forall_impl; [exact Hw|]. apply length_enc_branch_bound. }
  { sizes. }
  { done. }
  rewrite !length_map in Hn2. destruct (lookup_lt_is_Some_2 seps n Hn2) as [[k c] Hes].
  pose proof (Forall_lookup_1 _ _ _ _ Hw Hes) as Hwk.
  rewrite (children_split _ _ _ _ _ _ Hes) in Hs.
  apply seg_app_inv in Hs as (b&F1&F2&m1&m2&Hs1&Hs2&Hd12&->&->).
  destruct (seg_start _ _ _ _ _ _ Hs2) as [[? _]|Hst]; [done|]. injection Hst as <-.
  rewrite !firstn_map in Hc1. rewrite !skipn_map in Hc2. eapply wp_mono.
  { eapply (split_dirty_spec s id KIND_BRANCH _ lm n k c);
      [done|done|done|done| |by auto|done|by apply Hwk| | | |].
    - by apply (split_parts_branch seps n k c).
    - apply Forall_map, Forall_take. eapply Forall_impl; [exact Hw|]. apply wf_cell_enc_branch.
    - apply Forall_map, Forall_drop. eapply Forall_impl; [exact Hw|]. apply wf_cell_enc_branch.
    - sizes.
    - sizes. }
  intros [sep r] s' (->&Hne&E&Hr1&Hr2). split; [apply Hwk|].
  assert (E0 : eff s s ({[Pg id]} ∪ (F1 ∪ F2)) ({[Pg id]} ∪ (F1 ∪ F2))).
  { apply eff_refl; [done|].
    intros y [->%elem_of_singleton|[?|?]%elem_of_union]%elem_of_union; [done|
      eapply (seg_live content_hash); [exact Hs1|done]|
      eapply (seg_live content_hash); [exact Hs2|done]]. }
  destruct (own_step _ _ _ _ _ _ _ (F1 ∪ F2) E0 E) as (E'&Hdj'&Hsm); [done|disj|].
  assert ({[Pg id]} ## ({[Pg r]} : rset)).
  { apply disjoint_singleton_l. by intros [= ->]%elem_of_singleton. }
  assert (same_on s s' F1 ∧ same_on s s' F2) as [Hsm1 Hsm2].
  { split; (eapply same_on_subseteq; [exact Hsm|]); [apply union_subseteq_l|apply union_subseteq_r]. }
  exists ({[Pg id]} ∪ F1), ({[Pg r]} ∪ F2), m1, m2. disj. split_and!; [|disj|done| |].
  - replace ({[Pg id]} ∪ F1 ∪ ({[Pg r]} ∪ F2)) with ({[Pg id]} ∪ {[Pg r]} ∪ (F1 ∪ F2)) by unions. done.
  - eapply branch_intro; [split; [|exact Hr1|by apply Forall_take|done]|by eapply seg_frame|disj|done].
    eapply eff_live; [exact E|]. by apply elem_of_union_l, elem_of_singleton.
  - eapply branch_intro; [split; [|exact Hr2|by apply Forall_drop|apply Hwk]|by eapply seg_frame|disj|done].
    eapply eff_live; [exact E|]. by apply elem_of_union_r, elem_of_singleton.
Qed.

(** The resources around a focused child. *)
Section Around.
Context (s0 : St) (X : rset) (h : nat) (lo hi : bnd) (id lm : Z) (seps : list (bytes * Z)).
Context (r1 r2 : list (bnd * Z)) (a b : bnd) (c : Z) (F1 F3 : rset) (m1 m3 : kvs).
Context (Hch : children lo lm seps = r1 ++ (a, c) :: r2).

(** The branch and the siblings of the child, in state [s], beside [G]. *)
Definition around s (G : rset) : Prop :=
  bnode s id lm seps ∧ seg (tree s h) lo a r1 F1 m1 ∧ seg (tree s h) b hi r2 F3 m3 ∧
  eff s0 s X ({[Pg id]} ∪ (F1 ∪ F3 ∪ G)) ∧ {[Pg id]} ## F1 ∪ F3 ∪ G ∧ F1 ∪ F3 ## G ∧ F1 ## F3.

Lemma around_done s ex m2' F2 :
  around s F2 → tree s h a b c F2 m2' →
  ins_post s0 X (S h) lo hi (m1 ++ m2' ++ m3) ex (Done id ex) s.
Proof.
  intros (Hn&Hs1&Hs3&E&Hd1&Hd2&Hd3) Ht. split; [done|].
  exists ({[Pg id]} ∪ (F1 ∪ F3 ∪ F2)). split; [done|].
  eapply branch_intro; [done| |exact Hd1|done]. rewrite Hch.
  eapply (seg_app_intro _ _ _ _ _ _ F1 (F2 ∪ F3)); [done| |disj|unions|done].
  econstructor; [done|disj|done].
Qed.

(** After [cow] of the branch and storing [l] as the child. *)
Lemma around_cow s G l :
  around s G → is_uint 64 l →
  wps (my_id ← cow id; with_page_mut my_id (set_branch_child (length r1) l);; mret my_id)
    (λ my_id s', ∃ lm' seps', bnode s' my_id lm' seps' ∧ ps_is_dirty my_id s' = true ∧
       children lo lm' seps' = r1 ++ (a, l) :: r2 ∧ length seps' = length seps ∧
       seg (tree s' h) lo a r1 F1 m1 ∧ seg (tree s' h) b hi r2 F3 m3 ∧ same_on s s' G ∧
       eff s0 s' X ({[Pg my_id]} ∪ (F1 ∪ F3 ∪ G)) ∧ {[Pg my_id]} ## F1 ∪ F3 ∪ G) s.
Proof.
  intros (Hn&Hs1&Hs3&E&Hd1&Hd2&Hd3) Hl. apply wp_bind.
  eapply wp_mono; [by eapply cow_bnode|]. intros my_id s1 (Hn1&Hdy1&E1&Hdj1&Hsm1).
  apply wp_bind.
  assert (length r1 ≤ length seps) as Hidx.
  { pose proof (f_equal length Hch) as HL. rewrite length_children, length_app in HL.
    simpl in HL. lia. }
  eapply wp_mono.
  { eapply bnode_mut; [exact E1|exact Hn1|done|done| | |].
    - apply set_branch_child_rep; [apply Hn1|apply Hn1|done|exact Hl].
    - destruct (length r1) as [|i]; [apply Hn1|]. cbn [set_child snd].
      apply Forall_alter; [apply Hn1|]. intros e He [??]. done.
    - destruct (length r1) as [|i]; [done|apply Hn1]. }
  intros [] s2 (Hn2&Hdy2&E2&Hsm2). apply wp_ret. eexists _, _. split_and!; try done.
  - by eapply children_set_child.
  - destruct (length r1) as [|i]; [done|]. cbn [set_child snd]. apply length_alter.
  - eapply seg_frame; [eapply seg_frame; [done|]|].
    + eapply same_on_subseteq; [exact Hsm1|]. do 2 apply union_subseteq_l'. done.
    + eapply same_on_subseteq; [exact Hsm2|]. do 2 apply union_subseteq_l'. done.
  - eapply seg_frame; [eapply seg_frame; [done|]|].
    + eapply same_on_subseteq; [exact Hsm1|]. apply union_subseteq_l', union_subseteq_r.
    + eapply same_on_subseteq; [exact Hsm2|]. apply union_subseteq_l', union_subseteq_r.
  - eapply same_on_trans.
    + eapply same_on_subseteq; [exact Hsm1|]. apply union_subseteq_r.
    + eapply same_on_subseteq; [exact Hsm2|]. apply union_subseteq_r.
Qed.

Lemma insert_branch_done s ch ex m2' F2 :
  around s F2 → tree s h a b ch F2 m2' →
  wps (insert_branch id (length r1) c (Done ch ex))
    (ins_post s0 X (S h) lo hi (m1 ++ m2' ++ m3) ex) s.
Proof.
  intros Ha Ht. unfold insert_branch. apply wp_bind. eapply wp_reads; [done|].
  case_bool_decide as Hc; [subst ch; destruct (ps_is_dirty id s); cbn [andb negb]|]; cbn [andb].
  2:{ apply wp_ret. by eapply around_done. }
  all: apply wp_bind_then; eapply wp_mono;
    [apply around_cow; [exact Ha|eapply (tree_root_id content_hash); [|exact Ht]]|].
  1,3: destruct Ha as (_&_&_&E&_); by eapply eff_ok.
  all: intros my_id s' (lm'&seps'&Hn&_&Hch'&_&Hs1&Hs3&Hsm&E&Hdj); apply wp_ret.
  all: split; [done|]; eexists; split; [exact E|].
  all: eapply branch_intro; [done| |exact Hdj|done]; rewrite Hch'.
  all: destruct Ha as (_&_&_&_&_&Hd2&Hd3).
  all: eapply (seg_app_intro _ _ _ _ _ _ F1 (F2 ∪ F3)); [done| |disj|unions|done].
  all: econstructor; [by eapply tree_frame|disj|done].
Qed.

Lemma insert_branch_split s l sep r ex n1 n2 G1 G2 :
  around s (G1 ∪ G2) → length sep ≤ MAX_KEY → G1 ## G2 →
  tree s h a (Some sep) l G1 n1 → tree s h (Some sep) b r G2 n2 →
  wps (insert_branch id (length r1) c (Split l sep r ex))
    (ins_post s0 X (S h) lo hi (m1 ++ (n1 ++ n2) ++ m3) ex) s.
Proof.
  intros Ha Hsep Hg Ht1 Ht2. unfold insert_branch. pose proof Ha as (_&_&_&E0&_&Hd2&Hd3).
  pose proof (eff_ok _ _ _ _ E0) as Hok.
  destruct (tree_root_id content_hash _ _ _ _ _ _ _ Hok Ht1) as [_ Hlu].
  destruct (tree_root_id content_hash _ _ _ _ _ _ _ Hok Ht2) as [_ Hru].
  apply wp_bind_then. eapply wp_mono; [by apply around_cow|].
  intros my_id s1 (lm'&seps'&Hn&Hdy&Hch'&Hlen&Hs1&Hs3&Hsm&E1&Hdj). cbv zeta.
  set (seps2 := insert_at (length r1) (sep, r) seps').
  assert (Hch2 : children lo lm' seps2 = r1 ++ (a, l) :: (Some sep, r) :: r2).
  { by eapply children_insert_at. }
  assert (Hseg : seg (tree s1 h) lo hi (children lo lm' seps2)
    (F1 ∪ F3 ∪ (G1 ∪ G2)) (m1 ++ (n1 ++ n2) ++ m3)).
  { rewrite Hch2. eapply (seg_app_intro _ _ _ _ _ _ F1 (G1 ∪ (G2 ∪ F3))); [done| |disj|unions|done].
    rewrite <- app_assoc. econstructor; [|disj|econstructor; [|disj|done]].
    - eapply tree_frame; [done|]. eapply same_on_subseteq; [exact Hsm|]. apply union_subseteq_l.
    - eapply tree_frame; [done|]. eapply same_on_subseteq; [exact Hsm|]. apply union_subseteq_r. }
  assert (Hwb : wf_branch (sep, r)) by done.
  assert (Hw2 : Forall wf_branch seps2) by (apply Forall_insert_at; [done|apply Hn]).
  assert (length r1 ≤ length seps') as Hidx.
  { pose proof (f_equal length Hch') as HL. rewrite length_children, length_app in HL.
    simpl in HL. lia. }
  apply wp_bind. eapply wp_reads.
  { rewrite page_law by apply Hn. cbn [mbind res_mbind]. eapply fits_ok; [apply Hn|].
    by apply (length_enc_branch_bound (sep, r)). }
  case_bool_decide as Hfit.
  - apply wp_bind. eapply wp_mono.
    { eapply (bnode_mut _ _ _ _ _ _ _ _ lm' seps2); [exact E1|exact Hn|done|done| |done|apply Hn].
      unfold seps2. rewrite map_insert_at. eapply insert_cell_rep; [apply Hn|by rewrite length_map| |done].
      by apply wf_cell_enc_branch. }
    intros [] s2 (Hn2&_&E2&Hsm2). apply wp_ret. split; [done|]. eexists. split; [exact E2|].
    eapply branch_intro; [done|by eapply seg_frame|exact Hdj|done].
  - apply wp_bind. eapply wp_reads.
    { rewrite page_law by apply Hn. cbn [mbind res_mbind]. eapply all_cells_ok. apply Hn. }
    apply wp_bind. eapply wp_reads.
    { rewrite page_law by apply Hn. cbn [mbind res_mbind]. done. }
    rewrite (nr_extra _ _ _ _ (bn_page _ _ _ _ Hn)).
    change (make_branch_cell sep r) with (enc_branch (sep, r)) in *.
    rewrite <- map_insert_at. apply wp_bind. eapply wp_mono.
    { eapply (split_branch_spec s1 h my_id lm' seps2); [by eapply eff_ok|apply Hn|done|done|apply Hn|exact Hseg|exact Hdj|].
      unfold seps2. rewrite map_insert_at, cell_sum_insert_at, cell_sum_eq.
      pose proof (length_enc_branch_bound _ Hwb). pose proof (node_fit _ _ _ _ (bn_page _ _ _ _ Hn)) as Hnf.
      rewrite cell_sum_eq in Hnf. sizes. }
    intros [up_sep up_right] s2 (Hus&K1&K2&k1&k2&E2&Hd12&Hm&Hk1&Hk2). apply wp_ret.
    split_and!; [done|done|]. exists K1, K2, k1, k2. split_and!; try done.
    by eapply eff_trans.
Qed.
End Around.

Lemma insert_rec_spec h fuel s lo hi id F m key val x C mode :
  ok s → tree s h lo hi id F m → ins_pre s mode key val x C F m →
  above lo key → below hi key → h < fuel →
  wps (insert_rec fuel id key val mode)
    (ins_post s (F ∪ C) h lo hi (kv_ins mode key x m).1 (kv_ins mode key x m).2) s.
Proof.
  revert fuel s lo hi id F m C.
  induction h as [|h IH]; intros [|fuel] s lo hi id F m C Hok Ht Hpre Hlo Hhi Hf; try lia;
    cbn [insert_rec]; apply wp_bind.
  - destruct (leaf_page _ _ _ _ _ _ _ Ht) as (Hpg&Hck&Hkind). eapply wp_reads.
    { rewrite Hpg. cbn [mbind res_mbind]. by rewrite Hck. }
    rewrite Hkind, bool_decide_true by done. by apply insert_leaf_spec.
  - destruct (branch_page _ _ _ _ _ _ _ Ht) as (Hpg&Hck&Hkind). eapply wp_reads.
    { rewrite Hpg. cbn [mbind res_mbind]. by rewrite Hck. }
    rewrite Hkind, bool_decide_false, bool_decide_true by done.
    pose proof Ht as (lm&seps&F0&Hn&Hs&Hfr&->).
    destruct (branch_descent content_hash _ _ _ _ _ _ _ _ _ key Hn Hs Hlo Hhi)
      as (r1&a&b&c&r2&F1&F2&F3&m1&m2&m3&Hdi&Hbc&_&Hch&Hs1&Ht2&Hs3&?&?&?&->&->&Ha&Hb&H1&H3).
    apply wp_bind. eapply wp_reads; [by rewrite Hpg|].
    apply wp_bind. eapply wp_reads; [by rewrite Hpg|]. apply wp_bind.
    apply disjoint_singleton_l in Hfr. destruct Hpre as [Hk Hlen Hpay Hdj Hold].
    rewrite kv_ins_middle by done. cbn [fst snd].
    assert (HlC : ∀ r, r ∈ C → live s r).
    { destruct (consumes _ _ _); [intros r; by apply (pay_live s val x C)|subst C].
      by intros r ?%elem_of_empty. }
    assert (E0 : eff s s ({[Pg id]} ∪ (F1 ∪ (F2 ∪ F3)) ∪ C) ({[Pg id]} ∪ (F1 ∪ (F2 ∪ F3)) ∪ C)).
    { apply eff_refl; [done|]. intros r [Hr|?]%elem_of_union; [|auto].
      by eapply (tree_live content_hash s (S h)). }
    eapply wp_mono.
    { eapply (IH fuel s a b c F2 m2 C); [done|done| |done|done|lia].
      split; [done|done| |disj|].
      - by rewrite consumes_middle in Hpay by done.
      - rewrite kv_get_middle in Hold; [done|by apply lt_not_elem_of|by apply gt_not_elem_of]. }
    assert (Haround : ∀ s1 G, eff s s1 (F2 ∪ C) G →
      around s ({[Pg id]} ∪ (F1 ∪ (F2 ∪ F3)) ∪ C) h lo hi id lm seps r1 r2 a b F1 F3 m1 m3 s1 G).
    { intros s1 G E1.
      destruct (own_step _ _ _ _ _ _ _ ({[Pg id]} ∪ (F1 ∪ F3)) E0 E1) as (E01&Hdj1&Hsm); [unions|disj|].
      split_and!.
      - eapply bnode_frame; [done|]. eapply same_on_subseteq; [done|]. apply union_subseteq_l.
      - eapply seg_frame; [done|]. eapply same_on_subseteq; [done|].
        apply union_subseteq_r', union_subseteq_l.
      - eapply seg_frame; [done|]. eapply same_on_subseteq; [done|].
        apply union_subseteq_r', union_subseteq_r.
      - replace ({[Pg id]} ∪ (F1 ∪ F3 ∪ G)) with (G ∪ ({[Pg id]} ∪ (F1 ∪ F3))) by unions. done.
      - disj.
      - disj.
      - done. }
    intros [ch e|l sep r e] s1.
    + intros (->&F2'&E1&Ht1). eapply insert_branch_done; eauto.
    + intros (->&Hsep&G1&G2&n1&n2&E1&Hg&Hmm&Ht1&Ht1'). rewrite Hmm.
      eapply insert_branch_split; eauto.
Qed.

(** The root: a first leaf, or the old root, or a new branch over a split. *)
Definition insert_post s F C m h mode key x (out : InsertOutcome) s' : Prop :=
  ins_existed out = (kv_ins mode key x m).2 ∧
  ∃ F' h', eff s s' (F ∪ C) F' ∧ h' ≤ S h ∧
    tree_rep content_hash s' h' (ins_root out) F' (kv_ins mode key x m).1.

Lemma insert_grow_spec s0 X s h l sep r F1 F2 m1 m2 e :
  eff s0 s X (F1 ∪ F2) → F1 ## F2 → length sep ≤ MAX_KEY →
  tree s h None (Some sep) l F1 m1 → tree s h (Some sep) None r F2 m2 →
  wps (new_root ← ps_alloc;
       with_page_mut new_root (init_node KIND_BRANCH;; set_extra l);;
       with_page_mut new_root (insert_cell 0 (make_branch_cell sep r));;
       mret (MkInsertOutcome new_root e))
    (λ out s', ins_existed out = e ∧ ∃ F', eff s0 s' X F' ∧
       tree_rep content_hash s' (S h) (ins_root out) F' (m1 ++ m2)) s.
Proof.
  intros E Hd Hsep Ht1 Ht2. pose proof (eff_ok _ _ _ _ E) as Hok.
  destruct (tree_root_id content_hash _ _ _ _ _ _ _ Hok Ht1) as [_ Hlu].
  destruct (tree_root_id content_hash _ _ _ _ _ _ _ Hok Ht2) as [_ Hru].
  apply wp_bind. eapply wp_mono; [by apply alloc_law|]. intros id s1 (E1&_&Hd1).
  destruct (own_step _ _ _ _ _ _ _ (F1 ∪ F2) E E1) as (E01&Hdj1&Hsm1); [unions|disj|].
  assert (Hl1 : live s1 (Pg id)) by (eapply eff_live; [exact E1|by apply elem_of_singleton]).
  apply wp_bind. eapply wp_page_mut; [by eapply eff_ok|done|done|].
  apply wp_bind. eapply wp_mono; [apply init_node_rep, length_law; [by eapply eff_ok|done]|].
  intros [] q0 Hq0. eapply wp_mono; [by eapply set_extra_rep|].
  intros [] q Hq. split; [apply Hq|]. intros s2 E2 Hb2 Hd2.
  destruct (own_step _ _ _ _ _ _ _ (F1 ∪ F2) E01 E2) as (E02&Hdj2&Hsm2); [done|disj|].
  assert (Hn2 : bnode s2 id l []).
  { split; [|by rewrite Hb2|constructor|done]. eapply eff_live; [exact E2|by apply elem_of_singleton]. }
  apply wp_bind. eapply wp_mono.
  { eapply (bnode_mut _ _ _ _ _ _ _ _ l [(sep, r)]); [exact E02|exact Hn2|done|done| |by apply Forall_singleton|done].
    rewrite Hb2. eapply (insert_cell_rep _ _ _ [] 0); [done|simpl; lia|by apply (wf_cell_enc_branch (sep, r))|].
    pose proof (length_enc_branch_bound (sep, r) (conj Hsep Hru)) as HL.
    unfold enc_branch in HL. cbn [fst snd] in HL. cbn [length total_len map sum_list]. sizes. }
  intros [] s3 (Hn3&_&E3&Hsm3). apply wp_ret. split; [done|]. eexists. split; [exact E3|].
  assert (same_on s s3 (F1 ∪ F2)) as Hsm.
  { eapply same_on_trans; [|done]. by eapply same_on_trans. }
  assert (tree s3 (S h) None None id ({[Pg id]} ∪ (F1 ∪ F2)) (m1 ++ m2)) as Ht.
  { eapply branch_intro; [done| |exact Hdj2|done]. rewrite children_cons.
    econstructor; [|done|apply seg_one].
    - eapply tree_frame; [done|]. eapply same_on_subseteq; [done|]. apply union_subseteq_l.
    - eapply tree_frame; [done|]. eapply same_on_subseteq; [done|]. apply union_subseteq_r. }
  right. split; [|done]. eapply (tree_root_id content_hash); [|exact Ht]. by eapply eff_ok.
Qed.

Lemma insert_empty_spec s key val x C mode :
  ok s → ins_pre s mode key val x C ∅ [] → drained val →
  wps (id ← ps_alloc;
       with_page_mut id (init_node KIND_LEAF);;
       overflow_page ← (if bool_decide (MAX_INLINE_VAL < payload_len val) then write_overflow val
                        else mret 0%Z);
       with_page_mut id (insert_cell 0 (make_leaf_cell key val overflow_page));;
       mret (MkInsertOutcome id false))
    (insert_post s ∅ C [] 0 mode key x) s.
Proof.
  intros Hok [Hk Hlen Hpay _ _] Hdr. simpl in Hpay.
  assert (E0 : eff s s C C) by (apply eff_refl; [done|intros r; by apply (pay_live s val x C)]).
  apply wp_bind. eapply wp_mono; [by apply alloc_law|]. intros id s1 (E1&_&Hd1).
  destruct (own_step _ _ _ _ _ _ _ C E0 E1) as (E01&Hdj1&Hsm1); [unions|disj|].
  assert (Hl1 : live s1 (Pg id)) by (eapply eff_live; [exact E1|by apply elem_of_singleton]).
  apply wp_bind. eapply wp_page_mut; [by eapply eff_ok|done|done|].
  eapply wp_mono; [apply init_node_rep, length_law; [by eapply eff_ok|done]|].
  intros [] q Hq. split; [apply Hq|]. intros s2 E2 Hb2 Hd2.
  destruct (own_step _ _ _ _ _ _ _ C E01 E2) as (E02&Hdj2&Hsm2); [done|done|].
  apply wp_bind. eapply wp_mono.
  { eapply first_cell_spec; [by eapply eff_ok| |done|done].
    by eapply pay_frame; [eapply pay_frame|]. }
  intros op s3 (lv&C'&->&Hwv&Hv&E3).
  destruct (own_step _ _ _ _ _ _ _ {[Pg id]} E02 E3) as (E03&Hdj3&Hsm3); [unions|disj|].
  destruct (proj1 Hsm3 (Pg id)) as [Hl3 [Hb3 Hd3]]; [by apply elem_of_singleton|].
  apply wp_bind. eapply wp_page_mut; [by eapply eff_ok|done|congruence|]. rewrite Hb3, Hb2.
  eapply wp_mono.
  { eapply (insert_cell_rep _ _ _ [] 0); [done|simpl; lia|by apply wf_cell_enc_leaf|].
    pose proof (length_enc_leaf_bound (key, lv) (conj Hk Hwv)).
    cbn [length total_len map sum_list]. sizes. }
  intros [] q' Hq'. split; [apply Hq'|]. intros s4 E4 Hb4 Hd4. apply wp_ret.
  destruct (own_step _ _ _ _ _ _ _ C' E03 E4) as (E04&Hdj4&Hsm4); [unions|disj|].
  assert (tree s4 0 None None id ({[Pg id]} ∪ C') [(key, x)]) as Ht.
  { exists [(key, lv)], C'. split_and!; [|done|].
    - split; [|by rewrite Hb4|by apply Forall_singleton| |by apply disjoint_singleton_l].
      + eapply eff_live; [exact E4|by apply elem_of_singleton].
      + rewrite <- (right_id_L ∅ (∪) C'). constructor; [by eapply val_frame|disj|constructor].
    - split; [done| |by apply Forall_singleton|by apply Forall_singleton].
      repeat constructor. }
  split; [done|]. exists ({[Pg id]} ∪ C'), 0. split_and!; [by rewrite (left_id_L ∅ (∪))|lia|].
  right. split; [|done]. eapply (tree_root_id content_hash); [|exact Ht]. by eapply eff_ok.
Qed.

Lemma insert_spec s h fuel root F m key val x C mode :
  ok s → tree_rep content_hash s h root F m → ins_pre s mode key val x C F m →
  h < fuel → (root = 0%Z → drained val) →
  wps (insert fuel root key val mode) (insert_post s F C m h mode key x) s.
Proof.
  intros Hok Ht Hpre Hf Hdr. unfold insert. rewrite bool_decide_false by apply Nat.le_ngt, Hpre.
  rewrite bool_decide_false by (destruct Hpre; lia). destruct Ht as [(->&->&->)|[Hr Ht]].
  - rewrite bool_decide_true by done. eapply wp_mono; [by apply insert_empty_spec; [| |apply Hdr]|].
    intros out s' [? (F'&h'&?&?&?)]. split; [done|]. exists F', h'. split_and!; [done|lia|done].
  - rewrite bool_decide_false by done. apply wp_bind.
    eapply wp_mono; [by eapply insert_rec_spec|]. intros [id e|l sep r e] s'.
    + intros (->&F'&E&Ht'). apply wp_ret. split; [done|]. exists F', h. split_and!; [done|lia|].
      right. split; [|done]. eapply (tree_root_id content_hash); [|exact Ht']. by eapply eff_ok.
    + intros (->&Hsep&F1&F2&m1&m2&E&Hd&Hm&Ht1&Ht2). eapply wp_mono; [by eapply insert_grow_spec|].
      intros out s2 (He&F'&E'&Ht'). split; [done|]. exists F', (S h). rewrite Hm. done.
Qed.

(** ** Rejected inputs *)

Lemma insert_long_key fuel root key val mode s :
  MAX_KEY < length key →
  insert fuel root key val mode s = (Err (Unsupported "encoded key too long"), s).
Proof. intros Hk. unfold insert. by rewrite bool_decide_true by done. Qed.
End Insert.
