(* ===== verification/BtreeDelete.v ===== *)
(** Deletion from the B+tree of [crates/mpedb-core/src/btree.rs] implements
    deletion from the sorted map: leaf merges, removal of emptied children
    and the collapse of single-child roots keep a well-formed tree. *)

From S2P Require Import Prelude BtreeNode PageStore Btree Overflow KvMap BtreeRep BtreeInsert.

Section Delete.
Context {St : Type} `{!PageStore St, !StoreView St, !StoreLaws St}.
Context (content_hash : bytes → Z).
Implicit Types (s : St) (F : rset) (m : kvs) (lo hi : bnd).

Abbreviation tree := (tree content_hash).
Abbreviation leaf := (leaf content_hash).
Abbreviation lnode := (lnode content_hash).

(** What a deletion below leaves: a subtree, or nothing (id 0). *)
Definition del_post s0 X h lo hi m' (existed : bool) (r : Del) s' : Prop :=
  d_existed r = existed ∧
  (new_id r = 0%Z ∧ m' = [] ∧ eff s0 s' X ∅ ∨
   new_id r ≠ 0%Z ∧ ∃ F', eff s0 s' X F' ∧ tree s' h lo hi (new_id r) F' m').

Definition bound_in (key : bytes) m : bool := bool_decide (is_Some (kv_get key m)).

(** * Leaves *)

Lemma delete_leaf_spec s lo hi id F m key :
  ok s → leaf s lo hi id F m →
  (∀ y, kv_get key m = Some y → (Z.of_nat (length y) ≤ MAX_FREEABLE)%Z) →
  wps (delete_leaf id key) (del_post s F 0 lo hi (kv_del key m) (bound_in key m)) s.
Proof.
  intros Hok Hleaf Hold. pose proof Hleaf as (es&F0&Hn&->&Hg). unfold bound_in.
  destruct (found_leaf content_hash _ _ _ _ _ key Hn (g_sorted _ _ _ Hg)) as (f&Hf&Hspec).
  unfold delete_leaf. apply wp_bind. eapply wp_reads.
  { rewrite page_law by apply Hn. exact Hf. }
  destruct f as [pos|pos].
  - destruct (found_entry content_hash _ _ _ _ _ _ _ Hn (g_sorted _ _ _ Hg) Hspec)
      as (lv&y&Hes&Hm&Hget&->&_). rewrite Hget in *. apply wp_bind.
    eapply wp_mono; [eapply (cow_leaf content_hash s id es F0 m ∅); [done|done|disj|by intros r ?%elem_of_empty]|].
    intros id' s1 (Hn1&Hd1&E1&Hdj1&_). rewrite !(right_id_L ∅ (∪)) in E1.
    apply wp_bind. eapply wp_mono.
    { eapply (leaf_drop_spec content_hash); [by eapply eff_ok|done|done|done|done|by apply Hold]. }
    intros [] s2 (F1&Hn2&Hd2&E2). pose proof (eff_trans _ _ _ _ _ _ E1 E2) as E02.
    apply wp_bind. eapply wp_reads; [by rewrite page_law by apply Hn2|].
    pose proof (vals_length _ _ _ _ _ (ln_vals _ _ _ _ _ _ Hn2)) as Hlen.
    rewrite (nr_nkeys _ _ _ _ (ln_page _ _ _ _ _ _ Hn2)), length_map.
    case_bool_decide as Hz.
    + destruct (base.delete pos m) as [|e0 m0] eqn:Hdm; [|simpl in Hlen; lia].
      apply wp_bind. eapply wp_mono; [apply free_law; [by eapply eff_ok|apply Hn2]|].
      intros [] s3 E3. apply wp_ret. split; [done|]. left. split_and!; [done|done|].
      pose proof (ln_vals _ _ _ _ _ _ Hn2) as Hv. inversion Hv; subst.
      rewrite (right_id_L ∅ (∪)) in E02. by eapply eff_trans.
    + apply wp_ret. split; [done|]. right. cbn [new_id].
      split; [pose proof (id_law s2 id' (eff_ok _ _ _ _ E02) (ln_live _ _ _ _ _ _ Hn2)); lia|].
      eexists. split; [exact E02|]. exists (base.delete pos es), F1. split_and!; [done|done|].
      destruct Hg as [_ Hs Hlo Hhi]. split.
      * intros Hnil. rewrite Hnil in Hlen. by rewrite Hlen in Hz.
      * destruct (kv_found m pos key y Hs Hm) as (_&<-&_). by apply kv_del_sorted.
      * change ((base.delete pos m).*1) with (map fst (base.delete pos m)). rewrite Prelude.map_delete. by apply Forall_delete_list.
      * change ((base.delete pos m).*1) with (map fst (base.delete pos m)). rewrite Prelude.map_delete. by apply Forall_delete_list.
  - rewrite (notfound_get _ _ _ Hspec). apply wp_ret. split; [done|]. right. cbn [new_id].
    split; [pose proof (id_law s id Hok (ln_live _ _ _ _ _ _ Hn)); lia|].
    exists ({[Pg id]} ∪ F0). split.
    + apply eff_refl; [done|]. intros r Hr. by eapply (tree_live content_hash s 0).
    + rewrite kv_del_absent; [done|]. by apply kv_get_None, (notfound_get _ _ _ Hspec).
Qed.

(** * Merging two leaves *)

Lemma merge_cells_spec k lm cs pre l s :
  ok s → live s (Pg l) → ps_is_dirty l s = true → node_rep (bytes_at s l) k lm pre →
  Forall (wf_cell k) cs → HDR + cell_sum (pre ++ cs) ≤ PAGE_SIZE →
  wps (merge_cells (length pre) cs l)
    (λ _ s', eff s s' {[Pg l]} {[Pg l]} ∧ node_rep (bytes_at s' l) k lm (pre ++ cs) ∧
             ps_is_dirty l s' = true) s.
Proof.
  revert pre s. induction cs as [|c cs IH]; intros pre s Hok Hl Hd Hr Hf Hsz; cbn [merge_cells].
  { apply wp_ret. rewrite app_nil_r. split_and!; [|done|done].
    apply eff_refl; [done|]. by intros ? ->%elem_of_singleton. }
  inversion Hf as [|? ? Hwf Hf']; subst. apply wp_bind.
  eapply wp_reads; [by rewrite page_law|]. apply wp_bind.
  apply (wp_mono _ _ (λ _ s1, eff s s1 {[Pg l]} {[Pg l]} ∧ ps_is_dirty l s1 = true ∧
    node_rep (bytes_at s1 l) k lm pre)).
  { case_bool_decide.
    - eapply wp_page_mut; [done|done|done|]. eapply wp_mono; [by eapply compact_rep|].
      intros [] q [Hq _]. split; [apply Hq|]. intros s1 E1 Hb1 Hd1. by rewrite Hb1.
    - apply wp_ret. split_and!; [|done|done]. apply eff_refl; [done|].
      by intros ? ->%elem_of_singleton. }
  intros [] s1 (E1&Hd1&Hr1).
  assert (live s1 (Pg l)) by (eapply eff_live; [exact E1|by apply elem_of_singleton]).
  apply wp_bind. eapply wp_page_mut; [by eapply eff_ok|done|done|]. eapply wp_mono.
  { eapply insert_cell_rep; [exact Hr1|lia|done|]. rewrite cell_sum_app in Hsz.
    rewrite !cell_sum_eq in Hsz. unfold total_len in *. cbn [map length sum_list id] in Hsz. lia. }
  intros [] q Hq. rewrite insert_at_end in Hq. split; [apply Hq|]. intros s2 E2 Hb2 Hd2.
  rewrite (cons_middle c), app_assoc.
  replace (S (length pre)) with (length (pre ++ [c])) by (rewrite length_app; simpl; lia).
  eapply wp_mono; [apply IH|].
  - by eapply eff_ok.
  - eapply eff_live; [exact E2|by apply elem_of_singleton].
  - done.
  - by rewrite Hb2.
  - done.
  - by rewrite <- app_assoc.
  - intros [] s3 (E3&?&?). split_and!; [|done|done].
    eapply eff_trans; [exact E1|]. by eapply eff_trans.
Qed.

(** Both leaves in one page; the right page is free again. *)
Lemma join_leaves_spec s0 X s cl cr es1 es2 A1 A2 n1 n2 R :
  lnode s cl es1 A1 n1 → lnode s cr es2 A2 n2 →
  eff s0 s X (R ∪ ({[Pg cl]} ∪ A1 ∪ ({[Pg cr]} ∪ A2))) →
  R ## {[Pg cl]} ∪ A1 ∪ ({[Pg cr]} ∪ A2) → {[Pg cl]} ∪ A1 ## {[Pg cr]} ∪ A2 →
  HDR + cell_sum (map enc_leaf es1 ++ map enc_leaf es2) ≤ PAGE_SIZE →
  wps (join_leaves cl cr)
    (λ l' s', lnode s' l' (es1 ++ es2) (A1 ∪ A2) (n1 ++ n2) ∧ same_on s s' R ∧
       eff s0 s' X (R ∪ ({[Pg l']} ∪ (A1 ∪ A2))) ∧ R ## {[Pg l']} ∪ (A1 ∪ A2)) s.
Proof.
  intros Hl1 Hl2 E0 Hd1 Hd4 Hsz. unfold join_leaves.
  assert ({[Pg cl]} ## A1 ∧ {[Pg cr]} ## A2) as [Hda1 Hda2].
  { split; apply disjoint_singleton_l; [apply Hl1|apply Hl2]. }
  apply wp_bind. eapply wp_mono; [apply cow_spec; [by eapply eff_ok|apply Hl1]|].
  intros l' s1 (E1&Hb1&Hdy1).
  destruct (own_step _ _ _ _ _ _ _ (R ∪ (A1 ∪ A2) ∪ {[Pg cr]}) E0 E1)
    as (E01&Hdj1&Hsm1); [unions|disj|].
  assert (Hl2' : lnode s1 cr es2 A2 n2).
  { eapply lnode_frame; [done|]. eapply same_on_subseteq; [done|].
    intros y. rewrite !elem_of_union. tauto. }
  assert (Hliv1 : live s1 (Pg l')) by (eapply eff_live; [exact E1|by apply elem_of_singleton]).
  apply wp_bind. eapply wp_reads.
  { rewrite page_law by apply Hl2'. cbn [mbind res_mbind]. eapply all_cells_ok, Hl2'. }
  apply wp_bind. eapply wp_reads; [by rewrite page_law|].
  rewrite Hb1, (nr_nkeys _ _ _ _ (ln_page _ _ _ _ _ _ Hl1)). apply wp_bind.
  eapply wp_mono.
  { eapply merge_cells_spec; [by eapply eff_ok|done|done|by rewrite Hb1; apply Hl1| |exact Hsz].
    apply Forall_map. eapply Forall_impl; [apply Hl2|]. apply wf_cell_enc_leaf. }
  intros [] s2 (E2&Hr2&Hdy2).
  destruct (own_step _ _ _ _ _ _ _ (R ∪ (A1 ∪ A2) ∪ {[Pg cr]}) E01 E2)
    as (E02&Hdj2&Hsm2); [done|done|].
  destruct (proj1 Hsm2 (Pg cr)) as [Hlr2 _]; [by apply elem_of_union_r, elem_of_singleton|].
  apply wp_bind. eapply wp_mono; [apply free_law; [by eapply eff_ok|exact Hlr2]|].
  intros [] s3 E3. apply wp_ret.
  destruct (own_step _ _ _ _ _ _ _ ({[Pg l']} ∪ (R ∪ (A1 ∪ A2))) E02 E3)
    as (E03&_&Hsm3); [unions|disj|]. rewrite (left_id_L ∅ (∪)) in E03.
  assert (Hsm : same_on s s3 (R ∪ (A1 ∪ A2))).
  { eapply same_on_trans; [eapply same_on_trans|].
    - eapply same_on_subseteq; [exact Hsm1|]. apply union_subseteq_l.
    - eapply same_on_subseteq; [exact Hsm2|]. apply union_subseteq_l.
    - eapply same_on_subseteq; [exact Hsm3|]. apply union_subseteq_r. }
  destruct (proj1 Hsm3 (Pg l')) as [Hll3 [Hbl3 _]]; [by apply elem_of_union_l, elem_of_singleton|].
  split_and!; [|eapply same_on_subseteq; [exact Hsm|apply union_subseteq_l]| |disj].
  - split; [done|by rewrite Hbl3, map_app| | |].
    + apply Forall_app. split; [apply Hl1|apply Hl2].
    + eapply vals_frame; [eapply (vals_app_intro content_hash _ _ _ A1 A2);
        [apply Hl1|apply Hl2|disj|done]|].
      eapply same_on_subseteq; [exact Hsm|]. apply union_subseteq_r.
    + apply disjoint_singleton_l. disj.
  - replace (R ∪ ({[Pg l']} ∪ (A1 ∪ A2))) with ({[Pg l']} ∪ (R ∪ (A1 ∪ A2))) by unions. done.
Qed.

(** The branch loses the cell that pointed to the right leaf. *)
Lemma rewire_spec s0 X s lo hi id lm seps r1 r2 a k b cl cr l' F1 F3 G m1 n m3 :
  bnode s id lm seps → ps_is_dirty id s = true →
  children lo lm seps = r1 ++ (a, cl) :: (Some k, cr) :: r2 →
  seg (tree s 0) lo a r1 F1 m1 → seg (tree s 0) b hi r2 F3 m3 → tree s 0 a b l' G n →
  eff s0 s X ({[Pg id]} ∪ (F1 ∪ F3 ∪ G)) → {[Pg id]} ## F1 ∪ F3 ∪ G → F1 ∪ F3 ## G → F1 ## F3 →
  wps (with_page_mut id (set_branch_child (length r1) l';; remove_cell (length r1)))
    (λ _ s', ∃ F', eff s0 s' X F' ∧ tree s' 1 lo hi id F' (m1 ++ n ++ m3)) s.
Proof.
  intros Hn Hdy Hch Hs1 Hs3 Ht E0 Hd1 Hd2 Hd3.
  destruct (tree_root_id content_hash _ _ _ _ _ _ _ (eff_ok _ _ _ _ E0) Ht) as [_ Hidl].
  assert (length r1 < length seps) as Hidx.
  { pose proof (f_equal length Hch) as HL. rewrite length_children, length_app in HL. simpl in HL. lia. }
  assert (Hch' : children lo (set_child (length r1) l' lm seps).1 (set_child (length r1) l' lm seps).2
    = r1 ++ (a, l') :: (Some k, cr) :: r2) by by eapply children_set_child.
  eapply wp_mono.
  { eapply (bnode_mut _ _ _ id lm seps _ _ (set_child (length r1) l' lm seps).1
      (base.delete (length r1) (set_child (length r1) l' lm seps).2));
      [exact E0|done|done|done| | |].
    - apply wp_bind. eapply wp_mono; [apply set_branch_child_rep; [apply Hn|apply Hn|lia|done]|].
      intros [] q Hq. rewrite Prelude.map_delete. eapply remove_cell_rep; [done|].
      rewrite length_map. destruct (length r1); cbn [set_child snd]; rewrite ?length_alter; lia.
    - apply Forall_delete_list. destruct (length r1); [apply Hn|]. cbn [set_child snd].
      apply Forall_alter; [apply Hn|]. by intros e He [??].
    - destruct (length r1); [done|apply Hn]. }
  intros [] s4 (Hn4&_&E4&Hsm4). eexists. split; [exact E4|].
  eapply branch_intro; [done| |exact Hd1|done].
  rewrite (children_delete lo _ _ (length r1) (r1 ++ [(a, l')]) (Some k, cr) r2);
    [|by rewrite Hch', <- app_assoc|rewrite length_app; simpl; lia].
  rewrite <- app_assoc. cbn [app].
  eapply (seg_app_intro _ _ _ _ _ _ F1 (G ∪ F3)); [| |disj|unions|done].
  - eapply seg_frame; [done|]. eapply same_on_subseteq; [done|]. apply union_subseteq_l', union_subseteq_l.
  - econstructor; [|disj|].
    + eapply tree_frame; [done|]. eapply same_on_subseteq; [done|]. apply union_subseteq_r.
    + eapply seg_frame; [done|]. eapply same_on_subseteq; [done|]. apply union_subseteq_l', union_subseteq_r.
Qed.

(** Two adjacent children. *)
Lemma seg_focus_two s h lo hi lm seps F m i :
  seg (tree s h) lo hi (children lo lm seps) F m → i < length seps →
  ∃ r1 a k b cl cr r2 F1 G1 G2 F3 m1 n1 n2 m3,
    children lo lm seps = r1 ++ (a, cl) :: (Some k, cr) :: r2 ∧ length r1 = i ∧
    seg (tree s h) lo a r1 F1 m1 ∧ tree s h a (Some k) cl G1 n1 ∧
    tree s h (Some k) b cr G2 n2 ∧ seg (tree s h) b hi r2 F3 m3 ∧
    F1 ∪ F3 ## G1 ∪ G2 ∧ F1 ## F3 ∧ G1 ## G2 ∧ F = F1 ∪ F3 ∪ (G1 ∪ G2) ∧
    m = m1 ++ (n1 ++ n2) ++ m3.
Proof.
  intros Hs Hi. destruct (seg_focus _ _ _ _ _ _ _ i Hs)
    as (r1&a&b&cl&r2&F1&F2&F3&m1&m2&m3&Hch&Hl&Hs1&Ht&Hs3&?&?&?&->&->); [lia|].
  assert (∃ k cr r2', r2 = (Some k, cr) :: r2') as (k&cr&r2'&->).
  { destruct r2 as [|[o cr] r2].
    - pose proof (f_equal length Hch) as HL. rewrite length_children, length_app in HL. simpl in HL. lia.
    - pose proof (children_tail lo lm seps) as Hf. rewrite Hch in Hf.
      assert (is_Some o) as [k ->]; [|eauto].
      destruct r1; simpl in Hf; [by inversion Hf|].
      apply Forall_app in Hf as [_ Hf]. inversion Hf as [|? ? _ Hf2]. by inversion Hf2. }
  apply seg_cons_inv in Hs3 as (b'&G2&F4&n2&m4&<-&Ht2&Hs4&?&->&->).
  exists r1, a, k, b', cl, cr, r2', F1, F2, G2, F4, m1, m2, n2, m4.
  split_and!; try done; [disj|disj|disj|unions|by rewrite <- app_assoc].
Qed.

Lemma leaf_used s lo hi c F m : leaf s lo hi c F m →
  ∃ es F0, lnode s c es F0 m ∧ good lo hi m ∧ F = {[Pg c]} ∪ F0 ∧
    used c s = Ok (cell_sum (map enc_leaf es)).
Proof.
  intros (es&F0&Hn&->&Hg). exists es, F0. split_and!; try done. unfold used.
  rewrite page_law by apply Hn. cbn [mbind res_mbind].
  rewrite (used_cell_bytes_ok _ _ _ _ (ln_page _ _ _ _ _ _ Hn)). cbn [mbind res_mbind].
  rewrite (nr_nkeys _ _ _ _ (ln_page _ _ _ _ _ _ Hn)), cell_sum_eq. f_equal. lia.
Qed.

Section Merge.
Context (s0 s : St) (X : rset) (lo hi : bnd) (id lm : Z) (seps : list (bytes * Z)).
Context (F0 : rset) (m : kvs).
Context (Hn : bnode s id lm seps) (Hdy : ps_is_dirty id s = true).
Context (Hd : {[Pg id]} ## F0) (E : eff s0 s X ({[Pg id]} ∪ F0)).

Lemma branch_same h : seg (tree s h) lo hi (children lo lm seps) F0 m →
  ∃ F', eff s0 s X F' ∧ tree s (S h) lo hi id F' m.
Proof. intros Hs. exists ({[Pg id]} ∪ F0). split; [done|]. by eapply branch_intro. Qed.

Lemma merge_siblings_spec li :
  seg (tree s 0) lo hi (children lo lm seps) F0 m → S li ≤ length seps →
  wps (merge_siblings id li (S li))
    (λ _ s', ∃ F', eff s0 s' X F' ∧ tree s' 1 lo hi id F' m) s.
Proof.
  intros Hs Hri. pose proof (branch_same 0 Hs) as Hsame.
  destruct (seg_focus_two _ _ _ _ _ _ _ _ li Hs)
    as (r1&a&k&b&cl&cr&r2&F1&G1&G2&F3&m1&n1&n2&m3&Hch&<-&Hs1&Ht1&Ht2&Hs3&?&?&?&HF&Hm); [lia|].
  pose proof (page_law s id (bn_live _ _ _ _ Hn)) as Hpg. unfold merge_siblings.
  apply wp_bind. eapply wp_reads; [rewrite Hpg; cbn [mbind res_mbind]; by eapply child_at|].
  apply wp_bind. eapply wp_reads.
  { rewrite Hpg. cbn [mbind res_mbind].
    eapply (child_at _ lo _ _ _ _ (r1 ++ [(a, cl)]) (Some k) cr r2); [done| |].
    - by rewrite Hch, <- app_assoc.
    - rewrite length_app. simpl. lia. }
  destruct (leaf_page _ _ _ _ _ _ _ Ht1) as (Hp1&Hc1&Hk1).
  destruct (leaf_page _ _ _ _ _ _ _ Ht2) as (Hp2&Hc2&Hk2).
  destruct (leaf_used _ _ _ _ _ _ Ht1) as (es1&A1&Hl1&Hg1&->&Hu1).
  destruct (leaf_used _ _ _ _ _ _ Ht2) as (es2&A2&Hl2&Hg2&->&Hu2).
  apply wp_bind. eapply wp_reads; [rewrite Hp1; exact Hc1|].
  apply wp_bind. eapply wp_reads; [rewrite Hp2; exact Hc2|].
  apply wp_bind. eapply wp_reads; [rewrite Hp1; done|].
  apply wp_bind. eapply wp_reads; [rewrite Hp2; done|]. rewrite Hk1, Hk2.
  rewrite bool_decide_false by (intros [Hx|Hx]; by apply Hx).
  apply wp_bind. eapply wp_reads; [exact Hu1|].
  apply wp_bind. eapply wp_reads; [exact Hu2|].
  case_bool_decide; [by apply wp_ret|]. apply wp_bind.
  pose proof Hd as Hd'. pose proof E as E'. rewrite HF in Hd', E'.
  eapply wp_mono.
  { eapply (join_leaves_spec s0 X s cl cr es1 es2 A1 A2 n1 n2 ({[Pg id]} ∪ (F1 ∪ F3)));
      [done|done| |disj|done|].
    - by rewrite <- (assoc_L (∪) {[Pg id]}).
    - rewrite cell_sum_app. sizes. }
  intros l' s1 (Hl'&Hsm&E1&Hdj). rewrite Hm.
  eapply (rewire_spec s0 X s1 lo hi id lm seps r1 r2 a k b cl cr l' F1 F3 ({[Pg l']} ∪ (A1 ∪ A2))).
  - eapply bnode_frame; [done|]. eapply same_on_subseteq; [done|]. apply union_subseteq_l.
  - destruct (proj1 Hsm (Pg id)) as [_ [_ Hx]]; [by apply elem_of_union_l, elem_of_singleton|congruence].
  - done.
  - eapply seg_frame; [done|]. eapply same_on_subseteq; [done|]. apply union_subseteq_r', union_subseteq_l.
  - eapply seg_frame; [done|]. eapply same_on_subseteq; [done|]. apply union_subseteq_r', union_subseteq_r.
  - eexists _, _. split_and!; [done|done|by eapply good_app].
  - by rewrite <- (assoc_L (∪) {[Pg id]}) in E1.
  - disj.
  - disj.
  - disj.
Qed.

Lemma try_merge_leaves_spec h idx :
  seg (tree s h) lo hi (children lo lm seps) F0 m → idx ≤ length seps →
  wps (try_merge_leaves id idx)
    (λ _ s', ∃ F', eff s0 s' X F' ∧ tree s' (S h) lo hi id F' m) s.
Proof.
  intros Hs Hidx. pose proof (branch_same h Hs) as Hsame.
  pose proof (page_law s id (bn_live _ _ _ _ Hn)) as Hpg.
  destruct (seg_focus _ _ _ _ _ _ _ idx Hs Hidx)
    as (r1&a&b&c&r2&F1&F2&F3&m1&m2&m3&Hch&Hlen&_&Ht&_).
  destruct (tree_page _ _ _ _ _ _ _ _ Ht) as (Hpc&Hcc&Hkc). unfold try_merge_leaves.
  apply wp_bind. eapply wp_reads; [by rewrite Hpg|]. cbv beta.
  rewrite (nr_nkeys _ _ _ _ (bn_page _ _ _ _ Hn)), length_map.
  apply wp_bind. eapply wp_reads.
  { rewrite Hpg. cbn [mbind res_mbind]. by eapply child_at. }
  apply wp_bind. eapply wp_reads; [rewrite Hpc; exact Hcc|].
  apply wp_bind. eapply wp_reads; [rewrite Hpc; done|]. rewrite Hkc.
  destruct h as [|h]; [rewrite bool_decide_false by (intros Hx; by apply Hx)|
    by rewrite bool_decide_true; [apply wp_ret|]].
  destruct (leaf_used _ _ _ _ _ _ Ht) as (es&A&_&_&_&Hu).
  apply wp_bind. eapply wp_reads; [exact Hu|]. case_bool_decide; [by apply wp_ret|].
  case_bool_decide; [by apply merge_siblings_spec|].
  destruct idx as [|i]; [by apply wp_ret|by apply merge_siblings_spec].
Qed.
End Merge.

(** * Deletion below a branch *)

(** Dropping the emptied child at the focus widens its neighbours' bounds. *)
Lemma good_widen_lo lo k m : good lo (Some k) m → ∀ x, above (Some k) x → above lo x.
Proof.
  intros [Hn _ Hl Hh] x Hx. destruct lo as [l|]; [|done]. destruct m as [|[k0 v] m]; [done|].
  inversion Hl; subst. inversion Hh; subst. simpl in *. korder.
Qed.

Lemma good_widen_hi k hi m : good (Some k) hi m → ∀ x, below (Some k) x → below hi x.
Proof.
  intros [Hn _ Hl Hh] x Hx. destruct hi as [l|]; [|done]. destruct m as [|[k0 v] m]; [done|].
  inversion Hl; subst. inversion Hh; subst. simpl in *. korder.
Qed.

Section Around.
Context (s0 : St) (X : rset) (h : nat) (lo hi : bnd) (id lm : Z) (seps : list (bytes * Z)).
Context (r1 r2 : list (bnd * Z)) (a b : bnd) (c : Z) (F1 F3 : rset) (m1 m3 : kvs).
Context (Hch : children lo lm seps = r1 ++ (a, c) :: r2).
Abbreviation around := (around content_hash s0 X h lo hi id lm seps r1 r2 a b F1 F3 m1 m3).

Lemma focus_bound : length r1 ≤ length seps.
Proof.
  pose proof (f_equal length Hch) as HL. rewrite length_children, length_app in HL. simpl in HL. lia.
Qed.

(** The child is still there. *)
Lemma delete_branch_kept s ch ex m2' F2 :
  around s F2 → tree s h a b ch F2 m2' →
  wps (delete_branch id (length r1) c (MkDel ch ex))
    (del_post s0 X (S h) lo hi (m1 ++ m2' ++ m3) ex) s.
Proof.
  intros Ha Ht. unfold delete_branch. cbn [d_existed new_id].
  pose proof Ha as (_&_&_&E0&_&Hd2&Hd3). pose proof (eff_ok _ _ _ _ E0) as Hok.
  destruct (tree_root_id content_hash _ _ _ _ _ _ _ Hok Ht) as [Hch0 Hcu].
  apply wp_bind. eapply wp_reads; [done|].
  destruct (negb ex && bool_decide (ch = c) && negb (ps_is_dirty id s)) eqn:Hskip.
  - apply andb_prop in Hskip as [[Hex Hcc]%andb_prop _]. apply bool_decide_eq_true in Hcc. subst ch.
    destruct ex; [done|].
    destruct (around_done content_hash s0 X h lo hi id lm seps r1 r2 a b c F1 F3 m1 m3 Hch s false m2' F2 Ha Ht)
      as [_ (F'&E'&Ht')].
    apply wp_ret. split; [done|]. right. cbn [new_id].
    split; [by eapply (tree_root_id content_hash); [|exact Ht']|]. eauto.
  - rewrite bool_decide_true by done.
    apply wp_bind_then. eapply wp_mono; [by apply (around_cow content_hash s0 X h lo hi id lm seps r1 r2 a b c F1 F3 m1 m3 Hch)|].
    intros my_id s1 (lm'&seps'&Hn&Hdy&Hch'&Hlen&Hs1&Hs3&Hsm&E1&Hdj). apply wp_bind.
    eapply wp_mono.
    { eapply (try_merge_leaves_spec s0 s1 X lo hi my_id lm' seps'); [done|done|exact Hdj|exact E1| |].
      - rewrite Hch'. eapply (seg_app_intro _ _ _ _ _ _ F1 (F2 ∪ F3)); [done| |disj|unions|done].
        econstructor; [by eapply tree_frame|disj|done].
      - rewrite Hlen. apply focus_bound. }
    intros [] s2 (F'&E2&Ht2). apply wp_ret. split; [done|]. right. cbn [new_id].
    split; [eapply (tree_root_id content_hash); [by eapply eff_ok|exact Ht2]|]. eauto.
Qed.

End Around.

(** The child is gone. *)
Lemma delete_branch_gone s0 X h lo hi id lm seps r1 r2 a b c F1 F3 m1 m2 m3 s ex :
  children lo lm seps = r1 ++ (a, c) :: r2 → good a b m2 →
  around content_hash s0 X h lo hi id lm seps r1 r2 a b F1 F3 m1 m3 s ∅ → c ≠ 0%Z →
  wps (delete_branch id (length r1) c (MkDel 0 ex))
    (del_post s0 X (S h) lo hi (m1 ++ m3) ex) s.
Proof.
  intros Hch Hg (Hn&Hs1&Hs3&E0&Hd1&Hd2&Hd3) Hc. unfold delete_branch. cbn [d_existed new_id].
  rewrite (right_id_L ∅ (∪)) in E0, Hd1.
  apply wp_bind. eapply wp_reads; [done|]. rewrite (bool_decide_false (0%Z = c)) by done.
  rewrite andb_false_r. cbn [andb]. apply wp_bind.
  eapply wp_mono; [by eapply cow_bnode|]. intros my_id s1 (Hn1&Hdy1&E1&Hdj1&Hsm1).
  rewrite bool_decide_false by (intros Hx; by apply Hx).
  apply wp_bind. eapply wp_reads; [by rewrite page_law by apply Hn1|]. cbv beta.
  rewrite (nr_nkeys _ _ _ _ (bn_page _ _ _ _ Hn1)), length_map.
  assert (Hfin : ∀ s2 lm' seps', bnode s2 my_id lm' seps' → eff s0 s2 X ({[Pg my_id]} ∪ (F1 ∪ F3)) →
    same_on s s2 (F1 ∪ F3) →
    (∀ P : bnd → bnd → Z → rset → kvs → Prop,
       (∀ a a' b b' c F m, P a b c F m → (∀ k, above a k → above a' k) → (∀ k, below b k → below b' k) →
         P a' b' c F m) →
       seg P lo a r1 F1 m1 → seg P b hi r2 F3 m3 →
       seg P lo hi (children lo lm' seps') (F1 ∪ F3) (m1 ++ m3)) →
    del_post s0 X (S h) lo hi (m1 ++ m3) ex (MkDel my_id ex) s2).
  { intros s2 lm' seps' Hn2 E2 Hsm2 Hseg. split; [done|]. right. cbn [new_id].
    assert (tree s2 (S h) lo hi my_id ({[Pg my_id]} ∪ (F1 ∪ F3)) (m1 ++ m3)) as Ht.
    { eapply branch_intro; [done| |exact Hdj1|done]. apply Hseg.
      - intros. by eapply tree_weaken.
      - eapply seg_frame; [done|]. eapply same_on_subseteq; [done|]. apply union_subseteq_l.
      - eapply seg_frame; [done|]. eapply same_on_subseteq; [done|]. apply union_subseteq_r. }
    split; [eapply (tree_root_id content_hash); [by eapply eff_ok|exact Ht]|]. eauto. }
  pose proof (focus_bound _ _ _ _ _ _ _ Hch) as Hb. destruct (length r1) as [|i] eqn:Hlen.
  - destruct r1; [|done]. inversion Hs1; subst. cbn [app] in Hch.
    case_bool_decide as Hz.
    + assert (r2 = []) as ->.
      { pose proof (f_equal length Hch) as HL. rewrite length_children in HL. simpl in HL.
        destruct r2; [done|simpl in HL; lia]. }
      inversion Hs3; subst. apply wp_bind.
      eapply wp_mono; [apply free_law; [by eapply eff_ok|apply Hn1]|]. intros [] s2 E2.
      apply wp_ret. split; [done|]. left. split_and!; [done|done|].
      rewrite !(right_id_L ∅ (∪)) in E1. by eapply eff_trans.
    + destruct seps as [|[k c1] seps']; [done|]. rewrite children_cons in Hch. injection Hch as <- <-.
      destruct (seg_start _ _ _ _ _ _ Hs3) as [[? _]|Hst]; [done|]. injection Hst as <-.
      apply wp_bind. eapply wp_reads.
      { rewrite page_law by apply Hn1. cbn [mbind res_mbind].
        eapply (branch_cell_ok _ _ _ _ (bn_page _ _ _ _ Hn1) 0 (k, c1)); [done|].
        pose proof (bn_wf _ _ _ _ Hn1) as Hw. by inversion Hw. }
      pose proof (bn_wf _ _ _ _ Hn1) as Hw. inversion Hw as [|? ? [? Hu] Hw']; subst.
      apply wp_bind. eapply wp_mono.
      { eapply (bnode_mut _ _ _ _ _ _ _ _ c1 seps'); [exact E1|exact Hn1|done|done| |done|done].
        apply wp_bind. eapply wp_mono; [by eapply set_extra_rep; [apply Hn1|]|].
        intros [] q Hq. eapply wp_mono; [eapply remove_cell_rep; [exact Hq|simpl; lia]|]. done. }
      intros [] s2 (Hn2&_&E2&Hsm2). apply wp_ret. eapply Hfin; [done|done|by eapply same_on_trans|].
      intros P HP _ HsP. rewrite (left_id_L ∅ (∪)). cbn [app].
      eapply (seg_weaken_lo P (Some k)); [|exact HsP].
      intros b' F' m' HPc. eapply HP; [exact HPc|by eapply good_widen_lo|done].
  - apply wp_bind. eapply wp_mono.
    { eapply (bnode_mut _ _ _ _ _ _ _ _ lm (base.delete i seps)); [exact E1|exact Hn1|done|done| | |apply Hn1].
      - rewrite Prelude.map_delete. eapply remove_cell_rep; [apply Hn1|]. rewrite length_map. lia.
      - apply Forall_delete_list, Hn1. }
    intros [] s2 (Hn2&_&E2&Hsm2). apply wp_ret. eapply Hfin; [done|done|by eapply same_on_trans|].
    intros P HP HsP1 HsP3. rewrite (children_delete _ _ _ i r1 (a, c) r2) by done.
    eapply (seg_app_intro P lo b hi); [|exact HsP3|done|done|done].
    eapply seg_weaken_hi; [|exact HsP1|by destruct r1].
    assert (∃ ka, a = Some ka) as [ka ->].
    { pose proof (children_tail lo lm seps) as Hf. rewrite Hch in Hf. destruct r1; [done|].
      simpl in Hf. apply Forall_app in Hf as [_ Hf]. inversion Hf as [|? ? [ka Hk] _]. eauto. }
    intros a' c' F' m' HPc. eapply HP; [exact HPc|done|by eapply good_widen_hi].
Qed.

Lemma bound_in_middle key m1 m2 m3 :
  (∀ y, y ∈ m1.*1 → key_lt y key) → (∀ y, y ∈ m3.*1 → key_lt key y) →
  bound_in key (m1 ++ m2 ++ m3) = bound_in key m2.
Proof.
  intros. unfold bound_in.
  rewrite kv_get_middle; [done|by apply lt_not_elem_of|by apply gt_not_elem_of].
Qed.

Lemma delete_rec_spec h fuel s lo hi id F m key :
  ok s → tree s h lo hi id F m → above lo key → below hi key →
  (∀ y, kv_get key m = Some y → (Z.of_nat (length y) ≤ MAX_FREEABLE)%Z) → h < fuel →
  wps (delete_rec fuel id key) (del_post s F h lo hi (kv_del key m) (bound_in key m)) s.
Proof.
  revert fuel s lo hi id F m.
  induction h as [|h IH]; intros [|fuel] s lo hi id F m Hok Ht Hlo Hhi Hold Hf; try lia;
    cbn [delete_rec]; apply wp_bind;
    destruct (tree_page _ _ _ _ _ _ _ _ Ht) as (Hpg&Hck&Hkind);
    (eapply wp_reads; [rewrite Hpg; exact Hck|]); apply wp_bind;
    (eapply wp_reads; [by rewrite Hpg|]); rewrite Hkind.
  - rewrite bool_decide_true by done. by apply delete_leaf_spec.
  - rewrite bool_decide_false, bool_decide_true by done.
    pose proof Ht as (lm&seps&F0&Hn&Hs&Hfr&->).
    destruct (branch_descent content_hash _ _ _ _ _ _ _ _ _ key Hn Hs Hlo Hhi)
      as (r1&a&b&c&r2&F1&F2&F3&m1&m2&m3&Hdi&Hbc&_&Hch&Hs1&Ht2&Hs3&?&?&?&->&->&Ha&Hb&H1&H3).
    apply wp_bind. eapply wp_reads; [by rewrite Hpg|].
    apply wp_bind. eapply wp_reads; [by rewrite Hpg|]. apply wp_bind.
    apply disjoint_singleton_l in Hfr.
    rewrite bound_in_middle by done.
    rewrite kv_del_middle by (first [by apply lt_not_elem_of|by apply gt_not_elem_of]).
    assert (E0 : eff s s ({[Pg id]} ∪ (F1 ∪ (F2 ∪ F3))) ({[Pg id]} ∪ (F1 ∪ (F2 ∪ F3)))).
    { apply eff_refl; [done|]. intros r Hr. by eapply (tree_live content_hash s (S h)). }
    assert (Haround : ∀ s1 G, eff s s1 F2 G →
      around content_hash s ({[Pg id]} ∪ (F1 ∪ (F2 ∪ F3))) h lo hi id lm seps r1 r2 a b F1 F3 m1 m3 s1 G).
    { intros s1 G E1.
      destruct (own_step _ _ _ _ _ _ _ ({[Pg id]} ∪ (F1 ∪ F3)) E0 E1) as (E01&Hdj1&Hsm); [unions|disj|].
      split_and!; [| | | |disj|disj|done].
      - eapply bnode_frame; [done|]. eapply same_on_subseteq; [done|]. apply union_subseteq_l.
      - eapply seg_frame; [done|]. eapply same_on_subseteq; [done|].
        apply union_subseteq_r', union_subseteq_l.
      - eapply seg_frame; [done|]. eapply same_on_subseteq; [done|].
        apply union_subseteq_r', union_subseteq_r.
      - replace ({[Pg id]} ∪ (F1 ∪ F3 ∪ G)) with (G ∪ ({[Pg id]} ∪ (F1 ∪ F3))) by unions. done. }
    eapply wp_mono.
    { eapply (IH fuel s a b c F2 m2); [done|done|done|done| |lia].
      rewrite kv_get_middle in Hold; [done|by apply lt_not_elem_of|by apply gt_not_elem_of]. }
    intros [nid ex] s1 [Hex [(Hz&Hm&E1)|(Hz&F2'&E1&Ht1)]]; cbn [new_id d_existed] in *; subst.
    + rewrite Hm. eapply (delete_branch_gone _ _ _ _ _ _ _ _ _ _ _ _ _ _ _ _ m2); try done.
      * by eapply (tree_good content_hash).
      * by apply Haround.
      * by eapply (tree_root_id content_hash).
    + eapply delete_branch_kept; eauto.
Qed.

(** * The root *)

Lemma collapse_root_spec h fuel s0 X s root F m :
  eff s0 s X F → tree s h None None root F m → h < fuel →
  wps (collapse_root fuel root)
    (λ root' s', ∃ h' F', h' ≤ h ∧ eff s0 s' X F' ∧ tree_rep content_hash s' h' root' F' m) s.
Proof.
  revert fuel s root F m. induction h as [|h IH]; intros [|fuel] s root F m E Ht Hf; try lia;
    cbn [collapse_root];
    destruct (tree_root_id content_hash _ _ _ _ _ _ _ (eff_ok _ _ _ _ E) Ht) as [Hr0 _];
    rewrite (bool_decide_false (root = 0%Z)) by done;
    destruct (tree_page _ _ _ _ _ _ _ _ Ht) as (Hpg&Hck&Hkind);
    apply wp_bind; (eapply wp_reads; [exact Hpg|]); rewrite Hkind.
  - rewrite bool_decide_false by (by intros [? _]). apply wp_ret.
    exists 0, F. split_and!; [lia|done|]. by right.
  - case_bool_decide as Hc.
    + destruct Hc as [_ Hz]. pose proof Ht as (lm&seps&F0&Hn&Hs&Hfr&->).
      rewrite (nr_nkeys _ _ _ _ (bn_page _ _ _ _ Hn)), length_map in Hz. destruct seps; [|done].
      rewrite (nr_extra _ _ _ _ (bn_page _ _ _ _ Hn)).
      apply seg_cons_inv in Hs as (b&F1&F2&m1&m2&_&Ht1&Hs&_&->&->). inversion Hs; subst.
      rewrite (right_id_L ∅ (∪)) in *. rewrite app_nil_r.
      apply disjoint_singleton_l in Hfr. apply wp_bind.
      eapply wp_mono; [apply free_law; [by eapply eff_ok|apply Hn]|]. intros [] s1 E1.
      destruct (own_step _ _ _ _ _ _ _ F1 E E1) as (E01&_&Hsm); [done|done|].
      rewrite (left_id_L ∅ (∪)) in E01. eapply wp_mono.
      { eapply IH; [exact E01|by eapply tree_frame|lia]. }
      intros root' s2 (h'&F'&?&?&?). exists h', F'. split_and!; [lia|done|done].
    + apply wp_ret. exists (S h), F. split_and!; [lia|done|]. by right.
Qed.

Definition delete_post s F m h key (out : DeleteOutcome) s' : Prop :=
  del_existed out = bound_in key m ∧
  ∃ F' h', h' ≤ h ∧ eff s s' F F' ∧
    tree_rep content_hash s' h' (del_root out) F' (kv_del key m).

Lemma delete_spec s h fuel root F m key :
  ok s → tree_rep content_hash s h root F m →
  (∀ y, kv_get key m = Some y → (Z.of_nat (length y) ≤ MAX_FREEABLE)%Z) → h < fuel →
  wps (delete fuel root key) (delete_post s F m h key) s.
Proof.
  intros Hok [(->&->&->)|[Hr Ht]] Hold Hf; unfold delete.
  - rewrite bool_decide_true by done. apply wp_ret. split; [done|].
    exists ∅, h. split_and!; [lia| |by left]. apply eff_refl; [done|by intros ? ?%elem_of_empty].
  - rewrite bool_decide_false by done. apply wp_bind.
    eapply wp_mono; [by eapply delete_rec_spec|].
    intros [nid ex] s1 [Hex Hpost]. cbn [new_id d_existed] in *. apply wp_bind.
    destruct Hpost as [(->&Hm&E1)|(Hz&F'&E1&Ht1)].
    + cbn [collapse_root]. rewrite bool_decide_true by done. apply wp_ret, wp_ret.
      split; [done|]. rewrite Hm. exists ∅, h. split_and!; [lia|done|by left].
    + eapply wp_mono; [eapply collapse_root_spec; [exact E1|exact Ht1|lia]|].
      intros root' s2 (h'&F''&?&?&?). apply wp_ret. split; [done|]. by exists F'', h'.
Qed.
End Delete.
