(* ===== verification/BtreeSnapshot.v ===== *)
(** Copy-on-write safety of the B+tree: whatever the input and whatever the
    outcome, errors included, no insertion or deletion changes a page a
    committed snapshot can still read. The proofs are for any preorder that
    the store operations follow ([PageStore.Respects]), of which "every pinned
    page is still there, unchanged" is the instance that matters. *)

From S2P Require Import Prelude BtreeNode PageStore Btree.

Create HintDb moves discriminated.
#[export] Hint Resolve moves_ret moves_reads moves_lift moves_page_mut moves_cow
  rs_alloc rs_alloc_raw rs_free rs_free_extent rs_release_external rs_preorder : moves.

(** Follow the structure of a program down to its store operations. *)
Ltac moves :=
  repeat first
    [ progress (intros; cbv beta zeta)
    | solve [eauto with moves]
    | match goal with |- moves _ (_ ≫= _) => apply moves_bind; [exact _| |] end
    | case_bool_decide
    | match goal with |- moves _ (match ?x with _ => _ end) => destruct x end
    | match goal with |- moves _ (let '_ := ?x in _) => destruct x end ].

Section Snapshot.
Context {St : Type} `{!PageStore St} (R : relation St) `{!Respects R}.

Lemma write_overflow_loop_moves fuel total head hd r first prev written :
  moves R (write_overflow_loop fuel total head hd r first prev written).
Proof.
  revert hd r first prev written.
  induction fuel as [|fuel IH]; intros; cbn [write_overflow_loop]; moves.
Qed.

Lemma write_overflow_moves data : moves R (write_overflow data).
Proof. unfold write_overflow. destruct data; apply write_overflow_loop_moves. Qed.

Lemma free_overflow_loop_moves fuel hops id : moves R (free_overflow_loop fuel hops id).
Proof.
  revert hops id. induction fuel as [|fuel IH]; intros; cbn [free_overflow_loop]; moves.
Qed.

Lemma free_overflow_moves first : moves R (free_overflow first).
Proof. apply free_overflow_loop_moves. Qed.
Hint Resolve write_overflow_moves free_overflow_moves : moves.

Lemma free_old_val_moves old : moves R (free_old_val old).
Proof. destruct old; simpl; moves. Qed.

Lemma split_dirty_moves id k cells lm : moves R (split_dirty id k cells lm).
Proof. unfold split_dirty. moves. Qed.

Lemma build_leaf_cell_moves key val : moves R (build_leaf_cell key val).
Proof. unfold build_leaf_cell. moves. Qed.
Hint Resolve free_old_val_moves split_dirty_moves build_leaf_cell_moves : moves.

Lemma insert_leaf_moves id key val mode : moves R (insert_leaf id key val mode).
Proof. unfold insert_leaf, leaf_drop, leaf_put. moves. Qed.

Lemma insert_branch_moves id idx child r : moves R (insert_branch id idx child r).
Proof. unfold insert_branch. moves. Qed.
Hint Resolve insert_leaf_moves insert_branch_moves : moves.

Lemma insert_rec_moves fuel id key val mode : moves R (insert_rec fuel id key val mode).
Proof. revert id. induction fuel as [|fuel IH]; intros; cbn [insert_rec]; moves. Qed.
Hint Resolve insert_rec_moves : moves.

Lemma insert_moves fuel root key val mode : moves R (insert fuel root key val mode).
Proof. unfold insert. moves. Qed.

Lemma merge_cells_moves base cells l : moves R (merge_cells base cells l).
Proof. revert base. induction cells as [|c cells IH]; intros; cbn [merge_cells]; moves. Qed.
Hint Resolve merge_cells_moves : moves.

Lemma try_merge_leaves_moves id idx : moves R (try_merge_leaves id idx).
Proof. unfold try_merge_leaves, merge_siblings, join_leaves. moves. Qed.

Lemma delete_leaf_moves id key : moves R (delete_leaf id key).
Proof. unfold delete_leaf, leaf_drop. moves. Qed.
Hint Resolve try_merge_leaves_moves delete_leaf_moves : moves.

Lemma delete_branch_moves id idx child r : moves R (delete_branch id idx child r).
Proof. unfold delete_branch. moves. Qed.
Hint Resolve delete_branch_moves : moves.

Lemma delete_rec_moves fuel id key : moves R (delete_rec fuel id key).
Proof. revert id. induction fuel as [|fuel IH]; intros; cbn [delete_rec]; moves. Qed.

Lemma collapse_root_moves fuel root : moves R (collapse_root fuel root).
Proof. revert root. induction fuel as [|fuel IH]; intros; cbn [collapse_root]; moves. Qed.
Hint Resolve delete_rec_moves collapse_root_moves : moves.

Lemma delete_moves fuel root key : moves R (delete fuel root key).
Proof. unfold delete. moves. Qed.
End Snapshot.
