(* ===== verification/BtreeHostile.v ===== *)
(** Reads of the B+tree on arbitrary bytes: a store whose pages were damaged
    in any way (cycles, wild pointers, bad lengths) makes [get], [value_loc],
    [max_key] and [read_value_range] return an error at worst. They never
    index out of range and every loop ends within the bound the code sets. *)

From S2P Require Import Prelude BtreeNode PageStore Btree.

Section Hostile.
Context {St : Type} `{!PageStore St}.
Context (content_hash : bytes → Z).

(** The store itself answers: a page of the right size, or an error. *)
Record answers (s : St) : Prop := {
  an_page id : ps_page id s ≠ Panic;
  an_size id p : ps_page id s = Ok p → length p = PAGE_SIZE;
  an_extent e n : ps_read_extent e n s ≠ Panic;
  an_external h n : ps_read_external h n s ≠ Panic;
}.

Context (s : St) (Hs : answers s).

Lemma read_overflow_loop_no_panic total fuel hops id out :
  Z.to_nat total / OVERFLOW_CAP + 3 < fuel + hops → 0 < fuel →
  read_overflow_loop fuel hops total id out s ≠ Panic.
Proof.
  revert hops id out. induction fuel as [|fuel IH]; intros hops id out Hf Hpos; [lia|].
  cbn [read_overflow_loop]. case_bool_decide; [done|]. case_bool_decide as Hh; [done|].
  apply bind_no_panic; [apply Hs|]. intros p Hp. pose proof (an_size _ Hs _ _ Hp).
  case_bool_decide; [done|]. case_bool_decide; [done|].
  rewrite slice_Ok by sizes. cbn [mbind res_mbind]. apply IH; lia.
Qed.

Lemma read_leaf_val_no_panic v : read_leaf_val content_hash v s ≠ Panic.
Proof.
  destruct v; cbn [read_leaf_val]; [done| | |].
  - apply bind_no_panic; [apply read_overflow_loop_no_panic; lia|].
    intros out _. by case_bool_decide.
  - apply bind_no_panic; [apply Hs|]. intros out _. by case_bool_decide.
  - apply bind_no_panic; [apply Hs|]. intros out _. by repeat case_bool_decide.
Qed.

Lemma descend_no_panic {A} levels what pick (f : bytes → res A) id :
  (∀ p, checked p → pick p ≠ Panic) → (∀ p i, pick p = Ok i → i ≤ nkeys p) →
  (∀ p, checked p → f p ≠ Panic) →
  descend levels what pick f id s ≠ Panic.
Proof.
  intros Hpick Hle Hleaf. revert id. induction levels as [|levels IH]; intros id; [done|].
  cbn [descend]. apply bind_no_panic; [apply Hs|]. intros p Hp.
  destruct (check_node p) as [[]|e|] eqn:Hc; cbn [mbind res_mbind]; [|done|].
  2:{ exfalso. revert Hc. unfold check_node. by repeat case_bool_decide. }
  pose proof (an_size _ Hs _ _ Hp) as Hlen. case_bool_decide as Hb.
  - assert (checked p) as Hck by (split_and!; auto).
    apply bind_no_panic; [by apply Hpick|]. intros i Hi.
    apply bind_no_panic; [apply branch_child_no_panic; [done|by apply Hle]|]. intros c _. apply IH.
  - case_bool_decide as Hlf; [|done]. apply Hleaf. split_and!; auto.
Qed.

(** What [get] and [value_loc] do at the leaf. *)
Lemma leaf_lookup_no_panic {A} p key (g : LeafVal → res (option A)) :
  checked p → (∀ v, g v ≠ Panic) →
  (f ← search p key;
   match f with
   | FoundAt i => '(_, val) ← leaf_cell p i; g val
   | NotFound _ => Ok None
   end) ≠ Panic.
Proof.
  intros Hc Hg. apply bind_no_panic; [by apply search_no_panic|]. intros [i|i] Hf; [|done].
  apply bind_no_panic; [|intros [? v] _; apply Hg].
  apply leaf_cell_no_panic; [done|]. unfold search in Hf.
  by apply search_loop_bound in Hf; [|lia].
Qed.

Lemma get_no_panic root key : get content_hash root key s ≠ Panic.
Proof.
  unfold get. case_bool_decide; [done|]. apply descend_no_panic.
  - intros. by apply descent_index_no_panic.
  - intros ??. apply descent_index_bound.
  - intros p Hp. apply leaf_lookup_no_panic; [done|]. intros v.
    apply bind_no_panic; [apply read_leaf_val_no_panic|done].
Qed.

Lemma value_loc_no_panic root key : value_loc root key s ≠ Panic.
Proof.
  unfold value_loc. case_bool_decide; [done|]. apply descend_no_panic.
  - intros. by apply descent_index_no_panic.
  - intros ??. apply descent_index_bound.
  - intros p Hp. by apply leaf_lookup_no_panic.
Qed.

Lemma max_key_no_panic root : max_key root s ≠ Panic.
Proof.
  unfold max_key. case_bool_decide; [done|]. apply descend_no_panic; [done|by intros ?? [= <-]|].
  intros p Hp. case_bool_decide; [done|]. apply bind_no_panic; [|by intros []].
  apply leaf_cell_no_panic; [done|lia].
Qed.

Lemma range_overflow_loop_no_panic total fuel hops id skip want out :
  Z.to_nat total / OVERFLOW_CAP + 3 < fuel + hops → 0 < fuel →
  range_overflow_loop fuel hops total id skip want out s ≠ Panic.
Proof.
  revert hops id skip out. induction fuel as [|fuel IH]; intros hops id skip out Hf Hpos; [lia|].
  cbn [range_overflow_loop]. case_bool_decide; [|by case_bool_decide].
  case_bool_decide as Hh; [done|].
  apply bind_no_panic; [apply Hs|]. intros p Hp. pose proof (an_size _ Hs _ _ Hp).
  case_bool_decide; [done|]. case_bool_decide; [done|]. case_bool_decide; [apply IH; lia|].
  rewrite slice_Ok by sizes. cbn [mbind res_mbind]. apply IH; lia.
Qed.

Lemma read_value_range_no_panic loc off n :
  (0 ≤ off)%Z → read_value_range content_hash loc off n s ≠ Panic.
Proof.
  intros Hoff. unfold read_value_range. case_bool_decide; [done|]. case_bool_decide; [done|].
  case_bool_decide as Hend; [done|]. destruct loc as [v|total first|st total|hh total]; cbn [value_loc_len] in Hend.
  - by rewrite slice_Ok by lia.
  - apply range_overflow_loop_no_panic; lia.
  - apply bind_no_panic; [apply Hs|]. intros sc _. case_bool_decide as Hl; [done|].
    by rewrite slice_Ok by lia.
  - apply bind_no_panic; [apply Hs|]. intros w _. case_bool_decide as Hl; [done|].
    case_bool_decide; [done|]. by rewrite slice_Ok by lia.
Qed.
End Hostile.
