(* ===== verification/BtreeRange.v ===== *)
(** Range reads of one value, and the largest key of a tree: [value_loc],
    [read_value_range] and [max_key] of [crates/mpedb-core/src/btree.rs]
    agree with the value and the map they read from. *)

From S2P Require Import Prelude BtreeNode PageStore Btree Overflow KvMap BtreeRep.

Section Range.
Context {St : Type} `{!PageStore St, !StoreView St, !StoreLaws St}.
Context (content_hash : bytes → Z).
Implicit Types (s : St) (F : rset) (m : kvs).

(** * Ranges of an overflow chain *)

Lemma range_page s total fuel hops id chunk next skip want out :
  ok s → page_holds s id chunk next → hops ≤ Z.to_nat total / OVERFLOW_CAP + 2 →
  length out < want →
  range_overflow_loop (S fuel) hops total id skip want out s =
  range_overflow_loop fuel (S hops) total next (skip - length chunk) want
    (out ++ take (want - length out) (drop skip chunk)) s.
Proof.
  intros Hok [Hl Hh] Hhops Hw. cbn [range_overflow_loop]. pose proof (id_law s id Hok Hl).
  rewrite bool_decide_true by lia. rewrite bool_decide_false by lia.
  rewrite page_law by done. cbn [mbind res_mbind].
  rewrite bool_decide_false by (intros Hne; apply Hne, Hh).
  pose proof (h_cap _ _ _ Hh). pose proof (h_len _ _ _ Hh).
  rewrite (h_size _ _ _ Hh), Nat2Z.id. rewrite bool_decide_false by lia.
  rewrite (h_next _ _ _ Hh). case_bool_decide as Hskip.
  - by rewrite (drop_ge chunk), take_nil, app_nil_r by lia.
  - rewrite slice_Ok by sizes. cbn [mbind res_mbind].
    replace (skip - length chunk) with 0 by lia. do 2 f_equal.
    set (t := (length chunk - skip) `min` (want - length out)).
    replace (HDR + skip + t - (HDR + skip)) with t by lia.
    rewrite <- (sub_sub HDR (length chunk)) by lia. rewrite (h_data _ _ _ Hh). unfold sub.
    destruct (decide (want - length out ≤ length chunk - skip)); [f_equal; lia|].
    rewrite !take_ge; [done|..]; rewrite length_drop; lia.
Qed.

Lemma range_done s total fuel hops id skip out :
  range_overflow_loop (S fuel) hops total id skip (length out) out s = Ok out.
Proof.
  cbn [range_overflow_loop]. rewrite bool_decide_false by lia. by rewrite bool_decide_false by lia.
Qed.

Lemma range_chain s total ids a w e chunk fuel hops skip want out :
  ok s → lseg s a ids w e → page_holds s e chunk 0 →
  hops + length ids ≤ Z.to_nat total / OVERFLOW_CAP + 2 → length ids + 1 < fuel →
  length out ≤ want → skip + (want - length out) ≤ length (w ++ chunk) →
  range_overflow_loop fuel hops total a skip want out s =
    Ok (out ++ take (want - length out) (drop skip (w ++ chunk))).
Proof.
  intros Hok Hs He. revert fuel hops skip out.
  induction Hs as [a|id c next ids w e Hh Hc _ IH]; intros fuel hops skip out Hhops Hf Ho Hlen;
    (destruct (decide (length out = want)) as [<-|Hne];
      [destruct fuel; [lia|]; by rewrite range_done, Nat.sub_diag, take_0, app_nil_r|]);
    (destruct fuel as [|[|fuel]]; [cbn [length] in *; lia..|]); cbn [length] in *.
  - rewrite (range_page _ _ _ _ _ _ _ _ _ _ Hok He) by lia. cbn [app] in *.
    set (out' := out ++ take (want - length out) (drop skip chunk)).
    assert (length out' = want) as Hw.
    { subst out'. rewrite length_app, length_take, length_drop. lia. }
    clearbody out'. subst want. apply range_done.
  - rewrite (range_page _ _ _ _ _ _ _ _ _ _ Hok Hh) by lia. rewrite <- app_assoc in *.
    rewrite length_app in Hlen. rewrite IH; [|done|lia|lia| |].
    + rewrite <- app_assoc. f_equal. f_equal. rewrite length_app, length_take, length_drop.
      rewrite (drop_app c), (take_app (drop skip c)), (length_drop c). f_equal.
      destruct (decide (want - length out ≤ length c - skip)).
      * replace (want - (length out + (want - length out) `min` (length c - skip))) with 0 by lia.
        replace (want - length out - (length c - skip)) with 0 by lia. by rewrite !take_0.
      * f_equal; lia.
    + rewrite length_app, length_take, length_drop. lia.
    + rewrite length_app, length_take, length_drop. lia.
Qed.

(** * Locations *)

(** The location [loc] denotes the bytes [x]. An extent must be readable
    from each of its pages. *)
Definition loc_rep s (loc : ValueLoc) (x : bytes) : Prop :=
  match loc with
  | LocInline v => v = x
  | LocOverflow total first => ∃ ids, chain s first ids x ∧ total = Z.of_nat (length x)
  | LocExtent start total => total = Z.of_nat (length x) ∧
      (∀ i n, 4096 * i + n ≤ length x →
         ps_read_extent (start + Z.of_nat i) (Z.of_nat n) s = Ok (sub (4096 * i) n x))
  | LocExternal hash total => ps_read_external hash total s = Ok x ∧
      total = Z.of_nat (length x) ∧ content_hash x = hash
  end.

Lemma read_value_range_spec s loc x off n :
  ok s → loc_rep s loc x → off + n ≤ length x → (Z.of_nat (length x) < 2 ^ 64)%Z →
  read_value_range content_hash loc (Z.of_nat off) n s = Ok (sub off n x).
Proof.
  intros Hok Hrep Hle Hmax. unfold read_value_range. case_bool_decide as Hz; [by subst n|].
  rewrite bool_decide_false by lia.
  rewrite bool_decide_false.
  2:{ destruct loc; cbn [value_loc_len loc_rep] in *; [subst; lia|..].
      - destruct Hrep as (ids&_&->). lia.
      - destruct Hrep as [-> _]. lia.
      - destruct Hrep as (_&->&_). lia. }
  destruct loc as [v|total first|st total|hh total]; cbn [loc_rep] in Hrep.
  - subst v. rewrite slice_Ok by lia. do 2 f_equal; lia.
  - destruct Hrep as (ids&Hc&->). destruct (chain_length _ _ _ _ Hc) as [[Hlo Hhi] _].
    destruct Hc as (ids'&w&last&chunk&->&->&Hs&Hh&Hpos). rewrite length_app in Hlo.
    assert (length ids' ≤ length (w ++ chunk) / OVERFLOW_CAP) as Hn.
    { apply Nat.div_le_lower_bound; [sizes|]. cbn [length] in Hlo. rewrite Nat.add_sub in Hlo. lia. }
    rewrite !Nat2Z.id. rewrite (range_chain s _ ids' first w last chunk);
      [|done|done|done|rewrite Nat2Z.id; lia|lia|simpl; lia|simpl; lia].
    unfold sub. by rewrite Nat.sub_0_r.
  - destruct Hrep as [-> Hread].
    replace (Z.of_nat off / 4096)%Z with (Z.of_nat (off / Z.to_nat 4096)) by (by rewrite Nat2Z.inj_div, Z2Nat.id).
    replace (Z.of_nat off mod 4096)%Z with (Z.of_nat (off mod Z.to_nat 4096)) by (by rewrite Nat2Z.inj_mod, Z2Nat.id).
    rewrite Nat2Z.id. pose proof (Nat.div_mod_eq off (Z.to_nat 4096)).
    set (q := off / Z.to_nat 4096) in *. set (r := off mod Z.to_nat 4096) in *.
    rewrite Hread by lia. cbn [mbind res_mbind]. rewrite length_sub by lia.
    rewrite bool_decide_false by lia. rewrite slice_Ok by (rewrite ?length_sub; lia).
    f_equal. rewrite sub_sub by lia. f_equal; lia.
  - destruct Hrep as (Hr&->&Hh). rewrite Hr. cbn [mbind res_mbind].
    rewrite bool_decide_false by (intros Hx; by apply Hx).
    rewrite bool_decide_false by (intros Hx; by apply Hx).
    rewrite slice_Ok by lia. f_equal. f_equal; lia.
Qed.

(** * Point lookup of a location *)

Definition loc_of (v : LeafVal) : ValueLoc :=
  match v with
  | Inline v => LocInline v
  | Overflow total_len first_page => LocOverflow total_len first_page
  | Extent start_page total_len _ => LocExtent start_page total_len
  | External hash total_len => LocExternal hash total_len
  end.

Lemma loc_of_rep s lv x F :
  val_rep content_hash s lv x F → (∀ st t n, lv ≠ Extent st t n) → loc_rep s (loc_of lv) x.
Proof.
  destruct lv as [b|t f|st t n|hh t]; simpl.
  - by intros [-> _].
  - intros (ids&?&_&?&_) _. by exists ids.
  - by intros _ Hne; destruct (Hne st t n).
  - by intros (?&?&?&_) _.
Qed.

(** An extent can be read from any of its pages on. *)
Definition extents_paged s : Prop :=
  ∀ start total x, ps_read_extent start total s = Ok x →
    ∀ i n, 4096 * i + n ≤ length x →
      ps_read_extent (start + Z.of_nat i) (Z.of_nat n) s = Ok (sub (4096 * i) n x).

Lemma loc_of_paged s lv x F :
  extents_paged s → val_rep content_hash s lv x F → loc_rep s (loc_of lv) x.
Proof.
  intros Hp Hv. destruct lv as [b|t f|st t n|hh t]; try by eapply loc_of_rep.
  destruct Hv as (_&Hr&Hl&_). split; [done|]. by eapply Hp.
Qed.

Lemma value_loc_spec s h root F m key :
  ok s → tree_rep content_hash s h root F m → h < 64 →
  match kv_get key m with
  | None => value_loc root key s = Ok None
  | Some x => ∃ lv F', val_rep content_hash s lv x F' ∧
                value_loc root key s = Ok (Some (loc_of lv))
  end.
Proof.
  intros Hok [(->&->&_)|[Hr Ht]] Hh; unfold value_loc; [done|]. rewrite bool_decide_false by done.
  destruct (descend_spec content_hash _ _ _ _ _ _ _ key 64 Ht Hh)
    as (lo&hi&id&F'&m'&Hleaf&Hm&Hd); [done|done|].
  rewrite Hd, Hm. clear Hd Hm. destruct Hleaf as (es&F0&Hn&_&Hg).
  pose proof (g_sorted _ _ _ Hg) as Hsrt.
  destruct (leaf_search content_hash _ _ _ key _ _ (ln_page _ _ _ _ _ _ Hn) (ln_wf _ _ _ _ _ _ Hn)
    (ln_vals _ _ _ _ _ _ Hn) Hsrt) as (f&Hf&Hspec).
  rewrite Hf. cbn [mbind res_mbind]. destruct f as [i|i].
  - destruct (found_entry content_hash _ _ _ _ _ _ _ Hn Hsrt Hspec) as (lv&x&Hes&Hx&->&_).
    destruct (vals_lookup content_hash _ _ _ _ _ _ _ (ln_vals _ _ _ _ _ _ Hn) Hes)
      as (x'&Fx&Hx'&Hvx&_). simplify_eq. exists lv, Fx. split; [done|].
    rewrite (leaf_cell_ok _ _ _ _ (ln_page _ _ _ _ _ _ Hn) i (key, lv));
      [done|by rewrite list_lookup_fmap, Hes|eapply Forall_lookup_1; [apply Hn|done]].
  - by rewrite (notfound_get _ _ _ Hspec).
Qed.

(** * The largest key *)

Lemma descend_last s h lo hi id F m levels :
  tree content_hash s h lo hi id F m → h < levels →
  ∃ lo' hi' id' F' m', leaf content_hash s lo' hi' id' F' m' ∧ last m = last m' ∧
    ∀ A what (f : bytes → res A),
      descend levels what (λ p, Ok (nkeys p)) f id s = f (bytes_at s id').
Proof.
  revert lo hi id F m levels. induction h as [|h IH]; intros lo hi id F m [|levels] Ht Hh;
    try lia; cbn [descend].
  - exists lo, hi, id, F, m. split_and!; [done|done|]. intros A what f.
    destruct (leaf_page _ _ _ _ _ _ _ Ht) as (->&Hc&Hk). cbn [mbind res_mbind]. by rewrite Hc, Hk.
  - destruct (branch_page _ _ _ _ _ _ _ Ht) as (Hpg&Hc&Hk).
    destruct Ht as (lm&seps&F0&Hn&Hs&_).
    destruct (seg_focus _ _ _ _ _ _ _ (length seps) Hs)
      as (r1&a&b&c&r2&F1&F2&F3&m1&m2&m3&Hch&Hlen&_&Ht&Hs3&_&_&_&_&->); [done|].
    assert (r2 = []) as ->.
    { pose proof (f_equal length Hch) as HL. rewrite length_children, length_app in HL.
      destruct r2; [done|simpl in HL; lia]. }
    inversion Hs3; subst. rewrite app_nil_r.
    destruct (IH a hi c F2 m2 levels) as (lo'&hi'&id'&F'&m'&?&Hm&Hd); [done|lia|].
    exists lo', hi', id', F', m'. split_and!; [done| |].
    + rewrite last_app, Hm. pose proof (g_ne _ _ _ (tree_good _ _ _ _ _ _ _ _ Ht)) as Hne.
      destruct (last m') eqn:E; [done|]. by apply last_None in Hm.
    + intros A what f. rewrite Hpg. cbn [mbind res_mbind]. rewrite Hc, Hk. cbn [mbind res_mbind].
      rewrite bool_decide_true by done.
      rewrite (nr_nkeys _ _ _ _ (bn_page _ _ _ _ Hn)), length_map.
      rewrite (child_at _ lo _ _ _ (length seps) r1 a c []) by done. apply Hd.
Qed.

Lemma max_key_spec s h root F m :
  tree_rep content_hash s h root F m → h < 64 → max_key root s = Ok (last m.*1).
Proof.
  intros [(->&->&_)|[Hr Ht]] Hh; unfold max_key; [done|]. rewrite bool_decide_false by done.
  destruct (descend_last _ _ _ _ _ _ _ 64 Ht Hh) as (lo&hi&id&F'&m'&Hleaf&Hm&Hd).
  rewrite Hd, fmap_last, Hm. clear Hd Hm. destruct Hleaf as (es&F0&Hn&_&Hg).
  pose proof (vals_keys _ _ _ _ _ (ln_vals _ _ _ _ _ _ Hn)) as Hk.
  rewrite (nr_nkeys _ _ _ _ (ln_page _ _ _ _ _ _ Hn)), length_map.
  destruct (last m') as [[k x]|] eqn:El; [|by apply last_None in El; destruct (g_ne _ _ _ Hg)].
  assert (last (map fst es) = Some k) as Hlast by by rewrite Hk, fmap_last, El.
  rewrite last_lookup, length_map in Hlast. rewrite list_lookup_fmap in Hlast.
  destruct (es !! pred (length es)) as [[k' lv]|] eqn:He; [|done].
  injection Hlast as Hkk. simpl in Hkk. subst k'. pose proof (lookup_lt_Some _ _ _ He).
  rewrite bool_decide_false by lia.
  rewrite (leaf_cell_ok _ _ _ _ (ln_page _ _ _ _ _ _ Hn) _ (k, lv)); [done| |].
  - rewrite list_lookup_fmap. replace (length es - 1) with (pred (length es)) by lia. by rewrite He.
  - eapply Forall_lookup_1; [apply Hn|done].
Qed.
End Range.
