(* ===== verification/Cursor.v ===== *)
(** Forward range scans: [crates/mpedb-core/src/btree/cursor.rs]. A cursor
    over a tree yields exactly the bindings between its bounds, in key order,
    each once; the key-only and counting forms agree with it. *)

From S2P Require Import Prelude BtreeNode PageStore Btree Overflow KvMap BtreeRep.

(** * The code *)

(** The top of the Rust vector [stack] is the head of the list. *)
Record Cursor := MkCursor {
  stack : list (Z * nat);
  cleaf : option (Z * nat);
  chi : option (bytes * bool);
  done : bool;
}.

Definition with_leaf (l : option (Z * nat)) (c : Cursor) : Cursor :=
  MkCursor (stack c) l (chi c) (done c).

(** [over] of the scan loops: is [key] past the upper bound? *)
Definition over (hi : option (bytes * bool)) (key : bytes) : bool :=
  match hi with
  | None => false
  | Some (hk, inc) =>
      match lex_cmp key hk with Lt => false | Eq => negb inc | Gt => true end
  end.

Section Code.
Context {St : Type} `{!PageStore St}.
Variable content_hash : bytes → Z.

Fixpoint cursor_loop (levels : nat) (lo : option (bytes * bool)) (id : Z)
    (c : Cursor) (s : St) : res Cursor :=
  match levels with
  | O => Err (corrupt "tree too deep (cycle?)")
  | S levels =>
      p ← ps_page id s;
      check_node p;;
      if bool_decide (kind p = KIND_BRANCH) then
        idx ← match lo with None => Ok 0 | Some (k, _) => descent_index p k end;
        child ← branch_child p idx;
        cursor_loop levels lo child
          (MkCursor ((id, idx + 1) :: stack c) (cleaf c) (chi c) (done c)) s
      else if bool_decide (kind p = KIND_LEAF) then
        start ← match lo with
                | None => Ok 0
                | Some (k, inclusive) =>
                    f ← search p k;
                    Ok (match f with
                        | FoundAt i => if (inclusive : bool) then i else i + 1
                        | NotFound i => i
                        end)
                end;
        Ok (with_leaf (Some (id, start)) c)
      else Err (corrupt "unexpected page kind in cursor descent")
  end.

Definition cursor (root : Z) (lo hi : option (bytes * bool)) (s : St) : res Cursor :=
  let c := MkCursor [] None hi (bool_decide (root = 0%Z)) in
  if bool_decide (root = 0%Z) then Ok c else cursor_loop 64 lo root c s.

(** The descent of [climb] to the leftmost leaf below [id]. *)
Fixpoint climb_down (levels : nat) (id : Z) (stk : list (Z * nat)) (s : St)
  : res (Z * list (Z * nat)) :=
  match levels with
  | O => Err (corrupt "tree too deep (cycle?)")
  | S levels =>
      q ← ps_page id s;
      check_node q;;
      if bool_decide (kind q = KIND_BRANCH) then
        child ← branch_child q 0;
        climb_down levels child ((id, 1) :: stk) s
      else if bool_decide (kind q = KIND_LEAF) then Ok (id, stk)
      else Err (corrupt "bad page kind in scan")
  end.

(** Each turn of the loop pops one entry, so the stack bounds it. *)
Fixpoint climb_loop (stk : list (Z * nat)) (hi : option (bytes * bool)) (s : St)
  : res Cursor :=
  match stk with
  | [] => Ok (MkCursor [] None hi true)
  | (branch_id, next_idx) :: stk =>
      p ← ps_page branch_id s;
      if bool_decide (next_idx ≤ nkeys p) then
        child ← branch_child p next_idx;
        '(id, stk) ← climb_down 64 child ((branch_id, next_idx + 1) :: stk) s;
        Ok (MkCursor stk (Some (id, 0)) hi false)
      else climb_loop stk hi s
  end.

Definition climb (c : Cursor) (s : St) : res Cursor := climb_loop (stack c) (chi c) s.

(** [next_with]: [f] sees the key and the value cell. *)
Fixpoint next_with {R} (fuel : nat) (f : bytes → LeafVal → res R) (c : Cursor) (s : St)
  : res (option R * Cursor) :=
  match fuel with
  | O => Panic
  | S fuel =>
      if done c then Ok (None, c)
      else
        match cleaf c with
        | Some (leaf_id, pos) =>
            p ← ps_page leaf_id s;
            check_node p;;
            if bool_decide (pos < nkeys p) then
              '(key, val) ← leaf_cell p pos;
              if over (chi c) key
              then Ok (None, MkCursor (stack c) (cleaf c) (chi c) true)
              else
                r ← f key val;
                Ok (Some r, with_leaf (Some (leaf_id, pos + 1)) c)
            else
              c ← climb (with_leaf None c) s;
              next_with fuel f c s
        | None =>
            c ← climb c s;
            next_with fuel f c s
        end
  end.

Definition next (fuel : nat) (c : Cursor) (s : St) : res (option (bytes * bytes) * Cursor) :=
  next_with fuel (λ k v, x ← read_leaf_val content_hash v s; Ok (k, x)) c s.

Definition next_key (fuel : nat) (c : Cursor) (s : St) : res (option bytes * Cursor) :=
  next_with fuel (λ k _, Ok k) c s.

(** The boundary leaf of [next_leaf_count]: cells [pos..pos+k). *)
Fixpoint count_loop (p : bytes) (hi : option (bytes * bool)) (pos k : nat) (count : nat)
  : res nat :=
  match k with
  | O => Ok count
  | S k =>
      '(key, _) ← leaf_cell p pos;
      if over hi key then Ok count else count_loop p hi (S pos) k (S count)
  end.

Fixpoint next_leaf_count (fuel : nat) (c : Cursor) (s : St) : res (option nat * Cursor) :=
  match fuel with
  | O => Panic
  | S fuel =>
      if done c then Ok (None, c)
      else
        match cleaf c with
        | None => c ← climb c s; next_leaf_count fuel c s
        | Some (leaf_id, pos) =>
            p ← ps_page leaf_id s;
            check_node p;;
            let n := nkeys p in
            if bool_decide (n ≤ pos) then next_leaf_count fuel (with_leaf None c) s
            else
              whole ← match chi c with
                      | None => Ok true
                      | Some (hk, inc) =>
                          '(last, _) ← leaf_cell p (n - 1);
                          Ok (match lex_cmp last hk with Lt => true | Eq => inc | Gt => false end)
                      end;
              if (whole : bool) then Ok (Some (n - pos), with_leaf None c)
              else
                count ← count_loop p (chi c) pos (n - pos) 0;
                Ok (Some count, MkCursor (stack c) (cleaf c) (chi c) true)
        end
  end.
End Code.

(** * What a cursor has yet to yield *)

(** The lower bound as a predicate on keys. *)
Definition after (lo : option (bytes * bool)) (k : bytes) : bool :=
  match lo with
  | None => true
  | Some (l, inc) => match lex_cmp l k with Lt => true | Eq => inc | Gt => false end
  end.

Lemma filter_none {A} (P : A → Prop) `{!∀ x, Decision (P x)} (l : list A) :
  (∀ x, x ∈ l → ¬ P x) → filter P l = [].
Proof.
  induction l as [|x l IH]; intros Hn; [done|].
  rewrite filter_cons_False by (apply Hn; constructor). apply IH. intros; apply Hn; by constructor.
Qed.

Lemma filter_all {A} (P : A → Prop) `{!∀ x, Decision (P x)} (l : list A) :
  (∀ x, x ∈ l → P x) → filter P l = l.
Proof.
  induction l as [|x l IH]; intros Ha; [done|].
  rewrite filter_cons_True by (apply Ha; constructor). f_equal. apply IH. intros; apply Ha; by constructor.
Qed.

(** The upward closed part of a list is a suffix of it. *)
Lemma filter_suffix {A} (P : A → Prop) `{!∀ x, Decision (P x)} (l : list A) (n : nat) :
  (∀ j x, j < n → l !! j = Some x → ¬ P x) → (∀ j x, n ≤ j → l !! j = Some x → P x) →
  filter P l = drop n l.
Proof.
  intros Hlo Hhi. rewrite <- (take_drop n l) at 1. rewrite filter_app, filter_none, filter_all; [done|..].
  - intros x (j&Hj)%list_elem_of_lookup. rewrite lookup_drop in Hj. eapply (Hhi (n + j)); [lia|done].
  - intros x (j&Hj)%list_elem_of_lookup. assert (j < n) as Hjn.
    { apply lookup_lt_Some in Hj. rewrite length_take in Hj. lia. }
    rewrite lookup_take_lt in Hj by done. by eapply Hlo.
Qed.

(** The bindings a scan from [lo] to [hi] must yield. *)
Definition in_range (lo hi : option (bytes * bool)) (m : kvs) : kvs :=
  filter (λ e, over hi e.1 = false) (filter (λ e, after lo e.1 = true) m).

Lemma in_range_length lo hi m : length (in_range lo hi m) ≤ length m.
Proof. unfold in_range. by rewrite !length_filter. Qed.

Lemma kv_sorted_filter (P : bytes * bytes → Prop) `{!∀ x, Decision (P x)} m :
  kv_sorted m → kv_sorted (filter P m).
Proof.
  unfold kv_sorted. induction m as [|e m IH]; [done|]. cbn [fmap list_fmap].
  intros [Hs Hf]%StronglySorted_inv. rewrite filter_cons. case_decide; [|auto].
  cbn [fmap list_fmap]. constructor; [auto|]. apply Forall_forall.
  intros x (e'&->&[_ He]%list_elem_of_filter)%list_elem_of_fmap. rewrite Forall_forall in Hf.
  apply Hf, list_elem_of_fmap. eauto.
Qed.

Lemma in_range_sorted lo hi m : kv_sorted m → kv_sorted (in_range lo hi m).
Proof. intros. by do 2 apply kv_sorted_filter. Qed.

Section Rep.
Context {St : Type} `{!PageStore St, !StoreView St, !StoreLaws St}.
Context (content_hash : bytes → Z).
Implicit Types (s : St) (m : kvs).
Abbreviation tree := (tree content_hash).
Abbreviation lnode := (lnode content_hash).

(** [(id, i)] on the stack: the children [i..] of branch [id], subtrees of
    height [h], are still to be visited; their bindings come first. *)
Inductive stack_rep s : nat → list (Z * nat) → kvs → Prop :=
| stack_nil h : stack_rep s h [] []
| stack_cons h id lm seps lo b hi i F stk m1 m2 :
    bnode s id lm seps → i ≤ S (length seps) →
    seg (tree s h) b hi (drop i (children lo lm seps)) F m1 →
    stack_rep s (S h) stk m2 →
    stack_rep s h ((id, i) :: stk) (m1 ++ m2).

(** The cursor still has [m] to walk, before the upper bound cuts it. *)
Definition walks s (c : Cursor) (m : kvs) : Prop :=
  (done c = true ∧ m = []) ∨
  (done c = false ∧ ∃ m1 m2, m = m1 ++ m2 ∧ kv_sorted m ∧ stack_rep s 0 (stack c) m2 ∧
     length (stack c) < 64 ∧
     match cleaf c with
     | None => m1 = []
     | Some (id, pos) => ∃ es F0 m0, lnode s id es F0 m0 ∧ m1 = drop pos m0
     end).

Lemma climb_down_spec s h lo hi id F m stk m' levels :
  tree s h lo hi id F m → stack_rep s h stk m' → h < levels → h + length stk < 64 →
  ∃ id' stk' es F0 m0 m2, climb_down levels id stk s = Ok (id', stk') ∧
    lnode s id' es F0 m0 ∧ stack_rep s 0 stk' m2 ∧ length stk' < 64 ∧
    m ++ m' = m0 ++ m2 ∧ m0 ≠ [].
Proof.
  revert lo hi id F m stk m' levels.
  induction h as [|h IH]; intros lo hi id F m stk m' [|levels] Ht Hstk Hh Hlen; try lia;
    cbn [climb_down]; destruct (tree_page content_hash _ _ _ _ _ _ _ Ht) as (Hpg&Hck&Hk);
    rewrite Hpg; cbn [mbind res_mbind]; rewrite Hck, Hk; cbn [mbind res_mbind].
  - destruct Ht as (es&F0&Hn&_&Hg). exists id, stk, es, F0, m, m'. split_and!; try done. apply Hg.
  - destruct Ht as (lm&seps&F0&Hn&Hs&_). rewrite bool_decide_true by done.
    rewrite (child_at s lo lm seps id 0 [] lo lm (map (λ e, (Some e.1, e.2)) seps)) by done.
    cbn [mbind res_mbind].
    apply seg_cons_inv in Hs as (b&F1&F2&m1&m2&_&Ht&Hs&_&_&->).
    rewrite <- app_assoc. eapply IH; [exact Ht| |lia|cbn [length]; lia].
    eapply (stack_cons s h id lm seps lo b hi 1); [done|lia|exact Hs|done].
Qed.

Lemma climb_spec s h stk m hi :
  stack_rep s h stk m → h + length stk < 64 →
  ∃ c, climb_loop stk hi s = Ok c ∧ chi c = hi ∧
    (m = [] ∧ done c = true ∨
     done c = false ∧ ∃ id es F0 m0 m2, cleaf c = Some (id, 0) ∧ lnode s id es F0 m0 ∧ m0 ≠ [] ∧
       stack_rep s 0 (stack c) m2 ∧ length (stack c) < 64 ∧ m = m0 ++ m2).
Proof.
  intros Hstk. induction Hstk as [h|h id lm seps lo b hi' i F stk m1 m2 Hn Hi Hs Hstk IH]; intros Hh;
    cbn [climb_loop].
  - eexists. split; [done|]. split; [done|]. by left.
  - rewrite page_law by apply Hn. cbn [mbind res_mbind].
    rewrite (nr_nkeys _ _ _ _ (bn_page _ _ _ _ Hn)), length_map. cbn [length] in Hh.
    case_bool_decide as Hle.
    + destruct (lookup_lt_is_Some_2 (children lo lm seps) i) as [[a c] Hc].
      { rewrite length_children. lia. }
      rewrite (drop_S _ _ _ Hc) in Hs.
      apply seg_cons_inv in Hs as (b'&F1&F2&n1&n2&->&Ht&Hs&_&_&->).
      rewrite (child_at s lo lm seps id i (take i (children lo lm seps)) b c (drop (S i) (children lo lm seps)));
        [|done|by rewrite take_drop_middle|rewrite length_take, length_children; lia].
      cbn [mbind res_mbind]. rewrite <- app_assoc.
      destruct (climb_down_spec s h b b' c F1 n1 ((id, i + 1) :: stk) (n2 ++ m2) 64)
        as (id'&stk'&es&F0&m0&m3&Hd&?&?&Hlen&->&?); [done| |lia|cbn [length]; lia|].
      { replace (i + 1) with (S i) by lia.
        eapply (stack_cons s h id lm seps lo b' hi' (S i)); [done|lia|exact Hs|done]. }
      rewrite Hd. cbn [mbind res_mbind]. eexists. split; [done|]. split; [done|]. right.
      split; [done|]. exists id', es, F0, m0, m3. cbn [cleaf stack]. split_and!; try done.
    + assert (i = S (length seps)) as -> by lia.
      rewrite drop_ge in Hs by (rewrite length_children; lia). inversion Hs; subst.
      apply IH. lia.
Qed.

(** ** Positioning *)

Lemma leaf_start_spec s id es F0 m lo :
  lnode s id es F0 m → kv_sorted m →
  ∃ pos, match lo with
         | None => Ok 0
         | Some (k, inclusive) =>
             f ← search (bytes_at s id) k;
             Ok (match f with
                 | FoundAt i => if (inclusive : bool) then i else i + 1
                 | NotFound i => i
                 end)
         end = Ok pos ∧ filter (λ e, after lo e.1 = true) m = drop pos m.
Proof.
  intros Hn Hs. destruct lo as [[k inc]|].
  2:{ exists 0. split; [done|]. by apply filter_all. }
  destruct (found_leaf content_hash _ _ _ _ _ k Hn Hs) as (f&Hf&Hspec). rewrite Hf. cbn [mbind res_mbind].
  eexists. split; [done|]. unfold after.
  assert (∀ j e, m !! j = Some e → m.*1 !! j = Some e.1) as Hfst.
  { intros j e He. by rewrite list_lookup_fmap, He. }
  destruct f as [i|i].
  - simpl in Hspec. pose proof (λ i j a b, sorted_lookup_lt m.*1 i j a b Hs) as Hlt. apply filter_suffix.
    + intros j e Hj He. apply Hfst in He. destruct (decide (j = i)) as [->|Hne].
      * destruct inc; [lia|]. rewrite Hspec in He. injection He as <-. by rewrite lex_cmp_refl.
      * assert (key_lt e.1 k) by (eapply Hlt; [|done|done]; destruct inc; lia).
        destruct (lex_cmp_spec k e.1); [korder|korder|done].
    + intros j e Hj He. apply Hfst in He. destruct (decide (j = i)) as [->|Hne].
      * destruct inc; [|lia]. rewrite Hspec in He. injection He as <-. by rewrite lex_cmp_refl.
      * assert (key_lt k e.1) by (eapply Hlt; [|done|done]; destruct inc; lia).
        destruct (lex_cmp_spec k e.1); [korder|done|korder].
  - destruct Hspec as (_&Hlo&Hhi). apply filter_suffix.
    + intros j e Hj He. apply Hfst in He. specialize (Hlo _ _ Hj He).
      destruct (lex_cmp_spec k e.1); [korder|korder|done].
    + intros j e Hj He. apply Hfst in He. specialize (Hhi _ _ Hj He).
      destruct (lex_cmp_spec k e.1); [korder|done|korder].
Qed.

Lemma filter_after_middle lo k inc (m1 m2 m3 : kvs) :
  lo = Some (k, inc) → (∀ x, x ∈ m1.*1 → key_lt x k) → (∀ x, x ∈ m3.*1 → key_lt k x) →
  filter (λ e, after lo e.1 = true) (m1 ++ m2 ++ m3) =
  filter (λ e, after lo e.1 = true) m2 ++ m3.
Proof.
  intros -> H1 H3. rewrite !filter_app, filter_none, (filter_all _ m3); [done|..]; simpl.
  - intros e He. assert (key_lt k e.1) by (apply H3, list_elem_of_fmap; eauto).
    destruct (lex_cmp_spec k e.1); [korder|done|korder].
  - intros e He. assert (key_lt e.1 k) by (apply H1, list_elem_of_fmap; eauto).
    destruct (lex_cmp_spec k e.1); [korder|korder|done].
Qed.

Definition lo_in (lo : option (bytes * bool)) (a b : bnd) : Prop :=
  match lo with None => True | Some (k, _) => above a k ∧ below b k end.

Lemma cursor_loop_spec s h a b id F m stk m' levels lo hi :
  tree s h a b id F m → stack_rep s h stk m' → h < levels → h + length stk < 64 → lo_in lo a b →
  ∃ id' pos stk' es F0 m0 m2,
    cursor_loop levels lo id (MkCursor stk None hi false) s =
      Ok (MkCursor stk' (Some (id', pos)) hi false) ∧
    lnode s id' es F0 m0 ∧ stack_rep s 0 stk' m2 ∧ length stk' < 64 ∧
    filter (λ e, after lo e.1 = true) m ++ m' = drop pos m0 ++ m2.
Proof.
  revert a b id F m stk m' levels.
  induction h as [|h IH]; intros a b id F m stk m' [|levels] Ht Hstk Hh Hlen Hlo; try lia;
    cbn [cursor_loop]; destruct (tree_page content_hash _ _ _ _ _ _ _ Ht) as (Hpg&Hck&Hk);
    rewrite Hpg; cbn [mbind res_mbind]; rewrite Hck, Hk; cbn [mbind res_mbind].
  - destruct Ht as (es&F0&Hn&_&Hg). rewrite bool_decide_false, bool_decide_true by done.
    destruct (leaf_start_spec _ _ _ _ _ lo Hn (g_sorted _ _ _ Hg)) as (pos&Hst&Hf).
    rewrite Hst. cbn [mbind res_mbind]. exists id, pos, stk, es, F0, m, m'.
    split_and!; try done. by rewrite Hf.
  - destruct Ht as (lm&seps&F0&Hn&Hs&_). rewrite bool_decide_true by done.
    destruct lo as [[k inc]|].
    + destruct Hlo as [Hlo Hhi].
      destruct (branch_descent content_hash _ _ _ _ _ _ _ _ _ k Hn Hs Hlo Hhi)
        as (r1&a'&b'&c&r2&F1&F2&F3&m1&m2&m3&Hdi&Hbc&Hle&Hch&_&Ht&Hs3&_&_&_&_&->&?&?&H1&H3).
      rewrite Hdi. cbn [mbind res_mbind]. rewrite Hbc. cbn [mbind res_mbind].
      rewrite (filter_after_middle _ k inc) by done. rewrite <- app_assoc.
      eapply (IH a' b' c F2 m2); [done| |lia|cbn [length stack]; lia|done].
      eapply (stack_cons s h id lm seps a b' b (length r1 + 1)); [done|lia| |done].
      rewrite Hch, Nat.add_1_r, (cons_middle (a', c)), app_assoc, drop_app_length'; [done|].
      rewrite length_app. simpl. lia.
    + cbn [mbind res_mbind].
      rewrite (child_at s a lm seps id 0 [] a lm (map (λ e, (Some e.1, e.2)) seps)) by done.
      cbn [mbind res_mbind].
      apply seg_cons_inv in Hs as (b'&F1&F2&m1&m2&_&Ht&Hs&_&_&->).
      assert (filter (λ e : bytes * bytes, after None e.1 = true) (m1 ++ m2) ++ m' =
        filter (λ e : bytes * bytes, after None e.1 = true) m1 ++ (m2 ++ m')) as ->.
      { rewrite !filter_all by done. by rewrite app_assoc. }
      eapply (IH a b' lm F1 m1); [done| |lia|cbn [length stack]; lia|done].
      eapply (stack_cons s h id lm seps a b' b 1); [done|lia|exact Hs|done].
Qed.

Lemma cursor_spec s h root F m lo hi :
  tree_rep content_hash s h root F m → h < 64 →
  ∃ c, cursor root lo hi s = Ok c ∧ chi c = hi ∧
    walks s c (filter (λ e, after lo e.1 = true) m).
Proof.
  unfold cursor. intros [(->&->&_)|[Hr Ht]] Hh.
  - rewrite !bool_decide_true by done. eexists. split; [done|]. split; [done|]. by left.
  - rewrite !bool_decide_false by done.
    destruct (cursor_loop_spec s h None None root F m [] [] 64 lo hi)
      as (id&pos&stk&es&F0&m0&m2&->&Hn&Hstk&Hlen&Hf); [done|constructor|lia|simpl; lia|by destruct lo as [[]|]|].
    eexists. split; [done|]. split; [done|]. right. cbn [done stack cleaf]. split; [done|].
    exists (drop pos m0), m2. rewrite app_nil_r in Hf. split_and!; try done; [|by exists es, F0, m0].
    apply kv_sorted_filter, (g_sorted _ _ _ (tree_good _ _ _ _ _ _ _ _ Ht)).
Qed.

(** ** Advancing *)

(** The cursor still has [rest] to yield. *)
Definition cursor_rep s (c : Cursor) (rest : kvs) : Prop :=
  ∃ m, walks s c m ∧ rest = filter (λ e, over (chi c) e.1 = false) m.

Lemma over_mono hi k k' : key_lt k k' → over hi k = true → over hi k' = true.
Proof.
  unfold over. destruct hi as [[hk inc]|]; [|done]. intros Hlt.
  destruct (lex_cmp_spec k hk), (lex_cmp_spec k' hk); try done; korder.
Qed.

Lemma over_rest hi k x (m : kvs) :
  kv_sorted ((k, x) :: m) → over hi k = true → filter (λ e, over hi e.1 = false) m = [].
Proof.
  intros Hs Ho. unfold kv_sorted in Hs. cbn [fmap list_fmap fst] in Hs.
  apply StronglySorted_inv in Hs as [_ Hf]. apply filter_none. intros e He Hx.
  rewrite Forall_forall in Hf. assert (key_lt k e.1) as Hlt by (apply Hf, list_elem_of_fmap; eauto).
  by rewrite (over_mono _ _ _ Hlt Ho) in Hx.
Qed.

Lemma cursor_rep_done s c : done c = true → cursor_rep s c [].
Proof. intros Hd. exists []. split; [by left|done]. Qed.

Lemma kv_sorted_tail e m : kv_sorted (e :: m) → kv_sorted m.
Proof. unfold kv_sorted. cbn [fmap list_fmap]. by intros [? _]%StronglySorted_inv. Qed.

Section Next.
Context {R : Type} (s : St) (f : bytes → LeafVal → res R) (g : bytes → bytes → R).
Context (Hf : ∀ k lv x F, val_rep content_hash s lv x F → f k lv = Ok (g k x)).

(** The outcome of one call, for what was left before it. *)
Definition next_post (rest : kvs) (hi : option (bytes * bool)) (r : res (option R * Cursor)) : Prop :=
  match rest with
  | [] => ∃ c', r = Ok (None, c') ∧ chi c' = hi ∧ cursor_rep s c' []
  | (k, x) :: rest' => ∃ c', r = Ok (Some (g k x), c') ∧ chi c' = hi ∧ cursor_rep s c' rest'
  end.

Lemma next_at_leaf fuel c id pos es F0 m0 m2 :
  done c = false → cleaf c = Some (id, pos) → lnode s id es F0 m0 → pos < length m0 →
  stack_rep s 0 (stack c) m2 → length (stack c) < 64 → kv_sorted (drop pos m0 ++ m2) →
  next_post (filter (λ e, over (chi c) e.1 = false) (drop pos m0 ++ m2)) (chi c)
    (next_with (S fuel) f c s).
Proof.
  intros Hd Hl Hn Hpos Hstk Hlen Hs. cbn [next_with]. rewrite Hd, Hl.
  destruct (leaf_page_of content_hash _ _ _ _ _ Hn) as (Hpg&Hck).
  rewrite Hpg. cbn [mbind res_mbind]. rewrite Hck. cbn [mbind res_mbind].
  pose proof (vals_length _ _ _ _ _ (ln_vals _ _ _ _ _ _ Hn)) as Hle.
  rewrite (nr_nkeys _ _ _ _ (ln_page _ _ _ _ _ _ Hn)), length_map.
  rewrite bool_decide_true by lia.
  destruct (lookup_lt_is_Some_2 es pos) as [[k lv] He]; [lia|].
  destruct (vals_lookup content_hash _ _ _ _ _ _ _ (ln_vals _ _ _ _ _ _ Hn) He)
    as (x&Fx&Hx&Hv&_).
  rewrite (leaf_cell_ok _ _ _ _ (ln_page _ _ _ _ _ _ Hn) pos (k, lv));
    [|by rewrite list_lookup_fmap, He|eapply Forall_lookup_1; [apply Hn|done]].
  cbn [mbind res_mbind]. rewrite (drop_S _ _ _ Hx) in Hs |- *. cbn [app] in Hs |- *.
  destruct (over (chi c) k) eqn:Ho.
  - rewrite filter_cons_False by (simpl; congruence). rewrite (over_rest _ _ _ _ Hs Ho).
    eexists. split; [done|]. split; [done|]. by apply cursor_rep_done.
  - rewrite filter_cons_True by done. rewrite (Hf _ _ _ _ Hv). cbn [mbind res_mbind next_post].
    eexists. split; [done|]. split; [done|]. exists (drop (S pos) m0 ++ m2). split; [|done].
    right. split; [done|]. exists (drop (S pos) m0), m2. cbn [stack cleaf with_leaf].
    split_and!; [done|by eapply kv_sorted_tail|done|done|].
    exists es, F0, m0. by rewrite Nat.add_1_r.
Qed.

Lemma next_after_climb fuel stk hi m :
  stack_rep s 0 stk m → length stk < 64 → kv_sorted m →
  next_post (filter (λ e, over hi e.1 = false) m) hi
    (c ← climb_loop stk hi s; next_with (S fuel) f c s).
Proof.
  intros Hstk Hlen Hs. destruct (climb_spec s 0 stk m hi Hstk) as (c&Hc&<-&Hcase); [lia|].
  rewrite Hc. cbn [mbind res_mbind]. destruct Hcase as [[-> Hd]|(Hd&id&es&F0&m0&m2&Hl&Hn&Hne&Hstk2&Hlen2&->)].
  - cbn [next_with]. rewrite Hd. eexists. split; [done|]. split; [done|]. by apply cursor_rep_done.
  - eapply (next_at_leaf fuel c id 0 es F0 m0 m2); try done. destruct m0; [done|simpl; lia].
Qed.

Lemma next_with_spec fuel c rest :
  cursor_rep s c rest → 1 < fuel → next_post rest (chi c) (next_with fuel f c s).
Proof.
  intros (m&Hw&->) Hfu. destruct fuel as [|[|fuel]]; [lia..|].
  destruct Hw as [[Hd ->]|(Hd&m1&m2&->&Hs&Hstk&Hlen&Hleaf)].
  { cbn [next_with]. rewrite Hd. eexists. split; [done|]. split; [done|]. by apply cursor_rep_done. }
  destruct (cleaf c) as [[id pos]|] eqn:Hl.
  - destruct Hleaf as (es&F0&m0&Hn&->). destruct (decide (pos < length m0)) as [Hpos|Hpos].
    { eapply next_at_leaf; eauto. }
    rewrite (drop_ge m0) in Hs |- * by lia. cbn [app] in Hs |- *.
    cbn [next_with]. rewrite Hd, Hl.
    destruct (leaf_page_of content_hash _ _ _ _ _ Hn) as (Hpg&Hck).
    rewrite Hpg. cbn [mbind res_mbind]. rewrite Hck. cbn [mbind res_mbind].
    pose proof (vals_length _ _ _ _ _ (ln_vals _ _ _ _ _ _ Hn)) as Hle.
    rewrite (nr_nkeys _ _ _ _ (ln_page _ _ _ _ _ _ Hn)), length_map.
    rewrite bool_decide_false by lia. by apply next_after_climb.
  - subst m1. cbn [app] in *. cbn [next_with]. rewrite Hd, Hl. by apply next_after_climb.
Qed.
End Next.

(** ** Counting *)

Lemma count_loop_spec s id es F0 m0 hi k pos n :
  lnode s id es F0 m0 → kv_sorted (drop pos m0) → pos + k = length m0 →
  count_loop (bytes_at s id) hi pos k n =
    Ok (n + length (filter (λ e, over hi e.1 = false) (drop pos m0))).
Proof.
  intros Hn. revert pos n. induction k as [|k IH]; intros pos n Hs Hk; cbn [count_loop].
  { rewrite drop_ge by lia. f_equal. simpl. lia. }
  pose proof (vals_length _ _ _ _ _ (ln_vals _ _ _ _ _ _ Hn)) as Hle.
  destruct (lookup_lt_is_Some_2 es pos) as [[key lv] He]; [lia|].
  destruct (vals_lookup content_hash _ _ _ _ _ _ _ (ln_vals _ _ _ _ _ _ Hn) He) as (x&Fx&Hx&_&_).
  rewrite (leaf_cell_ok _ _ _ _ (ln_page _ _ _ _ _ _ Hn) pos (key, lv));
    [|by rewrite list_lookup_fmap, He|eapply Forall_lookup_1; [apply Hn|done]].
  cbn [mbind res_mbind]. rewrite (drop_S _ _ _ Hx) in Hs |- *. destruct (over hi key) eqn:Ho.
  - rewrite filter_cons_False by (simpl; congruence).
    by rewrite (over_rest hi key x), Nat.add_0_r.
  - rewrite IH; [|by eapply kv_sorted_tail|lia]. rewrite filter_cons_True by done. f_equal. simpl. lia.
Qed.

(** A count of [n] stands for [n] calls of [next]; after a count of 0 the cursor is
    exhausted. *)
Definition count_post s (rest : kvs) (r : res (option nat * Cursor)) : Prop :=
  ∃ o c', r = Ok (o, c') ∧
    match o with
    | None => rest = []
    | Some n => n ≤ length rest ∧ cursor_rep s c' (drop n rest) ∧ (n = 0 → done c' = true)
    end.

Lemma over_last hi (m : kvs) e :
  kv_sorted m → last m = Some e → over hi e.1 = false →
  filter (λ e, over hi e.1 = false) m = m.
Proof.
  intros Hs Hl Ho. apply filter_all. intros e' He'. destruct (over hi e'.1) eqn:Ho'; [|done].
  apply last_Some in Hl as [l' ->]. apply elem_of_app in He' as [He'|He'].
  - apply kv_sorted_app in Hs as (_&_&Hx).
    assert (key_lt e'.1 e.1) as Hlt.
    { apply Hx; [apply list_elem_of_fmap; eauto|constructor]. }
    by rewrite (over_mono _ _ _ Hlt Ho') in Ho.
  - apply list_elem_of_singleton in He'. congruence.
Qed.

Lemma whole_eq hi k :
  match hi with
  | None => true
  | Some (hk, inc) => match lex_cmp k hk with Lt => true | Eq => inc | Gt => false end
  end = negb (over hi k).
Proof. destruct hi as [[hk inc]|]; [|done]. simpl. destruct (lex_cmp k hk), inc; done. Qed.

Lemma count_at_leaf s fuel c id pos es F0 m0 m2 :
  done c = false → cleaf c = Some (id, pos) → lnode s id es F0 m0 → pos < length m0 →
  stack_rep s 0 (stack c) m2 → length (stack c) < 64 → kv_sorted (drop pos m0 ++ m2) →
  count_post s (filter (λ e, over (chi c) e.1 = false) (drop pos m0 ++ m2))
    (next_leaf_count (S fuel) c s).
Proof.
  intros Hd Hl Hn Hpos Hstk Hlen Hs. cbn [next_leaf_count]. rewrite Hd, Hl.
  destruct (leaf_page_of content_hash _ _ _ _ _ Hn) as (Hpg&Hck).
  rewrite Hpg. cbn [mbind res_mbind]. rewrite Hck. cbn [mbind res_mbind].
  pose proof (vals_length _ _ _ _ _ (ln_vals _ _ _ _ _ _ Hn)) as Hle.
  rewrite (nr_nkeys _ _ _ _ (ln_page _ _ _ _ _ _ Hn)), length_map.
  rewrite bool_decide_false by lia.
  destruct (lookup_lt_is_Some_2 es (length es - 1)) as [[k lv] He]; [lia|].
  destruct (vals_lookup content_hash _ _ _ _ _ _ _ (ln_vals _ _ _ _ _ _ Hn) He) as (x&Fx&Hx&_&_).
  assert (last (drop pos m0) = Some (k, x)) as Hlast.
  { rewrite last_lookup, lookup_drop, length_drop.
    replace (pos + pred (length m0 - pos)) with (length es - 1) by lia. done. }
  assert (match chi c with
          | None => Ok true
          | Some (hk, inc) =>
              '(last, _) ← leaf_cell (bytes_at s id) (length es - 1);
              Ok (match lex_cmp last hk with Lt => true | Eq => inc | Gt => false end)
          end = Ok (negb (over (chi c) k))) as ->.
  { rewrite <- whole_eq. destruct (chi c) as [[hk inc]|]; [|done].
    rewrite (leaf_cell_ok _ _ _ _ (ln_page _ _ _ _ _ _ Hn) _ (k, lv));
      [done|by rewrite list_lookup_fmap, He|eapply Forall_lookup_1; [apply Hn|done]]. }
  cbn [mbind res_mbind]. pose proof Hs as (Hs1&Hs2&Hx12)%kv_sorted_app. rewrite filter_app.
  destruct (over (chi c) k) eqn:Ho; cbn [negb].
  - rewrite (count_loop_spec s id es F0 m0) by (done || lia). cbn [mbind res_mbind Nat.add].
    rewrite (filter_none _ m2), app_nil_r.
    2:{ intros e He2 Hf. assert (key_lt k e.1) as Hlt.
        { apply Hx12; [|apply list_elem_of_fmap; eauto].
          apply last_Some in Hlast as [l' ->]. rewrite fmap_app. apply elem_of_app. right. constructor. }
        by rewrite (over_mono _ _ _ Hlt Ho) in Hf. }
    eexists _, _. split; [done|]. split_and!; [lia| |].
    + rewrite drop_all. by apply cursor_rep_done.
    + done.
  - rewrite (over_last _ _ _ Hs1 Hlast Ho). eexists _, _. split; [done|].
    assert (length (drop pos m0) = length es - pos) as Hdl by (rewrite length_drop; lia).
    split_and!; [rewrite length_app; lia| |lia].
    rewrite <- Hdl, drop_app_length. exists m2. split; [|done]. right. split; [done|].
    exists [], m2. cbn [stack cleaf with_leaf]. done.
Qed.

Lemma count_after_climb s fuel stk hi m :
  stack_rep s 0 stk m → length stk < 64 → kv_sorted m →
  count_post s (filter (λ e, over hi e.1 = false) m)
    (c ← climb_loop stk hi s; next_leaf_count (S fuel) c s).
Proof.
  intros Hstk Hlen Hs. destruct (climb_spec s 0 stk m hi Hstk) as (c&Hc&<-&Hcase); [lia|].
  rewrite Hc. cbn [mbind res_mbind].
  destruct Hcase as [[-> Hd]|(Hd&id&es&F0&m0&m2&Hl&Hn&Hne&Hstk2&Hlen2&->)].
  - cbn [next_leaf_count]. rewrite Hd. by eexists _, _.
  - eapply (count_at_leaf s fuel c id 0 es F0 m0 m2); try done. destruct m0; [done|simpl; lia].
Qed.

Lemma next_leaf_count_spec s fuel c rest :
  cursor_rep s c rest → 2 < fuel → count_post s rest (next_leaf_count fuel c s).
Proof.
  intros (m&Hw&->) Hfu.
  destruct fuel as [|[|[|fuel]]]; [lia..|].
  destruct Hw as [[Hd ->]|(Hd&m1&m2&->&Hs&Hstk&Hlen&Hleaf)].
  { cbn [next_leaf_count]. rewrite Hd. by eexists _, _. }
  destruct (cleaf c) as [[id pos]|] eqn:Hl.
  2:{ subst m1. cbn [next_leaf_count]. rewrite Hd, Hl.
      by apply (count_after_climb s (S fuel) (stack c) (chi c) m2). }
  destruct Hleaf as (es&F0&m0&Hn&->). destruct (decide (pos < length m0)) as [Hpos|Hpos].
  - eapply count_at_leaf; eauto.
  - rewrite (drop_ge m0) in Hs |- * by lia. cbn [app] in Hs |- *.
    cbn [next_leaf_count]. rewrite Hd, Hl.
    destruct (leaf_page_of content_hash _ _ _ _ _ Hn) as (Hpg&Hck).
    rewrite Hpg. cbn [mbind res_mbind]. rewrite Hck. cbn [mbind res_mbind].
    pose proof (vals_length _ _ _ _ _ (ln_vals _ _ _ _ _ _ Hn)) as Hle.
    rewrite (nr_nkeys _ _ _ _ (ln_page _ _ _ _ _ _ Hn)), length_map.
    rewrite bool_decide_true by lia. cbn [done cleaf with_leaf]. rewrite Hd.
    by apply (count_after_climb s fuel (stack c) (chi c) m2).
Qed.

(** ** Draining a cursor *)

(** Call [next] until it returns nothing. *)
Fixpoint drain (n : nat) (c : Cursor) (s : St) : res kvs :=
  match n with
  | O => Panic
  | S n =>
      '(o, c) ← next content_hash 2 c s;
      match o with
      | None => Ok []
      | Some e => es ← drain n c s; Ok (e :: es)
      end
  end.

Definition scan (n : nat) (root : Z) (lo hi : option (bytes * bool)) (s : St) : res kvs :=
  c ← cursor root lo hi s; drain n c s.

(** The loop of [count_range] and [count_index_entries]. *)
Fixpoint count_leaves (n : nat) (c : Cursor) (acc : nat) (s : St) : res nat :=
  match n with
  | O => Panic
  | S n =>
      '(o, c) ← next_leaf_count 3 c s;
      match o with
      | None => Ok acc
      | Some k => count_leaves n c (acc + k) s
      end
  end.

Definition count_all (n : nat) (root : Z) (lo hi : option (bytes * bool)) (s : St) : res nat :=
  c ← cursor root lo hi s; count_leaves n c 0 s.

Lemma next_spec s c rest : ok s → cursor_rep s c rest →
  next_post s (λ k x, (k, x)) rest (chi c) (next content_hash 2 c s).
Proof.
  intros Hok Hc. apply next_with_spec; [|done|lia]. intros k lv x F Hv.
  by rewrite (read_leaf_val_spec _ _ _ _ _ Hok Hv).
Qed.

Lemma next_key_spec s c rest : cursor_rep s c rest →
  next_post s (λ k _, k) rest (chi c) (next_key 2 c s).
Proof. intros Hc. apply next_with_spec; [done|done|lia]. Qed.

Lemma drain_spec s n c rest : ok s → cursor_rep s c rest → length rest < n →
  drain n c s = Ok rest.
Proof.
  intros Hok. revert c rest. induction n as [|n IH]; intros c rest Hc Hn; [lia|].
  pose proof (next_spec s c rest Hok Hc) as Hp. cbn [drain].
  destruct rest as [|[k x] rest]; destruct Hp as (c'&->&_&Hc'); cbn [mbind res_mbind]; [done|].
  cbn [length] in Hn. rewrite (IH c' rest) by (done || lia). done.
Qed.

Lemma count_leaves_spec s n c acc rest : cursor_rep s c rest → S (length rest) < n →
  count_leaves n c acc s = Ok (acc + length rest).
Proof.
  revert c acc rest. induction n as [|n IH]; intros c acc rest Hc Hn; [lia|].
  destruct (next_leaf_count_spec s 3 c rest Hc ltac:(lia)) as (o&c'&Hr&Hpost).
  cbn [count_leaves]. rewrite Hr. cbn [mbind res_mbind]. destruct o as [k|].
  2:{ subst rest. f_equal. cbn [length]. lia. }
  destruct Hpost as (Hk&Hc'&H0). destruct (decide (k = 0)) as [->|Hk0].
  - assert (rest = []) as ->.
    { destruct Hc' as (m&[[_ ->]|[Hd _]]&Hm); [exact Hm|]. by rewrite H0 in Hd. }
    destruct n as [|n]; [cbn [length] in *; lia|]. cbn [count_leaves next_leaf_count].
    by rewrite (H0 eq_refl).
  - rewrite (IH c' _ (drop k rest)), length_drop by (done || (rewrite length_drop; lia)). f_equal. lia.
Qed.

Lemma cursor_in_range s h root F m lo hi :
  tree_rep content_hash s h root F m → h < 64 →
  ∃ c, cursor root lo hi s = Ok c ∧ cursor_rep s c (in_range lo hi m).
Proof.
  intros Ht Hh. destruct (cursor_spec s h root F m lo hi Ht Hh) as (c&Hc&<-&Hw).
  exists c. split; [done|]. by exists (filter (λ e, after lo e.1 = true) m).
Qed.
End Rep.
