(* ===== verification/BtreeCollect.v ===== *)
(** Page accounting: [collect_pages] and [collect_extents] of
    [crates/mpedb-core/src/btree.rs]. On a tree they visit exactly the pages
    and extents the tree owns, each once. *)

From S2P Require Import Prelude BtreeNode PageStore Btree Overflow KvMap BtreeRep.

(** * The code *)

Section Code.
Context {St : Type} `{!PageStore St}.

Fixpoint collect_chain (fuel hops : nat) (total_len oid : Z) (out : gset Z) (s : St)
  : res (gset Z) :=
  match fuel with
  | O => Panic
  | S fuel =>
      if bool_decide (oid = 0%Z) then Ok out
      else if bool_decide (Z.to_nat total_len / OVERFLOW_CAP + 2 < hops)
      then Err (corrupt "overflow chain too long")
      else if bool_decide (oid ∈ out) then Err (corrupt "overflow page reachable twice")
      else
        p ← ps_page oid s;
        collect_chain fuel (S hops) total_len (extra p) ({[oid]} ∪ out) s
  end.

Fixpoint collect_vals (p : bytes) (i k : nat) (out : gset Z) (s : St) : res (gset Z) :=
  match k with
  | O => Ok out
  | S k =>
      '(_, v) ← leaf_cell p i;
      out ← match v with
            | Overflow total_len first_page =>
                collect_chain (Z.to_nat total_len / OVERFLOW_CAP + 5) 0 total_len first_page out s
            | _ => Ok out
            end;
      collect_vals p (S i) k out s
  end.

(** The children of a branch in the order the code pushes them. *)
Definition pushed_children (p : bytes) : res (list Z) :=
  cs ← mapM (λ i, '(_, c) ← branch_cell p i; Ok c) (seq 0 (nkeys p));
  Ok (extra p :: cs).

Fixpoint collect_pages_loop (fuel : nat) (stk : list Z) (out : gset Z) (s : St)
  : res (gset Z) :=
  match fuel with
  | O => Panic
  | S fuel =>
      match stk with
      | [] => Ok out
      | id :: stk =>
          if bool_decide (id ∈ out)
          then Err (corrupt "page reachable twice (cycle or shared page)")
          else
            let out := {[id]} ∪ out in
            p ← ps_page id s;
            check_node p;;
            if bool_decide (kind p = KIND_BRANCH) then
              cs ← pushed_children p;
              collect_pages_loop fuel (reverse cs ++ stk) out s
            else if bool_decide (kind p = KIND_LEAF) then
              out ← collect_vals p 0 (nkeys p) out s;
              collect_pages_loop fuel stk out s
            else Err (corrupt "unexpected page kind in collect")
      end
  end.

Definition collect_pages (fuel : nat) (root : Z) (out : gset Z) (s : St) : res (gset Z) :=
  if bool_decide (root = 0%Z) then Ok out else collect_pages_loop fuel [root] out s.

(** The extents of the leaf cells from [i] on, appended to [out]. *)
Fixpoint extent_vals (p : bytes) (i k : nat) (out : list (Z * Z)) : res (list (Z * Z)) :=
  match k with
  | O => Ok out
  | S k =>
      '(_, v) ← leaf_cell p i;
      extent_vals p (S i) k (match v with Extent start_page _ npages => out ++ [(start_page, npages)] | _ => out end)
  end.

Fixpoint collect_extents_loop (fuel : nat) (stk : list Z) (out : list (Z * Z)) (s : St) : res (list (Z * Z)) :=
  match fuel with
  | O => Panic
  | S fuel =>
      match stk with
      | [] => Ok out
      | id :: stk =>
          p ← ps_page id s;
          check_node p;;
          if bool_decide (kind p = KIND_BRANCH) then
            cs ← pushed_children p;
            collect_extents_loop fuel (reverse cs ++ stk) out s
          else if bool_decide (kind p = KIND_LEAF) then
            out ← extent_vals p 0 (nkeys p) out;
            collect_extents_loop fuel stk out s
          else Err (corrupt "unknown node kind")
      end
  end.

Definition collect_extents (fuel : nat) (root : Z) (out : list (Z * Z)) (s : St) : res (list (Z * Z)) :=
  if bool_decide (root = 0%Z) then Ok out else collect_extents_loop fuel [root] out s.
End Code.

(** * The pages of a footprint *)

Definition pages_of (F : rset) : gset Z :=
  set_omap (λ r, match r with inl id => Some id | inr _ => None end) F.

Lemma elem_of_pages_of F id : id ∈ pages_of F ↔ Pg id ∈ F.
Proof.
  unfold pages_of. rewrite elem_of_set_omap. split.
  - by intros ([|] & ? & [= ->]).
  - intros. by exists (Pg id).
Qed.

Lemma pages_of_union F G : pages_of (F ∪ G) = pages_of F ∪ pages_of G.
Proof. apply set_eq. intros id. by rewrite elem_of_union, !elem_of_pages_of, elem_of_union. Qed.

Lemma pages_of_pgs ids : pages_of (pgs ids) = list_to_set ids.
Proof. apply set_eq. intros id. by rewrite elem_of_pages_of, elem_of_Pg_pgs, elem_of_list_to_set. Qed.

Lemma pages_of_empty : pages_of ∅ = ∅.
Proof. apply set_eq. intros id. rewrite elem_of_pages_of. split; [by intros ?%elem_of_empty|by intros ?%elem_of_empty]. Qed.

Lemma pages_of_Pg id : pages_of {[Pg id]} = {[id]}.
Proof.
  apply set_eq. intros j. rewrite elem_of_pages_of, !elem_of_singleton.
  split; [by intros [= ->]|by intros ->].
Qed.

Lemma pages_of_Ex e : pages_of {[Ex e]} = ∅.
Proof. apply set_eq. intros j. rewrite elem_of_pages_of, elem_of_singleton. split; [done|by intros ?%elem_of_empty]. Qed.

Lemma pages_of_disjoint F G : F ## G → pages_of F ## pages_of G.
Proof. intros Hd id. rewrite !elem_of_pages_of. apply Hd. Qed.

Section Collect.
Context {St : Type} `{!PageStore St, !StoreView St, !StoreLaws St}.
Context (content_hash : bytes → Z).
Implicit Types (s : St) (F G : rset) (m : kvs).
Abbreviation tree := (tree content_hash).

Lemma collect_chain_page s total fuel hops id chunk next out :
  ok s → page_holds s id chunk next → hops ≤ Z.to_nat total / OVERFLOW_CAP + 2 → id ∉ out →
  collect_chain (S fuel) hops total id out s =
  collect_chain fuel (S hops) total next ({[id]} ∪ out) s.
Proof.
  intros Hok [Hl Hh] Hhops Hn. cbn [collect_chain]. pose proof (id_law s id Hok Hl).
  rewrite bool_decide_false by lia. rewrite bool_decide_false by lia.
  rewrite bool_decide_false by done. rewrite page_law by done. cbn [mbind res_mbind].
  by rewrite (h_next _ _ _ Hh).
Qed.

Lemma collect_chain_lseg s total ids w a e fuel hops out :
  ok s → lseg s a ids w e → NoDup ids → (∀ id, id ∈ ids → id ∉ out) →
  hops + length ids ≤ Z.to_nat total / OVERFLOW_CAP + 3 →
  collect_chain (length ids + fuel) hops total a out s =
  collect_chain fuel (hops + length ids) total e (list_to_set ids ∪ out) s.
Proof.
  intros Hok Hs. revert hops out. induction Hs as [|id chunk next ids w e Hh Hc _ IH];
    intros hops out Hnd Hout Hle; cbn [length Nat.add list_to_set] in *.
  - by rewrite Nat.add_0_r, (left_id_L ∅ (∪)).
  - apply NoDup_cons in Hnd as [Hni Hnd].
    rewrite (collect_chain_page _ _ _ _ _ _ _ _ Hok Hh); [|lia|apply Hout; constructor].
    rewrite IH; [|done| |lia].
    + replace (S hops + length ids) with (hops + S (length ids)) by lia. f_equal.
      rewrite (assoc_L (∪)). f_equal. apply (comm_L (∪)).
    + intros i Hi. apply not_elem_of_union. split; [|apply Hout; by constructor].
      intros ->%elem_of_singleton. done.
Qed.

Lemma collect_chain_spec s first ids x out :
  ok s → chain s first ids x → NoDup ids → (∀ id, id ∈ ids → id ∉ out) →
  collect_chain (Z.to_nat (Z.of_nat (length x)) / OVERFLOW_CAP + 5) 0 (Z.of_nat (length x)) first out s =
    Ok (list_to_set ids ∪ out).
Proof.
  intros Hok Hc Hnd Hout. destruct (chain_length _ _ _ _ Hc) as [[Hlo Hhi] _].
  assert (length ids ≤ length x / OVERFLOW_CAP + 1) as Hn.
  { assert (length ids - 1 ≤ length x / OVERFLOW_CAP); [|lia].
    apply Nat.div_le_lower_bound; [sizes|lia]. }
  destruct Hc as (ids'&w&last&chunk&->&->&Hs&Hh&Hpos). rewrite length_app in Hn. cbn [length] in Hn.
  apply NoDup_app in Hnd as (Hnd&Hni&_). rewrite Nat2Z.id.
  set (q := length (w ++ chunk) / OVERFLOW_CAP) in *.
  replace (q + 5) with (length ids' + S (S (q + 3 - length ids'))) by lia.
  rewrite (collect_chain_lseg _ _ _ _ _ _ _ _ _ Hok Hs); [|done| |rewrite Nat2Z.id; fold q; lia].
  2:{ intros id Hid. apply Hout, elem_of_app. by left. }
  rewrite (collect_chain_page _ _ _ _ _ _ _ _ Hok Hh).
  - cbn [collect_chain]. rewrite bool_decide_true by done.
    rewrite list_to_set_app_L. f_equal. simpl. rewrite (right_id_L ∅ (∪)).
    apply set_eq. intros ?. rewrite !elem_of_union. tauto.
  - rewrite Nat2Z.id. fold q. lia.
  - apply not_elem_of_union. split.
    + rewrite elem_of_list_to_set. intros Hin. eapply Hni; [exact Hin|constructor].
    + apply Hout, elem_of_app. right. constructor.
Qed.

Lemma collect_vals_spec s p es1 es2 F m out :
  ok s → node_rep p KIND_LEAF 0 (map enc_leaf (es1 ++ es2)) → Forall wf_leaf (es1 ++ es2) →
  vals content_hash s es2 F m → pages_of F ## out →
  collect_vals p (length es1) (length es2) out s = Ok (pages_of F ∪ out).
Proof.
  intros Hok Hr Hw Hv. revert es1 out Hr Hw.
  induction Hv as [|k lv x es2 F1 F2 m Hx Hd _ IH]; intros es1 out Hr Hw Hdj; cbn [collect_vals length].
  { by rewrite pages_of_empty, (left_id_L ∅ (∪)). }
  rewrite pages_of_union in Hdj |- *. apply disjoint_union_l in Hdj as [Hd1 Hd2].
  pose proof (pages_of_disjoint _ _ Hd) as Hdp.
  assert ((es1 ++ (k, lv) :: es2) !! length es1 = Some (k, lv)) as Hi.
  { rewrite lookup_app_r, Nat.sub_diag by lia. done. }
  rewrite (leaf_cell_ok _ _ _ _ Hr (length es1) (k, lv));
    [|by rewrite list_lookup_fmap, Hi|by eapply Forall_lookup_1]. cbn [mbind res_mbind].
  assert (match lv with
          | Overflow total_len first_page =>
              collect_chain (Z.to_nat total_len / OVERFLOW_CAP + 5) 0 total_len first_page out s
          | _ => Ok out
          end = Ok (pages_of F1 ∪ out)) as ->.
  { destruct lv as [b|t f|st t n|hh t]; simpl in Hx.
    - destruct Hx as [_ ->]. by rewrite pages_of_empty, (left_id_L ∅ (∪)).
    - destruct Hx as (ids&Hc&Hnd&->&->). rewrite pages_of_pgs in *. apply collect_chain_spec; try done.
      intros id Hid Ho. by eapply Hd1; [apply elem_of_list_to_set|].
    - destruct Hx as (_&_&_&->). by rewrite pages_of_Ex, (left_id_L ∅ (∪)).
    - destruct Hx as (_&_&_&->). by rewrite pages_of_empty, (left_id_L ∅ (∪)). }
  cbn [mbind res_mbind].
  replace (S (length es1)) with (length (es1 ++ [(k, lv)])) by (rewrite length_app; simpl; lia).
  rewrite IH; [|by rewrite <- app_assoc|by rewrite <- app_assoc|].
  - f_equal. apply set_eq. intros ?. rewrite !elem_of_union. tauto.
  - apply disjoint_union_r. done.
Qed.

(** The trees still to visit, with disjoint footprints. *)
Inductive pend s : list Z → rset → Prop :=
| pend_nil : pend s [] ∅
| pend_cons h lo hi id F m ids G :
    tree s h lo hi id F m → F ## G → pend s ids G → pend s (id :: ids) (F ∪ G).

Lemma pend_seg s h a e cs F m ids G :
  seg (tree s h) a e cs F m → pend s ids G → F ## G → pend s (reverse (cs.*2) ++ ids) (F ∪ G).
Proof.
  intros Hs. revert ids G. induction Hs as [|a b e c cs F1 F2 m1 m2 Ht Hd _ IH]; intros ids G Hp Hdj.
  - by rewrite (left_id_L ∅ (∪)).
  - rewrite fmap_cons, reverse_cons, <- app_assoc. cbn [app snd].
    replace (F1 ∪ F2 ∪ G) with (F2 ∪ (F1 ∪ G)) by unions.
    apply IH; [|disj]. econstructor; [done|disj|done].
Qed.

Lemma pushed_children_spec p lo lm seps :
  node_rep p KIND_BRANCH lm (map enc_branch seps) → Forall wf_branch seps →
  pushed_children p = Ok (children lo lm seps).*2.
Proof.
  intros Hr Hw. unfold pushed_children. rewrite (nr_nkeys _ _ _ _ Hr), length_map.
  rewrite (mapM_seq seps _ snd).
  - cbn [mbind res_mbind]. rewrite (nr_extra _ _ _ _ Hr). unfold children. cbn [fmap list_fmap snd].
    do 2 f_equal. clear. induction seps as [|e seps IH]; [done|]. simpl. by rewrite IH.
  - intros i e Hi. rewrite (branch_cell_ok _ _ _ _ Hr i e); [by destruct e| |by eapply Forall_lookup_1].
    by rewrite list_lookup_fmap, Hi.
Qed.

(** Visiting a node leaves fewer resources to visit. *)
Lemma visited_smaller (F F0 G G' : rset) id fuel : F = {[Pg id]} ∪ F0 → Pg id ∉ F0 → F ## G → G' ⊆ F0 ∪ G →
  size (F ∪ G) < S fuel → size G' < fuel.
Proof.
  intros -> Hni Hd Hsub Hsz.
  assert (size (F0 ∪ G) < size ({[Pg id]} ∪ F0 ∪ G)).
  { apply subset_size. split; [intros y; rewrite !elem_of_union; tauto|].
    intros Hs. assert (Pg id ∈ F0 ∪ G) as [?|?]%elem_of_union; [|done|].
    - apply Hs. by do 2 apply elem_of_union_l; apply elem_of_singleton.
    - eapply Hd; [|done]. by apply elem_of_union_l, elem_of_singleton. }
  pose proof (subseteq_size _ _ Hsub). lia.
Qed.

Lemma collect_pages_loop_spec s fuel stk G out :
  ok s → pend s stk G → pages_of G ## out → size G < fuel →
  collect_pages_loop fuel stk out s = Ok (pages_of G ∪ out).
Proof.
  intros Hok. revert stk G out.
  induction fuel as [|fuel IH]; intros stk G out Hp Hdj Hsz; [lia|]. cbn [collect_pages_loop].
  destruct Hp as [|h lo hi id F m ids G Ht Hd Hp].
  { by rewrite pages_of_empty, (left_id_L ∅ (∪)). }
  destruct (tree_root_live content_hash _ _ _ _ _ _ _ Ht) as [Hl HinF].
  rewrite pages_of_union in Hdj. apply disjoint_union_l in Hdj as [Hd1 Hd2].
  rewrite bool_decide_false by (intros Ho; eapply Hd1; [by apply elem_of_pages_of|done]).
  destruct (tree_page content_hash _ _ _ _ _ _ _ Ht) as (Hpg&Hck&Hk).
  rewrite Hpg. cbn [mbind res_mbind]. rewrite Hck, Hk. cbn [mbind res_mbind].
  pose proof (pages_of_disjoint _ _ Hd) as HdFG.
  destruct h as [|h].
  - destruct Ht as (es&F0&Hn&->&_). rewrite bool_decide_false, bool_decide_true by done.
    rewrite pages_of_union, pages_of_Pg in *. disj.
    rewrite (nr_nkeys _ _ _ _ (ln_page _ _ _ _ _ _ Hn)), length_map.
    rewrite (collect_vals_spec s _ [] es F0 m); [|done|apply Hn|apply Hn|apply Hn|].
    2:{ apply disjoint_union_r. split; [|done]. apply disjoint_singleton_r.
        rewrite elem_of_pages_of. apply Hn. }
    cbn [mbind res_mbind]. rewrite (IH ids G); [|done| |].
    + f_equal. rewrite !pages_of_union, pages_of_Pg. apply set_eq. intros ?. rewrite !elem_of_union. tauto.
    + disj.
    + apply (visited_smaller ({[Pg id]} ∪ F0) F0 G G id); [done|apply Hn|disj|apply union_subseteq_r|done].
  - destruct Ht as (lm&seps&F0&Hn&Hs&Hni&->). rewrite bool_decide_true by done.
    rewrite pages_of_union, pages_of_Pg in *. disj.
    rewrite (pushed_children_spec _ lo lm seps) by apply Hn. cbn [mbind res_mbind].
    rewrite (IH _ (F0 ∪ G)).
    + f_equal. rewrite !pages_of_union, pages_of_Pg. apply set_eq. intros ?. rewrite !elem_of_union. tauto.
    + eapply pend_seg; [done|done|disj].
    + rewrite pages_of_union. disj. apply disjoint_singleton_r. by rewrite elem_of_pages_of.
    + apply (visited_smaller ({[Pg id]} ∪ F0) F0 G (F0 ∪ G) id); [done|done|disj|done|done].
Qed.

Lemma collect_pages_spec s h root F m fuel :
  ok s → tree_rep content_hash s h root F m → S (size F) < fuel →
  collect_pages fuel root ∅ s = Ok (pages_of F).
Proof.
  intros Hok [(->&->&->)|[Hr Ht]] Hf; unfold collect_pages.
  - rewrite bool_decide_true by done. by rewrite pages_of_empty.
  - rewrite bool_decide_false by done. rewrite (collect_pages_loop_spec s fuel [root] F ∅).
    + by rewrite (right_id_L ∅ (∪)).
    + done.
    + rewrite <- (right_id_L ∅ (∪) F). econstructor; [done|disj|constructor].
    + disj.
    + lia.
Qed.

(** [l] lists the extents of [F], each once. *)
Definition extents_listed (l : list Z) F : Prop := NoDup l ∧ ∀ e, e ∈ l ↔ Ex e ∈ F.

Lemma extents_listed_nil F : (∀ e, Ex e ∉ F) → extents_listed [] F.
Proof. intros HF. split; [constructor|]. intros e. split; [by intros ?%not_elem_of_nil|by intros ?%HF]. Qed.

Lemma extents_listed_app l1 l2 F1 F2 : F1 ## F2 → extents_listed l1 F1 → extents_listed l2 F2 →
  extents_listed (l1 ++ l2) (F1 ∪ F2).
Proof.
  intros Hd [N1 E1] [N2 E2]. split.
  - apply NoDup_app. split_and!; [done| |done]. intros e He1%E1 He2%E2. by eapply Hd.
  - intros e. by rewrite elem_of_app, elem_of_union, E1, E2.
Qed.

Lemma extents_listed_page id l F : extents_listed l F → extents_listed l ({[Pg id]} ∪ F).
Proof. intros [Hn He]. split; [done|]. intros e. rewrite He, elem_of_union, elem_of_singleton. naive_solver. Qed.

Lemma val_extents s lv x F : val_rep content_hash s lv x F →
  extents_listed (match lv with Extent start _ _ => [start] | _ => [] end) F.
Proof.
  destruct lv as [b|t f|st t n|hh t]; simpl.
  - intros [_ ->]. apply extents_listed_nil. intros e ?%elem_of_empty. done.
  - intros (ids&_&_&_&->). apply extents_listed_nil. intros e. unfold pgs. set_solver.
  - intros (_&_&_&->). split; [apply NoDup_singleton|]. intros e. rewrite list_elem_of_singleton, elem_of_singleton.
    split; [by intros ->|by intros [= ->]].
  - intros (_&_&_&->). apply extents_listed_nil. intros e ?%elem_of_empty. done.
Qed.

Lemma extent_vals_spec s p es1 es2 F m out :
  node_rep p KIND_LEAF 0 (map enc_leaf (es1 ++ es2)) → Forall wf_leaf (es1 ++ es2) →
  vals content_hash s es2 F m →
  ∃ l, extent_vals p (length es1) (length es2) out = Ok (out ++ l) ∧ extents_listed l.*1 F.
Proof.
  intros Hr Hw Hv. revert es1 out Hr Hw.
  induction Hv as [|k lv x es2 F1 F2 m Hx Hd _ IH]; intros es1 out Hr Hw; cbn [extent_vals length].
  { exists []. rewrite app_nil_r. split; [done|]. apply extents_listed_nil. intros e ?%elem_of_empty. done. }
  assert ((es1 ++ (k, lv) :: es2) !! length es1 = Some (k, lv)) as Hi.
  { rewrite lookup_app_r, Nat.sub_diag by lia. done. }
  rewrite (leaf_cell_ok _ _ _ _ Hr (length es1) (k, lv));
    [|by rewrite list_lookup_fmap, Hi|by eapply Forall_lookup_1]. cbn [mbind res_mbind].
  replace (S (length es1)) with (length (es1 ++ [(k, lv)])) by (rewrite length_app; simpl; lia).
  set (out' := match lv with Extent _ _ _ => _ | _ => _ end).
  destruct (IH (es1 ++ [(k, lv)]) out') as (l&->&Hl); [by rewrite <- app_assoc..|].
  exists (match lv with Extent start _ npages => [(start, npages)] | _ => [] end ++ l). split.
  - unfold out'. f_equal. destruct lv; rewrite <- ?app_assoc; done.
  - rewrite fmap_app. apply extents_listed_app; [done| |done].
    pose proof (val_extents s lv x F1 Hx) as He. by destruct lv.
Qed.

Lemma collect_extents_loop_spec s fuel stk G out :
  ok s → pend s stk G → size G < fuel →
  ∃ l, collect_extents_loop fuel stk out s = Ok (out ++ l) ∧ extents_listed l.*1 G.
Proof.
  intros Hok. revert stk G out.
  induction fuel as [|fuel IH]; intros stk G out Hp Hsz; [lia|]. cbn [collect_extents_loop].
  destruct Hp as [|h lo hi id F m ids G Ht Hd Hp].
  { exists []. rewrite app_nil_r. split; [done|]. apply extents_listed_nil. intros e ?%elem_of_empty. done. }
  destruct (tree_page content_hash _ _ _ _ _ _ _ Ht) as (Hpg&Hck&Hk).
  rewrite Hpg. cbn [mbind res_mbind]. rewrite Hck, Hk. cbn [mbind res_mbind].
  destruct h as [|h].
  - destruct Ht as (es&F0&Hn&->&_). rewrite bool_decide_false, bool_decide_true by done.
    rewrite (nr_nkeys _ _ _ _ (ln_page _ _ _ _ _ _ Hn)), length_map.
    destruct (extent_vals_spec s (bytes_at s id) [] es F0 m out) as (l1&He&H1); [apply Hn..|].
    cbn [length] in He. rewrite He.
    cbn [mbind res_mbind]. destruct (IH ids G (out ++ l1)) as (l2&->&H2); [done| |].
    { apply (visited_smaller ({[Pg id]} ∪ F0) F0 G G id); [done|apply Hn|disj|apply union_subseteq_r|done]. }
    exists (l1 ++ l2). rewrite app_assoc. split; [done|]. rewrite fmap_app, <- (assoc_L (∪)).
    apply extents_listed_page, extents_listed_app; [disj|done..].
  - destruct Ht as (lm&seps&F0&Hn&Hs&Hni&->). rewrite bool_decide_true by done.
    rewrite (pushed_children_spec _ lo lm seps) by apply Hn. cbn [mbind res_mbind].
    destruct (IH (reverse (children lo lm seps).*2 ++ ids) (F0 ∪ G) out) as (l&->&Hl).
    + eapply pend_seg; [done|done|disj].
    + apply (visited_smaller ({[Pg id]} ∪ F0) F0 G (F0 ∪ G) id); [done|done|disj|done|done].
    + exists l. split; [done|]. rewrite <- (assoc_L (∪)). by apply extents_listed_page.
Qed.

Lemma collect_extents_spec s h root F m fuel :
  ok s → tree_rep content_hash s h root F m → S (size F) < fuel →
  ∃ l, collect_extents fuel root [] s = Ok l ∧ extents_listed l.*1 F.
Proof.
  intros Hok [(->&->&->)|[Hr Ht]] Hf; unfold collect_extents.
  - rewrite bool_decide_true by done. exists []. split; [done|]. apply extents_listed_nil. intros e ?%elem_of_empty. done.
  - rewrite bool_decide_false by done. apply (collect_extents_loop_spec s fuel [root] F []); [done| |lia].
    rewrite <- (right_id_L ∅ (∪) F). econstructor; [done|disj|constructor].
Qed.
End Collect.
