(* ===== verification/BtreeSpec.v ===== *)
(** The contract of the B+tree: under a root pointer it is a finite map from
    byte strings to byte strings. [tree_map] is the abstraction relation; the
    operations are restated as refinements of [gmap] lookup, insertion and
    deletion. *)

From S2P Require Import Prelude BtreeNode PageStore Btree Overflow KvMap BtreeRep BtreeInsert.
From S2P Require Import BtreeDelete.

Section Spec.
Context {St : Type} `{!PageStore St, !StoreView St, !StoreLaws St}.
Context (content_hash : bytes → Z).
Implicit Types (s : St) (F C : rset) (D : gmap bytes bytes).

(** The tree under [root], of height [h] and owning the resources [F],
    holds exactly the bindings of [D]. *)
Definition tree_map s (h : nat) (root : Z) F D : Prop :=
  ∃ m, tree_rep content_hash s h root F m ∧ to_map m = D.

Definition map_insert (mode : InsertMode) (key x : bytes) D : gmap bytes bytes :=
  match mode, D !! key with
  | InsertOnly, Some _ => D
  | _, _ => <[key := x]> D
  end.

(** A payload that [insert] may take into the tree: its bytes are [x], and
    if it is a reference to bytes placed beforehand, it owns [C]. *)
Record insertable s (mode : InsertMode) key (val : Payload) x C F D : Prop := {
  is_key : length key ≤ MAX_KEY;
  is_len : (Z.of_nat (payload_len val) ≤ 2 ^ 32 - 1)%Z;
  is_pay : if bool_decide (mode = InsertOnly ∧ is_Some (D !! key)) then C = ∅
           else pay_rep content_hash s val x C;
  is_disj : F ## C;
  is_old : ∀ y, D !! key = Some y → mode = Upsert → (Z.of_nat (length y) ≤ MAX_FREEABLE)%Z;
}.

Lemma tree_map_sorted s h root F m : tree_rep content_hash s h root F m → kv_sorted m.
Proof.
  intros [(_&->&_)|[_ Ht]]; [constructor|]. apply (g_sorted _ _ _ (tree_good _ _ _ _ _ _ _ _ Ht)).
Qed.

Lemma to_map_length s h root F m :
  tree_rep content_hash s h root F m → length m = size (to_map m).
Proof.
  intros Ht. unfold to_map. rewrite map_size_list_to_map; [done|].
  by eapply kv_sorted_NoDup, tree_map_sorted.
Qed.

Lemma kv_ins_map mode key x m : kv_sorted m →
  to_map (kv_ins mode key x m).1 = map_insert mode key x (to_map m) ∧
  (kv_ins mode key x m).2 = bool_decide (is_Some (to_map m !! key)).
Proof.
  intros Hs. unfold kv_ins, map_insert. rewrite to_map_get.
  destruct (kv_get key m) as [y|].
  - rewrite bool_decide_true by eauto. destruct mode; simpl; by rewrite ?to_map_put.
  - rewrite bool_decide_false by (by intros []). destruct mode; simpl; by rewrite ?to_map_put.
Qed.

Lemma get_map s h root F D key :
  ok s → tree_map s h root F D → h < 64 → get content_hash root key s = Ok (D !! key).
Proof.
  intros Hok (m&Ht&<-) Hh. rewrite to_map_get. by eapply get_spec.
Qed.

Lemma insert_map s h fuel root F D key val x C mode :
  ok s → tree_map s h root F D → insertable s mode key val x C F D → h < fuel →
  (root = 0%Z → drained val) →
  wps (insert fuel root key val mode)
    (λ out s', ins_existed out = bool_decide (is_Some (D !! key)) ∧
       ∃ F' h', h' ≤ S h ∧ eff s s' (F ∪ C) F' ∧
         tree_map s' h' (ins_root out) F' (map_insert mode key x D)) s.
Proof.
  intros Hok (m&Ht&<-) [Hk Hl Hp Hd Ho] Hf Hdr.
  pose proof (tree_map_sorted _ _ _ _ _ Ht) as Hs.
  destruct (kv_ins_map mode key x m Hs) as [Hm He].
  eapply wp_mono; [eapply insert_spec; try done|].
  - split; try done.
    + revert Hp. unfold consumes. rewrite to_map_get. destruct (kv_get key m) as [y|], mode.
      * by rewrite bool_decide_true by eauto.
      * by rewrite bool_decide_false by (by intros []).
      * by rewrite bool_decide_false by (by intros [_ []]).
      * by rewrite bool_decide_false by (by intros []).
    + intros y. rewrite <- to_map_get. apply Ho.
  - intros out s' (Hx&F'&h'&E&Hh'&Ht'). rewrite Hx, He. split; [done|].
    exists F', h'. split_and!; [done|done|]. eexists. by split.
Qed.

Lemma delete_map s h fuel root F D key :
  ok s → tree_map s h root F D →
  (∀ y, D !! key = Some y → (Z.of_nat (length y) ≤ MAX_FREEABLE)%Z) → h < fuel →
  wps (delete fuel root key)
    (λ out s', del_existed out = bool_decide (is_Some (D !! key)) ∧
       ∃ F' h', h' ≤ h ∧ eff s s' F F' ∧
         tree_map s' h' (del_root out) F' (base.delete key D)) s.
Proof.
  intros Hok (m&Ht&<-) Ho Hf. eapply wp_mono; [eapply delete_spec; try done|].
  - intros y. rewrite <- to_map_get. apply Ho.
  - intros out s' (Hx&F'&h'&Hh'&E&Ht'). rewrite Hx. unfold bound_in. rewrite to_map_get.
    split; [done|]. exists F', h'. split_and!; [done|done|]. eexists. split; [done|apply to_map_del].
Qed.

Lemma tree_map_live s h root F D r : tree_map s h root F D → r ∈ F → live s r.
Proof.
  intros (m&[(_&_&->)|[_ Ht]]&_) Hr; [by apply elem_of_empty in Hr|].
  by eapply tree_live.
Qed.

Lemma tree_map_alike s s' h root F D :
  tree_map s h root F D → alike s s' F → tree_map s' h root F D.
Proof.
  intros (m&Ht&HD) Ha. exists m. split; [|done]. destruct Ht as [?|[Hr Ht]]; [by left|right].
  split; [done|]. by eapply tree_alike.
Qed.

Lemma tree_map_empty s h : tree_map s h 0 ∅ ∅.
Proof. exists []. split; [by left|done]. Qed.
End Spec.
