(* ===== verification/BtreeView.v ===== *)
(** A tree seen through two stores: when the pages it owns read the same in
    both, up to bytes nobody reads, it is the same tree. And how high a tree
    can be. *)

From S2P Require Import Prelude BtreeNode PageStore Btree Overflow Lean KvMap BtreeRep BtreeSpec.

Section View.
Context {S1 S2 : Type} (P1 : PageStore S1) (V1 : StoreView S1) (P2 : PageStore S2) (V2 : StoreView S2).
Context (content_hash : bytes → Z).

(** What [F] owns is live in [s2] and reads as in [s1]. *)
Definition seen (s1 : S1) (s2 : S2) (F : rset) : Prop :=
  (∀ r, r ∈ F → @live _ V2 s2 r ∧
     match r with
     | inl id => reads_as (@bytes_at _ V1 s1 id) (@bytes_at _ V2 s2 id)
     | inr e => ∀ total, @ps_read_extent _ P2 e total s2 = @ps_read_extent _ P1 e total s1
     end) ∧
  (∀ h t, @ps_read_external _ P2 h t s2 = @ps_read_external _ P1 h t s1).

Lemma seen_sub s1 s2 F F' : seen s1 s2 F → F' ⊆ F → seen s1 s2 F'.
Proof. intros [H1 H2] Hs. split; [|done]. intros r Hr. by apply H1, Hs. Qed.

Lemma seen_page s1 s2 id chunk next : seen s1 s2 {[Pg id]} → @page_holds _ V1 s1 id chunk next → @page_holds _ V2 s2 id chunk next.
Proof.
  intros [Hs _] [_ Hh]. destruct (Hs (Pg id)) as [Hl Hb]; [by apply elem_of_singleton|]. split; [done|]. by eapply reads_as_holds.
Qed.

Lemma seen_lseg s1 s2 a ids w e : seen s1 s2 (pgs ids) → @lseg _ V1 s1 a ids w e → @lseg _ V2 s2 a ids w e.
Proof.
  intros Hs Hl. induction Hl as [|id chunk next ids w e Hh Hc _ IH]; [constructor|]. econstructor; [|done|].
  - eapply seen_page; [|done]. eapply seen_sub; [done|]. intros r ->%elem_of_singleton. apply elem_of_Pg_pgs. constructor.
  - apply IH. eapply seen_sub; [done|]. intros r (j&->&Hj)%elem_of_pgs. apply elem_of_Pg_pgs. by constructor.
Qed.

Lemma seen_chain s1 s2 first ids v : seen s1 s2 (pgs ids) → @chain _ V1 s1 first ids v → @chain _ V2 s2 first ids v.
Proof.
  intros Hs (ids'&w&last&chunk&->&->&Hl&Hh&?). exists ids', w, last, chunk. split_and!; try done.
  - eapply seen_lseg; [|done]. eapply seen_sub; [done|]. intros r (j&->&Hj)%elem_of_pgs. apply elem_of_Pg_pgs, elem_of_app. auto.
  - eapply seen_page; [|done]. eapply seen_sub; [done|]. intros r ->%elem_of_singleton. apply elem_of_Pg_pgs, elem_of_app. right. constructor.
Qed.

Lemma seen_val s1 s2 lv x F : seen s1 s2 F → @val_rep _ P1 V1 content_hash s1 lv x F → @val_rep _ P2 V2 content_hash s2 lv x F.
Proof.
  intros Hs Hv. destruct lv; simpl in *; [done|..].
  - destruct Hv as (ids&Hc&?&?&->). exists ids. split_and!; try done. by eapply seen_chain.
  - destruct Hv as (?&?&?&->). destruct (proj1 Hs (Ex start_page)) as [? Hr]; [by apply elem_of_singleton|]. simpl in Hr. by rewrite Hr.
  - by rewrite (proj2 Hs).
Qed.

Lemma seen_vals s1 s2 es F m : seen s1 s2 F → @vals _ P1 V1 content_hash s1 es F m → @vals _ P2 V2 content_hash s2 es F m.
Proof.
  intros Hs Hv. induction Hv as [|k lv x es F1 F2 m Hv Hd _ IH]; constructor; try done.
  - eapply seen_val; [|done]. eapply seen_sub; [done|apply union_subseteq_l].
  - apply IH. eapply seen_sub; [done|apply union_subseteq_r].
Qed.

Lemma seen_tree s1 s2 h lo hi id F m : seen s1 s2 F →
  @tree _ P1 V1 content_hash s1 h lo hi id F m → @tree _ P2 V2 content_hash s2 h lo hi id F m.
Proof.
  revert lo hi id F m. induction h as [|h IH]; intros lo hi id F m Hs; simpl.
  - intros (es&F0&[Hl Hr Hw Hv Hn]&->&Hg). exists es, F0. split_and!; try done.
    destruct (proj1 Hs (Pg id)) as [? Hb]; [by apply elem_of_union_l, elem_of_singleton|].
    split; try done; [by eapply reads_as_node; [left|..]|]. eapply seen_vals; [|done]. eapply seen_sub; [done|apply union_subseteq_r].
  - intros (lm&seps&F0&[Hl Hr Hw]&Hv&?&->). exists lm, seps, F0. split_and!; try done.
    + destruct (proj1 Hs (Pg id)) as [? Hb]; [by apply elem_of_union_l, elem_of_singleton|]. split; try done. eapply reads_as_node; [by right|done..].
    + eapply seg_mono; [|done]. intros a b c F' m' Hsub Ht. apply IH; [|done]. eapply seen_sub; [done|].
      etrans; [done|apply union_subseteq_r].
Qed.

Lemma seen_tree_rep s1 s2 h root F m : seen s1 s2 F →
  @tree_rep _ P1 V1 content_hash s1 h root F m → @tree_rep _ P2 V2 content_hash s2 h root F m.
Proof. intros Hs [?|[Hr Ht]]; [by left|right]. split; [done|]. by eapply seen_tree. Qed.

Lemma seen_tree_map s1 s2 h root F D : seen s1 s2 F →
  @tree_map _ P1 V1 content_hash s1 h root F D → @tree_map _ P2 V2 content_hash s2 h root F D.
Proof. intros Hs (m&Ht&HD). exists m. split; [by eapply seen_tree_rep|done]. Qed.
End View.

Section Height.
Context {St : Type} `{!PageStore St, !StoreView St, !StoreLaws St} (content_hash : bytes → Z).

(** A tree has a page on every level. *)
Lemma tree_height s h lo hi id F m : tree content_hash s h lo hi id F m → h < size F.
Proof.
  revert lo hi id F m. induction h as [|h IH]; intros lo hi id F m Ht; simpl in Ht.
  - destruct Ht as (es&F0&Hn&->&_). assert (size ({[Pg id]} : rset) ≤ size ({[Pg id]} ∪ F0)) as Hs
      by (apply subseteq_size, union_subseteq_l). rewrite size_singleton in Hs. lia.
  - destruct Ht as (lm&seps&F0&_&Hs&Hni&->). assert (h < size F0) as Hh.
    { unfold children in Hs. inversion Hs as [|a b e c cs F1 F2 m1 m2 Ht _ _]; subst.
      apply IH in Ht. assert (size F1 ≤ size (F1 ∪ F2)) by (apply subseteq_size, union_subseteq_l). lia. }
    rewrite size_union by (by apply disjoint_singleton_l). rewrite size_singleton. lia.
Qed.

(** The empty tree can be taken to have any height. *)
Lemma tree_map_height s h root F D : tree_map content_hash s h root F D →
  ∃ h', h' ≤ size F ∧ h' ≤ h ∧ tree_map content_hash s h' root F D.
Proof.
  intros (m&[(->&->&->)|[Hr Ht]]&HD).
  - exists 0. split_and!; [lia|lia|]. exists []. split; [by left|done].
  - exists h. apply tree_height in Ht as Hh. split_and!; [lia|lia|]. exists m. split; [by right|done].
Qed.
End Height.
