(* ===== verification/Machine.v ===== *)
(** Whole histories: a root pointer over the in-memory store, driven by
    insertions (of plain payloads, and of extents placed beforehand),
    deletions and commits in any order. Every history refines the same
    history of a [gmap], and the live pages and extents of the store are at
    every point exactly those the tree owns. *)

From S2P Require Import Prelude BtreeNode PageStore TestStore Btree Overflow KvMap BtreeRep.
From S2P Require Import BtreeInsert BtreeDelete BtreeSnapshot BtreeSpec.

Record machine := MkMachine { root : Z; store : TestStore }.

Inductive op :=
| OpInsert (key : bytes) (val : Payload) (mode : InsertMode)
| OpExtent (key b : bytes)
| OpDelete (key : bytes)
| OpCommit.

(** Run a store operation; its result says where the root is now. *)
Definition rooted {A} (m : Z → M TestStore A) (new_root : A → Z) : M machine unit := fun mc =>
  match m (root mc) (store mc) with
  | (Ok a, s) => (Ok tt, MkMachine (new_root a) s)
  | (Err e, s) => (Err e, MkMachine (root mc) s)
  | (Panic, s) => (Panic, MkMachine (root mc) s)
  end.

(** Place [b] in the arena, then insert the reference. *)
Definition insert_extent (fuel : nat) (r : Z) (key b : bytes) : M TestStore InsertOutcome :=
  '(start, total, npages) ← put_extent b;
  insert fuel r key (ExtentRef start total npages) Upsert.

Definition exec (fuel : nat) (o : op) : M machine unit :=
  match o with
  | OpInsert key val mode => rooted (λ r, insert fuel r key val mode) ins_root
  | OpExtent key b => rooted (λ r, insert_extent fuel r key b) ins_root
  | OpDelete key => rooted (λ r, delete fuel r key) del_root
  | OpCommit => fun mc => (Ok tt, MkMachine (root mc) (commit (store mc)))
  end.

Fixpoint run (fuel : nat) (os : list op) : M machine unit :=
  match os with
  | [] => mret tt
  | o :: os => exec fuel o;; run fuel os
  end.

Definition start : machine := MkMachine 0 new.

(** * The same history of a map *)

Definition map_step (D : gmap bytes bytes) (o : op) : gmap bytes bytes :=
  match o with
  | OpInsert key val mode => map_insert mode key (payload_bytes val) D
  | OpExtent key b => <[key := b]> D
  | OpDelete key => base.delete key D
  | OpCommit => D
  end.

Definition map_run (os : list op) : gmap bytes bytes := foldl map_step ∅ os.

(** Keys within the limit, plain payloads no longer than a chain that can be
    freed again, streams that overflow. *)
Definition op_wf (o : op) : Prop :=
  match o with
  | OpInsert key val _ => length key ≤ MAX_KEY ∧ is_plain val ∧ drained val ∧
      (Z.of_nat (length (payload_bytes val)) ≤ MAX_FREEABLE)%Z
  | OpExtent key b => length key ≤ MAX_KEY ∧ b ≠ [] ∧ (Z.of_nat (length b) ≤ MAX_FREEABLE)%Z
  | _ => True
  end.

(** The only way a well-formed history stops: the page vector cannot grow, a
    panic. *)
Definition exhausted (e : option Error) (mc : machine) : Prop :=
  e = None ∧ Z.of_nat (length (pages (store mc))) = MAX_PAGES.

Section Machine.
Context (content_hash : bytes → Z).

Definition small (D : gmap bytes bytes) : Prop :=
  map_Forall (λ _ x, (Z.of_nat (length x) ≤ MAX_FREEABLE)%Z) D.

(** After [n] steps: the tree holds [D], is at most [n] levels deep below
    its root, and owns every live page and extent of the store. *)
Definition inv (n : nat) (D : gmap bytes bytes) (mc : machine) : Prop :=
  ok (store mc) ∧ small D ∧ (0 ≤ next_extent (store mc) ≤ Z.of_nat n)%Z ∧
  ∃ h F, h ≤ n ∧ tree_map content_hash (store mc) h (root mc) F D ∧
    ∀ r, live (store mc) r ↔ r ∈ F.

Lemma inv_start n : inv n ∅ start.
Proof.
  split_and!; [apply new_ok|by intros ??|cbn; lia|cbn; lia|]. exists 0, ∅.
  split_and!; [lia|apply tree_map_empty|]. intros r.
  split; [|by intros ?%elem_of_empty]. destruct r as [id|e]; cbn.
  - intros [[] _]. cbn in *. lia.
  - intros [[b Hb] _]. cbn in Hb. by rewrite lookup_empty in Hb.
Qed.

Lemma small_insert mode key x D :
  (Z.of_nat (length x) ≤ MAX_FREEABLE)%Z → small D → small (map_insert mode key x D).
Proof.
  intros Hx HD. unfold map_insert. destruct mode, (D !! key); try done; by apply map_Forall_insert_2.
Qed.

(** A step that turns the footprint [F] into [F'] turns "exactly [F] is
    live" into "exactly [F'] is live". *)
Lemma eff_exact (s s' : TestStore) F F' :
  eff s s' F F' → (∀ r, live s r ↔ r ∈ F) → ∀ r, live s' r ↔ r ∈ F'.
Proof.
  intros E HF r. split; [|by apply (eff_live _ _ _ _ E)].
  intros Hr. destruct (eff_back _ _ _ _ E r Hr) as [|[Hl Hn]]; [done|]. by apply HF in Hl.
Qed.

Lemma inv_mono n D mc : inv n D mc → inv (S n) D mc.
Proof.
  intros (?&?&?&h&F&?&?&?). split_and!; [done|done|lia|lia|]. exists h, F. split_and!; [lia|done|done].
Qed.

Lemma wp_rooted {A} (m : Z → M TestStore A) f mc (Q : unit → machine → Prop) :
  wps (m (root mc)) (λ a s', Q tt (MkMachine (f a) s')) (store mc) →
  wp exhausted (rooted m f) Q mc.
Proof.
  unfold wp, rooted. destruct (m (root mc) (store mc)) as [[a|e|] s']; [done| |]; intros []; by split.
Qed.

(** What an insertion has to establish of its store step. *)
Lemma inv_step n D' mc F h' F' root' s' :
  small D' → (0 ≤ next_extent s' ≤ Z.of_nat n)%Z →
  (∀ r, live (store mc) r ↔ r ∈ F) → h' ≤ n → eff (store mc) s' F F' →
  tree_map content_hash s' h' root' F' D' → inv n D' (MkMachine root' s').
Proof.
  intros Hsm Hn HF Hh E Ht. split_and!; [by eapply eff_ok|done|apply Hn|apply Hn|]. exists h', F'.
  split_and!; [done|done|by eapply eff_exact].
Qed.

Lemma exec_insert n fuel D key val mode mc :
  inv n D mc → op_wf (OpInsert key val mode) → n < fuel →
  wp exhausted (exec fuel (OpInsert key val mode))
    (λ _, inv (S n) (map_insert mode key (payload_bytes val) D)) mc.
Proof.
  intros (Hok&Hsm&Hn&h&F&Hh&Ht&HF) (Hk&Hpl&Hdr&Hlen) Hf. apply wp_rooted.
  eapply wp_mono;
    [eapply wp_moves; [apply (insert_moves same_next)|];
     eapply (insert_map content_hash _ _ _ _ _ _ _ _ (payload_bytes val) ∅)|]; try done.
  - split; [done| | |apply disjoint_empty_r|].
    + rewrite <- length_payload_bytes by done. unfold MAX_FREEABLE in Hlen. lia.
    + case_bool_decide; [done|]. by destruct val.
    + intros y Hy _. by apply (Hsm key).
  - lia.
  - intros out s' [(_&F'&h'&Hh'&E&Ht') Hs]. rewrite (right_id_L ∅ (∪)) in E. cbn in Hs.
    unfold same_next in Hs.
    eapply inv_step; [by apply small_insert|lia|exact HF| |exact E|exact Ht']. lia.
Qed.

Lemma exec_delete n fuel D key mc :
  inv n D mc → n < fuel →
  wp exhausted (exec fuel (OpDelete key)) (λ _, inv n (base.delete key D)) mc.
Proof.
  intros (Hok&Hsm&Hn&h&F&Hh&Ht&HF) Hf. apply wp_rooted.
  eapply wp_mono; [eapply wp_moves; [apply (delete_moves same_next)|];
                   eapply (delete_map content_hash)|]; try done.
  - intros y Hy. by apply (Hsm key).
  - lia.
  - intros out s' [(_&F'&h'&Hh'&E&Ht') Hs].
    unfold same_next in Hs.
    eapply inv_step; [by apply map_Forall_delete|lia|exact HF| |exact E|exact Ht']. lia.
Qed.

Lemma exec_commit n fuel D mc :
  inv n D mc → wp exhausted (exec fuel OpCommit) (λ _, inv n D) mc.
Proof.
  intros (Hok&Hsm&Hn&h&F&Hh&Ht&HF). split_and!; [by apply commit_ok|done|apply Hn|apply Hn|]. exists h, F.
  assert (Hl : ∀ r, live (commit (store mc)) r ↔ live (store mc) r).
  { intros [id|e]; [apply commit_live|apply commit_extent_live]. }
  split_and!; [done| |intros r; by rewrite Hl].
  eapply tree_map_alike; [done|]. split; [|done]. intros r Hr. apply HF in Hr.
  split; [by apply Hl|]. destruct r as [id|e]; [done|]. intros total. by apply commit_reads.
Qed.

Lemma extent_pay s st len b : extent_live s st →
  read_extent st len s = Ok b → len = Z.of_nat (length b) → b ≠ [] →
  (len ≤ MAX_FREEABLE)%Z → (1 ≤ st ≤ 2 ^ 62)%Z →
  pay_rep content_hash s
    (ExtentRef st len (Z.max ((len + 4095) / 4096) 1 `mod` 2 ^ 32)) b {[Ex st]}.
Proof.
  intros Hl Hr -> Hne Hlen Hst. unfold MAX_FREEABLE in Hlen.
  assert (1 ≤ Z.of_nat (length b))%Z by (destruct b; [done|cbn [length]; lia]).
  assert (1 ≤ (Z.of_nat (length b) + 4095) / 4096 ≤ 65537)%Z as Hnp
    by (split; [apply Z.div_le_lower_bound|apply Z.div_le_upper_bound]; lia).
  rewrite Z.max_l, Z.mod_small by lia. unfold is_uint. split; [|done].
  cbn. unfold is_uint. split_and!; lia.
Qed.

Lemma exec_extent n fuel D key b mc :
  inv n D mc → op_wf (OpExtent key b) → n < fuel → (Z.of_nat n < 2 ^ 62)%Z →
  wp exhausted (exec fuel (OpExtent key b)) (λ _, inv (S n) (<[key := b]> D)) mc.
Proof.
  intros (Hok&Hsm&Hn&h&F&Hh&Ht&HF) (Hk&Hne&Hlen) Hf Hmax.
  apply wp_rooted. unfold insert_extent. apply wp_bind.
  destruct (put_extent_spec _ b Hok) as (s1&Hput&Hnx&E&Hread); [lia|].
  unfold wp at 1. rewrite Hput. clear Hput. cbn beta iota.
  assert (live s1 (Ex (next_extent (store mc) + 1)%Z)) as Hl
    by (eapply eff_live; [done|by apply elem_of_singleton]).
  destruct (eff_framed _ _ _ _ F E) as [Hd Hsame]; [by intros r; apply HF|apply disjoint_empty_l|].
  eapply wp_mono;
    [eapply wp_moves; [apply (insert_moves same_next)|];
     eapply (insert_map content_hash _ _ _ _ F D _ _ b)|].
  - by eapply eff_ok.
  - eapply tree_map_alike; [done|]. apply same_on_alike. split; [done|]. apply (eff_ext _ _ _ _ E).
  - split; [done|done| |symmetry; exact Hd|intros y Hy _; by apply (Hsm key)].
    rewrite bool_decide_false by (by intros []). apply extent_pay; try done. lia.
  - lia.
  - done.
  - intros out s' [(_&F'&h'&Hh'&E'&Ht') Hs]. unfold same_next in Hs. cbn in Ht'.
    eapply inv_step; [by apply map_Forall_insert_2|lia|exact HF| |eapply eff_trans; [|exact E']|exact Ht']; [lia|].
    eapply (eff_extend _ _ _ _ F _ _ E); [by intros r; apply HF|apply disjoint_empty_l|by unions|by unions].
Qed.

Lemma exec_spec n fuel D o mc :
  inv n D mc → op_wf o → n < fuel → (Z.of_nat n < 2 ^ 62)%Z →
  wp exhausted (exec fuel o) (λ _, inv (S n) (map_step D o)) mc.
Proof.
  intros Hi Hw Hf Hn. destruct o; cbn [map_step].
  - by apply exec_insert.
  - by apply exec_extent.
  - eapply wp_mono; [by apply exec_delete|]. intros ???. by apply inv_mono.
  - eapply wp_mono; [by apply exec_commit|]. intros ???. by apply inv_mono.
Qed.

Lemma run_spec fuel os : ∀ n D mc,
  inv n D mc → Forall op_wf os → n + length os ≤ fuel → (Z.of_nat fuel ≤ 2 ^ 62)%Z →
  wp exhausted (run fuel os) (λ _, inv (n + length os) (foldl map_step D os)) mc.
Proof.
  induction os as [|o os IH]; intros n D mc Hi Hw Hf Hmax; cbn [run length foldl] in *.
  - apply wp_ret. by rewrite Nat.add_0_r.
  - apply Forall_cons in Hw as [Ho Hw]. apply wp_bind.
    eapply wp_mono; [apply (exec_spec n); [done|done|lia|lia]|].
    intros [] mc' Hi'. rewrite Nat.add_succ_r. apply (IH (S n)); [done|done|lia|done].
Qed.
End Machine.
