(* ===== verification/Demo.v ===== *)
(** A concrete history of the in-memory store, used to evaluate theorems at:
    enough bindings to split leaves and grow a branch, an extent, an overflow
    chain, a deletion and a commit. *)

From S2P Require Import Prelude BtreeNode PageStore TestStore Btree Overflow KvMap BtreeRep.
From S2P Require Import BtreeInsert BtreeSpec BtreeHostile Machine.

Definition demo_ops : list op :=
  map (λ i, OpInsert [i] (Flat (replicate 900 i)) Upsert) (seqZ 0 12) ++
  [OpExtent [100%Z] [1; 2; 3]%Z; OpCommit; OpDelete [3%Z];
   OpInsert [200%Z] (Flat (replicate 5000 9%Z)) InsertOnly].

Definition demo : machine := (run 32 demo_ops start).2.

(** A second one, with no extent. *)
Definition plain_ops : list op :=
  [OpInsert [1%Z] (Flat (replicate 5000 9%Z)) InsertOnly; OpInsert [2%Z] (Flat [4; 5; 6]%Z) Upsert].

Definition plain : machine := (run 32 plain_ops start).2.

Definition demo_map : gmap bytes bytes := map_run demo_ops.

(** A digest for evaluation. *)
Definition demo_hash (b : bytes) : Z := (foldr (λ x acc, x + 257 * acc) 0 b `mod` 2 ^ 128)%Z.

Lemma demo_wf : Forall op_wf demo_ops.
Proof.
  apply Forall_app. split.
  - apply Forall_forall. intros o (i&->&_)%list_elem_of_fmap. cbn -[replicate].
    rewrite length_replicate. unfold MAX_FREEABLE, MAX_KEY. split_and!; [lia|done|done|lia].
  - repeat apply Forall_cons_2; try apply Forall_nil_2; unfold op_wf; try done;
      (split_and!; [unfold MAX_KEY; cbn; lia|done|..]); try done;
      cbn [payload_bytes]; by rewrite length_replicate.
Qed.

Lemma plain_wf : Forall op_wf plain_ops.
Proof.
  repeat apply Forall_cons_2; try apply Forall_nil_2; unfold op_wf;
    (split_and!; [unfold MAX_KEY; cbn; lia|done|done|]); cbn [payload_bytes]; [by rewrite length_replicate|done].
Qed.

Lemma run_inv os :
  Forall op_wf os → length os ≤ 32 → (run 32 os start).1 = Ok tt →
  inv demo_hash (length os) (map_run os) (run 32 os start).2.
Proof.
  intros Hw Hle Hr. pose proof (run_spec demo_hash 32 os 0 ∅ start (inv_start _ 0) Hw) as H.
  specialize (H ltac:(lia) ltac:(lia)). unfold wp in H.
  destruct (run 32 os start) as [r mc]. cbn in Hr. by subst r.
Qed.

Lemma demo_inv : inv demo_hash 16 demo_map demo.
Proof. apply (run_inv demo_ops); [apply demo_wf|vm_compute; lia|vm_compute; reflexivity]. Qed.

Lemma plain_inv : inv demo_hash 2 (map_run plain_ops) plain.
Proof. apply (run_inv plain_ops); [apply plain_wf|vm_compute; lia|vm_compute; reflexivity]. Qed.

Lemma demo_ok : ok (store demo).
Proof. apply demo_inv. Qed.

Lemma demo_tree : ∃ h F, h < 32 ∧ tree_map demo_hash (store demo) h (root demo) F demo_map ∧
  ∀ r, live (store demo) r ↔ r ∈ F.
Proof.
  destruct demo_inv as (_&_&_&h&F&Hh&Ht&HF). exists h, F. split_and!; [lia|done|done].
Qed.

Lemma tree_rep_of (mc : machine) n D : inv demo_hash n D mc →
  ∃ h F m, h ≤ n ∧ tree_rep demo_hash (store mc) h (root mc) F m ∧ to_map m = D.
Proof. intros (_&_&_&h&F&Hh&(m&Ht&Hm)&_). by exists h, F, m. Qed.

Lemma demo_small key y : demo_map !! key = Some y → (Z.of_nat (length y) ≤ MAX_FREEABLE)%Z.
Proof. destruct demo_inv as (_&Hs&_). apply Hs. Qed.

Lemma ok_answers s : store_ok s → answers s.
Proof.
  intros Hok. split; cbn.
  - intros id. unfold page, res_of_option. by repeat case_match.
  - intros id p. unfold page, page_at, res_of_option. repeat case_match; try done.
    intros [= <-]. case_bool_decide; [|done].
    by eapply (Forall_lookup_1 _ _ _ _ (so_len _ Hok)).
  - intros e n. unfold read_extent. by repeat case_match.
  - intros h n. unfold read_external. by repeat case_match.
Qed.

(** Pages of [0xff]: every header field is nonsense. *)
Definition hostile : TestStore := set_pages (replicate 3 (replicate PAGE_SIZE 255%Z)) new.

Lemma hostile_answers : answers hostile.
Proof.
  apply ok_answers. destruct new_ok. split; try done.
  apply Forall_replicate, length_replicate.
Qed.

(** * A chain of [n] full pages *)

Definition chain_page (next : Z) : bytes :=
  [KIND_OVERFLOW; 0; 0; 0; 0; 0]%Z ++ le_encode 2 (Z.of_nat OVERFLOW_CAP) ++ le_encode 8 next ++
  replicate OVERFLOW_CAP 0%Z.

Lemma chain_page_holds next : is_uint 64 next → holds (chain_page next) (replicate OVERFLOW_CAP 0%Z) next.
Proof.
  intros Hn. split.
  - unfold chain_page. rewrite !length_app, !length_le_encode, length_replicate. done.
  - done.
  - unfold chain_page. vm_compute. reflexivity.
  - by rewrite length_replicate.
  - rewrite length_replicate. unfold chain_page, sub. rewrite !app_assoc.
    rewrite drop_app_length' by (rewrite !length_app, !length_le_encode; done).
    rewrite take_ge; [done|]. rewrite length_replicate. done.
  - unfold extra, chain_page, sub. rewrite app_assoc.
    rewrite drop_app_length' by (rewrite !length_app, !length_le_encode; done).
    rewrite take_app_length' by (rewrite !length_le_encode; done).
    by apply le_decode_encode_id.
Qed.

(** Pages [1..n], each linked to the one after it. *)
Definition chain_next (n i : Z) : Z := if bool_decide (i = n) then 0 else i + 1.
Definition chain_store (n : nat) : TestStore :=
  set_pages (map (λ i, chain_page (chain_next (Z.of_nat n) i)) (seqZ 1 (Z.of_nat n))) new.

Lemma chain_store_page n i :
  (1 ≤ i ≤ Z.of_nat n)%Z → (Z.of_nat n < 2 ^ 63)%Z →
  page_holds (chain_store n) i (replicate OVERFLOW_CAP 0%Z) (chain_next (Z.of_nat n) i).
Proof.
  intros Hi Hn. split.
  - split_and!; [|apply not_elem_of_nil|apply not_elem_of_empty].
    unfold valid_id, chain_store, set_pages, pages. rewrite length_map, length_seqZ. lia.
  - assert (bytes_at (chain_store n) i = chain_page (chain_next (Z.of_nat n) i)) as ->.
    { unfold chain_store. cbn -[chain_page]. unfold idx.
      rewrite list_lookup_fmap, lookup_seqZ_lt by lia. cbn -[chain_page].
      by replace (1 + Z.of_nat (Z.to_nat (i - 1)))%Z with i by lia. }
    apply chain_page_holds. unfold chain_next, is_uint. case_bool_decide; lia.
Qed.

Lemma chain_store_seg n k :
  k < n → (Z.of_nat n < 2 ^ 63)%Z →
  ∃ w, lseg (chain_store n) (Z.of_nat (n - k)) (seqZ (Z.of_nat (n - k)) (Z.of_nat k)) w (Z.of_nat n).
Proof.
  intros Hk Hn. induction k as [|k IH].
  - exists []. rewrite Nat.sub_0_r. constructor.
  - destruct IH as [w Hw]; [lia|]. rewrite seqZ_cons by lia.
    replace (Z.succ (Z.of_nat (n - S k))) with (Z.of_nat (n - k)) by lia.
    replace (Z.pred (Z.of_nat (S k))) with (Z.of_nat k) by lia. eexists. econstructor; [|apply length_replicate|exact Hw].
    pose proof (chain_store_page n (Z.of_nat (n - S k)) ltac:(lia) Hn) as Hp.
    unfold chain_next in Hp. rewrite bool_decide_false in Hp by lia.
    by replace (Z.of_nat (n - S k) + 1)%Z with (Z.of_nat (n - k)) in Hp by lia.
Qed.

Lemma chain_store_chain n : 0 < n → (Z.of_nat n < 2 ^ 63)%Z →
  ∃ ids v, chain (chain_store n) 1 ids v ∧ NoDup ids ∧ length ids = n.
Proof.
  intros Hn Hmax. destruct (chain_store_seg n (n - 1)) as [w Hw]; [lia|done|].
  replace (Z.of_nat (n - (n - 1))) with 1%Z in Hw by lia.
  pose proof (chain_store_page n (Z.of_nat n) ltac:(lia) Hmax) as Hp.
  unfold chain_next in Hp. rewrite bool_decide_true in Hp by done.
  exists (seqZ 1 (Z.of_nat (n - 1)) ++ [Z.of_nat n]), (w ++ replicate OVERFLOW_CAP 0%Z).
  split_and!.
  - do 4 eexists. split_and!; [done|done|exact Hw|exact Hp|]. rewrite length_replicate. unfold OVERFLOW_CAP. sizes.
  - apply NoDup_app. split_and!; [apply NoDup_seqZ| |apply NoDup_singleton].
    intros x Hx%elem_of_seqZ ->%list_elem_of_singleton. lia.
  - rewrite length_app, length_seqZ. cbn [length]. lia.
Qed.

Lemma chain_store_ok n : (Z.of_nat n ≤ MAX_PAGES)%Z → store_ok (chain_store n).
Proof.
  intros Hn. destruct new_ok. split; try done.
  - apply Forall_fmap, Forall_forall. intros i Hi. cbn.
    unfold chain_page. rewrite !length_app, !length_le_encode, length_replicate. done.
  - cbn. rewrite length_map, length_seqZ. lia.
Qed.
