(* ===== verification/BtreeTheorems.v ===== *)
(** What the storage layer guarantees: the B+tree of [btree.rs] over any page
    store that meets the laws of [PageStore.StoreLaws], and over the in-memory
    store in particular. Each theorem is followed by an evaluation at the
    concrete history of [Demo]. *)

From S2P Require Import Prelude BtreeNode PageStore TestStore Btree Overflow KvMap BtreeRep.
From S2P Require Import BtreeInsert BtreeDelete BtreeSnapshot BtreeHostile BtreeRange Cursor.
From S2P Require Import BtreeCollect BtreeSpec Machine Demo.

(** * Histories *)

(** C13. Any history of insertions, extent placements, deletions and commits
    that respects the limits on keys and values, run on an empty store, ends
    with a well-formed tree holding exactly the map the same history computes,
    and with no page or extent live that the tree does not own. The history
    cannot fail: it stops early only by a panic, when the page vector is at
    its maximal length. *)
Theorem history_refines_map content_hash fuel os :
  Forall op_wf os → length os ≤ fuel → (Z.of_nat fuel ≤ 2 ^ 62)%Z →
  wp exhausted (run fuel os)
    (λ _ mc, ∃ h F, h ≤ length os ∧
       tree_map content_hash (store mc) h (root mc) F (map_run os) ∧
       ∀ r, live (store mc) r ↔ r ∈ F) start.
Proof.
  intros Hw Hf Hmax.
  eapply wp_mono; [apply (run_spec content_hash fuel os 0 ∅); [apply inv_start|done|done|done]|].
  intros _ mc (_&_&_&h&F&?&?&?). by exists h, F.
Qed.

Lemma history_refines_map_witness :
  wp exhausted (run 32 demo_ops)
    (λ _ mc, ∃ h F, h ≤ length demo_ops ∧
       tree_map demo_hash (store mc) h (root mc) F (map_run demo_ops) ∧
       ∀ r, live (store mc) r ↔ r ∈ F) start.
Proof.
  apply (history_refines_map demo_hash 32 demo_ops); [apply demo_wf|vm_compute; lia|vm_compute; done].
Defined.

(** C14. After any such history [collect_pages] finds exactly the live pages
    of the store, their number is what [live_pages] reports, and every extent
    in [live_extents] belongs to the tree: nothing leaks. *)
Theorem history_leaks_nothing content_hash fuel os :
  Forall op_wf os → length os ≤ fuel → (Z.of_nat fuel ≤ 2 ^ 62)%Z →
  wp exhausted (run fuel os)
    (λ _ mc, ∃ h F, tree_map content_hash (store mc) h (root mc) F (map_run os) ∧
       collect_pages (2 + S (size F)) (root mc) ∅ (store mc) = Ok (live_ids (store mc)) ∧
       live_pages (store mc) = Z.of_nat (size (pages_of F)) ∧
       (∀ e, e ∈ live_extents (store mc) ↔ Ex e ∈ F)) start.
Proof.
  intros Hw Hf Hmax.
  eapply wp_mono; [apply (run_spec content_hash fuel os 0 ∅); [apply inv_start|done|done|done]|].
  intros _ mc (Hok&_&_&h&F&_&Ht&HF). exists h, F.
  assert (live_ids (store mc) = pages_of F) as Hids.
  { apply set_eq. intros id. rewrite elem_of_live_ids, elem_of_pages_of. apply (HF (Pg id)). }
  split_and!; [done| | |].
  - destruct Ht as (m&Ht&_). rewrite Hids. eapply collect_pages_spec; [done|done|lia].
  - rewrite live_pages_size, Hids by done. done.
  - intros e. rewrite elem_of_live_extents. apply (HF (Ex e)).
Qed.

Lemma history_leaks_nothing_witness :
  wp exhausted (run 32 demo_ops)
    (λ _ mc, ∃ h F, tree_map demo_hash (store mc) h (root mc) F (map_run demo_ops) ∧
       collect_pages (2 + S (size F)) (root mc) ∅ (store mc) = Ok (live_ids (store mc)) ∧
       live_pages (store mc) = Z.of_nat (size (pages_of F)) ∧
       (∀ e, e ∈ live_extents (store mc) ↔ Ex e ∈ F)) start.
Proof.
  apply (history_leaks_nothing demo_hash 32 demo_ops); [apply demo_wf|vm_compute; lia|vm_compute; done].
Defined.

(** * Operations as map operations *)

Section Refinement.
Context {St : Type} `{!PageStore St, !StoreView St, !StoreLaws St}.
Context (content_hash : bytes → Z).
Implicit Types (s : St) (F C : rset) (D : gmap bytes bytes).

(** C15. [get] is lookup. *)
Theorem get_refines_lookup s h root F D key :
  ok s → tree_map content_hash s h root F D → h < 64 →
  get content_hash root key s = Ok (D !! key).
Proof. apply get_map. Qed.



(** Reading back what was inserted: under the new root the key has the
    payload's bytes and every other key what it had before. *)
Theorem insert_then_get s h fuel root F D key val x C :
  ok s → tree_map content_hash s h root F D →
  insertable content_hash s Upsert key val x C F D → h < fuel → h < 63 →
  (root = 0%Z → drained val) →
  wps (insert fuel root key val Upsert)
    (λ out s', get content_hash (ins_root out) key s' = Ok (Some x) ∧
       ∀ k, k ≠ key → get content_hash (ins_root out) k s' = get content_hash root k s) s.
Proof.
  intros Hok Ht Hi Hf Hh Hd.
  eapply wp_mono; [by eapply insert_map|]. intros out s' (_&F'&h'&Hh'&E&Ht').
  assert (ok s') as Hok' by by eapply eff_ok. split; [|intros k Hk];
    rewrite (get_map _ _ _ _ _ _ _ Hok' Ht') by lia.
  - cbn [map_insert]. by rewrite lookup_insert_eq.
  - rewrite (get_map _ _ _ _ _ _ _ Hok Ht) by lia. cbn [map_insert]. by rewrite lookup_insert_ne.
Qed.

End Refinement.

Lemma demo_insertable mode F :
  insertable demo_hash (store demo) mode [3%Z] (Flat [7; 7]%Z) [7; 7]%Z ∅ F demo_map.
Proof.
  split; [unfold MAX_KEY; cbn; lia|cbn; lia| |apply disjoint_empty_r|intros y Hy _; by eapply demo_small].
  by case_bool_decide.
Qed.

Lemma get_refines_lookup_witness :
  get demo_hash (root demo) [5%Z] (store demo) = Ok (Some (replicate 900 5%Z)) ∧
  get demo_hash (root demo) [3%Z] (store demo) = Ok None.
Proof.
  destruct demo_tree as (h&F&Hh&Ht&_).
  rewrite !(get_refines_lookup demo_hash (store demo) h (root demo) F demo_map);
    [vm_compute; split; reflexivity|apply demo_ok|exact Ht|lia|apply demo_ok|exact Ht|lia].
Defined.



Lemma insert_then_get_witness :
  wps (insert 32 (root demo) [3%Z] (Flat [7; 7]%Z) Upsert)
    (λ out s', get demo_hash (ins_root out) [3%Z] s' = Ok (Some [7; 7]%Z) ∧
       ∀ k, k ≠ [3%Z] → get demo_hash (ins_root out) k s' = get demo_hash (root demo) k (store demo))
    (store demo).
Proof.
  destruct demo_tree as (h&F&Hh&Ht&_).
  apply (insert_then_get demo_hash (store demo) h 32 (root demo) F demo_map [3%Z]
    (Flat [7; 7]%Z) [7; 7]%Z ∅ demo_ok Ht (demo_insertable _ _) Hh); [lia|intros _; exact I].
Defined.


(** * Reading *)

Section Reading.
Context {St : Type} `{!PageStore St, !StoreView St, !StoreLaws St}.
Context (content_hash : bytes → Z).
Implicit Types (s : St) (F : rset) (m : kvs).


(** Counting leaves wholesale agrees with counting the bindings one by
    one, whatever the bounds. *)
Theorem count_range_counts s h root F m lo hi n :
  tree_rep content_hash s h root F m → h < 64 → S (length m) < n →
  count_all n root lo hi s = Ok (length (in_range lo hi m)).
Proof.
  intros Ht Hh Hn. destruct (cursor_in_range _ _ _ _ _ _ lo hi Ht Hh) as (c&Hc&Hr).
  pose proof (in_range_length lo hi m) as Hlen. unfold count_all. rewrite Hc.
  cbn [mbind res_mbind]. by rewrite (count_leaves_spec _ _ _ _ _ _ Hr) by lia.
Qed.


(** [max_key] is the greatest bound key. *)
Theorem max_key_greatest s h root F m :
  tree_rep content_hash s h root F m → h < 64 →
  ∃ r, max_key root s = Ok r ∧
    match r with
    | None => m = []
    | Some k => k ∈ m.*1 ∧ ∀ k', k' ∈ m.*1 → k' = k ∨ key_lt k' k
    end.
Proof.
  intros Ht Hh. exists (last m.*1). split; [by eapply max_key_spec|].
  pose proof (tree_map_sorted _ _ _ _ _ _ Ht) as Hs. unfold kv_sorted in Hs.
  destruct (last m.*1) as [k|] eqn:Hl; [|by apply last_None, fmap_nil_inv in Hl].
  apply last_Some in Hl as [l Hl]. rewrite Hl in *. split; [apply elem_of_app; right; constructor|].
  intros k' [Hk'| ->%list_elem_of_singleton]%elem_of_app; [right|by left].
  apply StronglySorted_app in Hs as (Hx&_&_). apply Hx; [done|constructor].
Qed.

(** [collect_pages] finds exactly the pages the tree owns, and
    [collect_extents] exactly its extents, each once. *)
Theorem collect_pages_exact s h root F m fuel :
  ok s → tree_rep content_hash s h root F m → S (size F) < fuel →
  collect_pages fuel root ∅ s = Ok (pages_of F) ∧
  ∃ l, collect_extents fuel root [] s = Ok l ∧ NoDup l.*1 ∧ ∀ e, e ∈ l.*1 ↔ Ex e ∈ F.
Proof.
  intros Hok Ht Hf. split; [by eapply collect_pages_spec|by eapply (collect_extents_spec content_hash)].
Qed.
End Reading.


Lemma count_range_counts_witness :
  ∃ m, to_map m = demo_map ∧
    count_all 100 (root demo) None (Some ([8%Z], true)) (store demo) =
      Ok (length (in_range None (Some ([8%Z], true)) m)).
Proof.
  destruct (tree_rep_of _ _ _ demo_inv) as (h&F&m&Hh&Ht&Hm). exists m. split; [exact Hm|].
  apply (count_range_counts demo_hash (store demo) h (root demo) F m); [exact Ht|lia|].
  rewrite (to_map_length _ _ _ _ _ _ Ht), Hm. vm_compute. lia.
Defined.


Lemma max_key_greatest_witness :
  ∃ m, to_map m = demo_map ∧ ∃ r, max_key (root demo) (store demo) = Ok r ∧
      match r with
      | None => m = []
      | Some k => k ∈ m.*1 ∧ ∀ k', k' ∈ m.*1 → k' = k ∨ key_lt k' k
      end.
Proof.
  destruct (tree_rep_of _ _ _ demo_inv) as (h&F&m&Hh&Ht&Hm). exists m. split; [exact Hm|].
  apply (max_key_greatest demo_hash (store demo) h (root demo) F m Ht). lia.
Defined.

Lemma collect_pages_exact_witness :
  ∃ F, collect_pages (2 + size F) (root demo) ∅ (store demo) = Ok (pages_of F).
Proof.
  destruct (tree_rep_of _ _ _ demo_inv) as (h&F&m&Hh&Ht&Hm). exists F.
  apply (collect_pages_exact demo_hash (store demo) h (root demo) F m (2 + size F)); [apply demo_ok|exact Ht|lia].
Defined.

(** * Hostile input *)



(** * Overflow chains *)



(** The cycle guard of [free_overflow] also stops honest chains: one of
    more than 65537 pages (about 267 MB of payload, where insertion accepts
    4 GiB) cannot be freed, so its key can be neither deleted nor replaced. *)
Theorem long_chain_cannot_be_freed {St} `{!PageStore St, !StoreView St, !StoreLaws St}
  (s : St) first ids v :
  ok s → chain s first ids v → NoDup ids → S FREE_HOPS < length ids →
  wp (λ e s', out_of_space e s' ∨ e = Some (corrupt "overflow chain cycle"))
    (free_overflow first) (λ _ _, False) s.
Proof. apply free_overflow_too_long. Qed.

Lemma long_chain_cannot_be_freed_witness :
  let n := S (S FREE_HOPS) in
  wp (λ e s', out_of_space e s' ∨ e = Some (corrupt "overflow chain cycle"))
    (free_overflow 1) (λ _ _, False) (chain_store n).
Proof.
  intros n.
  assert (Z.of_nat n = 65538)%Z as Hn by (unfold n, FREE_HOPS; lia).
  destruct (chain_store_chain n) as (ids&v&Hc&Hnd&Hlen); [unfold n; lia|rewrite Hn; lia|].
  apply (long_chain_cannot_be_freed (chain_store n) 1 ids v);
    [apply chain_store_ok; rewrite Hn; unfold MAX_PAGES; lia|exact Hc|exact Hnd|rewrite Hlen; unfold n; lia].
Defined.

(** * Splitting *)

(** C23. When a node's cells no longer fit a page, and none is larger than
    half of it, [pick_split] finds a cut: both halves are non-empty and fit
    (for a branch, without the separator that moves up). *)
Theorem split_always_possible leaf big cells :
  Forall (λ c, 0 < length c ∧ length c + 2 ≤ big) cells → 2 * big ≤ PAGE_SIZE - HDR →
  PAGE_SIZE - HDR < sum_list (map (λ c, length c + 2) cells) ≤ PAGE_SIZE - HDR + big →
  ∃ n, pick_split leaf cells = Some n ∧
       splits leaf (PAGE_SIZE - HDR) (map (λ c, length c + 2) cells) n.
Proof. apply pick_split_spec. Qed.

Lemma split_always_possible_witness :
  ∃ n, pick_split true (replicate 5 (replicate 1000 0%Z)) = Some n ∧
       splits true (PAGE_SIZE - HDR) (map (λ c : bytes, length c + 2) (replicate 5 (replicate 1000 0%Z))) n.
Proof.
  apply (split_always_possible true 1002); [|vm_compute; lia|vm_compute; lia].
  apply Forall_replicate. rewrite length_replicate. lia.
Defined.

(** * Commit *)

(** Committing the in-memory store keeps it consistent, keeps every live
    page and extent and what they hold, and so keeps every tree. *)
Theorem commit_keeps_trees content_hash s h root F D :
  ok s → tree_map content_hash s h root F D →
  ok (commit s) ∧ (∀ r, live (commit s) r ↔ live s r) ∧
  tree_map content_hash (commit s) h root F D.
Proof.
  intros Hok Ht.
  assert (Hl : ∀ r, live (commit s) r ↔ live s r)
    by (intros [id|e]; [apply commit_live|apply commit_extent_live]).
  split_and!; [by apply commit_ok|done|].
  eapply tree_map_alike; [done|]. split; [|done]. intros r Hr.
  pose proof (tree_map_live _ _ _ _ _ _ _ Ht Hr) as Hlive. split; [by apply Hl|].
  destruct r as [id|e]; [done|]. intros total. by apply commit_reads.
Qed.

Lemma commit_keeps_trees_witness :
  ∃ h F, ok (commit (store demo)) ∧ (∀ r, live (commit (store demo)) r ↔ live (store demo) r) ∧
    tree_map demo_hash (commit (store demo)) h (root demo) F demo_map.
Proof.
  destruct demo_tree as (h&F&Hh&Ht&_). exists h, F.
  apply (commit_keeps_trees demo_hash (store demo) h (root demo) F demo_map demo_ok Ht).
Defined.

(** A streamed payload that fits inline is lost by an insertion into an
    empty tree: the insertion succeeds, and the value is unreadable
    afterwards. (Into a tree that is not empty the stream is drained first.) *)
Theorem short_stream_into_empty_tree :
  let '(r, s) := insert 2 0 [1%Z] (Stream [5%Z] [6%Z]) Upsert new in
  let '(r', s') := insert 2 1 [1%Z] (Stream [5%Z] [6%Z]) Upsert
                     (insert 2 0 [2%Z] (Flat [7%Z]) Upsert new).2 in
  r = Ok (MkInsertOutcome 1 false) ∧
  get demo_hash 1 [1%Z] s = Err (corrupt "truncated inline value") ∧
  r' = Ok (MkInsertOutcome 1 false) ∧
  get demo_hash 1 [1%Z] s' = Ok (Some [5; 6]%Z).
Proof. vm_compute. repeat split. Qed.
