(* ===== verification/Text.v ===== *)
(** The parts of Rust's [str] the value layer uses, on the UTF-8 bytes of a
    string: validation, trimming, splitting, ASCII case. *)

From S2P Require Import Prelude.
Local Open Scope Z_scope.

(** * UTF-8 *)

Definition between (lo hi b : Z) : bool := (lo <=? b) && (b <=? hi).
Definition cont (b : Z) : bool := between 128 191 b.

(** [std::str::from_utf8] accepts: shortest forms only, no surrogates, nothing
    above U+10FFFF. *)
Fixpoint utf8_valid (s : bytes) : bool :=
  match s with
  | [] => true
  | b :: s =>
      if between 0 127 b then utf8_valid s
      else if between 194 223 b then
        match s with c1 :: s => cont c1 && utf8_valid s | _ => false end
      else if between 224 239 b then
        match s with
        | c1 :: c2 :: s =>
            between (if b =? 224 then 160 else 128) (if b =? 237 then 159 else 191) c1
            && cont c2 && utf8_valid s
        | _ => false
        end
      else if between 240 244 b then
        match s with
        | c1 :: c2 :: c3 :: s =>
            between (if b =? 240 then 144 else 128) (if b =? 244 then 143 else 191) c1
            && cont c2 && cont c3 && utf8_valid s
        | _ => false
        end
      else false
  end.

(** * Characters and prefixes *)

Definition is_digit (b : Z) : bool := between 48 57 b.
Definition all_digits (s : bytes) : bool := forallb is_digit s.

Definition ascii_lower (b : Z) : Z := if between 65 90 b then b + 32 else b.
Definition to_ascii_lowercase (s : bytes) : bytes := map ascii_lower s.
Definition eq_ignore_ascii_case (a b : bytes) : bool :=
  bool_decide (to_ascii_lowercase a = to_ascii_lowercase b).

(** [s.strip_prefix(c)] for an ASCII [c]. *)
Definition strip_prefix (c : Z) (s : bytes) : option bytes :=
  match s with b :: s => if b =? c then Some s else None | [] => None end.

(** [s.trim_start_matches(c)] and [s.trim_end_matches(c)] for an ASCII [c]. *)
Fixpoint trim_start_matches (c : Z) (s : bytes) : bytes :=
  match s with
  | b :: t => if b =? c then trim_start_matches c t else s
  | [] => []
  end.
Definition trim_end_matches (c : Z) (s : bytes) : bytes :=
  reverse (trim_start_matches c (reverse s)).

(** [s.split_once(c)] for an ASCII [c]. *)
Fixpoint split_once (c : Z) (s : bytes) : option (bytes * bytes) :=
  match s with
  | [] => None
  | b :: s =>
      if b =? c then Some ([], s)
      else match split_once c s with Some (l, r) => Some (b :: l, r) | None => None end
  end.

(** [s.split(c)]. *)
Fixpoint split (c : Z) (s : bytes) : list bytes :=
  match s with
  | [] => [[]]
  | b :: s =>
      if b =? c then [] :: split c s
      else match split c s with
           | f :: fs => (b :: f) :: fs
           | [] => [[b]]
           end
  end.

(** * [str::trim] *)

(** The encodings of the characters with the [White_Space] property. *)
Definition white_space : list bytes :=
  [[9]; [10]; [11]; [12]; [13]; [32]; [194; 133]; [194; 160]; [225; 154; 128];
   [226; 128; 128]; [226; 128; 129]; [226; 128; 130]; [226; 128; 131]; [226; 128; 132];
   [226; 128; 133]; [226; 128; 134]; [226; 128; 135]; [226; 128; 136]; [226; 128; 137];
   [226; 128; 138]; [226; 128; 168]; [226; 128; 169]; [226; 128; 175]; [226; 129; 159];
   [227; 128; 128]].

(** What is left of [s] after one of [seqs]. *)
Fixpoint strip_any (seqs : list bytes) (s : bytes) : option bytes :=
  match seqs with
  | [] => None
  | w :: ws => if bool_decide (take (length w) s = w) then Some (drop (length w) s)
               else strip_any ws s
  end.

Fixpoint trim_with (seqs : list bytes) (fuel : nat) (s : bytes) : bytes :=
  match fuel with
  | O => s
  | S fuel => match strip_any seqs s with Some s' => trim_with seqs fuel s' | None => s end
  end.

(** Each step drops a byte at least, so the length is fuel enough. *)
Definition trim_start (s : bytes) : bytes := trim_with white_space (length s) s.
Definition trim_end (s : bytes) : bytes :=
  reverse (trim_with (map reverse white_space) (length s) (reverse s)).
Definition trim (s : bytes) : bytes := trim_end (trim_start s).

(** * Decimal numbers *)

(** The value of a string of digits. *)
Definition digits_value (s : bytes) : Z := foldl (λ acc b, acc * 10 + (b - 48)) 0 s.

(** [n.to_string()] for [n ≥ 0]; the fuel is a bound on the number of digits. *)
Fixpoint nat_digits (fuel : nat) (n : Z) : bytes :=
  match fuel with
  | O => []
  | S fuel => (if n / 10 =? 0 then [] else nat_digits fuel (n / 10)) ++ [48 + n mod 10]
  end.
Definition to_decimal (n : Z) : bytes := nat_digits 64 n.

(** [format!("{n:0w$}")] for [n ≥ 0]. *)
Definition padded (w : nat) (n : Z) : bytes :=
  let d := to_decimal n in replicate (w - length d) 48 ++ d.

(** * Lemmas *)

Lemma utf8_ascii s : Forall (λ b, 0 ≤ b < 128) s → utf8_valid s = true.
Proof.
  induction 1 as [|b s Hb _ IH]; [done|]. cbn [utf8_valid]. unfold between.
  by rewrite (proj2 (Z.leb_le 0 b)), (proj2 (Z.leb_le b 127)) by lia.
Qed.

(** Induction on a list with the hypothesis for every shorter one. *)
Lemma bytes_len_ind (P : bytes → Prop) :
  (∀ s, (∀ t, (length t < length s)%nat → P t) → P s) → ∀ s, P s.
Proof.
  intros H s. remember (length s) as n eqn:Hn. revert s Hn.
  induction (lt_wf n) as [n _ IH]. intros s ->. apply H. intros t Ht. by eapply IH.
Qed.

Lemma between_true lo hi b : between lo hi b = true ↔ lo ≤ b ≤ hi.
Proof. unfold between. rewrite andb_true_iff, !Z.leb_le. done. Qed.
Lemma between_false lo hi b : between lo hi b = false ↔ ¬ (lo ≤ b ≤ hi).
Proof. rewrite <- between_true. by destruct (between lo hi b). Qed.

Lemma ascii_lower_between lo hi b : 128 ≤ lo → between lo hi (ascii_lower b) = between lo hi b.
Proof.
  intros Hlo. unfold ascii_lower. destruct (between 65 90 b) eqn:E; [|done].
  apply between_true in E. apply eq_true_iff_eq. rewrite !between_true. lia.
Qed.

Lemma ascii_lower_ascii b : between 0 127 (ascii_lower b) = between 0 127 b.
Proof.
  unfold ascii_lower. destruct (between 65 90 b) eqn:E; [|done].
  apply between_true in E. apply eq_true_iff_eq. rewrite !between_true. lia.
Qed.

Lemma ascii_lower_high b : 128 ≤ b → ascii_lower b = b.
Proof. intros. unfold ascii_lower. by rewrite (proj2 (between_false 65 90 b)) by lia. Qed.

(** ASCII lower case keeps a string valid. *)
Lemma utf8_lowercase s : utf8_valid (to_ascii_lowercase s) = utf8_valid s.
Proof.
  induction s as [s IH] using bytes_len_ind. destruct s as [|b s]; [done|].
  unfold to_ascii_lowercase in *. cbn [map utf8_valid]. rewrite ascii_lower_ascii.
  destruct (between 0 127 b) eqn:E; [by apply IH; simpl; lia|].
  apply between_false in E. destruct (decide (128 ≤ b)) as [Hb|Hb].
  - rewrite ascii_lower_high by done. unfold cont.
    assert (∀ lo hi c, 128 ≤ lo → between lo hi (ascii_lower c) = between lo hi c) as Hbt
      by exact ascii_lower_between.
    destruct s as [|c1 [|c2 [|c3 s]]]; [done| | |].
    + cbn [map utf8_valid]. by rewrite !Hbt by lia.
    + pose proof (IH [c2] ltac:(simpl; lia)) as H2. cbn [map] in *. rewrite H2.
      by rewrite !Hbt by (repeat case_match; lia).
    + pose proof (IH (c2 :: c3 :: s) ltac:(simpl; lia)) as H2.
      pose proof (IH (c3 :: s) ltac:(simpl; lia)) as H3. pose proof (IH s ltac:(simpl; lia)) as H4.
      cbn [map] in *. rewrite H2, H3, H4. by rewrite !Hbt by (repeat case_match; lia).
  - unfold ascii_lower. rewrite (proj2 (between_false 65 90 b)) by lia.
    by rewrite !(proj2 (between_false _ _ b)) by lia.
Qed.

(** An ASCII byte at the end never completes or breaks a character. *)
Lemma utf8_snoc_ascii s a : 0 ≤ a ≤ 127 → utf8_valid (s ++ [a]) = utf8_valid s.
Proof.
  intros Ha. induction s as [s IH] using bytes_len_ind.
  assert (∀ lo hi, 128 ≤ lo → between lo hi a = false) as Hn
    by (intros; apply between_false; lia).
  assert (utf8_valid [a] = true) as H1 by (cbn [utf8_valid]; by rewrite (proj2 (between_true 0 127 a))).
  destruct s as [|b s]; [done|]. cbn [app utf8_valid].
  destruct (between 0 127 b); [by apply IH; simpl; lia|].
  unfold cont. destruct s as [|c1 [|c2 [|c3 s]]].
  - cbn [app]. by rewrite !Hn by (repeat case_match; lia).
  - pose proof (IH [] ltac:(simpl; lia)) as H2. cbn [app] in *. rewrite H2, !Hn by (repeat case_match; lia).
    by rewrite andb_false_r.
  - pose proof (IH [c2] ltac:(simpl; lia)) as H2. pose proof (IH [] ltac:(simpl; lia)) as H3.
    cbn [app] in *. rewrite H2, H3, !Hn by (repeat case_match; lia). by rewrite !andb_false_r.
  - pose proof (IH (c2 :: c3 :: s) ltac:(simpl; lia)) as H2.
    pose proof (IH (c3 :: s) ltac:(simpl; lia)) as H3. pose proof (IH s ltac:(simpl; lia)) as H4.
    cbn [app] in *. by rewrite H2, H3, H4.
Qed.

(** [trim_end_matches] cuts a run of [c] off the end. *)
Lemma trim_start_matches_spec c s :
  ∃ k, s = replicate k c ++ trim_start_matches c s ∧
    head (trim_start_matches c s) ≠ Some c.
Proof.
  induction s as [|b s (k&Hk&Hh)]; [by exists 0%nat|]. cbn [trim_start_matches].
  destruct (Z.eqb_spec b c) as [->|Hne].
  - exists (S k). cbn [replicate app]. by rewrite <- Hk.
  - exists 0%nat. split; [done|]. simpl. congruence.
Qed.

Lemma trim_end_matches_spec c s :
  ∃ k, s = trim_end_matches c s ++ replicate k c ∧ last (trim_end_matches c s) ≠ Some c.
Proof.
  destruct (trim_start_matches_spec c (reverse s)) as (k&Hk&Hh). exists k.
  unfold trim_end_matches. split.
  - rewrite <- (reverse_involutive s) at 1. rewrite Hk at 1. by rewrite reverse_app, reverse_replicate.
  - by rewrite last_reverse.
Qed.

Lemma utf8_trim_end c s : 0 ≤ c ≤ 127 → utf8_valid (trim_end_matches c s) = utf8_valid s.
Proof.
  intros Hc. destruct (trim_end_matches_spec c s) as (k&Hk&_). rewrite Hk at 2.
  clear Hk. induction k as [|k IH]; [by rewrite app_nil_r|].
  rewrite replicate_S_end, app_assoc, utf8_snoc_ascii by done. done.
Qed.

(** * Digit strings, trimming and splitting *)

Definition digits (s : bytes) : Prop := Forall (λ b, 48 ≤ b ≤ 57) s.

Lemma digits_all s : digits s → all_digits s = true.
Proof.
  induction 1 as [|b s Hb _ IH]; [done|]. unfold all_digits in *. cbn [forallb].
  rewrite IH, andb_true_r. by apply between_true.
Qed.

Lemma digits_app a b : digits (a ++ b) ↔ digits a ∧ digits b.
Proof. apply Forall_app. Qed.

Lemma strip_any_None seqs s h :
  head s = Some h → Forall (λ w, ∃ b, head w = Some b ∧ b ≠ h) seqs → strip_any seqs s = None.
Proof.
  intros Hs. induction 1 as [|w ws (b&Hw&Hne) _ IH]; [done|]. cbn [strip_any].
  rewrite bool_decide_false; [done|]. intros Ht. destruct w as [|b' w]; [done|].
  destruct s as [|h' s]; [done|]. cbn in *. congruence.
Qed.

Lemma trim_with_id seqs fuel s : strip_any seqs s = None → trim_with seqs fuel s = s.
Proof. intros H. destruct fuel; [done|]. cbn [trim_with]. by rewrite H. Qed.

Lemma white_space_heads h : 32 < h < 128 →
  Forall (λ w, ∃ b, head w = Some b ∧ b ≠ h) white_space ∧
  Forall (λ w, ∃ b, head w = Some b ∧ b ≠ h) (map reverse white_space).
Proof. intros Hh. split; repeat constructor; eexists; (split; [reflexivity|lia]). Qed.

(** A string with a visible ASCII character at both ends is not trimmed. *)
Lemma trim_id s h l : head s = Some h → last s = Some l → 32 < h < 128 → 32 < l < 128 → trim s = s.
Proof.
  intros Hs Hl Hh Hl'. unfold trim, trim_start, trim_end.
  rewrite (trim_with_id white_space); [|eapply strip_any_None; [done|by apply white_space_heads]].
  rewrite trim_with_id; [by rewrite reverse_involutive|].
  eapply strip_any_None; [|by eapply (proj2 (white_space_heads l Hl'))].
  by rewrite head_reverse.
Qed.

Lemma split_once_absent c s : Forall (λ b, b ≠ c) s → split_once c s = None.
Proof.
  induction 1 as [|b s Hb _ IH]; [done|]. cbn [split_once].
  by rewrite (proj2 (Z.eqb_neq b c)), IH.
Qed.

Lemma split_once_mid c s t : Forall (λ b, b ≠ c) s → split_once c (s ++ c :: t) = Some (s, t).
Proof.
  induction 1 as [|b s Hb _ IH]; cbn [app split_once]; [by rewrite Z.eqb_refl|].
  by rewrite (proj2 (Z.eqb_neq b c)), IH.
Qed.

Lemma digits_ne c s : digits s → ¬ (48 ≤ c ≤ 57) → Forall (λ b, b ≠ c) s.
Proof. intros Hs Hc. eapply Forall_impl; [exact Hs|]. simpl. lia. Qed.

Lemma all_digits_digits s : all_digits s = true → digits s.
Proof.
  unfold all_digits. induction s as [|b s IH]; [by constructor|]. cbn [forallb].
  rewrite andb_true_iff. intros [Hb Hs]. constructor; [by apply between_true|by apply IH].
Qed.

Lemma split_absent c s : Forall (λ b, b ≠ c) s → split c s = [s].
Proof.
  induction 1 as [|b s Hb _ IH]; [done|]. cbn [split]. by rewrite (proj2 (Z.eqb_neq b c)), IH.
Qed.

Lemma split_mid c s t : Forall (λ b, b ≠ c) s → split c (s ++ c :: t) = s :: split c t.
Proof.
  induction 1 as [|b s Hb _ IH]; cbn [app split]; [by rewrite Z.eqb_refl|].
  by rewrite (proj2 (Z.eqb_neq b c)), IH.
Qed.

(** * Printed numbers *)

Lemma digits_value_snoc s b : digits_value (s ++ [b]) = digits_value s * 10 + (b - 48).
Proof. unfold digits_value. by rewrite foldl_snoc. Qed.

Lemma digits_value_zeros k s : digits_value (replicate k 48 ++ s) = digits_value s.
Proof. unfold digits_value. rewrite foldl_app. f_equal. induction k as [|k IH]; [done|]. apply IH. Qed.

Lemma digits_value_app s t : digits_value (s ++ t) = digits_value s * 10 ^ Z.of_nat (length t) + digits_value t.
Proof.
  induction t as [|b t IH] using rev_ind.
  - rewrite app_nil_r. change (digits_value []) with 0. cbn [length]. lia.
  - rewrite app_assoc, !digits_value_snoc, IH, length_app. cbn [length].
    rewrite Nat2Z.inj_add, Z.pow_add_r by lia. change (10 ^ Z.of_nat 1) with 10. lia.
Qed.

Lemma digits_value_bound s : digits s → 0 ≤ digits_value s < 10 ^ Z.of_nat (length s).
Proof.
  induction s as [|b s IH] using rev_ind; [done|]. intros [Hs Hb]%digits_app.
  unfold digits in Hb. rewrite Forall_singleton in Hb. rewrite digits_value_snoc, length_app. cbn [length].
  rewrite Nat2Z.inj_add, Z.pow_add_r by lia. change (10 ^ Z.of_nat 1) with 10. specialize (IH Hs). lia.
Qed.

Lemma nat_digits_spec fuel : ∀ n, 0 ≤ n < 10 ^ Z.of_nat fuel → (0 < fuel)%nat →
  digits (nat_digits fuel n) ∧ nat_digits fuel n ≠ [] ∧ digits_value (nat_digits fuel n) = n.
Proof.
  induction fuel as [|fuel IH]; intros n Hn Hf; [lia|]. cbn [nat_digits].
  pose proof (Z.mod_pos_bound n 10 ltac:(lia)). pose proof (Z.div_mod n 10 ltac:(lia)).
  rewrite Nat2Z.inj_succ, Z.pow_succ_r in Hn by lia.
  assert (n / 10 ≠ 0 → (0 < fuel)%nat ∧ 0 ≤ n / 10 < 10 ^ Z.of_nat fuel) as Hq.
  { intros Hne. split; [|lia]. destruct fuel; [|lia]. change (10 ^ Z.of_nat 0) with 1 in Hn. lia. }
  split; [|split; [by destruct (if n / 10 =? 0 then _ else _)|]].
  - apply digits_app. split; [|apply Forall_singleton; lia].
    destruct (Z.eqb_spec (n / 10) 0) as [|Hne]; [constructor|]. destruct (Hq Hne). by apply IH.
  - rewrite digits_value_snoc. destruct (Z.eqb_spec (n / 10) 0) as [|Hne]; [change (digits_value []) with 0; lia|].
    destruct (Hq Hne) as [Hf' Hb]. destruct (IH (n / 10) Hb Hf') as (_&_&->). lia.
Qed.

Lemma to_decimal_spec n : 0 ≤ n < 10 ^ 64 →
  digits (to_decimal n) ∧ to_decimal n ≠ [] ∧ digits_value (to_decimal n) = n.
Proof. intros Hn. apply nat_digits_spec; [done|lia]. Qed.

Lemma padded_spec w n : 0 ≤ n < 10 ^ 64 →
  digits (padded w n) ∧ padded w n ≠ [] ∧ digits_value (padded w n) = n.
Proof.
  intros Hn. destruct (to_decimal_spec n Hn) as (Hd&Hne&Hv). unfold padded. split_and!.
  - apply digits_app. split; [|done]. apply Forall_replicate. lia.
  - intros [_ ?]%app_eq_nil. done.
  - by rewrite digits_value_zeros.
Qed.

(** The digits of a number below [10^k] number at most [k]. *)
Lemma length_nat_digits fuel k : ∀ n, 0 ≤ n < 10 ^ Z.of_nat k → (0 < k ≤ fuel)%nat →
  (length (nat_digits fuel n) ≤ k)%nat.
Proof.
  revert k. induction fuel as [|fuel IH]; intros k n Hn Hk; [lia|]. cbn [nat_digits]. rewrite length_app. cbn [length].
  destruct (Z.eqb_spec (n / 10) 0); [cbn; lia|]. destruct k as [|[|k]]; [lia| |].
  - change (10 ^ Z.of_nat 1) with 10 in Hn. rewrite Z.div_small in * by lia. done.
  - rewrite Nat2Z.inj_succ, Z.pow_succ_r in Hn by lia.
    pose proof (IH (S k) (n / 10) ltac:(split; [apply Z.div_pos; lia|apply Z.div_lt_upper_bound; lia]) ltac:(lia)). lia.
Qed.

Lemma length_padded w n : 0 ≤ n < 10 ^ Z.of_nat w → (0 < w ≤ 64)%nat → length (padded w n) = w.
Proof.
  intros Hn Hw. unfold padded. rewrite length_app, length_replicate.
  pose proof (length_nat_digits 64 w n Hn ltac:(lia)) as Hl. unfold to_decimal. lia.
Qed.
