(* ===== verification/Value.v ===== *)
(** Values, column types, collations and comparison:
    [crates/mpedb-types/src/value.rs]. *)

From S2P Require Import Prelude Text.
Local Open Scope Z_scope.

(** * Column types *)

Inductive ColumnType :=
| Int64 | Float64 | TBool | TText | TBlob | TTimestamp | TAny | TDate | TTime | TNumeric.

#[global] Instance ColumnType_eq_dec : EqDecision ColumnType.
Proof. solve_decision. Defined.

(** [ty as u8]. *)
Definition type_tag (ty : ColumnType) : Z :=
  match ty with
  | Int64 => 1 | Float64 => 2 | TBool => 3 | TText => 4 | TBlob => 5
  | TTimestamp => 6 | TAny => 7 | TDate => 8 | TTime => 9 | TNumeric => 10
  end.

Definition from_tag (tag : Z) : option ColumnType :=
  match tag with
  | 1 => Some Int64 | 2 => Some Float64 | 3 => Some TBool | 4 => Some TText | 5 => Some TBlob
  | 6 => Some TTimestamp | 7 => Some TAny | 8 => Some TDate | 9 => Some TTime
  | 10 => Some TNumeric
  | _ => None
  end.

(** * Values *)

(** An [f64] is its bit pattern; text is its UTF-8 bytes. *)
Inductive Value :=
| Null
| Int (x : Z)
| Float (bits : Z)
| Bool (x : bool)
| Text (s : bytes)
| Blob (b : bytes)
| Timestamp (x : Z)
| Date (x : Z)
| Time (x : Z)
| Numeric (s : bytes)
| List (items : list Value).

Definition is_null (v : Value) : bool := match v with Null => true | _ => false end.

Definition is_list (v : Value) : bool := match v with List _ => true | _ => false end.

Definition column_type (v : Value) : option ColumnType :=
  match v with
  | Null => None
  | Int _ => Some Int64
  | Float _ => Some Float64
  | Bool _ => Some TBool
  | Text _ => Some TText
  | Blob _ => Some TBlob
  | Timestamp _ => Some TTimestamp
  | Date _ => Some TDate
  | Time _ => Some TTime
  | Numeric _ => Some TNumeric
  | List _ => None
  end.

Definition fits (v : Value) (ty : ColumnType) : bool :=
  if bool_decide (ty = TAny) then match v with List _ => false | _ => true end
  else match column_type v with
       | None => true
       | Some t => bool_decide (t = ty)
       end.

(** * Floats as bit patterns *)

Definition f_sign (b : Z) : bool := 2 ^ 63 <=? b.
Definition f_mag (b : Z) : Z := b mod 2 ^ 63.
Definition INF_BITS : Z := 2047 * 2 ^ 52.
Definition NAN_BITS : Z := 4095 * 2 ^ 51.

Definition f_is_nan (b : Z) : bool := INF_BITS <? f_mag b.
Definition f_is_finite (b : Z) : bool := f_mag b <? INF_BITS.

(** The magnitude of a pattern in units of [2^-1074], of which every finite
    double is a multiple; infinity comes out above every finite value. *)
Definition f_units (m : Z) : Z :=
  let e := m / 2 ^ 52 in
  let f := m mod 2 ^ 52 in
  if e =? 0 then f else (2 ^ 52 + f) * 2 ^ (e - 1).

(** The value of a pattern that is not a NaN, in the same units. *)
Definition f_val (b : Z) : Z := if f_sign b then - f_units (f_mag b) else f_units (f_mag b).
Definition ONE : Z := 2 ^ 1074.

(** [f] compared with the integer [n], exactly. *)
Definition f_cmp_int (b n : Z) : comparison := f_val b ?= n * ONE.
(** [f.floor() as i64] and [f as i64] (truncation), where they are in range. *)
Definition f_floor (b : Z) : Z := f_val b / ONE.
Definition f_trunc (b : Z) : Z := Z.quot (f_val b) ONE.

Definition normalize_float_bits (v : Z) : Z :=
  let v := if f_mag v =? 0 then 0 else v in
  let bits := if f_is_nan v then NAN_BITS else v in
  if Z.shiftr bits 63 =? 1 then Z.lxor bits (2 ^ 64 - 1) else Z.lor bits (Z.shiftl 1 63).

Definition float_total_cmp (a b : Z) : comparison :=
  normalize_float_bits a ?= normalize_float_bits b.

(** The last step compares [i as f64], which is exact there, with [r]. *)
Definition int_float_cmp (i r : Z) : comparison :=
  if f_is_nan r then Lt
  else if bool_decide (f_cmp_int r (-2 ^ 63) = Lt) then Gt
  else if bool_decide (f_cmp_int r (2 ^ 63) ≠ Lt) then Lt
  else
    let y := f_trunc r in
    match i ?= y with
    | Eq => i * ONE ?= f_val r
    | other => other
    end.

(** * Collations *)

Inductive Collation := Binary | NoCase | Rtrim.

#[global] Instance Collation_eq_dec : EqDecision Collation.
Proof. solve_decision. Defined.

Definition coll_from_tag (t : Z) : option Collation :=
  match t with 0 => Some Binary | 1 => Some NoCase | 2 => Some Rtrim | _ => None end.

(** The loop over the common length, then the lengths. *)
Fixpoint nocase_cmp (a b : bytes) : comparison :=
  match a, b with
  | x :: a, y :: b =>
      match ascii_lower x ?= ascii_lower y with Eq => nocase_cmp a b | c => c end
  | a, b => (length a ?= length b)%nat
  end.

Definition compare_str (coll : Collation) (a b : bytes) : comparison :=
  match coll with
  | Binary => lex_cmp a b
  | NoCase => nocase_cmp a b
  | Rtrim => lex_cmp (trim_end_matches 32 a) (trim_end_matches 32 b)
  end.

Definition fold_key (coll : Collation) (s : bytes) : bytes :=
  match coll with
  | Binary => s
  | NoCase => to_ascii_lowercase s
  | Rtrim => trim_end_matches 32 s
  end.

(** * Exact decimals as text *)

Definition ch (c : string) : bytes := map (λ a, Z.of_nat (Ascii.nat_of_ascii a)) (String.list_ascii_of_string c).

Definition NUMERIC_MAX_WEIGHT : Z := 131072.
Definition NUMERIC_MAX_SCALE : Z := 16383.

Definition MINUS : Z := 45.
Definition PLUS : Z := 43.
Definition DOT : Z := 46.
Definition ZERO : Z := 48.

(** [match t.strip_prefix('-') { Some(rest) => (true, rest), None => (false,
    t.strip_prefix('+').unwrap_or(t)) }]. *)
Definition split_sign (t : bytes) : bool * bytes :=
  match strip_prefix MINUS t with
  | Some rest => (true, rest)
  | None => (false, default t (strip_prefix PLUS t))
  end.

Definition is_decimal_byte (b : Z) : bool := is_digit b || (b =? DOT).

Definition canonical_numeric (s : bytes) : bytes :=
  let t := trim s in
  let '(neg, digits) := split_sign t in
  if bool_decide (digits = []) || negb (forallb is_decimal_byte digits) then t
  else
    let '(int_part, frac_part) := default (digits, []) (split_once DOT digits) in
    let int_trimmed := trim_start_matches ZERO int_part in
    let frac_trimmed := trim_end_matches ZERO frac_part in
    let int_final := if bool_decide (int_trimmed = []) then [ZERO] else int_trimmed in
    (if neg && negb (bool_decide (int_final = [ZERO]) && bool_decide (frac_trimmed = []))
     then [MINUS] else []) ++ int_final ++
    (if bool_decide (frac_trimmed = []) then [] else DOT :: frac_trimmed).

(** The mantissa and the exponent around the first ['e'] or ['E']. *)
Fixpoint split_exponent (s : bytes) : option (bytes * bytes) :=
  match s with
  | [] => None
  | b :: s =>
      if (b =? 101) || (b =? 69) then Some ([], s)
      else match split_exponent s with Some (l, r) => Some (b :: l, r) | None => None end
  end.

Definition I64_MAX : Z := 2 ^ 63 - 1.
Definition I64_MIN : Z := - 2 ^ 63.
(** [digits.parse().unwrap_or(i64::MAX)]. *)
Definition parse_saturating (digits : bytes) : Z := Z.min (digits_value digits) I64_MAX.
Definition saturate (z : Z) : Z := Z.max I64_MIN (Z.min z I64_MAX).

Definition parse_exponent (body : bytes) : option (bytes * Z) :=
  match split_exponent body with
  | None => Some (body, 0)
  | Some (mantissa, e) =>
      let e := default e (strip_prefix PLUS e) in
      let neg_e := bool_decide (head e = Some MINUS) in
      let digits := if neg_e then tail e else e in
      if bool_decide (digits = []) || negb (all_digits digits) then None
      else
        let mag := parse_saturating digits in
        Some (mantissa, if neg_e then - mag else mag)
  end.

(** The digits with the point [point] places in. *)
Definition place_point (point : Z) (digits : bytes) : bytes :=
  if point <=? 0 then [ZERO; DOT] ++ replicate (Z.to_nat (- point)) ZERO ++ digits
  else if Z.of_nat (length digits) <=? point
  then digits ++ replicate (Z.to_nat point - length digits) ZERO
  else take (Z.to_nat point) digits ++ [DOT] ++ drop (Z.to_nat point) digits.

Definition parse_numeric (s : bytes) : option bytes :=
  let t := trim s in
  if bool_decide (t = []) then None
  else
    let '(neg, body) := split_sign t in
    if eq_ignore_ascii_case body (ch "nan") then Some (ch "NaN")
    else if eq_ignore_ascii_case body (ch "infinity") || eq_ignore_ascii_case body (ch "inf")
    then Some (if neg then ch "-Infinity" else ch "Infinity")
    else
      '(mantissa, exp) ← parse_exponent body;
      let '(int_part, frac_part) := default (mantissa, []) (split_once DOT mantissa) in
      if bool_decide (int_part = []) && bool_decide (frac_part = []) then None
      else if negb (all_digits (int_part ++ frac_part)) then None
      else
        let digits := int_part ++ frac_part in
        let point := saturate (Z.of_nat (length int_part) + exp) in
        if (NUMERIC_MAX_WEIGHT <? point) ||
           (NUMERIC_MAX_SCALE <? saturate (Z.of_nat (length digits) - point)) then None
        else
          let plain := place_point point digits in
          let '(ip, fp) := default (plain, []) (split_once DOT plain) in
          let ip := trim_start_matches ZERO ip in
          let ip := if bool_decide (ip = []) then [ZERO] else ip in
          Some ((if neg && negb (bool_decide (ip = [ZERO]) && forallb (Z.eqb ZERO) fp)
                 then [MINUS] else []) ++ ip ++
                (if bool_decide (fp = []) then [] else DOT :: fp)).

Definition numeric_special_rank (s : bytes) : option Z :=
  if bool_decide (s = ch "-Infinity") then Some 0
  else if bool_decide (s = ch "Infinity") then Some 3
  else if bool_decide (s = ch "NaN") then Some 4
  else None.

Definition split_significant (s : bytes) : bytes * bytes :=
  let '(i, f) := default (s, []) (split_once DOT s) in
  (trim_start_matches ZERO i, trim_end_matches ZERO f).

(** [a.cmp(b).then_with(..)]. *)
Definition then_cmp (c d : comparison) : comparison := match c with Eq => d | _ => c end.

Definition numeric_cmp (a b : bytes) : comparison :=
  match numeric_special_rank a, numeric_special_rank b with
  | Some x, Some y => x ?= y
  | Some x, None => x ?= 2
  | None, Some y => 2 ?= y
  | None, None =>
      let '(an, ab) := split_sign a in
      let '(bn, bb) := split_sign b in
      let '(ai, af) := split_significant ab in
      let '(bi, bf) := split_significant bb in
      let an := an && negb (bool_decide (ai = []) && bool_decide (af = [])) in
      let bn := bn && negb (bool_decide (bi = []) && bool_decide (bf = [])) in
      if negb (eqb an bn) then (if an then Lt else Gt)
      else
        let mag := then_cmp (length ai ?= length bi)%nat (then_cmp (lex_cmp ai bi) (lex_cmp af bf)) in
        if an then CompOpp mag else mag
  end.

(** * Comparison *)

Definition bool_cmp (a b : bool) : comparison :=
  match a, b with false, true => Lt | true, false => Gt | _, _ => Eq end.

Definition sql_cmp (v w : Value) : res (option comparison) :=
  match v, w with
  | Null, _ | _, Null => Ok None
  | Int a, Int b => Ok (Some (a ?= b))
  | Float a, Float b => Ok (Some (float_total_cmp a b))
  | Int a, Float b => Ok (Some (int_float_cmp a b))
  | Float a, Int b => Ok (Some (CompOpp (int_float_cmp b a)))
  | Bool a, Bool b => Ok (Some (bool_cmp a b))
  | Text a, Text b => Ok (Some (lex_cmp a b))
  | Blob a, Blob b => Ok (Some (lex_cmp a b))
  | Timestamp a, Timestamp b => Ok (Some (a ?= b))
  | Date a, Date b => Ok (Some (a ?= b))
  | Time a, Time b => Ok (Some (a ?= b))
  | Numeric a, Numeric b => Ok (Some (numeric_cmp a b))
  | List _, _ | _, List _ =>
      Err (TypeMismatch "a context list supports only `IN` membership, not comparison")
  | _, _ => Err (TypeMismatch "cannot compare")
  end.

Definition sql_cmp_collated (v w : Value) (coll : Collation) : res (option comparison) :=
  match v, w with
  | Text a, Text b => Ok (Some (compare_str coll a b))
  | _, _ => sql_cmp v w
  end.

Definition class_rank (v : Value) : option Z :=
  match v with
  | Int _ | Float _ => Some 1
  | Text _ => Some 2
  | Blob _ => Some 3
  | _ => None
  end.

Definition sort_cmp (v w : Value) (coll : Collation) : option comparison :=
  if is_null v || is_null w then None
  else
    match v, w with
    | Text a, Text b => Some (compare_str coll a b)
    | _, _ =>
        match sql_cmp_collated v w coll with
        | Ok o => o
        | _ => match class_rank v, class_rank w with
               | Some x, Some y => Some (x ?= y)
               | _, _ => None
               end
        end
    end.
