(* ===== verification/FloatOrder.v ===== *)
(** The order of doubles: [normalize_float_bits] is an order-preserving image
    of the exact value, with every NaN equal and above everything; an integer
    and a double compare exactly. *)

From S2P Require Import Prelude Text Value.
Local Open Scope Z_scope.

Definition is_f64 (b : Z) : Prop := is_uint 64 b.

(** The value of a pattern, a NaN taking a value above infinity. *)
Definition NAN_VAL : Z := 2 ^ 2200.
Definition fv (b : Z) : Z := if f_is_nan b then NAN_VAL else f_val b.

Lemma f_units_nonneg m : 0 ≤ m → 0 ≤ f_units m.
Proof.
  intros Hm. unfold f_units. pose proof (Z.mod_pos_bound m (2 ^ 52) ltac:(lia)).
  destruct (Z.eqb_spec (m / 2 ^ 52) 0); [lia|].
  pose proof (Z.pow_nonneg 2 (m / 2 ^ 52 - 1)). nia.
Qed.

(** Magnitudes order as their patterns do. *)
Lemma f_units_mono m n : 0 ≤ m < n → f_units m < f_units n.
Proof.
  intros [Hm Hn]. unfold f_units.
  pose proof (Z.div_mod m (2 ^ 52) ltac:(lia)) as Em. pose proof (Z.div_mod n (2 ^ 52) ltac:(lia)) as En.
  pose proof (Z.mod_pos_bound m (2 ^ 52) ltac:(lia)). pose proof (Z.mod_pos_bound n (2 ^ 52) ltac:(lia)).
  set (em := m / 2 ^ 52) in *. set (en := n / 2 ^ 52) in *.
  set (fm := m mod 2 ^ 52) in *. set (fn := n mod 2 ^ 52) in *.
  assert (0 ≤ em) by (unfold em; apply Z.div_pos; lia).
  clearbody em en fm fn.
  assert (em = en ∧ fm < fn ∨ em < en) as [[He Hf]|He].
  { destruct (Z.lt_trichotomy em en) as [?|[?|?]]; [by right|left; nia|nia]. }
  - rewrite He. destruct (Z.eqb_spec en 0); [lia|].
    apply Z.mul_lt_mono_pos_r; [apply Z.pow_pos_nonneg|]; lia.
  - destruct (Z.eqb_spec en 0); [lia|]. destruct (Z.eqb_spec em 0) as [|Hem].
    + pose proof (Z.pow_pos_nonneg 2 (en - 1) ltac:(lia) ltac:(lia)). nia.
    + assert (2 ^ (en - 1) = 2 ^ (em - 1) * 2 ^ (en - em)) as ->
        by (rewrite <- Z.pow_add_r by lia; f_equal; lia).
      assert (2 * 2 ^ (en - em - 1) = 2 ^ (en - em)) as H2
        by (rewrite <- Z.pow_succ_r by lia; f_equal; lia).
      pose proof (Z.pow_pos_nonneg 2 (em - 1) ltac:(lia) ltac:(lia)).
      pose proof (Z.pow_pos_nonneg 2 (en - em - 1) ltac:(lia) ltac:(lia)).
      nia.
Qed.

Lemma f_units_cmp m n : 0 ≤ m → 0 ≤ n → (f_units m ?= f_units n) = (m ?= n).
Proof.
  intros Hm Hn. destruct (Z.compare_spec m n) as [->|Hlt|Hlt].
  - apply Z.compare_refl.
  - apply Z.compare_lt_iff. apply f_units_mono; lia.
  - apply Z.compare_gt_iff. apply f_units_mono; lia.
Qed.

Lemma f_units_inf m : 0 ≤ m ≤ INF_BITS → 0 ≤ f_units m < NAN_VAL.
Proof.
  intros Hm. split; [apply f_units_nonneg; lia|].
  apply Z.le_lt_trans with (f_units INF_BITS); [|vm_compute; done].
  destruct (decide (m = INF_BITS)) as [->|]; [lia|].
  pose proof (f_units_mono m INF_BITS). lia.
Qed.

(** * The image *)

Lemma f_split v : is_f64 v →
  0 ≤ f_mag v < 2 ^ 63 ∧ v = (if f_sign v then 2 ^ 63 else 0) + f_mag v.
Proof.
  intros [Hl Hh]. unfold f_mag, f_sign. split; [apply Z.mod_pos_bound; lia|].
  destruct (Z.leb_spec (2 ^ 63) v).
  - replace v with (v - 2 ^ 63 + 1 * 2 ^ 63) at 2 by lia.
    rewrite Z.mod_add by lia. rewrite Z.mod_small by lia. lia.
  - rewrite Z.mod_small by lia. lia.
Qed.

Lemma lor_top b : 0 ≤ b < 2 ^ 63 → Z.lor b (Z.shiftl 1 63) = b + 2 ^ 63.
Proof.
  intros Hb. rewrite Z.shiftl_1_l. rewrite <- Z.lxor_lor.
  - pose proof (lxor_top_bit 64 b ltac:(lia)) as H. change (64 - 1) with 63 in H.
    rewrite H by (split; lia). destruct (Z.ltb_spec b (2 ^ 63)); lia.
  - apply Z.bits_inj'. intros i Hi. rewrite Z.land_spec, Z.bits_0, Z.pow2_bits_eqb by lia.
    destruct (Z.eqb_spec 63 i) as [<-|]; [|by rewrite andb_false_r].
    rewrite andb_true_r, <- (Z.mod_small b (2 ^ 63)) by done. apply Z.mod_pow2_bits_high. lia.
Qed.

Lemma lxor_ones w b : 0 < w → 0 ≤ b < 2 ^ w → Z.lxor b (2 ^ w - 1) = 2 ^ w - 1 - b.
Proof.
  intros Hw Hb. replace (2 ^ w - 1) with (Z.ones w) by (rewrite Z.ones_equiv; lia).
  assert (Z.log2 b < w) as Hlog.
  { destruct (decide (b = 0)) as [->|]; [by rewrite Z.log2_nonpos|]. apply Z.log2_lt_pow2; lia. }
  rewrite <- Z.ldiff_ones_l_low by lia. rewrite Z.sub_nocarry_ldiff; [done|].
  apply Z.ldiff_ones_r_low; lia.
Qed.

Lemma normalize_cases v : is_f64 v →
  normalize_float_bits v =
    if f_mag v =? 0 then 2 ^ 63
    else if f_is_nan v then NAN_BITS + 2 ^ 63
    else if f_sign v then 2 ^ 63 - 1 - f_mag v
    else 2 ^ 63 + f_mag v.
Proof.
  intros Hv. destruct (f_split v Hv) as [Hm Hs]. unfold normalize_float_bits.
  destruct (Z.eqb_spec (f_mag v) 0) as [H0|H0]; [vm_compute; done|].
  destruct (f_is_nan v) eqn:Hn; [vm_compute; done|].
  rewrite Z.shiftr_div_pow2 by lia. destruct (f_sign v).
  - rewrite (proj2 (Z.eqb_eq (v / 2 ^ 63) 1)).
    + rewrite lxor_ones by lia. lia.
    + symmetry. apply (Z.div_unique_pos _ _ _ (f_mag v)); lia.
  - rewrite (proj2 (Z.eqb_neq (v / 2 ^ 63) 1)).
    + rewrite lor_top by lia. lia.
    + rewrite Z.div_small by lia. done.
Qed.

Lemma normalize_uint v : is_f64 v → is_uint 64 (normalize_float_bits v).
Proof.
  intros Hv. rewrite normalize_cases by done. destruct (f_split v Hv) as [Hm _].
  unfold is_uint, NAN_BITS. repeat case_match; lia.
Qed.

Lemma f_is_nan_spec v : f_is_nan v = true ↔ INF_BITS < f_mag v.
Proof. unfold f_is_nan. apply Z.ltb_lt. Qed.

(** The signed magnitude orders as the value does. *)
Definition f_smag (v : Z) : Z := if f_sign v then - f_mag v else f_mag v.

Lemma f_val_mono a b : is_f64 a → is_f64 b → f_smag a < f_smag b → f_val a < f_val b.
Proof.
  intros Ha Hb. destruct (f_split a Ha) as [Hma _], (f_split b Hb) as [Hmb _].
  unfold f_smag, f_val.
  pose proof (f_units_nonneg (f_mag a)). pose proof (f_units_nonneg (f_mag b)).
  assert (∀ m, 0 < m → 0 < f_units m) as Hpos.
  { intros m Hm. pose proof (f_units_mono 0 m). change (f_units 0) with 0 in *. lia. }
  destruct (f_sign a), (f_sign b); intros Hlt.
  - pose proof (f_units_mono (f_mag b) (f_mag a)). lia.
  - destruct (decide (f_mag a = 0)); [pose proof (Hpos (f_mag b))|pose proof (Hpos (f_mag a))]; lia.
  - lia.
  - apply f_units_mono. lia.
Qed.

Lemma f_val_cmp a b : is_f64 a → is_f64 b → (f_val a ?= f_val b) = (f_smag a ?= f_smag b).
Proof.
  intros Ha Hb. destruct (Z.compare_spec (f_smag a) (f_smag b)) as [He|Hlt|Hlt].
  - apply Z.compare_eq_iff. unfold f_smag, f_val in *.
    destruct (f_split a Ha) as [Hma _], (f_split b Hb) as [Hmb _].
    assert (f_mag a = f_mag b) as Hm by (destruct (f_sign a), (f_sign b); lia).
    rewrite Hm in *. destruct (f_sign a), (f_sign b); try done;
      by assert (f_mag b = 0) as -> by lia.
  - apply Z.compare_lt_iff. by apply f_val_mono.
  - apply Z.compare_gt_iff. by apply f_val_mono.
Qed.

Lemma normalize_smag v : is_f64 v → f_is_nan v = false →
  normalize_float_bits v = 2 ^ 63 + f_smag v - (if f_smag v <? 0 then 1 else 0).
Proof.
  intros Hv Hn. rewrite normalize_cases, Hn by done. destruct (f_split v Hv) as [Hm _].
  unfold f_smag. destruct (Z.eqb_spec (f_mag v) 0), (f_sign v);
    match goal with |- context [?x <? 0] => destruct (Z.ltb_spec x 0) end; lia.
Qed.

Lemma f_val_bound v : is_f64 v → f_is_nan v = false → - NAN_VAL < f_val v < NAN_VAL.
Proof.
  intros Hv Hn. destruct (f_split v Hv) as [Hm _]. apply not_true_iff_false in Hn.
  rewrite f_is_nan_spec in Hn. pose proof (f_units_inf (f_mag v) ltac:(lia)).
  unfold f_val. destruct (f_sign v); lia.
Qed.

(** [float_total_cmp] compares the values. *)
Lemma float_total_cmp_fv a b : is_f64 a → is_f64 b → float_total_cmp a b = (fv a ?= fv b).
Proof.
  intros Ha Hb. unfold float_total_cmp, fv.
  assert (∀ v, is_f64 v → f_is_nan v = true → normalize_float_bits v = NAN_BITS + 2 ^ 63) as Hnan.
  { intros v Hv Hn. rewrite normalize_cases, Hn by done. apply f_is_nan_spec in Hn.
    by rewrite (proj2 (Z.eqb_neq (f_mag v) 0)) by (unfold INF_BITS in *; lia). }
  assert (∀ v, is_f64 v → f_is_nan v = false → normalize_float_bits v < NAN_BITS + 2 ^ 63) as Hfin.
  { intros v Hv Hn. rewrite normalize_smag by done. apply not_true_iff_false in Hn.
    rewrite f_is_nan_spec in Hn. destruct (f_split v Hv) as [Hm _].
    unfold f_smag, NAN_BITS, INF_BITS in *. repeat case_match; lia. }
  destruct (f_is_nan a) eqn:Na, (f_is_nan b) eqn:Nb.
  - by rewrite !Hnan, !Z.compare_refl.
  - pose proof (f_val_bound b Hb Nb). pose proof (Hfin b Hb Nb). rewrite (Hnan a) by done.
    rewrite (proj2 (Z.compare_gt_iff NAN_VAL _)) by lia. apply Z.compare_gt_iff. lia.
  - pose proof (f_val_bound a Ha Na). pose proof (Hfin a Ha Na). rewrite (Hnan b) by done.
    rewrite (proj2 (Z.compare_lt_iff _ NAN_VAL)) by lia. apply Z.compare_lt_iff. lia.
  - rewrite f_val_cmp, !normalize_smag by done.
    destruct (Z.compare_spec (f_smag a) (f_smag b)) as [->| |];
      [apply Z.compare_refl|apply Z.compare_lt_iff|apply Z.compare_gt_iff];
      destruct (Z.ltb_spec (f_smag a) 0), (Z.ltb_spec (f_smag b) 0); lia.
Qed.

(** * An integer against a double *)

Lemma ONE_pos : 0 < ONE.
Proof. by vm_compute. Qed.

(** Comparing with the truncation first loses nothing. *)
Lemma trunc_cmp i V : (match i ?= Z.quot V ONE with Eq => i * ONE ?= V | c => c end) = (i * ONE ?= V).
Proof.
  pose proof ONE_pos as H1.
  pose proof (Z.quot_rem V ONE ltac:(lia)) as Hq. pose proof (Z.rem_bound_abs V ONE ltac:(lia)) as Hb.
  assert (0 ≤ V → 0 ≤ Z.rem V ONE) as Hp by (intros; apply Z.rem_nonneg; lia).
  assert (V ≤ 0 → Z.rem V ONE ≤ 0) as Hn by (intros; apply Z.rem_nonpos; lia).
  assert (V < 0 → Z.quot V ONE ≤ 0) as Hqn by (intros; apply Z.quot_le_upper_bound; lia).
  assert (0 ≤ V → 0 ≤ Z.quot V ONE) as Hqp by (intros; apply Z.quot_pos; lia).
  set (q := Z.quot V ONE) in *. set (m := Z.rem V ONE) in *. clearbody q m.
  destruct (Z.compare_spec i q) as [->|Hlt|Hlt]; [done|symmetry; apply Z.compare_lt_iff|symmetry; apply Z.compare_gt_iff].
  - assert (i * ONE + ONE ≤ q * ONE) by nia. lia.
  - assert (q * ONE + ONE ≤ i * ONE) by nia. lia.
Qed.

(** [int_float_cmp] compares exactly. *)
Lemma int_float_cmp_fv i r : is_sint 64 i → is_f64 r → int_float_cmp i r = (i * ONE ?= fv r).
Proof.
  intros [Hl Hh] Hr. change (64 - 1) with 63 in *. unfold int_float_cmp, fv.
  pose proof ONE_pos as H1. assert (2 ^ 63 * ONE < NAN_VAL) as Hbig by by vm_compute.
  destruct (f_is_nan r) eqn:Hn.
  { symmetry. apply Z.compare_lt_iff. nia. }
  unfold f_cmp_int. case_bool_decide as Hlo.
  { rewrite Z.compare_lt_iff in Hlo. symmetry. apply Z.compare_gt_iff. nia. }
  case_bool_decide as Hhi.
  { rewrite Z.compare_lt_iff in Hhi. symmetry. apply Z.compare_lt_iff. nia. }
  apply trunc_cmp.
Qed.
