(* ===== verification/Keycode.v ===== *)
(** The memcmp-ordered key encodings of [crates/mpedb-types/src/keycode.rs].
    An encoder appends to a buffer in the source; here it returns what it
    appends, or panics where the source reaches [unreachable!]. A decoder takes
    and returns the position in the buffer. *)

From S2P Require Import Prelude Text Value.
Local Open Scope Z_scope.

Definition TAG_NULL : Z := 0.
Definition TAG_PRESENT : Z := 1.
Definition ESCAPE : Z := 255.
Definition TERMINATOR : Z := 0.

(** * Building blocks *)

(** [((x as u64) ^ (1 << 63)).to_be_bytes()]. *)
Definition enc_i64 (x : Z) : bytes := be_encode 8 (Z.lxor (to_uint 64 x) (2 ^ 63)).
Definition enc_f64 (bits : Z) : bytes := be_encode 8 (normalize_float_bits bits).

Fixpoint encode_bytes (s : bytes) : bytes :=
  match s with
  | [] => [TERMINATOR]
  | b :: s => b :: (if b =? 0 then [ESCAPE] else []) ++ encode_bytes s
  end.

(** * Decimals *)

Definition DEC_NEG_INF : Z := 0.
Definition DEC_NEG : Z := 1.
Definition DEC_ZERO : Z := 2.
Definition DEC_POS : Z := 3.
Definition DEC_POS_INF : Z := 4.
Definition DEC_NAN : Z := 5.
Definition DEC_INVALID : Z := 6.

Definition complement (b : Z) : Z := Z.lxor b 255.

(** The spelling the key is made from. *)
Definition key_spelling (s : bytes) : bytes :=
  if existsb (λ b, (b =? 101) || (b =? 69)) s then default (trim s) (parse_numeric s)
  else canonical_numeric s.

Definition encode_numeric (s : bytes) : bytes :=
  let c := key_spelling s in
  if bool_decide (c = ch "NaN") then [DEC_NAN]
  else if bool_decide (c = ch "Infinity") then [DEC_POS_INF]
  else if bool_decide (c = ch "-Infinity") then [DEC_NEG_INF]
  else
    let '(neg, body) := match strip_prefix MINUS c with
                        | Some rest => (true, rest)
                        | None => (false, c)
                        end in
    let '(int_part, frac_part) := default (body, []) (split_once DOT body) in
    if bool_decide (body = []) || negb (forallb is_decimal_byte body)
    then DEC_INVALID :: encode_bytes c
    else
      let all := int_part ++ frac_part in
      let rest := trim_start_matches ZERO all in
      let lead := (length all - length rest)%nat in
      let sig := trim_end_matches ZERO rest in
      if bool_decide (sig = []) then [DEC_ZERO]
      else
        let exp := Z.of_nat (length int_part) - Z.of_nat lead in
        let biased := Z.lxor (to_uint 32 (to_sint 32 exp)) (2 ^ 31) in
        if (neg : bool)
        then DEC_NEG :: map complement (be_encode 4 biased) ++ map complement sig ++ [255]
        else DEC_POS :: be_encode 4 biased ++ sig ++ [0].

(** * The typed encoding *)

Definition encode_value (v : Value) : res bytes :=
  match v with
  | Null => Ok [TAG_NULL]
  | Int x | Timestamp x | Date x | Time x => Ok (TAG_PRESENT :: enc_i64 x)
  | Numeric n => Ok (TAG_PRESENT :: encode_numeric n)
  | Float x => Ok (TAG_PRESENT :: enc_f64 x)
  | Bool x => Ok [TAG_PRESENT; if x then 1 else 0]
  | Text s => Ok (TAG_PRESENT :: encode_bytes s)
  | Blob b => Ok (TAG_PRESENT :: encode_bytes b)
  | List _ => Panic
  end.

Definition encode_value_collated (v : Value) (coll : Collation) : res bytes :=
  match v with
  | Text s => if bool_decide (coll ≠ Binary)
              then Ok (TAG_PRESENT :: encode_bytes (fold_key coll s))
              else encode_value v
  | _ => encode_value v
  end.

(** [for v in values { enc(&mut buf, v) }]. *)
Fixpoint encode_all {A} (enc : A → res bytes) (l : list A) : res bytes :=
  match l with
  | [] => Ok []
  | x :: l => b ← enc x; bs ← encode_all enc l; Ok (b ++ bs)
  end.

Definition encode_key (values : list Value) : res bytes := encode_all encode_value values.

(** [values.iter().enumerate()] with [specs.get(i).unwrap_or(d)]. *)
Definition with_specs {A} (d : A) (values : list Value) (specs : list A) : list (Value * A) :=
  imap (λ i v, (v, default d (specs !! i))) values.

Definition encode_key_collated (values : list Value) (collations : list Collation) : res bytes :=
  encode_all (λ '(v, c), encode_value_collated v c) (with_specs Binary values collations).

(** * The storage-class encoding *)

Definition CLASS_NULL : Z := 0.
Definition CLASS_NUM : Z := 1.
Definition CLASS_TEXT : Z := 2.
Definition CLASS_BLOB : Z := 3.
Definition CLASS_BOOL : Z := 4.
Definition CLASS_TS : Z := 5.
Definition CLASS_DATE : Z := 6.
Definition CLASS_TIME : Z := 7.
Definition CLASS_NUMERIC : Z := 8.

Definition NUM_BELOW : Z := 0.
Definition NUM_EXACT : Z := 1.
Definition NUM_ABOVE : Z := 2.
Definition NUM_NAN : Z := 3.

Definition encode_number (v : Value) : res bytes :=
  match v with
  | Int i => Ok (enc_i64 i ++ [NUM_EXACT])
  | Float f =>
      if f_is_nan f then Ok (enc_i64 I64_MAX ++ NUM_NAN :: enc_f64 f)
      else if bool_decide (f_cmp_int f (2 ^ 63) ≠ Lt)
      then Ok (enc_i64 I64_MAX ++ NUM_ABOVE :: enc_f64 f)
      else if bool_decide (f_cmp_int f (- 2 ^ 63) = Lt)
      then Ok (enc_i64 I64_MIN ++ NUM_BELOW :: enc_f64 f)
      else
        let i := f_floor f in
        Ok (enc_i64 i ++ if bool_decide (f_cmp_int f i = Eq) then [NUM_EXACT]
                         else NUM_ABOVE :: enc_f64 f)
  | _ => Panic
  end.

Definition encode_group_value (v : Value) (coll : Collation) : res bytes :=
  match v with
  | Null => Ok [CLASS_NULL]
  | Int _ | Float _ => b ← encode_number v; Ok (CLASS_NUM :: b)
  | Text s => Ok (CLASS_TEXT :: encode_bytes (fold_key coll s))
  | Blob b => Ok (CLASS_BLOB :: encode_bytes b)
  | Bool x => Ok [CLASS_BOOL; if x then 1 else 0]
  | Timestamp x => Ok (CLASS_TS :: enc_i64 x)
  | Date x => Ok (CLASS_DATE :: enc_i64 x)
  | Time x => Ok (CLASS_TIME :: enc_i64 x)
  | Numeric n => Ok (CLASS_NUMERIC :: encode_numeric n)
  | List _ => Panic
  end.

Definition encode_group_key (values : list Value) (collations : list Collation) : res bytes :=
  encode_all (λ '(v, c), encode_group_value v c) (with_specs Binary values collations).

Record KeySpec := MkKeySpec { coll : Collation; class : bool }.
Definition default_spec : KeySpec := MkKeySpec Binary false.
Definition for_column (ty : ColumnType) (c : Collation) : KeySpec :=
  MkKeySpec c (bool_decide (ty = TAny)).
Definition is_plain_spec (s : KeySpec) : bool := bool_decide (coll s = Binary) && negb (class s).

Definition encode_value_spec (v : Value) (spec : KeySpec) : res bytes :=
  if class spec then encode_group_value v (coll spec) else encode_value_collated v (coll spec).

Definition encode_key_spec (values : list Value) (specs : list KeySpec) : res bytes :=
  encode_all (λ '(v, s), encode_value_spec v s) (with_specs default_spec values specs).

Definition encode_key_exact (values : list Value) : res bytes :=
  encode_all (λ v, b ← encode_value v; Ok (match column_type v with None => 0 | Some t => type_tag t end :: b))
    values.

(** * Decoding *)

(** A byte and the step past it. *)
Definition get_byte (e : string) (buf : bytes) (pos : nat) : res (Z * nat) :=
  b ← res_of_option (Corrupt e) (buf !! pos); Ok (b, S pos).

Definition take8 (e : string) (buf : bytes) (pos : nat) : res (Z * nat) :=
  raw ← res_of_option (Corrupt e) (get_range pos (pos + 8) buf); Ok (be_decode raw, (pos + 8)%nat).

Definition dec_i64 (u : Z) : Z := to_sint 64 (Z.lxor u (2 ^ 63)).
Definition dec_f64 (n : Z) : Z :=
  if Z.shiftr n 63 =? 1 then Z.land n (Z.lxor (2 ^ 63) (2 ^ 64 - 1)) else Z.lxor n (2 ^ 64 - 1).

(** The fuel stands for the bytes left; each turn reads one. *)
Fixpoint decode_bytes_loop (fuel : nat) (buf : bytes) (pos : nat) (out : bytes)
  : res (bytes * nat) :=
  match fuel with
  | O => Panic
  | S fuel =>
      '(b, pos) ← get_byte "unterminated key bytes" buf pos;
      if negb (b =? 0) then decode_bytes_loop fuel buf pos (out ++ [b])
      else if bool_decide (buf !! pos = Some ESCAPE)
      then decode_bytes_loop fuel buf (S pos) (out ++ [0])
      else Ok (out, pos)
  end.

Definition decode_bytes (buf : bytes) (pos : nat) : res (bytes * nat) :=
  decode_bytes_loop (S (length buf - pos)) buf pos [].

Definition from_utf8 (e : string) (b : bytes) : res bytes :=
  if utf8_valid b then Ok b else Err (Corrupt e).

Definition decode_bool (e : string) (buf : bytes) (pos : nat) : res (Value * nat) :=
  '(b, pos) ← get_byte e buf pos;
  if b =? 0 then Ok (Bool false, pos)
  else if b =? 1 then Ok (Bool true, pos)
  else Err (Corrupt "invalid bool in key").

Fixpoint decode_digits (fuel : nat) (neg : bool) (buf : bytes) (pos : nat) (sig : bytes)
  : res (bytes * nat) :=
  match fuel with
  | O => Panic
  | S fuel =>
      '(b, pos) ← get_byte "truncated numeric key" buf pos;
      if b =? (if neg then 255 else 0) then Ok (sig, pos)
      else
        let d := if neg then complement b else b in
        if negb (is_digit d) then Err (Corrupt "non-digit in numeric key")
        else if NUMERIC_MAX_WEIGHT <? Z.of_nat (length (sig ++ [d]))
        then Err (Corrupt "numeric key significand too long")
        else decode_digits fuel neg buf pos (sig ++ [d])
  end.

(** The exponent and the digits, up to the terminator. *)
Definition decode_decimal (neg : bool) (buf : bytes) (pos : nat) : res (bytes * nat) :=
  raw ← res_of_option (Corrupt "truncated numeric key") (get_range pos (pos + 4) buf);
  let b4 := if neg then map complement raw else raw in
  let exp := to_sint 32 (Z.lxor (be_decode b4) (2 ^ 31)) in
  '(sig, pos) ← decode_digits (S (length buf - (pos + 4))) neg buf (pos + 4) [];
  if bool_decide (sig = []) then Err (Corrupt "empty numeric key significand")
  else if (NUMERIC_MAX_WEIGHT <? exp) || (NUMERIC_MAX_SCALE <? Z.of_nat (length sig) - exp)
  then Err (Corrupt "numeric key exponent out of range")
  else
    let plain := place_point exp sig in
    Ok (if neg then MINUS :: plain else plain, pos).

Definition decode_numeric (buf : bytes) (pos : nat) : res (bytes * nat) :=
  '(cls, pos) ← get_byte "truncated numeric key" buf pos;
  if cls =? DEC_NAN then Ok (ch "NaN", pos)
  else if cls =? DEC_POS_INF then Ok (ch "Infinity", pos)
  else if cls =? DEC_NEG_INF then Ok (ch "-Infinity", pos)
  else if cls =? DEC_ZERO then Ok (ch "0", pos)
  else if cls =? DEC_NEG then decode_decimal true buf pos
  else if cls =? DEC_POS then decode_decimal false buf pos
  else if cls =? DEC_INVALID then
    '(b, pos) ← decode_bytes buf pos;
    s ← from_utf8 "invalid utf-8 in numeric key" b;
    Ok (s, pos)
  else Err (Corrupt "invalid numeric key class").

Definition decode_number (e : string) (buf : bytes) (pos : nat) : res (Value * nat) :=
  '(u, pos) ← take8 e buf pos;
  let floor := dec_i64 u in
  '(sub, pos) ← get_byte e buf pos;
  if sub =? NUM_EXACT then Ok (Int floor, pos)
  else if (sub =? NUM_BELOW) || (sub =? NUM_ABOVE) || (sub =? NUM_NAN) then
    '(n, pos) ← take8 e buf pos; Ok (Float (dec_f64 n), pos)
  else Err (Corrupt "invalid numeric sub-tag in key").

Definition decode_group_value (buf : bytes) (pos : nat) : res (Value * nat) :=
  let e := "truncated class key" in
  '(cls, pos) ← get_byte e buf pos;
  if cls =? CLASS_NULL then Ok (Null, pos)
  else if cls =? CLASS_NUM then decode_number e buf pos
  else if cls =? CLASS_TEXT then
    '(b, pos) ← decode_bytes buf pos;
    s ← from_utf8 "invalid utf-8 in key" b;
    Ok (Text s, pos)
  else if cls =? CLASS_BLOB then '(b, pos) ← decode_bytes buf pos; Ok (Blob b, pos)
  else if cls =? CLASS_BOOL then decode_bool e buf pos
  else if cls =? CLASS_TS then '(u, pos) ← take8 e buf pos; Ok (Timestamp (dec_i64 u), pos)
  else Err (Corrupt "invalid class key tag").

Definition decode_value (buf : bytes) (pos : nat) (ty : ColumnType) : res (Value * nat) :=
  if bool_decide (ty = TAny) then decode_group_value buf pos
  else
    let e := "truncated key" in
    '(tag, pos) ← get_byte e buf pos;
    if tag =? TAG_NULL then Ok (Null, pos)
    else if negb (tag =? TAG_PRESENT) then Err (Corrupt "invalid key tag")
    else
      match ty with
      | TAny => Panic
      | Int64 | TTimestamp | TDate | TTime =>
          '(u, pos) ← take8 e buf pos;
          let x := dec_i64 u in
          Ok (match ty with
              | Int64 => Int x
              | TTimestamp => Timestamp x
              | TDate => Date x
              | _ => Time x
              end, pos)
      | TNumeric => '(s, pos) ← decode_numeric buf pos; Ok (Numeric s, pos)
      | Float64 => '(n, pos) ← take8 e buf pos; Ok (Float (dec_f64 n), pos)
      | TBool => decode_bool e buf pos
      | TText | TBlob =>
          '(b, pos) ← decode_bytes buf pos;
          if bool_decide (ty = TText)
          then s ← from_utf8 "invalid utf-8 in key" b; Ok (Text s, pos)
          else Ok (Blob b, pos)
      end.

Fixpoint decode_columns (buf : bytes) (pos : nat) (types : list ColumnType)
  : res (list Value * nat) :=
  match types with
  | [] => Ok ([], pos)
  | ty :: types =>
      '(v, pos) ← decode_value buf pos ty;
      '(vs, pos) ← decode_columns buf pos types;
      Ok (v :: vs, pos)
  end.

Definition decode_key (buf : bytes) (types : list ColumnType) : res (list Value) :=
  '(out, pos) ← decode_columns buf 0 types;
  if negb (bool_decide (pos = length buf)) then Err (Corrupt "trailing bytes in key")
  else Ok out.
