(* ===== verification/KeycodeOrder.v ===== *)
(** The key encodings preserve order: comparing encoded keys byte by byte is
    comparing the values, column by column. *)

From S2P Require Import Prelude Text Value FloatOrder Keycode.
Local Open Scope Z_scope.

(** What may follow an encoded value: nothing, or a tag, which is below the
    escape byte. *)
Definition tail_ok (x : bytes) : Prop := match x with [] => True | b :: _ => 0 ≤ b < 255 end.

(** Comparing [ea ++ x] with [eb ++ y] is comparing [a] with [b], then what
    follows. *)
Definition keyed (c : comparison) (ea eb : bytes) : Prop :=
  ∀ x y, tail_ok x → tail_ok y → lex_cmp (ea ++ x) (eb ++ y) = then_cmp c (lex_cmp x y).

Lemma keyed_refl e : keyed Eq e e.
Proof. intros x y _ _. by rewrite lex_cmp_app_l. Qed.

Lemma keyed_cons t c ea eb : keyed c ea eb → keyed c (t :: ea) (t :: eb).
Proof. intros H x y Hx Hy. cbn [app lex_cmp]. rewrite Z.compare_refl. by apply H. Qed.

Lemma keyed_head ta tb ea eb : ta ≠ tb → keyed (ta ?= tb) (ta :: ea) (tb :: eb).
Proof.
  intros Hne x y _ _. cbn [app lex_cmp].
  destruct (Z.compare_spec ta tb); [done|done|done].
Qed.

Lemma keyed_same_length c ea eb :
  length ea = length eb → lex_cmp ea eb = c → keyed c ea eb.
Proof. intros Hl <- x y _ _. rewrite lex_cmp_app_same_length by done. by destruct (lex_cmp ea eb). Qed.

(** * Fixed-width payloads *)

Lemma be_encode_cmp n : ∀ a b, 0 ≤ a < 2 ^ (8 * Z.of_nat n) → 0 ≤ b < 2 ^ (8 * Z.of_nat n) →
  lex_cmp (be_encode n a) (be_encode n b) = (a ?= b).
Proof.
  induction n as [|n IH]; intros a b Ha Hb.
  { change (8 * Z.of_nat 0) with 0 in *. assert (a = 0) as -> by lia. by assert (b = 0) as -> by lia. }
  rewrite !be_encode_S, lex_cmp_app_same_length by by rewrite !length_be_encode.
  rewrite pow2_8S in Ha, Hb.
  rewrite IH by (split; [apply Z.div_pos; lia|apply Z.div_lt_upper_bound; lia]).
  pose proof (Z.div_mod a 256 ltac:(lia)). pose proof (Z.div_mod b 256 ltac:(lia)).
  pose proof (Z.mod_pos_bound a 256 ltac:(lia)). pose proof (Z.mod_pos_bound b 256 ltac:(lia)).
  cbn [lex_cmp]. destruct (Z.compare_spec (a / 256) (b / 256)) as [He|Hlt|Hlt].
  - destruct (Z.compare_spec (a mod 256) (b mod 256)); symmetry;
      [apply Z.compare_eq_iff|apply Z.compare_lt_iff|apply Z.compare_gt_iff]; lia.
  - symmetry. apply Z.compare_lt_iff. lia.
  - symmetry. apply Z.compare_gt_iff. lia.
Qed.

Lemma enc_i64_eq x : is_sint 64 x → enc_i64 x = be_encode 8 (x + 2 ^ 63).
Proof. intros Hx. unfold enc_i64. f_equal. apply (flip_sint 64); [lia|done]. Qed.

Lemma enc_i64_cmp a b : is_sint 64 a → is_sint 64 b → lex_cmp (enc_i64 a) (enc_i64 b) = (a ?= b).
Proof.
  intros Ha Hb. rewrite !enc_i64_eq by done. destruct Ha, Hb. change (64 - 1) with 63 in *.
  rewrite be_encode_cmp by (change (8 * Z.of_nat 8) with 64; lia).
  destruct (Z.compare_spec a b); [apply Z.compare_eq_iff|apply Z.compare_lt_iff|apply Z.compare_gt_iff]; lia.
Qed.

Lemma length_enc_i64 x : length (enc_i64 x) = 8%nat.
Proof. apply length_be_encode. Qed.
Lemma length_enc_f64 x : length (enc_f64 x) = 8%nat.
Proof. apply length_be_encode. Qed.

Lemma enc_f64_cmp a b : is_f64 a → is_f64 b → lex_cmp (enc_f64 a) (enc_f64 b) = float_total_cmp a b.
Proof.
  intros Ha Hb. unfold enc_f64. apply be_encode_cmp; apply normalize_uint; done.
Qed.

Lemma keyed_i64 a b : is_sint 64 a → is_sint 64 b → keyed (a ?= b) (enc_i64 a) (enc_i64 b).
Proof.
  intros. apply keyed_same_length; [by rewrite !length_enc_i64|by apply enc_i64_cmp].
Qed.

Lemma keyed_f64 a b : is_f64 a → is_f64 b → keyed (float_total_cmp a b) (enc_f64 a) (enc_f64 b).
Proof.
  intros. apply keyed_same_length; [by rewrite !length_enc_f64|by apply enc_f64_cmp].
Qed.

Lemma keyed_bool a b : keyed (bool_cmp a b) [if a then 1 else 0] [if b then 1 else 0].
Proof. destruct a, b; apply keyed_same_length; done. Qed.

(** * Escaped payloads *)

Lemma keyed_bytes s t : Forall is_byte s → Forall is_byte t →
  keyed (lex_cmp s t) (encode_bytes s) (encode_bytes t).
Proof.
  intros Hs. revert t. induction Hs as [|a s Ha Hs IH]; intros t Ht x y Hx Hy.
  - destruct Ht as [|b t Hb Ht]; cbn [encode_bytes app lex_cmp]; [done|].
    unfold is_byte, TERMINATOR in *. destruct (Z.compare_spec 0 b) as [<-| |]; [|done|lia].
    rewrite Z.eqb_refl. cbn [app]. destruct x as [|c x]; [done|]. cbn [lex_cmp].
    unfold ESCAPE. simpl in Hx. by rewrite (proj2 (Z.compare_lt_iff c 255)) by lia.
  - destruct Ht as [|b t Hb Ht]; cbn [encode_bytes app lex_cmp].
    + unfold is_byte, TERMINATOR in *. destruct (Z.compare_spec a 0) as [->| |]; [|lia|done].
      rewrite Z.eqb_refl. cbn [app]. destruct y as [|c y]; [done|]. cbn [lex_cmp].
      unfold ESCAPE. simpl in Hy. by rewrite (proj2 (Z.compare_gt_iff 255 c)) by lia.
    + destruct (Z.compare_spec a b) as [->| |]; [|done|done].
      destruct (b =? 0); cbn [app lex_cmp]; rewrite ?Z.compare_refl; by apply IH.
Qed.
