(* ===== verification/NumericOrder.v ===== *)
(** Exact decimals: the key of a decimal orders as its value, which is what
    [numeric_cmp] compares. *)

From S2P Require Import Prelude Text Value FloatOrder Keycode KeycodeOrder.
Local Open Scope Z_scope.

Lemma then_cmp_assoc a b c : then_cmp (then_cmp a b) c = then_cmp a (then_cmp b c).
Proof. by destruct a. Qed.

Lemma CompOpp_then a b : CompOpp (then_cmp a b) = then_cmp (CompOpp a) (CompOpp b).
Proof. by destruct a. Qed.

(** * Digit strings *)

(** Comparison of the fractions [0.a] and [0.b]: as if padded with zeros. *)
Fixpoint pad_cmp (a b : bytes) : comparison :=
  match a, b with
  | [], [] => Eq
  | x :: a, [] => then_cmp (x ?= 48) (pad_cmp a [])
  | x :: a, y :: b => then_cmp (x ?= y) (pad_cmp a b)
  | [], _ => (fix left b := match b with [] => Eq | y :: b => then_cmp (48 ?= y) (left b) end) b
  end.

Lemma pad_cmp_nil_cons y b : pad_cmp [] (y :: b) = then_cmp (48 ?= y) (pad_cmp [] b).
Proof. by destruct b. Qed.

Lemma pad_cmp_antisym a : ∀ b, pad_cmp b a = CompOpp (pad_cmp a b).
Proof.
  induction a as [|x a IH]; intros b; [induction b as [|y b IHb]; [done|]|destruct b as [|y b]].
  - rewrite pad_cmp_nil_cons, CompOpp_then, <- IHb, <- Z.compare_antisym. done.
  - rewrite pad_cmp_nil_cons, IH. change (pad_cmp (x :: a) []) with (then_cmp (x ?= 48) (pad_cmp a [])).
    by rewrite CompOpp_then, <- Z.compare_antisym.
  - cbn [pad_cmp]. by rewrite CompOpp_then, IH, <- Z.compare_antisym.
Qed.

Lemma pad_cmp_zeros_r k : pad_cmp [] (replicate k 48) = Eq.
Proof. induction k as [|k IH]; [done|]. cbn [replicate]. by rewrite pad_cmp_nil_cons, IH. Qed.

Lemma pad_cmp_app_zeros_r a b k : pad_cmp a (b ++ replicate k 48) = pad_cmp a b.
Proof.
  revert b k. induction a as [|x a IH]; intros b k.
  - induction b as [|y b IHb]; cbn [app]; [apply pad_cmp_zeros_r|]. by rewrite !pad_cmp_nil_cons, IHb.
  - destruct b as [|y b]; cbn [app].
    + destruct k as [|k]; [done|]. cbn [replicate pad_cmp]. by rewrite (IH [] k : pad_cmp a (replicate k 48) = _).
    + cbn [pad_cmp]. by rewrite IH.
Qed.

Lemma pad_cmp_trim_r a b : pad_cmp a (trim_end_matches 48 b) = pad_cmp a b.
Proof.
  destruct (trim_end_matches_spec 48 b) as (k&Hk&_). rewrite Hk at 2. by rewrite pad_cmp_app_zeros_r.
Qed.

Lemma pad_cmp_trim a b : pad_cmp (trim_end_matches 48 a) (trim_end_matches 48 b) = pad_cmp a b.
Proof. by rewrite pad_cmp_trim_r, pad_cmp_antisym, pad_cmp_trim_r, <- pad_cmp_antisym. Qed.

Definition no_trailing (s : bytes) : Prop := last s ≠ Some 48.

Lemma no_trailing_cons x s : no_trailing (x :: s) → s ≠ [] → no_trailing s.
Proof. unfold no_trailing. intros H Hs. by destruct s. Qed.

(** A digit string that ends in no zero is above the empty one. *)
Lemma pad_cmp_nil_pos b : digits b → no_trailing b → b ≠ [] → pad_cmp [] b = Lt.
Proof.
  induction 1 as [|y b Hy Hb IH]; intros Hn Hne; [done|]. rewrite pad_cmp_nil_cons.
  destruct (Z.compare_spec 48 y) as [<-| |]; [|done|lia].
  destruct b as [|z b]; [by unfold no_trailing in Hn|]. apply IH; [|done]. by eapply no_trailing_cons.
Qed.

Lemma lex_pad_cmp a b : digits a → digits b → no_trailing a → no_trailing b →
  lex_cmp a b = pad_cmp a b.
Proof.
  intros Ha. revert b. induction Ha as [|x a Hx Ha IH]; intros b Hb Hna Hnb.
  - destruct b as [|y b]; [done|]. by rewrite pad_cmp_nil_pos.
  - destruct Hb as [|y b Hy Hb].
    + rewrite pad_cmp_antisym, pad_cmp_nil_pos; [done|by constructor|done|done].
    + cbn [lex_cmp pad_cmp]. destruct (x ?= y); [|done|done]. cbn [then_cmp].
      destruct a as [|x' a], b as [|y' b].
      * done.
      * apply IH; [done|done|]. by eapply no_trailing_cons.
      * apply IH; [done| |done]. by eapply no_trailing_cons.
      * apply IH; [done|..]; by eapply no_trailing_cons.
Qed.

Lemma pad_cmp_app a b a' b' : length a = length b →
  pad_cmp (a ++ a') (b ++ b') = then_cmp (lex_cmp a b) (pad_cmp a' b').
Proof.
  revert b. induction a as [|x a IH]; intros [|y b] Hl; try done. injection Hl as Hl.
  cbn [app pad_cmp lex_cmp]. rewrite IH by done. by destruct (x ?= y).
Qed.

Lemma digits_trim_start s : digits s → digits (trim_start_matches 48 s).
Proof.
  destruct (trim_start_matches_spec 48 s) as (k&Hk&_). rewrite Hk at 1. by intros [_ ?]%digits_app.
Qed.

Lemma digits_trim_end s : digits s → digits (trim_end_matches 48 s).
Proof.
  destruct (trim_end_matches_spec 48 s) as (k&Hk&_). rewrite Hk at 1. by intros [? _]%digits_app.
Qed.

Lemma no_trailing_trim s : no_trailing (trim_end_matches 48 s).
Proof. by destruct (trim_end_matches_spec 48 s) as (k&_&?). Qed.

Lemma trim_end_id s : no_trailing s → trim_end_matches 48 s = s.
Proof.
  intros Hn. destruct (trim_end_matches_spec 48 s) as (k&Hk&_). destruct k as [|k].
  - by rewrite app_nil_r in Hk.
  - exfalso. apply Hn. rewrite Hk, replicate_S_end, app_assoc, last_snoc. done.
Qed.

(** * Scientific form *)

(** The exponent and significand [encode_numeric] takes from the integer
    digits [I] and the fraction digits [F]. *)
Definition sci_digits (I F : bytes) : bytes := (if bool_decide (I = []) then [48] else I) ++ F.
Definition sci_sig (I F : bytes) : bytes :=
  trim_end_matches 48 (trim_start_matches 48 (sci_digits I F)).
Definition sci_exp (I F : bytes) : Z :=
  let all := sci_digits I F in
  let int_final := if bool_decide (I = []) then [48] else I in
  Z.of_nat (length int_final) - Z.of_nat (length all - length (trim_start_matches 48 all)).

(** The digits as [numeric_cmp] sees them: no zero at either end. *)
Record significant (I F : bytes) : Prop := {
  sg_int : digits I;
  sg_frac : digits F;
  sg_lead : head I ≠ Some 48;
  sg_trail : no_trailing F;
}.

Lemma trim_start_id s : head s ≠ Some 48 → trim_start_matches 48 s = s.
Proof.
  destruct s as [|b s]; [done|]. cbn. intros H. by rewrite (proj2 (Z.eqb_neq b 48)) by congruence.
Qed.

Lemma sci_int I F : significant I F → I ≠ [] →
  sci_exp I F = Z.of_nat (length I) ∧ sci_sig I F = trim_end_matches 48 (I ++ F).
Proof.
  intros [_ _ Hl _] Hne. unfold sci_exp, sci_sig, sci_digits. rewrite bool_decide_false by done.
  rewrite trim_start_id by (by destruct I). split; [lia|done].
Qed.

Lemma sci_frac F : significant [] F →
  ∃ z, F = replicate z 48 ++ sci_sig [] F ∧ sci_exp [] F = - Z.of_nat z ∧
    head (sci_sig [] F) ≠ Some 48 ∧ digits (sci_sig [] F).
Proof.
  intros [_ Hd _ Ht]. unfold sci_exp, sci_sig, sci_digits. rewrite bool_decide_true by done.
  cbn [app trim_start_matches Z.eqb Pos.eqb]. destruct (trim_start_matches_spec 48 F) as (z&Hz&Hh).
  assert (no_trailing (trim_start_matches 48 F)) as Hn.
  { destruct (decide (trim_start_matches 48 F = [])) as [->|Hne]; [done|].
    unfold no_trailing in *. rewrite Hz, last_app in Ht. destruct (last (trim_start_matches 48 F)) eqn:E; [done|].
    by apply last_None in E. }
  rewrite trim_end_id by done. exists z. split_and!; [done| |done|by apply digits_trim_start].
  cbn [length]. apply (f_equal length) in Hz. rewrite length_app, length_replicate in Hz. lia.
Qed.

Lemma lex_zeros z1 z2 s1 s2 : digits s1 → digits s2 → s1 ≠ [] → s2 ≠ [] →
  head s1 ≠ Some 48 → head s2 ≠ Some 48 →
  lex_cmp (replicate z1 48 ++ s1) (replicate z2 48 ++ s2) =
    then_cmp (z2 ?= z1)%nat (lex_cmp s1 s2).
Proof.
  intros Hd1 Hd2 Hn1 Hn2 Hh1 Hh2. revert z2. induction z1 as [|z1 IH]; intros [|z2]; cbn [replicate app].
  - done.
  - destruct Hd1 as [|b s1 Hb Hd1]; [done|]. cbn [lex_cmp]. simpl in Hh1.
    by rewrite (proj2 (Z.compare_gt_iff b 48)) by (assert (b ≠ 48) by congruence; lia).
  - destruct Hd2 as [|b s2 Hb Hd2]; [done|]. cbn [lex_cmp]. simpl in Hh2.
    by rewrite (proj2 (Z.compare_lt_iff 48 b)) by (assert (b ≠ 48) by congruence; lia).
  - cbn [lex_cmp]. rewrite Z.compare_refl, IH. done.
Qed.

Lemma sci_sig_digits I F : significant I F → digits (sci_sig I F) ∧ no_trailing (sci_sig I F).
Proof.
  intros [Hi Hf _ _]. unfold sci_sig, sci_digits. split; [|apply no_trailing_trim].
  apply digits_trim_end, digits_trim_start, digits_app. split; [|done].
  case_bool_decide; [|done]. repeat constructor; lia.
Qed.

(** The key's comparison is [numeric_cmp]'s comparison of magnitudes. *)
Lemma sci_cmp I1 F1 I2 F2 :
  significant I1 F1 → significant I2 F2 → sci_sig I1 F1 ≠ [] → sci_sig I2 F2 ≠ [] →
  then_cmp (sci_exp I1 F1 ?= sci_exp I2 F2) (lex_cmp (sci_sig I1 F1) (sci_sig I2 F2)) =
  then_cmp (length I1 ?= length I2)%nat (then_cmp (lex_cmp I1 I2) (lex_cmp F1 F2)).
Proof.
  intros S1 S2 Hn1 Hn2. destruct (decide (I1 = [])) as [->|Hi1], (decide (I2 = [])) as [->|Hi2].
  - destruct (sci_frac F1 S1) as (z1&Hz1&->&Hh1&Hd1), (sci_frac F2 S2) as (z2&Hz2&->&Hh2&Hd2).
    cbn [length Nat.compare then_cmp lex_cmp]. rewrite Hz1 at 2. rewrite Hz2 at 2.
    rewrite lex_zeros by done. f_equal.
    destruct (Nat.compare_spec z2 z1);
      [apply Z.compare_eq_iff|apply Z.compare_lt_iff|apply Z.compare_gt_iff]; lia.
  - destruct (sci_frac F1 S1) as (z1&_&->&_), (sci_int I2 F2 S2 Hi2) as [-> _].
    destruct I2 as [|b I2]; [done|]. cbn [length Nat.compare then_cmp].
    by rewrite (proj2 (Z.compare_lt_iff _ _)) by lia.
  - destruct (sci_frac F2 S2) as (z2&_&->&_), (sci_int I1 F1 S1 Hi1) as [-> _].
    destruct I1 as [|b I1]; [done|]. cbn [length Nat.compare then_cmp].
    by rewrite (proj2 (Z.compare_gt_iff _ _)) by lia.
  - destruct (sci_int I1 F1 S1 Hi1) as [-> E1], (sci_int I2 F2 S2 Hi2) as [-> E2].
    destruct (Nat.compare_spec (length I1) (length I2)) as [Hl|Hl|Hl].
    + rewrite Hl, Z.compare_refl. cbn [then_cmp].
      destruct (sci_sig_digits I1 F1 S1), (sci_sig_digits I2 F2 S2).
      rewrite lex_pad_cmp, E1, E2, pad_cmp_trim, pad_cmp_app by done.
      by rewrite <- lex_pad_cmp by (apply S1 || apply S2).
    + by rewrite (proj2 (Z.compare_lt_iff _ _)) by lia.
    + by rewrite (proj2 (Z.compare_gt_iff _ _)) by lia.
Qed.

(** * Plain spellings *)

(** [-ip.fp], without the point when there is no fraction. *)
Definition spell (neg : bool) (ip fp : bytes) : bytes :=
  (if neg then [MINUS] else []) ++ ip ++ (if bool_decide (fp = []) then [] else DOT :: fp).

(** A decimal as the system stores it. The lengths are bounded by the width of
    the exponent in a key. *)
Inductive decimal : bytes → Prop :=
| dec_nan : decimal (ch "NaN")
| dec_inf : decimal (ch "Infinity")
| dec_neg_inf : decimal (ch "-Infinity")
| dec_plain neg ip fp :
    digits ip → ip ≠ [] → digits fp →
    Z.of_nat (length ip) < 2 ^ 31 → Z.of_nat (length fp) < 2 ^ 31 →
    decimal (spell neg ip fp).

Lemma spell_split_sign neg ip fp : digits ip → ip ≠ [] →
  split_sign (spell neg ip fp) = (neg, ip ++ (if bool_decide (fp = []) then [] else DOT :: fp)).
Proof.
  intros Hd Hne. unfold split_sign, spell. destruct neg; [done|].
  destruct Hd as [|b ip Hb Hd]; [done|]. cbn [app strip_prefix].
  by rewrite (proj2 (Z.eqb_neq b MINUS)), (proj2 (Z.eqb_neq b PLUS)) by (unfold MINUS, PLUS; lia).
Qed.

Lemma spell_split_once ip fp : digits ip →
  default (ip ++ (if bool_decide (fp = []) then [] else DOT :: fp), [])
    (split_once DOT (ip ++ (if bool_decide (fp = []) then [] else DOT :: fp))) = (ip, fp).
Proof.
  intros Hd. assert (Forall (λ b, b ≠ DOT) ip) by (apply digits_ne; [done|unfold DOT; lia]).
  case_bool_decide as Hf; [subst; rewrite app_nil_r; by rewrite split_once_absent|].
  by rewrite split_once_mid.
Qed.

Lemma spell_decimal_bytes ip fp : digits ip → digits fp →
  forallb is_decimal_byte (ip ++ (if bool_decide (fp = []) then [] else DOT :: fp)) = true.
Proof.
  intros Hi Hf. assert (∀ s, digits s → forallb is_decimal_byte s = true) as Hd.
  { induction 1 as [|b s Hb _ IH]; [done|]. cbn [forallb]. rewrite IH, andb_true_r.
    unfold is_decimal_byte, is_digit. by rewrite (proj2 (between_true 48 57 b)). }
  rewrite forallb_app, Hd by done. case_bool_decide; [done|]. cbn. by rewrite Hd.
Qed.

(** The digits that count. *)
Definition whole (ip : bytes) : bytes := trim_start_matches ZERO ip.
Definition part (fp : bytes) : bytes := trim_end_matches ZERO fp.
Definition is_zero (I F : bytes) : bool := bool_decide (I = []) && bool_decide (F = []).
Definition shown (I : bytes) : bytes := if bool_decide (I = []) then [ZERO] else I.

Lemma whole_part ip fp : digits ip → digits fp → significant (whole ip) (part fp).
Proof.
  intros Hi Hf. split.
  - by apply digits_trim_start.
  - by apply digits_trim_end.
  - by destruct (trim_start_matches_spec ZERO ip) as (k&_&?).
  - apply no_trailing_trim.
Qed.

Lemma shown_digits I : digits I → digits (shown I) ∧ shown I ≠ [].
Proof.
  intros HI. unfold shown. case_bool_decide; [|done].
  split; [|done]. constructor; [unfold ZERO; lia|constructor].
Qed.

Lemma shown_zero I F : significant I F →
  bool_decide (shown I = [ZERO]) && bool_decide (F = []) = is_zero I F.
Proof.
  intros [_ _ Hl _]. unfold is_zero, shown. destruct (bool_decide_reflect (I = [])) as [->|Hne]; [done|].
  rewrite (bool_decide_false (I = [ZERO])); [done|]. by intros ->.
Qed.

Lemma spell_ends neg ip fp : digits ip → ip ≠ [] → digits fp →
  ∃ h l, head (spell neg ip fp) = Some h ∧ last (spell neg ip fp) = Some l ∧
    (h = MINUS ∨ 48 ≤ h ≤ 57) ∧ 48 ≤ l ≤ 57.
Proof.
  intros Hi Hne Hf. unfold spell.
  assert (∃ l, last (ip ++ (if bool_decide (fp = []) then [] else DOT :: fp)) = Some l ∧ 48 ≤ l ≤ 57)
    as (l&Hl&Hl').
  { assert (∀ s, digits s → s ≠ [] → ∃ l, last s = Some l ∧ 48 ≤ l ≤ 57) as Hlast.
    { intros s Hs Hs'. destruct (last s) as [l|] eqn:E; [|by apply last_None in E].
      exists l. split; [done|]. apply last_Some in E as [s' ->]. apply Forall_app in Hs as [_ Hs].
      by inversion Hs. }
    case_bool_decide; [rewrite app_nil_r; by apply Hlast|].
    destruct (Hlast fp) as (l&Hl&?); [done..|]. exists l. split; [|done].
    rewrite last_app, last_cons, Hl. done. }
  destruct Hi as [|b ip Hb Hi]; [done|]. destruct neg; cbn [app head] in *.
  - exists MINUS, l. rewrite last_cons, Hl. split_and!; auto; lia.
  - exists b, l. split_and!; auto; lia.
Qed.

Lemma trim_spell neg ip fp : digits ip → ip ≠ [] → digits fp → trim (spell neg ip fp) = spell neg ip fp.
Proof.
  intros Hi Hne Hf. destruct (spell_ends neg ip fp) as (h&l&Hh&Hl&?&?); [done..|].
  eapply trim_id; [done..| |]; unfold MINUS in *; lia.
Qed.

Lemma canonical_spell neg ip fp : digits ip → ip ≠ [] → digits fp →
  canonical_numeric (spell neg ip fp) =
    spell (neg && negb (is_zero (whole ip) (part fp))) (shown (whole ip)) (part fp).
Proof.
  intros Hi Hne Hf. unfold canonical_numeric. rewrite trim_spell, spell_split_sign by done.
  rewrite spell_decimal_bytes by done. rewrite bool_decide_false by (by destruct ip).
  cbn [orb negb]. rewrite spell_split_once by done. fold (whole ip) (part fp) (shown (whole ip)).
  by rewrite shown_zero by by apply whole_part.
Qed.

Lemma spell_no_exponent neg ip fp : digits ip → digits fp →
  existsb (λ b, (b =? 101) || (b =? 69)) (spell neg ip fp) = false.
Proof.
  intros Hi Hf. assert (∀ s, digits s → existsb (λ b, (b =? 101) || (b =? 69)) s = false) as Hd.
  { induction 1 as [|b s Hb _ IH]; [done|]. cbn [existsb]. rewrite IH, orb_false_r.
    by rewrite (proj2 (Z.eqb_neq b 101)), (proj2 (Z.eqb_neq b 69)) by lia. }
  unfold spell. rewrite !existsb_app, (Hd ip) by done. case_bool_decide; [by destruct neg|].
  cbn [existsb]. rewrite (Hd fp) by done. by destruct neg.
Qed.

(** What the key of a plain decimal is made of. *)
Definition numeric_parts (s : bytes) : bool * bytes * bytes :=
  let '(n, b) := split_sign s in
  let '(i, f) := split_significant b in
  (n && negb (is_zero i f), i, f).

Lemma numeric_parts_spell neg ip fp : digits ip → ip ≠ [] →
  numeric_parts (spell neg ip fp) = (neg && negb (is_zero (whole ip) (part fp)), whole ip, part fp).
Proof.
  intros Hi Hne. unfold numeric_parts, split_significant. rewrite spell_split_sign by done.
  by rewrite spell_split_once.
Qed.

Definition encode_parts (neg : bool) (I F : bytes) : bytes :=
  if bool_decide (sci_sig I F = []) then [DEC_ZERO]
  else
    let biased := sci_exp I F + 2 ^ 31 in
    if neg then DEC_NEG :: map complement (be_encode 4 biased) ++ map complement (sci_sig I F) ++ [255]
    else DEC_POS :: be_encode 4 biased ++ sci_sig I F ++ [0].

Lemma spell_not_special neg ip fp c : digits ip → ip ≠ [] →
  In c [ch "NaN"; ch "Infinity"; ch "-Infinity"] → spell neg ip fp ≠ c.
Proof.
  intros Hi Hne Hc Heq. destruct Hi as [|b ip Hb Hi]; [done|]. unfold spell in Heq.
  destruct Hc as [<-|[<-|[<-|[]]]]; destruct neg; vm_compute in Heq; inversion Heq; subst; lia.
Qed.

Lemma sci_exp_bound I F :
  Z.of_nat (length I) < 2 ^ 31 → Z.of_nat (length F) < 2 ^ 31 → - 2 ^ 31 ≤ sci_exp I F < 2 ^ 31.
Proof.
  intros Hi Hf. unfold sci_exp, sci_digits.
  destruct (trim_start_matches_spec 48 ((if bool_decide (I = []) then [48] else I) ++ F)) as (k&Hk&_).
  apply (f_equal length) in Hk. rewrite !length_app, length_replicate in Hk.
  rewrite !length_app. case_bool_decide as He; [subst; cbn [length] in *|]; lia.
Qed.

Lemma encode_spell neg ip fp : digits ip → ip ≠ [] → digits fp →
  Z.of_nat (length ip) < 2 ^ 31 → Z.of_nat (length fp) < 2 ^ 31 →
  encode_numeric (spell neg ip fp) =
    encode_parts (neg && negb (is_zero (whole ip) (part fp))) (whole ip) (part fp).
Proof.
  intros Hi Hne Hf Hli Hlf. unfold encode_numeric, key_spelling.
  rewrite spell_no_exponent, canonical_spell by done.
  set (n := neg && _). set (I := whole ip). set (F := part fp).
  assert (significant I F) as HS by by apply whole_part.
  destruct (shown_digits I) as [Hd Hne']; [apply HS|].
  rewrite !bool_decide_false by (apply spell_not_special; simpl; auto).
  assert (match strip_prefix MINUS (spell n (shown I) F) with
          | Some rest => (true, rest) | None => (false, spell n (shown I) F) end =
          (n, shown I ++ (if bool_decide (F = []) then [] else DOT :: F))) as ->.
  { pose proof (spell_split_sign n (shown I) F Hd Hne') as Hs. unfold split_sign in Hs.
    destruct (strip_prefix MINUS (spell n (shown I) F)); [done|].
    destruct Hd as [|b s Hb Hd]; [done|]. destruct n; [done|]. done. }
  rewrite spell_split_once, spell_decimal_bytes, bool_decide_false by (done || apply HS || by destruct (shown I)).
  cbn [orb negb]. change (shown I ++ F) with (sci_digits I F). fold (sci_sig I F).
  change (trim_end_matches ZERO (trim_start_matches ZERO (sci_digits I F))) with (sci_sig I F).
  unfold encode_parts. case_bool_decide; [done|].
  change (Z.of_nat (length (shown I)) -
    Z.of_nat (length (sci_digits I F) - length (trim_start_matches ZERO (sci_digits I F)))) with (sci_exp I F).
  assert (is_sint 32 (sci_exp I F)) as Hexp.
  { apply sci_exp_bound.
    - destruct (trim_start_matches_spec ZERO ip) as (k&Hk&_). apply (f_equal length) in Hk.
      rewrite length_app in Hk. unfold I, whole. lia.
    - destruct (trim_end_matches_spec ZERO fp) as (k&Hk&_). apply (f_equal length) in Hk.
      rewrite length_app in Hk. unfold F, part. lia. }
  replace (to_sint 32 (sci_exp I F)) with (sci_exp I F).
  - rewrite (flip_sint 32) by (done || lia). done.
  - rewrite <- (to_sint_to_uint 32 (sci_exp I F)) at 1 by (done || lia).
    unfold to_sint, to_uint. by rewrite Z.mod_mod by lia.
Qed.

(** * Keys of digit strings *)

Lemma keyed_terminated s t : digits s → digits t → keyed (lex_cmp s t) (s ++ [0]) (t ++ [0]).
Proof.
  intros Hs Ht x y _ _. rewrite <- !app_assoc. cbn [app]. revert t Ht.
  induction Hs as [|a s Ha _ IH]; intros t Ht; destruct Ht as [|b t Hb Ht]; cbn [app lex_cmp].
  - done.
  - by rewrite (proj2 (Z.compare_lt_iff 0 b)) by lia.
  - by rewrite (proj2 (Z.compare_gt_iff a 0)) by lia.
  - rewrite IH by done. by destruct (a ?= b).
Qed.

Lemma complement_byte b : is_byte b → complement b = 255 - b.
Proof. intros Hb. apply (lxor_ones 8); [lia|done]. Qed.

Lemma complement_cmp a b : is_byte a → is_byte b → (complement a ?= complement b) = CompOpp (a ?= b).
Proof.
  intros Ha Hb. rewrite !complement_byte by done. rewrite <- Z.compare_antisym.
  destruct (Z.compare_spec b a); [apply Z.compare_eq_iff|apply Z.compare_lt_iff|apply Z.compare_gt_iff]; lia.
Qed.

Lemma keyed_complemented s t : digits s → digits t →
  keyed (CompOpp (lex_cmp s t)) (map complement s ++ [255]) (map complement t ++ [255]).
Proof.
  intros Hs Ht x y _ _. rewrite <- !app_assoc. cbn [app]. revert t Ht.
  induction Hs as [|a s Ha _ IH]; intros t Ht; destruct Ht as [|b t Hb Ht]; cbn [app map lex_cmp].
  - done.
  - rewrite complement_byte by (unfold is_byte; lia). by rewrite (proj2 (Z.compare_gt_iff 255 _)) by lia.
  - rewrite complement_byte by (unfold is_byte; lia). by rewrite (proj2 (Z.compare_lt_iff _ 255)) by lia.
  - rewrite complement_cmp by (unfold is_byte; lia). rewrite IH by done. by destruct (a ?= b).
Qed.

Lemma lex_complement s t : Forall is_byte s → Forall is_byte t → length s = length t →
  lex_cmp (map complement s) (map complement t) = CompOpp (lex_cmp s t).
Proof.
  intros Hs. revert t. induction Hs as [|a s Ha _ IH]; intros t Ht Hl; destruct Ht as [|b t Hb Ht]; try done.
  injection Hl as Hl. cbn [map lex_cmp]. rewrite complement_cmp, IH by done. by destruct (a ?= b).
Qed.

Lemma keyed_app c d a a' b b' : length a = length b → lex_cmp a b = c → keyed d a' b' →
  keyed (then_cmp c d) (a ++ a') (b ++ b').
Proof.
  intros Hl Hc Hd x y Hx Hy. rewrite <- !app_assoc, lex_cmp_app_same_length, Hc, Hd by done.
  by destruct c.
Qed.

Lemma sci_sig_nil I F : significant I F → sci_sig I F = [] → is_zero I F = true.
Proof.
  intros HS Hn. unfold is_zero. destruct (decide (I = [])) as [->|HI].
  - destruct (sci_frac F HS) as (z&Hz&_). rewrite Hn, app_nil_r in Hz.
    destruct z as [|z]; [by subst|]. exfalso. apply (sg_trail _ _ HS).
    rewrite Hz, replicate_S_end, last_snoc. done.
  - destruct (sci_int I F HS HI) as [_ Hs]. rewrite Hs in Hn.
    destruct (trim_end_matches_spec 48 (I ++ F)) as (k&Hk&_). rewrite Hn in Hk. cbn [app] in Hk.
    destruct I as [|b I]; [done|]. destruct k; [done|]. injection Hk as -> _. by destruct (sg_lead _ _ HS).
Qed.

Lemma sci_sig_zero I F : is_zero I F = true → sci_sig I F = [].
Proof. unfold is_zero. rewrite andb_true_iff, !bool_decide_eq_true. by intros [-> ->]. Qed.

(** Magnitudes, as [numeric_cmp] compares them. *)
Definition mag_cmp (I1 F1 I2 F2 : bytes) : comparison :=
  then_cmp (length I1 ?= length I2)%nat (then_cmp (lex_cmp I1 I2) (lex_cmp F1 F2)).

Lemma mag_cmp_zero_l I F : is_zero I F = false → mag_cmp [] [] I F = Lt.
Proof.
  unfold is_zero, mag_cmp. rewrite andb_false_iff, !bool_decide_eq_false.
  destruct I; [|done]. destruct F; [|done]. by intros [?|?].
Qed.
Lemma mag_cmp_zero_r I F : is_zero I F = false → mag_cmp I F [] [] = Gt.
Proof.
  unfold is_zero, mag_cmp. rewrite andb_false_iff, !bool_decide_eq_false.
  destruct I; [|done]. destruct F; [|done]. by intros [?|?].
Qed.

Lemma is_zero_nil I F : is_zero I F = true → I = [] ∧ F = [].
Proof. unfold is_zero. by rewrite andb_true_iff, !bool_decide_eq_true. Qed.

(** Keys of two magnitudes of the same sign. *)
Lemma keyed_mag neg I1 F1 I2 F2 :
  significant I1 F1 → significant I2 F2 → is_zero I1 F1 = false → is_zero I2 F2 = false →
  - 2 ^ 31 ≤ sci_exp I1 F1 < 2 ^ 31 → - 2 ^ 31 ≤ sci_exp I2 F2 < 2 ^ 31 →
  keyed (if neg : bool then CompOpp (mag_cmp I1 F1 I2 F2) else mag_cmp I1 F1 I2 F2)
    (encode_parts neg I1 F1) (encode_parts neg I2 F2).
Proof.
  intros S1 S2 Z1 Z2 E1 E2. unfold encode_parts, mag_cmp.
  assert (sci_sig I1 F1 ≠ []) as N1 by (intros Hn; apply sci_sig_nil in Hn; congruence).
  assert (sci_sig I2 F2 ≠ []) as N2 by (intros Hn; apply sci_sig_nil in Hn; congruence).
  destruct (sci_sig_digits I1 F1 S1) as [D1 _], (sci_sig_digits I2 F2 S2) as [D2 _].
  rewrite !bool_decide_false by done. rewrite <- (sci_cmp I1 F1 I2 F2) by done.
  assert (lex_cmp (be_encode 4 (sci_exp I1 F1 + 2 ^ 31)) (be_encode 4 (sci_exp I2 F2 + 2 ^ 31)) =
    (sci_exp I1 F1 ?= sci_exp I2 F2)) as Hexp.
  { rewrite be_encode_cmp by (change (8 * Z.of_nat 4) with 32; lia).
    destruct (Z.compare_spec (sci_exp I1 F1) (sci_exp I2 F2));
      [apply Z.compare_eq_iff|apply Z.compare_lt_iff|apply Z.compare_gt_iff]; lia. }
  destruct neg; apply keyed_cons.
  - rewrite CompOpp_then. apply keyed_app; [by rewrite !length_map, !length_be_encode| |by apply keyed_complemented].
    rewrite lex_complement, Hexp by (apply be_encode_bytes || by rewrite !length_be_encode). done.
  - apply keyed_app; [by rewrite !length_be_encode|done|by apply keyed_terminated].
Qed.

(** * The order of decimals *)

Lemma numeric_cmp_parts a b : numeric_special_rank a = None → numeric_special_rank b = None →
  numeric_cmp a b =
    let '(an, ai, af) := numeric_parts a in
    let '(bn, bi, bf) := numeric_parts b in
    if negb (eqb an bn) then (if an then Lt else Gt)
    else if an then CompOpp (mag_cmp ai af bi bf) else mag_cmp ai af bi bf.
Proof.
  intros Ha Hb. unfold numeric_cmp, numeric_parts. rewrite Ha, Hb.
  destruct (split_sign a) as [an ab], (split_sign b) as [bn bb].
  by destruct (split_significant ab), (split_significant bb).
Qed.

Lemma numeric_special_spell neg ip fp : digits ip → ip ≠ [] →
  numeric_special_rank (spell neg ip fp) = None.
Proof.
  intros Hi Hne. unfold numeric_special_rank.
  by rewrite !bool_decide_false by (apply spell_not_special; simpl; auto).
Qed.

(** The first byte of a decimal's key: its class. *)
Lemma encode_parts_head neg I F : is_zero I F = false → significant I F →
  ∃ e, encode_parts neg I F = (if neg then DEC_NEG else DEC_POS) :: e.
Proof.
  intros Hz HS. unfold encode_parts.
  rewrite bool_decide_false by (intros Hn; apply sci_sig_nil in Hn; congruence).
  destruct neg; by eexists.
Qed.

Lemma keyed_parts n1 I1 F1 n2 I2 F2 :
  significant I1 F1 → significant I2 F2 →
  - 2 ^ 31 ≤ sci_exp I1 F1 < 2 ^ 31 → - 2 ^ 31 ≤ sci_exp I2 F2 < 2 ^ 31 →
  let an := n1 && negb (is_zero I1 F1) in
  let bn := n2 && negb (is_zero I2 F2) in
  keyed (if negb (eqb an bn) then (if an then Lt else Gt)
         else if an then CompOpp (mag_cmp I1 F1 I2 F2) else mag_cmp I1 F1 I2 F2)
    (encode_parts an I1 F1) (encode_parts bn I2 F2).
Proof.
  intros S1 S2 E1 E2 an bn. unfold an, bn.
  assert (∀ n I F, is_zero I F = true → encode_parts n I F = [DEC_ZERO]) as Hzero.
  { intros n I F Hz. unfold encode_parts. by rewrite bool_decide_true by by apply sci_sig_zero. }
  destruct (is_zero I1 F1) eqn:Z1, (is_zero I2 F2) eqn:Z2; cbn [negb]; rewrite ?andb_false_r, ?andb_true_r.
  - rewrite !Hzero by done. destruct (is_zero_nil _ _ Z1) as [-> ->], (is_zero_nil _ _ Z2) as [-> ->].
    apply keyed_refl.
  - rewrite Hzero by done. destruct (is_zero_nil _ _ Z1) as [-> ->].
    destruct (encode_parts_head n2 I2 F2) as [e ->]; [done..|].
    rewrite mag_cmp_zero_l by done. destruct n2; by apply keyed_head.
  - rewrite (Hzero _ I2 F2) by done. destruct (is_zero_nil _ _ Z2) as [-> ->].
    destruct (encode_parts_head n1 I1 F1) as [e ->]; [done..|].
    rewrite mag_cmp_zero_r by done. destruct n1; by apply keyed_head.
  - destruct (eqb n1 n2) eqn:En; cbn [negb].
    + apply eqb_prop in En as ->. by apply keyed_mag.
    + destruct (encode_parts_head n1 I1 F1) as [e1 He1]; [done..|].
      destruct (encode_parts_head n2 I2 F2) as [e2 He2]; [done..|]. rewrite He1, He2.
      destruct n1, n2; try done; by apply keyed_head.
Qed.

Lemma length_whole ip : (length (whole ip) ≤ length ip)%nat.
Proof.
  destruct (trim_start_matches_spec ZERO ip) as (k&Hk&_). apply (f_equal length) in Hk.
  rewrite length_app in Hk. unfold whole. lia.
Qed.
Lemma length_part fp : (length (part fp) ≤ length fp)%nat.
Proof.
  destruct (trim_end_matches_spec ZERO fp) as (k&Hk&_). apply (f_equal length) in Hk.
  rewrite length_app in Hk. unfold part. lia.
Qed.

Lemma sci_exp_spell ip fp : Z.of_nat (length ip) < 2 ^ 31 → Z.of_nat (length fp) < 2 ^ 31 →
  - 2 ^ 31 ≤ sci_exp (whole ip) (part fp) < 2 ^ 31.
Proof. intros. pose proof (length_whole ip). pose proof (length_part fp). apply sci_exp_bound; lia. Qed.

(** The class byte of any decimal, with the comparison ranks it stands for. *)
Lemma encode_special_head neg ip fp : digits ip → ip ≠ [] → digits fp →
  Z.of_nat (length ip) < 2 ^ 31 → Z.of_nat (length fp) < 2 ^ 31 →
  ∃ c e, encode_numeric (spell neg ip fp) = c :: e ∧ 1 ≤ c ≤ 3.
Proof.
  intros. rewrite encode_spell by done. unfold encode_parts.
  case_bool_decide; [by eexists _, _; split; [done|unfold DEC_ZERO; lia]|].
  destruct (neg && _); eexists _, _; (split; [done|unfold DEC_NEG, DEC_POS; lia]).
Qed.

(** The infinities and NaN: rank in a comparison and class in a key. *)
Definition special_code (a : bytes) (k c : Z) : Prop :=
  numeric_special_rank a = Some k ∧ encode_numeric a = [c] ∧
  (k = 0 ∧ c = 0 ∨ k = 3 ∧ c = 4 ∨ k = 4 ∧ c = 5).

Lemma decimal_cases a : decimal a →
  (∃ k c, special_code a k c) ∨
  (∃ neg ip fp, a = spell neg ip fp ∧ digits ip ∧ ip ≠ [] ∧ digits fp ∧
    Z.of_nat (length ip) < 2 ^ 31 ∧ Z.of_nat (length fp) < 2 ^ 31).
Proof.
  intros [| | |neg ip fp Hi Hn Hf Hli Hlf].
  - left. exists 4, 5. split_and!; [vm_compute; reflexivity..|lia].
  - left. exists 3, 4. split_and!; [vm_compute; reflexivity..|lia].
  - left. exists 0, 0. split_and!; [vm_compute; reflexivity..|lia].
  - right. by exists neg, ip, fp.
Qed.

Lemma keyed_special_l a k c b : special_code a k c → numeric_special_rank b = None →
  (∃ h e, encode_numeric b = h :: e ∧ 1 ≤ h ≤ 3) →
  keyed (numeric_cmp a b) (encode_numeric a) (encode_numeric b).
Proof.
  intros (Hk&Hc&Hkc) Hb (h&e&He&Hh). unfold numeric_cmp. rewrite Hk, Hb, Hc, He.
  replace (k ?= 2) with (c ?= h); [apply keyed_head; lia|].
  destruct Hkc as [[-> ->]|[[-> ->]|[-> ->]]]; [apply Z.compare_lt_iff|apply Z.compare_gt_iff..]; lia.
Qed.

Lemma keyed_special_r a k c b : special_code a k c → numeric_special_rank b = None →
  (∃ h e, encode_numeric b = h :: e ∧ 1 ≤ h ≤ 3) →
  keyed (numeric_cmp b a) (encode_numeric b) (encode_numeric a).
Proof.
  intros (Hk&Hc&Hkc) Hb (h&e&He&Hh). unfold numeric_cmp. rewrite Hk, Hb, Hc, He.
  replace (2 ?= k) with (h ?= c); [apply keyed_head; lia|].
  destruct Hkc as [[-> ->]|[[-> ->]|[-> ->]]]; [apply Z.compare_gt_iff|apply Z.compare_lt_iff..]; lia.
Qed.

(** Keys of decimals order as the decimals. *)
Lemma keyed_numeric a b : decimal a → decimal b →
  keyed (numeric_cmp a b) (encode_numeric a) (encode_numeric b).
Proof.
  intros [(k1&c1&S1)|(n1&i1&f1&->&Hi1&Hn1&Hf1&Hl1&Hm1)]%decimal_cases
    [(k2&c2&S2)|(n2&i2&f2&->&Hi2&Hn2&Hf2&Hl2&Hm2)]%decimal_cases.
  - destruct S1 as (Hk1&Hc1&H1), S2 as (Hk2&Hc2&H2). unfold numeric_cmp. rewrite Hk1, Hk2, Hc1, Hc2.
    apply keyed_same_length; [done|]. cbn [lex_cmp].
    destruct H1 as [[-> ->]|[[-> ->]|[-> ->]]], H2 as [[-> ->]|[[-> ->]|[-> ->]]]; done.
  - eapply keyed_special_l; [done|by apply numeric_special_spell|by apply encode_special_head].
  - eapply keyed_special_r; [done|by apply numeric_special_spell|by apply encode_special_head].
  - rewrite numeric_cmp_parts, !numeric_parts_spell, !encode_spell by (done || by apply numeric_special_spell).
    apply keyed_parts; (by apply whole_part) || (by apply sci_exp_spell).
Qed.

(** * What the parser returns *)

Lemma digits_zeros k : digits (replicate k ZERO).
Proof. apply Forall_replicate. unfold ZERO. lia. Qed.

Lemma saturate_le z n : n < I64_MAX → saturate z ≤ n → z ≤ n.
Proof. unfold saturate, I64_MAX, I64_MIN. lia. Qed.

(** The digits around the point. *)
Lemma place_point_parts point ds : digits ds → ds ≠ [] →
  point ≤ NUMERIC_MAX_WEIGHT → Z.of_nat (length ds) - point ≤ NUMERIC_MAX_SCALE →
  ∃ ip fp, default (place_point point ds, []) (split_once DOT (place_point point ds)) = (ip, fp) ∧
    digits ip ∧ digits fp ∧ Z.of_nat (length ip) < 2 ^ 31 ∧ Z.of_nat (length fp) < 2 ^ 31.
Proof.
  intros Hd Hne Hp Hs. unfold NUMERIC_MAX_WEIGHT, NUMERIC_MAX_SCALE, place_point in *.
  assert (∀ s, digits s → Forall (λ b, b ≠ DOT) s) as Hnd.
  { intros s Hs'. apply digits_ne; [done|unfold DOT; lia]. }
  destruct (Z.leb_spec point 0).
  { exists [ZERO], (replicate (Z.to_nat (- point)) ZERO ++ ds). cbn [app split_once].
    split_and!; [done|repeat constructor; unfold ZERO; lia| |cbn [length]; lia|].
    - apply digits_app. split; [apply digits_zeros|done].
    - rewrite length_app, length_replicate. lia. }
  destruct (Z.leb_spec (Z.of_nat (length ds)) point).
  { exists (ds ++ replicate (Z.to_nat point - length ds) ZERO), [].
    assert (digits (ds ++ replicate (Z.to_nat point - length ds) ZERO)).
    { apply digits_app. split; [done|apply digits_zeros]. }
    rewrite split_once_absent by by apply Hnd.
    split_and!; [done|done|by constructor| |cbn [length]; lia].
    rewrite length_app, length_replicate. lia. }
  exists (take (Z.to_nat point) ds), (drop (Z.to_nat point) ds).
  rewrite <- (take_drop (Z.to_nat point) ds) in Hd. apply digits_app in Hd as [Ht Hdr].
  cbn [app]. rewrite split_once_mid by by apply Hnd.
  split_and!; [done|done|done| |]; rewrite ?length_take, ?length_drop; lia.
Qed.

(** Every decimal the parser returns is a special or a plain spelling. *)
Lemma parse_numeric_decimal s a : parse_numeric s = Some a → decimal a.
Proof.
  unfold parse_numeric. case_bool_decide; [done|]. destruct (split_sign (trim s)) as [neg body].
  case_match; [intros [= <-]; constructor|]. case_match.
  { intros [= <-]. destruct neg; constructor. }
  destruct (parse_exponent body) as [[mantissa exp]|]; [|done]. cbn [mbind option_bind].
  destruct (default (mantissa, []) (split_once DOT mantissa)) as [ip0 fp0].
  destruct (bool_decide (ip0 = []) && bool_decide (fp0 = [])) eqn:Hemp; [done|].
  destruct (all_digits (ip0 ++ fp0)) eqn:Had; [|done]. cbn [negb].
  apply all_digits_digits in Had.
  assert (ip0 ++ fp0 ≠ []) as Hne.
  { intros [-> ->]%app_eq_nil. by rewrite !bool_decide_true in Hemp. }
  set (point := saturate _) in *. clearbody point.
  destruct (NUMERIC_MAX_WEIGHT <? point) eqn:Hw; [done|]. cbn [orb].
  destruct (NUMERIC_MAX_SCALE <? _) eqn:Hsc; [done|].
  apply Z.ltb_ge in Hw, Hsc. apply saturate_le in Hsc; [|by vm_compute].
  destruct (place_point_parts point (ip0 ++ fp0)) as (ip&fp&->&Hi&Hf&Hli&Hlf); [done..|].
  fold (whole ip) (shown (whole ip)). intros [= <-].
  destruct (shown_digits (whole ip)) as [Hd Hne']; [by apply digits_trim_start|].
  apply (dec_plain _ (shown (whole ip)) fp); [done..| |done].
  pose proof (length_whole ip) as Hw'. unfold shown.
  destruct (bool_decide (whole ip = [])); cbn [length]; lia.
Qed.
