(* ===== verification/Decimal.v ===== *)
(** Exact decimals as numbers: [decimal_parts], [decimal_text] of
    [crates/mpedb-types/src/value.rs], and what [numeric_cmp] compares. *)

From S2P Require Import Prelude Text Value FloatOrder Keycode KeycodeOrder NumericOrder.
Local Open Scope Z_scope.

Definition I128_MAX : Z := 2 ^ 127 - 1.

(** [(mantissa, scale)]: the value is [mantissa / 10^scale]. *)
Definition decimal_parts (s : bytes) : option (Z * Z) :=
  let t := trim s in
  match numeric_special_rank t with
  | Some _ => None
  | None =>
      let '(neg, body) := split_sign t in
      let '(ip, fp) := default (body, []) (split_once DOT body) in
      if (bool_decide (ip = []) && bool_decide (fp = [])) || negb (all_digits (ip ++ fp)) then None
      else
        let m := digits_value (ip ++ fp) in
        if m <=? I128_MAX then Some (if neg then - m else m, to_uint 32 (Z.of_nat (length fp))) else None
  end.

(** [m.to_string()]. *)
Definition signed_text (m : Z) : bytes := if m <? 0 then MINUS :: to_decimal (- m) else to_decimal m.

Definition decimal_text (m : Z) (scale : nat) : bytes :=
  if bool_decide (scale = 0%nat) then signed_text m
  else
    let neg := m <? 0 in
    let digits := to_decimal (Z.abs m) in
    let padded := if bool_decide (length digits ≤ scale)%nat
                  then replicate (scale + 1 - length digits) ZERO ++ digits
                  else digits in
    let ip := take (length padded - scale) padded in
    let fp := drop (length padded - scale) padded in
    let out := ip ++ DOT :: fp in
    if neg && negb (m =? 0) then MINUS :: out else out.

(** * Round trip *)

(** A mantissa past [i128] is not read. *)
Lemma decimal_parts_spell_eq neg ip fp : digits ip → ip ≠ [] → digits fp → Z.of_nat (length fp) < 2 ^ 32 →
  decimal_parts (spell neg ip fp) =
    if digits_value (ip ++ fp) <=? I128_MAX
    then Some (if neg then - digits_value (ip ++ fp) else digits_value (ip ++ fp), Z.of_nat (length fp)) else None.
Proof.
  intros Hi Hne Hf Hl. unfold decimal_parts. rewrite trim_spell, numeric_special_spell, spell_split_sign by done.
  rewrite spell_split_once by done. rewrite (bool_decide_false (ip = [])) by done.
  rewrite digits_all by by apply digits_app. cbn [andb negb orb].
  unfold to_uint. by rewrite Z.mod_small by lia.
Qed.

Lemma decimal_parts_spell neg ip fp : digits ip → ip ≠ [] → digits fp → Z.of_nat (length fp) < 2 ^ 32 →
  digits_value (ip ++ fp) ≤ I128_MAX →
  decimal_parts (spell neg ip fp) =
    Some (if neg then - digits_value (ip ++ fp) else digits_value (ip ++ fp), Z.of_nat (length fp)).
Proof. intros Hi Hne Hf Hl Hm. rewrite decimal_parts_spell_eq by done. by rewrite (proj2 (Z.leb_le _ _) Hm). Qed.

Lemma digits_take n s : digits s → digits (take n s).
Proof. apply Forall_take. Qed.
Lemma digits_drop n s : digits s → digits (drop n s).
Proof. apply Forall_drop. Qed.

Lemma decimal_text_spell m scale : Z.abs m < 10 ^ 64 →
  ∃ ip fp, decimal_text m scale = spell (m <? 0) ip fp ∧ digits ip ∧ ip ≠ [] ∧ digits fp ∧
    length fp = scale ∧ digits_value (ip ++ fp) = Z.abs m.
Proof.
  intros Hm. destruct (to_decimal_spec (Z.abs m)) as (Hd&Hne&Hv); [lia|]. unfold decimal_text.
  case_bool_decide as Hs.
  { subst scale. exists (to_decimal (Z.abs m)), []. unfold signed_text, spell. cbn. rewrite app_nil_r.
    split_and!; [|done|done|constructor|done|done]. destruct (Z.ltb_spec m 0).
    - by rewrite Z.abs_neq by lia.
    - by rewrite Z.abs_eq by lia. }
  set (p := if bool_decide _ then _ else _).
  assert (digits p ∧ digits_value p = Z.abs m ∧ (scale < length p)%nat) as (Hp&Hpv&Hpl).
  { unfold p. case_bool_decide as Hl; [|split_and!; [done|done|lia]]. split_and!.
    - apply digits_app. split; [|done]. apply Forall_replicate. unfold ZERO. lia.
    - unfold ZERO. by rewrite digits_value_zeros.
    - rewrite length_app, length_replicate. lia. }
  clearbody p. exists (take (length p - scale) p), (drop (length p - scale) p).
  split_and!; [|by apply digits_take| |by apply digits_drop| |by rewrite take_drop].
  - unfold spell. rewrite bool_decide_false.
    + destruct (Z.ltb_spec m 0) as [Hn|Hn]; [|done]. rewrite (proj2 (Z.eqb_neq m 0)) by lia. done.
    + intros He. apply (f_equal length) in He. rewrite length_drop in He. cbn in He. lia.
  - intros He. apply (f_equal length) in He. rewrite length_take in He. cbn in He. lia.
  - rewrite length_drop. lia.
Qed.

Lemma decimal_roundtrip m scale : Z.abs m ≤ I128_MAX → Z.of_nat scale < 2 ^ 32 →
  decimal_parts (decimal_text m scale) = Some (m, Z.of_nat scale).
Proof.
  intros Hm Hs. unfold I128_MAX in Hm. destruct (decimal_text_spell m scale) as (ip&fp&->&Hi&Hne&Hf&Hl&Hv); [lia|].
  rewrite decimal_parts_spell by (done || unfold I128_MAX; lia). rewrite Hv, Hl.
  destruct (Z.ltb_spec m 0); do 2 f_equal; lia.
Qed.

(** * What [numeric_cmp] compares *)

Lemma pow10_pos k : 0 < 10 ^ Z.of_nat k.
Proof. apply Z.pow_pos_nonneg; lia. Qed.

Lemma digits_value_cons b s : digits_value (b :: s) = (b - 48) * 10 ^ Z.of_nat (length s) + digits_value s.
Proof. change (b :: s) with ([b] ++ s). rewrite digits_value_app. done. Qed.

Lemma then_cmp_scale a b k u v : 0 < k → 0 ≤ u < k → 0 ≤ v < k →
  (a * k + u ?= b * k + v) = then_cmp (a ?= b) (u ?= v).
Proof.
  intros Hk Hu Hv. destruct (Z.compare_spec a b) as [->|Hlt|Hlt]; cbn [then_cmp].
  - destruct (Z.compare_spec u v) as [->| |]; [apply Z.compare_refl|apply Z.compare_lt_iff|apply Z.compare_gt_iff]; lia.
  - apply Z.compare_lt_iff. nia.
  - apply Z.compare_gt_iff. nia.
Qed.

Lemma scale_cmp_pos k u v : 0 < k → (u * k ?= v * k) = (u ?= v).
Proof.
  intros Hk. destruct (Z.compare_spec u v) as [->| |];
    [apply Z.compare_refl|apply Z.compare_lt_iff|apply Z.compare_gt_iff]; nia.
Qed.
Lemma scale10_cmp u v : (10 * u ?= 10 * v) = (u ?= v).
Proof. rewrite !(Z.mul_comm 10). by apply scale_cmp_pos. Qed.

(** Fractions compare as numbers. *)
Lemma pad_cmp_value a : ∀ b, digits a → digits b →
  pad_cmp a b = (digits_value a * 10 ^ Z.of_nat (length b) ?= digits_value b * 10 ^ Z.of_nat (length a)).
Proof.
  assert (∀ b, digits b → pad_cmp [] b = (0 ?= digits_value b)) as Hnil.
  { induction 1 as [|y b Hy Hb IH]; [done|]. rewrite pad_cmp_nil_cons, IH, digits_value_cons.
    pose proof (digits_value_bound b Hb).
    change (0 ?= (y - 48) * 10 ^ Z.of_nat (length b) + digits_value b) with
      (0 * 10 ^ Z.of_nat (length b) + 0 ?= (y - 48) * 10 ^ Z.of_nat (length b) + digits_value b).
    rewrite then_cmp_scale by lia. f_equal. symmetry.
    destruct (Z.compare_spec 48 y); [apply Z.compare_eq_iff|apply Z.compare_lt_iff|apply Z.compare_gt_iff]; lia. }
  induction a as [|x a IH]; intros b Ha Hb.
  { rewrite Hnil by done. change (digits_value []) with 0. cbn [length]. by rewrite Z.mul_0_l, Z.pow_0_r, Z.mul_1_r. }
  apply Forall_cons in Ha as [Hx Ha]. destruct Hb as [|y b Hy Hb].
  - rewrite pad_cmp_antisym, Hnil by by constructor. rewrite <- Z.compare_antisym.
    change (digits_value []) with 0. cbn [length]. by rewrite Z.mul_0_l, Z.pow_0_r, Z.mul_1_r.
  - cbn [pad_cmp]. rewrite IH, !digits_value_cons by done. cbn [length]. rewrite !Nat2Z.inj_succ, !Z.pow_succ_r by lia.
    pose proof (pow10_pos (length a)). pose proof (pow10_pos (length b)).
    pose proof (digits_value_bound a Ha). pose proof (digits_value_bound b Hb).
    set (A := 10 ^ Z.of_nat (length a)) in *. set (B := 10 ^ Z.of_nat (length b)) in *.
    replace (((x - 48) * A + digits_value a) * (10 * B)) with (10 * ((x - 48) * (A * B) + digits_value a * B)) by lia.
    replace (((y - 48) * B + digits_value b) * (10 * A)) with (10 * ((y - 48) * (A * B) + digits_value b * A)) by lia.
    rewrite scale10_cmp, then_cmp_scale by nia. f_equal.
    destruct (Z.compare_spec x y) as [->| |]; symmetry;
      [apply Z.compare_refl|apply Z.compare_lt_iff|apply Z.compare_gt_iff]; lia.
Qed.

(** Integers of the same number of digits compare digit by digit. *)
Lemma lex_value a : ∀ b, digits a → digits b → length a = length b →
  lex_cmp a b = (digits_value a ?= digits_value b).
Proof.
  induction a as [|x a IH]; intros [|y b] Ha Hb Hl; try done. injection Hl as Hl.
  apply Forall_cons in Ha as [Hx Ha], Hb as [Hy Hb]. cbn [lex_cmp]. rewrite !digits_value_cons, Hl.
  pose proof (digits_value_bound a Ha). pose proof (digits_value_bound b Hb). rewrite Hl in *.
  rewrite then_cmp_scale by (apply pow10_pos || lia). rewrite IH by done.
  replace (x - 48 ?= y - 48) with (x ?= y); [by destruct (x ?= y)|].
  destruct (Z.compare_spec x y) as [->| |]; symmetry;
    [apply Z.compare_refl|apply Z.compare_lt_iff|apply Z.compare_gt_iff]; lia.
Qed.

(** A number without leading zeros has the size its length says. *)
Lemma leading_bound s : digits s → head s ≠ Some 48 → s ≠ [] →
  10 ^ Z.of_nat (length s - 1) ≤ digits_value s.
Proof.
  intros Hd Hh Hne. destruct Hd as [|b s Hb Hd]; [done|]. rewrite digits_value_cons.
  cbn [length]. rewrite Nat.sub_1_r, Nat.pred_succ. pose proof (digits_value_bound s Hd).
  assert (b ≠ 48) by (cbn in Hh; congruence). nia.
Qed.

Lemma whole_value I1 I2 : digits I1 → digits I2 → head I1 ≠ Some 48 → head I2 ≠ Some 48 →
  (digits_value I1 ?= digits_value I2) = then_cmp (length I1 ?= length I2)%nat (lex_cmp I1 I2).
Proof.
  intros D1 D2 H1 H2. assert (∀ s t, digits s → digits t → head t ≠ Some 48 → (length s < length t)%nat →
    digits_value s < digits_value t) as Hlt.
  { intros s t Hs Ht Hh Hl. pose proof (digits_value_bound s Hs).
    pose proof (leading_bound t Ht Hh ltac:(by destruct t; [cbn in Hl; lia|])).
    assert (10 ^ Z.of_nat (length s) ≤ 10 ^ Z.of_nat (length t - 1)) by (apply Z.pow_le_mono_r; lia). lia. }
  destruct (Nat.compare_spec (length I1) (length I2)) as [He|Hl|Hl]; cbn [then_cmp].
  - symmetry. by apply lex_value.
  - apply Z.compare_lt_iff. by apply Hlt.
  - apply Z.compare_gt_iff. by apply Hlt.
Qed.

Lemma mag_value I1 F1 I2 F2 : significant I1 F1 → significant I2 F2 →
  mag_cmp I1 F1 I2 F2 =
    (digits_value (I1 ++ F1) * 10 ^ Z.of_nat (length F2) ?= digits_value (I2 ++ F2) * 10 ^ Z.of_nat (length F1)).
Proof.
  intros [D1 G1 H1 T1] [D2 G2 H2 T2]. unfold mag_cmp.
  rewrite <- then_cmp_assoc, <- whole_value, (lex_pad_cmp F1 F2), pad_cmp_value, !digits_value_app by done.
  pose proof (pow10_pos (length F1)). pose proof (pow10_pos (length F2)).
  pose proof (digits_value_bound F1 G1). pose proof (digits_value_bound F2 G2).
  set (A := 10 ^ Z.of_nat (length F1)) in *. set (B := 10 ^ Z.of_nat (length F2)) in *.
  replace ((digits_value I1 * A + digits_value F1) * B) with (digits_value I1 * (A * B) + digits_value F1 * B) by lia.
  replace ((digits_value I2 * B + digits_value F2) * A) with (digits_value I2 * (A * B) + digits_value F2 * A) by lia.
  rewrite then_cmp_scale by nia. done.
Qed.

(** Zeros at either end do not change the number. *)
Lemma padded_value W P i j :
  digits_value ((replicate i 48 ++ W) ++ P ++ replicate j 48) * 10 ^ Z.of_nat (length P) =
  digits_value (W ++ P) * 10 ^ Z.of_nat (length (P ++ replicate j 48)).
Proof.
  rewrite <- app_assoc, digits_value_zeros, app_assoc, (digits_value_app _ (replicate j 48)).
  rewrite length_app, length_replicate, Nat2Z.inj_add, Z.pow_add_r by lia.
  replace (digits_value (replicate j 48)) with 0; [lia|].
  symmetry. rewrite <- (app_nil_r (replicate j 48)). apply digits_value_zeros.
Qed.

Lemma whole_part_value ip fp :
  digits_value (ip ++ fp) * 10 ^ Z.of_nat (length (part fp)) =
  digits_value (whole ip ++ part fp) * 10 ^ Z.of_nat (length fp).
Proof.
  destruct (trim_start_matches_spec ZERO ip) as (i&Hi&_), (trim_end_matches_spec ZERO fp) as (j&Hj&_).
  pose proof (padded_value (whole ip) (part fp) i j) as H. unfold whole, part in *. unfold ZERO in *.
  by rewrite <- Hi, <- Hj in H.
Qed.

(** Comparing with the zeros cut is comparing the numbers. *)
Lemma mag_number ip1 fp1 ip2 fp2 : digits ip1 → digits fp1 → digits ip2 → digits fp2 →
  mag_cmp (whole ip1) (part fp1) (whole ip2) (part fp2) =
    (digits_value (ip1 ++ fp1) * 10 ^ Z.of_nat (length fp2) ?= digits_value (ip2 ++ fp2) * 10 ^ Z.of_nat (length fp1)).
Proof.
  intros D1 F1 D2 F2. rewrite mag_value by by apply whole_part.
  pose proof (whole_part_value ip1 fp1) as H1. pose proof (whole_part_value ip2 fp2) as H2.
  pose proof (pow10_pos (length fp1)). pose proof (pow10_pos (length fp2)).
  pose proof (pow10_pos (length (part fp1))). pose proof (pow10_pos (length (part fp2))).
  set (a := digits_value (ip1 ++ fp1)) in *. set (b := digits_value (ip2 ++ fp2)) in *.
  set (a' := digits_value (whole ip1 ++ part fp1)) in *. set (b' := digits_value (whole ip2 ++ part fp2)) in *.
  set (A := 10 ^ Z.of_nat (length fp1)) in *. set (B := 10 ^ Z.of_nat (length fp2)) in *.
  set (A' := 10 ^ Z.of_nat (length (part fp1))) in *. set (B' := 10 ^ Z.of_nat (length (part fp2))) in *.
  clearbody a b a' b' A B A' B'.
  rewrite <- (scale_cmp_pos (A * B) (a' * B')) by nia. rewrite <- (scale_cmp_pos (A' * B') (a * B)) by nia.
  f_equal; [transitivity (a' * A * B * B'); [lia|rewrite <- H1; lia]|transitivity (b' * B * A * A'); [lia|rewrite <- H2; lia]].
Qed.

Lemma is_zero_value ip fp : digits ip → digits fp →
  is_zero (whole ip) (part fp) = bool_decide (digits_value (ip ++ fp) = 0).
Proof.
  intros Hi Hf. pose proof (whole_part_value ip fp) as Hv. pose proof (pow10_pos (length fp)). pose proof (pow10_pos (length (part fp))).
  destruct (whole_part ip fp Hi Hf) as [DI DF HI HF].
  destruct (is_zero (whole ip) (part fp)) eqn:Hz; symmetry.
  - apply is_zero_nil in Hz as [HI0 HF0]. rewrite HI0, HF0 in Hv. change (digits_value ([] ++ [])) with 0 in Hv.
    apply bool_decide_eq_true. cbn [length] in Hv. lia.
  - apply bool_decide_eq_false. intros Hz0. rewrite Hz0 in Hv.
    assert (digits_value (whole ip ++ part fp) = 0) as Hw by nia. rewrite digits_value_app in Hw.
    pose proof (digits_value_bound _ DI). pose proof (digits_value_bound _ DF).
    assert (digits_value (whole ip) = 0 ∧ digits_value (part fp) = 0) as [Hw1 Hw2] by nia.
    apply not_true_iff_false in Hz. apply Hz. unfold is_zero. apply andb_true_iff. rewrite !bool_decide_eq_true. split.
    + destruct (decide (whole ip = [])); [done|]. pose proof (leading_bound (whole ip) DI HI n).
      pose proof (pow10_pos (length (whole ip) - 1)). lia.
    + destruct (decide (part fp = [])) as [|Hne]; [done|].
      pose proof (pad_cmp_nil_pos (part fp) DF HF Hne) as Hp. rewrite pad_cmp_value in Hp by (constructor || done).
      rewrite Hw2 in Hp. change (digits_value []) with 0 in Hp. cbn in Hp. by rewrite Z.compare_refl in Hp.
Qed.

(** [numeric_cmp] compares the values [m1 / 10^s1] and [m2 / 10^s2]. *)
Lemma numeric_cmp_number n1 ip1 fp1 n2 ip2 fp2 :
  digits ip1 → ip1 ≠ [] → digits fp1 → digits ip2 → ip2 ≠ [] → digits fp2 →
  numeric_cmp (spell n1 ip1 fp1) (spell n2 ip2 fp2) =
    ((if n1 then - digits_value (ip1 ++ fp1) else digits_value (ip1 ++ fp1)) * 10 ^ Z.of_nat (length fp2) ?=
     (if n2 then - digits_value (ip2 ++ fp2) else digits_value (ip2 ++ fp2)) * 10 ^ Z.of_nat (length fp1)).
Proof.
  intros D1 N1 F1 D2 N2 F2. rewrite numeric_cmp_parts, !numeric_parts_spell by (done || by apply numeric_special_spell).
  rewrite mag_number, !is_zero_value by done.
  pose proof (digits_value_bound (ip1 ++ fp1) ltac:(by apply digits_app)).
  pose proof (digits_value_bound (ip2 ++ fp2) ltac:(by apply digits_app)).
  pose proof (pow10_pos (length fp1)). pose proof (pow10_pos (length fp2)).
  set (a := digits_value (ip1 ++ fp1)) in *. set (b := digits_value (ip2 ++ fp2)) in *.
  set (A := 10 ^ Z.of_nat (length fp1)) in *. set (B := 10 ^ Z.of_nat (length fp2)) in *. clearbody a b A B.
  destruct (bool_decide_reflect (a = 0)) as [->|Ha], (bool_decide_reflect (b = 0)) as [->|Hb];
    destruct n1, n2; cbn [andb negb eqb]; rewrite ?Z.mul_0_l, ?Z.opp_0, ?Z.mul_0_l, ?Z.mul_opp_l, ?Z.compare_opp, <- ?Z.compare_antisym, ?Z.opp_involutive;
    try done; symmetry; (apply Z.compare_lt_iff || apply Z.compare_gt_iff); nia.
Qed.

(** A stored decimal with a mantissa is a plain spelling of it. *)
Lemma decimal_parts_inv a m i : decimal a → decimal_parts a = Some (m, i) →
  ∃ neg ip fp, a = spell neg ip fp ∧ digits ip ∧ ip ≠ [] ∧ digits fp ∧
    m = (if neg then - digits_value (ip ++ fp) else digits_value (ip ++ fp)) ∧ i = Z.of_nat (length fp).
Proof.
  intros Ha Hp. destruct Ha as [| | |neg ip fp Di Ni Df Li Lf]; [by vm_compute in Hp..|].
  rewrite decimal_parts_spell_eq in Hp; [|done..|lia]. case_match; [|done].
  injection Hp as <- <-. by exists neg, ip, fp.
Qed.

Lemma numeric_cmp_exact_value a b m i n j : decimal a → decimal b →
  decimal_parts a = Some (m, i) → decimal_parts b = Some (n, j) →
  numeric_cmp a b = (m * 10 ^ j ?= n * 10 ^ i).
Proof.
  intros Ha Hb (n1&ip1&fp1&->&?&?&?&->&->)%decimal_parts_inv (n2&ip2&fp2&->&?&?&?&->&->)%decimal_parts_inv; [|done..].
  by apply numeric_cmp_number.
Qed.
