(* ===== verification/ColumnOrder.v ===== *)
(** Index keys: the key of a row orders as the row, column by column, NULL
    first, under each column's collation; in a typeless column integers and
    doubles mix by exact value. *)

From S2P Require Import Prelude Text Value FloatOrder Keycode KeycodeOrder NumericOrder.
Local Open Scope Z_scope.

(** * Numbers of a typeless column *)

(** The exact value of a number, in units of [2^-1074]. *)
Definition num_val (v : Value) : Z :=
  match v with Int i => i * ONE | Float f => fv f | _ => 0 end.

(** How a value [V] relates to the integer part [f] and the sub-tag [s] of its
    key. *)
Inductive numcode (V f : Z) : Z → Prop :=
| nc_below : f = I64_MIN → V < f * ONE → numcode V f NUM_BELOW
| nc_exact : V = f * ONE → numcode V f NUM_EXACT
| nc_above : f * ONE < V < NAN_VAL → (f = I64_MAX ∨ V < (f + 1) * ONE) → numcode V f NUM_ABOVE
| nc_nan : f = I64_MAX → V = NAN_VAL → numcode V f NUM_NAN.

Definition num_payload (v : Value) (s : Z) : bytes :=
  match v with Float f => if s =? NUM_EXACT then [] else enc_f64 f | _ => [] end.

Lemma encode_number_code v : (∃ i, v = Int i ∧ is_sint 64 i) ∨ (∃ f, v = Float f ∧ is_f64 f) →
  ∃ f s, encode_number v = Ok (enc_i64 f ++ s :: num_payload v s) ∧ is_sint 64 f ∧ numcode (num_val v) f s
    ∧ (s = NUM_EXACT ∨ ∃ b, v = Float b).
Proof.
  intros [(i&->&Hi)|(b&->&Hb)]; cbn [encode_number num_val].
  { exists i, NUM_EXACT. split_and!; [done|done|by constructor|by left]. }
  pose proof ONE_pos as H1. assert (is_sint 64 I64_MAX ∧ is_sint 64 I64_MIN) as [Hmax Hmin] by by vm_compute.
  unfold fv. destruct (f_is_nan b) eqn:Hn.
  { exists I64_MAX, NUM_NAN. split_and!; [done|done|by apply nc_nan|eauto]. }
  pose proof (f_val_bound b Hb Hn) as Hbound. unfold f_cmp_int.
  destruct (Z.compare_spec (f_val b) (2 ^ 63 * ONE)) as [He|Hlt|Hgt]; cycle 1.
  - rewrite bool_decide_false by (intros Hc; by apply Hc).
    destruct (Z.compare_spec (f_val b) (- 2 ^ 63 * ONE)) as [He|Hlt'|Hgt].
    + rewrite bool_decide_false by done. exists (f_floor b), NUM_EXACT. unfold f_floor.
      rewrite He. rewrite Z.div_mul by lia. rewrite Z.compare_refl, bool_decide_true by done.
      split_and!; [done|done|by apply nc_exact|by left].
    + rewrite bool_decide_true by done. exists I64_MIN, NUM_BELOW.
      split_and!; [done|done|by apply nc_below|eauto].
    + rewrite bool_decide_false by done. unfold f_floor.
      pose proof (Z.div_mod (f_val b) ONE ltac:(lia)) as Hdm.
      pose proof (Z.mod_pos_bound (f_val b) ONE ltac:(lia)) as Hmb.
      set (q := f_val b / ONE) in *. set (m := f_val b mod ONE) in *. clearbody q m.
      assert (- 2 ^ 63 ≤ q < 2 ^ 63) as Hq by nia.
      destruct (Z.compare_spec (f_val b) (q * ONE)) as [Hqe|Hql|Hqg]; [|nia|].
      * exists q, NUM_EXACT. rewrite bool_decide_true by done.
        split_and!; [done|done|by apply nc_exact|by left].
      * exists q, NUM_ABOVE. rewrite bool_decide_false by done.
        split_and!; [done|done|apply nc_above; [lia|right; nia]|eauto].
  - rewrite bool_decide_true by done. exists I64_MAX, NUM_ABOVE.
    split_and!; [done|done|apply nc_above; [unfold I64_MAX; nia|by left]|eauto].
  - rewrite bool_decide_true by done. exists I64_MAX, NUM_ABOVE.
    split_and!; [done|done|apply nc_above; [unfold I64_MAX; nia|by left]|eauto].
Qed.

Lemma numcode_inv V f s : numcode V f s →
  s = 0 ∧ f = I64_MIN ∧ V < f * ONE ∨ s = 1 ∧ V = f * ONE ∨
  s = 2 ∧ f * ONE < V < NAN_VAL ∧ (f = I64_MAX ∨ V < (f + 1) * ONE) ∨
  s = 3 ∧ f = I64_MAX ∧ V = NAN_VAL.
Proof. intros []; unfold NUM_BELOW, NUM_EXACT, NUM_ABOVE, NUM_NAN; tauto. Qed.

(** Integer parts, then sub-tags, then payloads decide as the values do. *)
Lemma numcode_cmp V1 f1 s1 V2 f2 s2 :
  numcode V1 f1 s1 → numcode V2 f2 s2 → is_sint 64 f1 → is_sint 64 f2 →
  (V1 ?= V2) = then_cmp (f1 ?= f2) (then_cmp (s1 ?= s2) (if s1 =? NUM_EXACT then Eq else V1 ?= V2)).
Proof.
  intros C1%numcode_inv C2%numcode_inv [Hl1 Hh1] [Hl2 Hh2]. change (64 - 1) with 63 in *.
  assert (2 ^ 63 * ONE < NAN_VAL) as Hbig by by vm_compute. pose proof ONE_pos as H1.
  unfold I64_MIN, I64_MAX, NUM_EXACT in *.
  set (O := ONE) in *. clearbody O. set (N := NAN_VAL) in *. clearbody N.
  destruct (Z.compare_spec f1 f2) as [->|Hlt|Hlt]; cbn [then_cmp].
  - destruct (Z.compare_spec s1 s2) as [<-|Hs|Hs]; cbn [then_cmp].
    + destruct (Z.eqb_spec s1 1) as [->|]; [|done]. apply Z.compare_eq_iff. lia.
    + apply Z.compare_lt_iff. nia.
    + apply Z.compare_gt_iff. nia.
  - apply Z.compare_lt_iff.
    assert (V1 < (f1 + 1) * O) by nia. assert (f2 * O ≤ V2) by nia. nia.
  - apply Z.compare_gt_iff.
    assert (V2 < (f2 + 1) * O) by nia. assert (f1 * O ≤ V1) by nia. nia.
Qed.

Definition is_number (v : Value) : Prop :=
  (∃ i, v = Int i ∧ is_sint 64 i) ∨ (∃ f, v = Float f ∧ is_f64 f).

Lemma keyed_number v w : is_number v → is_number w →
  ∃ ev ew, encode_number v = Ok ev ∧ encode_number w = Ok ew ∧ keyed (num_val v ?= num_val w) ev ew.
Proof.
  intros Hv Hw. destruct (encode_number_code v Hv) as (f1&s1&E1&F1&C1&P1).
  destruct (encode_number_code w Hw) as (f2&s2&E2&F2&C2&P2).
  do 2 eexists. split_and!; [exact E1|exact E2|].
  rewrite (numcode_cmp _ f1 s1 _ f2 s2) by done.
  apply keyed_app; [by rewrite !length_enc_i64|by apply enc_i64_cmp|].
  destruct (Z.compare_spec s1 s2) as [<-|Hs|Hs]; cbn [then_cmp].
  - apply keyed_cons. destruct (Z.eqb_spec s1 NUM_EXACT) as [->|Hne].
    + unfold num_payload. destruct v, w; apply keyed_refl.
    + destruct P1 as [?|[b1 ->]]; [done|]. destruct P2 as [?|[b2 ->]]; [done|].
      unfold num_payload. rewrite (proj2 (Z.eqb_neq s1 NUM_EXACT)) by done. cbn [num_val].
      destruct Hv as [(?&?&?)|(?&[= <-]&?)], Hw as [(?&?&?)|(?&[= <-]&?)]; try done.
      rewrite <- float_total_cmp_fv by done. by apply keyed_f64.
  - rewrite <- (proj2 (Z.compare_lt_iff s1 s2)) by done. apply keyed_head. lia.
  - rewrite <- (proj2 (Z.compare_gt_iff s1 s2)) by done. apply keyed_head. lia.
Qed.

(** * Columns *)

(** A value the engine can hold: machine widths, bytes, a parsed decimal. A
    context list is never stored. *)
Definition storable (v : Value) : Prop :=
  match v with
  | Null | Bool _ => True
  | Int x | Timestamp x | Date x | Time x => is_sint 64 x
  | Float b => is_f64 b
  | Text s => Forall is_byte s ∧ utf8_valid s = true
  | Blob b => Forall is_byte b
  | Numeric s => decimal s
  | List _ => False
  end.

(** NULL first, then as [sort_cmp] says. *)
Definition column_cmp (coll : Collation) (v w : Value) : option comparison :=
  match v, w with
  | Null, Null => Some Eq
  | Null, _ => Some Lt
  | _, Null => Some Gt
  | _, _ => sort_cmp v w coll
  end.

Lemma nocase_lex a b : nocase_cmp a b = lex_cmp (to_ascii_lowercase a) (to_ascii_lowercase b).
Proof.
  revert b. induction a as [|x a IH]; intros [|y b]; try done.
  cbn [nocase_cmp to_ascii_lowercase map lex_cmp]. by rewrite IH.
Qed.

(** Comparing under a collation is comparing the folded keys. *)
Lemma compare_str_fold coll a b : compare_str coll a b = lex_cmp (fold_key coll a) (fold_key coll b).
Proof. destruct coll; [done|apply nocase_lex|done]. Qed.

Lemma ascii_lower_byte b : is_byte b → is_byte (ascii_lower b).
Proof.
  unfold ascii_lower, is_byte. destruct (between 65 90 b) eqn:E; [|done].
  apply between_true in E. lia.
Qed.

Lemma fold_key_bytes coll s : Forall is_byte s → Forall is_byte (fold_key coll s).
Proof.
  intros Hs. destruct coll; [done| |]; cbn [fold_key].
  - apply Forall_map. eapply Forall_impl; [exact Hs|]. apply ascii_lower_byte.
  - destruct (trim_end_matches_spec 32 s) as (k&Hk&_). rewrite Hk in Hs. by apply Forall_app in Hs as [? _].
Qed.

(** Both columns of a comparison, encoded. *)
Definition encoded_as (c : comparison) (rv rw : res bytes) : Prop :=
  ∃ ev ew, rv = Ok ev ∧ rw = Ok ew ∧ keyed c ev ew ∧ tail_ok ev ∧ tail_ok ew.

Lemma encoded_tag t c ea eb : 0 ≤ t < 255 → keyed c ea eb → encoded_as c (Ok (t :: ea)) (Ok (t :: eb)).
Proof. intros Ht Hk. exists (t :: ea), (t :: eb). split_and!; [done|done|by apply keyed_cons|done|done]. Qed.

Lemma encoded_tags ta tb c ea eb : 0 ≤ ta < 255 → 0 ≤ tb < 255 → ta ≠ tb → (ta ?= tb) = c →
  encoded_as c (Ok (ta :: ea)) (Ok (tb :: eb)).
Proof.
  intros Ha Hb Hne <-. exists (ta :: ea), (tb :: eb). split_and!; [done|done|by apply keyed_head|done|done].
Qed.

Lemma encoded_refl t e : 0 ≤ t < 255 → encoded_as Eq (Ok (t :: e)) (Ok (t :: e)).
Proof. intros Ht. apply encoded_tag; [done|apply keyed_refl]. Qed.

Lemma encode_value_collated_text s coll :
  encode_value_collated (Text s) coll = Ok (TAG_PRESENT :: encode_bytes (fold_key coll s)).
Proof. by destruct coll. Qed.

Ltac tag_bounds := unfold TAG_PRESENT, TAG_NULL, CLASS_NULL, CLASS_NUM, CLASS_TEXT, CLASS_BLOB,
  CLASS_BOOL, CLASS_TS, CLASS_DATE, CLASS_TIME, CLASS_NUMERIC; lia.

Create HintDb keyed.
#[export] Hint Resolve keyed_bytes keyed_bool keyed_numeric fold_key_bytes : keyed.
#[export] Hint Extern 1 (keyed _ (enc_i64 _) _) => apply keyed_i64 : keyed.
#[export] Hint Extern 1 (keyed _ (enc_f64 _) _) => apply keyed_f64 : keyed.

(** Values of one type that are not NULL. *)
Definition same_type (v w : Value) : Prop := is_Some (column_type v) ∧ column_type v = column_type w.

(** The payloads of two values of one type order as the values. *)
Lemma payload_keyed coll v w : same_type v w → storable v → storable w →
  ∃ c pv pw, sort_cmp v w coll = Some c ∧ keyed c pv pw ∧
    encode_value_collated v coll = Ok (TAG_PRESENT :: pv) ∧
    encode_value_collated w coll = Ok (TAG_PRESENT :: pw).
Proof.
  intros [[t Ht] Hvw] Sv Sw. destruct v; try discriminate Ht; destruct w; try discriminate Hvw;
    cbn [storable] in Sv, Sw; rewrite ?encode_value_collated_text;
    (eexists _, _, _; split_and!; [reflexivity| |reflexivity|reflexivity]).
  all: repeat match goal with H : Forall is_byte _ ∧ _ |- _ => destruct H end.
  all: rewrite ?compare_str_fold; auto with keyed.
Qed.

Lemma encoded_present c pv pw : keyed c pv pw →
  encoded_as c (Ok (TAG_PRESENT :: pv)) (Ok (TAG_PRESENT :: pw)).
Proof. intros Hk. apply encoded_tag; [tag_bounds|done]. Qed.

(** A column of one type. *)
Lemma typed_column ty coll v w :
  ty ≠ TAny → fits v ty = true → fits w ty = true → storable v → storable w →
  ∃ c, column_cmp coll v w = Some c ∧
    encoded_as c (encode_value_collated v coll) (encode_value_collated w coll).
Proof.
  intros Hty Hv Hw Sv Sw. unfold fits in Hv, Hw. rewrite bool_decide_false in Hv, Hw by done.
  assert (∀ u, storable u → u = Null ∨ ∃ t, column_type u = Some t) as Hnull.
  { intros [] Hs; first [by left|right; by eexists|done]. }
  assert (∀ u t, storable u → column_type u = Some t → ∃ p, encode_value_collated u coll = Ok (TAG_PRESENT :: p))
    as Hpres.
  { intros u t Su Hu. destruct (payload_keyed coll u u) as (c&p&p'&_&_&H&_); [|done..|by exists p].
    split; [by exists t|done]. }
  destruct (Hnull v Sv) as [->|[tv Tv]], (Hnull w Sw) as [->|[tw Tw]].
  - exists Eq. split; [done|]. apply encoded_refl. tag_bounds.
  - exists Lt. split; [by destruct w|]. destruct (Hpres w tw Sw Tw) as [p ->].
    by apply encoded_tags; [tag_bounds..|].
  - exists Gt. split; [by destruct v|]. destruct (Hpres v tv Sv Tv) as [p ->].
    by apply encoded_tags; [tag_bounds..|].
  - rewrite Tv in Hv. rewrite Tw in Hw. apply bool_decide_eq_true in Hv as ->, Hw as ->.
    destruct (payload_keyed coll v w) as (c&pv&pw&Hc&Hk&->&->); [|done..|].
    { split; [by exists ty|congruence]. }
    exists c. split; [by destruct v, w|by apply encoded_present].
Qed.

(** * Typeless columns *)

Lemma scale_cmp a b : (a * ONE ?= b * ONE) = (a ?= b).
Proof.
  pose proof ONE_pos. destruct (Z.compare_spec a b) as [->| |];
    [apply Z.compare_refl|apply Z.compare_lt_iff|apply Z.compare_gt_iff]; nia.
Qed.

(** Numbers compare by exact value, whatever their types. *)
Lemma number_cmp coll v w : is_number v → is_number w →
  sort_cmp v w coll = Some (num_val v ?= num_val w).
Proof.
  intros [(a&->&Ha)|(a&->&Ha)] [(b&->&Hb)|(b&->&Hb)]; cbn [sort_cmp sql_cmp_collated sql_cmp is_null orb num_val].
  - by rewrite scale_cmp.
  - by rewrite int_float_cmp_fv.
  - rewrite int_float_cmp_fv by done. by rewrite <- Z.compare_antisym.
  - by rewrite float_total_cmp_fv.
Qed.

Lemma number_column coll v w : is_number v → is_number w →
  ∃ c, column_cmp coll v w = Some c ∧ encoded_as c (encode_group_value v coll) (encode_group_value w coll).
Proof.
  intros Hv Hw. destruct (keyed_number v w Hv Hw) as (ev&ew&Ev&Ew&Hk).
  exists (num_val v ?= num_val w). split.
  - rewrite <- (number_cmp coll) by done. by destruct Hv as [(?&->&_)|(?&->&_)], Hw as [(?&->&_)|(?&->&_)].
  - assert (∀ u eu, is_number u → encode_number u = Ok eu → encode_group_value u coll = Ok (CLASS_NUM :: eu)) as Hg.
    { intros u eu [(?&->&_)|(?&->&_)] Hu; cbn [encode_group_value]; by rewrite Hu. }
    rewrite (Hg v ev), (Hg w ew) by done. apply encoded_tag; [tag_bounds|done].
Qed.

(** The class of a value, as its key's first byte. *)
Definition class_of (v : Value) : Z :=
  match v with
  | Null => CLASS_NULL
  | Int _ | Float _ => CLASS_NUM
  | Text _ => CLASS_TEXT
  | Blob _ => CLASS_BLOB
  | Bool _ => CLASS_BOOL
  | Timestamp _ => CLASS_TS
  | Date _ => CLASS_DATE
  | Time _ => CLASS_TIME
  | Numeric _ => CLASS_NUMERIC
  | List _ => 9
  end.

Lemma class_of_bound v : 0 ≤ class_of v < 255.
Proof. destruct v; cbn [class_of]; tag_bounds. Qed.

Lemma storable_number v : storable v → class_of v = CLASS_NUM → is_number v.
Proof. destruct v; intros Hs Hc; try discriminate Hc; [left|right]; by eexists. Qed.

Lemma group_value_class v coll : storable v → ∃ p, encode_group_value v coll = Ok (class_of v :: p).
Proof.
  intros Hs. destruct (decide (class_of v = CLASS_NUM)) as [Hc|Hc].
  - destruct (keyed_number v v) as (e&_&He&_); [by apply storable_number..|].
    exists e. destruct v; try discriminate Hc; cbn [encode_group_value]; by rewrite He.
  - destruct v; try done; by eexists.
Qed.

Lemma group_same_class coll v w : class_of v = class_of w → storable v → storable w →
  ∃ c, column_cmp coll v w = Some c ∧ encoded_as c (encode_group_value v coll) (encode_group_value w coll).
Proof.
  intros Hc Sv Sw. destruct (decide (class_of v = CLASS_NUM)) as [Hn|Hn].
  { apply number_column; apply storable_number; congruence. }
  destruct v; try done; destruct w; try discriminate Hc; try done; cbn [storable] in Sv, Sw;
    (eexists; split; [reflexivity|]); cbn [encode_group_value]; apply encoded_tag; try tag_bounds.
  all: repeat match goal with H : Forall is_byte _ ∧ _ |- _ => destruct H end.
  all: rewrite ?compare_str_fold; auto using keyed_refl with keyed.
Qed.

(** A typeless column: where the values have an order, their keys have it. *)
Lemma group_column coll v w c : storable v → storable w → column_cmp coll v w = Some c →
  encoded_as c (encode_group_value v coll) (encode_group_value w coll).
Proof.
  intros Sv Sw Hc. destruct (decide (class_of v = class_of w)) as [He|Hne].
  { destruct (group_same_class coll v w) as (c'&Hc'&?); [done..|]. by assert (c = c') as -> by congruence. }
  destruct (group_value_class v coll Sv) as [pv ->], (group_value_class w coll Sw) as [pw ->].
  apply encoded_tags; [apply class_of_bound|apply class_of_bound|done|].
  destruct v; try done; destruct w; try done; cbn in Hc; by simplify_eq.
Qed.

(** * Rows *)

(** A column of an index: its type and its collation. *)
Definition column := (ColumnType * Collation)%type.
Definition column_spec (c : column) : KeySpec := for_column c.1 c.2.

Definition column_ok (c : column) (v : Value) : Prop := fits v c.1 = true ∧ storable v.

Fixpoint key_cmp (cols : list column) (vs ws : list Value) : option comparison :=
  match cols, vs, ws with
  | c :: cols, v :: vs, w :: ws =>
      match column_cmp c.2 v w with
      | Some Eq => key_cmp cols vs ws
      | r => r
      end
  | _, _, _ => Some Eq
  end.

Lemma column_keyed col v w c : column_ok col v → column_ok col w → column_cmp col.2 v w = Some c →
  encoded_as c (encode_value_spec v (column_spec col)) (encode_value_spec w (column_spec col)).
Proof.
  intros [Fv Sv] [Fw Sw] Hc. destruct col as [ty coll]. cbn [fst snd] in *.
  unfold encode_value_spec, column_spec, for_column. cbn [Keycode.class Keycode.coll fst snd].
  case_bool_decide as Hty; [by apply group_column|].
  destruct (typed_column ty coll v w) as (c'&Hc'&?); [done..|]. by assert (c = c') as -> by congruence.
Qed.

Lemma column_encodes col v : column_ok col v → ∃ e, encode_value_spec v (column_spec col) = Ok e ∧ tail_ok e.
Proof.
  intros [Fv Sv]. destruct col as [ty coll]. cbn [fst] in *.
  unfold encode_value_spec, column_spec, for_column. cbn [Keycode.class Keycode.coll fst snd].
  case_bool_decide as Hty.
  - destruct (group_value_class v coll Sv) as [p ->]. eexists. split; [done|]. apply class_of_bound.
  - destruct (typed_column ty coll v v) as (c&_&ev&_&He&_&_&Ht&_); [done..|]. by exists ev.
Qed.

Lemma with_specs_cons {A} (d : A) v vs spec specs :
  with_specs d (v :: vs) (spec :: specs) = (v, spec) :: with_specs d vs specs.
Proof. done. Qed.

Lemma row_encodes cols vs : Forall2 column_ok cols vs →
  ∃ k, encode_key_spec vs (map column_spec cols) = Ok k ∧ tail_ok k.
Proof.
  unfold encode_key_spec. induction 1 as [|col v cols vs Hc _ (k&Hk&Ht)]; [by exists []|].
  cbn [map]. rewrite with_specs_cons. cbn [encode_all].
  destruct (column_encodes col v Hc) as (e&He&Het). rewrite He, Hk.
  exists (e ++ k). split; [done|]. by destruct e.
Qed.

(** Where the rows have an order, their keys have it. *)
Lemma row_keyed cols vs ws c : Forall2 column_ok cols vs → Forall2 column_ok cols ws →
  key_cmp cols vs ws = Some c →
  ∃ kv kw, encode_key_spec vs (map column_spec cols) = Ok kv ∧
    encode_key_spec ws (map column_spec cols) = Ok kw ∧ lex_cmp kv kw = c.
Proof.
  intros Hv. revert ws c. induction Hv as [|col v cols vs Hc Hvs IH]; intros ws c Hw.
  { inversion Hw; subst. intros [= <-]. by exists [], []. }
  inversion Hw as [|? w ? ws' Hcw Hws]; subst. cbn [key_cmp]. intros Hk.
  destruct (row_encodes cols vs Hvs) as (kv&Ekv&Tkv), (row_encodes cols ws' Hws) as (kw&Ekw&Tkw).
  destruct (column_cmp col.2 v w) as [d|] eqn:Hd; [|done].
  destruct (column_keyed col v w d Hc Hcw Hd) as (ev&ew&Ev&Ew&Hkd&_).
  exists (ev ++ kv), (ew ++ kw). unfold encode_key_spec in *. cbn [map]. rewrite !with_specs_cons.
  cbn [encode_all]. rewrite Ev, Ew, Ekv, Ekw. split_and!; [done|done|].
  rewrite Hkd by done. destruct d; cbn [then_cmp]; [|congruence..].
  destruct (IH ws' c Hws Hk) as (kv'&kw'&E1&E2&?). congruence.
Qed.

(** Rows of typed columns always have an order. *)
Lemma key_cmp_total cols vs ws : Forall (λ c : column, c.1 ≠ TAny) cols →
  Forall2 column_ok cols vs → Forall2 column_ok cols ws → is_Some (key_cmp cols vs ws).
Proof.
  intros Hc Hv. revert ws. induction Hv as [|col v cols vs [Fv Sv] Hvs IH]; intros ws Hw;
    [by inversion Hw|]. inversion Hw as [|? w ? ws' [Fw Sw] Hws]; subst. inversion Hc; subst.
  cbn [key_cmp]. destruct (typed_column col.1 col.2 v w) as (c&->&_); [done..|].
  destruct c; [by apply IH|done|done].
Qed.
