(* ===== verification/KeycodeDecode.v ===== *)
(** Decoding keys: what an encoder wrote reads back, up to the spellings a key
    does not keep (the sign of zero, the payload of a NaN, the scale of a
    decimal, folded text); any other bytes give an error. *)

From S2P Require Import Prelude Text Value FloatOrder Keycode KeycodeOrder NumericOrder ColumnOrder.
Local Open Scope Z_scope.

(** [d] reads [a] off the front of [e], wherever [e] lies in a buffer. *)
Definition decodes {A} (d : bytes → nat → res (A * nat)) (e : bytes) (a : A) : Prop :=
  ∀ pre rest, tail_ok rest → d (pre ++ e ++ rest) (length pre) = Ok (a, (length pre + length e)%nat).

Section Pieces.
Context {A B : Type}.

(** A decoder in two steps reads two pieces in a row. *)
Lemma decodes_bind (d : bytes → nat → res (A * nat)) (k : A → bytes → nat → res (B * nat)) e1 e2 a b :
  (∀ pre rest, d (pre ++ e1 ++ e2 ++ rest) (length pre) = Ok (a, (length pre + length e1)%nat)) →
  decodes (k a) e2 b →
  decodes (λ buf pos, '(x, p) ← d buf pos; k x buf p) (e1 ++ e2) b.
Proof.
  intros H1 H2 pre rest Hr. rewrite <- app_assoc, H1. cbn. rewrite <- length_app, app_assoc, H2 by done.
  by rewrite !length_app, Nat.add_assoc.
Qed.

Lemma decodes_map (f : A → B) d e a : decodes d e a →
  decodes (λ buf pos, '(x, p) ← d buf pos; Ok (f x, p)) e (f a).
Proof. intros H pre rest Hr. by rewrite H. Qed.
End Pieces.

Lemma get_byte_at msg b pre rest : get_byte msg (pre ++ b :: rest) (length pre) = Ok (b, S (length pre)).
Proof. unfold get_byte. by rewrite list_lookup_middle. Qed.

Lemma get_range_at {A} (pre e rest : list A) :
  get_range (length pre) (length pre + length e) (pre ++ e ++ rest) = Some e.
Proof.
  rewrite get_range_Some by (rewrite ?length_app; lia).
  replace (length pre + length e - length pre)%nat with (length e) by lia.
  rewrite sub_app_r by lia. by rewrite Nat.sub_diag, sub_app_exact.
Qed.

(** A tag in front of a payload. *)
Lemma decodes_tag {B} msg t (k : Z → bytes → nat → res (B * nat)) e b : decodes (k t) e b →
  decodes (λ buf pos, '(x, p) ← get_byte msg buf pos; k x buf p) (t :: e) b.
Proof.
  intros H. apply (decodes_bind (get_byte msg) k [t] e t b); [|done].
  intros pre rest. cbn [app length]. rewrite get_byte_at. f_equal. f_equal. lia.
Qed.

(** * Fixed-width payloads *)

Lemma take8_at msg z : is_uint 64 z → decodes (take8 msg) (be_encode 8 z) z.
Proof.
  intros Hz pre rest _. unfold take8.
  pose proof (get_range_at pre (be_encode 8 z) rest) as Hg. rewrite length_be_encode in Hg.
  rewrite Hg. cbn. rewrite be_decode_encode_id by done. by rewrite length_be_encode.
Qed.

Lemma dec_enc_i64 x : is_sint 64 x → dec_i64 (Z.lxor (to_uint 64 x) (2 ^ 63)) = x.
Proof.
  intros Hx. unfold dec_i64. rewrite Z.lxor_assoc, Z.lxor_nilpotent, Z.lxor_0_r.
  by apply to_sint_to_uint.
Qed.

Lemma flip_uint x : is_sint 64 x → is_uint 64 (Z.lxor (to_uint 64 x) (2 ^ 63)).
Proof.
  intros Hx. pose proof (flip_sint 64 x ltac:(lia) Hx) as H. change (64 - 1) with 63 in H.
  rewrite H. destruct Hx as [Hl Hh]. change (64 - 1) with 63 in *. split; [lia|].
  change (2 ^ 64) with (2 ^ 63 + 2 ^ 63). lia.
Qed.

Lemma i64_at {B} (f : Z → B) msg x : is_sint 64 x →
  decodes (λ buf pos, '(u, p) ← take8 msg buf pos; Ok (f (dec_i64 u), p)) (enc_i64 x) (f x).
Proof. intros Hx pre rest Hr. unfold enc_i64. rewrite take8_at by (done || by apply flip_uint). cbn. by rewrite dec_enc_i64. Qed.

(** The doubles a key tells apart. *)
Definition canon_float (b : Z) : Z :=
  if f_mag b =? 0 then 0 else if f_is_nan b then NAN_BITS else b.

Lemma land_low n : 2 ^ 63 ≤ n < 2 ^ 64 → Z.land n (Z.lxor (2 ^ 63) (2 ^ 64 - 1)) = n - 2 ^ 63.
Proof.
  intros Hn. change (Z.lxor (2 ^ 63) (2 ^ 64 - 1)) with (Z.ones 63).
  rewrite Z.land_ones by lia. symmetry. apply (Z.mod_unique_pos _ _ 1); lia.
Qed.

Lemma dec_enc_f64 b : is_f64 b → dec_f64 (normalize_float_bits b) = canon_float b.
Proof.
  intros Hb. rewrite normalize_cases by done. destruct (f_split b Hb) as [Hm Hs]. unfold dec_f64, canon_float.
  destruct (f_mag b =? 0) eqn:H0; [by vm_compute|]. destruct (f_is_nan b) eqn:Hn; [by vm_compute|].
  rewrite Z.shiftr_div_pow2 by lia. destruct (f_sign b).
  - rewrite Z.div_small by lia. cbn [Z.eqb]. rewrite (lxor_ones 64) by lia. lia.
  - rewrite (proj2 (Z.eqb_eq ((2 ^ 63 + f_mag b) / 2 ^ 63) 1)).
    + rewrite land_low by lia. lia.
    + symmetry. apply (Z.div_unique_pos _ _ _ (f_mag b)); lia.
Qed.

Lemma f64_at {B} (f : Z → B) msg b : is_f64 b →
  decodes (λ buf pos, '(n, p) ← take8 msg buf pos; Ok (f (dec_f64 n), p)) (enc_f64 b) (f (canon_float b)).
Proof.
  intros Hb pre rest Hr. unfold enc_f64. rewrite take8_at by (done || by apply normalize_uint). cbn.
  by rewrite dec_enc_f64.
Qed.

Lemma bool_at msg (x : bool) : decodes (decode_bool msg) [if x then 1 else 0] (Bool x).
Proof.
  intros pre rest _. unfold decode_bool. cbn [app length]. rewrite get_byte_at.
  destruct x; cbn; (f_equal; f_equal; lia).
Qed.

(** * Escaped payloads *)

Lemma decode_bytes_loop_at s : ∀ fuel pre rest out, Forall is_byte s → tail_ok rest →
  (length (encode_bytes s) ≤ fuel)%nat →
  decode_bytes_loop fuel (pre ++ encode_bytes s ++ rest) (length pre) out =
    Ok (out ++ s, (length pre + length (encode_bytes s))%nat).
Proof.
  induction s as [|b s IH]; intros fuel pre rest out Hs Hr Hf;
    (destruct fuel as [|fuel]; [cbn in Hf; lia|]); cbn [decode_bytes_loop encode_bytes app].
  { rewrite get_byte_at. cbn. rewrite bool_decide_false.
    - rewrite app_nil_r. f_equal. f_equal. lia.
    - rewrite (lookup_app_r pre) by lia. replace (S (length pre) - length pre)%nat with 1%nat by lia. cbn.
      destruct rest as [|c rest]; [done|]. cbn in *. unfold ESCAPE. intros [= ->]. lia. }
  apply Forall_cons in Hs as [Hb Hs]. rewrite get_byte_at. cbn [mbind res_mbind].
  destruct (Z.eqb_spec b 0) as [->|Hne].
  - cbn [negb]. rewrite bool_decide_true.
    + pose proof (IH fuel (pre ++ [0; ESCAPE]) rest (out ++ [0]) Hs Hr) as IH'.
      rewrite length_app in IH'. cbn [length] in IH'. rewrite <- !app_assoc in IH'. cbn [app] in *.
      replace (length pre + 2)%nat with (S (S (length pre))) in IH' by lia.
      rewrite IH' by (cbn in Hf; lia). f_equal. f_equal. cbn [length]. lia.
    + rewrite (lookup_app_r pre) by lia. by replace (S (length pre) - length pre)%nat with 1%nat by lia.
  - cbn [negb app]. pose proof (IH fuel (pre ++ [b]) rest (out ++ [b]) Hs Hr) as IH'.
    rewrite length_app in IH'. cbn [length] in IH'. rewrite <- !app_assoc in IH'. cbn [app] in *.
    replace (length pre + 1)%nat with (S (length pre)) in IH' by lia.
    rewrite IH' by (cbn in Hf; rewrite (proj2 (Z.eqb_neq b 0)) in Hf by done; cbn in Hf; lia). f_equal. f_equal. cbn [length]. lia.
Qed.

Lemma bytes_at s : Forall is_byte s → decodes decode_bytes (encode_bytes s) s.
Proof.
  intros Hs pre rest Hr. unfold decode_bytes. rewrite decode_bytes_loop_at by
    (done || (rewrite !length_app; lia)). done.
Qed.

Lemma text_at msg s : Forall is_byte s → utf8_valid s = true →
  decodes (λ buf pos, '(b, p) ← decode_bytes buf pos; t ← from_utf8 msg b; Ok (Text t, p)) (encode_bytes s) (Text s).
Proof. intros Hs Hu pre rest Hr. rewrite bytes_at by done. cbn. unfold from_utf8. by rewrite Hu. Qed.

(** * Decimals *)

Definition sign_byte (neg : bool) (d : Z) : Z := if neg then complement d else d.
Definition sign_term (neg : bool) : Z := if neg then 255 else 0.

Lemma complement_twice b : is_byte b → complement (complement b) = b.
Proof. intros Hb. rewrite !complement_byte; unfold is_byte in *; rewrite ?complement_byte by done; lia. Qed.

Lemma sign_byte_digit neg d : 48 ≤ d ≤ 57 →
  sign_byte neg d ≠ sign_term neg ∧ (if neg then complement (sign_byte neg d) else sign_byte neg d) = d.
Proof.
  intros Hd. unfold sign_byte, sign_term. destruct neg; [|lia].
  rewrite complement_twice by (unfold is_byte; lia). rewrite complement_byte by (unfold is_byte; lia). lia.
Qed.

Lemma decode_digits_at neg sig : ∀ fuel pre rest acc, digits sig →
  Z.of_nat (length acc + length sig) ≤ NUMERIC_MAX_WEIGHT → (length sig < fuel)%nat →
  decode_digits fuel neg (pre ++ map (sign_byte neg) sig ++ sign_term neg :: rest) (length pre) acc =
    Ok (acc ++ sig, (length pre + S (length sig))%nat).
Proof.
  induction sig as [|d sig IH]; intros fuel pre rest acc Hd Hl Hf;
    (destruct fuel as [|fuel]; [cbn in Hf; lia|]); cbn [decode_digits map app].
  { rewrite get_byte_at. cbn [mbind res_mbind]. fold (sign_term neg). rewrite Z.eqb_refl, app_nil_r.
    cbn [length]. f_equal. f_equal. lia. }
  apply Forall_cons in Hd as [Hd Hs]. rewrite get_byte_at. cbn [mbind res_mbind]. fold (sign_term neg).
  destruct (sign_byte_digit neg d Hd) as [Hne Heq]. rewrite (proj2 (Z.eqb_neq _ _) Hne), Heq.
  rewrite (proj2 (between_true 48 57 d) Hd : is_digit d = true). cbn [negb].
  rewrite length_app. cbn [length] in *.
  rewrite (proj2 (Z.ltb_ge NUMERIC_MAX_WEIGHT _)) by lia.
  pose proof (IH fuel (pre ++ [sign_byte neg d]) rest (acc ++ [d]) Hs) as IH'.
  rewrite !length_app in IH'. cbn [length] in IH'. rewrite <- !app_assoc in IH'. cbn [app] in IH'.
  replace (length pre + 1)%nat with (S (length pre)) in IH' by lia.
  rewrite IH' by lia. f_equal. f_equal. lia.
Qed.

(** The point falls back where it was. *)
Lemma place_point_sci I F : significant I F → is_zero I F = false →
  place_point (sci_exp I F) (sci_sig I F) = shown I ++ (if bool_decide (F = []) then [] else DOT :: F).
Proof.
  intros HS Hz. unfold place_point, shown. destruct (decide (I = [])) as [->|HI].
  - destruct (sci_frac F HS) as (z&Hz'&He&_). rewrite bool_decide_true by done.
    rewrite He. rewrite (proj2 (Z.leb_le (- Z.of_nat z) 0)) by lia.
    replace (Z.to_nat (- - Z.of_nat z)) with z by lia. change ZERO with 48. rewrite <- Hz'.
    rewrite bool_decide_false; [done|]. intros ->. discriminate Hz.
  - destruct (sci_int I F HS HI) as [-> ->]. rewrite (bool_decide_false (I = [])) by done.
    assert (0 < length I)%nat by (destruct I; [done|cbn; lia]).
    rewrite (proj2 (Z.leb_gt (Z.of_nat (length I)) 0)) by lia. rewrite Nat2Z.id.
    case_bool_decide as HF.
    + subst F. rewrite !app_nil_r. destruct (trim_end_matches_spec 48 I) as (k&Hk&_).
      assert (length I = length (trim_end_matches 48 I) + k)%nat as Hlen.
      { rewrite Hk at 1. by rewrite length_app, length_replicate. }
      rewrite (proj2 (Z.leb_le _ _)) by lia.
      replace (length I - length (trim_end_matches 48 I))%nat with k by lia. done.
    + rewrite trim_end_id.
      * rewrite (proj2 (Z.leb_gt _ _)); [|rewrite length_app; destruct F; [done|cbn [length]; lia]].
        rewrite take_app_length, drop_app_length. done.
      * unfold no_trailing. rewrite last_app. pose proof (sg_trail _ _ HS) as Ht. unfold no_trailing in Ht.
        destruct (last F) eqn:E; [done|]. by apply last_None in E.
Qed.

(** A decimal whose key can be read back: as many digits as the decoder's
    bound allows. *)
Inductive readable : bytes → Prop :=
| rd_nan : readable (ch "NaN")
| rd_inf : readable (ch "Infinity")
| rd_neg_inf : readable (ch "-Infinity")
| rd_plain neg ip fp :
    digits ip → ip ≠ [] → digits fp →
    Z.of_nat (length ip + length fp) ≤ NUMERIC_MAX_WEIGHT → Z.of_nat (length fp) ≤ NUMERIC_MAX_SCALE →
    readable (spell neg ip fp).

Lemma readable_decimal a : readable a → decimal a.
Proof. intros []; constructor; try done; unfold NUMERIC_MAX_WEIGHT in *; lia. Qed.

Lemma length_sci I F : (length (sci_sig I F) ≤ S (length I + length F))%nat ∧
  Z.of_nat (length (sci_sig I F)) - sci_exp I F ≤ Z.of_nat (length F) ∧
  sci_exp I F ≤ Z.of_nat (S (length I)) ∧ (I ≠ [] → (length (sci_sig I F) ≤ length I + length F)%nat).
Proof.
  unfold sci_sig, sci_exp.
  destruct (trim_end_matches_spec 48 (trim_start_matches 48 (sci_digits I F))) as (k&Hk&_).
  destruct (trim_start_matches_spec 48 (sci_digits I F)) as (j&Hj&_).
  apply (f_equal length) in Hk, Hj. rewrite length_app, length_replicate in Hk, Hj.
  assert (length (sci_digits I F) = length (if bool_decide (I = []) then [48%Z] else I) + length F)%nat as Hd
    by (unfold sci_digits; by rewrite length_app).
  assert (I = [] ∧ length (if bool_decide (I = []) then [48%Z] else I) = 1%nat ∨
    length (if bool_decide (I = []) then [48%Z] else I) = length I) as HJ
    by (case_bool_decide; auto).
  destruct HJ as [[-> HJ]|HJ]; [change (length (@nil Z)) with 0%nat in *|];
    (split_and!; [lia..|]; intros HI); [done|lia].
Qed.

Lemma length_sci_zero F : significant [] F → (length (sci_sig [] F) ≤ length F)%nat ∧ sci_exp [] F ≤ 0.
Proof.
  intros HS. destruct (sci_frac F HS) as (z&Hz&->&_). split; [|lia].
  apply (f_equal length) in Hz. rewrite length_app in Hz. lia.
Qed.

Lemma sig_bounds I F : significant I F →
  (length (sci_sig I F) ≤ length I + length F)%nat ∧ sci_exp I F ≤ Z.of_nat (length I) ∧
  Z.of_nat (length (sci_sig I F)) - sci_exp I F ≤ Z.of_nat (length F).
Proof.
  intros HS. destruct (length_sci I F) as (_&Hb&_&Hc). destruct (decide (I = [])) as [->|HI].
  - destruct (length_sci_zero F HS). cbn [length]. lia.
  - destruct (sci_int I F HS HI) as [-> _]. specialize (Hc HI). lia.
Qed.

(** The exponent field, with its sign applied. *)
Lemma exponent_at neg e pre rest : - 2 ^ 31 ≤ e < 2 ^ 31 →
  let raw := map (sign_byte neg) (be_encode 4 (e + 2 ^ 31)) in
  get_range (length pre) (length pre + 4) (pre ++ raw ++ rest) = Some raw ∧
  to_sint 32 (Z.lxor (be_decode (if neg then map complement raw else raw)) (2 ^ 31)) = e.
Proof.
  intros He raw. split.
  - pose proof (get_range_at pre raw rest) as Hg. unfold raw in Hg at 1.
    by rewrite length_map, length_be_encode in Hg.
  - assert ((if neg then map complement raw else raw) = be_encode 4 (e + 2 ^ 31)) as ->.
    { unfold raw, sign_byte. destruct neg; [|by rewrite map_id]. rewrite map_map.
      rewrite <- (map_id (be_encode 4 _)) at 2. apply map_ext_Forall.
      eapply Forall_impl; [apply be_encode_bytes|]. apply complement_twice. }
    rewrite be_decode_encode_id by (change (8 * Z.of_nat 4) with 32; lia).
    assert (is_sint 32 e) as Hs by done.
    pose proof (flip_sint 32 e ltac:(lia) Hs) as Hf. change (32 - 1) with 31 in Hf. rewrite <- Hf.
    rewrite Z.lxor_assoc, Z.lxor_nilpotent, Z.lxor_0_r. by apply to_sint_to_uint.
Qed.

Lemma decimal_at neg I F : significant I F → is_zero I F = false →
  Z.of_nat (length I + length F) ≤ NUMERIC_MAX_WEIGHT → Z.of_nat (length F) ≤ NUMERIC_MAX_SCALE →
  decodes (decode_decimal neg)
    (map (sign_byte neg) (be_encode 4 (sci_exp I F + 2 ^ 31)) ++
     map (sign_byte neg) (sci_sig I F) ++ [sign_term neg])
    (spell neg (shown I) F).
Proof.
  intros HS Hz Hw Hsc pre rest _. destruct (sig_bounds I F HS) as (B1&B2&B3).
  assert (- 2 ^ 31 ≤ sci_exp I F < 2 ^ 31) as He
    by (apply sci_exp_bound; unfold NUMERIC_MAX_WEIGHT in *; lia).
  rewrite <- !app_assoc. cbn [app]. unfold decode_decimal.
  destruct (exponent_at neg (sci_exp I F) pre (map (sign_byte neg) (sci_sig I F) ++ sign_term neg :: rest) He)
    as [Hg Hexp].
  rewrite Hg. cbn [res_of_option mbind res_mbind]. rewrite Hexp.
  set (raw := map (sign_byte neg) (be_encode 4 _)).
  assert (length raw = 4%nat) as Hraw by (unfold raw; by rewrite length_map, length_be_encode).
  rewrite app_assoc. replace (length pre + 4)%nat with (length (pre ++ raw)) by (rewrite length_app; lia).
  rewrite decode_digits_at; [|apply sci_sig_digits; done|cbn [length]; lia|
    rewrite !length_app, length_map; cbn [length]; lia].
  cbn [mbind res_mbind app]. rewrite bool_decide_false by (intros Hn; apply sci_sig_nil in Hn; congruence).
  rewrite (proj2 (Z.ltb_ge NUMERIC_MAX_WEIGHT _)), (proj2 (Z.ltb_ge NUMERIC_MAX_SCALE _)) by lia.
  cbn [orb]. rewrite place_point_sci by done. rewrite !length_app, length_map. cbn [length].
  unfold spell. destruct neg; cbn [app]; (f_equal; f_equal; lia).
Qed.

Lemma parts_at neg I F : significant I F →
  Z.of_nat (length I + length F) ≤ NUMERIC_MAX_WEIGHT → Z.of_nat (length F) ≤ NUMERIC_MAX_SCALE →
  decodes decode_numeric (encode_parts (neg && negb (is_zero I F)) I F)
    (spell (neg && negb (is_zero I F)) (shown I) F).
Proof.
  intros HS Hw Hsc. unfold encode_parts. destruct (is_zero I F) eqn:Hz.
  - rewrite andb_false_r, bool_decide_true by by apply sci_sig_zero.
    apply is_zero_nil in Hz as [-> ->]. by apply decodes_tag; intros pre rest _; rewrite Nat.add_0_r.
  - rewrite andb_true_r, bool_decide_false by (intros Hn; apply sci_sig_nil in Hn; congruence).
    pose proof (decimal_at neg I F HS Hz Hw Hsc) as Hd. destruct neg.
    + by apply decodes_tag.
    + apply decodes_tag. unfold sign_byte in Hd. by rewrite !map_id in Hd.
Qed.

Lemma canonical_special c : In c [ch "NaN"; ch "Infinity"; ch "-Infinity"] → canonical_numeric c = c.
Proof. intros [<-|[<-|[<-|[]]]]; vm_compute; reflexivity. Qed.

(** What follows a class byte that stands alone. *)
Lemma special_at c k : In c [ch "NaN"; ch "Infinity"; ch "-Infinity"] → encode_numeric c = [k] →
  (∀ pre rest, decode_numeric (pre ++ k :: rest) (length pre) = Ok (c, S (length pre))) →
  decodes decode_numeric (encode_numeric c) (canonical_numeric c).
Proof.
  intros Hc -> Hd pre rest _. rewrite canonical_special by done. cbn [app]. rewrite Hd.
  cbn [length]. f_equal. f_equal. lia.
Qed.

(** A decimal's key gives its canonical spelling back. *)
Lemma numeric_at a : readable a → decodes decode_numeric (encode_numeric a) (canonical_numeric a).
Proof.
  intros [| | |neg ip fp Hi Hn Hf Hw Hsc].
  - apply (special_at _ DEC_NAN); [by left|vm_compute; reflexivity|].
    intros pre rest. unfold decode_numeric. by rewrite get_byte_at.
  - apply (special_at _ DEC_POS_INF); [by right; left|vm_compute; reflexivity|].
    intros pre rest. unfold decode_numeric. by rewrite get_byte_at.
  - apply (special_at _ DEC_NEG_INF); [by right; right; left|vm_compute; reflexivity|].
    intros pre rest. unfold decode_numeric. by rewrite get_byte_at.
  - pose proof (length_whole ip). pose proof (length_part fp).
    rewrite canonical_spell, encode_spell by (done || unfold NUMERIC_MAX_WEIGHT, NUMERIC_MAX_SCALE in *; lia).
    apply parts_at; [by apply whole_part|lia..].
Qed.

(** * Values *)

(** The number a key of the storage-class encoding reads back as: an integral
    double comes back as the integer. *)
Definition canon_number (v : Value) : Value :=
  match v with
  | Float b =>
      if f_is_nan b then Float NAN_BITS
      else if bool_decide (- 2 ^ 63 * ONE ≤ f_val b < 2 ^ 63 * ONE) && bool_decide (f_val b = f_floor b * ONE)
      then Int (f_floor b)
      else Float b
  | _ => v
  end.

(** What a column's key keeps of a value. *)
Definition canon (c : column) (v : Value) : Value :=
  match v with
  | Text s => Text (fold_key c.2 s)
  | Float b => if bool_decide (c.1 = TAny) then canon_number v else Float (canon_float b)
  | Int _ => v
  | Numeric s => Numeric (canonical_numeric s)
  | _ => v
  end.

(** The values whose keys can be read back. The storage-class decoder knows
    the classes up to [CLASS_TS]. *)
Definition column_readable (c : column) (v : Value) : Prop :=
  column_ok c v ∧ (c.1 = TAny → class_of v ≤ CLASS_TS) ∧ match v with Numeric s => readable s | _ => True end.

Lemma fold_key_idem coll s : fold_key coll (fold_key coll s) = fold_key coll s.
Proof.
  destruct coll; cbn [fold_key]; [done| |].
  - unfold to_ascii_lowercase. rewrite map_map. apply map_ext. intros b. unfold ascii_lower.
    destruct (between 65 90 b) eqn:E; [|by rewrite E]. apply between_true in E.
    by rewrite (proj2 (between_false 65 90 (b + 32))) by lia.
  - destruct (trim_end_matches_spec 32 s) as (_&_&Hl). unfold trim_end_matches in *.
    rewrite reverse_involutive. f_equal. rewrite last_reverse in Hl.
    destruct (trim_start_matches 32 (reverse s)) as [|b t]; [done|]. cbn in *.
    by rewrite (proj2 (Z.eqb_neq b 32)) by congruence.
Qed.

Lemma utf8_fold coll s : utf8_valid s = true → utf8_valid (fold_key coll s) = true.
Proof.
  intros Hs. destruct coll; cbn [fold_key]; [done|by rewrite utf8_lowercase|by rewrite utf8_trim_end by lia].
Qed.

(** ** The typed encoding *)

Lemma typed_at ty coll v p : ty ≠ TAny → column_type v = Some ty → column_readable (ty, coll) v →
  encode_value_collated v coll = Ok p → decodes (λ buf pos, decode_value buf pos ty) p (canon (ty, coll) v).
Proof.
  intros Hty Hv [[_ Hs] [_ Hr]]. unfold decode_value. rewrite (bool_decide_false (ty = TAny)) by done.
  destruct v; cbn [column_type] in Hv; try discriminate Hv; injection Hv as <-; cbn [storable canon fst snd] in *;
    rewrite ?encode_value_collated_text; cbn [encode_value_collated encode_value]; intros [= <-];
    apply decodes_tag; cbn [Z.eqb TAG_NULL TAG_PRESENT Pos.eqb negb].
  - by apply i64_at.
  - by apply f64_at.
  - apply bool_at.
  - apply text_at; [apply fold_key_bytes, Hs|apply utf8_fold, Hs].
  - apply (decodes_map Blob), bytes_at, Hs.
  - by apply i64_at.
  - by apply i64_at.
  - by apply i64_at.
  - apply (decodes_map Numeric), numeric_at, Hr.
Qed.

(** ** The storage-class encoding *)

Lemma canon_float_id b : is_f64 b → f_is_nan b = false → f_val b ≠ 0 → canon_float b = b.
Proof.
  intros Hb Hn Hv. unfold canon_float. rewrite Hn. destruct (Z.eqb_spec (f_mag b) 0) as [H0|]; [|done].
  exfalso. apply Hv. unfold f_val. rewrite H0. by destruct (f_sign b).
Qed.

(** Whether a value is an integer an [i64] holds. *)
Lemma canon_number_exact V f : is_sint 64 f → V = f * ONE →
  - 2 ^ 63 * ONE ≤ V < 2 ^ 63 * ONE ∧ V / ONE = f.
Proof.
  intros [Hl Hh] ->. change (64 - 1) with 63 in *. pose proof ONE_pos. split; [nia|]. by rewrite Z.div_mul by lia.
Qed.

Lemma canon_number_inexact V f s : numcode V f s → s ≠ NUM_EXACT → is_sint 64 f →
  ¬ (- 2 ^ 63 * ONE ≤ V < 2 ^ 63 * ONE ∧ V = (V / ONE) * ONE).
Proof.
  intros Hc%numcode_inv Hs [Hl Hh] [Hr Hi]. change (64 - 1) with 63 in *. pose proof ONE_pos as H1.
  assert (2 ^ 63 * ONE < NAN_VAL) as Hbig by by vm_compute. unfold I64_MIN, I64_MAX, NUM_EXACT in *.
  set (k := V / ONE) in *. clearbody k. set (O := ONE) in *. clearbody O. set (N := NAN_VAL) in *. clearbody N.
  assert (- 2 ^ 63 ≤ k < 2 ^ 63) by nia.
  assert (∀ a, a * O < V → a < k) as Hgt by (intros; nia). assert (∀ a, V < a * O → k < a) as Hlt by (intros; nia).
  destruct Hc as [(?&->&?%Hlt)|[(?&?)|[(?&[?%Hgt _]&[->|?%Hlt])|(?&?&?)]]]; lia.
Qed.

Lemma number_at msg v p : is_number v → encode_number v = Ok p →
  decodes (decode_number msg) p (canon_number v).
Proof.
  intros Hv Hp. destruct (encode_number_code v Hv) as (f&s&He&Hf&Hc&Hs).
  assert (p = enc_i64 f ++ s :: num_payload v s) as -> by congruence.
  apply (decodes_bind (take8 msg) _ _ _ (Z.lxor (to_uint 64 f) (2 ^ 63))).
  { intros pre rest. pose proof (get_range_at pre (enc_i64 f) ((s :: num_payload v s) ++ rest)) as Hg.
    rewrite length_enc_i64 in Hg. unfold take8. rewrite Hg, length_enc_i64. cbn [res_of_option mbind res_mbind].
    unfold enc_i64. rewrite be_decode_encode_id by by apply flip_uint. done. }
  cbn beta zeta. rewrite dec_enc_i64 by done. apply decodes_tag. destruct (Z.eqb_spec s NUM_EXACT) as [->|Hne].
  - assert (num_val v = f * ONE) as HV by (apply numcode_inv in Hc; unfold NUM_EXACT in Hc; lia).
    assert (canon_number v = Int f ∧ num_payload v NUM_EXACT = []) as [-> ->].
    { destruct Hv as [(i&->&_)|(b&->&Hb)]; cbn [num_val canon_number num_payload] in *.
      - pose proof ONE_pos. split; [|done]. f_equal. nia.
      - split; [|done]. unfold fv in HV. destruct (f_is_nan b).
        + destruct Hf as [_ Hh]. change (64 - 1) with 63 in Hh.
          assert (2 ^ 63 * ONE < NAN_VAL) by by vm_compute. pose proof ONE_pos. nia.
        + unfold f_floor. destruct (canon_number_exact (f_val b) f) as [Hr ->]; [done..|].
          by rewrite !bool_decide_true by done. }
    intros pre rest _. by rewrite Nat.add_0_r.
  - destruct Hs as [?|[b ->]]; [done|]. destruct Hv as [(?&?&_)|(?&[= <-]&Hb)]; [done|].
    cbn [num_payload]. rewrite (proj2 (Z.eqb_neq s NUM_EXACT)) by done.
    rewrite (proj2 (orb_true_iff _ _)); [|apply numcode_inv in Hc; unfold NUM_EXACT, NUM_BELOW, NUM_ABOVE, NUM_NAN in *;
      rewrite orb_true_iff, !Z.eqb_eq; lia].
    assert (canon_number (Float b) = Float (canon_float b)) as ->; [|by apply f64_at].
    cbn [canon_number num_val] in *. unfold fv in Hc. destruct (f_is_nan b) eqn:Hn.
    + unfold canon_float. rewrite Hn. apply f_is_nan_spec in Hn.
      by rewrite (proj2 (Z.eqb_neq (f_mag b) 0)) by (unfold INF_BITS in *; lia).
    + pose proof (canon_number_inexact _ _ _ Hc Hne Hf) as Hin. fold (f_floor b) in Hin.
      rewrite <- bool_decide_and, bool_decide_false by done. rewrite canon_float_id; [done..|].
      intros H0. apply Hin. unfold f_floor. rewrite H0. pose proof ONE_pos. rewrite Z.div_0_l by lia. lia.
Qed.

Lemma group_at coll v p : column_readable (TAny, coll) v → encode_group_value v coll = Ok p →
  decodes decode_group_value p (canon (TAny, coll) v).
Proof.
  intros [[_ Hs] [Hc Hr]]. specialize (Hc eq_refl). unfold decode_group_value.
  destruct (decide (class_of v = CLASS_NUM)) as [Hn|Hn].
  - apply storable_number in Hn; [|done]. intros Hp. assert (∃ q, encode_number v = Ok q ∧ p = CLASS_NUM :: q) as (q&Hq&->).
    { destruct Hn as [(?&->&_)|(?&->&_)]; cbn [encode_group_value] in Hp; apply bind_Ok in Hp as (q&Hq&[= <-]); by exists q. }
    apply decodes_tag. cbn [Z.eqb CLASS_NUM CLASS_NULL Pos.eqb].
    replace (canon (TAny, coll) v) with (canon_number v); [by apply number_at|].
    destruct Hn as [(?&->&_)|(?&->&_)]; [done|]. cbn [canon fst]. by rewrite bool_decide_true by done.
  - destruct v; try done; cbn [storable canon fst snd encode_group_value] in *; intros [= <-];
      apply decodes_tag; cbn [Z.eqb CLASS_NUM CLASS_NULL CLASS_TEXT CLASS_BLOB CLASS_BOOL CLASS_TS Pos.eqb].
    + intros pre rest _. by rewrite Nat.add_0_r.
    + apply bool_at.
    + apply text_at; [apply fold_key_bytes, Hs|apply utf8_fold, Hs].
    + apply (decodes_map Blob), bytes_at, Hs.
    + by apply i64_at.
Qed.

(** ** One column *)

Lemma column_at c v p : column_readable c v → encode_value_spec v (column_spec c) = Ok p →
  decodes (λ buf pos, decode_value buf pos c.1) p (canon c v).
Proof.
  intros Hr Hp. destruct c as [ty coll]. unfold encode_value_spec, column_spec, for_column in Hp.
  cbn [Keycode.class Keycode.coll fst snd] in *.
  destruct (bool_decide_reflect (ty = TAny)) as [->|Hty].
  - unfold decode_value. rewrite bool_decide_true by done. by apply group_at.
  - destruct (is_null v) eqn:Hn.
    + destruct v; try discriminate Hn. cbn in Hp. injection Hp as <-. unfold decode_value. rewrite bool_decide_false by done.
      apply decodes_tag. intros pre rest _. by rewrite Nat.add_0_r.
    + apply (typed_at ty coll); [done| |done|done]. destruct Hr as [[Hf Hs] _]. unfold fits in Hf.
      rewrite bool_decide_false in Hf by done. destruct v; try done; cbn in Hf |- *; by apply bool_decide_eq_true in Hf as ->.
Qed.

(** The canonical value has the same key. *)
Lemma normalize_canon b : is_f64 b → is_f64 (canon_float b) ∧ normalize_float_bits (canon_float b) = normalize_float_bits b.
Proof.
  intros Hb. unfold canon_float. destruct (Z.eqb_spec (f_mag b) 0) as [H0|H0].
  { split; [by vm_compute|]. rewrite (normalize_cases b), (proj2 (Z.eqb_eq (f_mag b) 0)) by done. by vm_compute. }
  destruct (f_is_nan b) eqn:Hn; [|done]. split; [by vm_compute|].
  rewrite (normalize_cases b), Hn, (proj2 (Z.eqb_neq (f_mag b) 0)) by done. by vm_compute.
Qed.

Lemma whole_shown I F : significant I F → whole (shown I) = I.
Proof.
  intros [_ _ Hl _]. unfold shown, whole. case_bool_decide as HI; [by subst|]. by apply trim_start_id.
Qed.

Lemma part_id F : no_trailing F → part F = F.
Proof. apply trim_end_id. Qed.

Lemma encode_canonical a : readable a → encode_numeric (canonical_numeric a) = encode_numeric a.
Proof.
  intros [| | |neg ip fp Hi Hn Hf Hw Hsc]; [by rewrite canonical_special by (simpl; auto)..|].
  pose proof (length_whole ip). pose proof (length_part fp). unfold NUMERIC_MAX_WEIGHT, NUMERIC_MAX_SCALE in *.
  assert (significant (whole ip) (part fp)) as HS by by apply whole_part.
  destruct (shown_digits (whole ip)) as [Hd Hne]; [apply HS|].
  rewrite canonical_spell, !encode_spell; try done; try lia; try apply HS.
  - rewrite (whole_shown _ (part fp)), (part_id (part fp)) by (done || apply HS).
    by destruct neg, (is_zero _ _).
  - unfold shown. case_bool_decide; cbn [length]; lia.
Qed.

Lemma encode_canon_number v p : is_number v → encode_number v = Ok p →
  is_number (canon_number v) ∧ num_val (canon_number v) = num_val v.
Proof.
  intros [(i&->&Hi)|(b&->&Hb)] _; [by split; [left; exists i|]|]. cbn [canon_number num_val]. unfold fv.
  destruct (f_is_nan b) eqn:Hn; [by split; [right; exists NAN_BITS|]|].
  rewrite <- bool_decide_and. case_bool_decide as Hx.
  - destruct Hx as [Hr Hx]. pose proof ONE_pos. split; [|by symmetry].
    left. exists (f_floor b). split; [done|]. change (- 2 ^ 63 ≤ f_floor b < 2 ^ 63). nia.
  - split; [right; by exists b|]. cbn [num_val]. unfold fv. by rewrite Hn.
Qed.

Lemma keyed_Eq e1 e2 : keyed Eq e1 e2 → e1 = e2.
Proof. intros Hk. specialize (Hk [] [] I I). rewrite !app_nil_r in Hk. by apply lex_cmp_eq. Qed.

Lemma column_canon c v : column_readable c v →
  encode_value_spec (canon c v) (column_spec c) = encode_value_spec v (column_spec c).
Proof.
  intros [[Hf Hs] [_ Hr]]. destruct c as [ty coll]. unfold encode_value_spec, column_spec, for_column.
  cbn [Keycode.class Keycode.coll fst snd] in *. destruct (bool_decide_reflect (ty = TAny)) as [->|Hty].
  - destruct (decide (class_of v = CLASS_NUM)) as [Hn|Hn].
    + apply storable_number in Hn; [|done]. assert (canon (TAny, coll) v = canon_number v) as ->.
      { destruct Hn as [(?&->&_)|(?&->&_)]; [done|]. cbn [canon fst]. by rewrite bool_decide_true. }
      destruct (keyed_number v v) as (p&_&Hp&_); [done..|].
      destruct (encode_canon_number v p) as [Hn' Hv']; [done..|].
      destruct (number_column coll (canon_number v) v) as (c&Hc&e1&e2&->&->&Hk&_); [done..|].
      assert (column_cmp coll (canon_number v) v = Some Eq) as Hc'.
      { destruct (number_cmp coll (canon_number v) v); try done.
        assert (column_cmp coll (canon_number v) v = sort_cmp (canon_number v) v coll) as ->
          by (destruct Hn as [(?&->&_)|(?&->&_)], Hn' as [(?&->&_)|(?&->&_)]; done).
        rewrite number_cmp by done. by rewrite Hv', Z.compare_refl. }
      assert (c = Eq) as -> by congruence. by rewrite (keyed_Eq e1 e2).
    + destruct v; try done; cbn [canon fst snd encode_group_value]; [by rewrite fold_key_idem|by rewrite encode_canonical].
  - destruct v; try done; cbn [canon fst snd].
    + rewrite bool_decide_false by done. cbn. unfold enc_f64. by rewrite (proj2 (normalize_canon bits Hs)).
    + rewrite !encode_value_collated_text. by rewrite fold_key_idem.
    + cbn. by rewrite encode_canonical.
Qed.

(** ** Rows *)

Lemma decode_columns_at cols vs : Forall2 column_readable cols vs →
  ∃ k, encode_key_spec vs (map column_spec cols) = Ok k ∧ tail_ok k ∧
    encode_key_spec (zip_with canon cols vs) (map column_spec cols) = Ok k ∧
    ∀ pre, decode_columns (pre ++ k) (length pre) (map fst cols) = Ok (zip_with canon cols vs, (length pre + length k)%nat).
Proof.
  unfold encode_key_spec. induction 1 as [|c v cols vs Hc _ (k&Hk&Ht&Hk'&Hd)].
  { exists []. split_and!; [done..|]. intros pre. cbn. by rewrite Nat.add_0_r. }
  destruct (column_encodes c v) as (e&He&Hte); [apply Hc|].
  exists (e ++ k). cbn [map zip_with]. rewrite !with_specs_cons. cbn [encode_all].
  rewrite column_canon, He, Hk, Hk' by done. split_and!; [done|by destruct e|done|].
  intros pre. cbn [decode_columns]. rewrite (column_at c v e) by done. cbn [mbind res_mbind].
  specialize (Hd (pre ++ e)). rewrite <- app_assoc, length_app in Hd. rewrite Hd.
  cbn [mbind res_mbind]. rewrite length_app, Nat.add_assoc. done.
Qed.

Lemma decode_key_at cols vs : Forall2 column_readable cols vs →
  ∃ k, encode_key_spec vs (map column_spec cols) = Ok k ∧
    decode_key k (map fst cols) = Ok (zip_with canon cols vs) ∧
    encode_key_spec (zip_with canon cols vs) (map column_spec cols) = Ok k.
Proof.
  intros H. destruct (decode_columns_at cols vs H) as (k&Hk&_&Hk'&Hd). exists k. split_and!; [done| |done].
  unfold decode_key. specialize (Hd []). cbn [app length] in Hd. rewrite Hd. cbn [mbind res_mbind].
  by rewrite bool_decide_true by done.
Qed.
