(* ===== verification/KeycodeHostile.v ===== *)
(** Decoding arbitrary bytes as a key: an error or a value of the column's
    type, never a panic, and never more digits than the limits allow. *)

From S2P Require Import Prelude Text Value FloatOrder Keycode KeycodeOrder NumericOrder ColumnOrder.
Local Open Scope Z_scope.

Lemma get_byte_yields e buf pos (Q : Z * nat → Prop) : Forall is_byte buf →
  (∀ b, (pos < length buf)%nat → is_byte b → Q (b, S pos)) → yields (get_byte e buf pos) Q.
Proof.
  intros Hb HQ. apply yields_bind, yields_option. intros b Hl. apply HQ.
  - by apply lookup_lt_Some in Hl.
  - by eapply Forall_lookup_1 in Hl.
Qed.

Lemma take8_yields e buf pos (Q : Z * nat → Prop) : Forall is_byte buf →
  (∀ z, is_uint 64 z → Q (z, (pos + 8)%nat)) → yields (take8 e buf pos) Q.
Proof.
  intros Hb HQ. apply yields_bind, yields_option. intros raw [Hr ->]%get_range_inv. apply HQ.
  pose proof (be_decode_bound (sub pos (pos + 8 - pos) buf)) as H. rewrite length_sub in H by lia.
  replace (pos + 8 - pos)%nat with 8%nat in * by lia. apply H. by apply Forall_sub.
Qed.

Lemma decode_bytes_yields buf pos (Q : bytes * nat → Prop) : Forall is_byte buf →
  (∀ s p, Forall is_byte s → Q (s, p)) → yields (decode_bytes buf pos) Q.
Proof.
  intros Hb HQ. unfold decode_bytes.
  assert (∀ fuel pos out, (length buf - pos < fuel)%nat → Forall is_byte out →
    yields (decode_bytes_loop fuel buf pos out) Q) as Hloop; [|apply Hloop; [lia|constructor]].
  clear pos. induction fuel as [|fuel IH]; intros pos out Hf Ho; [lia|]. cbn [decode_bytes_loop].
  apply yields_bind, get_byte_yields; [done|]. intros b Hlt Hbb. destruct (b =? 0); cbn [negb].
  - case_bool_decide; [|by apply HQ]. apply IH; [lia|]. apply Forall_app. by rewrite Forall_singleton.
  - apply IH; [lia|]. apply Forall_app. by rewrite Forall_singleton.
Qed.

Lemma from_utf8_yields e b (Q : bytes → Prop) : (utf8_valid b = true → Q b) → yields (from_utf8 e b) Q.
Proof. unfold from_utf8. case_match; cbn; auto. Qed.

(** A decimal of at most [n] characters. *)
Lemma decode_digits_yields neg buf pos (Q : bytes * nat → Prop) : Forall is_byte buf →
  (∀ sig p, digits sig → Z.of_nat (length sig) ≤ NUMERIC_MAX_WEIGHT → Q (sig, p)) →
  yields (decode_digits (S (length buf - pos)) neg buf pos []) Q.
Proof.
  intros Hb HQ.
  assert (∀ fuel pos sig, (length buf - pos < fuel)%nat → digits sig → Z.of_nat (length sig) ≤ NUMERIC_MAX_WEIGHT →
    yields (decode_digits fuel neg buf pos sig) Q) as Hloop; [|apply Hloop; [lia|constructor|done]].
  clear pos. induction fuel as [|fuel IH]; intros pos sig Hf Hs Hl; [lia|]. cbn [decode_digits].
  apply yields_bind, get_byte_yields; [done|]. intros b Hlt _. case_match; [by apply HQ|].
  destruct (is_digit (if neg then complement b else b)) eqn:Hd; cbn [negb]; [|done].
  destruct (Z.ltb_spec NUMERIC_MAX_WEIGHT (Z.of_nat (length (sig ++ [if neg then complement b else b])))); [done|].
  apply IH; [lia| |done]. apply Forall_app. split; [done|]. apply Forall_singleton. by apply between_true in Hd.
Qed.

Definition MAX_NUMERIC_CHARS : Z := NUMERIC_MAX_WEIGHT + NUMERIC_MAX_SCALE + 3.

Lemma length_place_point exp sig : exp ≤ NUMERIC_MAX_WEIGHT → Z.of_nat (length sig) - exp ≤ NUMERIC_MAX_SCALE →
  Z.of_nat (length (place_point exp sig)) ≤ NUMERIC_MAX_WEIGHT + NUMERIC_MAX_SCALE + 2.
Proof.
  intros He Hs. unfold place_point, NUMERIC_MAX_WEIGHT, NUMERIC_MAX_SCALE in *.
  destruct (Z.leb_spec exp 0); [|destruct (Z.leb_spec (Z.of_nat (length sig)) exp)];
    repeat (rewrite ?length_app, ?length_replicate, ?length_take, ?length_drop; cbn [app length]); lia.
Qed.

Lemma decode_decimal_yields neg buf pos (Q : bytes * nat → Prop) : Forall is_byte buf →
  (∀ s p, Z.of_nat (length s) ≤ MAX_NUMERIC_CHARS → Q (s, p)) → yields (decode_decimal neg buf pos) Q.
Proof.
  intros Hb HQ. apply yields_bind, yields_option. intros raw _. apply yields_bind, decode_digits_yields; [done|].
  intros sig p Hd Hl. set (exp := to_sint 32 _). clearbody exp. destruct (bool_decide (sig = [])); [done|].
  destruct (Z.ltb_spec NUMERIC_MAX_WEIGHT exp) as [|He]; [done|].
  destruct (Z.ltb_spec NUMERIC_MAX_SCALE (Z.of_nat (length sig) - exp)) as [|Hsc]; [done|].
  apply HQ. pose proof (length_place_point _ sig He Hsc). unfold MAX_NUMERIC_CHARS.
  destruct neg; cbn [length]; lia.
Qed.

Lemma decode_numeric_yields buf pos (Q : bytes * nat → Prop) : Forall is_byte buf →
  (∀ s p, utf8_valid s = true ∨ Z.of_nat (length s) ≤ MAX_NUMERIC_CHARS → Q (s, p)) →
  yields (decode_numeric buf pos) Q.
Proof.
  intros Hb HQ. apply yields_bind, get_byte_yields; [done|]. intros cls _ _.
  repeat (case_match; [apply HQ; by left; vm_compute|]).
  do 2 (case_match; [by apply decode_decimal_yields; auto|]). case_match; [|done].
  apply yields_bind, decode_bytes_yields; [done|]. intros s p _. apply yields_bind, from_utf8_yields.
  intros Hu. apply HQ. by left.
Qed.

Lemma decode_bool_yields e buf pos (Q : Value * nat → Prop) : Forall is_byte buf →
  (∀ x p, Q (Bool x, p)) → yields (decode_bool e buf pos) Q.
Proof. intros Hb HQ. apply yields_bind, get_byte_yields; [done|]. intros b _ _. repeat case_match; try done; apply HQ. Qed.

(** A value of the right type and width. *)
Definition well_typed (ty : ColumnType) (v : Value) : Prop :=
  fits v ty = true ∧ match v with Numeric _ => True | _ => storable v end.

Lemma dec_i64_sint u : is_sint 64 (dec_i64 u).
Proof.
  unfold dec_i64, to_sint, is_sint. change (64 - 1) with 63.
  pose proof (Z.mod_pos_bound (Z.lxor u (2 ^ 63)) (2 ^ 64) ltac:(lia)).
  change (2 ^ 64) with (2 * 2 ^ 63) in *. destruct (Z.ltb_spec (Z.lxor u (2 ^ 63) mod (2 * 2 ^ 63)) (2 ^ 63)); lia.
Qed.

Lemma dec_f64_uint n : is_uint 64 n → is_f64 (dec_f64 n).
Proof.
  intros [Hl Hh]. unfold dec_f64. rewrite Z.shiftr_div_pow2 by lia.
  destruct (Z.eqb_spec (n / 2 ^ 63) 1) as [He|He].
  - change (Z.lxor (2 ^ 63) (2 ^ 64 - 1)) with (Z.ones 63). rewrite Z.land_ones by lia.
    pose proof (Z.mod_pos_bound n (2 ^ 63) ltac:(lia)). split; lia.
  - rewrite (lxor_ones 64) by lia. split; lia.
Qed.

Lemma decode_group_yields buf pos (Q : Value * nat → Prop) : Forall is_byte buf →
  (∀ v p, well_typed TAny v → Q (v, p)) → yields (decode_group_value buf pos) Q.
Proof.
  intros Hb HQ. apply yields_bind, get_byte_yields; [done|]. intros cls _ _.
  case_match; [by apply HQ|]. case_match.
  { apply yields_bind, take8_yields; [done|]. intros u Hu. apply yields_bind, get_byte_yields; [done|]. intros sub _ _.
    case_match; [apply HQ; split; [done|apply dec_i64_sint]|]. case_match; [|done].
    apply yields_bind, take8_yields; [done|]. intros n Hn. apply HQ. split; [done|by apply dec_f64_uint]. }
  case_match.
  { apply yields_bind, decode_bytes_yields; [done|]. intros s p Hs. apply yields_bind, from_utf8_yields.
    intros Hu. by apply HQ. }
  case_match; [apply yields_bind, decode_bytes_yields; [done|]; intros s p Hs; by apply HQ|].
  case_match; [apply decode_bool_yields; [done|]; intros x p; by apply HQ|].
  case_match; [|done]. apply yields_bind, take8_yields; [done|]. intros u Hu.
  apply HQ. split; [done|apply dec_i64_sint].
Qed.

Lemma decode_value_yields buf pos ty (Q : Value * nat → Prop) : Forall is_byte buf →
  (∀ v p, well_typed ty v → Q (v, p)) → yields (decode_value buf pos ty) Q.
Proof.
  intros Hb HQ. unfold decode_value. case_bool_decide as Hty; [subst; by apply decode_group_yields|].
  apply yields_bind, get_byte_yields; [done|]. intros tag _ _.
  case_match; [apply HQ; split; [by destruct ty|done]|]. case_match; [done|].
  destruct ty; try done;
    try (apply yields_bind, take8_yields; [done|]; intros u Hu; apply HQ; split;
         [done|apply dec_i64_sint || by apply dec_f64_uint]).
  - apply decode_bool_yields; [done|]. intros x p. by apply HQ.
  - apply yields_bind, decode_bytes_yields; [done|]. intros s p Hs. cbn. apply yields_bind, from_utf8_yields.
    intros Hu. by apply HQ.
  - apply yields_bind, decode_bytes_yields; [done|]. intros s p Hs. by apply HQ.
  - apply yields_bind, decode_numeric_yields; [done|]. intros s p _. by apply HQ.
Qed.

Lemma decode_columns_yields buf types : Forall is_byte buf → ∀ pos,
  yields (decode_columns buf pos types) (λ r, Forall2 well_typed types r.1).
Proof.
  intros Hb. induction types as [|ty types IH]; intros pos; [by constructor|]. cbn [decode_columns].
  apply yields_bind, decode_value_yields; [done|]. intros v p Hv. apply yields_bind.
  eapply yields_mono; [apply IH|]. intros [vs p'] Hvs. by constructor.
Qed.

Lemma decode_key_yields buf types : Forall is_byte buf →
  yields (decode_key buf types) (Forall2 well_typed types).
Proof.
  intros Hb. apply yields_bind. eapply yields_mono; [by apply decode_columns_yields|].
  intros [vs p] Hvs. by case_match.
Qed.
