(* ===== verification/KeycodeTheorems.v ===== *)
(** What an index may rely on: the order, the equality, the decoding and the
    robustness of its keys. *)

From S2P Require Import Prelude Text Value FloatOrder Keycode KeycodeOrder NumericOrder ColumnOrder.
From S2P Require Import KeycodeDecode KeycodeHostile.
Local Open Scope Z_scope.

(** * A row and its columns *)

Definition sample_cols : list column :=
  [(Int64, Binary); (TText, NoCase); (TAny, Binary); (TNumeric, Binary); (Float64, Binary)].
Definition sample_row : list Value :=
  [Int (-7); Text (ch "Anna"); Float (4611686018427387904 + 2 ^ 51); Numeric (ch "-12.50"); Null].
Definition sample_row' : list Value :=
  [Int (-7); Text (ch "ANNA"); Int 4; Numeric (ch "3"); Float 0].

Lemma sample_decimal s a : parse_numeric s = Some a → decimal a.
Proof. apply parse_numeric_decimal. Qed.

Ltac storable_tac :=
  lazymatch goal with
  | |- storable (Numeric ?a) => apply (sample_decimal a); vm_compute; reflexivity
  | |- storable (Text _) => split; [repeat (constructor; [split; vm_compute; congruence|]); constructor|vm_compute; reflexivity]
  | |- storable (Blob _) => repeat (constructor; [split; vm_compute; congruence|]); constructor
  | |- _ => vm_compute; try (split; congruence); try exact I
  end.
Ltac row_tac := repeat (constructor; [split; [vm_compute; reflexivity|storable_tac]|]); try constructor.

Lemma sample_ok : Forall2 column_ok sample_cols sample_row ∧ Forall2 column_ok sample_cols sample_row'.
Proof. split; row_tac. Qed.

(** C24. The key of a row, as the single on-disk encoder builds it from each
    column's type and collation, compares byte by byte as the row compares
    column by column: NULL first, text under the column's collation, decimals
    by value, and in a typeless column integers and doubles by exact value
    (no rounding past 2^53). Rows whose columns all have a type always have
    an order, and encoding never fails. *)
Theorem index_key_order cols vs ws :
  Forall2 column_ok cols vs → Forall2 column_ok cols ws →
  (∀ c, key_cmp cols vs ws = Some c →
    ∃ kv kw, encode_key_spec vs (map column_spec cols) = Ok kv ∧
      encode_key_spec ws (map column_spec cols) = Ok kw ∧ lex_cmp kv kw = c) ∧
  (Forall (λ c : column, c.1 ≠ TAny) cols → is_Some (key_cmp cols vs ws)).
Proof.
  intros Hv Hw. split; [intros c; by apply row_keyed|intros Hc; by apply key_cmp_total].
Qed.

Lemma index_key_order_witness :
  ∃ kv kw, encode_key_spec sample_row (map column_spec sample_cols) = Ok kv ∧
    encode_key_spec sample_row' (map column_spec sample_cols) = Ok kw ∧ lex_cmp kv kw = Lt.
Proof.
  destruct sample_ok as [Hv Hw].
  apply (proj1 (index_key_order sample_cols sample_row sample_row' Hv Hw) Lt). vm_compute. reflexivity.
Defined.

(** Two values have the same grouping key exactly when the comparison
    calls them equal (NULL being one group): the key of GROUP BY, DISTINCT and
    set operations merges the integer 1 with the real 1.0 and 1.0 with 1.00,
    and nothing else. *)
Theorem group_key_equality coll v w : storable v → storable w →
  encode_group_value v coll = encode_group_value w coll ↔ column_cmp coll v w = Some Eq.
Proof.
  intros Sv Sw. split.
  - intros He. destruct (decide (class_of v = class_of w)) as [Hc|Hc].
    + destruct (group_same_class coll v w) as (c&->&ev&ew&Ev&Ew&Hk&_); [done..|].
      assert (ev = ew) as -> by congruence. specialize (Hk [] [] I I). rewrite lex_cmp_refl in Hk.
      destruct c; [done|by cbn in Hk..].
    + exfalso. destruct (group_value_class v coll Sv) as [pv Pv], (group_value_class w coll Sw) as [pw Pw]. congruence.
  - intros Hc. destruct (group_column coll v w Eq) as (ev&ew&->&->&Hk&_); [done..|]. by rewrite (keyed_Eq ev ew).
Qed.

Lemma group_key_equality_witness :
  encode_group_value (Int 2) Binary = encode_group_value (Float 4611686018427387904) Binary.
Proof.
  apply group_key_equality; [split; vm_compute; congruence|split; vm_compute; congruence|vm_compute; reflexivity].
Defined.

(** Keys of decimals the parser accepted compare as [numeric_cmp] orders
    them, whatever the scale they were written with. *)
Theorem decimal_key_order s t a b : parse_numeric s = Some a → parse_numeric t = Some b →
  lex_cmp (encode_numeric a) (encode_numeric b) = numeric_cmp a b.
Proof.
  intros Ha%parse_numeric_decimal Hb%parse_numeric_decimal.
  pose proof (keyed_numeric a b Ha Hb [] [] I I) as Hk. rewrite !app_nil_r in Hk. rewrite Hk.
  by destruct (numeric_cmp a b).
Qed.

Lemma decimal_key_order_witness :
  lex_cmp (encode_numeric (ch "-0.00120")) (encode_numeric (ch "-0.0013")) = Gt.
Proof.
  rewrite (decimal_key_order (ch "-1.20e-3") (ch "-.0013") (ch "-0.00120") (ch "-0.0013"));
    vm_compute; reflexivity.
Defined.



(** C26. Decoding any bytes as a key ends in an error or in one value per
    column, of the column's type and of machine width: no index out of range,
    no loop without end, no unreachable branch. *)
Theorem decode_key_total buf types : Forall is_byte buf →
  match decode_key buf types with
  | Ok vs => Forall2 well_typed types vs
  | Err _ => True
  | Panic => False
  end.
Proof. apply decode_key_yields. Qed.

Lemma decode_key_total_witness :
  match decode_key [1; 3; 127; 255; 0; 7] [TNumeric; Int64] with Panic => False | _ => True end.
Proof.
  pose proof (decode_key_total [1; 3; 127; 255; 0; 7] [TNumeric; Int64]) as H.
  destruct (decode_key [1; 3; 127; 255; 0; 7] [TNumeric; Int64]); [exact I|exact I|].
  apply H. repeat (constructor; [split; vm_compute; congruence|]). constructor.
Defined.

(** The storage-class decoder knows no dates, times or decimals: what
    [encode_group_value] writes for them, [decode_group_value] rejects. *)
Theorem class_key_not_decodable v coll : storable v → CLASS_TS < class_of v →
  ∃ k, encode_group_value v coll = Ok k ∧ decode_key k [TAny] = Err (Corrupt "invalid class key tag").
Proof.
  intros Hs Hc. destruct (group_value_class v coll Hs) as [p Hp]. exists (class_of v :: p). split; [done|].
  destruct v; cbn [storable] in Hs; try (by unfold CLASS_TS in Hc; cbn in Hc; lia); done.
Qed.

Lemma class_key_not_decodable_witness :
  ∃ k, encode_group_value (Date 19000) Binary = Ok k ∧ decode_key k [TAny] = Err (Corrupt "invalid class key tag").
Proof. apply class_key_not_decodable; [split; vm_compute; congruence|vm_compute; reflexivity]. Defined.

(** The identity key of [encode_key_exact] is not injective: two stored
    decimals of different scale, which read back as different text, share
    one. *)
Theorem exact_key_merges_scales :
  parse_numeric (ch "1.0") = Some (ch "1.0") ∧ parse_numeric (ch "1.00") = Some (ch "1.00") ∧
  Numeric (ch "1.0") ≠ Numeric (ch "1.00") ∧
  encode_key_exact [Numeric (ch "1.0")] = encode_key_exact [Numeric (ch "1.00")].
Proof. split_and!; [vm_compute; reflexivity..|by vm_compute|vm_compute; reflexivity]. Qed.
