(* ===== verification/Calendar.v ===== *)
(** The proleptic Gregorian calendar of [crates/mpedb-types/src/value.rs]:
    day counts to dates and back. The [i64] arithmetic is checked: a result out
    of range panics, as it does under Rust's overflow checks. *)

From S2P Require Import Prelude.
Local Open Scope Z_scope.

(** * Checked arithmetic *)

Definition in_i64 (z : Z) : bool := (- 2 ^ 63 <=? z) && (z <? 2 ^ 63).
Definition i64 (z : Z) : res Z := if in_i64 z then Ok z else Panic.

Lemma i64_ok z : - 2 ^ 63 ≤ z < 2 ^ 63 → i64 z = Ok z.
Proof. intros Hz. unfold i64, in_i64. rewrite (proj2 (Z.leb_le _ _)), (proj2 (Z.ltb_lt _ _)) by lia. done. Qed.

(** * The source's functions *)

(** Rust's [/] and [%] on integers are [Z.quot] and [Z.rem]. *)
Definition is_leap (y : Z) : bool :=
  ((Z.rem y 4 =? 0) && negb (Z.rem y 100 =? 0)) || (Z.rem y 400 =? 0).

Definition days_in_month (y m : Z) : Z :=
  if (m =? 1) || (m =? 3) || (m =? 5) || (m =? 7) || (m =? 8) || (m =? 10) || (m =? 12) then 31
  else if (m =? 4) || (m =? 6) || (m =? 9) || (m =? 11) then 30
  else if m =? 2 then (if is_leap y then 29 else 28)
  else 0.

Definition days_from_civil (y m d : Z) : res (option Z) :=
  if negb ((1 <=? m) && (m <=? 12)) || (d <? 1) || (days_in_month y m <? d) then Ok None
  else
    yy ← (if m <=? 2 then i64 (y - 1) else Ok y);
    num ← (if 0 <=? yy then Ok yy else i64 (yy - 399));
    let era := Z.quot num 400 in
    e400 ← i64 (era * 400);
    yoe ← i64 (yy - e400);
    let mp := if 2 <? m then m - 3 else m + 9 in
    let doy := Z.quot (153 * mp + 2) 5 + d - 1 in
    let doe := yoe * 365 + Z.quot yoe 4 - Z.quot yoe 100 + doy in
    days ← i64 (era * 146097);
    days ← i64 (days + doe);
    days ← i64 (days - 719468);
    Ok (Some days).

Definition civil_from_days (days : Z) : res (Z * Z * Z) :=
  z ← i64 (days + 719468);
  num ← (if 0 <=? z then Ok z else i64 (z - 146096));
  let era := Z.quot num 146097 in
  base ← i64 (era * 146097);
  doe ← i64 (z - base);
  let yoe := Z.quot (doe - Z.quot doe 1460 + Z.quot doe 36524 - Z.quot doe 146096) 365 in
  let y := yoe + era * 400 in
  let doy := doe - (365 * yoe + Z.quot yoe 4 - Z.quot yoe 100) in
  let mp := Z.quot (5 * doy + 2) 153 in
  let d := doy - Z.quot (153 * mp + 2) 5 + 1 in
  let m := if mp <? 10 then mp + 3 else mp - 9 in
  Ok (if m <=? 2 then y + 1 else y, m, d).

(** * Reference: counting days *)

Definition valid_date (y m d : Z) : Prop := 1 ≤ m ≤ 12 ∧ 1 ≤ d ≤ days_in_month y m.

(** The day after. *)
Definition next_day (date : Z * Z * Z) : Z * Z * Z :=
  let '(y, m, d) := date in
  if d <? days_in_month y m then (y, m, d + 1)
  else if m <? 12 then (y, m + 1, 1)
  else (y + 1, 1, 1).

(** The day number without bounds, in one formula: the days of the years since
    the epoch's March, then of the months, then of the month. *)
Definition day_number (y m d : Z) : Z :=
  let yy := if m <=? 2 then y - 1 else y in
  let mp := if 2 <? m then m - 3 else m + 9 in
  365 * yy + yy / 4 - yy / 100 + yy / 400 + (153 * mp + 2) / 5 + d - 1 - 719468.

Ltac quots := Z.to_euclidean_division_equations; lia.

Lemma is_leap_spec y : is_leap y = true ↔ (y mod 4 = 0 ∧ y mod 100 ≠ 0) ∨ y mod 400 = 0.
Proof.
  unfold is_leap. rewrite orb_true_iff, andb_true_iff, negb_true_iff, !Z.eqb_eq, Z.eqb_neq.
  assert (∀ k, 0 < k → Z.rem y k = 0 ↔ y mod k = 0) as Hk.
  { intros k Hk. rewrite Z.rem_divide, Z.mod_divide by lia. done. }
  by rewrite !Hk by lia.
Qed.

Lemma is_leap_false y : is_leap y = false ↔ (y mod 4 ≠ 0 ∨ y mod 100 = 0) ∧ y mod 400 ≠ 0.
Proof. rewrite <- not_true_iff_false, is_leap_spec. lia. Qed.

(** Years of 400, Euclidean. *)
Lemma era_split yy : let num := if 0 <=? yy then yy else yy - 399 in Z.quot num 400 = yy / 400.
Proof. cbn zeta. destruct (Z.leb_spec 0 yy); quots. Qed.

Definition YEAR_BOUND : Z := 2 ^ 53.

Lemma days_in_month_bound y m : 0 ≤ days_in_month y m ≤ 31.
Proof. unfold days_in_month. repeat case_match; lia. Qed.

Lemma days_from_civil_valid y m d : valid_date y m d → - YEAR_BOUND ≤ y ≤ YEAR_BOUND →
  days_from_civil y m d = Ok (Some (day_number y m d)).
Proof.
  intros [Hm Hd] Hy. unfold YEAR_BOUND in Hy. pose proof (days_in_month_bound y m).
  unfold days_from_civil, day_number.
  rewrite (proj2 (Z.leb_le 1 m)), (proj2 (Z.leb_le m 12)), (proj2 (Z.ltb_ge d 1)),
    (proj2 (Z.ltb_ge (days_in_month y m) d)) by lia. cbn [andb negb orb].
  set (yy := if m <=? 2 then y - 1 else y). set (mp := if 2 <? m then m - 3 else m + 9).
  assert (0 ≤ mp ≤ 11) as Hmp by (unfold mp; destruct (Z.ltb_spec 2 m); lia).
  assert (- 2 ^ 53 - 1 ≤ yy ≤ 2 ^ 53) as Hyy by (unfold yy; destruct (Z.leb_spec m 2); lia).
  replace (if m <=? 2 then i64 (y - 1) else Ok y) with (Ok yy)
    by (unfold yy; destruct (m <=? 2); [by rewrite i64_ok by lia|done]).
  cbn [mbind res_mbind]. clearbody yy mp.
  replace (if 0 <=? yy then Ok yy else i64 (yy - 399)) with (Ok (if 0 <=? yy then yy else yy - 399))
    by (destruct (0 <=? yy); [done|by rewrite i64_ok by lia]).
  cbn [mbind res_mbind]. rewrite era_split.
  assert (yy = 400 * (yy / 400) + yy mod 400) as He by (apply Z.div_mod; lia).
  pose proof (Z.mod_pos_bound yy 400 ltac:(lia)). set (era := yy / 400) in *. set (yoe := yy mod 400) in *.
  clearbody era yoe. subst yy. repeat (rewrite i64_ok by quots; cbn [mbind res_mbind]).
  f_equal. f_equal. quots.
Qed.

(** An invalid date is no day. *)
Lemma days_from_civil_invalid y m d : ¬ valid_date y m d → days_from_civil y m d = Ok None.
Proof.
  intros Hn. unfold days_from_civil.
  destruct (Z.leb_spec 1 m); [|done]. destruct (Z.leb_spec m 12); [|done].
  destruct (Z.ltb_spec d 1); [done|]. destruct (Z.ltb_spec (days_in_month y m) d); [done|].
  destruct Hn. split; lia.
Qed.

(** * Dates are consecutive *)

Lemma div_pred y k : 0 < k → y / k - (y - 1) / k = if y mod k =? 0 then 1 else 0.
Proof.
  intros Hk. pose proof (Z.div_mod y k ltac:(lia)). pose proof (Z.mod_pos_bound y k ltac:(lia)).
  destruct (Z.eqb_spec (y mod k) 0).
  - replace ((y - 1) / k) with (y / k - 1); [lia|]. apply (Z.div_unique_pos _ _ _ (k - 1)); lia.
  - replace ((y - 1) / k) with (y / k); [lia|]. apply (Z.div_unique_pos _ _ _ (y mod k - 1)); lia.
Qed.

Lemma mod_divides y a b : 0 < a → 0 < b → y mod (a * b) = 0 → y mod a = 0.
Proof. intros Ha Hb [c ->]%Z.mod_divide; [|lia]. apply Z.mod_divide; [lia|]. exists (c * b). lia. Qed.

(** A year has 365 days, or 366 when it is a leap year. *)
Lemma year_length y :
  365 * y + y / 4 - y / 100 + y / 400 =
  365 * (y - 1) + (y - 1) / 4 - (y - 1) / 100 + (y - 1) / 400 + (if is_leap y then 366 else 365).
Proof.
  pose proof (div_pred y 4 ltac:(lia)) as H4. pose proof (div_pred y 100 ltac:(lia)) as H100.
  pose proof (div_pred y 400 ltac:(lia)) as H400.
  assert (y mod 100 = 0 → y mod 4 = 0) as D4 by (apply (mod_divides y 4 25); lia).
  assert (y mod 400 = 0 → y mod 100 = 0) as D100 by (apply (mod_divides y 100 4); lia).
  revert D4 D100 H4 H100 H400.
  destruct (is_leap y) eqn:Hl; [apply is_leap_spec in Hl|apply is_leap_false in Hl];
    destruct (Z.eqb_spec (y mod 4) 0), (Z.eqb_spec (y mod 100) 0), (Z.eqb_spec (y mod 400) 0); lia.
Qed.

(** Month lengths, one by one. *)
Lemma next_day_number y m d : valid_date y m d →
  let '(y', m', d') := next_day (y, m, d) in
  valid_date y' m' d' ∧ day_number y' m' d' = day_number y m d + 1.
Proof.
  intros [Hm Hd]. unfold next_day. destruct (Z.ltb_spec d (days_in_month y m)) as [Hlt|Hge].
  { split; [split; lia|]. unfold day_number. lia. }
  assert (d = days_in_month y m) as -> by lia. unfold valid_date, day_number.
  assert (m = 1 ∨ m = 2 ∨ m = 3 ∨ m = 4 ∨ m = 5 ∨ m = 6 ∨ m = 7 ∨ m = 8 ∨ m = 9 ∨ m = 10 ∨ m = 11 ∨ m = 12) as Hcase by lia.
  destruct Hcase as [->|[->|[->|[->|[->|[->|[->|[->|[->|[->|[->| ->]]]]]]]]]]];
    repeat match goal with |- context [Zpos ?a + 1] =>
      let c := eval compute in (Zpos a + 1) in change (Zpos a + 1) with c end;
    unfold days_in_month; cbn [Z.ltb Z.leb Z.eqb Z.compare Pos.compare Pos.compare_cont Pos.eqb orb].
  all: split; [split; [lia|]; try lia; destruct (is_leap y); lia|].
  all: try quots.
  pose proof (year_length y) as Hy. revert Hy. destruct (is_leap y); intros Hy; quots.
Qed.

(** * From a day to its date *)

Definition year_of (doe : Z) : Z := (doe - doe / 1460 + doe / 36524 - doe / 146096) / 365.

(** The year of a day within 400 years, and the day within that year. *)
Lemma year_of_spec doe : 0 ≤ doe < 146097 →
  let yoe := year_of doe in
  let doy := doe - (365 * yoe + yoe / 4 - yoe / 100) in
  0 ≤ yoe ≤ 399 ∧ 0 ≤ doy ≤ 365 ∧
  (doy = 365 → (yoe + 1) mod 4 = 0 ∧ ((yoe + 1) mod 100 ≠ 0 ∨ yoe = 399)).
Proof.
  intros H. cbn zeta. unfold year_of.
  assert (0 ≤ (doe - doe / 1460 + doe / 36524 - doe / 146096) / 365 ≤ 399) as Hb by quots.
  split; [done|]. split; [quots|]. quots.
Qed.

Lemma month_of_spec doy : 0 ≤ doy ≤ 365 →
  let mp := (5 * doy + 2) / 153 in
  0 ≤ mp ≤ 11 ∧ 1 ≤ doy - (153 * mp + 2) / 5 + 1 ∧ doy < (153 * (mp + 1) + 2) / 5.
Proof. intros H. cbn zeta. split; [quots|]. split; quots. Qed.

Definition DAY_BOUND : Z := 2 ^ 62.

Lemma era_days z : let num := if 0 <=? z then z else z - 146096 in Z.quot num 146097 = z / 146097.
Proof. cbn zeta. destruct (Z.leb_spec 0 z); quots. Qed.

(** The date of a day, in floor arithmetic. *)
Definition civil (days : Z) : Z * Z * Z :=
  let z := days + 719468 in
  let era := z / 146097 in
  let doe := z mod 146097 in
  let yoe := year_of doe in
  let doy := doe - (365 * yoe + yoe / 4 - yoe / 100) in
  let mp := (5 * doy + 2) / 153 in
  let m := if mp <? 10 then mp + 3 else mp - 9 in
  (if m <=? 2 then yoe + era * 400 + 1 else yoe + era * 400, m, doy - (153 * mp + 2) / 5 + 1).

Lemma civil_from_days_eq days : - DAY_BOUND ≤ days ≤ DAY_BOUND →
  civil_from_days days = Ok (civil days).
Proof.
  intros Hd. unfold DAY_BOUND in Hd. unfold civil_from_days, civil.
  rewrite (i64_ok (days + 719468)) by lia. cbn [mbind res_mbind]. set (z := days + 719468).
  replace (if 0 <=? z then Ok z else i64 (z - 146096)) with (Ok (if 0 <=? z then z else z - 146096))
    by (destruct (0 <=? z); [done|by rewrite i64_ok by lia]).
  cbn [mbind res_mbind]. rewrite era_days. pose proof (Z.mod_pos_bound z 146097 ltac:(lia)) as Hdoe.
  pose proof (Z.div_mod z 146097 ltac:(lia)) as Hz.
  rewrite (i64_ok (z / 146097 * 146097)) by lia. cbn [mbind res_mbind].
  replace (z - z / 146097 * 146097) with (z mod 146097) by lia.
  rewrite i64_ok by lia. cbn [mbind res_mbind]. set (doe := z mod 146097) in *. clearbody doe.
  replace (Z.quot (doe - Z.quot doe 1460 + Z.quot doe 36524 - Z.quot doe 146096) 365) with (year_of doe)
    by (unfold year_of; quots).
  destruct (year_of_spec doe Hdoe) as (Hy&Hdoy&_). set (yoe := year_of doe) in *. clearbody yoe.
  replace (Z.quot yoe 4) with (yoe / 4) by quots. replace (Z.quot yoe 100) with (yoe / 100) by quots.
  set (doy := doe - _) in *. clearbody doy.
  destruct (month_of_spec doy Hdoy) as (Hmp&_). rewrite (Z.quot_div_nonneg (5 * doy + 2)) by lia.
  rewrite Z.quot_div_nonneg by lia. done.
Qed.

Lemma civil_valid days : let '(y, m, d) := civil days in valid_date y m d ∧ day_number y m d = days.
Proof.
  unfold civil. remember (days + 719468) as z eqn:Ez. pose proof (Z.mod_pos_bound z 146097 ltac:(lia)) as Hdoe.
  pose proof (Z.div_mod z 146097 ltac:(lia)) as Hz. set (doe := z mod 146097) in *. set (era := z / 146097) in *.
  destruct (year_of_spec doe Hdoe) as (Hy&Hdoy&Hleap). set (yoe := year_of doe) in *.
  set (doy := doe - (365 * yoe + yoe / 4 - yoe / 100)) in *.
  destruct (month_of_spec doy Hdoy) as (Hmp&Hd1&Hd2). set (mp := (5 * doy + 2) / 153) in *.
  assert (doe = 365 * yoe + yoe / 4 - yoe / 100 + doy) as Hsum by (unfold doy; lia).
  assert (days = era * 146097 + doe - 719468) as Hdays by lia.
  clearbody era yoe mp doy doe. clear Ez Hz Hdoe. subst doe days.
  set (m := if mp <? 10 then mp + 3 else mp - 9).
  set (y := if m <=? 2 then yoe + era * 400 + 1 else yoe + era * 400).
  assert (1 ≤ m ≤ 12) as Hm by (unfold m; destruct (Z.ltb_spec mp 10); lia).
  assert ((if m <=? 2 then y - 1 else y) = yoe + era * 400) as Hyy
    by (unfold y; destruct (m <=? 2); lia).
  assert ((if 2 <? m then m - 3 else m + 9) = mp) as Hmp'
    by (unfold m; destruct (Z.ltb_spec mp 10); [destruct (Z.ltb_spec 2 (mp + 3))|destruct (Z.ltb_spec 2 (mp - 9))]; lia).
  split; cycle 1.
  { unfold day_number. rewrite Hyy, Hmp'. clear Hyy Hmp'. clearbody y m. quots. }
  split; [done|]. split; [done|]. clear Hyy Hmp'. unfold y, m.
  assert (mp = 0 ∨ mp = 1 ∨ mp = 2 ∨ mp = 3 ∨ mp = 4 ∨ mp = 5 ∨ mp = 6 ∨ mp = 7 ∨ mp = 8 ∨ mp = 9 ∨ mp = 10 ∨ mp = 11) as Hcase by lia.
  clear Hm y m Hmp Hd1.
  destruct Hcase as [->|[->|[->|[->|[->|[->|[->|[->|[->|[->|[->| ->]]]]]]]]]]];
    match goal with |- context [if ?a <? 10 then ?a + 3 else ?a - 9] =>
      let c := eval compute in (if a <? 10 then a + 3 else a - 9) in
      change (if a <? 10 then a + 3 else a - 9) with c end;
    unfold days_in_month; cbn [Z.ltb Z.leb Z.eqb Z.compare Pos.compare Pos.compare_cont Pos.eqb orb]; try quots.
  destruct (is_leap (yoe + era * 400 + 1)) eqn:Hl; [quots|]. apply is_leap_false in Hl.
  assert (∀ k j, 0 < k → 400 = k * j → (yoe + era * 400 + 1) mod k = (yoe + 1) mod k) as Hmod.
  { intros k j Hk Hj. replace (yoe + era * 400 + 1) with (yoe + 1 + (era * j) * k) by (rewrite Hj; ring).
    apply Z.mod_add. lia. }
  rewrite (Hmod 4 100), (Hmod 100 4), (Hmod 400 1) in Hl by lia.
  destruct (decide (doy = 365)) as [H365|]; [|clear Hleap Hl Hmod; quots].
  exfalso. destruct (Hleap H365) as [H4 [H100| ->]]; [lia|]. by destruct Hl.
Qed.

(** * A day has one date *)

(** The year counted from March, and the day in it. *)
Definition march_year (y m : Z) : Z := if m <=? 2 then y - 1 else y.
Definition march_month (m : Z) : Z := if 2 <? m then m - 3 else m + 9.
Definition year_day (m d : Z) : Z := (153 * march_month m + 2) / 5 + d - 1.
Definition year_start (yy : Z) : Z := 365 * yy + yy / 4 - yy / 100 + yy / 400.

Lemma day_number_march y m d : day_number y m d = year_start (march_year y m) + year_day m d - 719468.
Proof. unfold day_number, year_start, year_day, march_year, march_month. lia. Qed.

Lemma year_day_spec y m d : valid_date y m d →
  0 ≤ year_day m d < year_start (march_year y m + 1) - year_start (march_year y m) ∧
  march_month m = (5 * year_day m d + 2) / 153.
Proof.
  intros [Hm Hd]. pose proof (year_length (march_year y m + 1)) as Hy.
  replace (march_year y m + 1 - 1) with (march_year y m) in Hy by lia.
  assert (year_start (march_year y m + 1) - year_start (march_year y m) =
    if is_leap (march_year y m + 1) then 366 else 365) as -> by (unfold year_start; lia). clear Hy.
  assert (m = 1 ∨ m = 2 ∨ m = 3 ∨ m = 4 ∨ m = 5 ∨ m = 6 ∨ m = 7 ∨ m = 8 ∨ m = 9 ∨ m = 10 ∨ m = 11 ∨ m = 12) as Hcase by lia.
  revert Hd. unfold year_day, march_year, march_month.
  destruct Hcase as [->|[->|[->|[->|[->|[->|[->|[->|[->|[->|[->| ->]]]]]]]]]]];
    unfold days_in_month; cbn [Z.ltb Z.leb Z.eqb Z.compare Pos.compare Pos.compare_cont Pos.eqb orb]; intros Hd.
  all: try (destruct (is_leap _); quots).
  replace (y - 1 + 1) with y by lia. destruct (is_leap y); quots.
Qed.

Lemma year_start_mono a b : a < b → year_start (a + 1) ≤ year_start b.
Proof. intros H. unfold year_start. quots. Qed.

Lemma day_number_inj y m d y' m' d' : valid_date y m d → valid_date y' m' d' →
  day_number y m d = day_number y' m' d' → (y, m, d) = (y', m', d').
Proof.
  intros Hv Hv'. rewrite !day_number_march. intros He.
  destruct (year_day_spec y m d Hv) as [Hd Hm], (year_day_spec y' m' d' Hv') as [Hd' Hm'].
  assert (march_year y m = march_year y' m') as Hyy.
  { destruct (Z.lt_trichotomy (march_year y m) (march_year y' m')) as [Hlt|[?|Hlt]]; [|done|];
      pose proof (year_start_mono _ _ Hlt); lia. }
  rewrite Hyy in *. assert (year_day m d = year_day m' d') as Hdoy by lia.
  assert (march_month m = march_month m') as Hmm by congruence.
  destruct Hv as [Hm1 _], Hv' as [Hm1' _].
  assert (m = m') as ->.
  { unfold march_month in Hmm. destruct (Z.ltb_spec 2 m), (Z.ltb_spec 2 m'); lia. }
  unfold year_day, march_year in *. destruct (m' <=? 2); f_equal; (f_equal || idtac); lia.
Qed.

Lemma civil_day_number y m d : valid_date y m d → civil (day_number y m d) = (y, m, d).
Proof.
  intros Hv. pose proof (civil_valid (day_number y m d)) as Hc.
  destruct (civil (day_number y m d)) as [[y' m'] d']. destruct Hc as [Hv' He].
  symmetry. by apply day_number_inj.
Qed.

(** Consecutive day numbers are consecutive dates. *)
Lemma civil_succ days : civil (days + 1) = next_day (civil days).
Proof.
  pose proof (civil_valid days) as Hc. destruct (civil days) as [[y m] d]. destruct Hc as [Hv <-].
  pose proof (next_day_number y m d Hv) as Hn. destruct (next_day (y, m, d)) as [[y' m'] d'].
  destruct Hn as [Hv' <-]. by apply civil_day_number.
Qed.

(** Bounds of the dates whose arithmetic stays in range. *)
Lemma day_number_bound y m d : valid_date y m d → - YEAR_BOUND ≤ y ≤ YEAR_BOUND →
  - DAY_BOUND ≤ day_number y m d ≤ DAY_BOUND.
Proof.
  intros Hv Hy. rewrite day_number_march. destruct (year_day_spec y m d Hv) as [Hd _].
  assert (y - 1 ≤ march_year y m ≤ y) as Hmy by (unfold march_year; destruct (m <=? 2); lia).
  set (a := march_year y m) in *. clearbody a. unfold year_start, DAY_BOUND, YEAR_BOUND in *. quots.
Qed.

Lemma civil_year_bound days : - 2 ^ 61 ≤ days ≤ 2 ^ 61 →
  - YEAR_BOUND ≤ (civil days).1.1 ≤ YEAR_BOUND.
Proof.
  intros Hd. pose proof (civil_valid days) as Hc. destruct (civil days) as [[y m] d]. destruct Hc as [Hv He].
  cbn [fst]. rewrite day_number_march in He. destruct (year_day_spec y m d Hv) as [Hyd _].
  assert (y - 1 ≤ march_year y m ≤ y) as Hmy by (unfold march_year; destruct (m <=? 2); lia).
  set (a := march_year y m) in *. clearbody a.
  assert (year_day m d < 367) as Hy by (unfold year_start in Hyd; quots).
  set (k := year_day m d) in *. clearbody k. unfold year_start, YEAR_BOUND, DAY_BOUND in *. clear Hv.
  assert (364 * Z.abs a ≤ Z.abs (365 * a + a / 4 - a / 100 + a / 400) + 1) by quots. lia.
Qed.
