(* ===== verification/DateText.v ===== *)
(** Dates, times and timestamps as text: the parsers and printers of
    [crates/mpedb-types/src/value.rs]. *)

From S2P Require Import Prelude Text Value Calendar.
Local Open Scope Z_scope.

Definition DASH : Z := 45.
Definition COLON : Z := 58.
Definition MICROS : Z := 1000000.

(** * Parsers *)

Definition int_field (s : bytes) : option Z :=
  if bool_decide (s = []) || negb (all_digits s) then None
  else if digits_value s <=? I64_MAX then Some (digits_value s) else None.

(** [p.next()?] three times, and no fourth. *)
Definition date_fields (s : bytes) : option (Z * Z * Z) :=
  match split DASH s with
  | [y; m; d] => y ← int_field y; m ← int_field m; d ← int_field d; Some (y, m, d)
  | _ => None
  end.

Definition strip_minus (t : bytes) : bool * bytes :=
  match t with b :: r => if b =? DASH then (true, r) else (false, t) | [] => (false, t) end.

Definition parse_date_text (s : bytes) : res (option Z) :=
  let '(neg, body) := strip_minus (trim s) in
  match date_fields body with
  | None => Ok None
  | Some (y, m, d) => days_from_civil (if neg then - y else y) m d
  end.

Definition time_fields (s : bytes) : option (Z * Z * Z) :=
  match split COLON s with
  | [h; mi] => h ← int_field h; mi ← int_field mi; Some (h, mi, 0)
  | [h; mi; sec] => h ← int_field h; mi ← int_field mi; sec ← int_field sec; Some (h, mi, sec)
  | _ => None
  end.

(** Six digits: cut or filled with zeros. *)
Definition micros_field (frac : bytes) : option Z :=
  if bool_decide (frac = []) then Some 0
  else if negb (all_digits frac) then None
  else
    let f := take 6 frac in
    let f := f ++ replicate (6 - length f) ZERO in
    Some (digits_value f).

Definition parse_time_text (s : bytes) : option Z :=
  let t := trim s in
  let '(hms, frac) := default (t, []) (split_once DOT t) in
  '(h, mi, sec) ← time_fields hms;
  if (24 <? h) || (59 <? mi) || (60 <? sec) || ((h =? 24) && (negb (mi =? 0) || negb (sec =? 0))) then None
  else us ← micros_field frac; Some ((h * 3600 + mi * 60 + sec) * MICROS + us).

(** [&z[..2], &z[2..]] panics when byte 2 is inside a character. *)
Definition split_at_2 (z : bytes) : res (bytes * bytes) :=
  if match z !! 2%nat with Some b => cont b | None => false end then Panic
  else Ok (take 2 z, drop 2 z).

Definition zone_fields (z : bytes) : res (bytes * bytes) :=
  match split_once COLON z with
  | Some p => Ok p
  | None => if bool_decide (length z = 4%nat) then split_at_2 z else Ok (z, [ZERO])
  end.

Definition is_sign (b : Z) : bool := (b =? PLUS) || (b =? DASH).

(** The last sign that is not the first byte, and what is around it: the loop
    over [(1..len).rev()]. *)
Fixpoint last_sign (s : bytes) : option (bytes * Z * bytes) :=
  match s with
  | [] => None
  | b :: s =>
      match last_sign s with
      | Some (l, c, r) => Some (b :: l, c, r)
      | None => if is_sign b then Some ([], b, s) else None
      end
  end.

Definition strip_suffix (c : Z) (s : bytes) : option bytes :=
  match strip_prefix c (reverse s) with Some r => Some (reverse r) | None => None end.

(** The time and the offset in seconds; the arithmetic is unchecked [i64]. *)
Definition zone_offset (t : bytes) (c : Z) (z : bytes) : res (option (bytes * Z)) :=
  '(zh, zm) ← zone_fields z;
  match int_field zh with
  | None => Ok None
  | Some h =>
      a ← i64 (h * 3600);
      match int_field zm with
      | None => Ok None
      | Some m =>
          b ← i64 (m * 60);
          s ← i64 (a + b);
          Ok (Some (t, if c =? DASH then - s else s))
      end
  end.

Definition split_zone (rest : bytes) : res (option (bytes * Z)) :=
  if bool_decide (rest = []) then Ok (Some ([], 0))
  else
    match strip_suffix 90 rest, strip_suffix 122 rest with
    | Some t, _ | None, Some t => Ok (Some (t, 0))
    | None, None =>
        match rest with
        | [] => Ok (Some (rest, 0))
        | b :: tail =>
            match last_sign tail with
            | Some (l, c, z) => zone_offset (b :: l) c z
            | None => Ok (Some (rest, 0))
            end
        end
    end.

(** [body.split_once(['T', ' '])]. *)
Fixpoint split_date_time (s : bytes) : option (bytes * bytes) :=
  match s with
  | [] => None
  | b :: s =>
      if (b =? 84) || (b =? 32) then Some ([], s)
      else match split_date_time s with Some (l, r) => Some (b :: l, r) | None => None end
  end.

(** [checked_mul], [checked_add], [checked_sub]. *)
Definition checked (z : Z) : option Z := if in_i64 z then Some z else None.

Definition assemble (days us_of_day offset : Z) : option Z :=
  a ← checked (days * 86400);
  b ← checked (a + us_of_day / MICROS);
  secs ← checked (b - offset);
  c ← checked (secs * MICROS);
  checked (c + us_of_day mod MICROS).

Definition parse_timestamp_text (s : bytes) : res (option Z) :=
  let '(neg_year, body) := strip_minus (trim s) in
  let '(date, rest) := default (body, []) (split_date_time body) in
  match date_fields date with
  | None => Ok None
  | Some (y, mo, d) =>
      days ← days_from_civil (if neg_year then - y else y) mo d;
      match days with
      | None => Ok None
      | Some days =>
          zone ← split_zone rest;
          match zone with
          | None => Ok None
          | Some (time, offset_secs) =>
              Ok (us_of_day ← (if bool_decide (time = []) then Some 0 else parse_time_text time);
                  assemble days us_of_day offset_secs)
          end
      end
  end.

(** * Printers *)

(** [format!("{n:0w$}")]: the sign counts in the width. *)
Definition fmt0 (w : nat) (n : Z) : bytes :=
  if n <? 0 then DASH :: padded (w - 1) (- n) else padded w n.

Definition fraction (frac : Z) : bytes :=
  if frac =? 0 then [] else DOT :: trim_end_matches ZERO (padded 6 frac).

Definition hms_text (h m s : Z) : bytes := fmt0 2 h ++ COLON :: fmt0 2 m ++ COLON :: fmt0 2 s.
Definition ymd_text (date : Z * Z * Z) : bytes :=
  let '(y, m, d) := date in fmt0 4 y ++ DASH :: fmt0 2 m ++ DASH :: fmt0 2 d.

Definition date_text (days : Z) : res bytes := date ← civil_from_days days; Ok (ymd_text date).

Definition time_text (us : Z) : bytes :=
  let secs := us / MICROS in
  let frac := us mod MICROS in
  hms_text (Z.quot secs 3600) (Z.quot (Z.rem secs 3600) 60) (Z.rem secs 60) ++ fraction frac.

Definition timestamp_text (us : Z) : res bytes :=
  let secs := us / MICROS in
  let frac := us mod MICROS in
  date ← civil_from_days (secs / 86400);
  let rem := secs mod 86400 in
  Ok (ymd_text date ++ 32 :: hms_text (Z.quot rem 3600) (Z.quot (Z.rem rem 3600) 60) (Z.rem rem 60)
      ++ fraction frac ++ ch "+00").
