(* ===== verification/DateTextRoundtrip.v ===== *)
(** What the printers write, the parsers read back. *)

From S2P Require Import Prelude Text Value Calendar DateText.
Local Open Scope Z_scope.

(** * Fields *)

Lemma int_field_padded w n : 0 ≤ n ≤ I64_MAX → int_field (padded w n) = Some n.
Proof.
  intros Hn. unfold I64_MAX in *. destruct (padded_spec w n ltac:(lia)) as (Hd&Hne&Hv).
  unfold int_field. rewrite bool_decide_false, digits_all by done. cbn [negb orb]. rewrite Hv.
  by rewrite (proj2 (Z.leb_le n _)) by (unfold I64_MAX; lia).
Qed.

Lemma padded_ne w n c : 0 ≤ n < 10 ^ 64 → ¬ (48 ≤ c ≤ 57) → Forall (λ b, b ≠ c) (padded w n).
Proof. intros Hn Hc. apply digits_ne; [by apply padded_spec|done]. Qed.

Lemma fmt0_nonneg w n : 0 ≤ n → fmt0 w n = padded w n.
Proof. intros Hn. unfold fmt0. by rewrite (proj2 (Z.ltb_ge n 0)) by lia. Qed.

(** The unsigned part of a date. *)
Definition ymd_body (y m d : Z) : bytes :=
  padded (if y <? 0 then 3 else 4) (Z.abs y) ++ DASH :: padded 2 m ++ DASH :: padded 2 d.

Lemma ymd_split y m d : 0 ≤ m → 0 ≤ d →
  ymd_text (y, m, d) = (if y <? 0 then [DASH] else []) ++ ymd_body y m d.
Proof.
  intros Hm Hd. unfold ymd_text, ymd_body. rewrite (fmt0_nonneg 2 m), (fmt0_nonneg 2 d) by done.
  unfold fmt0. destruct (Z.ltb_spec y 0); cbn [app].
  - by rewrite Z.abs_neq by lia.
  - by rewrite Z.abs_eq by lia.
Qed.

Definition small (n : Z) : Prop := 0 ≤ n < 100.

Lemma date_fields_body y m d : Z.abs y ≤ I64_MAX → small m → small d →
  date_fields (ymd_body y m d) = Some (Z.abs y, m, d).
Proof.
  intros Hy Hm Hd. unfold small, I64_MAX in *. unfold date_fields, ymd_body.
  rewrite split_mid, split_mid, split_absent by (apply padded_ne; unfold DASH; lia).
  rewrite !int_field_padded by (unfold I64_MAX; lia). done.
Qed.

(** A body starts with a digit and holds digits and dashes only. *)
Lemma ymd_body_chars y m d : Z.abs y ≤ I64_MAX → small m → small d →
  (∃ h, head (ymd_body y m d) = Some h ∧ 48 ≤ h ≤ 57) ∧
  Forall (λ b, 48 ≤ b ≤ 57 ∨ b = DASH) (ymd_body y m d) ∧
  (∃ l, last (ymd_body y m d) = Some l ∧ 48 ≤ l ≤ 57).
Proof.
  intros Hy Hm Hd. unfold small, I64_MAX, ymd_body in *.
  assert (∀ w n, 0 ≤ n ≤ 2 ^ 63 - 1 → digits (padded w n) ∧ padded w n ≠ []) as Hp.
  { intros w n Hn. destruct (padded_spec w n ltac:(lia)) as (?&?&?). done. }
  assert (∀ s, digits s → Forall (λ b, 48 ≤ b ≤ 57 ∨ b = DASH) s) as Hw.
  { intros s Hs. eapply Forall_impl; [exact Hs|]. cbn. lia. }
  destruct (Hp (if y <? 0 then 3%nat else 4%nat) (Z.abs y) ltac:(lia)) as [Hy1 Hy2].
  destruct (Hp 2%nat m ltac:(lia)) as [Hm1 _]. destruct (Hp 2%nat d ltac:(lia)) as [Hd1 Hd2].
  split_and!.
  - destruct Hy1 as [|h s Hh Hs]; [done|]. by exists h.
  - apply Forall_app. split; [by apply Hw|]. constructor; [by right|]. apply Forall_app. split; [by apply Hw|].
    constructor; [by right|by apply Hw].
  - destruct (last (padded 2 d)) as [l|] eqn:E; [|by apply last_None in E]. exists l. split.
    + rewrite last_app, last_cons, last_app, last_cons, E. done.
    + apply last_Some in E as [s Hs]. rewrite Hs in Hd1. apply digits_app in Hd1 as [_ Hd1]. by inversion Hd1.
Qed.

Lemma strip_minus_body y m d rest : Z.abs y ≤ I64_MAX → small m → small d →
  strip_minus ((if y <? 0 then [DASH] else []) ++ ymd_body y m d ++ rest) = (y <? 0, ymd_body y m d ++ rest).
Proof.
  intros Hy Hm Hd. destruct (ymd_body_chars y m d Hy Hm Hd) as [(h&Hh&Hr) _].
  destruct (y <? 0); cbn [app strip_minus]; [done|]. destruct (ymd_body y m d) as [|b s]; [done|].
  injection Hh as ->. cbn [app strip_minus]. by rewrite (proj2 (Z.eqb_neq h DASH)) by (unfold DASH; lia).
Qed.

Lemma head_signed_body y m d rest : Z.abs y ≤ I64_MAX → small m → small d →
  ∃ h, head ((if y <? 0 then [DASH] else []) ++ ymd_body y m d ++ rest) = Some h ∧ 32 < h < 128.
Proof.
  intros Hy Hm Hd. destruct (ymd_body_chars y m d Hy Hm Hd) as [(h&Hh&Hr) _].
  destruct (y <? 0); [by exists DASH; unfold DASH; split; [|lia]|]. exists h. split; [|lia].
  by destruct (ymd_body y m d).
Qed.

Lemma valid_small y m d : valid_date y m d → small m ∧ small d.
Proof. intros [Hm Hd]. pose proof (days_in_month_bound y m). unfold small. lia. Qed.

Lemma abs_if y : (if y <? 0 then - Z.abs y else Z.abs y) = y.
Proof. destruct (Z.ltb_spec y 0); lia. Qed.

(** * Dates *)

Lemma date_roundtrip days : - 2 ^ 61 ≤ days ≤ 2 ^ 61 →
  ∃ t, date_text days = Ok t ∧ parse_date_text t = Ok (Some days).
Proof.
  intros Hd. unfold date_text. rewrite civil_from_days_eq by (unfold DAY_BOUND; lia). cbn [mbind res_mbind].
  eexists. split; [done|]. pose proof (civil_year_bound days Hd) as Hy. pose proof (civil_valid days) as Hv.
  destruct (civil days) as [[y m] d]. destruct Hv as [Hv He]. cbn [fst] in Hy.
  destruct (valid_small y m d Hv) as [Hm Hdd]. assert (Z.abs y ≤ I64_MAX) as Hya by (unfold YEAR_BOUND, I64_MAX in *; lia).
  unfold parse_date_text. rewrite ymd_split by (unfold small in *; lia).
  destruct (head_signed_body y m d [] Hya Hm Hdd) as (h&Hh&Hh'). rewrite app_nil_r in Hh.
  destruct (ymd_body_chars y m d Hya Hm Hdd) as (_&_&l&Hl&Hl').
  rewrite (trim_id _ h l); [|done|by rewrite last_app, Hl|done|lia].
  pose proof (strip_minus_body y m d [] Hya Hm Hdd) as Hs. rewrite !app_nil_r in Hs. rewrite Hs.
  rewrite date_fields_body by done. rewrite abs_if, days_from_civil_valid by done. by rewrite He.
Qed.

(** * Times *)

Lemma time_fields_hms h m s : small h → small m → small s →
  time_fields (hms_text h m s) = Some (h, m, s) ∧ Forall (λ b, 48 ≤ b ≤ 57 ∨ b = COLON) (hms_text h m s) ∧
  (∃ b, head (hms_text h m s) = Some b ∧ 48 ≤ b ≤ 57) ∧ (∃ b, last (hms_text h m s) = Some b ∧ 48 ≤ b ≤ 57).
Proof.
  unfold small. intros Hh Hm Hs. unfold hms_text. rewrite !fmt0_nonneg by lia.
  assert (∀ n, 0 ≤ n < 100 → digits (padded 2 n) ∧ padded 2 n ≠ []) as Hp.
  { intros n Hn. destruct (padded_spec 2 n ltac:(lia)) as (?&?&?). done. }
  destruct (Hp h Hh) as [Dh Nh], (Hp m Hm) as [Dm _], (Hp s Hs) as [Ds Ns].
  assert (∀ l, digits l → Forall (λ b, 48 ≤ b ≤ 57 ∨ b = COLON) l) as Hw.
  { intros l Hl. eapply Forall_impl; [exact Hl|]. cbn. lia. }
  split_and!.
  - unfold time_fields. rewrite split_mid, split_mid, split_absent by (apply padded_ne; unfold COLON; lia).
    rewrite !int_field_padded by (unfold I64_MAX; lia). done.
  - apply Forall_app. split; [by apply Hw|]. constructor; [by right|]. apply Forall_app. split; [by apply Hw|].
    constructor; [by right|by apply Hw].
  - destruct Dh as [|b t Hb _]; [done|]. by exists b.
  - destruct (last (padded 2 s)) as [l|] eqn:E; [|by apply last_None in E]. exists l. split.
    + rewrite last_app, last_cons, last_app, last_cons, E. done.
    + apply last_Some in E as [t Ht]. rewrite Ht in Ds. apply digits_app in Ds as [_ Ds]. by inversion Ds.
Qed.

(** The fraction, with its zeros cut, stands for the same microseconds. *)
Lemma fraction_spec frac : 0 < frac < MICROS →
  ∃ f l, fraction frac = DOT :: f ∧ micros_field f = Some frac ∧ digits f ∧ last f = Some l ∧ 48 ≤ l ≤ 57.
Proof.
  intros Hf. unfold MICROS in Hf. unfold fraction. rewrite (proj2 (Z.eqb_neq frac 0)) by lia.
  destruct (padded_spec 6 frac ltac:(lia)) as (Hd&_&Hv).
  pose proof (length_padded 6 frac ltac:(change (10 ^ Z.of_nat 6) with 1000000; lia) ltac:(lia)) as Hl.
  destruct (trim_end_matches_spec ZERO (padded 6 frac)) as (k&Hk&_).
  set (f := trim_end_matches ZERO (padded 6 frac)) in *. clearbody f.
  rewrite Hk in Hd, Hl. apply digits_app in Hd as [Hd _]. rewrite length_app, length_replicate in Hl.
  assert (f ≠ []) as Hne.
  { intros ->. cbn [app] in Hk. rewrite Hk in Hv. rewrite <- (app_nil_r (replicate k ZERO)) in Hv.
    unfold ZERO in Hv. rewrite digits_value_zeros in Hv. change (digits_value []) with 0 in Hv. lia. }
  destruct (last f) as [l|] eqn:E; [|by apply last_None in E]. exists f, l. split_and!; [done| |done|done|..].
  - unfold micros_field. rewrite bool_decide_false, digits_all by done. cbn [negb]. rewrite take_ge by lia.
    replace (6 - length f)%nat with k by lia. by rewrite <- Hk, Hv.
  - apply last_Some in E as [t ->]. apply digits_app in Hd as [_ Hd]. by inversion Hd; lia.
  - apply last_Some in E as [t ->]. apply digits_app in Hd as [_ Hd]. by inversion Hd; lia.
Qed.

Lemma hms_value secs : 0 ≤ secs ≤ 86400 →
  small (Z.quot secs 3600) ∧ small (Z.quot (Z.rem secs 3600) 60) ∧ small (Z.rem secs 60) ∧
  Z.quot secs 3600 * 3600 + Z.quot (Z.rem secs 3600) 60 * 60 + Z.rem secs 60 = secs ∧
  Z.quot secs 3600 ≤ 24 ∧ Z.quot (Z.rem secs 3600) 60 ≤ 59 ∧ Z.rem secs 60 ≤ 59 ∧
  (Z.quot secs 3600 = 24 → Z.quot (Z.rem secs 3600) 60 = 0 ∧ Z.rem secs 60 = 0).
Proof. intros Hs. unfold small. split_and!; quots. Qed.

(** What [time_text] writes of a time of day. *)
Lemma time_text_chars us : 0 ≤ us ≤ 86400 * MICROS →
  (∃ h, head (time_text us) = Some h ∧ 48 ≤ h ≤ 57) ∧ (∃ l, last (time_text us) = Some l ∧ 48 ≤ l ≤ 57) ∧
  Forall (λ b, 46 ≤ b ≤ 58) (time_text us) ∧ parse_time_text (time_text us) = Some us.
Proof.
  intros Hus. unfold time_text. pose proof (Z.div_mod us MICROS ltac:(unfold MICROS; lia)) as Hdm.
  pose proof (Z.mod_pos_bound us MICROS ltac:(unfold MICROS; lia)) as Hfr.
  assert (0 ≤ us / MICROS ≤ 86400) as Hsecs by (unfold MICROS in *; lia).
  set (secs := us / MICROS) in *. set (frac := us mod MICROS) in *.
  destruct (hms_value secs Hsecs) as (S1&S2&S3&Hval&B1&B2&B3&B24). clearbody secs frac.
  set (h := Z.quot secs 3600) in *. set (m := Z.quot (Z.rem secs 3600) 60) in *. set (s := Z.rem secs 60) in *.
  clearbody h m s. destruct (time_fields_hms h m s S1 S2 S3) as (Ht&Hc&(b&Hb&Hb')&(l&Hl&Hl')).
  assert (∃ f, (fraction frac = [] ∧ f = [] ∨ fraction frac = DOT :: f) ∧ micros_field f = Some frac ∧ digits f ∧
    ∃ l, last (hms_text h m s ++ fraction frac) = Some l ∧ 48 ≤ l ≤ 57) as (f&Hf&Hmf&Hdf&l2&Hl2&Hl2').
  { destruct (decide (frac = 0)) as [->|Hne].
    - exists []. change (fraction 0) with (@nil Z). rewrite app_nil_r.
      split; [by left|]. split; [done|]. split; [constructor|]. by exists l.
    - destruct (fraction_spec frac ltac:(lia)) as (f&l'&Hf&Hm'&Hd'&Hlf&Hr). exists f. split; [by right|]. split; [done|].
      split; [done|]. exists l'. rewrite Hf, last_app, last_cons, Hlf. done. }
  split_and!.
  - exists b. split; [|done]. by destruct (hms_text h m s).
  - by exists l2.
  - apply Forall_app. split.
    + eapply Forall_impl; [exact Hc|]. cbn. unfold COLON. lia.
    + destruct Hf as [[-> _]| ->]; [constructor|]. constructor; [unfold DOT; lia|].
      eapply Forall_impl; [exact Hdf|]. cbn. lia.
  - unfold parse_time_text. rewrite (trim_id _ b l2); [|by destruct (hms_text h m s)|done|lia|lia].
    assert (Forall (λ c, c ≠ DOT) (hms_text h m s)) as Hnd.
    { eapply Forall_impl; [exact Hc|]. cbn. unfold DOT, COLON. lia. }
    assert (default (hms_text h m s ++ fraction frac, []) (split_once DOT (hms_text h m s ++ fraction frac)) = (hms_text h m s, f)) as ->.
    { destruct Hf as [[-> ->]| ->]; [rewrite app_nil_r; by rewrite split_once_absent|by rewrite split_once_mid]. }
    rewrite Ht. cbn [mbind option_bind]. unfold small in *.
    rewrite (proj2 (Z.ltb_ge 24 h)), (proj2 (Z.ltb_ge 59 m)), (proj2 (Z.ltb_ge 60 s)) by lia. cbn [orb].
    assert ((h =? 24) && (negb (m =? 0) || negb (s =? 0)) = false) as ->.
    { destruct (Z.eqb_spec h 24) as [H24|]; [|done]. destruct (B24 H24) as [-> ->]. done. }
    rewrite Hmf. cbn [mbind option_bind]. f_equal. lia.
Qed.

(** * Timestamps *)

Lemma last_sign_at s c z : is_sign c = true → Forall (λ b, is_sign b = false) z →
  last_sign (s ++ c :: z) = Some (s, c, z).
Proof.
  intros Hc Hz. assert (last_sign z = None) as Hnone.
  { induction Hz as [|b z Hb _ IH]; [done|]. cbn [last_sign]. by rewrite IH, Hb. }
  induction s as [|b s IH]; cbn [app last_sign]; [by rewrite Hnone, Hc|by rewrite IH].
Qed.

(** The zone the printer writes. *)
Lemma split_zone_utc t : t ≠ [] → split_zone (t ++ ch "+00") = Ok (Some (t, 0)).
Proof.
  intros Ht. unfold split_zone. rewrite bool_decide_false by (by destruct t).
  assert (∀ c, c ≠ 48 → strip_suffix c (t ++ ch "+00") = None) as Hsuf.
  { intros c Hc. unfold strip_suffix. rewrite reverse_app. change (reverse (ch "+00")) with [48; 48; 43].
    cbn [app strip_prefix]. by rewrite (proj2 (Z.eqb_neq 48 c)) by congruence. }
  rewrite !Hsuf by done. destruct t as [|b t]; [done|]. cbn [app].
  change (ch "+00") with (43 :: [48; 48]). rewrite last_sign_at; [|done|by repeat constructor].
  vm_compute. reflexivity.
Qed.

Lemma split_date_time_body s t : Forall (λ b, 48 ≤ b ≤ 57 ∨ b = DASH) s →
  split_date_time (s ++ 32 :: t) = Some (s, t).
Proof.
  induction 1 as [|b s Hb _ IH]; [done|]. cbn [app split_date_time]. unfold DASH in Hb.
  rewrite (proj2 (Z.eqb_neq b 84)), (proj2 (Z.eqb_neq b 32)) by lia. cbn [orb]. by rewrite IH.
Qed.

Lemma checked_ok z : - 2 ^ 63 ≤ z < 2 ^ 63 → checked z = Some z.
Proof. intros Hz. unfold checked, in_i64. by rewrite (proj2 (Z.leb_le _ _)), (proj2 (Z.ltb_lt _ _)) by lia. Qed.

(** The first second of the [i64] range is not whole. *)
Definition FIRST_SECOND : Z := - (2 ^ 63 / MICROS) * MICROS.

Lemma assemble_parts us : FIRST_SECOND ≤ us < 2 ^ 63 →
  let secs := us / MICROS in
  assemble (secs / 86400) (secs mod 86400 * MICROS + us mod MICROS) 0 = Some us.
Proof.
  intros Hus secs. unfold FIRST_SECOND in Hus. change (2 ^ 63 / MICROS) with 9223372036854 in Hus.
  unfold assemble. pose proof (Z.div_mod us MICROS ltac:(unfold MICROS; lia)) as Hu.
  pose proof (Z.mod_pos_bound us MICROS ltac:(unfold MICROS; lia)) as Hf.
  pose proof (Z.div_mod secs 86400 ltac:(lia)) as Hs. pose proof (Z.mod_pos_bound secs 86400 ltac:(lia)) as Hr.
  fold secs in Hu. set (f := us mod MICROS) in *. set (days := secs / 86400) in *. set (rem := secs mod 86400) in *.
  clearbody secs f days rem. unfold MICROS in *.
  replace ((rem * 1000000 + f) / 1000000) with rem by quots.
  replace ((rem * 1000000 + f) mod 1000000) with f by quots.
  repeat (rewrite checked_ok by lia; cbn [mbind option_bind]). f_equal. lia.
Qed.

Lemma timestamp_time us : let secs := us / MICROS in let rem := secs mod 86400 in
  hms_text (Z.quot rem 3600) (Z.quot (Z.rem rem 3600) 60) (Z.rem rem 60) ++ fraction (us mod MICROS) =
  time_text (rem * MICROS + us mod MICROS).
Proof.
  intros secs rem. unfold time_text. pose proof (Z.mod_pos_bound us MICROS ltac:(unfold MICROS; lia)) as Hf.
  replace ((rem * MICROS + us mod MICROS) / MICROS) with rem; [|apply (Z.div_unique_pos _ _ _ (us mod MICROS)); lia].
  replace ((rem * MICROS + us mod MICROS) mod MICROS) with (us mod MICROS); [done|].
  apply (Z.mod_unique_pos _ _ rem); lia.
Qed.

Lemma timestamp_roundtrip us : FIRST_SECOND ≤ us < 2 ^ 63 →
  ∃ t, timestamp_text us = Ok t ∧ parse_timestamp_text t = Ok (Some us).
Proof.
  intros Hus. unfold timestamp_text. set (secs := us / MICROS).
  assert (- 2 ^ 61 ≤ secs / 86400 ≤ 2 ^ 61) as Hdays.
  { unfold FIRST_SECOND in Hus. change (2 ^ 63 / MICROS) with 9223372036854 in Hus. unfold secs, MICROS in *. quots. }
  rewrite civil_from_days_eq by (unfold DAY_BOUND; lia). cbn [mbind res_mbind]. eexists. split; [done|].
  pose proof (civil_year_bound _ Hdays) as Hy. pose proof (civil_valid (secs / 86400)) as Hv.
  destruct (civil (secs / 86400)) as [[y m] d]. destruct Hv as [Hv He]. cbn [fst] in Hy.
  destruct (valid_small y m d Hv) as [Hm Hdd]. assert (Z.abs y ≤ I64_MAX) as Hya by (unfold YEAR_BOUND, I64_MAX in *; lia).
  rewrite ymd_split by (unfold small in *; lia). pose proof (timestamp_time us) as Htt. cbn zeta in Htt. fold secs in Htt.
  rewrite (app_assoc (hms_text _ _ _)), Htt.
  set (time := time_text _). unfold parse_timestamp_text. rewrite <- app_assoc.
  destruct (head_signed_body y m d (32 :: time ++ ch "+00") Hya Hm Hdd) as (h&Hh&Hh').
  rewrite (trim_id _ h 48); [|done|by rewrite !last_app, last_cons, last_app|done|lia].
  rewrite strip_minus_body by done. destruct (ymd_body_chars y m d Hya Hm Hdd) as (_&Hc&_).
  rewrite split_date_time_body by done. cbn [default from_option id]. rewrite date_fields_body by done.
  rewrite abs_if, days_from_civil_valid by done. cbn [mbind res_mbind]. rewrite He.
  pose proof (Z.mod_pos_bound secs 86400 ltac:(lia)). pose proof (Z.mod_pos_bound us MICROS ltac:(unfold MICROS; lia)).
  destruct (time_text_chars (secs mod 86400 * MICROS + us mod MICROS)) as ((b&Hb&_)&_&_&Hp); [unfold MICROS in *; lia|].
  fold time in Hb, Hp. assert (time ≠ []) as Hne by (by destruct time). rewrite split_zone_utc by done.
  cbn [mbind res_mbind]. rewrite bool_decide_false by done. rewrite Hp. cbn [mbind option_bind].
  f_equal. by apply assemble_parts.
Qed.
