(* ===== verification/ValueCodec.v ===== *)
(** The length-prefixed serialization of values, [write_value] and
    [read_value] of [crates/mpedb-types/src/value.rs]. *)

From S2P Require Import Prelude Text Value.
Local Open Scope Z_scope.

(** [(n as u32).to_le_bytes()]. *)
Definition u32_le (n : nat) : bytes := le_encode 4 (to_uint 32 (Z.of_nat n)).
Definition i64_le (x : Z) : bytes := le_encode 8 (to_uint 64 x).

Fixpoint write_value (v : Value) : bytes :=
  match v with
  | Null => [0]
  | Int x => 1 :: i64_le x
  | Float b => 2 :: le_encode 8 b
  | Bool x => [3; if x then 1 else 0]
  | Text s => 4 :: u32_le (length s) ++ s
  | Blob b => 5 :: u32_le (length b) ++ b
  | Timestamp x => 6 :: i64_le x
  | Date x => 8 :: i64_le x
  | Time x => 9 :: i64_le x
  | Numeric s => 10 :: u32_le (length s) ++ s
  | List items => 7 :: u32_le (length items) ++ flat_map write_value items
  end.

(** [take(buf, pos, n)]. *)
Definition take_n (buf : bytes) (pos : nat) (n : Z) : res (bytes * nat) :=
  if Z.of_nat pos + n <=? Z.of_nat (length buf)
  then Ok (sub pos (Z.to_nat n) buf, (pos + Z.to_nat n)%nat)
  else Err (Corrupt "truncated value").

Definition take_u32 (buf : bytes) (pos : nat) : res (Z * nat) :=
  '(b, pos) ← take_n buf pos 4; Ok (le_decode b, pos).
Definition take_i64 (buf : bytes) (pos : nat) : res (Z * nat) :=
  '(b, pos) ← take_n buf pos 8; Ok (to_sint 64 (le_decode b), pos).
Definition take_byte (buf : bytes) (pos : nat) : res (Z * nat) :=
  '(b, pos) ← take_n buf pos 1; Ok (default 0 (head b), pos).
(** A length and as many bytes. *)
Definition take_bytes (buf : bytes) (pos : nat) : res (bytes * nat) :=
  '(n, pos) ← take_u32 buf pos; take_n buf pos n.

Definition str_utf8 (e : string) (b : bytes) : res bytes :=
  if utf8_valid b then Ok b else Err (Corrupt e).

(** The loop over a list's items. The fuel bounds the turns by the bytes left,
    of which each turn reads one at least. *)
Fixpoint read_items (read : nat → res (Value * nat)) (fuel : nat) (n : Z) (pos : nat) (items : list Value)
  : res (list Value * nat) :=
  if n <=? 0 then Ok (items, pos)
  else
    match fuel with
    | O => Panic
    | S fuel =>
        '(v, pos) ← read pos;
        if is_list v then Err (Corrupt "nested context list")
        else read_items read fuel (n - 1) pos (items ++ [v])
    end.

(** [depth] is the number of nested calls the stack holds; without room for
    one more the process dies. *)
Fixpoint read_value (depth : nat) (buf : bytes) (pos : nat) : res (Value * nat) :=
  match depth with
  | O => Panic
  | S depth =>
      '(tag, pos) ← take_byte buf pos;
      if tag =? 0 then Ok (Null, pos)
      else if tag =? 1 then '(x, pos) ← take_i64 buf pos; Ok (Int x, pos)
      else if tag =? 2 then '(b, pos) ← take_n buf pos 8; Ok (Float (le_decode b), pos)
      else if tag =? 3 then
        '(b, pos) ← take_byte buf pos;
        if b =? 0 then Ok (Bool false, pos)
        else if b =? 1 then Ok (Bool true, pos)
        else Err (Corrupt "invalid bool")
      else if tag =? 4 then
        '(b, pos) ← take_bytes buf pos; s ← str_utf8 "invalid utf-8 in text value" b; Ok (Text s, pos)
      else if tag =? 5 then '(b, pos) ← take_bytes buf pos; Ok (Blob b, pos)
      else if tag =? 6 then '(x, pos) ← take_i64 buf pos; Ok (Timestamp x, pos)
      else if tag =? 7 then
        '(n, pos) ← take_u32 buf pos;
        '(items, pos) ← read_items (read_value depth buf) (S (length buf - pos)) n pos [];
        Ok (List items, pos)
      else if tag =? 8 then '(x, pos) ← take_i64 buf pos; Ok (Date x, pos)
      else if tag =? 9 then '(x, pos) ← take_i64 buf pos; Ok (Time x, pos)
      else if tag =? 10 then
        '(b, pos) ← take_bytes buf pos; s ← str_utf8 "invalid utf-8 in numeric value" b; Ok (Numeric s, pos)
      else Err (Corrupt "invalid value tag")
  end.

(** * Round trip *)

Definition short (s : bytes) : Prop := Z.of_nat (length s) < 2 ^ 32.

(** A scalar of machine width. *)
Definition scalar (v : Value) : Prop :=
  match v with
  | Null | Bool _ => True
  | Int x | Timestamp x | Date x | Time x => is_sint 64 x
  | Float b => is_uint 64 b
  | Text s | Numeric s => short s ∧ utf8_valid s = true
  | Blob b => short b
  | List _ => False
  end.

(** A value as a session holds it: a scalar, or a list of scalars. *)
Definition param (v : Value) : Prop :=
  match v with List items => Z.of_nat (length items) < 2 ^ 32 ∧ Forall scalar items | _ => scalar v end.

(** [d] reads [a] where [e] lies. *)
Definition reads_back {A} (d : bytes → nat → res (A * nat)) (e : bytes) (a : A) : Prop :=
  ∀ pre rest, d (pre ++ e ++ rest) (length pre) = Ok (a, (length pre + length e)%nat).

Lemma take_n_at e n : Z.of_nat (length e) = n → reads_back (λ buf pos, take_n buf pos n) e e.
Proof.
  intros Hn pre rest. unfold take_n. rewrite !length_app, (proj2 (Z.leb_le _ _)) by lia.
  rewrite <- Hn, Nat2Z.id. rewrite sub_app_r by lia. by rewrite Nat.sub_diag, sub_app_exact.
Qed.

Section Steps.
Context {A B : Type}.

Lemma reads_bind (d : bytes → nat → res (A * nat)) (k : A → bytes → nat → res (B * nat)) e1 e2 a b :
  reads_back d e1 a → reads_back (k a) e2 b →
  reads_back (λ buf pos, '(x, p) ← d buf pos; k x buf p) (e1 ++ e2) b.
Proof.
  intros H1 H2 pre rest. rewrite <- app_assoc, H1. cbn. rewrite <- length_app, app_assoc, H2.
  by rewrite !length_app, Nat.add_assoc.
Qed.

Lemma reads_map (d : bytes → nat → res (A * nat)) (f : A → B) e a : reads_back d e a →
  reads_back (λ buf pos, '(x, p) ← d buf pos; Ok (f x, p)) e (f a).
Proof. intros H pre rest. by rewrite H. Qed.
End Steps.

Lemma take_byte_at b : reads_back take_byte [b] b.
Proof. intros pre rest. unfold take_byte. by rewrite (take_n_at [b] 1). Qed.

Lemma take_u32_at n : Z.of_nat n < 2 ^ 32 → reads_back take_u32 (u32_le n) (Z.of_nat n).
Proof.
  intros Hn pre rest. unfold take_u32, u32_le. rewrite (take_n_at _ 4) by by rewrite length_le_encode.
  cbn. rewrite le_decode_encode_id; [|split; [apply Z.mod_pos_bound; lia|apply Z.mod_pos_bound; lia]].
  unfold to_uint. by rewrite Z.mod_small by lia.
Qed.

Lemma take_i64_at x : is_sint 64 x → reads_back take_i64 (i64_le x) x.
Proof.
  intros Hx pre rest. unfold take_i64, i64_le. rewrite (take_n_at _ 8) by by rewrite length_le_encode.
  cbn. rewrite le_decode_encode_id; [|split; [apply Z.mod_pos_bound; lia|apply Z.mod_pos_bound; lia]].
  by rewrite to_sint_to_uint by (done || lia).
Qed.

Lemma take_bytes_at s : short s → reads_back take_bytes (u32_le (length s) ++ s) s.
Proof.
  intros Hs. apply (reads_bind take_u32 (λ n buf pos, take_n buf pos n) _ _ (Z.of_nat (length s)));
    [by apply take_u32_at|by apply take_n_at].
Qed.

Lemma reads_tag {B} t (k : Z → bytes → nat → res (B * nat)) e b : reads_back (k t) e b →
  reads_back (λ buf pos, '(x, p) ← take_byte buf pos; k x buf p) (t :: e) b.
Proof. intros H. apply (reads_bind take_byte k [t] e t b); [apply take_byte_at|done]. Qed.

Create HintDb reads.
#[export] Hint Resolve take_i64_at take_bytes_at take_u32_at : reads.

Lemma scalar_at depth v : scalar v → reads_back (read_value (S depth)) (write_value v) v.
Proof.
  intros Hv. destruct v; cbn [scalar write_value] in *; try done; cbn [read_value]; apply reads_tag; cbn [Z.eqb Pos.eqb];
    try (apply reads_map; by auto with reads).
  - intros pre rest. by rewrite Nat.add_0_r.
  - intros pre rest. rewrite (take_n_at _ 8) by by rewrite length_le_encode. cbn.
    by rewrite le_decode_encode_id by done.
  - intros pre rest. rewrite (take_byte_at (if x then 1 else 0)). by destruct x.
  - destruct Hv as [Hs Hu]. intros pre rest. rewrite take_bytes_at by done. cbn. unfold str_utf8. by rewrite Hu.
  - destruct Hv as [Hs Hu]. intros pre rest. rewrite take_bytes_at by done. cbn. unfold str_utf8. by rewrite Hu.
Qed.

Lemma write_value_cons v : ∃ t e, write_value v = t :: e.
Proof. destruct v; by eexists _, _. Qed.

Lemma length_items items : (length items ≤ length (flat_map write_value items))%nat.
Proof.
  induction items as [|v items IH]; [done|]. cbn [flat_map length]. rewrite length_app.
  destruct (write_value_cons v) as (t&e&->). cbn [length]. lia.
Qed.

Lemma read_items_at depth items : Forall scalar items → ∀ fuel pre rest acc, (length items ≤ fuel)%nat →
  read_items (read_value (S depth) (pre ++ flat_map write_value items ++ rest)) fuel (Z.of_nat (length items)) (length pre) acc =
    Ok (acc ++ items, (length pre + length (flat_map write_value items))%nat).
Proof.
  induction 1 as [|v items Hv Hi IH]; intros fuel pre rest acc Hf.
  { destruct fuel; cbn; by rewrite app_nil_r, Nat.add_0_r. }
  destruct fuel as [|fuel]; [cbn in Hf; lia|]. cbn [read_items flat_map length].
  rewrite (proj2 (Z.leb_gt _ _)) by lia. rewrite <- app_assoc, scalar_at by done. cbn [mbind res_mbind].
  assert (is_list v = false) as -> by (by destruct v).
  replace (Z.of_nat (S (length items)) - 1) with (Z.of_nat (length items)) by lia.
  specialize (IH fuel (pre ++ write_value v) rest (acc ++ [v])). rewrite <- !app_assoc, length_app in IH.
  rewrite IH by (cbn in Hf; lia). rewrite length_app, Nat.add_assoc. done.
Qed.

Lemma param_at depth v : param v → reads_back (read_value (S (S depth))) (write_value v) v.
Proof.
  intros Hv. destruct v; try (by apply scalar_at). destruct Hv as [Hl Hi]. cbn [write_value].
  remember (S depth) as d eqn:Hd. cbn [read_value]. apply reads_tag. cbn [Z.eqb Pos.eqb].
  apply (reads_bind take_u32 _ _ _ (Z.of_nat (length items))); [by apply take_u32_at|].
  intros pre rest. subst d. rewrite read_items_at; [done|done|].
  rewrite !length_app. pose proof (length_items items). lia.
Qed.

(** * Any bytes *)

(** A value the decoder returns holds no list inside a list. *)
Definition flat (v : Value) : Prop := match v with List items => Forall (λ i, is_list i = false) items | _ => True end.

Lemma take_n_yields buf pos n (Q : bytes * nat → Prop) : 0 ≤ n →
  (∀ s p, Z.of_nat p = Z.of_nat pos + n → (p ≤ length buf)%nat → Q (s, p)) → yields (take_n buf pos n) Q.
Proof. intros Hn HQ. unfold take_n. destruct (Z.leb_spec (Z.of_nat pos + n) (Z.of_nat (length buf))); cbn; [|done]. apply HQ; lia. Qed.

Lemma le_decode_nonneg l : Forall is_byte l → 0 ≤ le_decode l.
Proof. intros H. pose proof (le_decode_bound l H). lia. Qed.

Section Any.
Context (buf : bytes) (Hbuf : Forall is_byte buf).

(** The position moved on, within the buffer. *)
Definition advanced {A} (pos : nat) (r : A * nat) : Prop := (pos < r.2 ≤ length buf)%nat.

Lemma take_byte_yields pos (Q : Z * nat → Prop) :
  (∀ b, (pos < length buf)%nat → Q (b, S pos)) → yields (take_byte buf pos) Q.
Proof.
  intros HQ. apply yields_bind, take_n_yields; [done|]. intros s p Hp Hl.
  replace p with (S pos) by lia. apply HQ. lia.
Qed.

Lemma take_i64_yields pos (Q : Z * nat → Prop) :
  (∀ x, (pos + 8 ≤ length buf)%nat → Q (x, (pos + 8)%nat)) → yields (take_i64 buf pos) Q.
Proof.
  intros HQ. apply yields_bind, take_n_yields; [done|]. intros s p Hp Hl.
  replace p with (pos + 8)%nat by lia. apply HQ. lia.
Qed.

Lemma take_u32_yields pos (Q : Z * nat → Prop) :
  (∀ n, 0 ≤ n → (pos + 4 ≤ length buf)%nat → Q (n, (pos + 4)%nat)) → yields (take_u32 buf pos) Q.
Proof.
  intros HQ. unfold take_u32, take_n. destruct (Z.leb_spec (Z.of_nat pos + 4) (Z.of_nat (length buf))); [|done].
  cbn. apply HQ; [|lia]. apply le_decode_nonneg. by apply Forall_sub.
Qed.

Lemma take_bytes_yields pos (Q : bytes * nat → Prop) :
  (∀ s p, (pos < p ≤ length buf)%nat → Q (s, p)) → yields (take_bytes buf pos) Q.
Proof.
  intros HQ. apply yields_bind, take_u32_yields. intros n Hn Hl. apply take_n_yields; [done|].
  intros s p Hp Hl'. apply HQ. lia.
Qed.

Lemma str_utf8_yields e b (Q : bytes → Prop) : Q b → yields (str_utf8 e b) Q.
Proof. unfold str_utf8. by case_match. Qed.

Lemma read_items_yields (read : nat → res (Value * nat)) :
  ∀ fuel n pos items,
  (∀ p, (pos ≤ p)%nat → yields (read p) (advanced p)) → (length buf - pos < fuel)%nat →
  Forall (λ i, is_list i = false) items →
  yields (read_items read fuel n pos items) (λ r, Forall (λ i, is_list i = false) r.1 ∧ (pos ≤ r.2 ≤ length buf ∨ r.2 = pos)%nat).
Proof.
  induction fuel as [|fuel IH]; intros n pos items Hr Hf Hi; [lia|]. cbn [read_items].
  destruct (n <=? 0); [cbn; split; [done|by right]|]. apply yields_bind. eapply yields_mono; [by apply Hr|].
  intros [v p] Hp. unfold advanced in Hp. cbn [snd] in Hp. destruct (is_list v) eqn:Hv; [done|].
  eapply yields_mono; [apply IH|].
  - intros q Hq. apply Hr. lia.
  - lia.
  - apply Forall_app. by rewrite Forall_singleton.
  - intros [vs q] [? ?]. cbn [fst snd] in *. split; [done|]. left. lia.
Qed.

(** As many nested calls as there are bytes left are enough. *)
Lemma read_value_yields depth : ∀ pos, (length buf - pos < depth)%nat →
  yields (read_value depth buf pos) (λ r, flat r.1 ∧ advanced pos r).
Proof.
  induction depth as [|depth IH]; intros pos Hd; [lia|]. cbn [read_value].
  apply yields_bind, take_byte_yields. intros tag Hpos.
  assert (∀ f : Z → Value, (∀ x, flat (f x)) →
    yields ('(x, p) ← take_i64 buf (S pos); Ok (f x, p)) (λ r, flat r.1 ∧ advanced pos r)) as Hi64.
  { intros f Hf. apply yields_bind, take_i64_yields. intros x Hl. split; [apply Hf|unfold advanced; cbn; lia]. }
  assert (∀ e (f : bytes → Value), (∀ b, flat (f b)) →
    yields ('(b, p) ← take_bytes buf (S pos); s ← str_utf8 e b; Ok (f s, p)) (λ r, flat r.1 ∧ advanced pos r)) as Hstr.
  { intros e f Hf. apply yields_bind, take_bytes_yields. intros b p Hp. apply yields_bind, str_utf8_yields.
    split; [apply Hf|unfold advanced; cbn; lia]. }
  repeat (case_match; [first [by apply Hi64|by apply Hstr|idtac]|]); [..|done].
  - split; [done|unfold advanced; cbn; lia].
  - apply yields_bind, take_n_yields; [done|]. intros b p Hp Hl. split; [done|unfold advanced; cbn; lia].
  - apply yields_bind, take_byte_yields. intros b Hl. repeat case_match; try done;
      (split; [done|unfold advanced; cbn; lia]).
  - apply yields_bind, take_bytes_yields. intros b p Hp. split; [done|unfold advanced; cbn; lia].
  - apply yields_bind, take_u32_yields. intros n Hn Hl. apply yields_bind.
    eapply yields_mono; [apply (read_items_yields _ _ n (S pos + 4) [])|].
    + intros q Hq. destruct (decide (length buf - q < depth)%nat).
      * eapply yields_mono; [by apply IH|]. by intros r [_ ?].
      * lia.
    + lia.
    + constructor.
    + intros [vs q] [Hvs Hq]. cbn [fst snd] in *. split; [done|unfold advanced; cbn; lia].
Qed.
End Any.

(** * Depth *)

(** A list in a list in a list, [d] deep. *)
Fixpoint nested (d : nat) : bytes :=
  match d with O => [0] | S d => 7 :: u32_le 1 ++ nested d end.

Lemma length_nested d : length (nested d) = (5 * d + 1)%nat.
Proof. induction d as [|d IH]; [done|]. cbn [nested length]. rewrite length_app, IH. unfold u32_le. rewrite length_le_encode. lia. Qed.

Lemma nested_bytes d : Forall is_byte (nested d).
Proof.
  induction d as [|d IH]; cbn [nested]; (constructor; [split; vm_compute; congruence|]); [constructor|].
  apply Forall_app. split; [apply le_encode_bytes|done].
Qed.

(** Each level costs one more nested call, before any of them is rejected. *)
Lemma nested_depth d : ∀ depth pre, (depth ≤ d)%nat → read_value depth (pre ++ nested d) (length pre) = Panic.
Proof.
  induction d as [|d IH]; intros [|depth] pre Hd; try done; [lia|]. cbn [read_value nested].
  pose proof (take_byte_at 7 pre (u32_le 1 ++ nested d)) as Ht. cbn [app length] in Ht. rewrite Ht.
  cbn [mbind res_mbind Z.eqb Pos.eqb].
  pose proof (take_u32_at 1 ltac:(lia) (pre ++ [7]) (nested d)) as Hu. rewrite <- !app_assoc, length_app in Hu.
  cbn [app length] in Hu. rewrite Hu. cbn [mbind res_mbind read_items Z.leb Z.compare].
  specialize (IH depth (pre ++ 7 :: u32_le 1) ltac:(lia)). rewrite <- !app_assoc in IH. cbn [app] in IH.
  replace (length pre + 1 + length (u32_le 1))%nat with (length (pre ++ 7 :: u32_le 1)).
  - rewrite IH. done.
  - rewrite length_app. cbn [length]. lia.
Qed.
