(* ===== verification/ValueTheorems.v ===== *)
(** Dates, decimals and parameter values: what the text and binary codecs of
    [value.rs] promise. *)

From S2P Require Import Prelude Text Value FloatOrder Keycode KeycodeOrder NumericOrder Decimal.
From S2P Require Import Calendar DateText DateTextRoundtrip ValueCodec.
Local Open Scope Z_scope.

(** C27. [civil_from_days] counts days: day 0 is 1970-01-01, the day after is
    the next date of the Gregorian calendar, every answer is a date, and
    [days_from_civil] inverts it; the other way round every date is answered
    by its day, and what is not a date by nothing. *)
Theorem calendar_counts_days :
  civil_from_days 0 = Ok (1970, 1, 1) ∧
  (∀ days, - 2 ^ 61 ≤ days < 2 ^ 61 → ∃ y m d, civil_from_days days = Ok (y, m, d) ∧ valid_date y m d ∧
     civil_from_days (days + 1) = Ok (next_day (y, m, d)) ∧ days_from_civil y m d = Ok (Some days)) ∧
  (∀ y m d, - YEAR_BOUND ≤ y ≤ YEAR_BOUND → valid_date y m d →
     ∃ days, days_from_civil y m d = Ok (Some days) ∧ civil_from_days days = Ok (y, m, d)) ∧
  (∀ y m d, ¬ valid_date y m d → days_from_civil y m d = Ok None).
Proof.
  split_and!; [done| | |apply days_from_civil_invalid].
  - intros days Hd. pose proof (civil_valid days) as Hv. pose proof (civil_succ days) as Hs.
    pose proof (civil_year_bound days ltac:(lia)) as Hy. rewrite !civil_from_days_eq, Hs by (unfold DAY_BOUND; lia).
    destruct (civil days) as [[y m] d]. destruct Hv as [Hv Hn]. exists y, m, d. split_and!; [done..|].
    rewrite days_from_civil_valid by done. by rewrite Hn.
  - intros y m d Hy Hv. exists (day_number y m d). rewrite days_from_civil_valid by done. split; [done|].
    rewrite civil_from_days_eq by (by apply day_number_bound). by rewrite civil_day_number.
Qed.

Lemma calendar_counts_days_witness :
  ∃ y m d, civil_from_days 11016 = Ok (y, m, d) ∧ valid_date y m d ∧
    civil_from_days (11016 + 1) = Ok (next_day (y, m, d)) ∧ days_from_civil y m d = Ok (Some 11016).
Proof. apply calendar_counts_days. lia. Defined.

(** What the printers write, the parsers read: every date of some six
    quadrillion years, every time of day with its microseconds, and every
    timestamp an [i64] of microseconds holds from its first whole second. *)
Theorem datetime_text_roundtrip :
  (∀ days, - 2 ^ 61 ≤ days ≤ 2 ^ 61 → ∃ t, date_text days = Ok t ∧ parse_date_text t = Ok (Some days)) ∧
  (∀ us, 0 ≤ us ≤ 86400 * MICROS → parse_time_text (time_text us) = Some us) ∧
  (∀ us, FIRST_SECOND ≤ us < 2 ^ 63 → ∃ t, timestamp_text us = Ok t ∧ parse_timestamp_text t = Ok (Some us)).
Proof.
  split_and!; [apply date_roundtrip| |apply timestamp_roundtrip].
  intros us Hus. by destruct (time_text_chars us Hus) as (_&_&_&?).
Qed.

Lemma datetime_text_roundtrip_witness :
  ∃ t, timestamp_text (-62167219200000001) = Ok t ∧ parse_timestamp_text t = Ok (Some (-62167219200000001)).
Proof. apply datetime_text_roundtrip. vm_compute. split; congruence. Defined.

(** Text the date parsers do not survive: a year at the end of the [i64]
    range overflows, a zone of four bytes is cut inside a character, and the
    first, partial second of the timestamp range prints but does not parse. *)
Theorem datetime_text_limits :
  parse_date_text (ch "9223372036854775807-12-31") = Panic ∧
  parse_timestamp_text (ch "2020-01-01 00:00+a" ++ [226; 130; 172]) = Panic ∧
  (∃ t, timestamp_text (- 2 ^ 63) = Ok t ∧ parse_timestamp_text t = Ok None).
Proof. split_and!; [vm_compute; reflexivity..|]. eexists. split; [vm_compute; reflexivity|]. vm_compute. reflexivity. Qed.

(** C28. [numeric_cmp] orders decimals by their exact value: for two parsed
    decimals with mantissas [m], [n] and scales [i], [j], as [decimal_parts]
    reads them, it compares [m * 10^j] with [n * 10^i]. And [decimal_text]
    spells a mantissa and a scale so that they read back. *)
Theorem numeric_cmp_exact :
  (∀ s t a b m i n j, parse_numeric s = Some a → parse_numeric t = Some b →
     decimal_parts a = Some (m, i) → decimal_parts b = Some (n, j) →
     numeric_cmp a b = (m * 10 ^ j ?= n * 10 ^ i)) ∧
  (∀ m scale, Z.abs m ≤ I128_MAX → Z.of_nat scale < 2 ^ 32 →
     decimal_parts (decimal_text m scale) = Some (m, Z.of_nat scale)).
Proof.
  split; [|apply decimal_roundtrip].
  intros s t a b m i n j Ha%parse_numeric_decimal Hb%parse_numeric_decimal.
  by apply numeric_cmp_exact_value.
Qed.

Lemma numeric_cmp_exact_witness : numeric_cmp (ch "-0.0120") (ch "-0.01") = Lt.
Proof.
  rewrite (proj1 numeric_cmp_exact (ch "-1.20e-2") (ch "-.01") (ch "-0.0120") (ch "-0.01") (-120) 4 (-1) 2);
    vm_compute; reflexivity.
Defined.

(** C29. The binary form of a session's values: a scalar, or a list of
    scalars, written among any other bytes reads back as it was, and the
    position moves past it. *)
Theorem value_codec_roundtrip depth v pre rest : (2 ≤ depth)%nat → param v →
  read_value depth (pre ++ write_value v ++ rest) (length pre) = Ok (v, (length pre + length (write_value v))%nat).
Proof. intros Hd Hv. destruct depth as [|[|depth]]; [lia..|]. by apply (param_at depth v Hv). Qed.

Lemma value_codec_roundtrip_witness :
  read_value 2 ([9; 9] ++ write_value (List [Int (-5); Text (ch "a"); Null]) ++ [1]) 2 =
    Ok (List [Int (-5); Text (ch "a"); Null], 23%nat).
Proof.
  apply (value_codec_roundtrip 2 (List [Int (-5); Text (ch "a"); Null]) [9; 9] [1]); [lia|].
  split; [vm_compute; reflexivity|]. repeat (constructor; [vm_compute; try (split; congruence); try done|]). constructor.
Defined.

(** C30. Reading ends on any bytes, with a value or an error and never past the
    end, when the stack holds as many calls as there are bytes left; the value
    holds no list inside a list. *)
Theorem read_value_total buf pos depth : Forall is_byte buf → (length buf - pos < depth)%nat →
  match read_value depth buf pos with
  | Ok (v, p) => flat v ∧ (pos < p ≤ length buf)%nat
  | Err _ => True
  | Panic => False
  end.
Proof.
  intros Hb Hd. pose proof (read_value_yields buf Hb depth pos Hd) as Hy. unfold yields in Hy.
  by destruct (read_value depth buf pos) as [[v p]| |].
Qed.

Lemma read_value_total_witness :
  match read_value 7 [7; 255; 255; 255; 255; 0] 0 with Panic => False | _ => True end.
Proof.
  pose proof (read_value_total [7; 255; 255; 255; 255; 0] 0 7) as H.
  destruct (read_value 7 [7; 255; 255; 255; 255; 0] 0); [exact I|exact I|].
  apply H; [repeat (constructor; [split; vm_compute; congruence|]); constructor|vm_compute; lia].
Defined.

(** A nested list is rejected only after it was read: for every stack
    there are bytes, five per call, that exhaust it. *)
Theorem nested_lists_exhaust_stack depth :
  ∃ buf, Forall is_byte buf ∧ length buf = (5 * depth + 1)%nat ∧ read_value depth buf 0 = Panic.
Proof.
  exists (nested depth). split_and!; [apply nested_bytes|apply length_nested|].
  by apply (nested_depth depth depth []).
Qed.
