(* ===== verification/Row.v ===== *)
(** The row codec of [crates/mpedb-core/src/row.rs]: a null bitmap, a
    fixed-width slot per column, then the bodies of the text, blob and decimal
    columns. *)

From S2P Require Import Prelude Text Value.
Local Open Scope Z_scope.

Definition fixed_width (ty : ColumnType) : nat :=
  match ty with TBool => 1 | TAny => 9 | _ => 8 end.

Definition any_tag (v : Value) : Z :=
  match v with
  | Null => 0
  | Int _ => type_tag Int64
  | Float _ => type_tag Float64
  | Bool _ => type_tag TBool
  | Text _ => type_tag TText
  | Blob _ => type_tag TBlob
  | Timestamp _ => type_tag TTimestamp
  | Date _ => type_tag TDate
  | Time _ => type_tag TTime
  | Numeric _ => type_tag TNumeric
  | List _ => 0
  end.

(** [ncols.div_ceil(8)]. *)
Definition bitmap_len (ncols : nat) : nat := ((ncols + 7) / 8)%nat.
Definition widths (types : list ColumnType) : nat := sum_list (map fixed_width types).
Definition head_len (types : list ColumnType) : nat := (bitmap_len (length types) + widths types)%nat.

(** * Encoding *)

(** [head[off] = b]. *)
Definition set_byte (off : nat) (b : Z) (head : bytes) : res bytes := blit off [b] head.

(** [head[i / 8] |= 1 << (i % 8)]. *)
Definition set_null (i : nat) (head : bytes) : res bytes :=
  match head !! (i / 8)%nat with
  | Some b => set_byte (i / 8) (Z.lor b (Z.shiftl 1 (Z.of_nat (i mod 8)))) head
  | None => Panic
  end.

Definition U32_MAX : Z := 2 ^ 32 - 1.

(** [(n as u32).to_le_bytes()]. *)
Definition le32 (n : nat) : bytes := le_encode 4 (to_uint 32 (Z.of_nat n)).

(** What the loop carries: the head, the bodies in order, their length so far
    and the cursor. *)
Record Enc := MkEnc { e_head : bytes; e_bodies : list bytes; e_var : nat; e_cursor : nat }.

(** The arm of a text, blob or decimal. *)
Definition put_body (off : nat) (b : bytes) (head : bytes) (e : Enc) : res (bytes * list bytes * nat) :=
  if U32_MAX <? Z.of_nat (length b) then Err (Unsupported "value larger than 4 GiB")
  else
    head ← blit off (le32 (e_var e)) head;
    head ← blit (off + 4) (le32 (length b)) head;
    Ok (head, e_bodies e ++ [b], (e_var e + length b)%nat).

Definition encode_column (i : nat) (v : Value) (ty : ColumnType) (e : Enc) : res Enc :=
  let w := fixed_width ty in
  '(head, off) ← (if bool_decide (ty = TAny) && negb (is_null v)
                  then h ← set_byte (e_cursor e) (any_tag v) (e_head e); Ok (h, S (e_cursor e))
                  else Ok (e_head e, e_cursor e));
  let keep (head : bytes) := Ok (head, e_bodies e, e_var e) in
  '(head, bodies, var) ←
    match v with
    | Null => h ← set_null i head; keep h
    | Int x | Timestamp x | Date x | Time x => h ← blit off (le_encode 8 (to_uint 64 x)) head; keep h
    | Float b => h ← blit off (le_encode 8 b) head; keep h
    | Bool x => h ← set_byte off (if x then 1 else 0) head; keep h
    | Text s | Numeric s => put_body off s head e
    | Blob b => put_body off b head e
    | List _ => Err (TypeMismatch "a context list cannot be stored in a column")
    end;
  Ok (MkEnc head bodies var (e_cursor e + w)).

Fixpoint encode_columns (i : nat) (values : list Value) (types : list ColumnType) (e : Enc) : res Enc :=
  match values, types with
  | v :: values, ty :: types => e ← encode_column i v ty e; encode_columns (S i) values types e
  | _, _ => Ok e
  end.

(** The first line is a [debug_assert]. *)
Definition encode_row_parts (values : list Value) (types : list ColumnType) : res (bytes * list bytes) :=
  if bool_decide (length values ≠ length types) then Panic
  else
    let nbm := bitmap_len (length types) in
    e ← encode_columns 0 values types (MkEnc (replicate (nbm + widths types) 0) [] 0 nbm);
    Ok (e_head e, e_bodies e).

Definition encode_row (values : list Value) (types : list ColumnType) : res bytes :=
  '(head, bodies) ← encode_row_parts values types; Ok (head ++ concat bodies).

Definition var_total (values : list Value) : nat :=
  sum_list (map (λ v, match v with Text s | Numeric s => length s | Blob b => length b | _ => 0%nat end) values).
Definition encoded_len (values : list Value) (types : list ColumnType) : nat :=
  (bitmap_len (length types) + widths types + var_total values)%nat.

(** The last text or blob column. *)
Fixpoint last_varlen (i : nat) (values : list Value) : option nat :=
  match values with
  | [] => None
  | v :: values =>
      match last_varlen (S i) values with
      | Some j => Some j
      | None => match v with Text _ | Blob _ => Some i | _ => None end
      end
  end.

Definition encode_row_head_for_stream (values : list Value) (types : list ColumnType) (stream_col stream_len : nat)
  : res (bytes * nat) :=
  if match last_varlen 0 values with Some i => bool_decide (stream_col < i)%nat | None => false end
  then Err (Unsupported "the streamed column must be the last variable-length column in the row")
  else
    '(head, bodies) ← encode_row_parts values types;
    let nbm := bitmap_len (length types) in
    before ← slice 0 stream_col types;
    ty ← match types !! stream_col with Some t => Ok t | None => Panic end;
    let off := (nbm + widths before)%nat in
    let off := if bool_decide (ty = TAny) then S off else off in
    let var_off := sum_list (map length bodies) in
    if U32_MAX <? Z.of_nat stream_len then Err (Unsupported "value larger than 4 GiB")
    else
      head ← blit off (le32 var_off) head;
      head ← blit (off + 4) (le32 stream_len) head;
      let head := head ++ concat bodies in
      Ok (head, (length head + stream_len)%nat).

(** * Decoding *)

Definition truncated : Error := Corrupt "truncated row".
Definition get_or {A} (e : Error) (i : nat) (buf : list A) : res A := res_of_option e (buf !! i).

(** [byte & (1 << (i % 8)) != 0]. *)
Definition null_bit (byte : Z) (i : nat) : bool :=
  negb (Z.land byte (Z.shiftl 1 (Z.of_nat (i mod 8))) =? 0).

(** What an [any] slot holds, or the column's own type. *)
Definition resolve_type (buf : bytes) (ty : ColumnType) (off : nat) : res (ColumnType * nat) :=
  if bool_decide (ty = TAny) then
    tag ← get_or truncated off buf;
    match from_tag tag with
    | Some t => if bool_decide (t = TAny) then Err (Corrupt "invalid any value tag") else Ok (t, S off)
    | None => Err (Corrupt "invalid any value tag")
    end
  else Ok (ty, off).

(** The body an (offset, length) pair points to. *)
Definition read_body (buf : bytes) (fixed_end off : nat) : res bytes :=
  raw ← res_of_option truncated (get_range off (off + 8) buf);
  let var_off := le_decode (take 4 raw) in
  let len := le_decode (drop 4 raw) in
  let start := Z.of_nat fixed_end + var_off in
  if start + len <=? Z.of_nat (length buf)
  then Ok (sub (Z.to_nat start) (Z.to_nat len) buf) else Err truncated.

Definition decode_slot (buf : bytes) (fixed_end : nat) (ty : ColumnType) (off : nat) : res Value :=
  match ty with
  | TAny => Err (Internal "any tag resolved to any")
  | TBool =>
      b ← get_or truncated off buf;
      if b =? 0 then Ok (Bool false) else if b =? 1 then Ok (Bool true) else Err (Corrupt "invalid bool in row")
  | Int64 | TTimestamp | TDate | TTime =>
      raw ← res_of_option truncated (get_range off (off + 8) buf);
      let x := to_sint 64 (le_decode raw) in
      Ok (match ty with TTimestamp => Timestamp x | TDate => Date x | TTime => Time x | _ => Int x end)
  | Float64 =>
      raw ← res_of_option truncated (get_range off (off + 8) buf);
      Ok (Float (le_decode raw))
  | TText | TBlob | TNumeric =>
      bytes ← read_body buf fixed_end off;
      if bool_decide (ty = TBlob) then Ok (Blob bytes)
      else if utf8_valid bytes
      then Ok (if bool_decide (ty = TNumeric) then Numeric bytes else Text bytes)
      else Err (Corrupt "invalid utf-8 in row")
  end.

(** One column, its offset summed from the types before it. *)
Definition decode_column (buf : bytes) (types : list ColumnType) (col : nat) : res Value :=
  match types !! col with
  | None => Err (Internal "column out of range")
  | Some ty =>
      let nbm := bitmap_len (length types) in
      bm_byte ← get_or truncated (col / 8) buf;
      if null_bit bm_byte col then Ok Null
      else
        let off := (nbm + widths (take col types))%nat in
        let fixed_end := (nbm + widths types)%nat in
        '(ty, off) ← resolve_type buf ty off;
        decode_slot buf fixed_end ty off
  end.

(** The loop of [decode_row_masked], the offset carried along. *)
Fixpoint decode_loop (buf : bytes) (fixed_end : nat) (keep : option (list bool)) (n_out i off : nat)
    (types : list ColumnType) : res (list Value) :=
  match n_out, types with
  | S n_out, ty :: types =>
      let w := fixed_width ty in
      v ← (if match keep with Some k => negb (default false (k !! i)) | None => false end then Ok Null
           else
             bm_byte ← get_or truncated (i / 8) buf;
             if null_bit bm_byte i then Ok Null
             else '(vty, voff) ← resolve_type buf ty off; decode_slot buf fixed_end vty voff);
      out ← decode_loop buf fixed_end keep n_out (S i) (off + w) types;
      Ok (v :: out)
  | _, _ => Ok []
  end.

Definition decode_row_masked (buf : bytes) (types : list ColumnType) (keep : option (list bool)) : res (list Value) :=
  let n_out := match keep with Some k => Nat.min (length k) (length types) | None => length types end in
  let nbm := bitmap_len (length types) in
  decode_loop buf (nbm + widths types) keep n_out 0 nbm types.

Definition decode_row (buf : bytes) (types : list ColumnType) : res (list Value) :=
  decode_row_masked buf types None.

(** The window of a text or blob column inside the row image. *)
Definition varlen_window (head : bytes) (types : list ColumnType) (col : nat) : res (option (Z * Z)) :=
  let e := Corrupt "truncated row head" in
  ty ← get_or (Internal "column out of range") col types;
  if negb (bool_decide (ty = TText) || bool_decide (ty = TBlob))
  then Err (Unsupported "chunked reads need a rigid text/blob column")
  else
    bm_byte ← get_or e (col / 8) head;
    if null_bit bm_byte col then Ok None
    else
      let off := (bitmap_len (length types) + widths (take col types))%nat in
      raw ← res_of_option e (get_range off (off + 8) head);
      let var_off := le_decode (take 4 raw) in
      let len := le_decode (drop 4 raw) in
      Ok (Some (Z.of_nat (head_len types) + var_off, len)).
