(* ===== verification/RowCodec.v ===== *)
(** Rows: what [encode_row] lays out, [decode_column] and [decode_row] read;
    the one-pass decoder is the per-column one; a streamed or windowed body is
    where the head says. *)

From S2P Require Import Prelude Text Value Row.
Local Open Scope Z_scope.

(** * One pass and column by column *)

Definition kept (keep : option (list bool)) (i : nat) : bool :=
  match keep with Some k => default false (k !! i) | None => true end.

Lemma widths_app a b : widths (a ++ b) = (widths a + widths b)%nat.
Proof. unfold widths. by rewrite map_app, sum_list_app. Qed.

Lemma decode_loop_columns buf keep rest : ∀ before n_out, (n_out ≤ length rest)%nat →
  let types := before ++ rest in
  let nbm := bitmap_len (length types) in
  decode_loop buf (nbm + widths types) keep n_out (length before) (nbm + widths before) rest =
  mapM (λ i, if kept keep i then decode_column buf types i else Ok Null) (seq (length before) n_out).
Proof.
  induction rest as [|ty rest IH]; intros before n_out Hn types nbm; destruct n_out as [|n_out];
    [done|exfalso; cbn in Hn; lia|done|]. cbn [decode_loop seq mapM].
  assert ((match keep with Some k => negb (default false (k !! length before)) | None => false end) = negb (kept keep (length before))) as ->
    by (by destruct keep).
  assert (types !! length before = Some ty) as Hty by (unfold types; by rewrite list_lookup_middle).
  assert ((if negb (kept keep (length before)) then Ok Null
      else bm_byte ← get_or truncated (length before / 8) buf;
           if null_bit bm_byte (length before) then Ok Null
           else '(vty, voff) ← resolve_type buf ty (nbm + widths before); decode_slot buf (nbm + widths types) vty voff) =
     (if kept keep (length before) then decode_column buf types (length before) else Ok Null)) as ->.
  { destruct (kept keep (length before)); [|done]. cbn [negb]. unfold decode_column. rewrite Hty.
    assert (take (length before) types = before) as -> by (unfold types; by rewrite take_app_length).
    done. }
  destruct (if kept keep (length before) then decode_column buf types (length before) else Ok Null) as [v| |]; [|done..].
  cbn [mbind res_mbind]. specialize (IH (before ++ [ty]) n_out). cbn zeta in IH.
  assert ((before ++ [ty]) ++ rest = types) as Ht by (unfold types; by rewrite <- app_assoc).
  assert (length (before ++ [ty]) = S (length before)) as Hl by (rewrite length_app; cbn; lia).
  assert (widths (before ++ [ty]) = (widths before + fixed_width ty)%nat) as Hw
    by (rewrite widths_app; unfold widths; cbn; unfold id; lia).
  rewrite Ht, Hl, Hw in IH. fold nbm in IH. rewrite Nat.add_assoc in IH.
  rewrite IH by (cbn in Hn; lia). done.
Qed.

Lemma decode_row_masked_columns buf types keep :
  decode_row_masked buf types keep =
  mapM (λ i, if kept keep i then decode_column buf types i else Ok Null)
    (seq 0 (match keep with Some k => Nat.min (length k) (length types) | None => length types end)).
Proof.
  unfold decode_row_masked. pose proof (decode_loop_columns buf keep types []) as H. cbn zeta in H.
  cbn [app length] in H. change (widths []) with 0%nat in H. rewrite Nat.add_0_r in H. apply H.
  destruct keep; lia.
Qed.

(** * Null bitmap *)

Lemma null_bit_spec b i : null_bit b i = Z.testbit b (Z.of_nat (i mod 8)).
Proof.
  unfold null_bit. rewrite Z.shiftl_1_l. set (k := Z.of_nat (i mod 8)). assert (0 ≤ k) by lia.
  destruct (Z.testbit b k) eqn:Hb.
  - destruct (Z.eqb_spec (Z.land b (2 ^ k)) 0) as [H0|]; [|done]. exfalso.
    apply (f_equal (λ z, Z.testbit z k)) in H0. rewrite Z.land_spec, Hb, Z.pow2_bits_true, Z.bits_0 in H0 by done. done.
  - rewrite (proj2 (Z.eqb_eq _ _)); [done|]. apply Z.bits_inj'. intros j Hj. rewrite Z.land_spec, Z.bits_0, Z.pow2_bits_eqb by done.
    destruct (Z.eqb_spec k j) as [<-|]; [by rewrite Hb|by rewrite andb_false_r].
Qed.

Lemma set_bit_spec b i j :
  null_bit (Z.lor b (Z.shiftl 1 (Z.of_nat (i mod 8)))) j = null_bit b j || bool_decide (i mod 8 = j mod 8)%nat.
Proof.
  rewrite !null_bit_spec, Z.lor_spec, Z.shiftl_1_l, Z.pow2_bits_eqb by lia. f_equal.
  destruct (Z.eqb_spec (Z.of_nat (i mod 8)) (Z.of_nat (j mod 8))); symmetry;
    [apply bool_decide_eq_true|apply bool_decide_eq_false]; lia.
Qed.

(** The bits of [bm] are those of [f]. *)
Definition bits (bm : bytes) (f : nat → bool) : Prop :=
  ∀ i, (i / 8 < length bm)%nat → ∃ b, bm !! (i / 8)%nat = Some b ∧ null_bit b i = f i.

Lemma bits_zero n : bits (replicate n 0) (λ _, false).
Proof.
  intros i Hi. rewrite length_replicate in Hi. exists 0. split; [by apply lookup_replicate|].
  rewrite null_bit_spec. apply Z.bits_0.
Qed.

Lemma set_null_bits i bm tail f : (i / 8 < length bm)%nat → bits bm f →
  ∃ bm', set_null i (bm ++ tail) = Ok (bm' ++ tail) ∧ length bm' = length bm ∧
    bits bm' (λ j, f j || bool_decide (i = j)).
Proof.
  intros Hi Hb. destruct (Hb i Hi) as (b&Hl&_). unfold set_null, set_byte, blit.
  rewrite lookup_app_l, Hl by done. rewrite decide_True by (rewrite length_app; cbn [length]; lia).
  set (b' := Z.lor b _). exists (<[(i / 8)%nat := b']> bm).
  rewrite length_insert. split_and!; [|done|].
  - rewrite insert_take_drop by done. rewrite take_app_le by lia. cbn [length].
    rewrite drop_app_le by lia. rewrite <- app_assoc. cbn [app]. by rewrite Nat.add_1_r.
  - intros j Hj. rewrite length_insert in Hj. destruct (Hb j Hj) as (c&Hc&Hf).
    destruct (decide (i / 8 = j / 8)%nat) as [He|Hne].
    + exists b'. rewrite <- He, list_lookup_insert_eq by done. split; [done|]. unfold b'. rewrite set_bit_spec.
      rewrite He in Hl. assert (b = c) as -> by congruence. rewrite Hf. f_equal. apply bool_decide_ext.
      split; [|by intros ->]. intros Hm. rewrite (Nat.div_mod_eq i 8), (Nat.div_mod_eq j 8), He, Hm. done.
    + exists c. rewrite list_lookup_insert_ne by done. split; [done|].
      rewrite Hf, bool_decide_false by congruence. by rewrite orb_false_r.
Qed.

(** * Slots *)

Definition body (v : Value) : bytes := match v with Text s | Numeric s => s | Blob b => b | _ => [] end.
Definition body_len (v : Value) : nat := length (body v).

Definition has_body (v : Value) : bool := match v with Text _ | Numeric _ | Blob _ => true | _ => false end.

(** The bytes of a value in its slot; [var] is where its body starts. *)
Definition payload (v : Value) (var : nat) : bytes :=
  match v with
  | Int x | Timestamp x | Date x | Time x => le_encode 8 (to_uint 64 x)
  | Float b => le_encode 8 b
  | Bool x => [if x then 1 else 0]
  | Text _ | Numeric _ | Blob _ => le32 var ++ le32 (body_len v)
  | _ => []
  end.

Definition tagged (ty : ColumnType) (v : Value) : bytes :=
  if bool_decide (ty = TAny) && negb (is_null v) then [any_tag v] else [].

Definition slot_bytes (ty : ColumnType) (v : Value) (var : nat) : bytes :=
  let s := tagged ty v ++ payload v var in s ++ replicate (fixed_width ty - length s) 0.

(** A value that fits the column and a row can hold. *)
Definition storable_in (ty : ColumnType) (v : Value) : Prop :=
  fits v ty = true ∧ is_list v = false ∧ Z.of_nat (body_len v) < 2 ^ 32 ∧
  match v with
  | Int x | Timestamp x | Date x | Time x => is_sint 64 x
  | Float b => is_uint 64 b
  | Text s | Numeric s => utf8_valid s = true
  | _ => True
  end.

Lemma length_le32 n : length (le32 n) = 4%nat.
Proof. apply length_le_encode. Qed.

Lemma length_payload v var : (length (payload v var) ≤ 8)%nat.
Proof. destruct v; cbn [payload]; rewrite ?length_app, ?length_le32, ?length_le_encode; cbn [length]; lia. Qed.

(** What a value takes of its slot. *)
Lemma slot_fits ty v var : fits v ty = true → is_list v = false →
  (length (tagged ty v ++ payload v var) ≤ fixed_width ty)%nat.
Proof.
  intros Hf Hl. unfold tagged, fits in *. pose proof (length_payload v var).
  destruct (bool_decide_reflect (ty = TAny)) as [->|Hne].
  - cbn [andb fixed_width]. rewrite length_app. destruct (negb (is_null v)); cbn [length]; lia.
  - cbn [andb app]. destruct v; cbn [column_type payload] in *; try discriminate Hl; try (cbn; lia);
      apply bool_decide_eq_true in Hf as <-; cbn [fixed_width length]; lia.
Qed.

Lemma length_slot ty v var : fits v ty = true → is_list v = false → length (slot_bytes ty v var) = fixed_width ty.
Proof.
  intros Hf Hl. pose proof (slot_fits ty v var Hf Hl). unfold slot_bytes. cbn zeta.
  rewrite length_app, length_replicate. lia.
Qed.

(** Writing into the zeros after what is written. *)
Lemma blit_zeros A bs n : (length bs ≤ n)%nat →
  blit (length A) bs (A ++ replicate n 0) = Ok ((A ++ bs) ++ replicate (n - length bs) 0).
Proof.
  intros Hn. unfold blit. rewrite decide_True by (rewrite length_app, length_replicate; lia).
  rewrite take_app_length, drop_app_add', drop_replicate, app_assoc by done. done.
Qed.

Lemma put_body_zeros A b n e : (8 ≤ n)%nat → Z.of_nat (length b) < 2 ^ 32 →
  put_body (length A) b (A ++ replicate n 0) e =
    Ok ((A ++ le32 (e_var e) ++ le32 (length b)) ++ replicate (n - 8) 0, e_bodies e ++ [b], (e_var e + length b)%nat).
Proof.
  intros Hn Hb. unfold put_body, U32_MAX. rewrite (proj2 (Z.ltb_ge _ _)) by lia.
  rewrite blit_zeros by (rewrite length_le32; lia). cbn [mbind res_mbind]. rewrite length_le32.
  replace (length A + 4)%nat with (length (A ++ le32 (e_var e))) by (rewrite length_app, length_le32; done).
  rewrite blit_zeros by (rewrite length_le32; lia). cbn [mbind res_mbind]. rewrite length_le32.
  replace (n - 4 - 4)%nat with (n - 8)%nat by lia. by rewrite app_assoc.
Qed.

(** * The layout *)

(** What one column adds to the encoder's state: its slot, and its null bit or
    its body. *)
Definition column_written (i : nat) (v : Value) (ty : ColumnType) (bm S : bytes) (n : nat) (bodies : list bytes)
    (var : nat) (f : nat → bool) : Prop :=
  ∃ bm', encode_column i v ty (MkEnc (bm ++ S ++ replicate n 0) bodies var (length bm + length S)) =
      Ok (MkEnc (bm' ++ (S ++ slot_bytes ty v var) ++ replicate (n - fixed_width ty) 0)
            (bodies ++ if has_body v then [body v] else []) (var + body_len v)
            (length bm + length S + fixed_width ty)) ∧
    length bm' = length bm ∧ bits bm' (λ j, f j || (bool_decide (i = j) && is_null v)).

Lemma encode_null_spec i ty bm S n bodies var f :
  (i / 8 < length bm)%nat → bits bm f → (fixed_width ty ≤ n)%nat → column_written i Null ty bm S n bodies var f.
Proof.
  intros Hi Hbits Hn. unfold column_written, encode_column. cbn [e_head e_cursor e_bodies e_var is_null negb].
  rewrite andb_false_r. cbn [mbind res_mbind].
  destruct (set_null_bits i bm (S ++ replicate n 0) f Hi Hbits) as (bm'&->&Hlen&Hbits'). cbn [mbind res_mbind].
  exists bm'. split_and!; [|done|].
  - f_equal. f_equal; [|by cbn; rewrite app_nil_r|by cbn; rewrite Nat.add_0_r].
    unfold slot_bytes, tagged. cbn [is_null negb payload app length]. rewrite andb_false_r. cbn [app length].
    rewrite <- app_assoc, <- replicate_add. do 3 f_equal. lia.
  - intros j Hj. destruct (Hbits' j Hj) as (b&?&Hb'). exists b. split; [done|]. by rewrite Hb', andb_true_r.
Qed.

(** The tag of a typeless slot. *)
Lemma encode_tag v ty (A : bytes) n : is_null v = false → (fixed_width ty ≤ n)%nat →
  (if bool_decide (ty = TAny) && negb (is_null v)
   then h ← set_byte (length A) (any_tag v) (A ++ replicate n 0); Ok (h, Datatypes.S (length A))
   else Ok (A ++ replicate n 0, length A)) =
  Ok ((A ++ tagged ty v) ++ replicate (n - length (tagged ty v)) 0, length (A ++ tagged ty v)).
Proof.
  intros Hnull Hn. unfold tagged. rewrite Hnull. destruct (bool_decide (ty = TAny)) eqn:Ha; cbn [andb negb].
  - unfold set_byte. rewrite blit_zeros; [|cbn [length]; apply bool_decide_eq_true in Ha as ->; cbn in Hn; lia].
    cbn [mbind res_mbind length]. rewrite length_app. do 2 f_equal. cbn. lia.
  - cbn [length]. by rewrite !app_nil_r, Nat.sub_0_r.
Qed.

(** The rest of a slot is the zeros the head was made of. *)
Lemma slot_pad (A : bytes) ty v var n : (length (tagged ty v ++ payload v var) ≤ fixed_width ty)%nat → (fixed_width ty ≤ n)%nat →
  ((A ++ tagged ty v) ++ payload v var) ++ replicate (n - length (tagged ty v) - length (payload v var)) 0 =
  (A ++ slot_bytes ty v var) ++ replicate (n - fixed_width ty) 0.
Proof.
  intros Hsf Hn. unfold slot_bytes. rewrite length_app in *. rewrite <- !app_assoc, <- replicate_add. do 4 f_equal. lia.
Qed.

Lemma encode_present_spec i v ty bm S n bodies var f : is_null v = false →
  storable_in ty v → bits bm f → (fixed_width ty ≤ n)%nat → column_written i v ty bm S n bodies var f.
Proof.
  intros Hnull (Hf&Hl&Hb&Hv) Hbits Hn. pose proof (slot_fits ty v var Hf Hl) as Hsf.
  exists bm. split_and!; [|done|].
  2:{ intros j Hj. destruct (Hbits j Hj) as (b&?&Hb'). exists b. split; [done|]. by rewrite Hb', Hnull, andb_false_r, orb_false_r. }
  unfold encode_column. cbn [e_head e_cursor e_bodies e_var]. rewrite !app_assoc, <- length_app.
  rewrite encode_tag by done. cbn [mbind res_mbind]. pose proof (slot_pad (bm ++ S) ty v var n Hsf Hn) as Hpad.
  set (A := bm ++ S) in *. set (T := tagged ty v) in *. set (P := payload v var) in *. rewrite length_app in Hsf.
  assert (∀ bs, P = bs → (h ← blit (length (A ++ T)) bs ((A ++ T) ++ replicate (n - length T) 0);
    Ok (h, bodies, var)) = Ok ((A ++ slot_bytes ty v var) ++ replicate (n - fixed_width ty) 0, bodies, var)) as Hblit.
  { intros bs <-. rewrite blit_zeros by lia. cbn [mbind res_mbind]. by rewrite Hpad. }
  assert (∀ b e, e_bodies e = bodies → e_var e = var → P = le32 var ++ le32 (length b) → Z.of_nat (length b) < 2 ^ 32 →
    put_body (length (A ++ T)) b ((A ++ T) ++ replicate (n - length T) 0) e =
    Ok ((A ++ slot_bytes ty v var) ++ replicate (n - fixed_width ty) 0, bodies ++ [b], (var + length b)%nat)) as Hput.
  { intros b e He1 He2 HP Hlb. assert (length P = 8%nat) as HP8 by (rewrite HP, length_app, !length_le32; done).
    rewrite put_body_zeros, He1, He2, <- HP, <- Hpad by lia. by rewrite HP8. }
  destruct v; try discriminate; cbn [has_body body]; rewrite ?app_nil_r, ?Nat.add_0_r; unfold body_len in *; cbn [body] in *;
    first [rewrite Hblit by done|unfold set_byte; rewrite Hblit by done|rewrite Hput by done];
    cbn [mbind res_mbind length]; by rewrite ?Nat.add_0_r.
Qed.

Lemma encode_column_spec i v ty bm S n bodies var f :
  storable_in ty v → (i / 8 < length bm)%nat → bits bm f → (fixed_width ty ≤ n)%nat →
  column_written i v ty bm S n bodies var f.
Proof.
  intros Hs Hi Hbits Hn. destruct (is_null v) eqn:Hnull; [|by apply encode_present_spec].
  destruct v; try discriminate Hnull. by apply encode_null_spec.
Qed.

(** The slots, given where each body starts. *)
Fixpoint slots (types : list ColumnType) (values : list Value) (vars : list nat) : bytes :=
  match types, values, vars with
  | ty :: types, v :: values, var :: vars => slot_bytes ty v var ++ slots types values vars
  | _, _, _ => []
  end.

(** Bodies one after the other. *)
Fixpoint offsets (values : list Value) (var : nat) : list nat :=
  match values with [] => [] | v :: values => var :: offsets values (var + body_len v) end.

Lemma length_offsets values : ∀ var, length (offsets values var) = length values.
Proof. induction values as [|v values IH]; intros var; [done|]. cbn. by rewrite IH. Qed.

Lemma lookup_offsets values j v : values !! j = Some v →
  ∀ var, offsets values var !! j = Some (var + length (flat_map body (take j values)))%nat.
Proof.
  revert j. induction values as [|w values IH]; intros j Hj var; [done|]. destruct j as [|j]; cbn in *.
  - by rewrite Nat.add_0_r.
  - rewrite IH by done. f_equal. rewrite length_app. unfold body_len. lia.
Qed.

Definition bodies_of (values : list Value) : list bytes := map body (filter (λ v, has_body v = true) values).
Definition null_at (values : list Value) (j : nat) : bool :=
  match values !! j with Some v => is_null v | None => false end.

Lemma bodies_of_cons v values : bodies_of (v :: values) = (if has_body v then [body v] else []) ++ bodies_of values.
Proof. unfold bodies_of. rewrite filter_cons. destruct (has_body v); case_decide; done. Qed.

Lemma concat_bodies values : concat (bodies_of values) = flat_map body values.
Proof.
  induction values as [|v values IH]; [done|]. rewrite bodies_of_cons, concat_app, IH. cbn [flat_map].
  destruct v; cbn [has_body concat]; by rewrite ?app_nil_r.
Qed.

Lemma encode_columns_spec types values : Forall2 storable_in types values →
  ∀ i bm S bodies var f, (i + length values ≤ 8 * length bm)%nat → bits bm f →
  ∃ bm' c, encode_columns i values types (MkEnc (bm ++ S ++ replicate (widths types) 0) bodies var (length bm + length S)) =
      Ok (MkEnc (bm' ++ S ++ slots types values (offsets values var)) (bodies ++ bodies_of values) (var + sum_list (map body_len values)) c) ∧
    length bm' = length bm ∧ bits bm' (λ j, f j || (bool_decide (i ≤ j)%nat && null_at values (j - i))).
Proof.
  induction 1 as [|ty v types values Hv Hvs IH]; intros i bm S bodies var f Hi Hf.
  { exists bm, (length bm + length S)%nat. cbn. rewrite !app_nil_r, Nat.add_0_r. split_and!; [done|done|].
    intros j Hj. destruct (Hf j Hj) as (b&?&Hb). exists b. split; [done|]. rewrite Hb. unfold null_at. cbn.
    by rewrite andb_false_r, orb_false_r. }
  cbn [length] in Hi. cbn [encode_columns].
  assert (widths (ty :: types) = (fixed_width ty + widths types)%nat) as Hw by (unfold widths; cbn; unfold id; lia).
  destruct (encode_column_spec i v ty bm S (widths (ty :: types)) bodies var f) as (bm1&->&Hl1&Hb1);
    [done|apply Nat.Div0.div_lt_upper_bound; lia|done|lia|]. cbn [mbind res_mbind].
  replace (widths (ty :: types) - fixed_width ty)%nat with (widths types) by lia.
  assert (length (S ++ slot_bytes ty v var) = (length S + fixed_width ty)%nat) as Hls
    by (rewrite length_app, length_slot by (apply Hv); done).
  destruct (IH (Datatypes.S i) bm1 (S ++ slot_bytes ty v var) (bodies ++ (if has_body v then [body v] else []))
    (var + body_len v)%nat _ ltac:(lia) Hb1) as (bm2&c&He&Hl2&Hb2).
  rewrite Hls, Hl1, Nat.add_assoc in He. rewrite He. exists bm2, c. split_and!; [|congruence|].
  - f_equal. f_equal.
    + cbn [slots offsets]. by rewrite <- !app_assoc.
    + by rewrite bodies_of_cons, app_assoc.
    + cbn. unfold id. lia.
  - intros j Hj. destruct (Hb2 j Hj) as (b&?&Hb). exists b. split; [done|]. rewrite Hb, <- orb_assoc. f_equal.
    unfold null_at. destruct (decide (i = j)) as [->|Hne].
    + rewrite bool_decide_true, (bool_decide_false (Datatypes.S j ≤ j)%nat) by lia. rewrite bool_decide_true by lia.
      rewrite Nat.sub_diag. cbn. by rewrite orb_false_r.
    + rewrite bool_decide_false by done. cbn [andb orb].
      destruct (decide (i ≤ j)%nat).
      * rewrite !bool_decide_true by lia. replace (j - i)%nat with (Datatypes.S (j - Datatypes.S i)) by lia. done.
      * by rewrite !bool_decide_false by lia.
Qed.

Lemma sum_body_len values : sum_list (map body_len values) = length (flat_map body values).
Proof. induction values as [|v values IH]; [done|]. cbn. rewrite length_app, <- IH. done. Qed.

(** The row image: bitmap, slots, bodies. *)
Lemma encode_row_layout types values : Forall2 storable_in types values →
  ∃ bm, encode_row_parts values types = Ok (bm ++ slots types values (offsets values 0), bodies_of values) ∧
    encode_row values types = Ok (bm ++ slots types values (offsets values 0) ++ flat_map body values) ∧
    length bm = bitmap_len (length types) ∧ bits bm (null_at values).
Proof.
  intros Hv. pose proof (Forall2_length _ _ _ Hv) as Hlen. set (nbm := bitmap_len (length types)).
  destruct (encode_columns_spec types values Hv 0 (replicate nbm 0) [] [] 0 (λ _, false)) as (bm&c&He&Hl&Hb).
  - rewrite length_replicate. unfold nbm, bitmap_len. pose proof (Nat.div_mod_eq (length types + 7) 8).
    pose proof (Nat.mod_upper_bound (length types + 7) 8). lia.
  - apply bits_zero.
  - rewrite length_replicate in He, Hl. cbn [app length] in He. rewrite Nat.add_0_r in He.
    exists bm. unfold encode_row, encode_row_parts. rewrite bool_decide_false by (intros Hn; by apply Hn).
    fold nbm. rewrite replicate_add, He. cbn [mbind res_mbind e_head e_bodies app].
    split_and!; [done|by rewrite concat_bodies, <- app_assoc|done|].
    intros j Hj. destruct (Hb j Hj) as (b&?&Hb'). exists b. split; [done|]. rewrite Hb'. cbn [orb].
    by rewrite Nat.sub_0_r.
Qed.

Lemma length_slots types values : Forall2 storable_in types values → ∀ vars, length vars = length values →
  length (slots types values vars) = widths types.
Proof.
  induction 1 as [|ty v types values Hv _ IH]; intros [|var vars] Hl; try done. cbn [slots].
  rewrite length_app, IH by (by injection Hl). rewrite length_slot by apply Hv. done.
Qed.

(** * Reading a slot *)

(** Column [j] inside the slots. *)
Lemma slots_at types values vars j ty v var : Forall2 storable_in types values → length vars = length values →
  types !! j = Some ty → values !! j = Some v → vars !! j = Some var →
  ∃ L R, slots types values vars = L ++ slot_bytes ty v var ++ R ∧ length L = widths (take j types) ∧
    (∀ v' var', storable_in ty v' → slots types (<[j := v']> values) (<[j := var']> vars) = L ++ slot_bytes ty v' var' ++ R).
Proof.
  intros Hv. revert j vars. induction Hv as [|ty' v' types values Hv' Hvs IH]; intros j [|var' vars] Hl Ht Hvj Hvar; try done.
  injection Hl as Hl. destruct j as [|j]; cbn in Ht, Hvj, Hvar.
  - injection Ht as ->. injection Hvj as ->. injection Hvar as ->. by exists [], (slots types values vars).
  - destruct (IH j vars Hl Ht Hvj Hvar) as (L&R&He&HL&Hr). exists (slot_bytes ty' v' var' ++ L), R.
    split_and!; [cbn [slots]; by rewrite He, <- app_assoc| |].
    + rewrite length_app, HL, length_slot by apply Hv'. done.
    + intros w varw Hw. cbn [list_insert slots insert]. change (list_insert j w values) with (<[j:=w]> values).
      change (list_insert j varw vars) with (<[j:=varw]> vars). by rewrite Hr, <- app_assoc.
Qed.

Lemma get_range_mid {A} (P e R : list A) n : length e = n →
  get_range (length P) (length P + n) (P ++ e ++ R) = Some e.
Proof.
  intros <-. rewrite get_range_Some by (rewrite ?length_app; lia).
  replace (length P + length e - length P)%nat with (length e) by lia.
  rewrite sub_app_r by lia. by rewrite Nat.sub_diag, sub_app_exact.
Qed.

Lemma le32_decode n : Z.of_nat n < 2 ^ 32 → le_decode (le32 n) = Z.of_nat n.
Proof.
  intros Hn. unfold le32, to_uint. rewrite Z.mod_small by lia. apply le_decode_encode_id.
  change (8 * Z.of_nat 4) with 32. lia.
Qed.

Lemma i64_decode x : is_sint 64 x → to_sint 64 (le_decode (le_encode 8 (to_uint 64 x))) = x.
Proof.
  intros Hx. rewrite le_decode_encode_id.
  - by apply to_sint_to_uint.
  - change (8 * Z.of_nat 8) with 64. apply is_sint_to_uint. lia.
Qed.

(** Where the body of [v] is, when it has one. *)
Definition body_there (buf : bytes) (fixed_end var : nat) (v : Value) : Prop :=
  has_body v = true → Z.of_nat var < 2 ^ 32 ∧ (fixed_end + var + body_len v ≤ length buf)%nat ∧
    sub (fixed_end + var) (body_len v) buf = body v.

Lemma read_body_at P R fixed_end var len :
  let buf := P ++ (le32 var ++ le32 len) ++ R in
  Z.of_nat var < 2 ^ 32 → Z.of_nat len < 2 ^ 32 → (fixed_end + var + len ≤ length buf)%nat →
  read_body buf fixed_end (length P) = Ok (sub (fixed_end + var) len buf).
Proof.
  intros buf Hv Hl Hin. unfold read_body.
  assert (get_range (length P) (length P + 8) buf = Some (le32 var ++ le32 len)) as ->
    by (apply get_range_mid; by rewrite length_app, !length_le32).
  cbn [res_of_option mbind res_mbind].
  rewrite take_app_le, take_ge, drop_app_ge by (rewrite length_le32; lia).
  rewrite length_le32, Nat.sub_diag, drop_0, !le32_decode by done.
  rewrite (proj2 (Z.leb_le _ _)) by lia. by rewrite <- Nat2Z.inj_add, !Nat2Z.id.
Qed.

Lemma decode_slot_at v ty t P R var fixed_end :
  column_type v = Some t → storable_in ty v →
  body_there (P ++ payload v var ++ R) fixed_end var v →
  decode_slot (P ++ payload v var ++ R) fixed_end t (length P) = Ok v.
Proof.
  intros Ht (_&_&Hlen&Hv) Hbody.
  destruct v; cbn [column_type] in Ht; try discriminate Ht; injection Ht as <-; unfold decode_slot; cbn [payload] in *;
    try (destruct (Hbody eq_refl) as (Hv32&Hin&Hsub); rewrite read_body_at by done; rewrite Hsub; cbn; by rewrite ?Hv);
    try (rewrite get_range_mid by (by rewrite length_le_encode); cbn [res_of_option mbind res_mbind]).
  - by rewrite i64_decode.
  - by rewrite le_decode_encode_id.
  - unfold get_or. cbn [app]. rewrite list_lookup_middle by done. cbn. by destruct x.
  - by rewrite i64_decode.
  - by rewrite i64_decode.
  - by rewrite i64_decode.
Qed.

Lemma from_type_tag t : from_tag (type_tag t) = Some t.
Proof. by destruct t. Qed.

Lemma any_tag_type v t : column_type v = Some t → any_tag v = type_tag t.
Proof. by destruct v; cbn; intros [= <-]. Qed.

Lemma storable_type ty v : storable_in ty v → is_null v = false → ∃ t, column_type v = Some t ∧ t ≠ TAny ∧ (ty ≠ TAny → t = ty).
Proof.
  intros (Hf&Hl&_) Hn. unfold fits in Hf. destruct v; try done; eexists; (split; [done|]); (split; [done|]);
    intros Hty; rewrite bool_decide_false in Hf by done; cbn in Hf; by apply bool_decide_eq_true in Hf.
Qed.

Lemma resolve_slot v ty P R var :
  storable_in ty v → is_null v = false →
  ∃ t, column_type v = Some t ∧
    resolve_type (P ++ (tagged ty v ++ payload v var) ++ R) ty (length P) = Ok (t, length (P ++ tagged ty v)).
Proof.
  intros Hs Hn. destruct (storable_type ty v Hs Hn) as (t&Ht&Hne&Hty). exists t. split; [done|].
  unfold resolve_type, tagged. rewrite Hn. destruct (bool_decide_reflect (ty = TAny)) as [->|Hany]; cbn [andb negb].
  - unfold get_or. cbn [app]. rewrite list_lookup_middle by done. cbn [res_of_option mbind res_mbind].
    rewrite (any_tag_type v t), from_type_tag, bool_decide_false by done. rewrite length_app. cbn. do 2 f_equal. lia.
  - rewrite app_nil_r. by rewrite Hty.
Qed.

(** * Columns and rows *)

Lemma flat_map_take_drop values j v : values !! j = Some v →
  flat_map body values = flat_map body (take j values) ++ body v ++ flat_map body (drop (S j) values).
Proof.
  intros Hj. rewrite <- (take_drop_middle values j v Hj) at 1. rewrite flat_map_app. done.
Qed.

(** A row image: bitmap, slots, and each body where its slot says. *)
Record row_image (types : list ColumnType) (values : list Value) (vars : list nat) (row : bytes) : Prop := {
  ri_store : Forall2 storable_in types values;
  ri_vars : length vars = length values;
  ri_bytes : ∃ bm tail, row = bm ++ slots types values vars ++ tail ∧
    length bm = bitmap_len (length types) ∧ bits bm (null_at values);
  ri_body j v var : values !! j = Some v → vars !! j = Some var → body_there row (head_len types) var v;
}.

Lemma bitmap_covers (types : list ColumnType) j : (j < length types)%nat → (j / 8 < bitmap_len (length types))%nat.
Proof.
  intros Hj. unfold bitmap_len. pose proof (Nat.div_mod_eq j 8). pose proof (Nat.div_mod_eq (length types + 7) 8).
  pose proof (Nat.mod_upper_bound (length types + 7) 8). lia.
Qed.

(** Around one column. *)
Lemma image_column types values vars row j v : row_image types values vars row → values !! j = Some v →
  ∃ ty var P R, types !! j = Some ty ∧ vars !! j = Some var ∧ storable_in ty v ∧
    row = P ++ (tagged ty v ++ payload v var) ++ R ∧ length P = (bitmap_len (length types) + widths (take j types))%nat ∧
    (length P + length (tagged ty v ++ payload v var) ≤ head_len types ≤ length row)%nat ∧
    ∃ b, row !! (j / 8)%nat = Some b ∧ null_bit b j = is_null v.
Proof.
  intros [Hv Hlv (bm&tail&->&Hbm&Hbits) _] Hj. destruct (Forall2_lookup_r _ _ _ _ _ Hv Hj) as (ty&Hty&Hs).
  pose proof (lookup_lt_Some _ _ _ Hj) as Hlt. pose proof (lookup_lt_Some _ _ _ Hty) as Hlt'.
  destruct (lookup_lt_is_Some_2 vars j ltac:(lia)) as [var Hvar].
  destruct (slots_at types values vars j ty v var Hv Hlv Hty Hj Hvar) as (L&R&Hslots&HL&_).
  exists ty, var, (bm ++ L), (replicate (fixed_width ty - length (tagged ty v ++ payload v var)) 0 ++ R ++ tail).
  pose proof (slot_fits ty v var ltac:(apply Hs) ltac:(apply Hs)) as Hfit.
  pose proof (f_equal length Hslots) as Hlen. rewrite length_slots in Hlen by done.
  rewrite !length_app, length_slot in Hlen by apply Hs.
  split_and!; [done|done|done| | | | |].
  - rewrite Hslots. unfold slot_bytes. by rewrite <- !app_assoc.
  - rewrite length_app. lia.
  - rewrite length_app. unfold head_len. lia.
  - rewrite !length_app, length_slots by done. unfold head_len. lia.
  - pose proof (bitmap_covers types j Hlt') as Hj8. rewrite <- Hbm in Hj8. destruct (Hbits j Hj8) as (b&Hb&Hn).
    exists b. rewrite lookup_app_l by done. split; [done|]. rewrite Hn. unfold null_at. by rewrite Hj.
Qed.

(** Every column of a row image reads back, whatever the others hold. *)
Lemma image_decode types values vars row j v : row_image types values vars row → values !! j = Some v →
  decode_column row types j = Ok v.
Proof.
  intros Him Hj. destruct (image_column types values vars row j v Him Hj) as (ty&var&P&R&Hty&Hvar&Hs&Hrow&HP&_&b&Hb&Hn).
  pose proof (ri_body _ _ _ _ Him j v var Hj Hvar) as Hbody.
  unfold decode_column. rewrite Hty. unfold get_or. rewrite Hb. cbn [res_of_option mbind res_mbind]. rewrite Hn.
  destruct (is_null v) eqn:Hnull; [by destruct v|]. rewrite <- HP.
  destruct (resolve_slot v ty P R var Hs Hnull) as (t&Ht&Hres). rewrite <- Hrow in Hres. rewrite Hres.
  cbn [mbind res_mbind]. fold (head_len types).
  assert (row = (P ++ tagged ty v) ++ payload v var ++ R) as Hrow' by (rewrite Hrow; by rewrite <- !app_assoc).
  rewrite Hrow' in Hbody |- *. by apply (decode_slot_at v ty).
Qed.

(** [encode_row] makes a row image, the bodies one after the other. *)
Lemma encode_image types values row : Forall2 storable_in types values →
  Z.of_nat (length (flat_map body values)) < 2 ^ 32 → encode_row values types = Ok row →
  row_image types values (offsets values 0) row.
Proof.
  intros Hv H32 Hrow. destruct (encode_row_layout types values Hv) as (bm&_&He&Hbm&Hbits).
  assert (row = bm ++ slots types values (offsets values 0) ++ flat_map body values) as -> by congruence.
  split; [done|by rewrite length_offsets|by exists bm, (flat_map body values)|].
  intros j v var Hj Hvar _. rewrite (lookup_offsets values j v Hj 0) in Hvar. injection Hvar as <-. cbn [Nat.add].
  assert (length (bm ++ slots types values (offsets values 0)) = head_len types) as Hfix
    by (rewrite length_app, length_slots, Hbm by (done || apply length_offsets); done).
  set (var := length (flat_map body (take j values))). rewrite app_assoc.
  rewrite (flat_map_take_drop values j v Hj) in H32 |- *. fold var in H32. rewrite !length_app in H32. unfold body_len.
  split_and!; [lia|rewrite !length_app in *; unfold var; lia|].
  rewrite <- Hfix, sub_app_r by lia. replace (_ + var - _)%nat with var by lia.
  rewrite sub_app_r by done. unfold var. by rewrite Nat.sub_diag, sub_app_exact.
Qed.

Lemma decode_column_at types values row j v : Forall2 storable_in types values →
  Z.of_nat (length (flat_map body values)) < 2 ^ 32 →
  encode_row values types = Ok row → values !! j = Some v → decode_column row types j = Ok v.
Proof. intros Hv H32 Hrow Hj. eapply image_decode; [by apply encode_image|done]. Qed.

Lemma mapM_lookup {A B} (f : A → res B) l k : length k = length l →
  (∀ i x y, l !! i = Some x → k !! i = Some y → f x = Ok y) → mapM f l = Ok k.
Proof.
  revert k. induction l as [|x l IH]; intros [|y k] Hl H; try done. cbn [mapM].
  rewrite (H 0%nat x y) by done. cbn [mbind res_mbind]. rewrite (IH k); [done|by injection Hl|].
  intros i x' y' Hx Hy. by apply (H (S i)).
Qed.

Lemma decode_row_at types values row keep : Forall2 storable_in types values →
  Z.of_nat (length (flat_map body values)) < 2 ^ 32 → encode_row values types = Ok row →
  decode_row_masked row types keep =
    Ok (imap (λ i v, if kept keep i then v else Null)
      (take (match keep with Some k => Nat.min (length k) (length types) | None => length types end) values)).
Proof.
  intros Hv H32 Hrow. pose proof (Forall2_length _ _ _ Hv). rewrite decode_row_masked_columns.
  set (n := match keep with Some k => _ | None => _ end). assert (n ≤ length values)%nat by (unfold n; destruct keep; lia).
  apply mapM_lookup; [rewrite length_imap, length_take, length_seq; lia|].
  intros i x y Hx Hy. apply lookup_seq in Hx as [-> Hi]. cbn [Nat.add].
  rewrite list_lookup_imap in Hy. destruct (take n values !! i) as [v|] eqn:Hvi; [|done]. cbn in Hy. injection Hy as <-.
  destruct (kept keep i); [|done]. apply lookup_take_Some in Hvi as [Hvi _]. by eapply decode_column_at.
Qed.

Lemma imap_id (l : list Value) : imap (λ _ v, v) l = l.
Proof. induction l as [|v l IH]; [done|]. cbn. f_equal. exact IH. Qed.

Lemma imap_kept mask : ∀ values, length mask = length values →
  imap (λ i v, if kept (Some mask) i then v else Null) values = zip_with (λ (k : bool) v, if k then v else Null) mask values.
Proof.
  intros values Hl. apply list_eq. intros i. rewrite list_lookup_imap, lookup_zip_with. unfold kept.
  destruct (mask !! i) as [k|] eqn:Hk; cbn.
  - by destruct (values !! i), k.
  - rewrite (lookup_ge_None_2 values i); [done|]. apply lookup_ge_None_1 in Hk. lia.
Qed.

Lemma decode_whole_row types values row : Forall2 storable_in types values →
  Z.of_nat (length (flat_map body values)) < 2 ^ 32 → encode_row values types = Ok row →
  decode_row row types = Ok values.
Proof.
  intros Hv H32 Hrow. unfold decode_row. erewrite decode_row_at by done. cbn [kept]. rewrite imap_id.
  pose proof (Forall2_length _ _ _ Hv). by rewrite take_ge by lia.
Qed.

Lemma length_row types values row : Forall2 storable_in types values → encode_row values types = Ok row →
  length row = encoded_len values types.
Proof.
  intros Hv Hrow. destruct (encode_row_layout types values Hv) as (bm&_&He&Hbm&_).
  assert (row = bm ++ slots types values (offsets values 0) ++ flat_map body values) as -> by congruence.
  rewrite !length_app, length_slots, Hbm by (done || apply length_offsets). unfold encoded_len, var_total. rewrite <- sum_body_len.
  rewrite Nat.add_assoc. do 2 f_equal. apply map_ext. by intros [].
Qed.

(** * Windows *)

Lemma get_range_take {A} a b n (l : list A) : (b ≤ n ≤ length l)%nat → get_range a b (take n l) = get_range a b l.
Proof.
  intros Hn. unfold get_range. rewrite length_take. destruct (decide (a ≤ b ∧ b ≤ length l)%nat) as [Hd|Hd].
  - rewrite decide_True by lia. f_equal. apply list_eq. intros i. rewrite !lookup_sub. case_decide; [|done].
    by rewrite lookup_take_lt by lia.
  - by rewrite decide_False by lia.
Qed.

(** The head of a row is enough to find a text or blob column: NULL, or the
    window that holds its body. *)
Lemma image_window types values vars row j v ty : row_image types values vars row → values !! j = Some v →
  types !! j = Some ty → ty = TText ∨ ty = TBlob →
  varlen_window (take (head_len types) row) types j =
    Ok (if is_null v then None
        else Some (Z.of_nat (head_len types + default 0%nat (vars !! j)), Z.of_nat (body_len v))).
Proof.
  intros Him Hj Hty0 Htb. destruct (image_column types values vars row j v Him Hj) as (ty'&var&P&R&Hty&Hvar&Hs&Hrow&HP&Hin&b&Hb&Hn).
  assert (ty' = ty) as -> by congruence. unfold varlen_window, get_or. rewrite Hty. cbn [res_of_option mbind res_mbind].
  rewrite (proj2 (negb_false_iff _)) by (destruct Htb as [->| ->]; done).
  pose proof (lookup_lt_Some _ _ _ Hty) as Hlt. pose proof (bitmap_covers types j Hlt).
  rewrite lookup_take_lt, Hb by (unfold head_len; lia). cbn [res_of_option mbind res_mbind]. rewrite Hn.
  destruct (is_null v) eqn:Hnull; [done|]. rewrite <- HP.
  destruct (storable_type ty v Hs Hnull) as (t&Ht&_&Htt).
  assert (tagged ty v = [] ∧ has_body v = true) as [Htag Hhb].
  { unfold tagged. destruct Htb as [->| ->]; rewrite (Htt ltac:(done)) in Ht; by destruct v. }
  assert (payload v var = le32 var ++ le32 (body_len v)) as Hpay by (by destruct v).
  assert (length (payload v var) = 8%nat) as Hp8 by (rewrite Hpay, length_app, !length_le32; done).
  rewrite Htag in Hrow, Hin. cbn [app] in Hrow, Hin. rewrite Hp8 in Hin.
  rewrite get_range_take by lia. rewrite Hrow at 1. rewrite get_range_mid by done. cbn [res_of_option mbind res_mbind].
  destruct (ri_body _ _ _ _ Him j v var Hj Hvar Hhb) as (Hv32&_). destruct Hs as (_&_&Hlen&_).
  rewrite Hpay, take_app_le, take_ge, drop_app_ge by (rewrite length_le32; lia).
  rewrite length_le32, Nat.sub_diag, drop_0, !le32_decode, Hvar by done. cbn. do 3 f_equal. lia.
Qed.

(** * Streams *)

(** The value a streamed column holds in the end. *)
Definition streamed (v : Value) (data : bytes) : Value :=
  match v with Text _ => Text data | Numeric _ => Numeric data | _ => Blob data end.

Lemma blit_over {A} (P old new R : list A) : length old = length new →
  blit (length P) new (P ++ old ++ R) = Ok (P ++ new ++ R).
Proof.
  intros Hl. unfold blit. rewrite decide_True by (rewrite !length_app; lia).
  rewrite take_app_length. do 3 f_equal. rewrite app_assoc. apply drop_app_length'. rewrite length_app. lia.
Qed.

Lemma streamed_storable ty v data : storable_in ty v → has_body v = true → Z.of_nat (length data) < 2 ^ 32 →
  (∃ b, v = Blob b) ∨ utf8_valid data = true → storable_in ty (streamed v data).
Proof.
  intros (Hf&Hl&_&Hu) Hb Hd Hblob. destruct v; try done; (split_and!; [done|done|done|]); cbn;
    destruct Hblob as [[? ?]|?]; done.
Qed.

Lemma has_body_slot ty v var : has_body v = true →
  slot_bytes ty v var = tagged ty v ++ (le32 var ++ le32 (body_len v)) ++
    replicate (fixed_width ty - length (tagged ty v ++ le32 var ++ le32 (body_len v))) 0.
Proof. intros Hb. unfold slot_bytes. destruct v; try done; cbn [payload]; by rewrite <- app_assoc. Qed.

Lemma sum_length_bodies values : sum_list (map length (bodies_of values)) = length (flat_map body values).
Proof.
  rewrite <- concat_bodies. induction (bodies_of values) as [|b bs IH]; [done|]. cbn. rewrite length_app, <- IH. done.
Qed.

Lemma null_at_insert values j v v' : values !! j = Some v → is_null v = is_null v' →
  ∀ i, null_at (<[j := v']> values) i = null_at values i.
Proof.
  intros Hj Hn i. unfold null_at. pose proof (lookup_lt_Some _ _ _ Hj). destruct (decide (i = j)) as [->|Hne].
  - rewrite list_lookup_insert_eq by done. by rewrite Hj, Hn.
  - by rewrite list_lookup_insert_ne by done.
Qed.

(** A slot that points to a body, and the pair of numbers overwritten. *)
Lemma repoint_slot {A} ty v u var var' len (P R : bytes) (k : bytes → res A) : body_len u = len → has_body v = true → has_body u = true → tagged ty u = tagged ty v →
  (head ← blit (length (P ++ tagged ty v)) (le32 var') (P ++ slot_bytes ty v var ++ R);
   head ← blit (length (P ++ tagged ty v) + 4) (le32 len) head; k head) = k (P ++ slot_bytes ty u var' ++ R).
Proof.
  intros <- Hv Hu Ht. rewrite !has_body_slot, Ht, !length_app, !length_le32 by done. rewrite <- !app_assoc.
  rewrite (app_assoc P (tagged ty v) (le32 var ++ _)). rewrite <- length_app, blit_over by by rewrite !length_le32.
  cbn [mbind res_mbind].
  replace (length (P ++ tagged ty v) + 4)%nat with (length ((P ++ tagged ty v) ++ le32 var')) by (rewrite length_app, length_le32; done).
  rewrite (app_assoc _ (le32 var')), blit_over by by rewrite !length_le32. by rewrite <- !app_assoc.
Qed.

(** The head that is written before a stream: the row of the streamed value,
    whose body follows all the others. *)
Lemma stream_head types values col v head total data : let end_ := length (flat_map body values) in
  Forall2 storable_in types values → values !! col = Some v → has_body v = true → Z.of_nat (length data) < 2 ^ 32 →
  (∃ b, v = Blob b) ∨ utf8_valid data = true →
  encode_row_head_for_stream values types col (length data) = Ok (head, total) →
  total = length (head ++ data) ∧ ∃ bm,
  head = bm ++ slots types (<[col := streamed v data]> values) (<[col := end_]> (offsets values 0)) ++ flat_map body values ∧
  length bm = bitmap_len (length types) ∧ bits bm (null_at values).
Proof.
  intros end_ Hv Hj Hb Hd Hu. unfold encode_row_head_for_stream. case_match; [done|].
  destruct (encode_row_layout types values Hv) as (bm&->&Hrow&Hbm&Hbits). cbn [mbind res_mbind].
  destruct (Forall2_lookup_r _ _ _ _ _ Hv Hj) as (ty&Hty&Hs). pose proof (lookup_lt_Some _ _ _ Hty) as Hlt.
  rewrite slice_Ok by lia. cbn [mbind res_mbind]. rewrite Nat.sub_0_r. unfold sub. rewrite drop_0, Hty. cbn [mbind res_mbind].
  unfold U32_MAX. rewrite (proj2 (Z.ltb_ge _ _)) by lia. rewrite sum_length_bodies, concat_bodies. fold end_.
  destruct (slots_at types values (offsets values 0) col ty v (length (flat_map body (take col values))) Hv) as (L&R&->&HL&Hnew);
    [apply length_offsets|done|done|by apply (lookup_offsets values col v Hj 0)|].
  assert ((if bool_decide (ty = TAny) then S (bitmap_len (length types) + widths (take col types))
           else (bitmap_len (length types) + widths (take col types))%nat) = length ((bm ++ L) ++ tagged ty v)) as ->.
  { unfold tagged. rewrite !length_app, Hbm, HL. destruct v; try done; destruct (bool_decide (ty = TAny)); cbn; lia. }
  rewrite !app_assoc, <- !(app_assoc (bm ++ L)).
  rewrite (repoint_slot ty v (streamed v data)); [|by destruct v|done|by destruct v|unfold tagged; by destruct v].
  remember ((bm ++ L) ++ slot_bytes ty (streamed v data) end_ ++ R) as h eqn:Hh. intros [= <- <-].
  rewrite !length_app. split; [done|]. exists bm. split_and!; [|done|done].
  rewrite Hnew, Hh by by apply streamed_storable. by rewrite <- !app_assoc.
Qed.

(** The head of a streamed row, followed by the stream, is the row with the
    stream as the column's value. *)
Lemma stream_image types values col v head total data :
  Forall2 storable_in types values → values !! col = Some v → has_body v = true →
  (∃ b, v = Blob b) ∨ utf8_valid data = true →
  Z.of_nat (length (flat_map body values)) < 2 ^ 32 → Z.of_nat (length data) < 2 ^ 32 →
  encode_row_head_for_stream values types col (length data) = Ok (head, total) →
  total = length (head ++ data) ∧
  row_image types (<[col := streamed v data]> values)
    (<[col := length (flat_map body values)]> (offsets values 0)) (head ++ data).
Proof.
  intros Hv Hj Hb Hu H32 Hd Hhead.
  destruct (stream_head types values col v head total data) as (Ht&bm&->&Hbm&Hbits); [done..|]. split; [done|].
  destruct (Forall2_lookup_r _ _ _ _ _ Hv Hj) as (ty&Hty&Hs). pose proof (Forall2_length _ _ _ Hv) as Hlen.
  set (end_ := length (flat_map body values)) in *. pose proof (lookup_lt_Some _ _ _ Hty) as Hlt.
  set (values' := <[col := streamed v data]> values). set (vars' := <[col := end_]> (offsets values 0)).
  assert (Forall2 storable_in types values') as Hv'.
  { unfold values'. rewrite <- (list_insert_id types col ty Hty). apply Forall2_insert; [done|by apply streamed_storable]. }
  assert (length vars' = length values') as Hlv by (unfold vars', values'; by rewrite !length_insert, length_offsets).
  split; [done|done| |].
  { exists bm, (flat_map body values ++ data). split_and!; [by rewrite <- !app_assoc|done|].
    intros i Hi. destruct (Hbits i Hi) as (b&?&Hnb). exists b. split; [done|]. rewrite Hnb.
    symmetry. apply (null_at_insert values col v); [done|by destruct v]. }
  assert (length (bm ++ slots types values' vars') = head_len types) as Hhl
    by (rewrite length_app, length_slots, Hbm by done; done).
  rewrite app_assoc, <- (app_assoc (bm ++ _)). intros i w var Hw Hvar Hbw. rewrite <- Hhl.
  rewrite sub_app_r by lia. replace (_ + var - _)%nat with var by lia. rewrite !length_app.
  destruct (decide (i = col)) as [->|Hne]; unfold values', vars' in Hw, Hvar.
  - rewrite list_lookup_insert_eq in Hw by lia. rewrite list_lookup_insert_eq in Hvar by (rewrite length_offsets; lia). injection Hw as <-. injection Hvar as <-.
    assert (body (streamed v data) = data) as Hbd by by destruct v. unfold body_len. rewrite Hbd. split_and!; [done|lia|].
    unfold end_. by rewrite sub_app_r, Nat.sub_diag, sub_0_all by done.
  - rewrite list_lookup_insert_ne in Hw by done. rewrite list_lookup_insert_ne in Hvar by done.
    rewrite (lookup_offsets values i w Hw 0) in Hvar. injection Hvar as <-. cbn [Nat.add].
    pose proof (flat_map_take_drop values i w Hw) as Hfm. pose proof (f_equal length Hfm) as Hfl. rewrite !length_app in Hfl.
    fold end_ in Hfl. unfold body_len. split_and!; [lia|lia|].
    rewrite sub_app_l by lia. rewrite Hfm, sub_app_r by done. by rewrite Nat.sub_diag, sub_app_exact.
Qed.

(** A row image reads back, whatever the order of its bodies. *)
Lemma image_decode_row types values vars row : row_image types values vars row → decode_row row types = Ok values.
Proof.
  intros Him. pose proof (Forall2_length _ _ _ (ri_store _ _ _ _ Him)) as Hl. unfold decode_row.
  rewrite decode_row_masked_columns. apply mapM_lookup; [by rewrite length_seq|].
  intros i x y Hx Hy. apply lookup_seq in Hx as [-> _]. cbn [kept Nat.add]. by eapply image_decode.
Qed.

(** Where the head of a streamed row says the stream lies. *)
Lemma stream_window types values col v head total data :
  Forall2 storable_in types values → values !! col = Some v → has_body v = true →
  (∃ b, v = Blob b) ∨ utf8_valid data = true →
  Z.of_nat (length (flat_map body values)) < 2 ^ 32 → Z.of_nat (length data) < 2 ^ 32 →
  encode_row_head_for_stream values types col (length data) = Ok (head, total) →
  types !! col = Some TText ∨ types !! col = Some TBlob →
  ∃ off, varlen_window (take (head_len types) head) types col = Ok (Some (Z.of_nat off, Z.of_nat (length data))) ∧
    sub off (length data) (head ++ data) = data.
Proof.
  intros Hv Hj Hb Hu H32 Hd He Hty.
  destruct (stream_image types values col v head total data) as [_ Him]; [done..|].
  destruct (stream_head types values col v head total data) as (_&bm&Hhead&Hbm&_); [done..|].
  set (end_ := length (flat_map body values)) in *. pose proof (lookup_lt_Some _ _ _ Hj) as Hlt.
  assert (<[col := streamed v data]> values !! col = Some (streamed v data)) as Hj' by by rewrite list_lookup_insert_eq.
  assert (<[col := end_]> (offsets values 0) !! col = Some end_) as Hvar
    by (rewrite list_lookup_insert_eq by (by rewrite length_offsets); done).
  assert (body (streamed v data) = data) as Hbd by by destruct v.
  destruct (ri_body _ _ _ _ Him col _ _ Hj' Hvar) as (_&_&Hsub); [by destruct v|].
  exists (head_len types + end_)%nat. unfold body_len in Hsub. rewrite Hbd in Hsub. split; [|done].
  assert (∃ ty, types !! col = Some ty ∧ (ty = TText ∨ ty = TBlob)) as (ty&Hty'&Htb) by (destruct Hty; eauto).
  pose proof (image_window types _ _ _ col _ ty Him Hj' Hty' Htb) as Hw. rewrite Hvar in Hw. unfold body_len in Hw. rewrite Hbd in Hw.
  rewrite take_app_le in Hw by (rewrite Hhead, !length_app, length_slots, Hbm;
    [unfold head_len; lia|apply (ri_store _ _ _ _ Him)|apply (ri_vars _ _ _ _ Him)]).
  replace (is_null (streamed v data)) with false in Hw by by destruct v. exact Hw.
Qed.

(** * Any bytes *)

Lemma decode_slot_yields buf fixed_end ty off : yields (decode_slot buf fixed_end ty off) (λ v, column_type v = Some ty).
Proof.
  assert (∀ Q : bytes → Prop, (∀ b, Q b) → yields (read_body buf fixed_end off) Q) as Hbody.
  { intros Q HQ. apply yields_bind, yields_option. intros raw _. cbn zeta. case_match; [apply HQ|done]. }
  unfold decode_slot. destruct ty; try done;
    try (apply yields_bind, yields_option; intros raw _; done);
    try (apply yields_bind, Hbody; intros b; cbn; by repeat case_match).
  apply yields_bind, yields_option. intros b _. by repeat case_match.
Qed.

Lemma decode_column_yields buf types col : yields (decode_column buf types col) (λ v, ∀ ty, types !! col = Some ty → fits v ty = true ∧ is_list v = false).
Proof.
  unfold decode_column. destruct (types !! col) as [ty|] eqn:Hty; [|done].
  apply yields_bind, yields_option. intros b _. case_match.
  { intros ty' [= <-]. split; [by destruct ty|done]. }
  unfold resolve_type. destruct (bool_decide_reflect (ty = TAny)) as [->|Hne].
  - apply yields_bind, yields_bind, yields_option. intros tag _. destruct (from_tag tag) as [t|]; [|done].
    case_bool_decide; [done|]. cbn. eapply yields_mono; [apply decode_slot_yields|].
    intros v Hv ty' [= <-]. by destruct v.
  - cbn [mbind res_mbind]. eapply yields_mono; [apply decode_slot_yields|]. intros v Hv ty' [= <-].
    unfold fits. rewrite bool_decide_false, Hv, bool_decide_true by done. by destruct v.
Qed.

Lemma mapM_yields {A B} (f : A → res B) (P : A → B → Prop) l :
  (∀ x, x ∈ l → yields (f x) (P x)) → yields (mapM f l) (Forall2 P l).
Proof.
  induction l as [|x l IH]; intros H; [constructor|]. cbn [mapM]. apply yields_bind.
  eapply yields_mono; [apply H; by left|]. intros y Hy. apply yields_bind. eapply yields_mono; [apply IH|].
  - intros z Hz. apply H. by right.
  - intros k Hk. by constructor.
Qed.

Lemma decode_row_yields buf types : yields (decode_row buf types) (Forall2 (λ ty v, fits v ty = true ∧ is_list v = false) types).
Proof.
  unfold decode_row. rewrite decode_row_masked_columns. cbn [kept].
  eapply yields_mono; [apply (mapM_yields _ (λ i v, ∀ ty, types !! i = Some ty → fits v ty = true ∧ is_list v = false))|].
  - intros i _. apply decode_column_yields.
  - intros vs Hvs. pose proof (Forall2_length _ _ _ Hvs) as Hl. rewrite length_seq in Hl.
    apply Forall2_same_length_lookup_2; [done|]. intros i ty v Hty Hv.
    eapply Forall2_lookup_lr in Hvs; [|apply lookup_seq_lt; by apply lookup_lt_Some in Hty|exact Hv]. by apply Hvs.
Qed.
