(* ===== verification/RowTheorems.v ===== *)
(** What the row codec promises its callers: the engine, which writes and
    reads whole rows, and the chunked reader and writer of large values. *)

From S2P Require Import Prelude Text Value Row RowCodec.
Local Open Scope Z_scope.

Definition row_types : list ColumnType := [Int64; TText; TAny; TBool; TBlob].
Definition row_values : list Value := [Int (-2); Text (ch "row"); Numeric (ch "1.50"); Null; Blob [0; 255]].

Lemma row_values_ok : Forall2 storable_in row_types row_values.
Proof. repeat (constructor; [split_and!; vm_compute; try done; congruence|]). constructor. Qed.

(** C31. Rows: values that fit their columns, with bodies of less than 4 GiB
    in all, encode; the row has exactly the announced length, and reads back,
    whole or with the columns a mask leaves out as NULL. *)
Theorem row_roundtrip types values : Forall2 storable_in types values →
  Z.of_nat (length (flat_map body values)) < 2 ^ 32 →
  ∃ row, encode_row values types = Ok row ∧ length row = encoded_len values types ∧
    decode_row row types = Ok values ∧
    (∀ mask, length mask = length types →
       decode_row_masked row types (Some mask) = Ok (zip_with (λ (k : bool) v, if k then v else Null) mask values)).
Proof.
  intros Hv H32. destruct (encode_row_layout types values Hv) as (bm&_&He&_).
  eexists. split; [exact He|]. split_and!; [by eapply length_row|by eapply decode_whole_row|].
  intros mask Hm. erewrite decode_row_at by done. rewrite Hm, Nat.min_id, take_ge by (by rewrite (Forall2_length _ _ _ Hv)).
  by rewrite imap_kept by (by rewrite Hm, (Forall2_length _ _ _ Hv)).
Qed.

Lemma row_roundtrip_witness :
  ∃ row, encode_row row_values row_types = Ok row ∧ length row = 44%nat ∧ decode_row row row_types = Ok row_values.
Proof.
  destruct (row_roundtrip row_types row_values row_values_ok) as (row&He&Hl&Hd&_); [vm_compute; reflexivity|].
  exists row. split; [exact He|]. split; [exact Hl|exact Hd].
Defined.

(** C32. Decoding any bytes as a row: one value per column, of the column's
    type, or an error; nothing is read out of range. The one pass of
    [decode_row_masked], which carries its offset along, agrees with
    [decode_column] on every column, also in which error it reports first, and
    a mask that is shorter than the row cuts it. *)
Theorem row_decoding_total buf types :
  match decode_row buf types with
  | Ok vs => Forall2 (λ ty v, fits v ty = true ∧ is_list v = false) types vs
  | Err _ => True
  | Panic => False
  end ∧
  (∀ mask, decode_row_masked buf types (Some mask) =
     mapM (λ i, if default false (mask !! i) then decode_column buf types i else Ok Null)
       (seq 0 (Nat.min (length mask) (length types)))) ∧
  decode_row buf types = mapM (decode_column buf types) (seq 0 (length types)).
Proof.
  split_and!; [apply decode_row_yields| |].
  - intros mask. by rewrite decode_row_masked_columns.
  - unfold decode_row. by rewrite decode_row_masked_columns.
Qed.

(** Large values in pieces: the head written for a streamed column, then
    the stream, is a row of the announced length that reads back with the
    stream as that column's value; and of any row, head bytes alone tell where
    a text or blob lies. *)
Theorem streamed_row types values col v data head total :
  Forall2 storable_in types values → values !! col = Some v → has_body v = true →
  (∃ b, v = Blob b) ∨ utf8_valid data = true →
  Z.of_nat (length (flat_map body values)) < 2 ^ 32 → Z.of_nat (length data) < 2 ^ 32 →
  encode_row_head_for_stream values types col (length data) = Ok (head, total) →
  total = length (head ++ data) ∧
  decode_row (head ++ data) types = Ok (<[col := streamed v data]> values) ∧
  (types !! col = Some TText ∨ types !! col = Some TBlob →
     ∃ off, varlen_window (take (head_len types) head) types col = Ok (Some (Z.of_nat off, Z.of_nat (length data))) ∧
       sub off (length data) (head ++ data) = data).
Proof.
  intros Hv Hj Hb Hu H32 Hd He.
  destruct (stream_image types values col v head total data) as [Ht Him]; [done..|]. split; [done|].
  split; [by eapply image_decode_row|]. intros Hty. by eapply stream_window.
Qed.

Lemma streamed_row_witness :
  ∃ head, encode_row_head_for_stream row_values row_types 4 3 = Ok (head, 47%nat) ∧
    decode_row (head ++ [7; 8; 9]) row_types = Ok [Int (-2); Text (ch "row"); Numeric (ch "1.50"); Null; Blob [7; 8; 9]].
Proof.
  eexists. split; [vm_compute; reflexivity|].
  apply (streamed_row row_types row_values 4 (Blob [0; 255]) [7; 8; 9] _ 47%nat row_values_ok);
    [reflexivity|reflexivity|left; by eexists|vm_compute; reflexivity..].
Defined.
