(* ===== verification/Subedit.v ===== *)
(** Sub-edits of [crates/mpedb-types/src/subedit.rs]: a splice of a byte
    string, and its rebase through the splices that committed before it. *)

From S2P Require Import Prelude.
Local Open Scope Z_scope.

(** * The code *)

Record Splice := MkSplice { sp_at : Z; sp_remove : Z; sp_insert : bytes }.

Inductive Clash := RemovedSpansOverlap | InsertedInsideMyRemoval | MyPositionWasRemoved.

(** Unchecked [u64] arithmetic, which panics under overflow checks. *)
Definition u64 (z : Z) : res Z := if (0 <=? z) && (z <? 2 ^ 64) then Ok z else Panic.

Definition inserted (s : Splice) : Z := Z.of_nat (length (sp_insert s)).
Definition sp_end (s : Splice) : res Z := u64 (sp_at s + sp_remove s).

(** The three overlaps, each test in the order the code evaluates it. *)
Definition clash (self earlier : Splice) : res (option Clash) :=
  let (a, r) := (sp_at self, sp_remove self) in
  let (b, s) := (sp_at earlier, sp_remove earlier) in
  if (r =? 0) && (s =? 0) then Ok None
  else if (0 <? r) && (0 <? s) then
    e ← sp_end earlier;
    if a <? e
    then e' ← sp_end self; Ok (if b <? e' then Some RemovedSpansOverlap else None)
    else Ok None
  else if 0 <? r then
    if a <? b
    then e ← sp_end self; Ok (if b <? e then Some InsertedInsideMyRemoval else None)
    else Ok None
  else
    if b <? a
    then e ← sp_end earlier; Ok (if a <? e then Some MyPositionWasRemoved else None)
    else Ok None.

(** [Err] of the source is [inr]. The last test is a [debug_assert]. *)
Definition rebase (self earlier : Splice) : res (Splice + Clash) :=
  let (a, r) := (sp_at self, sp_remove self) in
  let (b, s) := (sp_at earlier, sp_remove earlier) in
  let j := inserted earlier in
  c ← clash self earlier;
  match c with
  | Some c => Ok (inr c)
  | None =>
      e ← sp_end earlier;
      at_ ← (if e <=? a
             then x ← u64 (a + j); if s <=? x then Ok (x - s) else Panic
             else e' ← sp_end self; if e' <=? b then Ok a else Panic);
      Ok (inl (MkSplice at_ r (sp_insert self)))
  end.

Fixpoint rebase_through (self : Splice) (history : list Splice) : res (Splice + Clash) :=
  match history with
  | [] => Ok (inl self)
  | e :: history =>
      cur ← rebase self e;
      match cur with
      | inl cur => rebase_through cur history
      | inr c => Ok (inr c)
      end
  end.

(** [buf.splice(at..end, insert)], both ends clamped to the length; the sum is
    of machine words. *)
Definition apply (self : Splice) (buf : bytes) : res bytes :=
  let len := Z.of_nat (length buf) in
  let at_ := Z.min (sp_at self) len in
  e ← u64 (at_ + sp_remove self);
  let e := Z.min e len in
  Ok (take (Z.to_nat at_) buf ++ sp_insert self ++ drop (Z.to_nat e) buf).

(** * Splices within a value *)

(** Offsets of a splice that lies within [buf]; a value and what is inserted
    are smaller than half the address space. *)
Record within (s : Splice) (buf : bytes) : Prop := {
  in_at : 0 ≤ sp_at s;
  in_remove : 0 ≤ sp_remove s;
  in_end : sp_at s + sp_remove s ≤ Z.of_nat (length buf);
  in_insert : inserted s < 2 ^ 62;
  in_size : Z.of_nat (length buf) < 2 ^ 62;
}.

Definition spliced (s : Splice) (buf : bytes) : bytes :=
  take (Z.to_nat (sp_at s)) buf ++ sp_insert s ++ drop (Z.to_nat (sp_at s + sp_remove s)) buf.

Lemma u64_ok z : 0 ≤ z < 2 ^ 64 → u64 z = Ok z.
Proof. intros Hz. unfold u64. rewrite (proj2 (Z.leb_le _ _)), (proj2 (Z.ltb_lt _ _)) by lia. done. Qed.

Lemma apply_within s buf : within s buf → apply s buf = Ok (spliced s buf).
Proof.
  intros [Ha Hr He _ Hs]. unfold apply. rewrite !Z.min_l by lia. rewrite u64_ok by lia. cbn [mbind res_mbind].
  by rewrite Z.min_l by lia.
Qed.

Lemma length_spliced s buf : within s buf →
  Z.of_nat (length (spliced s buf)) = Z.of_nat (length buf) + inserted s - sp_remove s.
Proof.
  intros [Ha Hr He _ _]. unfold spliced, inserted. rewrite !length_app, length_take, length_drop. lia.
Qed.

Lemma end_within s buf : within s buf → sp_end s = Ok (sp_at s + sp_remove s).
Proof. intros [Ha Hr He _ Hs]. apply u64_ok. lia. Qed.

(** The two splices touch different bytes. *)
Definition before (s t : Splice) : Prop := sp_at s + sp_remove s ≤ sp_at t.
#[global] Instance before_dec s t : Decision (before s t).
Proof. unfold before. apply _. Defined.
Definition apart (self earlier : Splice) : Prop := before earlier self ∨ before self earlier.

(** Where a splice is after an earlier one. *)
Definition shifted (self earlier : Splice) : Splice :=
  MkSplice (if sp_at earlier + sp_remove earlier <=? sp_at self
            then sp_at self + inserted earlier - sp_remove earlier else sp_at self)
    (sp_remove self) (sp_insert self).

(** [rebase] of splices within one value: it never panics, clashes exactly when
    the two are not apart, and otherwise shifts. *)
Lemma rebase_within self earlier buf : within self buf → within earlier buf →
  (apart self earlier ∧ rebase self earlier = Ok (inl (shifted self earlier))) ∨
  (¬ apart self earlier ∧ ∃ c, rebase self earlier = Ok (inr c)).
Proof.
  intros W1 W2. unfold rebase, clash. rewrite (end_within self buf W1), (end_within earlier buf W2).
  destruct W1 as [Ha Hr He Hi Hs], W2 as [Hb Hrs Hbe Hj _]. unfold apart, before, shifted.
  set (a := sp_at self) in *. set (r := sp_remove self) in *. set (b := sp_at earlier) in *. set (s := sp_remove earlier) in *.
  set (j := inserted earlier) in *. assert (0 ≤ j) by (unfold j, inserted; lia).
  assert (b + s ≤ a ∨ a + r ≤ b →
    (e ← Ok (b + s);
     at_ ← (if e <=? a then x ← u64 (a + j); if s <=? x then Ok (x - s) else Panic
            else e' ← Ok (a + r); if e' <=? b then Ok a else Panic);
     Ok (inl (MkSplice at_ r (sp_insert self)))) =
    Ok (inl (MkSplice (if b + s <=? a then a + j - s else a) r (sp_insert self)) : Splice + Clash)) as Hok.
  { intros Hap. cbn [mbind res_mbind]. destruct (Z.leb_spec (b + s) a).
    - rewrite u64_ok by lia. cbn [mbind res_mbind]. by rewrite (proj2 (Z.leb_le _ _)) by lia.
    - cbn [mbind res_mbind]. by rewrite (proj2 (Z.leb_le _ _)) by lia. }
  clearbody a r b s j.
  destruct (Z.eqb_spec r 0), (Z.eqb_spec s 0), (Z.ltb_spec 0 r), (Z.ltb_spec 0 s); try lia; cbn [andb mbind res_mbind];
    repeat (match goal with |- context [?x <? ?y] => destruct (Z.ltb_spec x y) end; cbn [mbind res_mbind]);
    first [left; split; [lia|by apply Hok; lia] | right; split; [lia|by eexists]].
Qed.

(** * What a rebase keeps *)

Lemma spliced_parts s (P X R : bytes) : Z.of_nat (length P) = sp_at s → Z.of_nat (length X) = sp_remove s →
  spliced s (P ++ X ++ R) = P ++ sp_insert s ++ R.
Proof.
  intros HP HX. unfold spliced. rewrite <- HP, <- HX, <- Nat2Z.inj_add, !Nat2Z.id, take_app_length.
  do 2 f_equal. rewrite app_assoc. apply drop_app_length'. rewrite length_app. done.
Qed.

Lemma target_parts (P X R : bytes) a r : Z.of_nat (length P) = a → Z.of_nat (length X) = r →
  sub (Z.to_nat a) (Z.to_nat r) (P ++ X ++ R) = X.
Proof.
  intros <- <-. rewrite !Nat2Z.id. rewrite sub_app_r by lia. rewrite Nat.sub_diag. apply sub_app_exact.
Qed.

(** A value cut at two splices, the first before the second. *)
Lemma two_parts s t buf : within s buf → within t buf → before s t →
  ∃ P X Q Y R, buf = P ++ X ++ Q ++ Y ++ R ∧ Z.of_nat (length P) = sp_at s ∧ Z.of_nat (length X) = sp_remove s ∧
    Z.of_nat (length (P ++ X ++ Q)) = sp_at t ∧ Z.of_nat (length Y) = sp_remove t.
Proof.
  intros [Ha Hr He _ _] [Hb Hs Hf _ _] Hst. unfold before in Hst.
  set (a := Z.to_nat (sp_at s)). set (r := Z.to_nat (sp_remove s)). set (b := Z.to_nat (sp_at t)). set (q := Z.to_nat (sp_remove t)).
  exists (take a buf), (sub a r buf), (sub (a + r) (b - (a + r)) buf), (sub b q buf), (drop (b + q) buf).
  assert (∀ o n, (o + n ≤ length buf)%nat → drop o buf = sub o n buf ++ drop (o + n) buf) as Hcut.
  { intros o n Hon. unfold sub. by rewrite <- drop_drop, take_drop. }
  split_and!.
  - rewrite <- (Hcut b q) by lia. replace b with (a + r + (b - (a + r)))%nat at 2 by lia.
    rewrite <- (Hcut (a + r)%nat) by lia. rewrite <- (Hcut a r) by lia. by rewrite take_drop.
  - rewrite length_take. lia.
  - unfold sub. rewrite length_take, length_drop. lia.
  - unfold sub. rewrite !length_app, !length_take, !length_drop. lia.
  - unfold sub. rewrite length_take, length_drop. lia.
Qed.

(** The shifted splice lies within the new value and names the same bytes. *)
Lemma shifted_keeps self earlier buf : within self buf → within earlier buf → apart self earlier →
  Z.of_nat (length (spliced earlier buf)) < 2 ^ 62 →
  within (shifted self earlier) (spliced earlier buf) ∧
  sub (Z.to_nat (sp_at (shifted self earlier))) (Z.to_nat (sp_remove self)) (spliced earlier buf) =
    sub (Z.to_nat (sp_at self)) (Z.to_nat (sp_remove self)) buf.
Proof.
  intros W1 W2 Hap Hsz. pose proof (length_spliced earlier buf W2) as Hlen. unfold inserted in Hlen.
  assert (within (shifted self earlier) (spliced earlier buf)) as Hin.
  { destruct W1 as [Ha Hr He Hi Hs], W2 as [Hb Hrs Hbe Hj _]. unfold apart, before in Hap.
    unfold shifted, inserted in *. split; cbn [sp_at sp_remove sp_insert]; try done;
      destruct (Z.leb_spec (sp_at earlier + sp_remove earlier) (sp_at self)); lia. }
  split; [done|]. destruct (decide (before earlier self)) as [Hb|Hnb].
  - destruct (two_parts earlier self buf W2 W1 Hb) as (P&X&Q&Y&R&->&HP&HX&HQ&HY). unfold before in Hb.
    unfold shifted. cbn [sp_at]. rewrite (proj2 (Z.leb_le _ _)) by done. rewrite spliced_parts by done.
    replace (P ++ sp_insert earlier ++ Q ++ Y ++ R) with ((P ++ sp_insert earlier ++ Q) ++ Y ++ R) by (by rewrite <- !app_assoc).
    replace (P ++ X ++ Q ++ Y ++ R) with ((P ++ X ++ Q) ++ Y ++ R) by (by rewrite <- !app_assoc).
    rewrite !target_parts; try done. rewrite !length_app in *. unfold inserted. lia.
  - destruct Hap as [?|Hb]; [done|]. destruct (two_parts self earlier buf W1 W2 Hb) as (P&X&Q&Y&R&->&HP&HX&HQ&HY).
    unfold before in *. unfold shifted. cbn [sp_at]. rewrite (proj2 (Z.leb_gt _ _)) by lia.
    rewrite (app_assoc P X), (app_assoc (P ++ X) Q). rewrite spliced_parts by (by rewrite <- ?app_assoc).
    rewrite <- !app_assoc. by rewrite !target_parts.
Qed.

(** Two splices that are apart, in either order of commit, end in one value. *)
Lemma before_converges s t buf : within s buf → within t buf → before s t → ¬ before t s →
  spliced (shifted s t) (spliced t buf) = spliced (shifted t s) (spliced s buf).
Proof.
  intros W1 W2 Hst Hts. destruct (two_parts s t buf W1 W2 Hst) as (P&X&Q&Y&R&->&HP&HX&HQ&HY). unfold before in *.
  assert (sp_at (shifted s t) = sp_at s) as As by (unfold shifted; cbn; by rewrite (proj2 (Z.leb_gt _ _)) by lia).
  assert (sp_at (shifted t s) = sp_at t + inserted s - sp_remove s) as At
    by (unfold shifted; cbn; by rewrite (proj2 (Z.leb_le _ _)) by lia).
  rewrite (spliced_parts s P X) by done.
  replace (P ++ X ++ Q ++ Y ++ R) with ((P ++ X ++ Q) ++ Y ++ R) by (by rewrite <- !app_assoc).
  rewrite (spliced_parts t _ Y) by done.
  replace (P ++ sp_insert s ++ Q ++ Y ++ R) with ((P ++ sp_insert s ++ Q) ++ Y ++ R) by (by rewrite <- !app_assoc).
  rewrite (spliced_parts (shifted t s) _ Y); [|rewrite At, !length_app in *; unfold inserted; lia|done].
  replace ((P ++ X ++ Q) ++ sp_insert t ++ R) with (P ++ X ++ (Q ++ sp_insert t ++ R)) by (by rewrite <- !app_assoc).
  rewrite (spliced_parts (shifted s t) P X) by (done || by rewrite As). cbn [shifted sp_insert]. by rewrite <- !app_assoc.
Qed.

Lemma apart_converges s t buf : within s buf → within t buf → apart s t → ¬ (before s t ∧ before t s) →
  spliced (shifted s t) (spliced t buf) = spliced (shifted t s) (spliced s buf).
Proof.
  intros W1 W2 [H|H] Hn.
  - symmetry. apply before_converges; naive_solver.
  - apply before_converges; naive_solver.
Qed.

Lemma apart_comm s t : apart s t ↔ apart t s.
Proof. unfold apart. tauto. Qed.

(** * A history *)

(** Every splice of the history lies within the value as it then stood. *)
Fixpoint history_within (history : list Splice) (buf : bytes) : Prop :=
  match history with
  | [] => Z.of_nat (length buf) < 2 ^ 62
  | e :: history => within e buf ∧ history_within history (spliced e buf)
  end.
Definition replay (history : list Splice) (buf : bytes) : bytes := foldl (λ b e, spliced e b) buf history.

Lemma history_size history buf : history_within history buf → Z.of_nat (length buf) < 2 ^ 62.
Proof. destruct history; [done|]. by intros [[] _]. Qed.

Lemma rebase_through_keeps history : ∀ self buf, within self buf → history_within history buf →
  ∃ r, rebase_through self history = Ok r ∧
    match r with
    | inl cur => within cur (replay history buf) ∧ sp_remove cur = sp_remove self ∧ sp_insert cur = sp_insert self ∧
        sub (Z.to_nat (sp_at cur)) (Z.to_nat (sp_remove cur)) (replay history buf) =
        sub (Z.to_nat (sp_at self)) (Z.to_nat (sp_remove self)) buf
    | inr _ => ∃ before_ e after cur, history = before_ ++ e :: after ∧
        rebase_through self before_ = Ok (inl cur) ∧ ¬ apart cur e
    end.
Proof.
  induction history as [|e history IH]; intros self buf W Hh; cbn [rebase_through]; [by exists (inl self)|].
  destruct Hh as [We Hh]. destruct (rebase_within self e buf W We) as [[Hap Hrb]|[Hap [c ->]]]; cbn [mbind res_mbind].
  - rewrite Hrb. cbn [mbind res_mbind]. destruct (shifted_keeps self e buf W We Hap (history_size _ _ Hh)) as [W' Ht].
    destruct (IH (shifted self e) (spliced e buf) W' Hh) as (r&->&Hr). exists r. split; [done|].
    destruct r as [cur|].
    + destruct Hr as (?&?&?&Hs). split_and!; [done..|]. by etransitivity; [exact Hs|].
    + destruct Hr as (h1&e'&h2&cur&->&Hc&Hn). exists (e :: h1), e', h2, cur. split_and!; [done| |done].
      cbn [rebase_through]. by rewrite Hrb.
  - exists (inr c). split; [done|]. by exists [], e, history, self.
Qed.

(** Both orders of commit, with the code's own [rebase] and [apply]. *)
Lemma rebase_converges s t buf : within s buf → within t buf → apart s t → ¬ (before s t ∧ before t s) →
  Z.of_nat (length (spliced s buf)) < 2 ^ 62 → Z.of_nat (length (spliced t buf)) < 2 ^ 62 →
  ∃ s' t' out, rebase s t = Ok (inl s') ∧ rebase t s = Ok (inl t') ∧
    (b ← apply t buf; apply s' b) = Ok out ∧ (b ← apply s buf; apply t' b) = Ok out.
Proof.
  intros Ws Wt Hap Hn Ls Lt. exists (shifted s t), (shifted t s), (spliced (shifted s t) (spliced t buf)).
  destruct (shifted_keeps s t buf Ws Wt Hap Lt) as [Ws' _].
  destruct (shifted_keeps t s buf Wt Ws (proj1 (apart_comm _ _) Hap) Ls) as [Wt' _].
  rewrite (apply_within t buf Wt), (apply_within s buf Ws). cbn [mbind res_mbind].
  rewrite (apply_within _ _ Ws'), (apply_within _ _ Wt'). rewrite (apart_converges s t buf) by done.
  destruct (rebase_within s t buf Ws Wt) as [[_ ->]|[]]; [|done].
  destruct (rebase_within t s buf Wt Ws) as [[_ ->]|[Hx _]]; [done|]. by destruct Hx; apply apart_comm.
Qed.
