(* ===== verification/Optimistic.v ===== *)
(** The committed-footprint ring of [crates/mpedb-core/src/shm/optimistic.rs],
    and what fills it: the footprint a transaction accumulates
    ([engine/write/concurrency.rs]) and publishes when it commits
    ([engine/commit.rs]). All of it runs under the writer lock. *)

From S2P Require Import Prelude.
Local Open Scope Z_scope.

(** * The ring *)

Definition OPT_RING_SLOTS : Z := 256.
Definition OFP_MAX_KEYS : nat := 8.

(** The fields of an entry, by byte offset. *)
Definition OFP_TXN : nat := 0.
Definition OFP_KIND : nat := 8.
Definition OFP_TBITS : nat := 16.
Definition OFP_KHASH : nat := 24.
Definition OFP_COLS : nat := 32.
Definition OFP_NKEYS : nat := 40.
Definition OFP_KEYS : nat := 48.
Definition OFP_RANGE : nat := 112.
Definition OFP_DELTA : nat := 120.

Definition COLS_ANY : Z := 2 ^ 64 - 1.
Definition RANGE_ANY : Z := 2 ^ 64 - 1.
Definition REGION_ANY : Z := 2 ^ 64 - 1.

Definition OFP_KIND_EMPTY : Z := 0.
Definition OFP_KIND_POINT : Z := 1.
Definition OFP_KIND_TABLE : Z := 2.
Definition OFP_KIND_REGION : Z := 3.
Definition OFP_KIND_SHARD : Z := 4.

(** Entries of sixteen words. *)
Abbreviation Ring := (list (list Z)).
Definition fresh_ring : Ring := replicate (Z.to_nat OPT_RING_SLOTS) (replicate 16 0).

Definition opt_slot (txn : Z) : nat := Z.to_nat (txn mod OPT_RING_SLOTS).
Definition word (field : nat) : nat := (field / 8)%nat.

(** [opt_field(txn, field)], loaded and stored. *)
Definition load (r : Ring) (txn : Z) (field : nat) : Z :=
  default 0 (r !! opt_slot txn ≫= λ e, e !! word field).
Definition store (txn : Z) (field : nat) (v : Z) (r : Ring) : Ring :=
  alter (λ e : list Z, <[word field := v]> e) (opt_slot txn) r.

Record CommitFootprint := MkCommitFootprint {
  fp_kind : Z; table_bits : Z; fp_key_hash : Z; fp_cols : Z;
  fp_keys : option (list Z); fp_range : Z; fp_delta : Z }.

(** How many exact keys an entry can carry. *)
Definition exact_count (keys : option (list Z)) : nat :=
  match keys with
  | Some k => if negb (bool_decide (k = [])) && bool_decide (length k ≤ OFP_MAX_KEYS)%nat then length k else 0%nat
  | None => 0%nat
  end.

Fixpoint store_keys (txn : Z) (i : nat) (keys : list Z) (r : Ring) : Ring :=
  match keys with
  | [] => r
  | h :: keys => store_keys txn (S i) keys (store txn (OFP_KEYS + i * 8) h r)
  end.

Definition opt_record (txn : Z) (fp : CommitFootprint) (r : Ring) : Ring :=
  let r := store txn OFP_COLS (fp_cols fp) r in
  let r := store txn OFP_KIND (fp_kind fp) r in
  let r := store txn OFP_TBITS (table_bits fp) r in
  let r := store txn OFP_KHASH (fp_key_hash fp) r in
  let n := exact_count (fp_keys fp) in
  let r := store_keys txn 0 (take n (default [] (fp_keys fp))) r in
  let r := store txn OFP_NKEYS (Z.of_nat n) r in
  let r := store txn OFP_RANGE (fp_range fp) r in
  let r := store txn OFP_DELTA (to_uint 64 (fp_delta fp)) r in
  store txn OFP_TXN txn r.

(** The exact keys, padded with zeros to eight. *)
Definition opt_keys (r : Ring) (t : Z) : option (list Z) :=
  let n := load r t OFP_NKEYS in
  if (n =? 0) || (Z.of_nat OFP_MAX_KEYS <? n) then None
  else Some (map (λ i, if bool_decide (i < Z.to_nat n)%nat then load r t (OFP_KEYS + i * 8) else 0)
               (seq 0 OFP_MAX_KEYS)).

Definition fold_bit (x : Z) : Z := Z.shiftl 1 (Z.land x 63).
Definition region_bit (key_hash : Z) : Z := Z.shiftl 1 (key_hash mod 64).
Definition meets (a b : Z) : bool := negb (Z.land a b =? 0).
Definition contains (l : list Z) (x : Z) : bool := existsb (Z.eqb x) l.

(** The commits of the window [(snap, current]], oldest first. *)
Definition window (snap current : Z) : list Z := seqZ (snap + 1) (current - snap).

(** * First-committer-wins for one key *)

Definition conflicts_at (r : Ring) (my_bit key_hash t : Z) : bool :=
  if negb (load r t OFP_TXN =? t) then true
  else
    let kind := load r t OFP_KIND in
    let here := meets (load r t OFP_TBITS) my_bit in
    if kind =? OFP_KIND_EMPTY then false
    else if kind =? OFP_KIND_TABLE then here
    else if kind =? OFP_KIND_SHARD then here
    else if kind =? OFP_KIND_REGION then here && meets (load r t OFP_KHASH) (region_bit key_hash)
    else if kind =? OFP_KIND_POINT then here && (load r t OFP_KHASH =? key_hash)
    else here.

Definition opt_conflict (r : Ring) (snap_txn current_txn table_id key_hash : Z) : bool :=
  if current_txn <=? snap_txn then false
  else if OPT_RING_SLOTS <? current_txn - snap_txn then true
  else existsb (conflicts_at r (fold_bit table_id) key_hash) (window snap_txn current_txn).

(** * A guarded action *)

Inductive RangeClaim := Whole | Bytes (lo hi : Z) | Settled.
Inductive GuardVerdict := Clear | Overlap | SnapshotTooOld | RingGap.

Record GuardSurface := MkGuardSurface {
  gs_tables : Z; gs_regions : Z; gs_keys : option (list Z); gs_shard : option Z; gs_cols : Z; gs_range : RangeClaim }.

(** Do the keys, or the shards, overlap? *)
Definition key_overlap (r : Ring) (g : GuardSurface) (kind t : Z) : bool :=
  if kind =? OFP_KIND_SHARD then
    match gs_shard g with Some mine => load r t OFP_KHASH =? mine | None => true end
  else
    match gs_shard g with
    | Some _ => true
    | None =>
        if (kind =? OFP_KIND_REGION) || (kind =? OFP_KIND_POINT) then
          match gs_keys g, opt_keys r t with
          | Some mine, Some theirs => existsb (contains theirs) mine
          | _, _ =>
              if kind =? OFP_KIND_POINT then meets (region_bit (load r t OFP_KHASH)) (gs_regions g)
              else meets (load r t OFP_KHASH) (gs_regions g)
          end
        else true
    end.

(** Is the byte range cleared? *)
Definition range_clear (r : Ring) (g : GuardSurface) (t : Z) : bool :=
  match gs_range g with
  | Settled => true
  | Bytes _ my_hi =>
      let theirs := load r t OFP_RANGE in
      negb (theirs =? RANGE_ANY) && (my_hi <=? Z.shiftr theirs 32)
  | Whole => false
  end.

(** What one commit of the window means for the guard. *)
Definition verdict_at (r : Ring) (g : GuardSurface) (t : Z) : GuardVerdict :=
  if negb (load r t OFP_TXN =? t) then RingGap
  else
    let kind := load r t OFP_KIND in
    if kind =? OFP_KIND_EMPTY then Clear
    else if negb (meets (load r t OFP_TBITS) (gs_tables g)) then Clear
    else if negb (key_overlap r g kind t) then Clear
    else if negb (meets (load r t OFP_COLS) (gs_cols g)) then Clear
    else if range_clear r g t then Clear
    else Overlap.

Fixpoint first_verdict (r : Ring) (g : GuardSurface) (ts : list Z) : GuardVerdict :=
  match ts with
  | [] => Clear
  | t :: ts => match verdict_at r g t with Clear => first_verdict r g ts | v => v end
  end.

(** The answer and [*why], which stays [Clear] when there is no conflict. *)
Definition opt_conflict_set (r : Ring) (snap_txn current_txn : Z) (g : GuardSurface) : bool * GuardVerdict :=
  if current_txn <=? snap_txn then (false, Clear)
  else if OPT_RING_SLOTS <? current_txn - snap_txn then (true, SnapshotTooOld)
  else match first_verdict r g (window snap_txn current_txn) with Clear => (false, Clear) | v => (true, v) end.

(** * Carrying a sub-edit forward *)

Record CellEdit := MkCellEdit { ce_table_bit : Z; ce_key : Z; ce_col_bit : Z; ce_at : Z; ce_len : Z }.
Inductive RebaseOutcome := At (at_ : Z) | Collision.

(** A commit that cannot have moved the cell's bytes. *)
Definition skips (r : Ring) (c : CellEdit) (t : Z) : bool :=
  (load r t OFP_KIND =? OFP_KIND_EMPTY) || negb (meets (load r t OFP_TBITS) (ce_table_bit c)) ||
  match opt_keys r t with Some theirs => negb (contains theirs (ce_key c)) | None => false end ||
  negb (meets (load r t OFP_COLS) (ce_col_bit c)).

(** The loop. [Panic] is an overflow of [at + len], [None] the unanswerable
    question. *)
Fixpoint rebase_loop (r : Ring) (c : CellEdit) (at_ : Z) (ts : list Z) : res (option RebaseOutcome) :=
  match ts with
  | [] => Ok (Some (At at_))
  | t :: ts =>
      if negb (load r t OFP_TXN =? t) then Ok None
      else if skips r c t then rebase_loop r c at_ ts
      else
        let packed := load r t OFP_RANGE in
        if packed =? RANGE_ANY then Ok (Some Collision)
        else
          let lo := Z.land (Z.shiftr packed 32) (2 ^ 32 - 1) in
          let hi := Z.land packed (2 ^ 32 - 1) in
          overlap ← (if at_ <? hi
                     then if at_ + ce_len c <? 2 ^ 64 then Ok (lo <? at_ + ce_len c) else Panic
                     else Ok false);
          if (overlap : bool) then Ok (Some Collision)
          else if lo <=? at_ then
            let at' := at_ + to_sint 64 (load r t OFP_DELTA) in
            if (0 <=? at') && (at' <? 2 ^ 64) then rebase_loop r c at' ts else Ok None
          else rebase_loop r c at_ ts
  end.

Definition opt_rebase (r : Ring) (snap current : Z) (c : CellEdit) : res (option RebaseOutcome) :=
  if current <=? snap then Ok (Some (At (ce_at c)))
  else if OPT_RING_SLOTS <? current - snap then Ok None
  else rebase_loop r c (ce_at c) (window snap current).

(** * What a transaction records *)

Definition U32_LIMIT : Z := 2 ^ 32 - 1.

(** The fields of [WriteTxn] that become the footprint, as [begin_write]
    initialises them. *)
Record Written := MkWritten {
  written_tables : Z; written_regions : Z; written_keys : option (list Z); written_cols : Z;
  written_range : option (Z * Z); written_delta : Z;
  written_shard : option Z; written_shard_seen : bool; commit_point : option (Z * Z) }.
Definition no_writes : Written := MkWritten 0 0 (Some []) 0 (Some (U32_LIMIT, 0)) 0 None false None.

(** One more exact key, or exactness given up for good. *)
Definition add_key (key_hash : option Z) (keys : option (list Z)) : option (list Z) :=
  match key_hash, keys with
  | Some h, Some ks =>
      if contains ks h then Some ks
      else let ks := ks ++ [h] in if bool_decide (OFP_MAX_KEYS < length ks)%nat then None else Some ks
  | None, _ => None
  | Some _, None => None
  end.
Definition key_region (key_hash : option Z) : Z :=
  match key_hash with Some h => region_bit h | None => REGION_ANY end.
Definition col_mask (col : option Z) : Z := match col with Some c => fold_bit c | None => COLS_ANY end.
Definition join_range (a b : option (Z * Z)) : option (Z * Z) :=
  match a, b with Some (x, y), Some (c, d) => Some (Z.min x c, Z.max y d) | _, _ => None end.
Definition join_shard (seen : bool) (have new : option Z) : option Z :=
  if negb seen then new else if bool_decide (have = new) then have else None.

(** [set_tree_root] marks the table of every tree it moves. *)
Definition record_written_table (t : Z) (w : Written) : Written :=
  MkWritten (Z.lor (written_tables w) (fold_bit t)) (written_regions w) (written_keys w) (written_cols w)
    (written_range w) (written_delta w) (written_shard w) (written_shard_seen w) (commit_point w).
Definition record_written_key (k : option Z) (w : Written) : Written :=
  MkWritten (written_tables w) (Z.lor (written_regions w) (key_region k)) (add_key k (written_keys w)) (written_cols w)
    (written_range w) (written_delta w) (written_shard w) (written_shard_seen w) (commit_point w).
Definition record_written_col (c : option Z) (w : Written) : Written :=
  MkWritten (written_tables w) (written_regions w) (written_keys w) (Z.lor (written_cols w) (col_mask c))
    (written_range w) (written_delta w) (written_shard w) (written_shard_seen w) (commit_point w).
Definition record_written_range (g : option (Z * Z)) (w : Written) : Written :=
  MkWritten (written_tables w) (written_regions w) (written_keys w) (written_cols w)
    (join_range (written_range w) g) (written_delta w) (written_shard w) (written_shard_seen w) (commit_point w).
Definition saturating_add (a b : Z) : Z := Z.max (- 2 ^ 63) (Z.min (a + b) (2 ^ 63 - 1)).
Definition record_written_delta (d : Z) (w : Written) : Written :=
  MkWritten (written_tables w) (written_regions w) (written_keys w) (written_cols w)
    (written_range w) (saturating_add (written_delta w) d) (written_shard w) (written_shard_seen w) (commit_point w).
Definition record_written_shard (s : option Z) (w : Written) : Written :=
  MkWritten (written_tables w) (written_regions w) (written_keys w) (written_cols w)
    (written_range w) (written_delta w) (join_shard (written_shard_seen w) (written_shard w) s) true (commit_point w).
Definition set_commit_point (table_id key_hash : Z) (w : Written) : Written :=
  MkWritten (written_tables w) (written_regions w) (written_keys w) (written_cols w)
    (written_range w) (written_delta w) (written_shard w) (written_shard_seen w) (Some (table_id, key_hash)).

Definition pack_range (lo hi : Z) : Z :=
  if (lo <=? U32_LIMIT) && (hi <=? U32_LIMIT) && (lo <=? hi) then Z.lor (Z.shiftl lo 32) hi else RANGE_ANY.

(** The range when it is not the identity of the fold. *)
Definition named_range (g : option (Z * Z)) : option (Z * Z) :=
  match g with Some (lo, hi) => if lo <=? hi then Some (lo, hi) else None | None => None end.
Definition nonempty_keys (k : option (list Z)) : option (list Z) :=
  match k with Some ks => if bool_decide (ks = []) then None else Some ks | None => None end.

(** Step 3b of [commit_inner]. *)
Definition commit_footprint (w : Written) : CommitFootprint :=
  let '(kind, tbits, khash) :=
    match commit_point w with
    | Some (table, khash) => (OFP_KIND_POINT, fold_bit table, khash)
    | None =>
        if written_tables w =? 0 then (OFP_KIND_EMPTY, 0, 0)
        else match written_shard w with
             | Some s => (OFP_KIND_SHARD, written_tables w, s)
             | None => (OFP_KIND_REGION, written_tables w,
                        if written_regions w =? 0 then REGION_ANY else written_regions w)
             end
    end in
  MkCommitFootprint kind tbits khash (if written_cols w =? 0 then COLS_ANY else written_cols w)
    (nonempty_keys (written_keys w))
    (match named_range (written_range w) with Some (lo, hi) => pack_range lo hi | None => RANGE_ANY end)
    (written_delta w).

(** * What a guard accumulates *)

Record Guard := MkGuard {
  snap_txn : Z; g_regions : Z; g_keys : option (list Z); g_range : option (Z * Z); rebased : bool;
  g_shard : option Z; g_cols : Z; shard_seen : bool; surface : Z }.

Definition guard_widen (t : Z) (g : Guard) : Guard :=
  MkGuard (snap_txn g) (g_regions g) (g_keys g) (g_range g) (rebased g) (g_shard g) (g_cols g) (shard_seen g)
    (Z.lor (surface g) (fold_bit t)).
Definition guard_touch_key (k : option Z) (g : Guard) : Guard :=
  MkGuard (snap_txn g) (Z.lor (g_regions g) (key_region k)) (add_key k (g_keys g)) (g_range g) (rebased g) (g_shard g)
    (g_cols g) (shard_seen g) (surface g).
Definition guard_touch_col (c : option Z) (g : Guard) : Guard :=
  MkGuard (snap_txn g) (g_regions g) (g_keys g) (g_range g) (rebased g) (g_shard g) (Z.lor (g_cols g) (col_mask c))
    (shard_seen g) (surface g).
Definition guard_shard (s : option Z) (g : Guard) : Guard :=
  MkGuard (snap_txn g) (g_regions g) (g_keys g) (g_range g) (rebased g) (join_shard (shard_seen g) (g_shard g) s)
    (g_cols g) true (surface g).
Definition guard_touch_range (x : option (Z * Z)) (g : Guard) : Guard :=
  MkGuard (snap_txn g) (g_regions g) (g_keys g) (join_range (g_range g) x) (rebased g) (g_shard g) (g_cols g)
    (shard_seen g) (surface g).
Definition mark_rebased (g : Guard) : Guard :=
  MkGuard (snap_txn g) (g_regions g) (g_keys g) (g_range g) true (g_shard g) (g_cols g) (shard_seen g) (surface g).

(** Step 0 of [commit_inner]: the surface a guard is checked on. *)
Definition guard_surface (g : Guard) : GuardSurface :=
  MkGuardSurface (surface g) (if g_regions g =? 0 then REGION_ANY else g_regions g) (nonempty_keys (g_keys g)) (g_shard g)
    (if g_cols g =? 0 then COLS_ANY else g_cols g)
    (if rebased g then Settled else match named_range (g_range g) with Some (lo, hi) => Bytes lo hi | None => Whole end).
Definition guard_check (r : Ring) (current : Z) (g : Guard) : bool * GuardVerdict :=
  opt_conflict_set r (snap_txn g) current (guard_surface g).

(** [begin_write_guarded]. *)
Definition new_guard (snap : Z) : Guard := MkGuard snap 0 (Some []) (Some (U32_LIMIT, 0)) false None 0 false 0.

(** A pending splice of one cell, carried from the guard's snapshot or from the
    later one its offset was computed against. *)
Definition rebase_splice (r : Ring) (current : Z) (guard : option Guard) (table key_hash col at_ len : Z)
    (origin : option Z) : res (option RebaseOutcome) :=
  match guard with
  | None => Ok None
  | Some g =>
      let from := match origin with Some o => Z.max o (snap_txn g) | None => snap_txn g end in
      opt_rebase r from current (MkCellEdit (fold_bit table) key_hash (fold_bit col) at_ len)
  end.

(** FNV-1a of the encoded key, never zero. *)
Definition key_hash (key : bytes) : Z :=
  Z.lor (foldl (λ h b, to_uint 64 (Z.lxor h b * 0x100000001b3)) 0xcbf29ce484222325 key) 1.

(** * What a statement declares *)

(** The footprint of a statement as [widen_guard] resolves it; [None] is what
    the statement cannot name. *)
Record Stmt := MkStmt {
  st_read : list Z; st_tables : list Z; st_key : option Z; st_cols : option (list Z);
  st_range : option (Z * Z); st_delta : option Z; st_shard : option Z }.

Definition each {A B} (f : A → B → B) (l : list A) (b : B) : B := foldl (λ b a, f a b) b l.

(** Its effect on the transaction: [widen_guard], which records nothing for a
    statement that writes no table, and the tables its row mutations mark. *)
Definition record_stmt (s : Stmt) (w : Written) : Written :=
  if bool_decide (st_tables s = []) then w
  else
    let w := record_written_key (st_key s) w in
    let w := match st_cols s with
             | None => record_written_col None w
             | Some cols => each (λ c, record_written_col (Some c)) cols w
             end in
    let w := record_written_range (st_range s) w in
    let w := match st_delta s with Some d => record_written_delta d w | None => w end in
    let w := record_written_shard (st_shard s) w in
    each record_written_table (st_tables s) w.

(** Its effect on the guard. *)
Definition guard_stmt (s : Stmt) (g : Guard) : Guard :=
  let g := each guard_widen (st_read s) g in
  let g := each guard_widen (st_tables s) g in
  let g := guard_touch_key (st_key s) g in
  let g := match st_cols s with
           | None => guard_touch_col None g
           | Some cols => each (λ c, guard_touch_col (Some c)) cols g
           end in
  let g := guard_touch_range (st_range s) g in
  guard_shard (st_shard s) g.
