(* ===== verification/OptimisticSound.v ===== *)
(** The footprint ring never misses a conflict: what a commit publishes covers
    everything it changed, and a guard that is let through used nothing that
    changed since its snapshot. *)

From S2P Require Import Prelude Optimistic.
Local Open Scope Z_scope.

(** * Bits *)

Lemma meets_shared a b i : 0 ≤ i → Z.testbit a i = true → Z.testbit b i = true → meets a b = true.
Proof.
  intros Hi Ha Hb. unfold meets. apply negb_true_iff, Z.eqb_neq. intros H0.
  assert (Z.testbit (Z.land a b) i = true) as H by by rewrite Z.land_spec, Ha, Hb. by rewrite H0, Z.bits_0 in H.
Qed.

Lemma land63 x : Z.land x 63 = x mod 64.
Proof. change 63 with (Z.ones 6). by rewrite Z.land_ones by lia. Qed.

Lemma fold_bit_own x : Z.testbit (fold_bit x) (x mod 64) = true.
Proof. unfold fold_bit. rewrite land63, Z.shiftl_1_l. apply Z.pow2_bits_true. apply Z.mod_pos_bound. lia. Qed.

Lemma region_bit_own h : Z.testbit (region_bit h) (h mod 64) = true.
Proof. unfold region_bit. rewrite Z.shiftl_1_l. apply Z.pow2_bits_true. apply Z.mod_pos_bound. lia. Qed.

Lemma any_bit i : 0 ≤ i < 64 → Z.testbit (2 ^ 64 - 1) i = true.
Proof. intros Hi. change (2 ^ 64 - 1) with (Z.ones 64). apply Z.ones_spec_low. lia. Qed.

Lemma mod64 x : 0 ≤ x mod 64 < 64.
Proof. apply Z.mod_pos_bound. lia. Qed.

(** * Loads and stores *)

Definition ring_ok (r : Ring) : Prop := length r = 256%nat ∧ Forall (λ e, length e = 16%nat) r.

Lemma fresh_ring_ok : ring_ok fresh_ring.
Proof. split; [done|]. apply Forall_replicate. done. Qed.

Lemma opt_slot_lt t : (opt_slot t < 256)%nat.
Proof. unfold opt_slot, OPT_RING_SLOTS. pose proof (Z.mod_pos_bound t 256 ltac:(lia)). lia. Qed.

Lemma ring_store_ok r t f v : ring_ok r → ring_ok (store t f v r).
Proof.
  intros [Hl Hf]. split; [by unfold store; rewrite length_alter|]. unfold store. apply Forall_alter; [done|].
  intros e He Hlen. by rewrite length_insert.
Qed.

Lemma load_store_eq r t f v : ring_ok r → (word f < 16)%nat → load (store t f v r) t f = v.
Proof.
  intros [Hl Hf] Hw. unfold load, store. rewrite list_lookup_alter, decide_True by done.
  destruct (lookup_lt_is_Some_2 r (opt_slot t)) as [e He]; [rewrite Hl; apply opt_slot_lt|]. rewrite He. cbn [fmap option_fmap option_map mbind option_bind].
  rewrite list_lookup_insert_eq; [done|]. by rewrite (Forall_lookup_1 _ _ _ _ Hf He).
Qed.

Lemma load_store_field r t f g v : word f ≠ word g → load (store t f v r) t g = load r t g.
Proof.
  intros Hne. unfold load, store. rewrite list_lookup_alter, decide_True by done. destruct (r !! opt_slot t); [|done]. cbn [fmap option_fmap option_map mbind option_bind].
  by rewrite list_lookup_insert_ne.
Qed.

Lemma load_store_slot r t t' f g v : opt_slot t ≠ opt_slot t' → load (store t f v r) t' g = load r t' g.
Proof. intros Hne. unfold load, store. by rewrite list_lookup_alter_ne. Qed.

Lemma load_same_slot r t t' f : opt_slot t = opt_slot t' → load r t f = load r t' f.
Proof. intros He. unfold load. by rewrite He. Qed.

Lemma store_keys_ok t keys : ∀ i r, ring_ok r → ring_ok (store_keys t i keys r).
Proof. induction keys as [|h keys IH]; intros i r Hr; [done|]. cbn. by apply IH, ring_store_ok. Qed.

Lemma store_keys_slot t t' keys f : opt_slot t ≠ opt_slot t' → ∀ i r, load (store_keys t i keys r) t' f = load r t' f.
Proof. intros Hne. induction keys as [|h keys IH]; intros i r; [done|]. cbn. by rewrite IH, load_store_slot. Qed.

Lemma word_key i : word (OFP_KEYS + i * 8) = (6 + i)%nat.
Proof. unfold word, OFP_KEYS. replace (48 + i * 8)%nat with ((6 + i) * 8)%nat by lia. apply Nat.div_mul. lia. Qed.

Lemma store_keys_field t keys g : ∀ i r, (word g < 6 + i ∨ 6 + i + length keys ≤ word g)%nat →
  load (store_keys t i keys r) t g = load r t g.
Proof.
  induction keys as [|h keys IH]; intros i r Hg; [done|]. cbn [store_keys length] in *. rewrite IH by lia.
  apply load_store_field. rewrite word_key. lia.
Qed.

Lemma store_keys_at t keys j h : keys !! j = Some h → ∀ i r, ring_ok r → (i + length keys ≤ 8)%nat →
  load (store_keys t i keys r) t (OFP_KEYS + (i + j) * 8) = h.
Proof.
  revert j. induction keys as [|k keys IH]; intros j Hj i r Hr Hl; [done|]. cbn in Hl. cbn [store_keys].
  destruct j as [|j].
  - injection Hj as ->. rewrite Nat.add_0_r, store_keys_field by (rewrite word_key; lia).
    apply load_store_eq; [done|]. rewrite word_key. lia.
  - replace (i + S j)%nat with (S i + j)%nat by lia. apply IH; [done|by apply ring_store_ok|lia].
Qed.

(** * An entry *)

(** The exact keys as they are read back. *)
Definition padded_keys (keys : option (list Z)) : option (list Z) :=
  let n := exact_count keys in
  if bool_decide (n = 0%nat) then None else Some (default [] keys ++ replicate (OFP_MAX_KEYS - n) 0).

Record slot_holds (r : Ring) (t : Z) (fp : CommitFootprint) : Prop := {
  sh_kind : load r t OFP_KIND = fp_kind fp;
  sh_tbits : load r t OFP_TBITS = table_bits fp;
  sh_khash : load r t OFP_KHASH = fp_key_hash fp;
  sh_cols : load r t OFP_COLS = fp_cols fp;
  sh_range : load r t OFP_RANGE = fp_range fp;
  sh_delta : load r t OFP_DELTA = to_uint 64 (fp_delta fp);
  sh_keys : opt_keys r t = padded_keys (fp_keys fp);
}.

Lemma exact_count_spec keys : exact_count keys = 0%nat ∨
  ∃ ks, keys = Some ks ∧ exact_count keys = length ks ∧ (1 ≤ length ks ≤ 8)%nat.
Proof.
  destruct keys as [ks|]; [|by left]. cbn. case_bool_decide as Hk; [by left|]. cbn [negb andb].
  case_bool_decide as Hl; [|by left]. right. exists ks. split_and!; [done|done| |exact Hl].
  destruct ks; [done|cbn; lia].
Qed.

Ltac field_ne := unfold word, OFP_TXN, OFP_KIND, OFP_TBITS, OFP_KHASH, OFP_COLS, OFP_NKEYS, OFP_RANGE, OFP_DELTA; cbn; lia.
Ltac loads := repeat first [rewrite load_store_eq; [|by repeat apply ring_store_ok || apply store_keys_ok|field_ne]
  | rewrite load_store_field by field_ne].

Section Record_entry.
Context (r : Ring) (t : Z) (fp : CommitFootprint) (Hr : ring_ok r).

Lemma opt_record_ok : ring_ok (opt_record t fp r).
Proof. unfold opt_record. by repeat (apply ring_store_ok || apply store_keys_ok). Qed.

Lemma exact_take : (length (take (exact_count (fp_keys fp)) (default [] (fp_keys fp))) ≤ 8)%nat.
Proof. destruct (exact_count_spec (fp_keys fp)) as [->|(ks&->&->&Hl)]; [rewrite take_0; apply Nat.le_0_l|]. rewrite length_take. lia. Qed.

(** A header word that [opt_record] stores. *)
Lemma opt_record_txn : load (opt_record t fp r) t OFP_TXN = t.
Proof. unfold opt_record. apply load_store_eq; [by repeat (apply ring_store_ok || apply store_keys_ok)|field_ne]. Qed.

Lemma opt_record_slot t' f : opt_slot t ≠ opt_slot t' → load (opt_record t fp r) t' f = load r t' f.
Proof.
  intros Hne. unfold opt_record. rewrite !load_store_slot by done. rewrite store_keys_slot by done. by rewrite !load_store_slot.
Qed.

Lemma opt_record_keys : opt_keys (opt_record t fp r) t = padded_keys (fp_keys fp).
Proof.
  unfold opt_keys, opt_record. set (r4 := store t OFP_KHASH _ _). set (n := exact_count (fp_keys fp)).
  assert (ring_ok r4) as Hr4 by by repeat apply ring_store_ok.
  assert (∀ i, (i < n)%nat → load (store t OFP_TXN t (store t OFP_DELTA (to_uint 64 (fp_delta fp)) (store t OFP_RANGE (fp_range fp)
    (store t OFP_NKEYS (Z.of_nat n) (store_keys t 0 (take n (default [] (fp_keys fp))) r4))))) t (OFP_KEYS + i * 8) =
    load (store_keys t 0 (take n (default [] (fp_keys fp))) r4) t (OFP_KEYS + i * 8)) as Hload.
  { intros i Hi. assert (n ≤ 8)%nat by (unfold n; destruct (exact_count_spec (fp_keys fp)) as [->|(?&_&->&?)]; lia).
    rewrite !load_store_field; [done|rewrite word_key; field_ne..]. }
  rewrite load_store_field, load_store_field, load_store_field, load_store_eq;
    [|by apply store_keys_ok|field_ne..].
  unfold padded_keys. fold n. pose proof (exact_count_spec (fp_keys fp)) as He. fold n in He.
  destruct He as [H0|(ks&Hks&Hn&Hl)].
  { rewrite bool_decide_true by done. by rewrite H0. }
  rewrite (proj2 (Z.eqb_neq _ _)), (proj2 (Z.ltb_ge _ _)) by (unfold OFP_MAX_KEYS; lia). cbn [orb].
  rewrite bool_decide_false by lia.
  rewrite Hks in Hload |- *. cbn [default from_option id] in Hload |- *. f_equal. apply list_eq. intros i. rewrite list_lookup_fmap.
  destruct (decide (i < 8)%nat) as [Hi|Hi].
  - rewrite lookup_seq_lt by done. cbn [fmap option_fmap option_map]. rewrite Nat2Z.id, Nat.add_0_l.
    destruct (decide (i < length ks)%nat) as [Hik|Hik].
    + rewrite bool_decide_true, lookup_app_l by lia. rewrite Hload by lia.
      rewrite take_ge by lia. destruct (lookup_lt_is_Some_2 ks i Hik) as [h Hh]. rewrite Hh. f_equal.
      apply (store_keys_at t ks i h Hh 0 r4); [done|lia].
    + rewrite bool_decide_false, lookup_app_r by lia. unfold OFP_MAX_KEYS. by rewrite lookup_replicate_2 by lia.
  - rewrite lookup_seq_ge by (unfold OFP_MAX_KEYS; lia). cbn. symmetry. apply lookup_ge_None_2.
    rewrite length_app, length_replicate. unfold OFP_MAX_KEYS. lia.
Qed.

Lemma opt_record_holds : slot_holds (opt_record t fp r) t fp.
Proof.
  pose proof exact_take as Hk.
  assert (∀ f, (word f < 6)%nat → ∀ r', load (store_keys t 0 (take (exact_count (fp_keys fp)) (default [] (fp_keys fp))) r') t f = load r' t f) as Hks.
  { intros f Hf r'. apply store_keys_field. lia. }
  split; [..|apply opt_record_keys]; unfold opt_record.
  - rewrite !load_store_field by field_ne. rewrite Hks by field_ne. rewrite !load_store_field by field_ne.
    apply load_store_eq; [by repeat apply ring_store_ok|field_ne].
  - rewrite !load_store_field by field_ne. rewrite Hks by field_ne. rewrite !load_store_field by field_ne.
    apply load_store_eq; [by repeat apply ring_store_ok|field_ne].
  - rewrite !load_store_field by field_ne. rewrite Hks by field_ne. apply load_store_eq; [by repeat apply ring_store_ok|field_ne].
  - rewrite !load_store_field by field_ne. rewrite Hks by field_ne. rewrite !load_store_field by field_ne.
    apply load_store_eq; [done|field_ne].
  - rewrite !load_store_field by field_ne. apply load_store_eq; [by repeat (apply ring_store_ok || apply store_keys_ok)|field_ne].
  - rewrite !load_store_field by field_ne. apply load_store_eq; [by repeat (apply ring_store_ok || apply store_keys_ok)|field_ne].
Qed.
End Record_entry.

(** * What commits change and actions use *)

(** A cell by its table, the hash of its key and its column; a change leaves
    the bytes below [ch_from] as they were, a use depends only on those below
    [u_upto], if that is known. *)
Record Change := MkChange { ch_table : Z; ch_key : Z; ch_col : Z; ch_from : Z }.
Record Use := MkUse { u_table : Z; u_key : Z; u_col : Z; u_upto : option Z }.

Definition conflict (c : Change) (u : Use) : Prop :=
  ch_table c = u_table u ∧ ch_key c = u_key u ∧ ch_col c = u_col u ∧
  match u_upto u with Some hi => ch_from c < hi | None => True end.

Definition is_u32 (z : Z) : Prop := 0 ≤ z ≤ U32_LIMIT.
Definition range_u32 (g : option (Z * Z)) : Prop :=
  match g with Some (lo, hi) => is_u32 lo ∧ is_u32 hi | None => True end.

Section Sound.
(** A row belongs to one shard. *)
Context (shard_of : Z → Z → Z).

(** The row and column a statement names. *)
Definition names (s : Stmt) (table key col : Z) : Prop :=
  (∀ h, st_key s = Some h → key = h) ∧
  (∀ cols, st_cols s = Some cols → ∃ x, x ∈ cols ∧ x mod 64 = col mod 64) ∧
  (∀ sh, st_shard s = Some sh → shard_of table key = sh).

Definition describes (s : Stmt) (c : Change) : Prop :=
  ch_table c ∈ st_tables s ∧ names s (ch_table c) (ch_key c) (ch_col c) ∧ range_u32 (st_range s) ∧
  ∀ lo hi, st_range s = Some (lo, hi) → lo ≤ ch_from c.

Definition uses (s : Stmt) (u : Use) : Prop :=
  u_table u ∈ st_read s ++ st_tables s ∧ names s (u_table u) (u_key u) (u_col u) ∧ range_u32 (st_range s) ∧
  ∀ lo hi, st_range s = Some (lo, hi) → ∃ up, u_upto u = Some up ∧ up ≤ hi.

(** ** One dimension at a time *)

Definition has (m x : Z) : Prop := Z.testbit m (x mod 64) = true.

Lemma has_lor_l a b x : has a x → has (Z.lor a b) x.
Proof. unfold has. intros H. by rewrite Z.lor_spec, H. Qed.
Lemma has_lor_r a b x : has b x → has (Z.lor a b) x.
Proof. unfold has. intros H. by rewrite Z.lor_spec, H, orb_true_r. Qed.
Lemma has_fold x : has (fold_bit x) x.
Proof. apply fold_bit_own. Qed.
Lemma has_any x : has (2 ^ 64 - 1) x.
Proof. apply any_bit, mod64. Qed.
Lemma has_region x : has (region_bit x) x.
Proof. apply region_bit_own. Qed.
Lemma has_mod a x y : x mod 64 = y mod 64 → has a x → has a y.
Proof. unfold has. by intros ->. Qed.
Lemma has_nonzero a x : has a x → a ≠ 0.
Proof. unfold has. intros H ->. by rewrite Z.bits_0 in H. Qed.
Lemma has_meets a b x : has a x → has b x → meets a b = true.
Proof. apply meets_shared. apply mod64. Qed.
Lemma has_widened a x : has a x → has (if a =? 0 then 2 ^ 64 - 1 else a) x.
Proof. intros H. by rewrite (proj2 (Z.eqb_neq _ _) (has_nonzero _ _ H)). Qed.

Definition or_fold (l : list Z) (m : Z) : Z := each (λ t m, Z.lor m (fold_bit t)) l m.

Lemma or_fold_mono l : ∀ m x, has m x → has (or_fold l m) x.
Proof. induction l as [|t l IH]; intros m x H; [done|]. by apply IH, has_lor_l. Qed.
Lemma or_fold_own l x y : y ∈ l → y mod 64 = x mod 64 → ∀ m, has (or_fold l m) x.
Proof.
  intros Hy Hm. induction Hy as [y l|y t l _ IH]; intros m; unfold or_fold, each; cbn [foldl].
  - apply or_fold_mono, has_lor_r, (has_mod _ y); [done|apply has_fold].
  - by apply IH.
Qed.

Definition key_in (keys : option (list Z)) (k : Z) : Prop := match keys with Some ks => k ∈ ks | None => True end.

Lemma contains_spec l x : contains l x = true ↔ x ∈ l.
Proof.
  unfold contains. rewrite existsb_exists. split.
  - intros (y&Hy&->%Z.eqb_eq). by apply list_elem_of_In.
  - intros Hx. exists x. rewrite Z.eqb_refl. split; [by apply list_elem_of_In|done].
Qed.

Lemma add_key_mono h keys k : key_in keys k → key_in (add_key h keys) k.
Proof.
  destruct h as [h|], keys as [ks|]; try done. cbn. intros Hk. destruct (contains ks h); [done|].
  case_bool_decide; [done|]. apply elem_of_app. by left.
Qed.
Lemma add_key_own key keys k : (∀ h, key = Some h → k = h) → key_in (add_key key keys) k.
Proof.
  destruct key as [h|], keys as [ks|]; try done. cbn. intros Hk. rewrite (Hk h eq_refl).
  destruct (contains ks h) eqn:Hc; [by apply contains_spec|]. case_bool_decide; [done|].
  apply elem_of_app. right. by apply list_elem_of_singleton.
Qed.

Definition in_shard (seen : bool) (sh : option Z) (x : Z) : Prop := seen = true ∧ ∀ s, sh = Some s → x = s.

Lemma join_shard_mono seen have new x : in_shard seen have x → in_shard true (join_shard seen have new) x.
Proof. intros [-> Hs]. split; [done|]. cbn. case_bool_decide; [done|]. done. Qed.
Lemma join_shard_own seen have new x : (∀ s, new = Some s → x = s) → in_shard true (join_shard seen have new) x.
Proof. intros Hx. split; [done|]. unfold join_shard. destruct seen; cbn; [|done]. case_bool_decide as He; [by rewrite He|done]. Qed.

Lemma join_range_u32 a b : range_u32 a → range_u32 b → range_u32 (join_range a b).
Proof. destruct a as [[? ?]|], b as [[? ?]|]; try done. unfold range_u32, is_u32. cbn. lia. Qed.

Lemma key_region_own key k : (∀ h, key = Some h → k = h) → has (key_region key) k.
Proof. destruct key as [h|]; cbn; intros Hk; [rewrite (Hk h eq_refl); apply has_region|apply has_any]. Qed.

(** ** The fields after a statement *)

Lemma each_same {A B C} (f : A → B → B) (p : B → C) l : (∀ a b, p (f a b) = p b) → ∀ b, p (each f l b) = p b.
Proof. intros H. unfold each. induction l as [|a l IH]; intros b; [done|]. cbn. by rewrite IH, H. Qed.
Lemma each_field {A B C} (f : A → B → B) (p : B → C) (g : A → C → C) l :
  (∀ a b, p (f a b) = g a (p b)) → ∀ b, p (each f l b) = each g l (p b).
Proof. intros H. unfold each. induction l as [|a l IH]; intros b; [done|]. cbn. by rewrite IH, H. Qed.

Definition or_cols (cols : option (list Z)) (m : Z) : Z :=
  match cols with None => Z.lor m COLS_ANY | Some l => or_fold l m end.

Lemma or_cols_mono cols m x : has m x → has (or_cols cols m) x.
Proof. destruct cols; [apply or_fold_mono|apply has_lor_l]. Qed.
Lemma or_cols_own cols m x : (∀ l, cols = Some l → ∃ y, y ∈ l ∧ y mod 64 = x mod 64) → has (or_cols cols m) x.
Proof.
  destruct cols as [l|]; cbn; intros H; [|apply has_lor_r, has_any].
  destruct (H l eq_refl) as (y&Hy&Hm). by apply (or_fold_own l x y).
Qed.

Ltac same P := repeat (rewrite (each_same _ P) by (by intros ? [])).
Ltac stmt_field P :=
  same P; repeat case_match; cbn [P record_written_table record_written_key record_written_col record_written_range
    record_written_delta record_written_shard]; same P; try done.

Lemma record_stmt_read s w : st_tables s = [] → record_stmt s w = w.
Proof. intros H. unfold record_stmt. by rewrite bool_decide_true. Qed.

Lemma record_stmt_fields s w : st_tables s ≠ [] →
  written_tables (record_stmt s w) = or_fold (st_tables s) (written_tables w) ∧
  written_regions (record_stmt s w) = Z.lor (written_regions w) (key_region (st_key s)) ∧
  written_keys (record_stmt s w) = add_key (st_key s) (written_keys w) ∧
  written_cols (record_stmt s w) = or_cols (st_cols s) (written_cols w) ∧
  written_range (record_stmt s w) = join_range (written_range w) (st_range s) ∧
  written_shard (record_stmt s w) = join_shard (written_shard_seen w) (written_shard w) (st_shard s) ∧
  written_shard_seen (record_stmt s w) = true ∧
  commit_point (record_stmt s w) = commit_point w.
Proof.
  intros Hne. unfold record_stmt. rewrite bool_decide_false by done. split_and!.
  - rewrite (each_field _ written_tables (λ t m, Z.lor m (fold_bit t))) by (by intros ? []). unfold or_fold. f_equal.
    stmt_field written_tables.
  - stmt_field written_regions.
  - stmt_field written_keys.
  - same written_cols. unfold or_cols, or_fold. destruct (st_cols s), (st_delta s); cbn; try done;
      by rewrite (each_field _ written_cols (λ t m, Z.lor m (fold_bit t))) by (by intros ? []).
  - stmt_field written_range.
  - same written_shard. repeat case_match; cbn; same written_shard; same written_shard_seen; done.
  - stmt_field written_shard_seen.
  - stmt_field commit_point.
Qed.

(** ** What a transaction has recorded covers what it changed *)

Record covers (w : Written) (c : Change) : Prop := {
  cv_tables : has (written_tables w) (ch_table c);
  cv_regions : has (written_regions w) (ch_key c);
  cv_keys : key_in (written_keys w) (ch_key c);
  cv_cols : has (written_cols w) (ch_col c);
  cv_range lo hi : written_range w = Some (lo, hi) → lo ≤ ch_from c;
  cv_shard : in_shard (written_shard_seen w) (written_shard w) (shard_of (ch_table c) (ch_key c));
}.

Lemma record_stmt_mono s w c : covers w c → covers (record_stmt s w) c.
Proof.
  destruct (decide (st_tables s = [])) as [H0|Hne]; [by rewrite record_stmt_read|].
  intros [H1 H2 H3 H4 H5 H6]. destruct (record_stmt_fields s w Hne) as (E1&E2&E3&E4&E5&E6&E7&_).
  split; rewrite ?E1, ?E2, ?E3, ?E4, ?E6, ?E7.
  - by apply or_fold_mono.
  - by apply has_lor_l.
  - by apply add_key_mono.
  - by apply or_cols_mono.
  - rewrite E5. intros lo hi. destruct (written_range w) as [[a b]|] eqn:Hw, (st_range s) as [[x y]|]; try done.
    cbn. intros [= <- <-]. specialize (H5 a b eq_refl). lia.
  - by apply join_shard_mono.
Qed.

Lemma record_stmt_own s w c : describes s c → covers (record_stmt s w) c.
Proof.
  intros (Ht&(Hk&Hc&Hs)&_&Hr). assert (st_tables s ≠ []) as Hne by (intros E; rewrite E in Ht; by apply not_elem_of_nil in Ht).
  destruct (record_stmt_fields s w Hne) as (E1&E2&E3&E4&E5&E6&E7&_).
  split; rewrite ?E1, ?E2, ?E3, ?E4, ?E6, ?E7.
  - by eapply or_fold_own.
  - by apply has_lor_r, key_region_own.
  - by apply add_key_own.
  - by apply or_cols_own.
  - rewrite E5. intros lo hi. destruct (written_range w) as [[a b]|], (st_range s) as [[x y]|]; try done.
    cbn. intros [= <- <-]. specialize (Hr x y eq_refl). lia.
  - by apply join_shard_own.
Qed.

(** ** Commits *)

(** A session's transaction runs statements; the blind path applies one row
    under its key; anything else marks the tables it wrote and names nothing. *)
Inductive Commit :=
| Session (stmts : list (Stmt * list Change))
| Blind (table key : Z) (changes : list Change)
| Plain (tables : list Z) (changes : list Change).

Definition cm_changes (m : Commit) : list Change :=
  match m with Session l => l ≫= snd | Blind _ _ cs => cs | Plain _ cs => cs end.

Definition cm_written (m : Commit) : Written :=
  match m with
  | Session l => each (λ s, record_stmt s.1) l no_writes
  | Blind t k _ => set_commit_point t k (record_written_table t no_writes)
  | Plain ts _ => each record_written_table ts no_writes
  end.

Definition cm_ok (m : Commit) : Prop :=
  match m with
  | Session l => Forall (λ s, range_u32 (st_range s.1) ∧ Forall (describes s.1) s.2) l
  | Blind t k cs => Forall (λ c, ch_table c = t ∧ ch_key c = k) cs
  | Plain ts cs => Forall (λ c, ch_table c ∈ ts) cs
  end.

Lemma session_covers l : Forall (λ s, range_u32 (st_range s.1) ∧ Forall (describes s.1) s.2) l → ∀ w,
  (∀ c, c ∈ l ≫= snd → covers (each (λ s, record_stmt s.1) l w) c) ∧
  (∀ c, covers w c → covers (each (λ s, record_stmt s.1) l w) c) ∧
  (range_u32 (written_range w) → range_u32 (written_range (each (λ s, record_stmt s.1) l w))) ∧
  commit_point (each (λ s, record_stmt s.1) l w) = commit_point w.
Proof.
  induction 1 as [|[s cs] l [Hu Hs] _ IH]; intros w.
  { split_and!; [by intros c ?%not_elem_of_nil|done..]. }
  change (each (λ s, record_stmt s.1) ((s, cs) :: l) w) with (each (λ s, record_stmt s.1) l (record_stmt s w)).
  destruct (IH (record_stmt s w)) as (I1&I2&I3&I4).
  assert (range_u32 (written_range w) → range_u32 (written_range (record_stmt s w))) as E5.
  { destruct (decide (st_tables s = [])) as [H0|Hne]; [by rewrite record_stmt_read|].
    destruct (record_stmt_fields s w Hne) as (_&_&_&_&->&_). intros Hw. by apply join_range_u32. }
  assert (commit_point (record_stmt s w) = commit_point w) as E8.
  { destruct (decide (st_tables s = [])) as [H0|Hne]; [by rewrite record_stmt_read|]. by apply record_stmt_fields. }
  split_and!.
  - intros c. cbn [mbind list_bind snd]. intros [Hc|Hc]%elem_of_app; [|by apply I1].
    apply I2, record_stmt_own. by eapply Forall_forall in Hs.
  - intros c Hc. by apply I2, record_stmt_mono.
  - intros Hw. by apply I3, E5.
  - by rewrite I4, E8.
Qed.

(** ** The footprint covers the changes *)

Record fp_covers (fp : CommitFootprint) (c : Change) : Prop := {
  fc_kind : fp_kind fp = OFP_KIND_POINT ∧ fp_key_hash fp = ch_key c ∨
            fp_kind fp = OFP_KIND_REGION ∧ has (fp_key_hash fp) (ch_key c) ∨
            fp_kind fp = OFP_KIND_SHARD ∧ fp_key_hash fp = shard_of (ch_table c) (ch_key c);
  fc_tables : has (table_bits fp) (ch_table c);
  fc_keys : key_in (padded_keys (fp_keys fp)) (ch_key c);
  fc_cols : has (fp_cols fp) (ch_col c);
  fc_range : fp_range fp = RANGE_ANY ∨ Z.shiftr (fp_range fp) 32 ≤ ch_from c;
}.

Lemma pack_range_lo lo hi : 0 ≤ lo → 0 ≤ hi → pack_range lo hi ≠ RANGE_ANY → Z.shiftr (pack_range lo hi) 32 = lo.
Proof.
  intros Hlo Hhi. unfold pack_range. destruct (Z.leb_spec lo U32_LIMIT), (Z.leb_spec hi U32_LIMIT), (Z.leb_spec lo hi); try done.
  intros _. cbn [andb]. rewrite Z.shiftr_lor, Z.shiftr_shiftl_l by lia. rewrite (Z.shiftr_div_pow2 hi) by lia.
  rewrite (Z.div_small hi) by (unfold U32_LIMIT in *; lia). rewrite Z.lor_0_r. apply Z.shiftl_0_r.
Qed.

Lemma padded_keys_in keys k : key_in keys k → key_in (padded_keys (nonempty_keys keys)) k.
Proof.
  intros Hk. unfold padded_keys. case_bool_decide as H0; [done|].
  destruct (exact_count_spec (nonempty_keys keys)) as [?|(ks&He&_)]; [done|]. rewrite He. cbn.
  apply elem_of_app. left. destruct keys as [ks'|]; [|done]. cbn in He, Hk. case_bool_decide; [done|]. by injection He as <-.
Qed.

Lemma written_footprint w c : covers w c → commit_point w = None → range_u32 (written_range w) → fp_covers (commit_footprint w) c.
Proof.
  intros [H1 H2 H3 H4 H5 [H6 H7]] Hp Hu. unfold commit_footprint. rewrite Hp.
  rewrite (proj2 (Z.eqb_neq _ _) (has_nonzero _ _ H1)).
  destruct (written_shard w) as [sh|]; (split; cbn [fp_kind fp_key_hash table_bits fp_cols fp_keys fp_range]; [|done|by apply padded_keys_in|by apply has_widened|]).
  1: right; right; split; [done|]; symmetry; by apply H7.
  2: right; left; split; [done|]; by apply has_widened.
  all: destruct (written_range w) as [[lo hi]|]; [|by left]; unfold named_range; destruct (Z.leb_spec lo hi); [|by left];
    destruct (decide (pack_range lo hi = RANGE_ANY)); [by left|right];
    unfold range_u32, is_u32 in Hu; rewrite pack_range_lo by (done || lia); by eapply H5.
Qed.

Lemma commit_covers m c : cm_ok m → c ∈ cm_changes m → fp_covers (commit_footprint (cm_written m)) c.
Proof.
  destruct m as [l|t k cs|ts cs]; cbn [cm_ok cm_changes cm_written]; intros Hok Hc.
  - destruct (session_covers l Hok no_writes) as (H1&_&H3&H4).
    apply written_footprint; [by apply H1|by rewrite H4|]. apply H3. cbn. unfold is_u32, U32_LIMIT. lia.
  - eapply Forall_forall in Hok as [<- <-]; [|done]. split; cbn.
    + left. done.
    + apply has_fold.
    + done.
    + apply has_any.
    + by left.
  - eapply Forall_forall in Hok; [|done].
    assert (has (written_tables (each record_written_table ts no_writes)) (ch_table c)) as Ht.
    { rewrite (each_field _ written_tables (λ t m, Z.lor m (fold_bit t))) by (by intros ? []). by eapply or_fold_own. }
    unfold commit_footprint. same commit_point. same written_shard. same written_regions. same written_cols.
    same written_keys. same written_range. cbn [commit_point no_writes].
    rewrite (proj2 (Z.eqb_neq _ _) (has_nonzero _ _ Ht)). split; cbn [fp_kind fp_key_hash table_bits fp_cols fp_keys fp_range].
    + right. left. split; [done|]. apply has_any.
    + done.
    + done.
    + apply has_any.
    + by left.
Qed.

(** ** What a guard has accumulated covers what the action used *)

Lemma guard_stmt_fields s g :
  surface (guard_stmt s g) = or_fold (st_tables s) (or_fold (st_read s) (surface g)) ∧
  g_regions (guard_stmt s g) = Z.lor (g_regions g) (key_region (st_key s)) ∧
  g_keys (guard_stmt s g) = add_key (st_key s) (g_keys g) ∧
  g_cols (guard_stmt s g) = or_cols (st_cols s) (g_cols g) ∧
  g_range (guard_stmt s g) = join_range (g_range g) (st_range s) ∧
  g_shard (guard_stmt s g) = join_shard (shard_seen g) (g_shard g) (st_shard s) ∧
  shard_seen (guard_stmt s g) = true ∧ rebased (guard_stmt s g) = rebased g ∧ snap_txn (guard_stmt s g) = snap_txn g.
Proof.
  unfold guard_stmt. split_and!.
  - assert (∀ l g, surface (each guard_widen l g) = or_fold l (surface g)) as Hw.
    { intros l g'. by rewrite (each_field _ surface (λ t m, Z.lor m (fold_bit t))) by (by intros ? []). }
    destruct (st_cols s); cbn; same surface; cbn; by rewrite !Hw.
  - destruct (st_cols s); cbn; same g_regions; cbn; by same g_regions.
  - destruct (st_cols s); cbn; same g_keys; cbn; by same g_keys.
  - unfold or_cols, or_fold. destruct (st_cols s); cbn.
    + rewrite (each_field _ g_cols (λ t m, Z.lor m (fold_bit t))) by (by intros ? []). cbn. by same g_cols.
    + by same g_cols.
  - destruct (st_cols s); cbn; same g_range; cbn; by same g_range.
  - destruct (st_cols s); cbn; same g_shard; same shard_seen; cbn; same g_shard; by same shard_seen.
  - done.
  - destruct (st_cols s); cbn; same rebased; cbn; by same rebased.
  - destruct (st_cols s); cbn; same snap_txn; cbn; by same snap_txn.
Qed.

Record guards (g : Guard) (u : Use) : Prop := {
  gd_tables : has (surface g) (u_table u);
  gd_regions : has (g_regions g) (u_key u);
  gd_keys : key_in (g_keys g) (u_key u);
  gd_cols : has (g_cols g) (u_col u);
  gd_range lo hi : g_range g = Some (lo, hi) → ∃ up, u_upto u = Some up ∧ up ≤ hi;
  gd_shard : in_shard (shard_seen g) (g_shard g) (shard_of (u_table u) (u_key u));
}.

Lemma guard_stmt_mono s g u : guards g u → guards (guard_stmt s g) u.
Proof.
  intros [H1 H2 H3 H4 H5 H6]. destruct (guard_stmt_fields s g) as (E1&E2&E3&E4&E5&E6&E7&_).
  split; rewrite ?E1, ?E2, ?E3, ?E4, ?E6, ?E7.
  - by apply or_fold_mono, or_fold_mono.
  - by apply has_lor_l.
  - by apply add_key_mono.
  - by apply or_cols_mono.
  - rewrite E5. intros lo hi. destruct (g_range g) as [[a b]|] eqn:Hg, (st_range s) as [[x y]|]; try done.
    cbn. intros [= <- <-]. destruct (H5 a b eq_refl) as (up&->&?). exists up. split; [done|lia].
  - by apply join_shard_mono.
Qed.

Lemma guard_stmt_own s g u : uses s u → guards (guard_stmt s g) u.
Proof.
  intros (Ht&(Hk&Hc&Hs)&_&Hr). destruct (guard_stmt_fields s g) as (E1&E2&E3&E4&E5&E6&E7&_).
  split; rewrite ?E1, ?E2, ?E3, ?E4, ?E6, ?E7.
  - apply elem_of_app in Ht as [Ht|Ht]; [by eapply or_fold_mono, or_fold_own|by eapply or_fold_own].
  - by apply has_lor_r, key_region_own.
  - by apply add_key_own.
  - by apply or_cols_own.
  - rewrite E5. intros lo hi. destruct (g_range g) as [[a b]|], (st_range s) as [[x y]|]; try done.
    cbn. intros [= <- <-]. destruct (Hr x y eq_refl) as (up&->&?). exists up. split; [done|lia].
  - by apply join_shard_own.
Qed.

(** The guard of an action that ran [stmts] against [snap]. *)
Definition action_guard (snap : Z) (stmts : list Stmt) : Guard := each guard_stmt stmts (new_guard snap).

Lemma action_guard_covers stmts : ∀ g,
  (∀ s u, s ∈ stmts → uses s u → guards (each guard_stmt stmts g) u) ∧
  (∀ u, guards g u → guards (each guard_stmt stmts g) u) ∧
  rebased (each guard_stmt stmts g) = rebased g ∧ snap_txn (each guard_stmt stmts g) = snap_txn g.
Proof.
  induction stmts as [|s stmts IH]; intros g.
  { split_and!; [by intros s u ?%not_elem_of_nil|done..]. }
  change (each guard_stmt (s :: stmts) g) with (each guard_stmt stmts (guard_stmt s g)).
  destruct (IH (guard_stmt s g)) as (I1&I2&I3&I4). destruct (guard_stmt_fields s g) as (_&_&_&_&_&_&_&E8&E9). split_and!.
  - intros s' u Hs Hu. apply elem_of_cons in Hs as [->|Hs]; [by apply I2, guard_stmt_own|by apply (I1 s')].
  - intros u Hu. by apply I2, guard_stmt_mono.
  - by rewrite I3, E8.
  - by rewrite I4, E9.
Qed.

(** ** The check *)

Lemma key_in_nonempty keys k : key_in keys k → key_in (nonempty_keys keys) k.
Proof. destruct keys as [ks|]; [|done]. cbn. by case_bool_decide. Qed.

Lemma key_overlap_sound r t fp c g u : slot_holds r t fp → fp_covers fp c → guards g u →
  ch_table c = u_table u → ch_key c = u_key u → key_overlap r (guard_surface g) (fp_kind fp) t = true.
Proof.
  intros Hs [Hk Ht Hks Hcols Hr] [G1 G2 G3 G4 G5 [G6 G7]] E1 E2. unfold key_overlap. rewrite (sh_khash _ _ _ Hs), (sh_keys _ _ _ Hs).
  assert (∀ mine theirs, gs_keys (guard_surface g) = Some mine → padded_keys (fp_keys fp) = Some theirs →
    existsb (contains theirs) mine = true) as Hex.
  { intros mine theirs Hm Hth. pose proof (key_in_nonempty _ _ G3) as Hin. cbn in Hm. rewrite Hm in Hin. rewrite Hth in Hks.
    apply existsb_exists. exists (u_key u). split; [by apply list_elem_of_In|]. apply contains_spec. by rewrite <- E2. }
  assert (has (gs_regions (guard_surface g)) (u_key u)) as Hreg by by apply has_widened.
  destruct Hk as [[-> ->]|[[-> Hh]|[-> ->]]]; cbn [Z.eqb OFP_KIND_POINT OFP_KIND_REGION OFP_KIND_SHARD Pos.eqb orb].
  - destruct (gs_shard (guard_surface g)); [done|]. destruct (gs_keys (guard_surface g)) eqn:?, (padded_keys (fp_keys fp)) eqn:?;
      try (by eapply Hex); rewrite E2; by eapply has_meets, Hreg; apply has_region.
  - destruct (gs_shard (guard_surface g)); [done|]. destruct (gs_keys (guard_surface g)) eqn:?, (padded_keys (fp_keys fp)) eqn:?;
      try (by eapply Hex); rewrite E2 in Hh; by eapply has_meets.
  - cbn. destruct (g_shard g) as [mine|]; [|done]. apply Z.eqb_eq. rewrite E1, E2. by apply G7.
Qed.

Lemma verdict_sound r t fp c g u : slot_holds r t fp → load r t OFP_TXN = t → fp_covers fp c → guards g u →
  rebased g = false → conflict c u → verdict_at r (guard_surface g) t = Overlap.
Proof.
  intros Hs Ht Hc Hg Hrb (E1&E2&E3&E4). unfold verdict_at. rewrite Ht, Z.eqb_refl. cbn [negb].
  rewrite (sh_kind _ _ _ Hs), (sh_tbits _ _ _ Hs), (sh_cols _ _ _ Hs).
  assert ((fp_kind fp =? OFP_KIND_EMPTY) = false) as ->.
  { destruct (fc_kind _ _ Hc) as [[-> _]|[[-> _]|[-> _]]]; done. }
  rewrite (has_meets _ _ (u_table u)); [|rewrite <- E1; apply Hc|apply Hg]. cbn [negb].
  rewrite (key_overlap_sound r t fp c g u) by done. cbn [negb].
  rewrite (has_meets _ _ (u_col u)); [|rewrite <- E3; apply Hc|by apply has_widened, Hg]. cbn [negb].
  replace (range_clear r (guard_surface g) t) with false; [done|]. symmetry. unfold range_clear. cbn. rewrite Hrb.
  destruct (g_range g) as [[lo hi]|] eqn:Hgr; [|done]. unfold named_range. destruct (lo <=? hi); [|done].
  rewrite (sh_range _ _ _ Hs). destruct (fc_range _ _ Hc) as [->|Hr]; [by rewrite Z.eqb_refl|].
  destruct (gd_range _ _ Hg lo hi Hgr) as (up&Hup&?). rewrite Hup in E4. rewrite (proj2 (Z.leb_gt _ _)) by lia. apply andb_false_r.
Qed.

Lemma conflicts_sound r t fp c : slot_holds r t fp → load r t OFP_TXN = t → fp_covers fp c →
  conflicts_at r (fold_bit (ch_table c)) (ch_key c) t = true.
Proof.
  intros Hs Ht Hc. unfold conflicts_at. rewrite Ht, Z.eqb_refl. cbn [negb].
  rewrite (sh_kind _ _ _ Hs), (sh_tbits _ _ _ Hs), (sh_khash _ _ _ Hs).
  rewrite (has_meets _ _ (ch_table c)); [|apply Hc|apply has_fold].
  destruct (fc_kind _ _ Hc) as [[-> ->]|[[-> Hh]|[-> _]]]; cbn; [by rewrite Z.eqb_refl| |done].
  by rewrite (has_meets _ _ (ch_key c)); [..|apply has_region].
Qed.

(** ** Histories *)

(** Commits [base + 1], [base + 2], ...; one that does not record its footprint
    is [None]. *)
Fixpoint ring_after (txn : Z) (ms : list (option Commit)) (r : Ring) : Ring :=
  match ms with
  | [] => r
  | m :: ms =>
      let txn := txn + 1 in
      ring_after txn ms (match m with Some m => opt_record txn (commit_footprint (cm_written m)) r | None => r end)
  end.

(** An entry past [base] holds the footprint of the commit it names. *)
Definition ring_tells (base : Z) (ms : list (option Commit)) (r : Ring) : Prop :=
  ring_ok r ∧ ∀ t, base < t → load r t OFP_TXN = t →
    ∃ m, ms !! Z.to_nat (t - base - 1) = Some (Some m) ∧ slot_holds r t (commit_footprint (cm_written m)).

(** Before any of the commits, the ring names no transaction past [base]. *)
Definition ring_before (base : Z) (r : Ring) : Prop := ring_ok r ∧ ∀ t, base < t → load r t OFP_TXN ≠ t.

Lemma slot_holds_same r r' t fp : (∀ f, load r' t f = load r t f) → slot_holds r t fp → slot_holds r' t fp.
Proof.
  intros Hl [H1 H2 H3 H4 H5 H6 H7]. split; rewrite ?Hl; try done. rewrite <- H7. unfold opt_keys. rewrite Hl.
  case_match; [done|]. f_equal. apply map_ext. intros i. by rewrite Hl.
Qed.

Lemma ring_tells_step base ms m r : let txn := base + Z.of_nat (length ms) + 1 in
  ring_tells base ms r →
  ring_tells base (ms ++ [m]) (match m with Some m => opt_record txn (commit_footprint (cm_written m)) r | None => r end).
Proof.
  intros txn [Hok Ht]. assert (∀ t m', ms !! Z.to_nat (t - base - 1) = Some (Some m') →
    (ms ++ [m]) !! Z.to_nat (t - base - 1) = Some (Some m')) as Happ.
  { intros t m' Hm. by apply lookup_app_l_Some. }
  destruct m as [m|].
  2:{ split; [done|]. intros t Hb Hl. destruct (Ht t Hb Hl) as (m'&?&?). exists m'. split; [by apply Happ|done]. }
  split; [by apply opt_record_ok|]. intros t Hb Hl. destruct (decide (t = txn)) as [->|Hne].
  { exists m. split; [|by apply opt_record_holds]. replace (Z.to_nat _) with (length ms) by (unfold txn; lia).
    by rewrite lookup_app_r, Nat.sub_diag by lia. }
  destruct (decide (opt_slot txn = opt_slot t)) as [He|Hs].
  { rewrite <- (load_same_slot _ _ _ _ He), opt_record_txn in Hl by done. done. }
  rewrite opt_record_slot in Hl by done. destruct (Ht t Hb Hl) as (m'&?&Hh). exists m'. split; [by apply Happ|].
  eapply slot_holds_same; [|exact Hh]. intros f. by apply opt_record_slot.
Qed.

Lemma ring_after_tells base ms : ∀ done_ r, ring_tells base done_ r →
  ring_tells base (done_ ++ ms) (ring_after (base + Z.of_nat (length done_)) ms r).
Proof.
  induction ms as [|m ms IH]; intros done_ r Hr; cbn [ring_after]; [by rewrite app_nil_r|].
  pose proof (ring_tells_step base done_ m r Hr) as Hs. cbn zeta in Hs.
  specialize (IH _ _ Hs). rewrite <- app_assoc, length_app in IH. cbn [length app] in IH.
  replace (base + Z.of_nat (length done_) + 1) with (base + Z.of_nat (length done_ + 1)) by lia.
  replace (base + Z.of_nat (length done_) + 1) with (base + Z.of_nat (length done_ + 1)) in IH by lia. exact IH.
Qed.

Lemma ring_history base ms r : ring_before base r → ring_tells base ms (ring_after base ms r).
Proof.
  intros [Hok Hb]. pose proof (ring_after_tells base ms [] r) as H. cbn in H. rewrite Z.add_0_r in H. apply H.
  split; [done|]. intros t Ht Hl. by destruct (Hb t Ht).
Qed.

Lemma elem_of_window t snap cur : t ∈ window snap cur ↔ snap < t ≤ cur.
Proof. unfold window. rewrite elem_of_seqZ. lia. Qed.

Lemma first_verdict_clear r g ts : first_verdict r g ts = Clear → ∀ t, t ∈ ts → verdict_at r g t = Clear.
Proof.
  induction ts as [|t ts IH]; intros Hf t' Ht; [by apply not_elem_of_nil in Ht|]. cbn in Hf.
  destruct (verdict_at r g t) eqn:Hv; try done. apply elem_of_cons in Ht as [->|Ht]; [done|by apply IH].
Qed.

(** A clear verdict: every commit since the snapshot recorded itself, and
    changed nothing the action used. *)
Lemma guard_check_sound base ms r snap stmts why : ring_before base r → Forall (λ m, ∀ m', m = Some m' → cm_ok m') ms →
  base ≤ snap → let cur := base + Z.of_nat (length ms) in
  guard_check (ring_after base ms r) cur (action_guard snap stmts) = (false, why) →
  ∀ t, snap < t ≤ cur → ∃ m, ms !! Z.to_nat (t - base - 1) = Some (Some m) ∧
    ∀ c s u, c ∈ cm_changes m → s ∈ stmts → uses s u → ¬ conflict c u.
Proof.
  intros Hr Hms Hsnap cur Hg t Ht. destruct (action_guard_covers stmts (new_guard snap)) as (Hcov&_&Hrb&Hsn).
  fold (action_guard snap stmts) in Hcov, Hrb, Hsn. unfold guard_check, opt_conflict_set in Hg. rewrite Hsn in Hg. cbn [snap_txn new_guard] in Hg.
  rewrite (proj2 (Z.leb_gt _ _)) in Hg by lia. case_match; [done|].
  assert (first_verdict (ring_after base ms r) (guard_surface (action_guard snap stmts)) (window snap cur) = Clear) as Hf by (by case_match).
  pose proof (first_verdict_clear _ _ _ Hf t (proj2 (elem_of_window t snap cur) Ht)) as Hv.
  assert (load (ring_after base ms r) t OFP_TXN = t) as Htx.
  { unfold verdict_at in Hv. destruct (Z.eqb_spec (load (ring_after base ms r) t OFP_TXN) t); [done|done]. }
  destruct (ring_history base ms r Hr) as [_ Htell]. destruct (Htell t) as (m&Hm&Hh); [lia|done|]. exists m. split; [done|].
  intros c s u Hc Hs Hu Hcf. assert (cm_ok m) as Hok by (by eapply Forall_lookup_1 in Hms; [|exact Hm]; apply Hms).
  rewrite (verdict_sound _ t _ c _ u Hh Htx (commit_covers m c Hok Hc) (Hcov s u Hs Hu)) in Hv; [done|by rewrite Hrb|done].
Qed.

(** The test of one key: a pass means no commit since the snapshot wrote it. *)
Lemma opt_conflict_sound base ms r snap table key : ring_before base r → Forall (λ m, ∀ m', m = Some m' → cm_ok m') ms →
  base ≤ snap → let cur := base + Z.of_nat (length ms) in
  opt_conflict (ring_after base ms r) snap cur table key = false →
  ∀ t, snap < t ≤ cur → ∃ m, ms !! Z.to_nat (t - base - 1) = Some (Some m) ∧
    ∀ c, c ∈ cm_changes m → ¬ (ch_table c = table ∧ ch_key c = key).
Proof.
  intros Hr Hms Hsnap cur Ho t Ht. unfold opt_conflict in Ho.
  rewrite (proj2 (Z.leb_gt _ _)) in Ho by lia. case_match; [done|].
  assert (conflicts_at (ring_after base ms r) (fold_bit table) key t = false) as Hv.
  { apply not_true_iff_false. intros Hv. assert (existsb (conflicts_at (ring_after base ms r) (fold_bit table) key) (window snap cur) = true); [|congruence].
    apply existsb_exists. exists t. split; [|done]. by apply list_elem_of_In, elem_of_window. }
  assert (load (ring_after base ms r) t OFP_TXN = t) as Htx.
  { unfold conflicts_at in Hv. destruct (Z.eqb_spec (load (ring_after base ms r) t OFP_TXN) t); done. }
  destruct (ring_history base ms r Hr) as [_ Htell]. destruct (Htell t) as (m&Hm&Hh); [lia|done|]. exists m. split; [done|].
  intros c Hc [<- <-]. assert (cm_ok m) as Hok by (by eapply Forall_lookup_1 in Hms; [|exact Hm]; apply Hms).
  by rewrite (conflicts_sound _ t _ c Hh Htx (commit_covers m c Hok Hc)) in Hv.
Qed.
End Sound.
