(* ===== verification/OptimisticRebase.v ===== *)
(** The rebase the engine runs over the footprint ring
    ([Shm::opt_rebase]) against the algebra of sub-edits
    ([Splice::rebase_through]): on the shapes the ring can express the two
    agree, and the shapes on which they do not. *)

From S2P Require Import Prelude Subedit Optimistic OptimisticSound.
Local Open Scope Z_scope.

(** * Entries that publish one splice *)

(** The range as it is unpacked. *)
Lemma pack_range_hi lo hi : 0 ≤ lo → 0 ≤ hi → pack_range lo hi ≠ RANGE_ANY → Z.land (pack_range lo hi) (2 ^ 32 - 1) = hi.
Proof.
  intros Hlo Hhi. unfold pack_range. destruct (Z.leb_spec lo U32_LIMIT), (Z.leb_spec hi U32_LIMIT), (Z.leb_spec lo hi); try done.
  intros _. cbn [andb]. change (2 ^ 32 - 1) with (Z.ones 32). rewrite Z.land_lor_distr_l, !Z.land_ones by lia.
  rewrite Z.shiftl_mul_pow2, Z.mod_mul by lia. rewrite Z.mod_small by (unfold U32_LIMIT in *; lia). apply Z.lor_0_l.
Qed.

Lemma pack_range_named lo hi : 0 ≤ lo ≤ hi → hi < U32_LIMIT → pack_range lo hi ≠ RANGE_ANY.
Proof.
  intros Hlo Hhi. unfold pack_range. rewrite !(proj2 (Z.leb_le _ _)) by lia. cbn [andb]. intros Heq.
  assert (Z.land (Z.lor (Z.shiftl lo 32) hi) (Z.ones 32) = hi) as H.
  { rewrite Z.land_lor_distr_l, !Z.land_ones by lia. rewrite Z.shiftl_mul_pow2, Z.mod_mul by lia.
    rewrite Z.mod_small by (unfold U32_LIMIT in *; lia). apply Z.lor_0_l. }
  rewrite Heq in H. change (Z.land RANGE_ANY (Z.ones 32)) with U32_LIMIT in H. lia.
Qed.

(** What an entry of the window says about the cell: nothing of it moved, or
    exactly one splice of it. *)
Record splice_entry (r : Ring) (c : CellEdit) (t : Z) (e : Splice) : Prop := {
  se_seen : skips r c t = false;
  se_range : load r t OFP_RANGE = pack_range (sp_at e) (sp_at e + sp_remove e);
  se_delta : to_sint 64 (load r t OFP_DELTA) = inserted e - sp_remove e;
  se_u32 : sp_at e + sp_remove e < U32_LIMIT;
}.

Definition entry (r : Ring) (c : CellEdit) (t : Z) (h : option Splice) : Prop :=
  load r t OFP_TXN = t ∧ match h with None => skips r c t = true | Some e => splice_entry r c t e end.

Definition outcome (x : Splice + Clash) : RebaseOutcome :=
  match x with inl cur => At (sp_at cur) | inr _ => Collision end.

(** The engine compares the start of a commit's range with the pending offset;
    a pending insertion at the very start of a removal is where that is not
    [Splice::rebase]. *)
Definition comparable (self e : Splice) : Prop := 0 < sp_remove self ∨ sp_remove e = 0.

Lemma rebase_loop_spec r c ts hs : Forall2 (entry r c) ts hs → ∀ self buf,
  ce_len c = sp_remove self → within self buf → history_within (omap id hs) buf →
  Forall (comparable self) (omap id hs) →
  ∃ x, rebase_through self (omap id hs) = Ok x ∧ rebase_loop r c (sp_at self) ts = Ok (Some (outcome x)).
Proof.
  induction 1 as [|t h ts hs [Ht Hh] _ IH]; intros self buf Hlen W Hw Hc; cbn [rebase_loop omap list_omap]; [by exists (inl self)|].
  rewrite Ht, Z.eqb_refl. cbn [negb]. destruct h as [e|]; cbn [id omap list_omap] in Hw, Hc |- *.
  2:{ rewrite Hh. by eapply IH. }
  destruct Hh as [-> -> -> Hu], Hw as [We Hw]. apply Forall_cons in Hc as [Hc Hcs].
  pose proof (pack_range_named (sp_at e) (sp_at e + sp_remove e)) as Hn. pose proof We as [Ha Hr He Hi Hs].
  rewrite (proj2 (Z.eqb_neq _ _)) by (apply Hn; lia).
  rewrite pack_range_hi, pack_range_lo by (lia || (apply Hn; lia)).
  change (2 ^ 32 - 1) with (Z.ones 32). rewrite Z.land_ones, Z.mod_small by (unfold U32_LIMIT in *; lia).
  cbn [rebase_through]. pose proof W as [Wa Wr We' Wi Ws].
  rewrite Hlen. rewrite (proj2 (Z.ltb_lt (sp_at self + sp_remove self) (2 ^ 64))) by lia. unfold comparable in Hc.
  assert ((overlap ← (if sp_at self <? sp_at e + sp_remove e then Ok (sp_at e <? sp_at self + sp_remove self) else Ok false : res bool);
           if (overlap : bool) then Ok (Some Collision)
           else if sp_at e <=? sp_at self then
             if (0 <=? sp_at self + (inserted e - sp_remove e)) && (sp_at self + (inserted e - sp_remove e) <? 2 ^ 64)
             then rebase_loop r c (sp_at self + (inserted e - sp_remove e)) ts else Ok None
           else rebase_loop r c (sp_at self) ts) =
          if decide (apart self e) then rebase_loop r c (sp_at (shifted self e)) ts else Ok (Some Collision)) as ->.
  { unfold shifted, apart, before. cbn [sp_at]. assert (0 ≤ inserted e) by (unfold inserted; lia).
    destruct (Z.ltb_spec (sp_at self) (sp_at e + sp_remove e)), (Z.ltb_spec (sp_at e) (sp_at self + sp_remove self)),
      (Z.leb_spec (sp_at e) (sp_at self)), (Z.leb_spec (sp_at e + sp_remove e) (sp_at self)); cbn [mbind res_mbind]; try lia;
      case_decide; try lia; try done;
      rewrite ?(proj2 (Z.leb_le 0 _)), ?(proj2 (Z.ltb_lt _ (2 ^ 64))) by lia; cbn [andb]; f_equal; lia. }
  destruct (rebase_within self e buf W We) as [[Hap ->]|[Hap [k ->]]]; cbn [mbind res_mbind].
  - rewrite decide_True by done. destruct (shifted_keeps self e buf W We Hap (history_size _ _ Hw)) as [W' _].
    apply (IH (shifted self e) (spliced e buf)); try done.
  - rewrite decide_False by done. by exists (inr k).
Qed.

(** * From commits to entries *)

Lemma ring_after_app ms ms' : ∀ txn r,
  ring_after txn (ms ++ ms') r = ring_after (txn + Z.of_nat (length ms)) ms' (ring_after txn ms r).
Proof.
  induction ms as [|m ms IH]; intros txn r; cbn [ring_after app length]; [by rewrite Z.add_0_r|]. rewrite IH. f_equal. lia.
Qed.

Lemma slot_apart t t' : 0 < t' - t < 256 → opt_slot t' ≠ opt_slot t.
Proof.
  intros H Heq. unfold opt_slot, OPT_RING_SLOTS in Heq.
  pose proof (Z.mod_pos_bound t 256 ltac:(lia)). pose proof (Z.mod_pos_bound t' 256 ltac:(lia)).
  pose proof (Z.div_mod t 256 ltac:(lia)). pose proof (Z.div_mod t' 256 ltac:(lia)). lia.
Qed.

Lemma ring_after_keeps ms t f : ∀ txn r, ring_ok r → t ≤ txn → txn + Z.of_nat (length ms) - t < 256 →
  load (ring_after txn ms r) t f = load r t f.
Proof.
  induction ms as [|m ms IH]; intros txn r Hr Hle Hlt; cbn [ring_after length] in *; [done|].
  rewrite IH; [|destruct m; [by apply opt_record_ok|done]|lia|lia].
  destruct m as [m|]; [|done]. apply opt_record_slot. apply slot_apart. lia.
Qed.

Lemma ring_after_ok ms : ∀ txn r, ring_ok r → ring_ok (ring_after txn ms r).
Proof. induction ms as [|[m|] ms IH]; intros txn r Hr; cbn; [done|by apply IH, opt_record_ok|by apply IH]. Qed.

(** A recorded commit is in the ring until 256 more have passed. *)
Lemma ring_recent base ms r t m : ring_ok r → base < t → ms !! Z.to_nat (t - base - 1) = Some (Some m) →
  base + Z.of_nat (length ms) - t < 256 →
  let r' := ring_after base ms r in load r' t OFP_TXN = t ∧ slot_holds r' t (commit_footprint (cm_written m)).
Proof.
  intros Hr Hb Hm Hrec r'. pose proof (lookup_lt_Some _ _ _ Hm) as Hlen. set (i := Z.to_nat (t - base - 1)) in *.
  unfold r'. rewrite <- (take_drop_middle _ _ _ Hm), ring_after_app. cbn [ring_after]. rewrite length_take_le by lia.
  replace (base + Z.of_nat i + 1) with t by lia. set (r0 := ring_after base (take i ms) r).
  assert (ring_ok r0) as Hr0 by by apply ring_after_ok.
  assert (∀ f, load (ring_after t (drop (S i) ms) (opt_record t (commit_footprint (cm_written m)) r0)) t f =
    load (opt_record t (commit_footprint (cm_written m)) r0) t f) as Hk.
  { intros f. apply ring_after_keeps; [by apply opt_record_ok|lia|]. rewrite length_drop. lia. }
  split; [rewrite Hk; by apply opt_record_txn|]. eapply slot_holds_same; [exact Hk|]. by apply opt_record_holds.
Qed.

(** A commit of one splice of a cell: [UPDATE t SET c = splice(c, ...)] under
    its primary key. *)
Definition splice_stmt (reads : list Z) (table key col : Z) (shard : option Z) (e : Splice) : Stmt :=
  MkStmt reads [table] (Some key) (Some [col]) (Some (sp_at e, sp_at e + sp_remove e))
    (Some (inserted e - sp_remove e)) shard.

(** A footprint that shows the cell untouched. *)
Definition fp_skips (fp : CommitFootprint) (c : CellEdit) : bool :=
  (fp_kind fp =? OFP_KIND_EMPTY) || negb (meets (table_bits fp) (ce_table_bit c)) ||
  match padded_keys (fp_keys fp) with Some theirs => negb (contains theirs (ce_key c)) | None => false end ||
  negb (meets (fp_cols fp) (ce_col_bit c)).

Lemma skips_footprint r c t fp : slot_holds r t fp → skips r c t = fp_skips fp c.
Proof. intros [H1 H2 H3 H4 H5 H6 H7]. unfold skips, fp_skips. by rewrite H1, H2, H4, H7. Qed.

Definition cell_edit (table key col : Z) (s : Splice) : CellEdit :=
  MkCellEdit (fold_bit table) key (fold_bit col) (sp_at s) (sp_remove s).

(** What a commit did to the cell. *)
Inductive cell_commit (table key col : Z) : Commit → option Splice → Prop :=
| cc_elsewhere m : (∀ s, fp_skips (commit_footprint (cm_written m)) (cell_edit table key col s) = true) →
    cell_commit table key col m None
| cc_splice reads shard e changes : sp_at e + sp_remove e < U32_LIMIT →
    cell_commit table key col (Session [(splice_stmt reads table key col shard e, changes)]) (Some e).

(** The footprint a commit of one splice publishes. *)
Lemma splice_footprint reads table key col shard e changes buf : within e buf → sp_at e + sp_remove e < U32_LIMIT →
  let fp := commit_footprint (cm_written (Session [(splice_stmt reads table key col shard e, changes)])) in
  (∀ s, fp_skips fp (cell_edit table key col s) = false) ∧
  fp_range fp = pack_range (sp_at e) (sp_at e + sp_remove e) ∧ fp_delta fp = inserted e - sp_remove e.
Proof.
  intros [Ha Hr He Hi Hs] Hu fp. set (s := splice_stmt reads table key col shard e).
  assert (cm_written (Session [(s, changes)]) = record_stmt s no_writes) as Hw by done.
  destruct (record_stmt_fields s no_writes) as (E1&E2&E3&E4&E5&E6&E7&E8); [done|].
  assert (written_delta (record_stmt s no_writes) = inserted e - sp_remove e) as E9.
  { cbn. unfold saturating_add. cbn. unfold inserted in *. lia. }
  cbn [st_tables st_key st_cols st_range splice_stmt s written_range no_writes join_range] in E1, E3, E4, E5.
  rewrite Z.min_r, Z.max_r in E5 by (unfold U32_LIMIT in *; lia).
  assert (has (written_tables (record_stmt s no_writes)) table) as Ht by (rewrite E1; apply (or_fold_own [table] table table); [by apply list_elem_of_singleton|done]).
  assert (has (written_cols (record_stmt s no_writes)) col) as Hcol by (rewrite E4; apply (or_fold_own [col] col col); [by apply list_elem_of_singleton|done]).
  assert (written_keys (record_stmt s no_writes) = Some [key]) as Hkey by (by rewrite E3).
  unfold fp. fold s. rewrite Hw. unfold commit_footprint. rewrite E8. cbn [commit_point no_writes].
  rewrite (proj2 (Z.eqb_neq _ _) (has_nonzero _ _ Ht)), (proj2 (Z.eqb_neq _ _) (has_nonzero _ _ Hcol)).
  rewrite Hkey, E5, E9. unfold named_range. rewrite (proj2 (Z.leb_le _ _)) by lia.
  destruct (written_shard (record_stmt s no_writes)); (split; [|done]); intros p; unfold fp_skips, padded_keys;
    cbn [fp_kind table_bits fp_keys fp_cols nonempty_keys exact_count cell_edit ce_table_bit ce_key ce_col_bit Z.eqb OFP_KIND_EMPTY OFP_KIND_SHARD OFP_KIND_REGION];
    rewrite (has_meets _ _ table Ht (has_fold table)), (has_meets _ _ col Hcol (has_fold col)); 
    cbn; rewrite (bool_decide_true (1 ≤ OFP_MAX_KEYS)%nat) by (unfold OFP_MAX_KEYS; lia); rewrite bool_decide_false by done; cbn [default from_option id app contains existsb]; unfold contains; cbn [existsb]; by rewrite Z.eqb_refl.
Qed.

Lemma cell_entry table key col r t m h s : load r t OFP_TXN = t → slot_holds r t (commit_footprint (cm_written m)) →
  cell_commit table key col m h → (∀ e, h = Some e → ∃ buf, within e buf) → entry r (cell_edit table key col s) t h.
Proof.
  intros Ht Hs Hc Hw. split; [done|]. destruct Hc as [m Hf|reads shard e changes Hu].
  - by rewrite (skips_footprint _ _ _ _ Hs).
  - destruct (Hw e eq_refl) as [buf W]. destruct (splice_footprint reads table key col shard e changes buf W Hu) as (F1&F2&F3).
    split; [by rewrite (skips_footprint _ _ _ _ Hs)|by rewrite (sh_range _ _ _ Hs)| |done].
    rewrite (sh_delta _ _ _ Hs), F3. apply to_sint_to_uint; [done|]. destruct W. unfold is_sint, inserted in *. cbn. lia.
Qed.

Lemma history_splices_within hs : ∀ buf, history_within (omap id hs) buf → ∀ e, Some e ∈ hs → ∃ b, within e b.
Proof.
  induction hs as [|[e'|] hs IH]; intros buf Hh e He; [by apply not_elem_of_nil in He|..]; cbn in Hh.
  - apply elem_of_cons in He as [[= ->]|He]; [by exists buf; apply Hh|by eapply IH; [apply Hh|]].
  - apply elem_of_cons in He as [[=]|He]. by eapply IH.
Qed.

(** Every commit of the window left the cell alone or was one splice of it. *)
Definition cell_history (table key col : Z) (ms : list (option Commit)) (hs : list (option Splice)) : Prop :=
  Forall2 (λ m h, ∃ m', m = Some m' ∧ cell_commit table key col m' h) ms hs.

Lemma opt_rebase_spec base ms r snap table key col hs self buf :
  ring_ok r → base ≤ snap → let cur := base + Z.of_nat (length ms) in snap ≤ cur → cur - snap ≤ 256 →
  cell_history table key col (drop (Z.to_nat (snap - base)) ms) hs →
  within self buf → history_within (omap id hs) buf → Forall (comparable self) (omap id hs) →
  ∃ x, rebase_through self (omap id hs) = Ok x ∧
    opt_rebase (ring_after base ms r) snap cur (cell_edit table key col self) = Ok (Some (outcome x)).
Proof.
  intros Hr Hb cur Hsc Hwin Hhs W Hw Hc. assert (Forall2 (entry (ring_after base ms r) (cell_edit table key col self)) (window snap cur) hs) as Hent.
  { apply Forall2_same_length_lookup_2.
    { unfold window. rewrite length_seqZ. rewrite <- (Forall2_length _ _ _ Hhs), length_drop. lia. }
    intros i t h Ht Hh. unfold window in Ht. apply lookup_seqZ in Ht as [-> Hi].
    destruct (Forall2_lookup_r _ _ _ _ _ Hhs Hh) as (m&Hm&m'&->&Hcc). rewrite lookup_drop in Hm.
    destruct (ring_recent base ms r (snap + 1 + Z.of_nat i) m') as [H1 H2]; [done|lia| |lia|].
    { rewrite <- Hm. f_equal. lia. }
    eapply cell_entry; [done..|]. intros e ->. eapply history_splices_within; [done|]. by eapply list_elem_of_lookup_2. }
  destruct (rebase_loop_spec _ _ _ _ Hent self buf eq_refl W Hw Hc) as (x&Hx&Hl). exists x. split; [done|].
  unfold opt_rebase. destruct (Z.leb_spec cur snap).
  - assert (window snap cur = []) as Hnil by (unfold window; replace (cur - snap) with 0 by lia; done).
    rewrite Hnil in Hent. apply Forall2_nil_inv_l in Hent as ->. cbn in Hx. injection Hx as <-. done.
  - by rewrite (proj2 (Z.ltb_ge _ _)) by (unfold OPT_RING_SLOTS; lia).
Qed.
