(* ===== verification/ConcurrencyTheorems.v ===== *)
(** What optimistic writers promise each other: sub-edits of one value compose,
    the footprint ring never hides a conflict, and where it does not carry an
    offset or a guard faithfully. *)

From S2P Require Import Prelude Subedit Optimistic OptimisticSound OptimisticRebase.
Local Open Scope Z_scope.

Definition letters (n : nat) : bytes := map (λ i, Z.of_nat i) (seq 0 n).
Definition ins_at (at_ : Z) (b : bytes) : Splice := MkSplice at_ 0 b.



Definition shard0 : Z → Z → Z := λ _ _, 0.

(** An UPDATE of one column of one row, and a SELECT of it. *)
Definition set_stmt (table key col : Z) : Stmt := MkStmt [] [table] (Some key) (Some [col]) None None None.
Definition get_stmt (table key col : Z) : Stmt := MkStmt [table] [] (Some key) (Some [col]) None None None.
Definition set_commit (table key col : Z) : Commit := Session [(set_stmt table key col, [MkChange table key col 0])].



Lemma names_cell s table key col : st_key s = Some key → st_cols s = Some [col] → st_shard s = None →
  names shard0 s table key col.
Proof.
  intros Hk Hc Hs. split_and!.
  - rewrite Hk. by intros h [= <-].
  - rewrite Hc. intros cols [= <-]. exists col. split; [by apply list_elem_of_singleton|done].
  - by rewrite Hs.
Qed.



(** The engine's walk of the ring is the algebra's rebase. When every
    commit since the snapshot either shows in its footprint that it left the
    cell alone or is one splice of it, and the pending edit removes something
    or nothing else did, [rebase_splice] answers exactly what
    [Splice::rebase_through] does, so an offset it returns names the bytes the
    author saw. *)
Theorem engine_rebase_is_splice_rebase base ms r g table key col hs self buf :
  ring_ok r → base ≤ snap_txn g → let cur := base + Z.of_nat (length ms) in
  snap_txn g ≤ cur → cur - snap_txn g ≤ OPT_RING_SLOTS →
  cell_history table key col (drop (Z.to_nat (snap_txn g - base)) ms) hs →
  within self buf → history_within (omap id hs) buf → Forall (comparable self) (omap id hs) →
  ∃ x, rebase_through self (omap id hs) = Ok x ∧
    rebase_splice (ring_after base ms r) cur (Some g) table key col (sp_at self) (sp_remove self) None = Ok (Some (outcome x)) ∧
    (∀ at_, outcome x = At at_ →
       sub (Z.to_nat at_) (Z.to_nat (sp_remove self)) (replay (omap id hs) buf) =
       sub (Z.to_nat (sp_at self)) (Z.to_nat (sp_remove self)) buf).
Proof.
  intros Hr Hb cur Hsc Hwin Hhs W Hw Hc.
  destruct (opt_rebase_spec base ms r (snap_txn g) table key col hs self buf) as (x&Hx&Ho); try done.
  exists x. split_and!; [done|done|]. destruct (rebase_through_keeps (omap id hs) self buf W Hw) as (x'&Hx'&Hk).
  rewrite Hx in Hx'. injection Hx' as <-. destruct x as [cur'|]; [|done]. destruct Hk as (_&Hrm&_&Hk).
  intros at_ [= <-]. by rewrite <- Hrm at 1.
Qed.

Lemma engine_rebase_witness :
  rebase_splice (ring_after 0 [Some (set_commit 2 7 3); Some (Session [(splice_stmt [] 1 7 3 None (ins_at 4 [1; 2; 3]), [])])] fresh_ring)
    2 (Some (new_guard 0)) 1 7 3 10 2 None = Ok (Some (At 13)).
Proof.
  destruct (engine_rebase_is_splice_rebase 0
    [Some (set_commit 2 7 3); Some (Session [(splice_stmt [] 1 7 3 None (ins_at 4 [1; 2; 3]), [])])] fresh_ring
    (new_guard 0) 1 7 3 [None; Some (ins_at 4 [1; 2; 3])] (MkSplice 10 2 []) (letters 30)) as (x&Hx&Hr&_).
  - apply fresh_ring_ok.
  - cbn. lia.
  - cbn. lia.
  - vm_compute. congruence.
  - repeat constructor; eexists; (split; [reflexivity|]).
    + apply cc_elsewhere. intros s. vm_compute. reflexivity.
    + apply cc_splice. vm_compute. reflexivity.
  - split; vm_compute; try done; congruence.
  - repeat split; vm_compute; try done; congruence.
  - apply Forall_singleton. left. cbn. lia.
  - vm_compute in Hx. injection Hx as <-. exact Hr.
Defined.


(** C36. A rebased guard refuses nothing. Once one splice of an action has been
    rebased, no commit is an overlap for the whole action, whatever else it
    used: here the row it read to decide was rewritten since, which the guard
    reports without the splice and lets through with it. *)
Theorem rebased_guard_is_blind :
  (∀ r cur g, (guard_check r cur (mark_rebased g)).2 ≠ Overlap) ∧
  (let r := ring_after 0 [Some (set_commit 1 7 2)] fresh_ring in
   let decided := action_guard 0 [get_stmt 1 7 2] in
   let edit := splice_stmt [] 1 9 3 None (ins_at 10 [1]) in
   rebase_splice r 1 (Some decided) 1 9 3 10 0 None = Ok (Some (At 10)) ∧
   guard_check r 1 (guard_stmt edit decided) = (true, Overlap) ∧
   guard_check r 1 (guard_stmt edit (mark_rebased decided)) = (false, Clear) ∧
   conflict (MkChange 1 7 2 0) (MkUse 1 7 2 None) ∧ uses shard0 (get_stmt 1 7 2) (MkUse 1 7 2 None)).
Proof.
  split.
  - intros r cur g. unfold guard_check, opt_conflict_set. case_match; [done|]. case_match; [done|].
    induction (window _ _) as [|t ts IH]; [done|]. cbn [first_verdict].
    assert (verdict_at r (guard_surface (mark_rebased g)) t ≠ Overlap) as Hv by (unfold verdict_at; repeat case_match; done).
    destruct (verdict_at r (guard_surface (mark_rebased g)) t); [exact IH|done..].
  - cbn zeta. split_and!; [vm_compute; reflexivity..|done|].
    split_and!; [apply elem_of_app; left; by apply list_elem_of_singleton|by apply names_cell|done|done].
Qed.
