(* ===== verification/Readers.v ===== *)
(** The reader table of [crates/mpedb-core/src/shm/readers.rs] as a system of
    threads over shared words: how a reader claims a slot and pins a snapshot,
    how dead readers are swept, how a writer computes the oldest pinned
    transaction, and how a commit publishes its meta page ([shm/pages.rs]).
    Every load, store and compare-exchange of shared memory is one step. The
    model is of the modes that gate [newest_meta] by the durable transaction
    ([commit] and [wal]). *)

From S2P Require Import Prelude.
Local Open Scope Z_scope.

(** * Slots *)

Definition CLAIMING : Z := 2 ^ 31.
Definition TXN_NONE : Z := 2 ^ 64 - 1.
Definition seq_next (seq : Z) : Z := (seq + 1) mod 2 ^ 32.

Definition pack (pid seq : Z) : Z := Z.lor (Z.shiftl pid 32) seq.
Definition unpack (word : Z) : Z * Z := (Z.land (Z.shiftr word 32) (2 ^ 32 - 1), Z.land word (2 ^ 32 - 1)).

Record Slot := MkSlot { rs_word : Z; rs_txn : Z; rs_pid_start : Z }.

(** The mapping: the slots, the two meta pages by the transaction they hold
    ([None] while the checksum does not match), the durable watermark and the
    cached bound. *)
Record Shm := MkShm {
  slots : list Slot; meta_a : option Z; meta_b : option Z; durable_txn : Z; oldest_pinned_cache : Z }.

Definition slot_at (sh : Shm) (idx : nat) : Slot := default (MkSlot 0 0 0) (slots sh !! idx).
Definition slot_word (sh : Shm) (idx : nat) : Z := rs_word (slot_at sh idx).
Definition slot_txn (sh : Shm) (idx : nat) : Z := rs_txn (slot_at sh idx).
Definition slot_pid_start (sh : Shm) (idx : nat) : Z := rs_pid_start (slot_at sh idx).
Definition pid_of (word : Z) : Z := (unpack word).1.
Definition seq_of (word : Z) : Z := (unpack word).2.
Definition is_claiming (word : Z) : bool := negb (Z.land (pid_of word) CLAIMING =? 0).

(** * The newest meta *)

Inductive Side := SideA | SideB.
#[global] Instance side_eq_dec : EqDecision Side.
Proof. solve_decision. Defined.
Definition other (side : Side) : Side := match side with SideA => SideB | SideB => SideA end.
Definition meta_of (sh : Shm) (side : Side) : option Z := match side with SideA => meta_a sh | SideB => meta_b sh end.

Definition gated (gate : Z) (m : option Z) : option Z :=
  match m with Some t => if t <=? gate then Some t else None | None => None end.
Definition newest_of (a b : option Z) : option (Side * Z) :=
  match a, b with
  | Some a, Some b => Some (if b <=? a then (SideA, a) else (SideB, b))
  | Some a, None => Some (SideA, a)
  | None, Some b => Some (SideB, b)
  | None, None => None
  end.
Definition newest_meta_gated (gate : Z) (a b : option Z) : option (Side * Z) := newest_of (gated gate a) (gated gate b).
Definition newest_meta_ungated (sh : Shm) : option (Side * Z) := newest_of (meta_a sh) (meta_b sh).

(** A call of [newest_meta] in progress: about to load the gate, the first meta
    page, the second; [last] is [last_gate], [k] the pass. *)
Inductive MetaPc := MGate (last : Z) (k : nat) | MA (last : Z) (k : nat) (gate : Z) | MB (last : Z) (k : nat) (gate : Z) (a : option Z).
Definition newest_meta_start : MetaPc := MGate 0 0.

(** One load; [inr] when the call returns, with the gate of its last pass. *)
Definition newest_meta_step (sh : Shm) (mp : MetaPc) : MetaPc + option (Z * Z) :=
  match mp with
  | MGate last k => inl (MA last k (durable_txn sh))
  | MA last k gate => inl (MB last k gate (meta_a sh))
  | MB last k gate a =>
      match newest_meta_gated gate a (meta_b sh) with
      | Some (_, t) => inr (Some (t, gate))
      | None => if gate =? last then inr None else if bool_decide (S k = 64)%nat then inr None else inl (MGate gate (S k))
      end
  end.

(** * Threads *)

(** Where a thread is. [again] marks the second claim, after a sweep; a reader
    between claim and release carries its slot and its word. *)
Inductive Pc :=
| Idle
| ClaimLoad (again : bool) (start i tries : nat)
| ClaimCas (again : bool) (start i tries : nat) (w : Z)
| ClaimTxn (again : bool) (start i : nat) (claiming : Z)
| ClaimStart (again : bool) (start i : nat) (claiming : Z)
| ClaimLive (again : bool) (start i : nat) (claiming : Z)
| ClaimAgain
| SweepLoad (for_claim : bool) (idx : nat)
| SweepStart (for_claim : bool) (idx : nat) (w : Z)
| SweepJudge (for_claim : bool) (idx : nat) (w recorded_start : Z)
| SweepCas (for_claim : bool) (idx : nat) (w : Z)
| Pin (idx : nat) (word : Z) (mp : MetaPc)
| PinStore (idx : nat) (word txn : Z)
| Recheck (idx : nat) (word txn : Z) (mp : MetaPc)
| Pinned (idx : nat) (word txn gate : Z)
| Unpin (idx : nat) (word : Z)
| WRecover
| WMeta
| WReady (cur : Z) (side : Side) (recomputed : bool)
| WScanWord (cur : Z) (side : Side) (j : nat) (oldest : Z)
| WScanTxn (cur : Z) (side : Side) (j : nat) (oldest : Z)
| WPublish (cur : Z) (side : Side)
| WDurable (cur : Z)
| WUnlock.

Inductive Status := Unborn | Alive | Dead.
#[global] Instance status_eq_dec : EqDecision Status.
Proof. solve_decision. Defined.

(** A process, by its pid and the start time the system reports for it. *)
Record Proc := MkProc { pid : Z; pid_start : Z; status : Status }.

Inductive Lock := Free | Held (th : nat) | OwnerDead.

Record World := MkWorld { shm : Shm; procs : list Proc; threads : list (nat * Pc); lock : Lock }.

(** What a step does to shared state. *)
Inductive Effect :=
| ENone
| EWord (idx : nat) (w : Z)
| ETxn (idx : nat) (t : Z)
| EStart (idx : nat) (t : Z)
| EMeta (side : Side) (m : option Z)
| EDurable (t : Z)
| ECache (t : Z)
| ELock (l : Lock).

Definition set_slots (f : list Slot → list Slot) (sh : Shm) : Shm :=
  MkShm (f (slots sh)) (meta_a sh) (meta_b sh) (durable_txn sh) (oldest_pinned_cache sh).

Definition apply_effect (e : Effect) (W : World) : World :=
  let sh := shm W in
  let with_shm sh := MkWorld sh (procs W) (threads W) (lock W) in
  match e with
  | ENone => W
  | EWord idx w => with_shm (set_slots (alter (λ s, MkSlot w (rs_txn s) (rs_pid_start s)) idx) sh)
  | ETxn idx t => with_shm (set_slots (alter (λ s, MkSlot (rs_word s) t (rs_pid_start s)) idx) sh)
  | EStart idx t => with_shm (set_slots (alter (λ s, MkSlot (rs_word s) (rs_txn s) t) idx) sh)
  | EMeta SideA m => with_shm (MkShm (slots sh) m (meta_b sh) (durable_txn sh) (oldest_pinned_cache sh))
  | EMeta SideB m => with_shm (MkShm (slots sh) (meta_a sh) m (durable_txn sh) (oldest_pinned_cache sh))
  | EDurable t => with_shm (MkShm (slots sh) (meta_a sh) (meta_b sh) (Z.max (durable_txn sh) t) (oldest_pinned_cache sh))
  | ECache t => with_shm (MkShm (slots sh) (meta_a sh) (meta_b sh) (durable_txn sh) (Z.max (oldest_pinned_cache sh) t))
  | ELock l => MkWorld sh (procs W) (threads W) l
  end.

(** ** Liveness of a recorded process *)

Definition alive_with (p : Z) (pr : Proc) : bool := bool_decide (status pr = Alive) && (pid pr =? p).
Definition pid_definitely_dead (W : World) (p : Z) : bool := negb (existsb (alive_with p) (procs W)).
Definition proc_start_time (W : World) (p : Z) : option Z := pid_start <$> List.find (alive_with p) (procs W).
Definition pid_alive_identity (W : World) (p recorded_start : Z) : bool :=
  if pid_definitely_dead W p then false
  else match proc_start_time W p with
       | Some st => st =? recorded_start
       | None => negb (pid_definitely_dead W p)
       end.

(** ** Steps *)

(** The choices a thread has: what to do next when it is idle, and the start
    of the claim scan, which the code randomizes. *)
Inductive Choice := Go | StartRead (start : nat) | StartSweep | StartWrite | DoScan | DoCommit | DoAbort.

Definition slot_idx (W : World) (start i : nat) : nat := ((start + i) `mod` length (slots (shm W)))%nat.

(** The claim scan moves on: to the next slot, or it ends without a slot. *)
Definition claim_next (W : World) (again : bool) (start i : nat) : Pc :=
  if bool_decide (S i < length (slots (shm W)))%nat then ClaimLoad again start (S i) 0
  else if again then Idle else SweepLoad true 0.
Definition claim_retry (W : World) (again : bool) (start i tries : nat) : Pc :=
  if bool_decide (S tries < 4)%nat then ClaimLoad again start i (S tries) else claim_next W again start i.

Definition claim_slot_step (W : World) (me : Proc) (pc : Pc) : option (Pc * Effect) :=
  match pc with
  | ClaimLoad again start i tries =>
      let w := slot_word (shm W) (slot_idx W start i) in
      Some (if negb (pid_of w =? 0) then claim_next W again start i else ClaimCas again start i tries w, ENone)
  | ClaimCas again start i tries w =>
      let idx := slot_idx W start i in
      let claiming := pack (Z.lor (pid me) CLAIMING) (seq_next (seq_of w)) in
      Some (if slot_word (shm W) idx =? w then (ClaimTxn again start i claiming, EWord idx claiming)
            else (claim_retry W again start i tries, ENone))
  | ClaimTxn again start i claiming =>
      Some (ClaimStart again start i claiming, ETxn (slot_idx W start i) TXN_NONE)
  | ClaimStart again start i claiming =>
      Some (ClaimLive again start i claiming, EStart (slot_idx W start i) (pid_start me))
  | ClaimLive again start i claiming =>
      let idx := slot_idx W start i in
      let owned := pack (pid me) (seq_of claiming) in
      Some (if slot_word (shm W) idx =? claiming then (Pin idx owned newest_meta_start, EWord idx owned)
            else (claim_next W again start i, ENone))
  | _ => None
  end.

(** Release of an owned slot: a compare-exchange of the owned word. *)
Definition release_slot (W : World) (idx : nat) (owned : Z) : Effect :=
  if slot_word (shm W) idx =? owned then EWord idx (pack 0 (seq_next (seq_of owned))) else ENone.

(** The loop of [claim_and_pin] after the claim. *)
Definition pin_step (W : World) (pc : Pc) : option (Pc * Effect) :=
  match pc with
  | Pin idx word mp =>
      Some (match newest_meta_step (shm W) mp with
            | inl mp => Pin idx word mp
            | inr (Some (t, _)) => PinStore idx word t
            | inr None => Unpin idx word
            end, ENone)
  | PinStore idx word t => Some (Recheck idx word t newest_meta_start, ETxn idx t)
  | Recheck idx word t mp =>
      Some (match newest_meta_step (shm W) mp with
            | inl mp => Recheck idx word t mp
            | inr (Some (t', gate)) => if t' =? t then Pinned idx word t gate else Pin idx word newest_meta_start
            | inr None => Unpin idx word
            end, ENone)
  | Pinned idx word _ _ | Unpin idx word => Some (Idle, release_slot W idx word)
  | _ => None
  end.

Definition sweep_next (W : World) (for_claim : bool) (idx : nat) : Pc :=
  if bool_decide (S idx < length (slots (shm W)))%nat then SweepLoad for_claim (S idx)
  else if for_claim then ClaimAgain else Idle.

Definition sweep_step (W : World) (pc : Pc) : option (Pc * Effect) :=
  match pc with
  | SweepLoad fc idx =>
      let w := slot_word (shm W) idx in
      Some (if pid_of w =? 0 then sweep_next W fc idx
            else if is_claiming w then SweepJudge fc idx w 0 else SweepStart fc idx w, ENone)
  | SweepStart fc idx w => Some (SweepJudge fc idx w (slot_pid_start (shm W) idx), ENone)
  | SweepJudge fc idx w recorded =>
      let p := Z.land (pid_of w) (CLAIMING - 1) in
      let dead := if is_claiming w then pid_definitely_dead W p else negb (pid_alive_identity W p recorded) in
      Some (if dead then SweepCas fc idx w else sweep_next W fc idx, ENone)
  | SweepCas fc idx w => Some (sweep_next W fc idx, release_slot W idx w)
  | _ => None
  end.

(** [compute_oldest_pinned], one load at a time. *)
Definition scan_step (W : World) (pc : Pc) : option (Pc * Effect) :=
  match pc with
  | WScanWord cur side j oldest =>
      Some (if bool_decide (j < length (slots (shm W)))%nat
            then (if pid_of (slot_word (shm W) j) =? 0 then WScanWord cur side (S j) oldest else WScanTxn cur side j oldest, ENone)
            else (WReady cur side true, ECache oldest))
  | WScanTxn cur side j oldest =>
      let t := slot_txn (shm W) j in
      let effective := if t =? TXN_NONE then cur else t in
      Some (WScanWord cur side (S j) (Z.min oldest effective), ENone)
  | _ => None
  end.

(** The writer: the lock, with recovery after an owner's death; the meta it
    starts from; the scan; the two stores of a publication, the watermark, the
    unlock. What it reads of the meta pages nobody else writes while it holds
    the lock. *)
Definition writer_step (W : World) (th : nat) (c : Choice) (pc : Pc) : option (Pc * Effect) :=
  match pc, c with
  | WRecover, _ =>
      Some (match newest_meta_ungated (shm W) with
            | Some (_, t) => (WMeta, EDurable t)
            | None => (WUnlock, ENone)
            end)
  | WMeta, _ =>
      Some (match newest_meta_gated (durable_txn (shm W)) (meta_a (shm W)) (meta_b (shm W)) with
            | Some (side, t) => WReady t side false
            | None => WUnlock
            end, ENone)
  | WReady cur side false, DoScan => Some (WScanWord cur side 0 cur, ENone)
  | WReady cur side _, DoCommit => Some (WPublish cur side, EMeta (other side) None)
  | WReady _ _ _, DoAbort => Some (WUnlock, ENone)
  | WPublish cur side, _ => Some (WDurable cur, EMeta (other side) (Some (cur + 1)))
  | WDurable cur, _ => Some (WUnlock, EDurable (cur + 1))
  | WUnlock, _ => Some (Idle, ELock Free)
  | _, _ => None
  end.

Definition idle_step (W : World) (th : nat) (c : Choice) (pc : Pc) : option (Pc * Effect) :=
  match pc, c with
  | Idle, StartRead start => Some (ClaimLoad false start 0 0, ENone)
  | ClaimAgain, StartRead start => Some (ClaimLoad true start 0 0, ENone)
  | Idle, StartSweep => Some (SweepLoad false 0, ENone)
  | Idle, StartWrite =>
      match lock W with
      | Free => Some (WMeta, ELock (Held th))
      | OwnerDead => Some (WRecover, ELock (Held th))
      | Held _ => None
      end
  | _, _ => None
  end.

Definition thread_step (W : World) (me : Proc) (th : nat) (c : Choice) (pc : Pc) : option (Pc * Effect) :=
  match pc with
  | Idle | ClaimAgain => idle_step W th c pc
  | ClaimLoad _ _ _ _ | ClaimCas _ _ _ _ _ | ClaimTxn _ _ _ _ | ClaimStart _ _ _ _ | ClaimLive _ _ _ _ => claim_slot_step W me pc
  | SweepLoad _ _ | SweepStart _ _ _ | SweepJudge _ _ _ _ | SweepCas _ _ _ => sweep_step W pc
  | Pin _ _ _ | PinStore _ _ _ | Recheck _ _ _ _ | Pinned _ _ _ _ | Unpin _ _ => pin_step W pc
  | WScanWord _ _ _ _ | WScanTxn _ _ _ _ => scan_step W pc
  | _ => writer_step W th c pc
  end.

(** A thread moves, a process starts, or it dies, leaving its slots behind and
    the lock, if one of its threads held it, to be adopted. *)
Inductive Action := Move (th : nat) (c : Choice) | Spawn (p : nat) | Die (p : nat).

Definition set_status (p : nat) (st : Status) (W : World) : World :=
  MkWorld (shm W) (alter (λ pr, MkProc (pid pr) (pid_start pr) st) p (procs W)) (threads W) (lock W).
Definition proc_of (W : World) (th : nat) : option nat := fst <$> threads W !! th.

Definition step (a : Action) (W : World) : option World :=
  match a with
  | Move th c =>
      '(p, pc) ← threads W !! th;
      me ← procs W !! p;
      if bool_decide (status me = Alive) then
        '(pc', e) ← thread_step W me th c pc;
        let W' := apply_effect e W in
        Some (MkWorld (shm W') (procs W') (<[th := (p, pc')]> (threads W')) (lock W'))
      else None
  | Spawn p =>
      pr ← procs W !! p;
      if bool_decide (status pr = Unborn) && pid_definitely_dead W (pid pr) then Some (set_status p Alive W) else None
  | Die p =>
      pr ← procs W !! p;
      if bool_decide (status pr = Alive) then
        let W' := set_status p Dead W in
        Some (match lock W with
              | Held th => if bool_decide (proc_of W th = Some p)
                           then MkWorld (shm W') (procs W') (threads W') OwnerDead else W'
              | _ => W'
              end)
      else None
  end.

Fixpoint run (acts : list Action) (W : World) : option World :=
  match acts with
  | [] => Some W
  | a :: acts => W ← step a W; run acts W
  end.
