(* ===== verification/ReadersSlots.v ===== *)
(** Who owns a reader slot: between its claim and its release a slot belongs to
    one thread of a live process, only that thread stores into it, and no sweep
    takes it away. *)

From S2P Require Import Prelude Readers.
Local Open Scope Z_scope.

(** * Words *)

Lemma unpack_pack h s : 0 ≤ h < 2 ^ 32 → 0 ≤ s < 2 ^ 32 → unpack (pack h s) = (h, s).
Proof.
  intros Hh Hs. unfold unpack, pack. change (2 ^ 32 - 1) with (Z.ones 32). rewrite !Z.land_ones by lia.
  rewrite Z.shiftr_lor, Z.shiftr_shiftl_l by lia. rewrite Z.shiftl_0_r, (Z.shiftr_div_pow2 s), (Z.div_small s) by lia.
  rewrite Z.lor_0_r, Z.mod_small by lia. f_equal.
  rewrite <- Z.land_ones, Z.land_lor_distr_l, !Z.land_ones by lia. rewrite Z.shiftl_mul_pow2, Z.mod_mul by lia.
  rewrite Z.mod_small by lia. apply Z.lor_0_l.
Qed.

Lemma seq_next_range s : 0 ≤ seq_next s < 2 ^ 32.
Proof. unfold seq_next. apply Z.mod_pos_bound. lia. Qed.

Lemma seq_of_range w : 0 ≤ seq_of w < 2 ^ 32.
Proof. unfold seq_of, unpack. cbn. change (2 ^ 32 - 1) with (Z.ones 32). rewrite Z.land_ones by lia. apply Z.mod_pos_bound. lia. Qed.

(** A real pid leaves bit 31 alone. *)
Definition good_pid (p : Z) : Prop := 0 < p < 2 ^ 31.

Lemma land_claiming p : good_pid p → Z.land p CLAIMING = 0.
Proof.
  intros Hp. unfold CLAIMING, good_pid in *. apply Z.bits_inj'. intros i Hi. rewrite Z.land_spec, Z.bits_0, Z.pow2_bits_eqb by lia.
  destruct (Z.eqb_spec 31 i) as [<-|]; [|apply andb_false_r]. rewrite andb_true_r. apply Z.bits_above_log2; [lia|]. apply Z.log2_lt_pow2; lia.
Qed.

Lemma claiming_sum p : good_pid p → Z.lor p CLAIMING = p + 2 ^ 31.
Proof. intros Hp. symmetry. by apply Z.add_nocarry_lor, land_claiming. Qed.

Lemma claim_word p s : good_pid p → 0 ≤ s < 2 ^ 32 → let w := pack (Z.lor p CLAIMING) s in
  pid_of w = Z.lor p CLAIMING ∧ seq_of w = s ∧ is_claiming w = true ∧ pid_of w ≠ 0 ∧ Z.land (pid_of w) (CLAIMING - 1) = p.
Proof.
  intros Hp Hs w. pose proof (claiming_sum p Hp) as Hc. unfold good_pid in Hp.
  assert (unpack w = (Z.lor p CLAIMING, s)) as Hu by (apply unpack_pack; lia).
  assert (pid_of w = Z.lor p CLAIMING) as Hpid by (unfold pid_of; by rewrite Hu). split_and!; [done|unfold seq_of; by rewrite Hu| |lia|].
  - unfold is_claiming. rewrite Hpid. rewrite Z.land_comm. replace (Z.land CLAIMING (Z.lor p CLAIMING)) with CLAIMING; [done|].
    rewrite Z.land_lor_distr_r, Z.land_diag. rewrite Z.land_comm, land_claiming by done. done.
  - rewrite Hpid. change (CLAIMING - 1) with (Z.ones 31). rewrite Z.land_ones by lia. rewrite Hc. change (2 ^ 31) with (1 * 2 ^ 31) at 1.
    rewrite Z.mod_add by lia. apply Z.mod_small. lia.
Qed.

Lemma owned_word p s : good_pid p → 0 ≤ s < 2 ^ 32 → let w := pack p s in
  pid_of w = p ∧ seq_of w = s ∧ is_claiming w = false ∧ pid_of w ≠ 0 ∧ Z.land (pid_of w) (CLAIMING - 1) = p.
Proof.
  intros Hp Hs w. unfold good_pid in Hp. assert (unpack w = (p, s)) as Hu by (apply unpack_pack; lia).
  assert (pid_of w = p) as Hpid by (unfold pid_of; by rewrite Hu). split_and!; [done|unfold seq_of; by rewrite Hu| |lia|].
  - unfold is_claiming. by rewrite Hpid, land_claiming.
  - rewrite Hpid. change (CLAIMING - 1) with (Z.ones 31). rewrite Z.land_ones by lia. apply Z.mod_small. lia.
Qed.

Lemma free_word s : 0 ≤ s < 2 ^ 32 → let w := pack 0 s in pid_of w = 0 ∧ seq_of w = s ∧ is_claiming w = false.
Proof.
  intros Hs w. assert (unpack w = (0, s)) as Hu by (apply unpack_pack; lia).
  assert (pid_of w = 0) as Hpid by (unfold pid_of; by rewrite Hu). split_and!; [done|unfold seq_of; by rewrite Hu|].
  unfold is_claiming. by rewrite Hpid.
Qed.

(** * Slots *)

Abbreviation nslots W := (length (slots (shm W))).

Lemma slot_at_alter_eq f idx sh : (idx < length (slots sh))%nat → slot_at (set_slots (alter f idx) sh) idx = f (slot_at sh idx).
Proof.
  intros Hi. unfold slot_at, set_slots. cbn [slots]. rewrite list_lookup_alter_eq.
  destruct (lookup_lt_is_Some_2 (slots sh) idx Hi) as [s ->]. done.
Qed.

Lemma slot_at_alter_ne f idx j sh : idx ≠ j → slot_at (set_slots (alter f idx) sh) j = slot_at sh j.
Proof. intros Hi. unfold slot_at, set_slots. cbn [slots]. by rewrite list_lookup_alter_ne. Qed.

(** * Ownership *)

(** A thread of a live process. *)
Definition athread (W : World) (th : nat) (me : Proc) (pc : Pc) : Prop :=
  ∃ p, threads W !! th = Some (p, pc) ∧ procs W !! p = Some me ∧ status me = Alive.

(** The slot a thread owns and the word it put there. *)
Definition owns (n : nat) (pc : Pc) : option (nat * Z) :=
  match pc with
  | ClaimTxn _ start i w | ClaimStart _ start i w | ClaimLive _ start i w => Some ((start + i) `mod` n, w)%nat
  | Pin idx w _ | PinStore idx w _ | Recheck idx w _ _ | Pinned idx w _ _ | Unpin idx w => Some (idx, w)
  | _ => None
  end.
Definition claiming_pc (pc : Pc) : bool :=
  match pc with ClaimTxn _ _ _ _ | ClaimStart _ _ _ _ | ClaimLive _ _ _ _ => true | _ => false end.
Definition start_set (pc : Pc) : bool :=
  match pc with ClaimTxn _ _ _ _ | ClaimStart _ _ _ _ => false | _ => true end.
Definition pin_txn (pc : Pc) : option Z :=
  match pc with Recheck _ _ t _ | Pinned _ _ t _ => Some t | _ => None end.

Record own_ok (W : World) (me : Proc) (pc : Pc) (idx : nat) (w : Z) : Prop := {
  ow_idx : (idx < nslots W)%nat;
  ow_word : slot_word (shm W) idx = w;
  ow_pid : pid_of w = if claiming_pc pc then Z.lor (pid me) CLAIMING else pid me;
  ow_start : start_set pc = true → slot_pid_start (shm W) idx = pid_start me;
  ow_txn t : pin_txn pc = Some t → slot_txn (shm W) idx = t;
}.

(** What a sweeping thread has read. *)
Definition sweep_of (pc : Pc) : option (nat * Z) :=
  match pc with
  | SweepStart _ idx w | SweepJudge _ idx w _ | SweepCas _ idx w => Some (idx, w)
  | _ => None
  end.

Definition owned_by (W : World) (idx : nat) (w : Z) (me : Proc) : Prop :=
  ∃ th pc, athread W th me pc ∧ owns (nslots W) pc = Some (idx, w).

(** What it knows when it goes on to judge, and to free, the slot. *)
Definition judged (W : World) (pc : Pc) : Prop :=
  match pc with
  | ClaimCas _ _ _ _ w => pid_of w = 0
  | SweepLoad _ idx => (idx < nslots W)%nat
  | SweepStart _ _ w => is_claiming w = false
  | SweepJudge _ idx w recorded => is_claiming w = false → ∀ me, owned_by W idx w me → recorded = pid_start me
  | SweepCas _ idx w => ∀ me, ¬ owned_by W idx w me
  | _ => True
  end.

(** A word it holds is of generation [obs], at most [k] behind the slot's. *)
Record sweep_ok (k : Z) (gens : nat → Z) (obs : Z) (W : World) (idx : nat) (w : Z) : Prop := {
  sw_idx : (idx < nslots W)%nat;
  sw_seq : seq_of w = obs mod 2 ^ 32;
  sw_gen : obs ≤ gens idx ≤ obs + k;
  sw_cur : obs = gens idx → is_claiming (slot_word (shm W) idx) = true → slot_word (shm W) idx = w;
}.

Record slots_inv (k : Z) (gens obs : nat → Z) (W : World) : Prop := {
  si_len : (0 < nslots W)%nat;
  si_pids p pr : procs W !! p = Some pr → good_pid (pid pr);
  si_alive p q pr pr' : procs W !! p = Some pr → procs W !! q = Some pr' → status pr = Alive → status pr' = Alive →
    pid pr = pid pr' → p = q;
  si_unborn th p pc pr : threads W !! th = Some (p, pc) → procs W !! p = Some pr → status pr = Unborn → pc = Idle;
  si_words idx : (idx < nslots W)%nat → seq_of (slot_word (shm W) idx) = gens idx mod 2 ^ 32;
  si_own th me pc idx w : athread W th me pc → owns (nslots W) pc = Some (idx, w) → own_ok W me pc idx w;
  si_uniq th th' me me' pc pc' idx w w' : athread W th me pc → athread W th' me' pc' →
    owns (nslots W) pc = Some (idx, w) → owns (nslots W) pc' = Some (idx, w') → th = th';
  si_sweep th me pc idx w : athread W th me pc → sweep_of pc = Some (idx, w) → sweep_ok k gens (obs th) W idx w;
  si_judged th me pc : athread W th me pc → judged W pc;
}.

(** * Preservation *)

(** Thread [th] of process [p] moves from [pc] to [pc']. *)
Record moved (W W' : World) (th p : nat) (me : Proc) (pc pc' : Pc) : Prop := {
  mv_thread : threads W !! th = Some (p, pc);
  mv_proc : procs W !! p = Some me;
  mv_alive : status me = Alive;
  mv_threads : threads W' = <[th := (p, pc')]> (threads W);
  mv_procs : procs W' = procs W;
  mv_len : nslots W' = nslots W;
}.

Lemma moved_athread W W' th p me pc pc' : moved W W' th p me pc pc' → athread W th me pc.
Proof. intros [H1 H2 H3 _ _ _]. by exists p. Qed.

Lemma moved_cases W W' th p me pc pc' th' me' pc'' : moved W W' th p me pc pc' → athread W' th' me' pc'' →
  th' = th ∧ me' = me ∧ pc'' = pc' ∨ th' ≠ th ∧ athread W th' me' pc''.
Proof.
  intros [H1 H2 H3 H4 H5 _] (q&Ht&Hq&Ha). rewrite H4 in Ht. rewrite H5 in Hq. destruct (decide (th' = th)) as [->|Hne].
  - rewrite list_lookup_insert_eq in Ht by (by eapply lookup_lt_Some). injection Ht as <- <-. left. by simplify_eq.
  - rewrite list_lookup_insert_ne in Ht by done. right. split; [done|]. by exists q.
Qed.

Lemma moved_unborn W W' th p me pc pc' th' q pc'' pr : moved W W' th p me pc pc' →
  (∀ th q pc pr, threads W !! th = Some (q, pc) → procs W !! q = Some pr → status pr = Unborn → pc = Idle) →
  threads W' !! th' = Some (q, pc'') → procs W' !! q = Some pr → status pr = Unborn → pc'' = Idle.
Proof.
  intros [H1 H2 H3 H4 H5 _] Hu Ht Hq Hs. rewrite H4 in Ht. rewrite H5 in Hq. destruct (decide (th' = th)) as [->|Hne].
  - rewrite list_lookup_insert_eq in Ht by (by eapply lookup_lt_Some). injection Ht as <- <-. congruence.
  - rewrite list_lookup_insert_ne in Ht by done. by eapply Hu.
Qed.

Section Preserve.
Context (k : Z) (gens obs : nat → Z) (W W' : World) (th p : nat) (me : Proc) (pc pc' : Pc).
Context (I : slots_inv k gens obs W) (Mv : moved W W' th p me pc pc').

(** What does not depend on the slots. *)
Lemma preserve_procs : (0 < nslots W')%nat ∧
  (∀ p pr, procs W' !! p = Some pr → good_pid (pid pr)) ∧
  (∀ p q pr pr', procs W' !! p = Some pr → procs W' !! q = Some pr' → status pr = Alive → status pr' = Alive →
    pid pr = pid pr' → p = q) ∧
  (∀ th p pc pr, threads W' !! th = Some (p, pc) → procs W' !! p = Some pr → status pr = Unborn → pc = Idle).
Proof.
  destruct I. pose proof Mv as [_ _ _ _ Hp Hl]. rewrite Hp, Hl. split_and!; [done..|].
  intros th' q pc'' pr Ht Hq. rewrite <- Hp in Hq. by eapply moved_unborn.
Qed.

(** ** Steps that leave the slots alone *)

Definition keeps_own : Prop := ∀ idx w, owns (nslots W) pc' = Some (idx, w) →
  owns (nslots W) pc = Some (idx, w) ∧ claiming_pc pc' = claiming_pc pc ∧ (start_set pc' = true → start_set pc = true) ∧
  (∀ t, pin_txn pc' = Some t → pin_txn pc = Some t).

Lemma quiet_owned idx w me' : slots (shm W') = slots (shm W) → keeps_own → owned_by W' idx w me' → owned_by W idx w me'.
Proof.
  intros Hs Hk (th'&pc''&Ha&Ho). rewrite (mv_len _ _ _ _ _ _ _ Mv) in Ho.
  destruct (moved_cases _ _ _ _ _ _ _ _ _ _ Mv Ha) as [(->&->&->)|[_ Ha']].
  - exists th, pc. split; [by eapply moved_athread|by apply Hk].
  - by exists th', pc''.
Qed.

Lemma quiet_judged pc0 : slots (shm W') = slots (shm W) → keeps_own → judged W pc0 → judged W' pc0.
Proof.
  intros Hs Hk Hj. destruct pc0; try done; cbn in *.
  - by rewrite Hs.
  - intros Hc me' Ho. by apply Hj, quiet_owned.
  - intros me' Ho. by eapply Hj, quiet_owned.
Qed.

Lemma preserve_quiet obs' : slots (shm W') = slots (shm W) → keeps_own →
  (∀ th', th' ≠ th → obs' th' = obs th') →
  (∀ idx w, sweep_of pc' = Some (idx, w) → sweep_ok k gens (obs' th) W idx w) → judged W pc' →
  slots_inv (k + 1) gens obs' W'.
Proof.
  intros Hs Hk Hobs Hsw Hj. destruct preserve_procs as (P1&P2&P3&P4).
  assert (∀ idx, slot_at (shm W') idx = slot_at (shm W) idx) as Hat by (intros idx; unfold slot_at; by rewrite Hs).
  assert (nslots W' = nslots W) as Hn by (by rewrite Hs).
  split; [done..| | | | |].
  - intros idx Hi. unfold slot_word. rewrite Hat. apply (si_words _ _ _ _ I). lia.
  - intros th' me' pc'' idx w Ha Ho. rewrite Hn in Ho.
    destruct (moved_cases _ _ _ _ _ _ _ _ _ _ Mv Ha) as [(->&->&->)|[_ Ha']].
    + destruct (Hk _ _ Ho) as (Ho'&Hc&Hst&Htx).
      destruct (si_own _ _ _ _ I th me pc idx w (moved_athread _ _ _ _ _ _ _ Mv) Ho') as [O1 O2 O3 O4 O5].
      split; unfold slot_word, slot_txn, slot_pid_start in *; rewrite ?Hat; [lia|done|by rewrite Hc|auto|auto].
    + destruct (si_own _ _ _ _ I th' me' pc'' idx w Ha' Ho) as [O1 O2 O3 O4 O5].
      split; unfold slot_word, slot_txn, slot_pid_start in *; rewrite ?Hat; [lia|done|done|auto|auto].
  - intros th1 th2 me1 me2 pc1 pc2 idx w1 w2 H1 H2 O1 O2. rewrite Hn in O1, O2.
    destruct (moved_cases _ _ _ _ _ _ _ _ _ _ Mv H1) as [(->&->&->)|[N1 H1']], (moved_cases _ _ _ _ _ _ _ _ _ _ Mv H2) as [(->&->&->)|[N2 H2']];
      [done|apply Hk in O1 as [O1 _]|apply Hk in O2 as [O2 _]|];
      eapply (si_uniq _ _ _ _ I); (done || by eapply moved_athread).
  - intros th' me' pc'' idx w Ha Ho.
    assert (sweep_ok k gens (obs' th') W idx w) as [S1 S2 S3 S4].
    { destruct (moved_cases _ _ _ _ _ _ _ _ _ _ Mv Ha) as [(->&->&->)|[N Ha']]; [by apply Hsw|].
      rewrite (Hobs _ N). by eapply (si_sweep _ _ _ _ I). }
    split; unfold slot_word in *; rewrite ?Hat; [lia|done|lia|done].
  - intros th' me' pc'' Ha. apply quiet_judged; [done..|].
    destruct (moved_cases _ _ _ _ _ _ _ _ _ _ Mv Ha) as [(->&->&->)|[N Ha']]; [done|by eapply (si_judged _ _ _ _ I)].
Qed.

(** ** Stores of the owner into its slot *)

Lemma preserve_store f idx w : shm W' = set_slots (alter f idx) (shm W) → (∀ s, rs_word (f s) = rs_word s) →
  owns (nslots W) pc = Some (idx, w) → owns (nslots W) pc' = Some (idx, w) → claiming_pc pc' = claiming_pc pc →
  (start_set pc' = true → rs_pid_start (f (slot_at (shm W) idx)) = pid_start me) →
  (∀ t, pin_txn pc' = Some t → rs_txn (f (slot_at (shm W) idx)) = t) → sweep_of pc' = None → judged W' pc' →
  slots_inv (k + 1) gens obs W'.
Proof.
  intros Hsh Hf Ho Ho' Hcl Hst Htx Hnsw Hj. destruct preserve_procs as (P1&P2&P3&P4).
  pose proof (moved_athread _ _ _ _ _ _ _ Mv) as Hme. destruct (si_own _ _ _ _ I _ _ _ _ _ Hme Ho) as [O1 O2 O3 O4 O5].
  pose proof (mv_len _ _ _ _ _ _ _ Mv) as Hn.
  assert (∀ j, slot_word (shm W') j = slot_word (shm W) j) as Hword.
  { intros j. unfold slot_word. rewrite Hsh. destruct (decide (idx = j)) as [<-|]; [by rewrite slot_at_alter_eq, Hf|by rewrite slot_at_alter_ne]. }
  assert (∀ th' me' pc'' j w', athread W th' me' pc'' → th' ≠ th → owns (nslots W) pc'' = Some (j, w') → slot_at (shm W') j = slot_at (shm W) j) as Hoth.
  { intros th' me' pc'' j w' Ha Hne Ho2. rewrite Hsh. apply slot_at_alter_ne. intros ->. apply Hne. by eapply (si_uniq _ _ _ _ I). }
  assert (∀ j w' me', owned_by W' j w' me' → owned_by W j w' me') as Hown.
  { intros j w' me' (th'&pc''&Ha&Ho2). rewrite Hn in Ho2. destruct (moved_cases _ _ _ _ _ _ _ _ _ _ Mv Ha) as [(->&->&->)|[N Ha']].
    - rewrite Ho' in Ho2. injection Ho2 as <- <-. by exists th, pc.
    - by exists th', pc''. }
  split; [done..| | | | |].
  - intros j Hi. rewrite Hword. apply (si_words _ _ _ _ I). lia.
  - intros th' me' pc'' j w' Ha Ho2. rewrite Hn in Ho2. destruct (moved_cases _ _ _ _ _ _ _ _ _ _ Mv Ha) as [(->&->&->)|[N Ha']].
    + rewrite Ho' in Ho2. injection Ho2 as <- <-. split; [lia|by rewrite Hword|by rewrite Hcl| |];
        unfold slot_pid_start, slot_txn; rewrite Hsh, slot_at_alter_eq by done; done.
    + destruct (si_own _ _ _ _ I _ _ _ _ _ Ha' Ho2) as [Q1 Q2 Q3 Q4 Q5].
      split; [lia|by rewrite Hword|done| |]; unfold slot_pid_start, slot_txn in *; by rewrite (Hoth _ _ _ _ _ Ha' N Ho2).
  - intros th1 th2 me1 me2 pc1 pc2 j w1 w2 H1 H2 Q1 Q2. rewrite Hn in Q1, Q2.
    destruct (moved_cases _ _ _ _ _ _ _ _ _ _ Mv H1) as [(->&->&->)|[N1 H1']], (moved_cases _ _ _ _ _ _ _ _ _ _ Mv H2) as [(->&->&->)|[N2 H2']];
      [done|rewrite Ho' in Q1; injection Q1 as <- <-|rewrite Ho' in Q2; injection Q2 as <- <-|]; by eapply (si_uniq _ _ _ _ I).
  - intros th' me' pc'' j w' Ha Ho2. destruct (moved_cases _ _ _ _ _ _ _ _ _ _ Mv Ha) as [(->&->&->)|[N Ha']]; [congruence|].
    destruct (si_sweep _ _ _ _ I _ _ _ _ _ Ha' Ho2) as [S1 S2 S3 S4]. split; rewrite ?Hword; [lia|done|lia|done].
  - intros th' me' pc'' Ha. destruct (moved_cases _ _ _ _ _ _ _ _ _ _ Mv Ha) as [(->&->&->)|[N Ha']]; [done|].
    pose proof (si_judged _ _ _ _ I _ _ _ Ha') as Hj0. destruct pc''; try done; cbn in *; [lia| |].
    + intros Hc me0 Ho0. by apply Hj0, Hown.
    + intros me0 Ho0. by eapply Hj0, Hown.
Qed.

(** ** A change of a word: claim, go live, release *)

Lemma preserve_word gens' idx w1 : shm W' = set_slots (alter (λ s, MkSlot w1 (rs_txn s) (rs_pid_start s)) idx) (shm W) →
  (idx < nslots W)%nat →
  (∀ th' me' pc'' w, athread W th' me' pc'' → owns (nslots W) pc'' = Some (idx, w) → th' = th) →
  owns (nslots W) pc' = None ∨ (owns (nslots W) pc' = Some (idx, w1) ∧
    pid_of w1 = (if claiming_pc pc' then Z.lor (pid me) CLAIMING else pid me) ∧
    (start_set pc' = true → slot_pid_start (shm W) idx = pid_start me) ∧ pin_txn pc' = None ∧
    (∀ th' me' pc'' w, athread W th' me' pc'' → th' ≠ th → sweep_of pc'' = Some (idx, w) → w ≠ w1)) →
  seq_of w1 = gens' idx mod 2 ^ 32 → gens idx ≤ gens' idx ≤ gens idx + 1 → (∀ j, j ≠ idx → gens' j = gens j) →
  (∀ th' me' pc'' w, athread W th' me' pc'' → th' ≠ th → sweep_of pc'' = Some (idx, w) →
    obs th' = gens' idx → is_claiming w1 = true → w1 = w) →
  sweep_of pc' = None → judged W' pc' → slots_inv (k + 1) gens' obs W'.
Proof.
  intros Hsh Hi Honly Hnew Hseq Hg Hgne Hcur Hnsw Hj. destruct preserve_procs as (P1&P2&P3&P4).
  pose proof (mv_len _ _ _ _ _ _ _ Mv) as Hn.
  assert (∀ j, j ≠ idx → slot_at (shm W') j = slot_at (shm W) j) as Hat by (intros j Hne; rewrite Hsh; by apply slot_at_alter_ne).
  assert (slot_at (shm W') idx = MkSlot w1 (slot_txn (shm W) idx) (slot_pid_start (shm W) idx)) as Hidx by (by rewrite Hsh, slot_at_alter_eq).
  assert (∀ j w' me', owned_by W' j w' me' → j = idx ∧ w' = w1 ∧ owns (nslots W) pc' = Some (idx, w1) ∨ owned_by W j w' me') as Hown.
  { intros j w' me' (th'&pc''&Ha&Ho2). rewrite Hn in Ho2. destruct (moved_cases _ _ _ _ _ _ _ _ _ _ Mv Ha) as [(->&->&->)|[N Ha']].
    - destruct Hnew as [Hnone|[Hsome _]]; [congruence|]. left. rewrite Hsome in Ho2. by injection Ho2 as <- <-.
    - right. by exists th', pc''. }
  split; [done..| | | | |].
  - intros j Hj'. destruct (decide (j = idx)) as [->|Hne]; unfold slot_word.
    + by rewrite Hidx.
    + rewrite Hat, Hgne by done. apply (si_words _ _ _ _ I). lia.
  - intros th' me' pc'' j w' Ha Ho2. rewrite Hn in Ho2. destruct (moved_cases _ _ _ _ _ _ _ _ _ _ Mv Ha) as [(->&->&->)|[N Ha']].
    + destruct Hnew as [Hnone|(Hsome&Hpid&Hst&Htx&_)]; [congruence|]. rewrite Hsome in Ho2. injection Ho2 as <- <-.
      split; unfold slot_word, slot_pid_start, slot_txn; rewrite ?Hidx; [lia|done|done|done|by rewrite Htx].
    + destruct (si_own _ _ _ _ I _ _ _ _ _ Ha' Ho2) as [Q1 Q2 Q3 Q4 Q5].
      assert (j ≠ idx) as Hne by (intros ->; by apply N, (Honly _ _ _ _ Ha' Ho2)).
      split; unfold slot_word, slot_pid_start, slot_txn in *; rewrite ?Hat by done; [lia|done|done|auto|auto].
  - intros th1 th2 me1 me2 pc1 pc2 j w1' w2' H1 H2 Q1 Q2. rewrite Hn in Q1, Q2.
    assert (∀ th' me' pc'' w' w'', athread W th' me' pc'' → owns (nslots W) pc'' = Some (j, w') → owns (nslots W) pc' = Some (j, w'') → th' = th) as Hmix.
    { intros th' me' pc'' w' w'' Ha Ho Ho'. destruct Hnew as [Hnone|[Hsome _]]; [congruence|]. rewrite Hsome in Ho'. injection Ho' as <- <-. by eapply Honly. }
    destruct (moved_cases _ _ _ _ _ _ _ _ _ _ Mv H1) as [(->&->&->)|[N1 H1']], (moved_cases _ _ _ _ _ _ _ _ _ _ Mv H2) as [(->&->&->)|[N2 H2']];
      [done|symmetry; by eapply Hmix|by eapply Hmix|by eapply (si_uniq _ _ _ _ I)].
  - intros th' me' pc'' j w' Ha Ho2. destruct (moved_cases _ _ _ _ _ _ _ _ _ _ Mv Ha) as [(->&->&->)|[N Ha']]; [congruence|].
    destruct (si_sweep _ _ _ _ I _ _ _ _ _ Ha' Ho2) as [S1 S2 S3 S4]. destruct (decide (j = idx)) as [->|Hne].
    + split; [lia|done|lia|]. unfold slot_word. rewrite Hidx. cbn. by eapply Hcur.
    + split; unfold slot_word in *; rewrite ?Hat, ?Hgne by done; [lia|done|lia|done].
  - intros th' me' pc'' Ha. destruct (moved_cases _ _ _ _ _ _ _ _ _ _ Mv Ha) as [(->&->&->)|[N Ha']]; [done|].
    assert (∀ w, sweep_of pc'' = Some (idx, w) → owns (nslots W) pc' = Some (idx, w1) → w ≠ w1) as Hneq.
    { intros w Hw Ho. destruct Hnew as [Hnone|(_&_&_&_&Hall)]; [congruence|]. by eapply Hall. }
    pose proof (si_judged _ _ _ _ I _ _ _ Ha') as Hj0. destruct pc''; try done; cbn in *; [lia| |].
    + intros Hc me0 Ho0. destruct (Hown _ _ _ Ho0) as [(->&->&Hp)|Ho1]; [|by apply Hj0]. by destruct (Hneq w1).
    + intros me0 Ho0. destruct (Hown _ _ _ Ho0) as [(->&->&Hp)|Ho1]; [|by eapply Hj0]. by destruct (Hneq w1).
Qed.
End Preserve.

(** * Steps *)

Lemma apply_effect_rest e W : procs (apply_effect e W) = procs W ∧ threads (apply_effect e W) = threads W ∧
  nslots (apply_effect e W) = nslots W.
Proof. destruct e as [| | | |[]| | |]; cbn; rewrite ?length_alter; done. Qed.

Lemma some_pair {A B} (a c : A) (b d : B) : Some (a, b) = Some (c, d) → a = c ∧ b = d.
Proof. by intros [= -> ->]. Qed.

(** A move: the thread's step, then its effect on shared memory. *)
Lemma step_move th c W W' : step (Move th c) W = Some W' →
  ∃ p me pc pc' e, moved W W' th p me pc pc' ∧ thread_step W me th c pc = Some (pc', e) ∧
    shm W' = shm (apply_effect e W) ∧ lock W' = lock (apply_effect e W).
Proof.
  cbn [step]. intros H. apply bind_Some in H as ([p pc]&Ht&H). apply bind_Some in H as (me&Hp&H).
  case_bool_decide as Ha; [|done]. apply bind_Some in H as ([pc' e]&Hs&H). injection H as <-.
  destruct (apply_effect_rest e W) as (E1&E2&E3). exists p, me, pc, pc', e. split_and!; [|done..]. by split; cbn; rewrite ?E1, ?E2.
Qed.

Definition bump (gens : nat → Z) (idx : nat) : nat → Z := λ j, if decide (j = idx) then gens j + 1 else gens j.
Definition observe (obs : nat → Z) (th : nat) (g : Z) : nat → Z := λ x, if decide (x = th) then g else obs x.

Lemma bump_seq g s : s = g mod 2 ^ 32 → seq_next s = (g + 1) mod 2 ^ 32.
Proof. intros ->. unfold seq_next. by rewrite Z.add_mod_idemp_l. Qed.

Lemma gen_apart a b : a < b < a + 2 ^ 32 → a mod 2 ^ 32 ≠ b mod 2 ^ 32.
Proof.
  intros H E. pose proof (Z.div_mod a (2 ^ 32) ltac:(lia)). pose proof (Z.div_mod b (2 ^ 32) ltac:(lia)).
  assert (b / 2 ^ 32 - a / 2 ^ 32 = 0 ∨ 1 ≤ b / 2 ^ 32 - a / 2 ^ 32 ∨ b / 2 ^ 32 - a / 2 ^ 32 ≤ -1) by lia. nia.
Qed.

Section Step.
Context (k : Z) (gens obs : nat → Z) (W W' : World) (th p : nat) (me : Proc) (pc pc' : Pc).
Context (Hk : k + 1 < 2 ^ 32) (I : slots_inv k gens obs W) (Mv : moved W W' th p me pc pc').

Lemma me_pid : good_pid (pid me).
Proof. eapply (si_pids _ _ _ _ I), (mv_proc _ _ _ _ _ _ _ Mv). Qed.

(** A word of a fresh generation is not one a sweep holds. *)
Lemma fresh_word idx w th' me' pc'' w1 : athread W th' me' pc'' → sweep_of pc'' = Some (idx, w) →
  seq_of w1 = (gens idx + 1) mod 2 ^ 32 → w ≠ w1.
Proof.
  intros Ha Hs Hw ->. destruct (si_sweep _ _ _ _ I _ _ _ _ _ Ha Hs) as [_ S2 S3 _].
  rewrite S2 in Hw. by apply gen_apart in Hw; [|lia].
Qed.

Lemma nobody_owns_free idx : pid_of (slot_word (shm W) idx) = 0 → ∀ th' me' pc'' w,
  athread W th' me' pc'' → owns (nslots W) pc'' = Some (idx, w) → False.
Proof.
  intros H0 th' me' pc'' w Ha Ho. destruct (si_own _ _ _ _ I _ _ _ _ _ Ha Ho) as [_ O2 O3 _ _]. rewrite <- O2, H0 in O3.
  destruct Ha as (q&_&Hq&_). pose proof (si_pids _ _ _ _ I _ _ Hq) as Hp. rewrite claiming_sum in O3 by done. unfold good_pid in Hp.
  destruct (claiming_pc pc''); lia.
Qed.

Lemma slots_claim again start i w0 : let idx := slot_idx W start i in
  let claiming := pack (Z.lor (pid me) CLAIMING) (seq_next (seq_of w0)) in
  slot_word (shm W) idx = w0 → pid_of w0 = 0 → pc' = ClaimTxn again start i claiming →
  shm W' = shm (apply_effect (EWord idx claiming) W) → slots_inv (k + 1) (bump gens idx) obs W'.
Proof.
  intros idx claiming Hw H0 Hpc' Hsh. destruct (claim_word (pid me) (seq_next (seq_of w0)) me_pid (seq_next_range _)) as (C1&C2&C3&C4&C5).
  pose proof (si_len _ _ _ _ I) as Hn. assert (idx < nslots W)%nat as Hi by (apply Nat.mod_upper_bound; lia).
  assert (seq_of claiming = (gens idx + 1) mod 2 ^ 32) as Hseq.
  { unfold claiming. rewrite C2. apply bump_seq. rewrite <- Hw. by apply (si_words _ _ _ _ I). }
  eapply (preserve_word k gens obs W W' th p me pc pc' I Mv (bump gens idx) idx claiming); rewrite ?Hpc'; try done.
  - intros th' me' pc'' w Ha Ho. exfalso. eapply nobody_owns_free; [|done..]. by rewrite Hw.
  - right. split_and!; try done. intros. by eapply fresh_word.
  - unfold bump. by rewrite decide_True.
  - unfold bump. rewrite decide_True by done. lia.
  - intros j Hj. unfold bump. by rewrite decide_False.
  - intros th' me' pc'' w Ha _ Hs. unfold bump. rewrite decide_True by done.
    pose proof (si_sweep _ _ _ _ I _ _ _ _ _ Ha Hs) as [_ _ S3 _]. lia.
Qed.

Lemma slots_go_live again start i claiming : let idx := slot_idx W start i in let owned := pack (pid me) (seq_of claiming) in
  pc = ClaimLive again start i claiming → pc' = Pin idx owned newest_meta_start →
  shm W' = shm (apply_effect (EWord idx owned) W) → slots_inv (k + 1) gens obs W'.
Proof.
  intros idx owned Hpc Hpc' Hsh. destruct (owned_word (pid me) (seq_of claiming) me_pid (seq_of_range _)) as (C1&C2&C3&C4&C5).
  pose proof (moved_athread _ _ _ _ _ _ _ Mv) as Ha. assert (owns (nslots W) pc = Some (idx, claiming)) as Ho by (by rewrite Hpc).
  destruct (si_own _ _ _ _ I _ _ _ _ _ Ha Ho) as [O1 O2 O3 O4 O5]. rewrite Hpc in O3, O4. cbn [claiming_pc] in O3.
  assert (seq_of claiming = gens idx mod 2 ^ 32) as Hseq by (rewrite <- O2; by apply (si_words _ _ _ _ I)).
  assert (is_claiming claiming = true) as Hcl.
  { unfold is_claiming. rewrite O3. destruct (claim_word (pid me) 0 me_pid) as (X1&_&X3&_); [lia|].
    unfold is_claiming in X3. by rewrite X1 in X3. }
  eapply (preserve_word k gens obs W W' th p me pc pc' I Mv gens idx owned); rewrite ?Hpc'; try done.
  - intros th' me' pc'' w Ha' Ho'. by eapply (si_uniq _ _ _ _ I).
  - right. split_and!; [done|done|intros _; by apply O4|done|].
    intros th' me' pc'' w Ha' Hne Hs ->. destruct (si_sweep _ _ _ _ I _ _ _ _ _ Ha' Hs) as [S1 S2 S3 S4].
    unfold owned in S2. rewrite C2, Hseq in S2. destruct (decide (obs th' = gens idx)) as [E|E].
    + specialize (S4 E). rewrite O2 in S4. specialize (S4 Hcl). change (is_claiming owned = false) in C3. congruence.
    + symmetry in S2. apply gen_apart in S2; lia.
  - by unfold owned; rewrite C2.
  - lia.
  - intros. unfold owned in *. congruence.
Qed.

Lemma slots_release idx w : (idx < nslots W)%nat → slot_word (shm W) idx = w →
  (∀ th' me' pc'' w, athread W th' me' pc'' → owns (nslots W) pc'' = Some (idx, w) → th' = th) →
  owns (nslots W) pc' = None → sweep_of pc' = None → judged W' pc' →
  shm W' = shm (apply_effect (EWord idx (pack 0 (seq_next (seq_of w)))) W) → slots_inv (k + 1) (bump gens idx) obs W'.
Proof.
  intros Hi Hw Honly Ho Hs Hj Hsh. destruct (free_word (seq_next (seq_of w)) (seq_next_range _)) as (C1&C2&C3).
  eapply (preserve_word k gens obs W W' th p me pc _ I Mv (bump gens idx) idx _ Hsh Hi Honly); try done.
  - by left.
  - unfold bump. rewrite decide_True, C2 by done. apply bump_seq. rewrite <- Hw. by apply (si_words _ _ _ _ I).
  - unfold bump. rewrite decide_True by done. lia.
  - intros j Hne. unfold bump. by rewrite decide_False.
  - intros. congruence.
Qed.
End Step.

(** The thread that is judged dead does not exist. *)
Lemma judge_sound k gens obs W fc idx w recorded : slots_inv k gens obs W →
  judged W (SweepJudge fc idx w recorded) →
  (if is_claiming w then pid_definitely_dead W (Z.land (pid_of w) (CLAIMING - 1))
   else negb (pid_alive_identity W (Z.land (pid_of w) (CLAIMING - 1)) recorded)) = true →
  ∀ me, ¬ owned_by W idx w me.
Proof.
  intros I Hj Hd me (th&pc&Ha&Ho). destruct (si_own _ _ _ _ I _ _ _ _ _ Ha Ho) as [O1 O2 O3 _ _].
  pose proof Ha as (p&_&Hp&Hst). pose proof (si_pids _ _ _ _ I _ _ Hp) as Hgood.
  assert (is_claiming w = claiming_pc pc ∧ Z.land (pid_of w) (CLAIMING - 1) = pid me) as [Hcl Hpid].
  { unfold is_claiming. rewrite O3. destruct (claiming_pc pc).
    - destruct (claim_word (pid me) 0 Hgood) as (X1&_&X3&_&X5); [lia|]. unfold is_claiming in X3. by rewrite X1 in X3, X5.
    - destruct (owned_word (pid me) 0 Hgood) as (X1&_&X3&_&X5); [lia|]. unfold is_claiming in X3. by rewrite X1 in X3, X5. }
  rewrite Hpid in Hd. assert (existsb (alive_with (pid me)) (procs W) = true) as Hex.
  { apply existsb_exists. exists me. split; [by eapply list_elem_of_In, list_elem_of_lookup_2|].
    unfold alive_with. rewrite bool_decide_true, Z.eqb_refl by done. done. }
  assert (pid_definitely_dead W (pid me) = false) as Hdd by (unfold pid_definitely_dead; by rewrite Hex).
  destruct (is_claiming w) eqn:Hw; [congruence|].
  apply negb_true_iff in Hd. unfold pid_alive_identity in Hd. rewrite Hdd in Hd. unfold proc_start_time in Hd.
  destruct (List.find (alive_with (pid me)) (procs W)) as [pr|] eqn:Hf; [|done]. cbn in Hd.
  apply find_some in Hf as [Hin Hal]. apply andb_true_iff in Hal as [Hal%bool_decide_eq_true_1 Heq%Z.eqb_eq].
  apply list_elem_of_In, list_elem_of_lookup in Hin as [q Hq].
  assert (q = p) as -> by (by eapply (si_alive _ _ _ _ I)). rewrite Hp in Hq. injection Hq as <-.
  rewrite (Hj Hw me) in Hd by (by exists th, pc). by rewrite Z.eqb_refl in Hd.
Qed.

Section Move.
Context (k : Z) (gens obs : nat → Z) (W W' : World) (th p : nat) (me : Proc) (pc pc' : Pc) (e : Effect).
Context (Hk : k + 1 < 2 ^ 32) (I : slots_inv k gens obs W) (Mv : moved W W' th p me pc pc')
  (Hsh : shm W' = shm (apply_effect e W)).

(** Nothing of the table changes, and the thread owns no more than before. *)
Lemma slots_quiet : slots (shm (apply_effect e W)) = slots (shm W) → keeps_own W pc pc' → sweep_of pc' = None → judged W pc' →
  ∃ gens' obs', slots_inv (k + 1) gens' obs' W'.
Proof.
  intros He Hown Hsw Hj. exists gens, obs. eapply (preserve_quiet k gens obs W W' th p me pc pc' I Mv); try done; [by rewrite Hsh|].
  intros idx w Hx. congruence.
Qed.

Lemma sweep_next_free fc idx : sweep_of (sweep_next W fc idx) = None ∧ owns (nslots W) (sweep_next W fc idx) = None ∧
  judged W (sweep_next W fc idx).
Proof. unfold sweep_next. case_bool_decide; [done|]. by destruct fc. Qed.

Lemma claim_next_free again start i : sweep_of (claim_next W again start i) = None ∧
  owns (nslots W) (claim_next W again start i) = None ∧ judged W (claim_next W again start i).
Proof. unfold claim_next. case_bool_decide; [done|]. destruct again; [done|]. split_and!; try done. apply (si_len _ _ _ _ I). Qed.

Lemma free_keeps : owns (nslots W) pc' = None → keeps_own W pc pc'.
Proof. intros H idx w Hx. congruence. Qed.

End Move.

Ltac quiet He Hpc := eapply slots_quiet; [done|done|done|rewrite <- He; done|apply free_keeps; rewrite <- Hpc; done|rewrite <- Hpc; done|rewrite <- Hpc; done].

Lemma move_claim k gens obs W W' th p me pc pc' e : k + 1 < 2 ^ 32 → slots_inv k gens obs W → moved W W' th p me pc pc' →
  shm W' = shm (apply_effect e W) → claim_slot_step W me pc = Some (pc', e) → ∃ gens' obs', slots_inv (k + 1) gens' obs' W'.
Proof.
  intros Hk I Mv Hsh Hs. pose proof (si_judged _ _ _ _ I _ _ _ (moved_athread _ _ _ _ _ _ _ Mv)) as Hj.
  destruct pc as [|again start i tries|again start i tries w|again start i c|again start i c|again start i c| | | | | | | | | | | | | | | | | |];
    try done; cbn [claim_slot_step] in Hs; try (destruct (claim_next_free k gens obs W I again start i) as (N1&N2&N3)).
  - apply some_pair in Hs as [Hpc He]. destruct (Z.eqb_spec (pid_of (slot_word (shm W) (slot_idx W start i))) 0) as [H0|H0];
      cbn [negb] in Hpc; quiet He Hpc.
  - destruct (Z.eqb_spec (slot_word (shm W) (slot_idx W start i)) w) as [Hw|Hw]; apply some_pair in Hs as [Hpc He].
    + eexists _, obs. eapply (slots_claim k gens obs W W' th p me _ pc' Hk I Mv again start i w); [done|done|by symmetry|by rewrite Hsh, <- He].
    + assert (sweep_of pc' = None ∧ owns (nslots W) pc' = None ∧ judged W pc') as (M1&M2&M3).
      { rewrite <- Hpc. unfold claim_retry. by case_bool_decide. }
      eapply slots_quiet; try done; [by rewrite <- He|by apply free_keeps].
  - apply some_pair in Hs as [Hpc He]. exists gens, obs. rewrite <- He in Hsh.
    eapply (preserve_store k gens obs W W' th p me _ _ I Mv _ _ c Hsh); rewrite <- ?Hpc; done.
  - apply some_pair in Hs as [Hpc He]. exists gens, obs. rewrite <- He in Hsh.
    eapply (preserve_store k gens obs W W' th p me _ _ I Mv _ _ c Hsh); rewrite <- ?Hpc; done.
  - destruct (Z.eqb_spec (slot_word (shm W) (slot_idx W start i)) c) as [Hw|Hw]; apply some_pair in Hs as [Hpc He].
    + exists gens, obs. eapply (slots_go_live k gens obs W W' th p me _ pc' Hk I Mv again start i c); [done|by symmetry|by rewrite Hsh, <- He].
    + quiet He Hpc.
Qed.

(** A release, whoever makes it. *)
Lemma move_release k gens obs W W' th p me pc pc' idx w : k + 1 < 2 ^ 32 → slots_inv k gens obs W → moved W W' th p me pc pc' →
  shm W' = shm (apply_effect (release_slot W idx w) W) → (idx < nslots W)%nat →
  (slot_word (shm W) idx = w → ∀ th' me' pc'' w, athread W th' me' pc'' → owns (nslots W) pc'' = Some (idx, w) → th' = th) →
  owns (nslots W) pc' = None → sweep_of pc' = None → (judged W pc') → ∃ gens' obs', slots_inv (k + 1) gens' obs' W'.
Proof.
  intros Hk I Mv Hsh Hi Honly Ho Hs Hj. unfold release_slot in Hsh. destruct (Z.eqb_spec (slot_word (shm W) idx) w) as [Hw|Hw].
  - eexists _, obs. eapply (slots_release k gens obs W W' th p me pc pc' I Mv idx w Hi Hw); try done; [by apply Honly|].
    pose proof (mv_len _ _ _ _ _ _ _ Mv) as Hn. destruct pc'; try done; cbn in *; lia.
  - eapply slots_quiet; try done. by apply free_keeps.
Qed.

Lemma move_pin k gens obs W W' th p me pc pc' e : k + 1 < 2 ^ 32 → slots_inv k gens obs W → moved W W' th p me pc pc' →
  shm W' = shm (apply_effect e W) → pin_step W pc = Some (pc', e) → ∃ gens' obs', slots_inv (k + 1) gens' obs' W'.
Proof.
  intros Hk I Mv Hsh Hs. pose proof (moved_athread _ _ _ _ _ _ _ Mv) as Ha.
  assert (∀ idx w, owns (nslots W) pc = Some (idx, w) → e = release_slot W idx w → pc' = Idle → ∃ gens' obs', slots_inv (k + 1) gens' obs' W') as Hrel.
  { intros idx w Ho -> Hpc. destruct (si_own _ _ _ _ I _ _ _ _ _ Ha Ho) as [O1 _ _ _ _].
    eapply (move_release k gens obs W W' th p me pc pc' idx w); [done|done|done|done|done| |by rewrite Hpc..].
    intros _ th' me' pc'' w' Ha' Ho'. by eapply (si_uniq _ _ _ _ I). }
  destruct pc; try done; cbn [pin_step] in Hs; apply some_pair in Hs as [Hpc He].
  - eapply slots_quiet; [done|done|done|by rewrite <- He| |by rewrite <- Hpc; repeat case_match|by rewrite <- Hpc; repeat case_match].
    rewrite <- Hpc. intros i w. repeat case_match; cbn; done.
  - exists gens, obs. rewrite <- He in Hsh. eapply (preserve_store k gens obs W W' th p me _ _ I Mv _ _ word Hsh); rewrite <- ?Hpc; try done.
    + intros _. cbn. by destruct (si_own _ _ _ _ I _ _ _ idx word Ha eq_refl) as [_ _ _ O4 _]; apply O4.
    + by intros t [= <-].
  - eapply slots_quiet; [done|done|done|by rewrite <- He| |by rewrite <- Hpc; repeat case_match|by rewrite <- Hpc; repeat case_match].
    rewrite <- Hpc. intros i w. repeat case_match; cbn; done.
  - by eapply Hrel.
  - by eapply Hrel.
Qed.

Lemma move_sweep k gens obs W W' th p me pc pc' e : 0 ≤ k < 2 ^ 32 - 1 → slots_inv k gens obs W → moved W W' th p me pc pc' →
  shm W' = shm (apply_effect e W) → sweep_step W pc = Some (pc', e) → ∃ gens' obs', slots_inv (k + 1) gens' obs' W'.
Proof.
  intros Hk I Mv Hsh Hs. pose proof (moved_athread _ _ _ _ _ _ _ Mv) as Ha. pose proof (si_judged _ _ _ _ I _ _ _ Ha) as Hj.
  destruct pc as [| | | | | | |fc idx|fc idx w|fc idx w rec|fc idx w| | | | | | | | | | | | |]; try done; cbn [sweep_step] in Hs;
    try (destruct (sweep_next_free W fc idx) as (N1&N2&N3)).
  - apply some_pair in Hs as [Hpc He]. destruct (Z.eqb_spec (pid_of (slot_word (shm W) idx)) 0) as [H0|H0]; [quiet He Hpc|].
    exists gens, (observe obs th (gens idx)).
    eapply (preserve_quiet k gens obs W W' th p me _ pc' I Mv).
    + rewrite Hsh, <- He. done.
    + intros i w Hx. exfalso. rewrite <- Hpc in Hx. by destruct (is_claiming _).
    + intros th' Hne. unfold observe. by rewrite decide_False.
    + intros i w Hx. unfold observe. rewrite decide_True by done.
      assert (i = idx ∧ w = slot_word (shm W) idx) as [-> ->] by (rewrite <- Hpc in Hx; destruct (is_claiming _); injection Hx as <- <-; done).
      split; [done|by apply (si_words _ _ _ _ I)| |done]. lia.
    + rewrite <- Hpc. destruct (is_claiming (slot_word (shm W) idx)) eqn:Hc; [|done]. cbn. congruence.
  - apply some_pair in Hs as [Hpc He]. exists gens, obs.
    eapply (preserve_quiet k gens obs W W' th p me _ pc' I Mv); [by rewrite Hsh, <- He|by apply free_keeps; rewrite <- Hpc|done| |].
    + intros i w' Hx. rewrite <- Hpc in Hx. injection Hx as <- <-. by eapply (si_sweep _ _ _ _ I).
    + rewrite <- Hpc. intros _ me' (th'&pc''&Ha'&Ho'). destruct (si_own _ _ _ _ I _ _ _ _ _ Ha' Ho') as [O1 O2 O3 O4 _].
      cbn in Hj. apply O4. destruct (start_set pc'') eqn:Hst; [done|]. exfalso.
      assert (claiming_pc pc'' = true) as Hcl by (by destruct pc''). rewrite Hcl in O3.
      pose proof Ha' as (q&_&Hq&_). pose proof (si_pids _ _ _ _ I _ _ Hq) as Hg.
      destruct (claim_word (pid me') 0 Hg) as (X1&_&X3&_); [lia|]. unfold is_claiming in *. rewrite X1 in X3. rewrite O3 in Hj. congruence.
  - apply some_pair in Hs as [Hpc He].
    destruct (if is_claiming w then _ else _) eqn:Hd; [|quiet He Hpc]. exists gens, obs.
    eapply (preserve_quiet k gens obs W W' th p me _ pc' I Mv); [by rewrite Hsh, <- He|by apply free_keeps; rewrite <- Hpc|done| |].
    + intros i w' Hx. rewrite <- Hpc in Hx. injection Hx as <- <-. by eapply (si_sweep _ _ _ _ I).
    + rewrite <- Hpc. cbn [judged]. by eapply judge_sound.
  - apply some_pair in Hs as [Hpc He]. rewrite <- He in Hsh. destruct (si_sweep _ _ _ _ I _ _ _ idx w Ha eq_refl) as [S1 _ _ _].
    eapply (move_release k gens obs W W' th p me _ pc' idx w); [lia|done|done|done|done| |by rewrite <- Hpc..].
    intros Hw th' me' pc'' w' Ha' Ho'. exfalso. destruct (si_own _ _ _ _ I _ _ _ _ _ Ha' Ho') as [_ O2 _ _ _].
    apply (Hj me'). exists th', pc''. split; [done|]. rewrite Ho'. congruence.
Qed.

(** ** Processes come and go *)

Lemma set_status_lookup p st W q pr : procs (set_status p st W) !! q = Some pr →
  ∃ pr0, procs W !! q = Some pr0 ∧ pid pr = pid pr0 ∧ pid_start pr = pid_start pr0 ∧ (q = p ∧ status pr = st ∨ q ≠ p ∧ pr = pr0).
Proof.
  cbn. destruct (decide (q = p)) as [->|Hne].
  - rewrite list_lookup_alter_eq. intros (pr0&->&Heq)%fmap_Some. exists pr0. rewrite Heq. split_and!; auto.
  - rewrite list_lookup_alter_ne by done. intros H. exists pr. split_and!; auto.
Qed.

(** The same table, and only idle threads come to life. *)
Lemma slots_inv_procs k gens obs W W' : 0 ≤ k → slots_inv k gens obs W → shm W' = shm W → threads W' = threads W →
  (∀ q pr, procs W' !! q = Some pr → good_pid (pid pr)) →
  (∀ p q pr pr', procs W' !! p = Some pr → procs W' !! q = Some pr' → status pr = Alive → status pr' = Alive → pid pr = pid pr' → p = q) →
  (∀ q pr, procs W' !! q = Some pr → status pr = Unborn → ∃ pr0, procs W !! q = Some pr0 ∧ status pr0 = Unborn) →
  (∀ th me pc, athread W' th me pc → athread W th me pc ∨ pc = Idle) → slots_inv (k + 1) gens obs W'.
Proof.
  intros Hk I Hsh Hth Hpid Hal Hub Hat.
  assert (∀ idx w me, owned_by W' idx w me → owned_by W idx w me) as Hown.
  { intros idx w me (th&pc&Ha&Ho). rewrite Hsh in Ho. destruct (Hat _ _ _ Ha) as [Ha'| ->]; [by exists th, pc|done]. }
  assert (∀ th me pc idx w, athread W' th me pc → owns (nslots W') pc = Some (idx, w) → athread W th me pc) as Hats.
  { intros th me pc idx w Ha Ho. by destruct (Hat _ _ _ Ha) as [?| ->]. }
  split; try done; rewrite ?Hsh.
  - apply (si_len _ _ _ _ I).
  - intros th p pc pr Ht Hp Hs. rewrite Hth in Ht. destruct (Hub _ _ Hp Hs) as (pr0&Hp0&Hs0). by eapply (si_unborn _ _ _ _ I).
  - apply (si_words _ _ _ _ I).
  - intros th me pc idx w Ha Ho. assert (athread W th me pc) as Ha' by (eapply Hats; [done|by rewrite Hsh]).
    destruct (si_own _ _ _ _ I _ _ _ _ _ Ha' Ho) as [O1 O2 O3 O4 O5]. by split; rewrite ?Hsh.
  - intros th th' me me' pc pc' idx w w' Ha Ha' Ho Ho'.
    eapply (si_uniq _ _ _ _ I); [eapply Hats; [exact Ha|by rewrite Hsh]|eapply Hats; [exact Ha'|by rewrite Hsh]|done..].
  - intros th me pc idx w Ha Ho. destruct (Hat _ _ _ Ha) as [Ha'| ->]; [|done].
    destruct (si_sweep _ _ _ _ I _ _ _ _ _ Ha' Ho) as [S1 S2 S3 S4]. split; rewrite ?Hsh; (done || lia).
  - intros th me pc Ha. destruct (Hat _ _ _ Ha) as [Ha'| ->]; [|done]. pose proof (si_judged _ _ _ _ I _ _ _ Ha') as Hj.
    destruct pc; try done; cbn in *; [by rewrite Hsh| |].
    + intros Hc me' Ho. by apply Hj, Hown.
    + intros me' Ho. by eapply Hj, Hown.
Qed.

Lemma spawn_athread p W th me pc pr : procs W !! p = Some pr → status pr = Unborn →
  (∀ th p pc pr, threads W !! th = Some (p, pc) → procs W !! p = Some pr → status pr = Unborn → pc = Idle) →
  athread (set_status p Alive W) th me pc → athread W th me pc ∨ pc = Idle.
Proof.
  intros Hp Hs Hu (q&Ht&Hq&Ha). destruct (set_status_lookup _ _ _ _ _ Hq) as (pr0&Hq0&_&_&[[-> _]|[_ ->]]).
  - right. eapply Hu; [exact Ht|exact Hp|done].
  - left. by exists q.
Qed.

Lemma die_athread p W th me pc : athread (set_status p Dead W) th me pc → athread W th me pc ∧ proc_of W th ≠ Some p.
Proof.
  intros (q&Ht&Hq&Ha). destruct (set_status_lookup _ _ _ _ _ Hq) as (pr0&Hq0&_&_&[[_ Hd]|[Hne ->]]); [congruence|].
  split; [by exists q|]. unfold proc_of. cbn in Ht. rewrite Ht. cbn. congruence.
Qed.

(** A death, and what it does to the lock. *)
Lemma step_die p W W' : step (Die p) W = Some W' → shm W' = shm W ∧ threads W' = threads W ∧
  procs W' = procs (set_status p Dead W) ∧ lock W' = (match lock W with Held th => if bool_decide (proc_of W th = Some p) then OwnerDead else Held th | l => l end).
Proof.
  cbn [step]. intros H. apply bind_Some in H as (pr&Hp&H). case_bool_decide; [|done]. injection H as <-.
  destruct (lock W) eqn:Hl; cbn; rewrite ?Hl; try done. case_bool_decide; cbn; by rewrite ?Hl.
Qed.

Lemma slots_step k gens obs a W W' : 0 ≤ k < 2 ^ 32 - 1 → slots_inv k gens obs W → step a W = Some W' →
  ∃ gens' obs', slots_inv (k + 1) gens' obs' W'.
Proof.
  intros Hk I Hs. destruct a as [th c|p|p].
  - destruct (step_move _ _ _ _ Hs) as (p&me&pc&pc'&e&Mv&Ht&Hsh&_).
    assert (owns (nslots W) pc' = None → sweep_of pc' = None → judged W pc' → slots (shm (apply_effect e W)) = slots (shm W) →
      ∃ gens' obs', slots_inv (k + 1) gens' obs' W') as Hq.
    { intros. eapply slots_quiet; try done. by apply free_keeps. }
    destruct pc; cbn [thread_step] in Ht; try (by eapply move_claim; [lia|..]); try (by eapply move_pin; [lia|..]); try (by eapply move_sweep; [lia|..]);
      cbn [idle_step scan_step writer_step] in Ht; repeat case_match; try done; simplify_eq; apply Hq; try done;
      try (by destruct (other side)).
    all: apply (si_len _ _ _ _ I).
  - cbn [step] in Hs. apply bind_Some in Hs as (pr&Hp&Hs). destruct (bool_decide (status pr = Unborn) && _) eqn:Hc; [|done].
    injection Hs as <-. apply andb_true_iff in Hc as [Hu%bool_decide_eq_true_1 Hd]. exists gens, obs.
    assert (∀ q pr', procs W !! q = Some pr' → status pr' = Alive → pid pr' ≠ pid pr) as Hnone.
    { intros q pr' Hq Ha Heq. unfold pid_definitely_dead in Hd. apply negb_true_iff in Hd.
      assert (existsb (alive_with (pid pr)) (procs W) = true); [|congruence]. apply existsb_exists. exists pr'.
      split; [by eapply list_elem_of_In, list_elem_of_lookup_2|]. unfold alive_with. by rewrite bool_decide_true, Heq, Z.eqb_refl. }
    eapply (slots_inv_procs k gens obs W); try done; [lia|..].
    + intros q pr' Hq. destruct (set_status_lookup _ _ _ _ _ Hq) as (pr0&Hq0&->&_). by eapply (si_pids _ _ _ _ I).
    + intros q q' pr1 pr2 H1 H2 A1 A2 He.
      destruct (set_status_lookup _ _ _ _ _ H1) as (p1&L1&E1&_&[[-> _]|[N1 ->]]), (set_status_lookup _ _ _ _ _ H2) as (p2&L2&E2&_&[[-> _]|[N2 ->]]); [done|..].
      * exfalso. simplify_eq. eapply Hnone; [exact L2|done|congruence].
      * exfalso. simplify_eq. eapply Hnone; [exact L1|done|congruence].
      * by eapply (si_alive _ _ _ _ I).
    + intros q pr' Hq Hs'. destruct (set_status_lookup _ _ _ _ _ Hq) as (pr0&Hq0&_&_&[[_ Hx]|[_ ->]]); [congruence|by exists pr0].
    + intros th me pc. eapply spawn_athread; [done..|]. apply (si_unborn _ _ _ _ I).
  - destruct (step_die _ _ _ Hs) as (E1&E2&E3&_). exists gens, obs.
    assert (∀ th me pc, athread W' th me pc → athread W th me pc) as Hat.
    { intros th me pc (q&Ht&Hq&Ha). rewrite E2 in Ht. rewrite E3 in Hq. by apply (die_athread p W th me pc); exists q. }
    eapply (slots_inv_procs k gens obs W); try done; [lia|rewrite E3..|].
    + intros q pr' Hq. destruct (set_status_lookup _ _ _ _ _ Hq) as (pr0&Hq0&->&_). by eapply (si_pids _ _ _ _ I).
    + intros q q' pr1 pr2 H1 H2 A1 A2 He.
      destruct (set_status_lookup _ _ _ _ _ H1) as (p1&L1&E1'&_&[[_ ?]|[N1 ->]]), (set_status_lookup _ _ _ _ _ H2) as (p2&L2&E2'&_&[[_ ?]|[N2 ->]]);
        [congruence..|]. by eapply (si_alive _ _ _ _ I).
    + intros q pr' Hq Hs'. destruct (set_status_lookup _ _ _ _ _ Hq) as (pr0&Hq0&_&_&[[_ Hx]|[_ ->]]); [congruence|by exists pr0].
    + intros th me pc Ha. left. by apply Hat.
Qed.
