(* ===== verification/ReadersPins.v ===== *)
(** The bound below which a writer reuses pages, against the snapshots that
    readers hold: the meta pages and the watermark, the scan of the table, and
    what a pin that was accepted is protected from. *)

From S2P Require Import Prelude Readers ReadersSlots.
Local Open Scope Z_scope.

(** * The writer and the meta pages *)

Definition is_writer (pc : Pc) : bool :=
  match pc with
  | WRecover | WMeta | WReady _ _ _ | WScanWord _ _ _ _ | WScanTxn _ _ _ _ | WPublish _ _ | WDurable _ | WUnlock => true
  | _ => false
  end.

(** The durable commit is in one meta page; the other holds an older one, is
    being written, or holds the next. *)
Definition metas_ok (sh : Shm) (side : Side) : Prop :=
  meta_of sh side = Some (durable_txn sh) ∧
  ∀ x, meta_of sh (other side) = Some x → x < durable_txn sh ∨ x = durable_txn sh + 1.

Definition writer_ok (sh : Shm) (pc : Pc) : Prop :=
  match pc with
  | WReady cur side _ | WPublish cur side => cur = durable_txn sh ∧ metas_ok sh side
  | WScanWord cur side _ oldest | WScanTxn cur side _ oldest => cur = durable_txn sh ∧ metas_ok sh side ∧ oldest ≤ cur
  | WDurable cur => cur = durable_txn sh ∧ ∃ side, metas_ok sh side ∧ meta_of sh (other side) = Some (cur + 1)
  | _ => True
  end.

Record meta_inv (bound : Z) (W : World) : Prop := {
  mi_lock th me pc : athread W th me pc → is_writer pc = true → lock W = Held th;
  mi_meta : ∃ side, metas_ok (shm W) side;
  mi_cache : oldest_pinned_cache (shm W) ≤ durable_txn (shm W);
  mi_writer th me pc : athread W th me pc → writer_ok (shm W) pc;
  mi_bound : durable_txn (shm W) ≤ bound;
}.

Lemma metas_ok_uniq sh s1 s2 : metas_ok sh s1 → metas_ok sh s2 → s1 = s2.
Proof.
  intros [A1 B1] [A2 B2]. destruct s1, s2; try done; cbn [other] in *; [specialize (B1 _ A2)|specialize (B1 _ A2)]; lia.
Qed.

(** The gate of the watermark admits exactly the durable commit. *)
Lemma newest_gated_durable sh side : metas_ok sh side →
  newest_meta_gated (durable_txn sh) (meta_a sh) (meta_b sh) = Some (side, durable_txn sh).
Proof.
  intros [Ha Hb]. unfold newest_meta_gated. destruct side; cbn [meta_of other] in *; rewrite Ha; cbn [gated];
    rewrite (proj2 (Z.leb_le _ _)) by lia.
  - destruct (meta_b sh) as [x|]; [|done]. specialize (Hb x eq_refl). cbn. destruct (Z.leb_spec x (durable_txn sh)); [|done].
    cbn. by rewrite (proj2 (Z.leb_le _ _)) by lia.
  - destruct (meta_a sh) as [x|]; [|done]. specialize (Hb x eq_refl). cbn. destruct (Z.leb_spec x (durable_txn sh)); [|done].
    cbn. by rewrite (proj2 (Z.leb_gt _ _)) by lia.
Qed.

Lemma newest_ungated_next sh side : metas_ok sh side → ∃ s t, newest_meta_ungated sh = Some (s, t) ∧
  (t = durable_txn sh ∨ t = durable_txn sh + 1 ∧ meta_of sh (other side) = Some t).
Proof.
  intros [Ha Hb]. unfold newest_meta_ungated. destruct side; cbn [meta_of other] in *; rewrite Ha.
  - destruct (meta_b sh) as [x|]; cbn; [|eauto]. specialize (Hb x eq_refl). destruct (Z.leb_spec x (durable_txn sh)); [eauto|].
    do 2 eexists. split; [done|]. right. split; [lia|done].
  - destruct (meta_a sh) as [x|]; cbn; [|eauto]. specialize (Hb x eq_refl). destruct (Z.leb_spec (durable_txn sh) x); [|eauto].
    do 2 eexists. split; [done|]. right. split; [lia|done].
Qed.

(** An effect that does not touch what [meta_inv] speaks of. *)
Definition meta_same (sh sh' : Shm) : Prop :=
  meta_a sh' = meta_a sh ∧ meta_b sh' = meta_b sh ∧ durable_txn sh' = durable_txn sh.

Lemma metas_ok_same sh sh' side : meta_same sh sh' → metas_ok sh side → metas_ok sh' side.
Proof. intros (A&B&C) [H1 H2]. unfold metas_ok in *. destruct side; cbn in *; by rewrite ?A, ?B, C. Qed.

Lemma writer_ok_same sh sh' pc : meta_same sh sh' → writer_ok sh pc → writer_ok sh' pc.
Proof.
  intros Hs. pose proof Hs as (A&B&C). destruct pc; try done; cbn [writer_ok]; rewrite C.
  1,2,3,4: intros (->&H&?) || intros (->&H); split_and!; (done || by eapply metas_ok_same).
  intros (->&side&H&Ho). split; [done|]. exists side. split; [by eapply metas_ok_same|]. destruct side; cbn in *; congruence.
Qed.

Section Move.
Context (bound : Z) (W W' : World) (th p : nat) (me : Proc) (pc pc' : Pc) (e : Effect).
Context (I : meta_inv bound W) (Mv : moved W W' th p me pc pc')
  (Hsh : shm W' = shm (apply_effect e W)) (Hlk : lock W' = lock (apply_effect e W)).

(** The only other writer there could be is the thread itself. *)
Lemma writer_alone : is_writer pc = true → ∀ th' me' pc'', athread W th' me' pc'' → th' ≠ th → is_writer pc'' = false.
Proof.
  intros Hw th' me' pc'' Ha Hne. destruct (is_writer pc'') eqn:Hw'; [|done].
  pose proof (mi_lock _ _ I _ _ _ (moved_athread _ _ _ _ _ _ _ Mv) Hw). pose proof (mi_lock _ _ I _ _ _ Ha Hw'). congruence.
Qed.

(** Steps that leave the meta pages, the watermark and the lock alone. *)
Lemma meta_move_same : meta_same (shm W) (shm (apply_effect e W)) → lock (apply_effect e W) = lock W →
  oldest_pinned_cache (shm (apply_effect e W)) ≤ durable_txn (shm W) →
  (is_writer pc' = true → is_writer pc = true) → (writer_ok (shm W) pc') → meta_inv (bound + 1) W'.
Proof.
  intros Hs Hl Hc Hw Hok. pose proof Hs as (A&B&C). split.
  - intros th' me' pc'' Ha Hwr. rewrite Hlk, Hl. destruct (moved_cases _ _ _ _ _ _ _ _ _ _ Mv Ha) as [(->&->&->)|[N Ha']].
    + eapply (mi_lock _ _ I); [by eapply moved_athread|by apply Hw].
    + by eapply (mi_lock _ _ I).
  - rewrite Hsh. destruct (mi_meta _ _ I) as [side Hm]. exists side. by eapply metas_ok_same.
  - rewrite Hsh, C. done.
  - intros th' me' pc'' Ha. rewrite Hsh. eapply writer_ok_same; [done|].
    destruct (moved_cases _ _ _ _ _ _ _ _ _ _ Mv Ha) as [(->&->&->)|[N Ha']]; [done|by eapply (mi_writer _ _ I)].
  - rewrite Hsh, C. pose proof (mi_bound _ _ I). lia.
Qed.

(** Steps of the writer on the meta pages and the watermark. *)
Lemma meta_move_writer : is_writer pc = true → lock (apply_effect e W) = lock W →
  (∃ side, metas_ok (shm W') side) → durable_txn (shm W) ≤ durable_txn (shm W') ≤ durable_txn (shm W) + 1 →
  oldest_pinned_cache (shm W') = oldest_pinned_cache (shm W) → writer_ok (shm W') pc' → meta_inv (bound + 1) W'.
Proof.
  intros Hw Hl Hm Hd Hc Hok. pose proof (mi_bound _ _ I). pose proof (mi_cache _ _ I). split; [|done|lia| |lia].
  - intros th' me' pc'' Ha Hwr. rewrite Hlk, Hl. destruct (moved_cases _ _ _ _ _ _ _ _ _ _ Mv Ha) as [(->&->&->)|[N Ha']].
    + eapply (mi_lock _ _ I); [by eapply moved_athread|done].
    + by eapply (mi_lock _ _ I).
  - intros th' me' pc'' Ha. destruct (moved_cases _ _ _ _ _ _ _ _ _ _ Mv Ha) as [(->&->&->)|[N Ha']]; [done|].
    pose proof (writer_alone Hw _ _ _ Ha' N). by destruct pc''.
Qed.
End Move.

Lemma metas_put W side m : metas_ok (shm W) side → (∀ x, m = Some x → x < durable_txn (shm W) ∨ x = durable_txn (shm W) + 1) →
  let sh' := shm (apply_effect (EMeta (other side) m) W) in
  metas_ok sh' side ∧ meta_of sh' (other side) = m ∧ durable_txn sh' = durable_txn (shm W) ∧
  oldest_pinned_cache sh' = oldest_pinned_cache (shm W).
Proof. intros [H1 H2] Hm. by destruct side. Qed.

Lemma metas_raise W side t : metas_ok (shm W) side → t = durable_txn (shm W) + 1 → meta_of (shm W) (other side) = Some t →
  metas_ok (shm (apply_effect (EDurable t) W)) (other side).
Proof.
  intros [H1 H2] -> Ho. unfold metas_ok. cbn [apply_effect shm durable_txn]. rewrite Z.max_r by lia.
  destruct side; cbn in *; (split; [done|]); intros x Hx; rewrite H1 in Hx; injection Hx as <-; lia.
Qed.

(** What a thread that is not writing does: to its slot, or to the lock. *)
Definition slot_effect (e : Effect) : Prop := match e with ENone | EWord _ _ | ETxn _ _ | EStart _ _ => True | _ => False end.

Lemma release_slot_effect W idx w : slot_effect (release_slot W idx w).
Proof. unfold release_slot. by case_match. Qed.

Lemma claim_next_reader W again start i : is_writer (claim_next W again start i) = false.
Proof. unfold claim_next. case_bool_decide; [done|]. by destruct again. Qed.
Lemma claim_retry_reader W again start i tries : is_writer (claim_retry W again start i tries) = false.
Proof. unfold claim_retry. case_bool_decide; [done|]. apply claim_next_reader. Qed.
Lemma sweep_next_reader W fc idx : is_writer (sweep_next W fc idx) = false.
Proof. unfold sweep_next. case_bool_decide; [done|]. by destruct fc. Qed.
#[local] Hint Resolve release_slot_effect claim_next_reader claim_retry_reader sweep_next_reader : core.

Lemma reader_step W me th c pc pc' e : thread_step W me th c pc = Some (pc', e) → is_writer pc = false →
  is_writer pc' = false ∧ slot_effect e ∨
  e = ELock (Held th) ∧ (pc' = WMeta ∧ lock W = Free ∨ pc' = WRecover ∧ lock W = OwnerDead).
Proof.
  intros Ht Hw.
  destruct pc; try done; cbn [thread_step idle_step claim_slot_step pin_step sweep_step] in Ht;
    repeat case_match; try done; apply some_pair in Ht as [<- <-]; try (left; split; by auto); right; auto.
Qed.

Lemma slot_effect_same W e : slot_effect e → meta_same (shm W) (shm (apply_effect e W)) ∧ lock (apply_effect e W) = lock W ∧
  oldest_pinned_cache (shm (apply_effect e W)) = oldest_pinned_cache (shm W).
Proof. by destruct e. Qed.

Lemma not_writer_ok sh pc : is_writer pc = false → writer_ok sh pc.
Proof. by destruct pc. Qed.

Section Steps.
Context (bound : Z) (W W' : World) (I : meta_inv bound W).

(** Steps of the lock holder. *)
Lemma meta_writer_step th p me c pc pc' e : moved W W' th p me pc pc' → thread_step W me th c pc = Some (pc', e) →
  shm W' = shm (apply_effect e W) → lock W' = lock (apply_effect e W) → is_writer pc = true → meta_inv (bound + 1) W'.
Proof.
  intros Mv Ht Hsh Hlk Hw. pose proof (moved_athread _ _ _ _ _ _ _ Mv) as Ha.
  pose proof (mi_writer _ _ I _ _ _ Ha) as Hok. pose proof (mi_cache _ _ I) as Hca. destruct (mi_meta _ _ I) as [side0 Hm].
  pose proof (meta_move_same bound W W' th p me pc pc' e I Mv Hsh Hlk) as Hsame.
  pose proof (meta_move_writer bound W W' th p me pc pc' e I Mv Hlk Hw) as Hwrite. rewrite !Hsh in Hwrite.
  destruct pc as [| | | | | | | | | | | | | | | | | |cur side rec|cur side j oldest|cur side j oldest|cur side|cur|]; try done;
    cbn [thread_step scan_step writer_step] in Ht; cbn [writer_ok] in Hok.
  - destruct (newest_ungated_next _ _ Hm) as (s&t&Hn&Hor). rewrite Hn in Ht. apply some_pair in Ht as [<- <-].
    assert (durable_txn (shm (apply_effect (EDurable t) W)) = t) as Hd by (cbn; lia).
    apply Hwrite; [done| |rewrite Hd; lia|done|done]. destruct Hor as [->|[-> Ho]].
    + exists side0. eapply metas_ok_same; [|exact Hm]. split_and!; [done|done|cbn; lia].
    + exists (other side0). by apply metas_raise.
  - rewrite (newest_gated_durable _ _ Hm) in Ht. apply some_pair in Ht as [<- <-]. by apply Hsame.
  - destruct Hok as [-> Hok]. destruct c, rec; try done; apply some_pair in Ht as [<- <-]; try (by apply Hsame).
    + destruct (metas_put W side None Hok) as (P1&P2&P3&P4); [done|]. apply Hwrite; [by destruct side|by exists side|lia|done|]. cbn [writer_ok]. by rewrite P3.
    + destruct (metas_put W side None Hok) as (P1&P2&P3&P4); [done|]. apply Hwrite; [by destruct side|by exists side|lia|done|]. cbn [writer_ok]. by rewrite P3.
  - destruct Hok as (->&Hok&Ho). case_bool_decide; repeat case_match; apply some_pair in Ht as [<- <-]; apply Hsame; try done. cbn. lia.
  - destruct Hok as (->&Hok&Ho). apply some_pair in Ht as [<- <-]. apply Hsame; try done. cbn [writer_ok]. split_and!; [done|done|lia].
  - destruct Hok as [-> Hok]. apply some_pair in Ht as [<- <-].
    destruct (metas_put W side (Some (durable_txn (shm W) + 1)) Hok) as (P1&P2&P3&P4); [intros x [= <-]; lia|].
    apply Hwrite; [by destruct side|by exists side|lia|done|]. cbn [writer_ok]. rewrite P3. split; [done|]. by exists side.
  - destruct Hok as [-> (side&Hok&Ho)]. apply some_pair in Ht as [<- <-]. apply Hwrite; [done| |cbn; lia|done|done].
    exists (other side). by apply metas_raise.
  - apply some_pair in Ht as [<- <-]. pose proof (writer_alone bound W W' th p me _ _ I Mv Hw) as Halone.
    split; rewrite ?Hsh; [|by exists side0|done| |pose proof (mi_bound _ _ I); cbn; lia].
    + intros th' me' pc'' Ha' Hw'. destruct (moved_cases _ _ _ _ _ _ _ _ _ _ Mv Ha') as [(->&->&->)|[N Ha'']]; [done|].
      by rewrite (Halone _ _ _ Ha'' N) in Hw'.
    + intros th' me' pc'' Ha'. destruct (moved_cases _ _ _ _ _ _ _ _ _ _ Mv Ha') as [(->&->&->)|[N Ha'']]; [done|].
      apply not_writer_ok. by eapply Halone.
Qed.

(** Taking the lock. *)
Lemma meta_lock_step th p me pc pc' : moved W W' th p me pc pc' → shm W' = shm W → lock W' = Held th →
  (pc' = WMeta ∧ lock W = Free ∨ pc' = WRecover ∧ lock W = OwnerDead) → meta_inv (bound + 1) W'.
Proof.
  intros Mv Hsh Hlk Hpc. assert (∀ th' me' pc'', athread W th' me' pc'' → is_writer pc'' = false) as Hnone.
  { intros th' me' pc'' Ha. destruct (is_writer pc'') eqn:Hw; [|done]. pose proof (mi_lock _ _ I _ _ _ Ha Hw).
    destruct Hpc as [[_ ?]|[_ ?]]; congruence. }
  split; rewrite ?Hsh.
  - intros th' me' pc'' Ha Hw. destruct (moved_cases _ _ _ _ _ _ _ _ _ _ Mv Ha) as [(->&_)|[N Ha']]; [done|].
    by rewrite (Hnone _ _ _ Ha') in Hw.
  - apply (mi_meta _ _ I).
  - apply (mi_cache _ _ I).
  - intros th' me' pc'' Ha. destruct (moved_cases _ _ _ _ _ _ _ _ _ _ Mv Ha) as [(->&->&->)|[N Ha']].
    + by destruct Hpc as [[-> _]|[-> _]].
    + by eapply not_writer_ok, Hnone.
  - pose proof (mi_bound _ _ I). lia.
Qed.

Lemma meta_step a : (∀ th p pc pr, threads W !! th = Some (p, pc) → procs W !! p = Some pr → status pr = Unborn → pc = Idle) →
  step a W = Some W' → meta_inv (bound + 1) W'.
Proof.
  intros Hub Hs. destruct a as [th c|p|p].
  - destruct (step_move _ _ _ _ Hs) as (p&me&pc&pc'&e&Mv&Ht&Hsh&Hlk).
    destruct (is_writer pc) eqn:Hw; [by eapply meta_writer_step|].
    destruct (reader_step _ _ _ _ _ _ _ Ht Hw) as [[Hw' He]|[-> Hpc]].
    + destruct (slot_effect_same W e He) as (E1&E2&E3). eapply meta_move_same; try done.
      * rewrite E3. apply (mi_cache _ _ I).
      * congruence.
      * by apply not_writer_ok.
    + by eapply meta_lock_step.
  - cbn [step] in Hs. apply bind_Some in Hs as (pr&Hp&Hs). case_match eqn:Hc; [|done]. injection Hs as <-.
    apply andb_true_iff in Hc as [Hu%bool_decide_eq_true_1 _].
    assert (∀ th me pc, athread (set_status p Alive W) th me pc → athread W th me pc ∨ pc = Idle) as Hat
      by (intros th me pc; by eapply spawn_athread).
    destruct I as [I1 I2 I3 I4 I5]. split; try done; [| |cbn; lia].
    + intros th me pc Ha Hw. destruct (Hat _ _ _ Ha) as [Ha'| ->]; [by eapply I1|done].
    + intros th me pc Ha. destruct (Hat _ _ _ Ha) as [Ha'| ->]; [by eapply I4|done].
  - destruct (step_die _ _ _ Hs) as (E1&E2&E3&E4).
    assert (∀ th me pc, athread W' th me pc → athread W th me pc ∧ proc_of W th ≠ Some p) as Hat.
    { intros th me pc (q&Ht&Hq&Ha). rewrite E2 in Ht. rewrite E3 in Hq. apply (die_athread p W th me pc). by exists q. }
    destruct I as [I1 I2 I3 I4 I5]. split; rewrite ?E1; try done; [| |lia].
    + intros th me pc Ha Hw. destruct (Hat _ _ _ Ha) as [Ha' Hne]. rewrite E4, (I1 _ _ _ Ha' Hw). by rewrite bool_decide_false.
    + intros th me pc Ha. destruct (Hat _ _ _ Ha) as [Ha' _]. by eapply I4.
Qed.
End Steps.

(** * Pins *)

(** The bound a scan has reached, once it is past slot [idx]. *)
Definition scanned (pc : Pc) (idx : nat) : option Z :=
  match pc with
  | WScanWord _ _ j oldest | WScanTxn _ _ j oldest => if decide (idx < j)%nat then Some oldest else None
  | _ => None
  end.

(** No bound, cached or being computed, is above [t]. *)
Definition safe (W : World) (idx : nat) (t : Z) : Prop :=
  oldest_pinned_cache (shm W) ≤ t ∧ ∀ th me pc o, athread W th me pc → scanned pc idx = Some o → o ≤ t.

(** A recheck that has loaded its gate, and a pin with the gate it was accepted
    under. *)
Definition pin_ok (W : World) (pc : Pc) : Prop :=
  let D := durable_txn (shm W) in
  match pc with
  | Recheck idx _ t (MA _ _ g) => g ≤ D ∧ (g = t → safe W idx t)
  | Recheck idx _ t (MB _ _ g a) => g ≤ D ∧ (g = t → safe W idx t) ∧ (a = Some g ∨ meta_b (shm W) = Some g ∨ g < D)
  | Pinned idx _ t g => g ≤ D ∧ (g = t → safe W idx t) ∧ (t = g ∨ t < g ∧ g < D)
  | _ => True
  end.

Definition pin_inv (W : World) : Prop := ∀ th me pc, athread W th me pc → pin_ok W pc.

(** What a pin relies on, carried over a step. *)
Record pins_kept (W W' : World) : Prop := {
  pk_durable : durable_txn (shm W) ≤ durable_txn (shm W');
  pk_meta g : g ≤ durable_txn (shm W) → meta_b (shm W) = Some g → meta_b (shm W') = Some g ∨ g < durable_txn (shm W');
  pk_safe idx t : (idx < nslots W)%nat → pid_of (slot_word (shm W) idx) ≠ 0 → slot_txn (shm W) idx = t → t ≠ TXN_NONE →
    safe W idx t → safe W' idx t;
}.

Lemma pin_ok_kept k gens obs W W' th me pc : slots_inv k gens obs W → athread W th me pc → pins_kept W W' →
  durable_txn (shm W) < TXN_NONE → pin_ok W pc → pin_ok W' pc.
Proof.
  intros I Ha [K1 K2 K3] Hnone Hok.
  assert (∀ idx w t g, owns (nslots W) pc = Some (idx, w) → pin_txn pc = Some t → g ≤ durable_txn (shm W) → (g = t → safe W idx t) → g = t → safe W' idx t) as Hs.
  { intros idx w t g Ho Hp Hg Hsafe ->. destruct (si_own _ _ _ _ I _ _ _ _ _ Ha Ho) as [O1 O2 O3 _ O5].
    apply K3; [done| |by apply O5|lia|by apply Hsafe]. pose proof Ha as (q&_&Hq&_). pose proof (si_pids _ _ _ _ I _ _ Hq) as Hgp.
    rewrite O2, O3, claiming_sum by done. unfold good_pid in Hgp. case_match; lia. }
  destruct pc as [| | | | | | | | | | | | |idx w t [| |]|idx w t g| | | | | | | | |]; try done; cbn [pin_ok] in *.
  - destruct Hok as [H1 H2]. split; [lia|]. by eapply Hs.
  - destruct Hok as (H1&H2&H3). split_and!; [lia|by eapply Hs|]. destruct H3 as [H3|[H3|H3]]; [by left| |right; right; lia].
    destruct (K2 gate H1 H3); auto.
  - destruct Hok as (H1&H2&H3). split_and!; [lia|by eapply Hs|]. destruct H3 as [H3|[H3 H4]]; [by left|right; lia].
Qed.

Lemma pins_kept_safe W W' : shm W' = shm W → (∀ th me pc, athread W' th me pc → athread W th me pc ∨ ∀ idx, scanned pc idx = None) → pins_kept W W'.
Proof.
  intros Hsh Hat. split; rewrite ?Hsh; [done|auto|]. intros idx t _ _ _ _ [H1 H2]. split; [by rewrite Hsh|].
  intros th me pc o Ha Ho. destruct (Hat _ _ _ Ha) as [Ha'|Hn]; [by eapply H2|]. by rewrite Hn in Ho.
Qed.

(** A step of a thread that is not writing. *)
Lemma pins_kept_reader W W' th p me pc pc' e : moved W W' th p me pc pc' → shm W' = shm (apply_effect e W) → is_writer pc' = false → slot_effect e →
  pins_kept W W'.
Proof.
  intros Mv Hsh Hw He. destruct (slot_effect_same W e He) as ((A&B&C)&_&D). split; rewrite ?Hsh, ?B, ?C; [done|auto|].
  intros idx t _ _ _ _ [H1 H2]. split; [by rewrite Hsh, D|]. intros th' me' pc'' o Ha Ho.
  destruct (moved_cases _ _ _ _ _ _ _ _ _ _ Mv Ha) as [(->&->&->)|[N Ha']]; [by destruct pc'|by eapply H2].
Qed.

Section Writer.
Context (bound : Z) (W W' : World) (th p : nat) (me : Proc) (c : Choice) (pc pc' : Pc) (e : Effect).
Context (I : meta_inv bound W) (Mv : moved W W' th p me pc pc') (Ht : thread_step W me th c pc = Some (pc', e))
  (Hsh : shm W' = shm (apply_effect e W)) (Hw : is_writer pc = true).

(** The scan goes past a slot that is pinned with what is pinned there. *)
Lemma scan_sees idx t : (idx < nslots W)%nat → pid_of (slot_word (shm W) idx) ≠ 0 → slot_txn (shm W) idx = t → t ≠ TXN_NONE →
  safe W idx t → safe W' idx t.
Proof.
  intros Hi Hp Ht' Hn [S1 S2]. pose proof (moved_athread _ _ _ _ _ _ _ Mv) as Ha.
  assert (∀ o, scanned pc idx = Some o → o ≤ t) as Hpc by (intros; by eapply S2).
  assert (oldest_pinned_cache (shm (apply_effect e W)) ≤ t ∧ ∀ o, scanned pc' idx = Some o → o ≤ t) as [Hc Hpc'].
  { clear S2. revert Ht Hpc. clear Hsh Mv I. clear Ha.
    destruct pc as [| | | | | | | | | | | | | | | | | |cur side rec|cur side j oldest|cur side j oldest|cur side|cur|]; try done; intros Hst Hpc;
      cbn [thread_step scan_step writer_step] in Hst.
    - case_match; [destruct p0|]; apply some_pair in Hst as [<- <-]; done.
    - case_match; [destruct p0|]; apply some_pair in Hst as [<- <-]; done.
    - destruct c, rec; try done; apply some_pair in Hst as [<- <-]; by destruct (other side).
    - case_bool_decide as Hj; [case_match eqn:Hz|]; apply some_pair in Hst as [<- <-]; (split; [cbn; try done|]).
      + intros o Ho. cbn in Ho, Hpc. apply Z.eqb_eq in Hz. case_decide as Hl; [|done]. apply Hpc. rewrite decide_True; [done|].
        destruct (decide (idx = j)) as [->|]; [done|lia].
      + intros o Ho. by apply Hpc.
      + apply Z.max_lub; [done|]. apply Hpc. cbn. by rewrite decide_True by lia.
      + done.
    - apply some_pair in Hst as [<- <-]. split; [done|]. intros o Ho. cbn in Ho. case_decide as Hl; [|done]. injection Ho as <-.
      destruct (decide (idx = j)) as [->|Hne].
      + rewrite Ht'. rewrite (proj2 (Z.eqb_neq _ _)) by done. lia.
      + assert (oldest ≤ t); [|lia]. apply Hpc. cbn. by rewrite decide_True by lia.
    - apply some_pair in Hst as [<- <-]. by destruct (other side).
    - apply some_pair in Hst as [<- <-]. done.
    - apply some_pair in Hst as [<- <-]. done. }
  split; [by rewrite Hsh|]. intros th' me' pc'' o Ha' Ho.
  destruct (moved_cases _ _ _ _ _ _ _ _ _ _ Mv Ha') as [(->&->&->)|[N Ha'']]; [by apply Hpc'|by eapply S2].
Qed.

Lemma pins_kept_writer : pins_kept W W'.
Proof.
  pose proof (moved_athread _ _ _ _ _ _ _ Mv) as Ha. pose proof (mi_writer _ _ I _ _ _ Ha) as Hok. destruct (mi_meta _ _ I) as [side0 Hm].
  assert (durable_txn (shm W) ≤ durable_txn (shm (apply_effect e W)) ∧
    (∀ g, g ≤ durable_txn (shm W) → meta_b (shm W) = Some g → meta_b (shm (apply_effect e W)) = Some g ∨ g < durable_txn (shm (apply_effect e W)))) as [K1 K2].
  { assert (∀ side m, metas_ok (shm W) side → durable_txn (shm W) ≤ durable_txn (shm (apply_effect (EMeta (other side) m) W)) ∧
      (∀ g, g ≤ durable_txn (shm W) → meta_b (shm W) = Some g →
        meta_b (shm (apply_effect (EMeta (other side) m) W)) = Some g ∨ g < durable_txn (shm (apply_effect (EMeta (other side) m) W)))) as Hmeta.
    { intros [] m [M1 M2]; cbn [other apply_effect shm durable_txn meta_b meta_of] in *; (split; [done|]); intros g Hg Hb; [|by left].
      right. specialize (M2 g Hb). lia. }
    clear Mv. revert Ht Hok. clear Ha Hsh.
    destruct pc as [| | | | | | | | | | | | | | | | | |cur side rec|cur side j oldest|cur side j oldest|cur side|cur|]; try done; intros Hst Hok;
      cbn [thread_step scan_step writer_step] in Hst; cbn [writer_ok] in Hok.
    - case_match; [destruct p0|]; apply some_pair in Hst as [<- <-]; cbn; split; auto with lia.
    - case_match; [destruct p0|]; apply some_pair in Hst as [<- <-]; cbn; split; auto with lia.
    - destruct Hok as [_ Hok]. destruct c, rec; try done; apply some_pair in Hst as [<- <-]; try (by apply Hmeta); cbn; split; auto with lia.
    - case_bool_decide; [case_match|]; apply some_pair in Hst as [<- <-]; cbn; split; auto with lia.
    - apply some_pair in Hst as [<- <-]; cbn; split; auto with lia.
    - destruct Hok as [_ Hok]. apply some_pair in Hst as [<- <-]. by apply Hmeta.
    - apply some_pair in Hst as [<- <-]; cbn; split; auto with lia.
    - apply some_pair in Hst as [<- <-]; cbn; split; auto with lia. }
  split; rewrite ?Hsh; [done|done|]. apply scan_sees.
Qed.
End Writer.

(** A gate just loaded is above every bound. *)
Lemma durable_safe bound W idx : meta_inv bound W → safe W idx (durable_txn (shm W)).
Proof.
  intros I. split; [apply (mi_cache _ _ I)|]. intros th me pc o Ha Ho. pose proof (mi_writer _ _ I _ _ _ Ha) as Hok.
  destruct pc; try done; cbn in Ho, Hok; case_decide; try done; injection Ho as <-; lia.
Qed.

(** The meta of the gate is found, unless the watermark has moved on. *)
Lemma newest_gated_is_gate g a b side t : a = Some g ∨ b = Some g → newest_meta_gated g a b = Some (side, t) → t = g.
Proof.
  unfold newest_meta_gated. assert (∀ m x, gated g m = Some x → x ≤ g) as Hle.
  { intros [m|] x; cbn; [|done]. destruct (Z.leb_spec m g); [|done]. by intros [= <-]. }
  assert (gated g (Some g) = Some g) as Hg by (cbn; by rewrite Z.leb_refl).
  intros [->| ->]; rewrite Hg.
  - destruct (gated g b) as [x|] eqn:Hb; cbn; [|by intros [= _ <-]]. specialize (Hle _ _ Hb).
    rewrite (proj2 (Z.leb_le _ _)) by lia. by intros [= _ <-].
  - destruct (gated g a) as [x|] eqn:Hb; cbn; [|by intros [= _ <-]]. specialize (Hle _ _ Hb).
    destruct (Z.leb_spec g x); intros [= _ <-]; lia.
Qed.

Lemma newest_gated_below g a b side t : newest_meta_gated g a b = Some (side, t) → t ≤ g.
Proof.
  unfold newest_meta_gated. assert (∀ m x, gated g m = Some x → x ≤ g) as Hle.
  { intros [m|] x; cbn; [|done]. destruct (Z.leb_spec m g); [|done]. by intros [= <-]. }
  destruct (gated g a) eqn:Ha, (gated g b) eqn:Hb; cbn; try done; try (case_match); intros [= _ <-]; eauto.
Qed.

(** A step of the pin loop itself. *)
Lemma pin_own_step bound W W' th p me pc pc' e : meta_inv bound W → moved W W' th p me pc pc' → pin_step W pc = Some (pc', e) →
  shm W' = shm (apply_effect e W) → pins_kept W W' → (∀ idx t, safe W idx t → safe W' idx t) →
  pin_ok W pc → pin_ok W' pc'.
Proof.
  intros I Mv Hs Hsh [K1 K2 K3] Hsafe Hok.
  destruct pc as [| | | | | | | | | | |idx w mp|idx w t|idx w t mp|idx w t g|idx w| | | | | | | |]; try done; cbn [pin_step] in Hs; apply some_pair in Hs as [Hpc He].
  - subst pc'. repeat case_match; done.
  - by subst pc'.
  - subst e. cbn [apply_effect] in Hsh. destruct mp as [last k|last k g|last k g a]; cbn [newest_meta_step] in Hpc; subst pc'; cbn [pin_ok] in *.
    + rewrite Hsh. split; [done|]. intros <-. apply Hsafe. by eapply durable_safe.
    + destruct Hok as [H1 H2]. rewrite Hsh. split_and!; [done|auto|]. destruct (mi_meta _ _ I) as [[] [M1 _]]; cbn in M1.
      * destruct (decide (g = durable_txn (shm W))) as [->|]; [left; done|right; right; lia].
      * destruct (decide (g = durable_txn (shm W))) as [->|]; [right; by left|right; right; lia].
    + destruct Hok as (H1&H2&H3). destruct (newest_meta_gated g a (meta_b (shm W))) as [[side t']|] eqn:Hn.
      2:{ destruct (g =? last); [done|]. by destruct (bool_decide (S k = 64%nat)). }
      destruct (Z.eqb_spec t' t) as [->|]; [|done]. cbn [pin_ok]. rewrite Hsh. split_and!; [done|auto|].
      destruct H3 as [H3|[H3|H3]]; [left; eapply newest_gated_is_gate; [by left|done]|left; eapply newest_gated_is_gate; [by right|done]|].
      pose proof (newest_gated_below _ _ _ _ _ Hn). destruct (decide (t = g)); [by left|right; lia].
  - by subst pc'.
  - by subst pc'.
Qed.

Lemma other_step_pin_ok W W' me th c pc pc' e : thread_step W me th c pc = Some (pc', e) → pin_step W pc = None → pin_ok W' pc'.
Proof.
  intros Ht Hp. destruct pc; try done; cbn [thread_step idle_step claim_slot_step sweep_step scan_step writer_step] in Ht;
    unfold claim_retry, claim_next, sweep_next in Ht; repeat case_match; try done; apply some_pair in Ht as [<- <-]; done.
Qed.

Lemma pin_step_inv k gens obs bound a W W' : slots_inv k gens obs W → meta_inv bound W → bound < TXN_NONE → pin_inv W →
  step a W = Some W' → pin_inv W'.
Proof.
  intros SI I Hb P Hs. pose proof (mi_bound _ _ I) as Hbd.
  assert (pins_kept W W' → ∀ th me pc, athread W th me pc → pin_ok W' pc) as Hkept.
  { intros K th me pc Ha. eapply pin_ok_kept; [done..|lia|by eapply P]. }
  destruct a as [th c|p|p].
  - destruct (step_move _ _ _ _ Hs) as (p&me&pc&pc'&e&Mv&Ht&Hsh&Hlk). pose proof (moved_athread _ _ _ _ _ _ _ Mv) as Ha.
    assert (pins_kept W W') as K.
    { destruct (is_writer pc) eqn:Hw; [by eapply pins_kept_writer|].
      destruct (reader_step _ _ _ _ _ _ _ Ht Hw) as [[Hw' He]|[-> Hpc]]; [by eapply pins_kept_reader|].
      apply pins_kept_safe; [done|]. intros th' me' pc'' Ha'. destruct (moved_cases _ _ _ _ _ _ _ _ _ _ Mv Ha') as [(->&->&->)|[N Ha'']]; [|by left].
      right. by destruct Hpc as [[-> _]|[-> _]]. }
    intros th' me' pc'' Ha'. destruct (moved_cases _ _ _ _ _ _ _ _ _ _ Mv Ha') as [(->&->&->)|[N Ha'']]; [|by eapply Hkept].
    destruct (pin_step W pc) as [[pc1 e1]|] eqn:Hp; [|by eapply other_step_pin_ok].
    assert (thread_step W me th c pc = pin_step W pc) as Heq by (by destruct pc). rewrite Heq, Hp in Ht. injection Ht as -> ->.
    eapply pin_own_step; [done..| |by eapply P]. intros idx t [S1 S2].
    assert (is_writer pc' = false ∧ slot_effect e) as [Hw' He].
    { assert (is_writer pc = false) as Hw by (by destruct pc). rewrite <- Heq in Hp.
      destruct (reader_step _ _ _ _ _ _ _ Hp Hw) as [?|[-> Hpc]]; [done|]. rewrite Heq in Hp. exfalso.
      destruct pc; try done; cbn in Hp; unfold release_slot in Hp; repeat case_match; done. }
    destruct (slot_effect_same W e He) as (_&_&D). split; [by rewrite Hsh, D|]. intros th' me' pc'' o Hb' Ho.
    destruct (moved_cases _ _ _ _ _ _ _ _ _ _ Mv Hb') as [(->&->&->)|[N Ha'']]; [by destruct pc'|by eapply S2].
  - cbn [step] in Hs. apply bind_Some in Hs as (pr&Hp&Hs). case_match eqn:Hc; [|done]. injection Hs as <-.
    apply andb_true_iff in Hc as [Hu%bool_decide_eq_true_1 _].
    assert (∀ th me pc, athread (set_status p Alive W) th me pc → athread W th me pc ∨ pc = Idle) as Hat
      by (intros th me pc; eapply spawn_athread; [done..|apply (si_unborn _ _ _ _ SI)]).
    intros th me pc Ha. destruct (Hat _ _ _ Ha) as [Ha'| ->]; [|done]. eapply Hkept; [|done].
    apply pins_kept_safe; [done|]. intros th' me' pc' Hb'. destruct (Hat _ _ _ Hb') as [?| ->]; auto.
  - destruct (step_die _ _ _ Hs) as (E1&E2&E3&E4).
    assert (∀ th me pc, athread W' th me pc → athread W th me pc) as Hat.
    { intros th me pc (q&Ht&Hq&Ha). rewrite E2 in Ht. rewrite E3 in Hq. apply (die_athread p W th me pc). by exists q. }
    intros th me pc Ha. eapply Hkept; [|by apply Hat]. apply pins_kept_safe; [done|]. intros. left. by apply Hat.
Qed.

(** * Runs *)

(** A consistent start: free slots, every thread idle, the durable commit in one
    meta page and an older one in the other, the bound not above it. *)
Record start_ok (W : World) : Prop := {
  so_slots : (0 < nslots W)%nat;
  so_pids p pr : procs W !! p = Some pr → good_pid (pid pr);
  so_alive p q pr pr' : procs W !! p = Some pr → procs W !! q = Some pr' → status pr = Alive → status pr' = Alive → pid pr = pid pr' → p = q;
  so_idle th p pc : threads W !! th = Some (p, pc) → pc = Idle;
  so_meta : ∃ side, metas_ok (shm W) side;
  so_cache : oldest_pinned_cache (shm W) ≤ durable_txn (shm W);
}.

Definition inv (k : Z) (W0 W : World) : Prop :=
  (∃ gens obs, slots_inv k gens obs W) ∧ meta_inv (durable_txn (shm W0) + k) W ∧ pin_inv W.

Lemma start_inv W : start_ok W → inv 0 W W.
Proof.
  intros [S1 S2 S3 S4 S5 S6]. assert (∀ th me pc, athread W th me pc → pc = Idle) as Hid.
  { intros th me pc (p&Ht&_). by eapply S4. }
  split_and!.
  - exists (λ idx, seq_of (slot_word (shm W) idx)), (λ _, 0). split; try done.
    + intros. by eapply S4.
    + intros idx _. symmetry. apply Z.mod_small, seq_of_range.
    + intros th me pc idx w Ha. by rewrite (Hid _ _ _ Ha).
    + intros th th' me me' pc pc' idx w w' Ha _. by rewrite (Hid _ _ _ Ha).
    + intros th me pc idx w Ha. by rewrite (Hid _ _ _ Ha).
    + intros th me pc Ha. by rewrite (Hid _ _ _ Ha).
  - split; try done; [intros th me pc Ha; by rewrite (Hid _ _ _ Ha)|intros th me pc Ha; by rewrite (Hid _ _ _ Ha)|lia].
  - intros th me pc Ha. by rewrite (Hid _ _ _ Ha).
Qed.

Lemma readers_run_inv acts : ∀ k W0 W W', 0 ≤ k → k + Z.of_nat (length acts) < 2 ^ 32 → durable_txn (shm W0) + 2 ^ 32 < TXN_NONE →
  inv k W0 W → run acts W = Some W' → inv (k + Z.of_nat (length acts)) W0 W'.
Proof.
  induction acts as [|a acts IH]; intros k W0 W W' Hk Hlen Hd Hi Hr; cbn [run length] in *.
  { injection Hr as <-. by rewrite Z.add_0_r. }
  apply bind_Some in Hr as (W1&Hs&Hr). destruct Hi as ((gens&obs&I1)&I2&I3).
  replace (k + Z.of_nat (S (length acts))) with (k + 1 + Z.of_nat (length acts)) by lia.
  eapply IH; [lia|lia|done| |done]. split_and!.
  - eapply slots_step; [|done..]. lia.
  - rewrite Z.add_assoc. eapply meta_step; [done| |done]. apply (si_unborn _ _ _ _ I1).
  - eapply pin_step_inv; [done..|lia|done|done].
Qed.
