(* ===== verification/PrivatePins.v ===== *)
(** Pins of a private in-memory database: the process-local pin array and the
    exclusive in-place writer of [shm/readers.rs], as threads of one process
    with one load, store, swap or compare-exchange per step. A thread reads or
    writes here, not one inside the other, so [EXCLUSIVE_DEPTH] is zero for
    every reader. *)

From S2P Require Import Prelude.
Local Open Scope Z_scope.

Definition PRIV_PIN_FREE : Z := 2 ^ 64 - 1.
Definition PRIV_PIN_SLOTS : nat := 64.

(** The pins, the flag of the exclusive writer, the published transaction
    ([newest_meta] of a private database), and the cached bound. *)
Record Priv := MkPriv { priv_pins : list Z; exclusive_write : Z; newest : Z; priv_cache : Z }.

Inductive PPc :=
| PIdle
| PWait (spins : Z)
| PMeta (spins : Z)
| PCas (spins t : Z) (i : nat)
| PCheck (spins t : Z) (i : nat)
| PDrop (spins : Z) (i : nat)
| PPinned (t : Z) (i : nat)
| XMeta
| XFlag (cur : Z)
| XScan (cur : Z) (i : nat)
| XClear (cur : Z)
| XReady (cur : Z) (in_place recomputed : bool)
| XOldest (cur : Z) (in_place : bool) (i : nat) (oldest : Z)
| XEnd (in_place : bool)
| XUnlock.

Inductive PChoice := PGo | PRead | PWrite | POldest | PCommit | PAbort.

Record PWorld := MkPWorld { priv : Priv; pthreads : list PPc; plock : option nat }.

Inductive PEffect := PNone | PSetPin (i : nat) (v : Z) | PSetFlag (v : Z) | PSetNewest (t : Z) | PMaxCache (t : Z) | PSetLock (l : option nat).

Definition papply (e : PEffect) (W : PWorld) : PWorld :=
  let s := priv W in
  let with_priv s := MkPWorld s (pthreads W) (plock W) in
  match e with
  | PNone => W
  | PSetPin i v => with_priv (MkPriv (<[i := v]> (priv_pins s)) (exclusive_write s) (newest s) (priv_cache s))
  | PSetFlag v => with_priv (MkPriv (priv_pins s) v (newest s) (priv_cache s))
  | PSetNewest t => with_priv (MkPriv (priv_pins s) (exclusive_write s) t (priv_cache s))
  | PMaxCache t => with_priv (MkPriv (priv_pins s) (exclusive_write s) (newest s) (Z.max (priv_cache s) t))
  | PSetLock l => MkPWorld s (pthreads W) l
  end.

Definition pin_at (W : PWorld) (i : nat) : Z := default PRIV_PIN_FREE (priv_pins (priv W) !! i).

(** No slot was free, or the pin was dropped: give up or go round again. *)
Definition pin_retry (spins : Z) : PPc := if 256 <? spins then PIdle else PWait (spins + 1).

(** [claim_and_pin_private], and the release of a pin. *)
Definition claim_and_pin_private_step (W : PWorld) (pc : PPc) : option (PPc * PEffect) :=
  match pc with
  | PWait spins =>
      Some (if exclusive_write (priv W) =? 0 then PMeta spins
            else PWait (if 4000000 <? spins + 1 then 0 else spins + 1), PNone)
  | PMeta spins => Some (PCas spins (newest (priv W)) 0, PNone)
  | PCas spins t i =>
      Some (if bool_decide (i < PRIV_PIN_SLOTS)%nat
            then if pin_at W i =? PRIV_PIN_FREE then (PCheck spins t i, PSetPin i t) else (PCas spins t (S i), PNone)
            else (pin_retry spins, PNone))
  | PCheck spins t i => Some (if exclusive_write (priv W) =? 0 then PPinned t i else PDrop spins i, PNone)
  | PDrop spins i => Some (pin_retry spins, PSetPin i PRIV_PIN_FREE)
  | PPinned _ i => Some (PIdle, PSetPin i PRIV_PIN_FREE)
  | _ => None
  end.

(** A writer: [try_begin_exclusive_write], the bound, the commit, and
    [end_exclusive_write] if it was taken. *)
Definition private_writer_step (W : PWorld) (c : PChoice) (pc : PPc) : option (PPc * PEffect) :=
  match pc, c with
  | XMeta, _ => Some (XFlag (newest (priv W)), PNone)
  | XFlag cur, _ => Some (XScan cur 0, PSetFlag 1)
  | XScan cur i, _ =>
      Some (if bool_decide (i < PRIV_PIN_SLOTS)%nat
            then (if pin_at W i =? PRIV_PIN_FREE then XScan cur (S i) else XClear cur)
            else XReady cur true false, PNone)
  | XClear cur, _ => Some (XReady cur false false, PSetFlag 0)
  | XReady cur ip false, POldest => Some (XOldest cur ip 0 cur, PNone)
  | XReady cur ip _, PCommit => Some (XEnd ip, PSetNewest (cur + 1))
  | XReady cur ip _, PAbort => Some (XEnd ip, PNone)
  | XOldest cur ip i oldest, _ =>
      Some (if bool_decide (i < PRIV_PIN_SLOTS)%nat
            then (XOldest cur ip (S i) (if pin_at W i =? PRIV_PIN_FREE then oldest else Z.min oldest (pin_at W i)), PNone)
            else (XReady cur ip true, PMaxCache oldest))
  | XEnd ip, _ => Some (XUnlock, if (ip : bool) then PSetFlag 0 else PNone)
  | XUnlock, _ => Some (PIdle, PSetLock None)
  | _, _ => None
  end.

Definition pthread_step (W : PWorld) (th : nat) (c : PChoice) (pc : PPc) : option (PPc * PEffect) :=
  match pc with
  | PIdle =>
      match c, plock W with
      | PRead, _ => Some (PWait 0, PNone)
      | PWrite, None => Some (XMeta, PSetLock (Some th))
      | _, _ => None
      end
  | PWait _ | PMeta _ | PCas _ _ _ | PCheck _ _ _ | PDrop _ _ | PPinned _ _ => claim_and_pin_private_step W pc
  | _ => private_writer_step W c pc
  end.

Definition pstep (th : nat) (c : PChoice) (W : PWorld) : option PWorld :=
  pc ← pthreads W !! th;
  '(pc', e) ← pthread_step W th c pc;
  let W' := papply e W in
  Some (MkPWorld (priv W') (<[th := pc']> (pthreads W')) (plock W')).

Fixpoint prun (acts : list (nat * PChoice)) (W : PWorld) : option PWorld :=
  match acts with
  | [] => Some W
  | (th, c) :: acts => W ← pstep th c W; prun acts W
  end.

(** * Pins and the exclusive writer *)

Definition is_xwriter (pc : PPc) : bool :=
  match pc with
  | XMeta | XFlag _ | XScan _ _ | XClear _ | XReady _ _ _ | XOldest _ _ _ _ | XEnd _ | XUnlock => true
  | _ => false
  end.

(** A writer that has raised the flag, and one that writes in place. *)
Definition flagged (pc : PPc) : bool :=
  match pc with XScan _ _ | XClear _ => true | XReady _ ip _ | XOldest _ ip _ _ | XEnd ip => ip | _ => false end.
Definition in_place (pc : PPc) : bool :=
  match pc with XReady _ ip _ | XOldest _ ip _ _ | XEnd ip => ip | _ => false end.

(** The slot of the array a thread has filled, and with what. *)
Definition slot_of (pc : PPc) : option nat :=
  match pc with PCheck _ _ i | PDrop _ i | PPinned _ i => Some i | _ => None end.
Definition pin_of (pc : PPc) : option (nat * Z) :=
  match pc with PCheck _ t i | PPinned t i => Some (i, t) | _ => None end.

(** The transaction a thread has read. *)
Definition txn_of (pc : PPc) : option Z :=
  match pc with
  | PCas _ t _ | PCheck _ t _ | PPinned t _ => Some t
  | XFlag t | XScan t _ | XClear t | XReady t _ _ | XOldest t _ _ _ => Some t
  | _ => None
  end.

Record solo (b : Z) (W : PWorld) (th : nat) (pc : PPc) : Prop := {
  sl_lock : is_xwriter pc = true → plock W = Some th;
  sl_flag : flagged pc = true → exclusive_write (priv W) ≠ 0;
  sl_txn t : txn_of pc = Some t → t ≤ b;
  sl_slot i : slot_of pc = Some i → (i < PRIV_PIN_SLOTS)%nat ∧ pin_at W i ≠ PRIV_PIN_FREE;
  sl_pin i t : pin_of pc = Some (i, t) → pin_at W i = t;
}.

(** Two threads: one writer at most, a slot each, a scan that has not gone past
    a pin, and nobody who writes in place while a pin is held. *)
Record pair (pc pc' : PPc) : Prop := {
  pr_writer : is_xwriter pc = true → is_xwriter pc' = false;
  pr_slot i : slot_of pc = Some i → slot_of pc' ≠ Some i;
  pr_scan t i cur j : pc = PPinned t i → pc' = XScan cur j → (j ≤ i)%nat;
  pr_excl t i : pc = PPinned t i → in_place pc' = false;
}.

Record priv_inv (b : Z) (W : PWorld) : Prop := {
  pv_len : length (priv_pins (priv W)) = PRIV_PIN_SLOTS;
  pv_newest : newest (priv W) ≤ b;
  pv_solo th pc : pthreads W !! th = Some pc → solo b W th pc;
  pv_pair th th' pc pc' : th ≠ th' → pthreads W !! th = Some pc → pthreads W !! th' = Some pc' → pair pc pc';
}.

Lemma flagged_writer pc : flagged pc = true → is_xwriter pc = true.
Proof. by destruct pc. Qed.
Lemma in_place_flagged pc : in_place pc = true → flagged pc = true.
Proof. by destruct pc. Qed.

Lemma pin_at_set W i v j : length (priv_pins (priv W)) = PRIV_PIN_SLOTS → (i < PRIV_PIN_SLOTS)%nat →
  pin_at (papply (PSetPin i v) W) j = if decide (j = i) then v else pin_at W j.
Proof.
  intros Hl Hi. unfold pin_at. cbn. case_decide as Hd; [subst j; by rewrite list_lookup_insert_eq by lia|by rewrite list_lookup_insert_ne].
Qed.

Lemma moved_lookup {A} (l : list A) th th' x x' y : l !! th = Some x → <[th := x']> l !! th' = Some y →
  th' = th ∧ y = x' ∨ th' ≠ th ∧ l !! th' = Some y.
Proof.
  intros Hx. destruct (decide (th' = th)) as [->|Hne].
  - rewrite list_lookup_insert_eq by (by eapply lookup_lt_Some). intros [= <-]. by left.
  - rewrite list_lookup_insert_ne by done. by right.
Qed.

(** A move preserves the invariant when it does so for the thread, for every
    other one, and for the pairs. *)
Lemma priv_move b W th pc pc' e c : priv_inv b W → pthreads W !! th = Some pc → pthread_step W th c pc = Some (pc', e) →
  let W' := MkPWorld (priv (papply e W)) (<[th := pc']> (pthreads (papply e W))) (plock (papply e W)) in
  length (priv_pins (priv (papply e W))) = PRIV_PIN_SLOTS → newest (priv (papply e W)) ≤ b + 1 →
  solo (b + 1) (papply e W) th pc' →
  (∀ th' pc'', th' ≠ th → solo b W th' pc'' → pair pc pc'' → pair pc'' pc →
     solo (b + 1) (papply e W) th' pc'' ∧ pair pc' pc'' ∧ pair pc'' pc') →
  priv_inv (b + 1) W'.
Proof.
  intros I Ht Hs W' Hl Hn Hme Hoth. assert (pthreads (papply e W) = pthreads W) as Hpt by (by destruct e).
  assert (∀ th' pc'', pthreads W' !! th' = Some pc'' → th' = th ∧ pc'' = pc' ∨ th' ≠ th ∧ pthreads W !! th' = Some pc'') as Hcase.
  { intros th' pc''. cbn. rewrite Hpt. by eapply moved_lookup. }
  assert (∀ th' pc'', th' ≠ th → pthreads W !! th' = Some pc'' →
     solo (b + 1) (papply e W) th' pc'' ∧ pair pc' pc'' ∧ pair pc'' pc') as Ho.
  { intros th' pc'' Hne Hp. apply Hoth; [done|by apply (pv_solo _ _ I)|by eapply (pv_pair _ _ I th th'); [congruence|..]|by eapply (pv_pair _ _ I th' th)]. }
  split; [done|done| |].
  - intros th' pc'' Hp. assert (solo (b + 1) (papply e W) th' pc'') as [S1 S2 S3 S4 S5].
    { destruct (Hcase _ _ Hp) as [[-> ->]|[Hne Hp']]; [done|]. by apply Ho. }
    by split.
  - intros th1 th2 pc1 pc2 Hne H1 H2.
    destruct (Hcase _ _ H1) as [[-> ->]|[N1 H1']], (Hcase _ _ H2) as [[-> ->]|[N2 H2']]; [done|by apply (Ho th2)|by apply (Ho th1)|by eapply (pv_pair _ _ I th1 th2)].
Qed.

(** Effects other than on the pins, the flag and the lock. *)
Definition calm (e : PEffect) : bool := match e with PNone | PSetNewest _ | PMaxCache _ => true | _ => false end.

Lemma solo_calm b W e th pc : calm e = true → solo b W th pc → solo (b + 1) (papply e W) th pc.
Proof. intros He [S1 S2 S3 S4 S5]. destruct e; try done; split; cbn; eauto; intros x Hx; specialize (S3 x Hx); lia. Qed.

(** A thread that gives up nothing and becomes nothing new. *)
Record same_role (pc pc' : PPc) : Prop := {
  rl_writer : is_xwriter pc' = true → is_xwriter pc = true;
  rl_slot i : slot_of pc' = Some i → slot_of pc = Some i;
  rl_pin : ∀ t i, pc' ≠ PPinned t i;
  rl_scan : ∀ cur j, pc' ≠ XScan cur j;
  rl_place : in_place pc' = true → in_place pc = true;
}.

Lemma pair_role pc pc' pc'' : same_role pc pc' → pair pc pc'' → pair pc'' pc → pair pc' pc'' ∧ pair pc'' pc'.
Proof.
  intros [R1 R2 R3 R4 R5] [A1 A2 A3 A4] [B1 B2 B3 B4]. split; split.
  - auto.
  - auto.
  - intros t i cur j Hp. by destruct (R3 t i).
  - intros t i Hp. by destruct (R3 t i).
  - intros Hw. destruct (is_xwriter pc') eqn:Hp; [|done]. rewrite A1 in Hw; [done|auto].
  - intros i Hi Hp. by eapply B2; [|apply R2].
  - intros t i cur j _ Hp. by destruct (R4 cur j).
  - intros t i ->. destruct (in_place pc') eqn:Hp; [|done]. rewrite (B4 t i eq_refl) in R5. by specialize (R5 eq_refl).
Qed.

Section PrivStep.
Context (b : Z) (W : PWorld) (th : nat) (pc pc' : PPc) (e : PEffect) (c : PChoice).
Context (Hb : b + 1 < PRIV_PIN_FREE) (I : priv_inv b W) (Hth : pthreads W !! th = Some pc) (Hst : pthread_step W th c pc = Some (pc', e)).

Abbreviation next := (MkPWorld (priv (papply e W)) (<[th := pc']> (pthreads (papply e W))) (plock (papply e W))).

(** A move that changes no role and touches neither pins, flag nor lock. *)
Lemma priv_calm : calm e = true → newest (priv (papply e W)) ≤ b + 1 → same_role pc pc' →
  (flagged pc' = true → flagged pc = true) → (∀ t, txn_of pc' = Some t → t ≤ b + 1) → (∀ i t, pin_of pc' = Some (i, t) → pin_of pc = Some (i, t)) →
  priv_inv (b + 1) next.
Proof.
  intros He Hn Hr Hf Ht Hp. pose proof Hr as [R1 R2 _ _ _]. pose proof (pv_solo _ _ I _ _ Hth) as Hs.
  pose proof (solo_calm _ _ _ _ _ He Hs) as [S1 S2 S3 S4 S5].
  eapply priv_move; [done..|by destruct e; try done; apply (pv_len _ _ I)|done| |].
  - split; eauto.
  - intros th' pc'' Hne Hs' P1 P2. split; [by apply solo_calm|]. by eapply pair_role.
Qed.

(** A store into the pin array at a slot no other thread uses. *)
Lemma priv_set_pin i v : e = PSetPin i v → (i < PRIV_PIN_SLOTS)%nat → same_role pc pc' ∨ (slot_of pc' = Some i ∧ is_xwriter pc' = false ∧ ∀ t i, pc' ≠ PPinned t i) →
  is_xwriter pc' = false → (∀ t, txn_of pc' = Some t → t ≤ b) →
  (∀ th' pc'', th' ≠ th → pthreads W !! th' = Some pc'' → slot_of pc'' ≠ Some i) →
  (∀ j, slot_of pc' = Some j → j = i ∧ v ≠ PRIV_PIN_FREE) → (∀ j t, pin_of pc' = Some (j, t) → j = i ∧ t = v) →
  priv_inv (b + 1) next.
Proof.
  intros He Hi Hrole Hx Htx Hfree Hslot Hpin. pose proof (pv_len _ _ I) as Hl.
  assert (∀ j, pin_at (papply e W) j = if decide (j = i) then v else pin_at W j) as Hat by (intros j; rewrite He; by apply pin_at_set).
  assert (exclusive_write (priv (papply e W)) = exclusive_write (priv W) ∧ plock (papply e W) = plock W ∧ newest (priv (papply e W)) = newest (priv W)) as (E1&E2&E3) by (by rewrite He).
  split.
  - rewrite He. cbn. by rewrite length_insert.
  - cbn. rewrite E3. pose proof (pv_newest _ _ I). lia.
  - intros th' pc'' Hp. cbn in Hp. assert (pthreads (papply e W) = pthreads W) as Hpt by (by rewrite He). rewrite Hpt in Hp.
    destruct (moved_lookup _ _ _ _ _ _ Hth Hp) as [[-> ->]|[Hne Hp']]; clear Hp.
    + split; cbn.
      * congruence.
      * intros Hf. apply flagged_writer in Hf. congruence.
      * intros t Ht. specialize (Htx t Ht). lia.
      * intros j Hj. destruct (Hslot j Hj) as [-> Hv]. change (pin_at next i) with (pin_at (papply e W) i). rewrite Hat, decide_True by done. done.
      * intros j t Hj. destruct (Hpin j t Hj) as [-> ->]. change (pin_at next i) with (pin_at (papply e W) i). by rewrite Hat, decide_True.
    + destruct (pv_solo _ _ I _ _ Hp') as [S1 S2 S3 S4 S5]. pose proof (Hfree _ _ Hne Hp') as Hns. split; cbn.
      * by rewrite E2.
      * by rewrite E1.
      * intros t Ht. specialize (S3 t Ht). lia.
      * intros j Hj. change (pin_at next j) with (pin_at (papply e W) j). rewrite Hat, decide_False by congruence. by apply S4.
      * intros j t Hj. change (pin_at next j) with (pin_at (papply e W) j). rewrite Hat, decide_False; [by apply S5|]. intros ->. apply Hns. by destruct pc''; simplify_eq/=.
  - intros th1 th2 pc1 pc2 Hne H1 H2. cbn in H1, H2. assert (pthreads (papply e W) = pthreads W) as Hpt by (by rewrite He). rewrite Hpt in H1, H2.
    assert (∀ th' pc'', th' ≠ th → pthreads W !! th' = Some pc'' → pair pc' pc'' ∧ pair pc'' pc') as Hpair.
    { intros th' pc'' N Hp. pose proof (pv_pair _ _ I th th' pc pc'' ltac:(congruence) Hth Hp) as P1. pose proof (pv_pair _ _ I th' th pc'' pc N Hp Hth) as P2.
      destruct Hrole as [Hr|(Hs&_&Hnp)]; [by eapply pair_role|]. pose proof (Hfree _ _ N Hp) as Hns.
      assert (in_place pc' = false) as Hip by (destruct (in_place pc') eqn:Hq; [apply in_place_flagged, flagged_writer in Hq; congruence|done]).
      split; split.
      - congruence.
      - intros j Hj. rewrite Hs in Hj. injection Hj as <-. done.
      - intros t j cur k Hq. by destruct (Hnp t j).
      - intros t j Hq. by destruct (Hnp t j).
      - done.
      - intros j Hj Hj'. rewrite Hs in Hj'. injection Hj' as <-. done.
      - intros t j cur k _ Hq. by rewrite Hq in Hs.
      - done. }
    destruct (moved_lookup _ _ _ _ _ _ Hth H1) as [[-> ->]|[N1 H1']], (moved_lookup _ _ _ _ _ _ Hth H2) as [[-> ->]|[N2 H2']];
      [done|by apply (Hpair th2)|by apply (Hpair th1)|by eapply (pv_pair _ _ I th1 th2)].
Qed.

(** A move of the writer: to the flag or the lock, or from one phase to the
    next. *)
Lemma priv_writer : (is_xwriter pc = true ∨ pc = PIdle ∧ plock W = None) → length (priv_pins (priv (papply e W))) = PRIV_PIN_SLOTS →
  priv_pins (priv (papply e W)) = priv_pins (priv W) → newest (priv (papply e W)) ≤ b + 1 →
  (is_xwriter pc' = true → plock (papply e W) = Some th) →
  (flagged pc' = true → exclusive_write (priv (papply e W)) ≠ 0) → (∀ t, txn_of pc' = Some t → t ≤ b + 1) → slot_of pc' = None → pin_of pc' = None →
  (∀ cur j th' t i, pc' = XScan cur j → pthreads W !! th' = Some (PPinned t i) → th' ≠ th → (j ≤ i)%nat) →
  (∀ th' t i, in_place pc' = true → pthreads W !! th' = Some (PPinned t i) → th' ≠ th → False) →
  priv_inv (b + 1) next.
Proof.
  intros Hpc Hl Hpins Hn Hlk Hf Ht Hs Hp Hscan Hplace. pose proof (pv_solo _ _ I _ _ Hth) as Hme.
  assert (∀ th' pc'', th' ≠ th → pthreads W !! th' = Some pc'' → is_xwriter pc'' = false) as Halone.
  { intros th' pc'' N Hq. destruct (is_xwriter pc'') eqn:Hw; [|done]. pose proof (sl_lock _ _ _ _ (pv_solo _ _ I _ _ Hq) Hw) as Hl'.
    destruct Hpc as [Hw'|[_ Hnone]]; [|congruence]. pose proof (sl_lock _ _ _ _ Hme Hw'). congruence. }
  assert (∀ j, pin_at (papply e W) j = pin_at W j) as Hat by (intros j; unfold pin_at; by rewrite Hpins).
  assert (pthreads (papply e W) = pthreads W) as Hpt by (by destruct e).
  assert (∀ th' pc'', th' ≠ th → pthreads W !! th' = Some pc'' → pair pc' pc'' ∧ pair pc'' pc') as Hpair.
  { intros th' pc'' N Hq. pose proof (Halone _ _ N Hq) as Hnw. split; split.
    - done.
    - by rewrite Hs.
    - intros t i cur j Hx. by rewrite Hx in Hs.
    - intros t i Hx. by rewrite Hx in Hs.
    - congruence.
    - intros i _. by rewrite Hs.
    - intros t i cur j -> ->. by eapply Hscan.
    - intros t i ->. destruct (in_place pc') eqn:Hip; [|done]. by destruct (Hplace th' t i). }
  split; [done|done| |].
  - intros th' pc'' Hq. cbn in Hq. rewrite Hpt in Hq. destruct (moved_lookup _ _ _ _ _ _ Hth Hq) as [[-> ->]|[N Hq']].
    + split; cbn; [done|done|done|by rewrite Hs|by rewrite Hp].
    + destruct (pv_solo _ _ I _ _ Hq') as [S1 S2 S3 S4 S5]. pose proof (Halone _ _ N Hq') as Hnw. split.
      * congruence.
      * intros Hfl. apply flagged_writer in Hfl. congruence.
      * intros t Htt. specialize (S3 t Htt). lia.
      * intros j Hj. change (pin_at next j) with (pin_at (papply e W) j). rewrite Hat. by apply S4.
      * intros j t Hj. change (pin_at next j) with (pin_at (papply e W) j). rewrite Hat. by apply S5.
  - intros th1 th2 pc1 pc2 Hne H1 H2. cbn in H1, H2. rewrite Hpt in H1, H2.
    destruct (moved_lookup _ _ _ _ _ _ Hth H1) as [[-> ->]|[N1 H1']], (moved_lookup _ _ _ _ _ _ Hth H2) as [[-> ->]|[N2 H2']];
      [done|by apply (Hpair th2)|by apply (Hpair th1)|by eapply (pv_pair _ _ I th1 th2)].
Qed.
End PrivStep.

Lemma pin_retry_role pc spins : same_role pc (pin_retry spins) ∧ is_xwriter (pin_retry spins) = false ∧ slot_of (pin_retry spins) = None ∧
  pin_of (pin_retry spins) = None ∧ txn_of (pin_retry spins) = None ∧ flagged (pin_retry spins) = false.
Proof. unfold pin_retry. case_match; by repeat split. Qed.

Lemma some_ppair {A B} (a c : A) (b d : B) : Some (a, b) = Some (c, d) → c = a ∧ d = b.
Proof. by intros [= -> ->]. Qed.

(** The slot a thread fills was free, so nobody else's. *)
Lemma free_slot b W th' pc'' i : priv_inv b W → pthreads W !! th' = Some pc'' → pin_at W i = PRIV_PIN_FREE → slot_of pc'' ≠ Some i.
Proof. intros I Hp H0 Hs. by destruct (sl_slot _ _ _ _ (pv_solo _ _ I _ _ Hp) i Hs). Qed.

Section Reader.
Context (b : Z) (W : PWorld) (Hb : b + 1 < PRIV_PIN_FREE) (I : priv_inv b W).
Abbreviation next th pc' e := (MkPWorld (priv (papply e W)) (<[th := pc']> (pthreads (papply e W))) (plock (papply e W))).

Lemma priv_pin_accepted th c spins t i : pthreads W !! th = Some (PCheck spins t i) → exclusive_write (priv W) = 0 →
  pthread_step W th c (PCheck spins t i) = Some (PPinned t i, PNone) → priv_inv (b + 1) (next th (PPinned t i) PNone).
Proof.
  intros Hth H0 Hst. pose proof (pv_newest _ _ I). destruct (pv_solo _ _ I _ _ Hth) as [_ _ S3 S4 S5].
  eapply priv_move; [done..|apply (pv_len _ _ I)|cbn; lia| |].
  - split; try done. intros t' [= <-]. specialize (S3 t eq_refl). lia.
  - intros th' pc'' N Hs [A1 A2 A3 A4] [B1 B2 B3 B4]. split; [by apply (solo_calm _ _ PNone)|].
    assert (flagged pc'' = false) as Hf by (destruct (flagged pc'') eqn:Hf; [by destruct (sl_flag _ _ _ _ Hs Hf)|done]).
    split; split; try done.
    + intros t0 i0 cur j _ ->. done.
    + intros t0 i0 _. destruct (in_place pc'') eqn:Hp; [|done]. apply in_place_flagged in Hp. congruence.
Qed.

Lemma priv_reader_step th c pc pc' e : pthreads W !! th = Some pc → claim_and_pin_private_step W pc = Some (pc', e) →
  pthread_step W th c pc = Some (pc', e) → priv_inv (b + 1) (next th pc' e).
Proof.
  intros Hth Hs Hst. pose proof (pv_newest _ _ I) as Hnew. pose proof (pv_solo _ _ I _ _ Hth) as Hme.
  pose proof (priv_calm b W th pc pc' e c I Hth Hst) as Hcalm.
  destruct pc as [|spins|spins|spins t i|spins t i|spins i|t i| | | | | | | |]; try done; cbn [claim_and_pin_private_step] in Hs.
  - apply some_ppair in Hs as [-> ->]. apply Hcalm; try done; repeat case_match; done || cbn; try lia.
  - apply some_ppair in Hs as [-> ->]. apply Hcalm; try done; [cbn; lia|]. intros t [= <-]. lia.
  - pose proof (sl_txn _ _ _ _ Hme t eq_refl) as Ht. case_bool_decide as Hi.
    + destruct (Z.eqb_spec (pin_at W i) PRIV_PIN_FREE) as [H0|H0]; apply some_ppair in Hs as [-> ->].
      * eapply priv_set_pin; try done.
        -- by right.
        -- by intros t' [= <-].
        -- intros th' pc'' _ Hp. by eapply free_slot.
        -- intros j [= <-]. split; [done|]. lia.
        -- by intros j t' [= <- <-].
      * apply Hcalm; try done; [cbn; lia|]. intros t' [= <-]. lia.
    + apply some_ppair in Hs as [-> ->]. destruct (pin_retry_role (PCas spins t i) spins) as (R1&R2&R3&R4&R5&R6).
      apply Hcalm; try done; [cbn; lia|congruence|congruence|congruence].
  - apply some_ppair in Hs as [Hpc He]. destruct (Z.eqb_spec (exclusive_write (priv W)) 0) as [H0|H0]; subst pc' e.
    + by eapply priv_pin_accepted.
    + apply Hcalm; try done; cbn; lia.
  - apply some_ppair in Hs as [-> ->]. destruct (pin_retry_role (PDrop spins i) spins) as (R1&R2&R3&R4&R5&R6).
    destruct (sl_slot _ _ _ _ Hme i eq_refl) as [Hi _].
    eapply priv_set_pin; try done; [by left|congruence| |congruence|congruence].
    intros th' pc'' N Hp. by apply (pr_slot _ _ (pv_pair _ _ I th th' _ pc'' ltac:(congruence) Hth Hp)).
  - apply some_ppair in Hs as [-> ->]. destruct (sl_slot _ _ _ _ Hme i eq_refl) as [Hi _].
    eapply priv_set_pin; try done; [by left|].
    intros th' pc'' N Hp. by apply (pr_slot _ _ (pv_pair _ _ I th th' _ pc'' ltac:(congruence) Hth Hp)).
Qed.

Lemma priv_writer_step th c pc pc' e : pthreads W !! th = Some pc → private_writer_step W c pc = Some (pc', e) →
  pthread_step W th c pc = Some (pc', e) → is_xwriter pc = true → priv_inv (b + 1) (next th pc' e).
Proof.
  intros Hth Hs Hst Hw. pose proof (pv_newest _ _ I) as Hnew. pose proof (pv_solo _ _ I _ _ Hth) as Hme. pose proof (pv_len _ _ I) as Hlen.
  pose proof (sl_lock _ _ _ _ Hme Hw) as Hlk. pose proof (sl_txn _ _ _ _ Hme) as Htx. pose proof (sl_flag _ _ _ _ Hme) as Hfl.
  assert (∀ th' t i cur j, pthreads W !! th' = Some (PPinned t i) → th' ≠ th → pc = XScan cur j → (j ≤ i < PRIV_PIN_SLOTS)%nat ∧ pin_at W i ≠ PRIV_PIN_FREE) as Hscan.
  { intros th' t i cur j Hp N ->. pose proof (pv_pair _ _ I th' th _ _ N Hp Hth) as P. destruct (sl_slot _ _ _ _ (pv_solo _ _ I _ _ Hp) i eq_refl).
    split; [|done]. split; [by eapply (pr_scan _ _ P)|done]. }
  assert (∀ th' t i, pthreads W !! th' = Some (PPinned t i) → th' ≠ th → in_place pc = false) as Hex.
  { intros th' t i Hp N. by eapply (pr_excl _ _ (pv_pair _ _ I th' th _ _ N Hp Hth)). }
  pose proof (priv_writer b W th pc pc' e c I Hth Hst (or_introl Hw)) as Hgo.
  assert (∀ t, txn_of pc = Some t → t ≤ b + 1) as Htx1 by (intros t Ht; specialize (Htx t Ht); lia).
  destruct pc as [| | | | | | | |cur|cur i|cur|cur ip rec|cur ip i oldest|ip|]; try done; cbn [private_writer_step] in Hs;
    try specialize (Htx cur eq_refl).
  - apply some_ppair in Hs as [-> ->]. apply Hgo; try done; [cbn; lia|]. intros t [= <-]. lia.
  - apply some_ppair in Hs as [-> ->]. apply Hgo; try done; [cbn; lia|]. intros cur' j th' t i [= <- <-]. lia.
  - apply some_ppair in Hs as [Hpc ->]. case_bool_decide as Hi; [destruct (Z.eqb_spec (pin_at W i) PRIV_PIN_FREE) as [H0|H0]|]; subst pc'; apply Hgo; try done; try (cbn; lia).
    + intros cur' j th' t k [= <- <-] Hp N. destruct (Hscan _ _ _ _ _ Hp N eq_refl) as [[Hle Hk] Hnf]. destruct (decide (i = k)) as [->|]; [done|lia].
    + intros th' t k _ Hp N. destruct (Hscan _ _ _ _ _ Hp N eq_refl) as [[Hle Hk] Hnf]. lia.
  - apply some_ppair in Hs as [-> ->]. apply Hgo; try done; cbn; lia.
  - destruct c, rec; try done; apply some_ppair in Hs as [-> ->]; apply Hgo; try done; try (cbn; lia);
      intros th' t k Hip Hp N; specialize (Hex _ _ _ Hp N); cbn in *; congruence.
  - case_bool_decide as Hi; apply some_ppair in Hs as [-> ->]; apply Hgo; try done; try (cbn; lia);
      intros th' t k Hip Hp N; specialize (Hex _ _ _ Hp N); cbn in *; congruence.
  - apply some_ppair in Hs as [-> ->]. destruct ip; apply Hgo; try done; cbn; lia.
  - apply some_ppair in Hs as [-> ->]. apply Hgo; try done; cbn; lia.
Qed.

Lemma priv_step th c W' : pstep th c W = Some W' → priv_inv (b + 1) W'.
Proof.
  unfold pstep. intros H. apply bind_Some in H as (pc&Hth&H). apply bind_Some in H as ([pc' e]&Hst&H). injection H as <-.
  pose proof (pv_newest _ _ I) as Hnew. destruct pc; try (by eapply priv_reader_step); try (by eapply priv_writer_step).
  cbn in Hst. destruct c, (plock W) eqn:Hl; try done; apply some_ppair in Hst as [-> ->].
  - eapply (priv_calm b W th PIdle _ _ PRead); try done; cbn; lia.
  - eapply (priv_calm b W th PIdle _ _ PRead); try done; cbn; lia.
  - eapply (priv_writer b W th PIdle XMeta _ PWrite); try done; try (cbn; by rewrite Hl); [by right|apply (pv_len _ _ I)|cbn; lia].
Qed.
End Reader.
