(* ===== verification/ReaderTheorems.v ===== *)
(** What the reader table promises readers, and where it does not keep the
    promise. *)

From S2P Require Import Prelude Readers ReadersSlots ReadersPins PrivatePins.
Local Open Scope Z_scope.

(** Two slots, a reader and a writer in two processes. *)
Definition two_procs : World :=
  MkWorld (MkShm [MkSlot 0 0 0; MkSlot 0 0 0] (Some 4) (Some 3) 4 4)
    [MkProc 10 100 Alive; MkProc 20 200 Alive] [(0%nat, Idle); (1%nat, Idle)] Free.

Lemma two_procs_ok : start_ok two_procs.
Proof.
  split; cbn.
  - lia.
  - intros [|[|p]] pr [= <-]; unfold good_pid; cbn; lia.
  - intros [|[|p]] [|[|q]] pr pr' [= <-] [= <-]; done.
  - intros [|[|th]] p pc [= _ <-]; done.
  - exists SideA. split; [done|]. intros x [= <-]. cbn. lia.
  - lia.
Qed.

Definition goes (th n : nat) : list Action := replicate n (Move th Go).
Definition begin_read (th : nat) : list Action := Move th (StartRead 0) :: goes th 8.
Definition begin_write (th : nat) : list Action := [Move th StartWrite; Move th Go].
Definition end_write (th : nat) : list Action := Move th DoCommit :: goes th 3.

(** C37. Readers are protected: in any run of fewer than [2^32] steps, whatever
    threads and processes do and wherever they die, a live reader that holds a
    pin still owns its slot with the transaction it pinned, no newer than the
    gate of its recheck; if the two are equal, no writer has a bound above it,
    so no page of its snapshot is reused; and they can only differ when a
    whole commit has become durable since the gate was loaded. *)
Theorem readers_protected W0 acts W th me idx w t g : start_ok W0 → durable_txn (shm W0) + 2 ^ 32 < TXN_NONE →
  Z.of_nat (length acts) < 2 ^ 32 → run acts W0 = Some W → athread W th me (Pinned idx w t g) →
  slot_word (shm W) idx = w ∧ slot_txn (shm W) idx = t ∧ pid_of w = pid me ∧
  (t = g → oldest_pinned_cache (shm W) ≤ t ∧ ∀ th' me' cur side j oldest, athread W th' me' (WScanWord cur side j oldest) →
     (idx < j)%nat → oldest ≤ t) ∧
  (t ≠ g → t < g < durable_txn (shm W)).
Proof.
  intros Hs Hd Hl Hr Ha. destruct (readers_run_inv acts 0 W0 W0 W) as ((gens&obs&I1)&I2&I3); [done|lia|done|by apply start_inv|done|].
  destruct (si_own _ _ _ _ I1 _ _ _ idx w Ha eq_refl) as [_ O2 O3 _ O5]. destruct (I3 _ _ _ Ha) as (_&P2&P3).
  split_and!; [done|by apply O5|done| |].
  - intros ->. destruct (P2 eq_refl) as [S1 S2]. split; [done|]. intros th' me' cur side j oldest Ha' Hj.
    eapply S2; [exact Ha'|]. cbn. by rewrite decide_True.
  - intros Hne. destruct P3 as [?|P3]; [done|lia].
Qed.

(** A reader that pins between two commits. *)
Definition quiet_read : list Action := begin_write 1 ++ end_write 1 ++ begin_read 0 ++ goes 0 4 ++ begin_write 1 ++ [Move 1 DoScan] ++ goes 1 4.

Lemma readers_protected_witness : ∃ W, run quiet_read two_procs = Some W ∧ oldest_pinned_cache (shm W) ≤ 5.
Proof.
  destruct (run quiet_read two_procs) as [W|] eqn:Hr; [|vm_compute in Hr; discriminate]. exists W. split; [reflexivity|].
  assert (threads W !! 0%nat = Some (0%nat, Pinned 0 (pack 10 1) 5 5) ∧ procs W !! 0%nat = Some (MkProc 10 100 Alive)) as [Ht Hp].
  { vm_compute in Hr. injection Hr as <-. split; vm_compute; reflexivity. }
  destruct (readers_protected two_procs quiet_read W 0 (MkProc 10 100 Alive) 0 (pack 10 1) 5 5 two_procs_ok) as (_&_&_&H&_).
  - vm_compute. reflexivity.
  - vm_compute. reflexivity.
  - exact Hr.
  - exists 0%nat. auto.
  - by apply H.
Defined.


(** * Private databases *)

Definition one_proc : PWorld := MkPWorld (MkPriv (replicate PRIV_PIN_SLOTS PRIV_PIN_FREE) 0 7 0) [PIdle; PIdle] None.

Lemma priv_start n s : length (priv_pins s) = PRIV_PIN_SLOTS → priv_inv (newest s) (MkPWorld s (replicate n PIdle) None).
Proof.
  intros Hl. split; cbn; [done|lia| |].
  - intros th pc [-> _]%lookup_replicate. by split.
  - intros th th' pc pc' _ [-> _]%lookup_replicate [-> _]%lookup_replicate. by split.
Qed.

Lemma prun_inv acts : ∀ b W W', b + Z.of_nat (length acts) < PRIV_PIN_FREE → priv_inv b W → prun acts W = Some W' →
  priv_inv (b + Z.of_nat (length acts)) W'.
Proof.
  induction acts as [|[th c] acts IH]; intros b W W' Hb I Hr; cbn [prun length] in *.
  { injection Hr as <-. by rewrite Z.add_0_r. }
  apply bind_Some in Hr as (W1&Hs&Hr). replace (b + Z.of_nat (S (length acts))) with (b + 1 + Z.of_nat (length acts)) by lia.
  eapply IH; [lia| |done]. by eapply priv_step; [lia|..].
Qed.

(** C39. A private database: whatever the threads of the process do, no thread
    holds a pin while another one writes in place, every pin held is in the
    array, and no two threads share a slot of it. *)
Theorem no_pin_while_in_place n s acts W th th' t i pc' : length (priv_pins s) = PRIV_PIN_SLOTS →
  newest s + Z.of_nat (length acts) < PRIV_PIN_FREE → prun acts (MkPWorld s (replicate n PIdle) None) = Some W →
  pthreads W !! th = Some (PPinned t i) → pthreads W !! th' = Some pc' → th ≠ th' →
  in_place pc' = false ∧ pin_at W i = t ∧ slot_of pc' ≠ Some i.
Proof.
  intros Hl Hb Hr Ht Ht' Hne. destruct (prun_inv acts _ _ _ Hb (priv_start n s Hl) Hr) as [_ _ Hs Hp].
  pose proof (Hp _ _ _ _ Hne Ht Ht') as [_ P2 _ P4]. split_and!; [by eapply P4|by apply (Hs _ _ Ht)|by apply P2].
Qed.

Lemma no_pin_while_in_place_witness : ∃ W, prun (replicate 1 (0%nat, PRead) ++ replicate 4 (0%nat, PGo) ++
    [(1%nat, PWrite)] ++ replicate 4 (1%nat, PGo)) one_proc = Some W ∧ pin_at W 0 = 7.
Proof.
  set (acts := replicate 1 (0%nat, PRead) ++ replicate 4 (0%nat, PGo) ++ [(1%nat, PWrite)] ++ replicate 4 (1%nat, PGo)).
  destruct (prun acts one_proc) as [W|] eqn:Hr; [|vm_compute in Hr; discriminate]. exists W. split; [reflexivity|].
  destruct (no_pin_while_in_place 2 (priv one_proc) acts W 0 1 7 0 (XReady 7 false false)) as (_&H&_).
  - vm_compute. reflexivity.
  - vm_compute. reflexivity.
  - exact Hr.
  - vm_compute in Hr. injection Hr as <-. vm_compute. reflexivity.
  - vm_compute in Hr. injection Hr as <-. vm_compute. reflexivity.
  - lia.
  - exact H.
Defined.

(** A private pin can be stale from the start: the thread reads the newest
    transaction, a writer begins, finds no pin, changes pages in place, commits
    and ends, and then the thread pins the transaction it read and is let
    through. With a second writer that computed its bound meanwhile, the bound
    is above the pin. *)
Theorem private_pin_stale :
  let read := [(0%nat, PRead); (0%nat, PGo); (0%nat, PGo)] in
  let write := [(1%nat, PWrite)] ++ replicate 67 (1%nat, PGo) in
  let accept := [(0%nat, PGo); (0%nat, PGo)] in
  (∃ W W', prun (read ++ write) one_proc = Some W ∧ pthreads W !! 1%nat = Some (XReady 7 true false) ∧
    prun ((1%nat, PCommit) :: replicate 2 (1%nat, PGo) ++ accept) W = Some W' ∧
    pthreads W' !! 0%nat = Some (PPinned 7 0) ∧ newest (priv W') = 8) ∧
  (∃ W, prun (read ++ write ++ (1%nat, PCommit) :: replicate 2 (1%nat, PGo) ++ write ++
              (1%nat, POldest) :: replicate 65 (1%nat, PGo) ++ (1%nat, PCommit) :: replicate 2 (1%nat, PGo) ++ accept) one_proc = Some W ∧
    pthreads W !! 0%nat = Some (PPinned 7 0) ∧ priv_cache (priv W) = 8).
Proof.
  cbn zeta. split.
  - eexists _, _. split; [vm_compute; reflexivity|]. split; [vm_compute; reflexivity|]. split; [vm_compute; reflexivity|]. split; vm_compute; reflexivity.
  - eexists. split; [vm_compute; reflexivity|]. split; vm_compute; reflexivity.
Qed.
