(* ===== verification/ReaderProgress.v ===== *)
(** A reader that runs alone pins the newest snapshot, whatever the others left
    behind in the reader table. *)

From S2P Require Import Prelude Readers ReadersSlots.
Local Open Scope Z_scope.

Section Alone.
Context (th : nat) (me : Proc).






(** ** Finding a free slot *)

Definition free_slot (sh : Shm) (idx : nat) : Prop := pid_of (slot_word sh idx) = 0.

#[local] Instance free_slot_dec sh idx : Decision (free_slot sh idx).
Proof. unfold free_slot. apply _. Defined.



(** ** Claiming it *)








(** ** Pinning *)


End Alone.



