(* ===== verification/Txn.v ===== *)
(** The write transaction of [crates/mpedb-core/src/engine]: its state
    ([write.rs]), the page store of [freelist.rs] with the reuse rule and the
    savepoint journal, the free-list entries ([mod.rs], [extent.rs]) and what a
    commit writes to the free list ([commit.rs], [extent.rs]). *)

From S2P Require Import Prelude BtreeNode PageStore Btree Cursor.
Local Open Scope Z_scope.

(** * The mapping *)

(** What a transaction sees of the engine: the pages of the mapping, where data
    pages start, the external payloads by name, whether the mode is [async]
    with its durable transaction, the cached bound of the reader table, and
    what a scan of the table would find. *)
Record Eng := MkEng {
  mem : list bytes; data_start : Z; files : gmap Z bytes; is_async : bool;
  durable : Z; pin_cache : Z; pin_scan : Z }.

Definition page_count (e : Eng) : Z := Z.of_nat (length (mem e)).

Definition set_mem (f : list bytes → list bytes) (e : Eng) : Eng :=
  MkEng (f (mem e)) (data_start e) (files e) (is_async e) (durable e) (pin_cache e) (pin_scan e).
Definition set_pin_cache (c : Z) (e : Eng) : Eng :=
  MkEng (mem e) (data_start e) (files e) (is_async e) (durable e) c (pin_scan e).

Definition shm_page (id : Z) (e : Eng) : res bytes :=
  if page_count e <=? id then Err (Corrupt "page id out of bounds")
  else res_of_option (Corrupt "page id out of bounds") (mem e !! Z.to_nat id).

(** [page_mut_unchecked(id)] filled with [p]. *)
Definition shm_write (id : Z) (p : bytes) (e : Eng) : res Eng :=
  if page_count e <=? id then Err (Corrupt "page id out of bounds")
  else Ok (set_mem (<[Z.to_nat id := p]>) e).

Definition shm_bytes (offset len : Z) (e : Eng) : res bytes :=
  if 2 ^ 64 <=? offset + len then Err (Corrupt "byte range overflow")
  else if page_count e * 4096 <? offset + len then Err (Corrupt "byte range beyond the mapping")
  else Ok (sub (Z.to_nat offset) (Z.to_nat len) (mjoin (mem e))).

Definition read_extent_from_shm (start_page total_len : Z) (e : Eng) : res bytes :=
  if 2 ^ 64 <=? total_len + 4095 then Err (Corrupt "extent length overflow")
  else
    let npages := (total_len + 4095) / 4096 in
    let last := start_page + npages in
    if 2 ^ 64 <=? last then Err (Corrupt "extent run overflows the page space")
    else if (start_page <? data_start e) || (page_count e <? last) then Err (Corrupt "extent outside the data region")
    else if 2 ^ 64 <=? start_page * 4096 then Err (Corrupt "extent offset overflow")
    else shm_bytes (start_page * 4096) total_len e.

Definition read_external_payload (hash total_len : Z) (e : Eng) : res bytes :=
  match files e !! hash with
  | None => Err (Unsupported "external payload is not here yet")
  | Some b => if Z.of_nat (length b) =? total_len then Ok b else Err (Corrupt "external payload length mismatch")
  end.

(** * Free-list entries *)

Definition FK_PAGES : Z := 0.
Definition FK_RUNS : Z := 1.
Definition FREELIST_CHUNK_PAGES : nat := 120.
Definition FREELIST_POOL_TARGET : nat := 32.
Definition FREELIST_POOL_DRAWS : nat := 4.
Definition RESERVED_CONTROL_PAGES : Z := 48.

Definition freelist_key (txn kind chunk : Z) : bytes := be_encode 8 txn ++ [kind] ++ be_encode 2 chunk.
Definition key_txn (key : bytes) : Z := be_decode (take 8 key).
Definition key_kind (key : bytes) : Z := default 0 (key !! 8%nat).

(** [slice.chunks(n)]. *)
Fixpoint chunks_loop {A} (fuel n : nat) (l : list A) : list (list A) :=
  match fuel, l with
  | S fuel, _ :: _ => take n l :: chunks_loop fuel n (drop n l)
  | _, _ => []
  end.
Definition chunks {A} (n : nat) (l : list A) : list (list A) := chunks_loop (length l) n l.

(** The ids of a page entry: in the data region, strictly ascending. *)
Fixpoint decode_ids (ds pc : Z) (prev : option Z) (chs : list bytes) : res (list Z) :=
  match chs with
  | [] => Ok []
  | ch :: chs =>
      let id := le_decode ch in
      if (id <? ds) || (pc <=? id) then Err (Corrupt "freelist lists page outside the data region")
      else if match prev with Some p => id <=? p | None => false end then Err (Corrupt "freelist entry is not strictly ascending")
      else ids ← decode_ids ds pc (Some id) chs; Ok (id :: ids)
  end.

Fixpoint decode_runs (ds pc prev_end : Z) (chs : list bytes) : res (list (Z * Z)) :=
  match chs with
  | [] => Ok []
  | ch :: chs =>
      let start := le_decode (take 8 ch) in
      let npages := le_decode (drop 8 ch) in
      let last := start + npages in
      if npages =? 0 then Err (Corrupt "empty run in freelist entry")
      else if 2 ^ 64 <=? last then Err (Corrupt "run overflows the page space")
      else if (start <? ds) || (pc <? last) then Err (Corrupt "freelist run outside the data region")
      else if (start <? prev_end) || (negb (prev_end =? 0) && (start =? 0)) then
        Err (Corrupt "freelist runs not strictly ascending/disjoint")
      else runs ← decode_runs ds pc last chs; Ok ((start, npages) :: runs)
  end.

Definition decode_run_entry (val : bytes) (ds pc : Z) : res (list (Z * Z)) :=
  if bool_decide (val = []) || negb (bool_decide (length val `mod` 12 = 0)%nat) then Err (Corrupt "bad run freelist entry")
  else decode_runs ds pc 0 (chunks 12 val).

Definition encode_run_entry (runs : list (Z * Z)) : bytes :=
  concat (map (λ r, le_encode 8 r.1 ++ le_encode 4 r.2) runs).
Definition encode_ids (ids : list Z) : bytes := concat (map (le_encode 8) ids).

(** * The transaction *)

Record TakenEntry := MkTaken { te_key : bytes; te_ids : list Z }.
Record PoolRun := MkPoolRun { run_start : Z; run_npages : Z; run_from : option nat }.
Inductive MapEdit := MapInsert (start npages : Z) | MapDelete (start : Z).
Record TakenRunEntry := MkTakenRuns { tr_key : bytes; tr_runs : list (Z * Z) }.

(** The page side: what the plain savepoint captures. *)
Record Pages := MkPages {
  catalog_root : Z; freelist_root : Z; table_roots : gmap (Z * Z) (Z * Z); dirty : gset Z; freed : gset Z;
  reusable : list Z; taken : list TakenEntry; refill_cursor : option bytes; high_water : Z }.

(** The extent side: what [ExtentSnapshot] captures. *)
Record Extents := MkExtents {
  extent_map_root : Z; run_pool : list PoolRun; taken_runs : list TakenRunEntry; freed_runs : list (Z * Z);
  allocated_runs : gmap Z Z; pending_map_edits : list MapEdit; extent_dirty : list (Z * Z);
  parked_runs : list (Z * Z); extent_buf : bytes; extent_buf_off : Z }.

(** What a statement notes beside the pages. *)
Record Scalars := MkScalars {
  schema_gen_bump : bool; written_tables : Z; mutated_tables : gset Z; commit_point : option (Z * Z) }.

Record SpLayer := MkLayer { epoch : Z; images : gmap Z bytes }.

(** The snapshot the transaction started from. *)
Record Meta := MkMeta { m_txn : Z; m_catalog_root : Z; m_freelist_root : Z; m_high_water : Z; m_extent_map_root : Z; m_schema_gen : Z }.
#[global] Instance meta_eq_dec : EqDecision Meta.
Proof. solve_decision. Defined.

(** [sp_layers] is the Rust vector with its last element first. *)
Record WriteTxn := MkTxn {
  eng : Eng; meta : Meta; pg : Pages; ex : Extents; scalars : Scalars; allocs : Z; adopts : Z;
  bound_recomputed : bool; in_freelist_op : bool; reserved_alloc : bool; in_place : bool;
  inplace_undo : gmap Z bytes; sp_layers : list SpLayer; sp_epoch_next : Z }.

Definition no_extents (map_root : Z) : Extents := MkExtents map_root [] [] [] ∅ [] [] [] [] 0.

(** [make_write_txn] after the lock and the meta page. *)
Definition make_write_txn (e : Eng) (m : Meta) (in_place : bool) : WriteTxn :=
  MkTxn e m (MkPages (m_catalog_root m) (m_freelist_root m) ∅ ∅ ∅ [] [] None (m_high_water m))
    (no_extents (m_extent_map_root m)) (MkScalars false 0 ∅ None) 0 0 false false false in_place ∅ [] 0.

(** ** Field updates *)

Definition set_eng (e : Eng) (s : WriteTxn) : WriteTxn :=
  MkTxn e (meta s) (pg s) (ex s) (scalars s) (allocs s) (adopts s) (bound_recomputed s) (in_freelist_op s)
    (reserved_alloc s) (in_place s) (inplace_undo s) (sp_layers s) (sp_epoch_next s).
Definition set_pg (p : Pages) (s : WriteTxn) : WriteTxn :=
  MkTxn (eng s) (meta s) p (ex s) (scalars s) (allocs s) (adopts s) (bound_recomputed s) (in_freelist_op s)
    (reserved_alloc s) (in_place s) (inplace_undo s) (sp_layers s) (sp_epoch_next s).
Definition set_ex (x : Extents) (s : WriteTxn) : WriteTxn :=
  MkTxn (eng s) (meta s) (pg s) x (scalars s) (allocs s) (adopts s) (bound_recomputed s) (in_freelist_op s)
    (reserved_alloc s) (in_place s) (inplace_undo s) (sp_layers s) (sp_epoch_next s).
Definition set_allocs (n : Z) (s : WriteTxn) : WriteTxn :=
  MkTxn (eng s) (meta s) (pg s) (ex s) (scalars s) n (adopts s) (bound_recomputed s) (in_freelist_op s)
    (reserved_alloc s) (in_place s) (inplace_undo s) (sp_layers s) (sp_epoch_next s).
Definition set_recomputed (s : WriteTxn) : WriteTxn :=
  MkTxn (eng s) (meta s) (pg s) (ex s) (scalars s) (allocs s) (adopts s) true (in_freelist_op s)
    (reserved_alloc s) (in_place s) (inplace_undo s) (sp_layers s) (sp_epoch_next s).
Definition set_freelist_op (b : bool) (s : WriteTxn) : WriteTxn :=
  MkTxn (eng s) (meta s) (pg s) (ex s) (scalars s) (allocs s) (adopts s) (bound_recomputed s) b
    (reserved_alloc s) (in_place s) (inplace_undo s) (sp_layers s) (sp_epoch_next s).
Definition set_adopted (id : Z) (img : bytes) (s : WriteTxn) : WriteTxn :=
  MkTxn (eng s) (meta s) (pg s) (ex s) (scalars s) (allocs s) (to_uint 64 (adopts s + 1)) (bound_recomputed s) (in_freelist_op s)
    (reserved_alloc s) (in_place s) (<[id := img]> (inplace_undo s)) (sp_layers s) (sp_epoch_next s).
Definition set_undo (u : gmap Z bytes) (s : WriteTxn) : WriteTxn :=
  MkTxn (eng s) (meta s) (pg s) (ex s) (scalars s) (allocs s) (adopts s) (bound_recomputed s) (in_freelist_op s)
    (reserved_alloc s) (in_place s) u (sp_layers s) (sp_epoch_next s).
Definition set_scalars (c : Scalars) (s : WriteTxn) : WriteTxn :=
  MkTxn (eng s) (meta s) (pg s) (ex s) c (allocs s) (adopts s) (bound_recomputed s) (in_freelist_op s)
    (reserved_alloc s) (in_place s) (inplace_undo s) (sp_layers s) (sp_epoch_next s).
Definition set_epoch (n : Z) (s : WriteTxn) : WriteTxn :=
  MkTxn (eng s) (meta s) (pg s) (ex s) (scalars s) (allocs s) (adopts s) (bound_recomputed s) (in_freelist_op s)
    (reserved_alloc s) (in_place s) (inplace_undo s) (sp_layers s) n.
Definition set_layers (l : list SpLayer) (s : WriteTxn) : WriteTxn :=
  MkTxn (eng s) (meta s) (pg s) (ex s) (scalars s) (allocs s) (adopts s) (bound_recomputed s) (in_freelist_op s)
    (reserved_alloc s) (in_place s) (inplace_undo s) l (sp_epoch_next s).

Definition set_dirty (d : gset Z) (p : Pages) : Pages :=
  MkPages (catalog_root p) (freelist_root p) (table_roots p) d (freed p) (reusable p) (taken p) (refill_cursor p) (high_water p).
Definition set_freed (f : gset Z) (p : Pages) : Pages :=
  MkPages (catalog_root p) (freelist_root p) (table_roots p) (dirty p) f (reusable p) (taken p) (refill_cursor p) (high_water p).
Definition set_reusable (r : list Z) (p : Pages) : Pages :=
  MkPages (catalog_root p) (freelist_root p) (table_roots p) (dirty p) (freed p) r (taken p) (refill_cursor p) (high_water p).
Definition set_high_water (h : Z) (p : Pages) : Pages :=
  MkPages (catalog_root p) (freelist_root p) (table_roots p) (dirty p) (freed p) (reusable p) (taken p) (refill_cursor p) h.
Definition set_freelist_root (r : Z) (p : Pages) : Pages :=
  MkPages (catalog_root p) r (table_roots p) (dirty p) (freed p) (reusable p) (taken p) (refill_cursor p) (high_water p).
Definition set_catalog_root (r : Z) (p : Pages) : Pages :=
  MkPages r (freelist_root p) (table_roots p) (dirty p) (freed p) (reusable p) (taken p) (refill_cursor p) (high_water p).
Definition set_table_roots (t : gmap (Z * Z) (Z * Z)) (p : Pages) : Pages :=
  MkPages (catalog_root p) (freelist_root p) t (dirty p) (freed p) (reusable p) (taken p) (refill_cursor p) (high_water p).
Definition set_drawn (t : list TakenEntry) (c : option bytes) (p : Pages) : Pages :=
  MkPages (catalog_root p) (freelist_root p) (table_roots p) (dirty p) (freed p) (reusable p) t c (high_water p).
Definition set_pool (l : list PoolRun) (x : Extents) : Extents :=
  MkExtents (extent_map_root x) l (taken_runs x) (freed_runs x) (allocated_runs x) (pending_map_edits x)
    (extent_dirty x) (parked_runs x) (extent_buf x) (extent_buf_off x).
Definition set_taken_runs (l : list TakenRunEntry) (x : Extents) : Extents :=
  MkExtents (extent_map_root x) (run_pool x) l (freed_runs x) (allocated_runs x) (pending_map_edits x)
    (extent_dirty x) (parked_runs x) (extent_buf x) (extent_buf_off x).
Definition set_allocated (m : gmap Z Z) (x : Extents) : Extents :=
  MkExtents (extent_map_root x) (run_pool x) (taken_runs x) (freed_runs x) m (pending_map_edits x)
    (extent_dirty x) (parked_runs x) (extent_buf x) (extent_buf_off x).

(** ** Reads *)

Definition page (id : Z) (s : WriteTxn) : res bytes := shm_page id (eng s).

Definition read_extent (start_page total_len : Z) (s : WriteTxn) : res bytes :=
  let off := start_page * 4096 in
  let lo := extent_buf_off (ex s) in
  if negb (bool_decide (extent_buf (ex s) = [])) && (lo <=? off) && (off + total_len <=? lo + Z.of_nat (length (extent_buf (ex s))))
  then Ok (sub (Z.to_nat (off - lo)) (Z.to_nat total_len) (extent_buf (ex s)))
  else read_extent_from_shm start_page total_len (eng s).

Definition read_external (hash total_len : Z) (s : WriteTxn) : res bytes := read_external_payload hash total_len (eng s).

(** ** Savepoint journal *)

(** The innermost layer keeps the bytes a page had when it was first changed. *)
Definition journal (id : Z) (s : WriteTxn) : WriteTxn :=
  match sp_layers s, shm_page id (eng s) with
  | l :: ls, Ok img =>
      match images l !! id with
      | None => set_layers (MkLayer (epoch l) (<[id := img]> (images l)) :: ls) s
      | Some _ => s
      end
  | _, _ => s
  end.

(** ** Mutable pages *)

Definition page_mut (id : Z) (s : WriteTxn) : res bytes :=
  if bool_decide (id ∈ dirty (pg s)) then shm_page id (eng s)
  else Err (Internal "page_mut on non-dirty page (COW violation)").

(** The end of the borrow [page_mut] gives: the journal entry it made and the
    bytes written through it, as many as the slice has. *)
Definition put (id : Z) (p : bytes) (s : WriteTxn) : WriteTxn :=
  if bool_decide (length p = PAGE_SIZE) then set_eng (set_mem (<[Z.to_nat id := p]>) (eng s)) (journal id s)
  else journal id s.

Definition adopt_inplace (id : Z) : M WriteTxn bool := fun s =>
  if negb (in_place s) then (Ok false, s)
  else if bool_decide (id ∈ dirty (pg s)) then (Ok true, s)
  else match shm_page id (eng s) with
       | Ok img => (Ok true, set_adopted id img (set_pg (set_dirty ({[id]} ∪ dirty (pg s)) (pg s)) s))
       | Err e => (Err e, s)
       | Panic => (Panic, s)
       end.

Definition is_dirty (id : Z) (s : WriteTxn) : bool := bool_decide (id ∈ dirty (pg s)).

(** What a shared borrow of the transaction can do. *)
Definition shared : PageStore WriteTxn := {|
  ps_page := page; ps_page_mut := λ _ _, Err (Internal "shared borrow"); ps_put := λ _ _ s, s;
  ps_alloc := lift (Err (Internal "shared borrow")); ps_alloc_raw := lift (Err (Internal "shared borrow"));
  ps_free := λ _, lift (Err (Internal "shared borrow")); ps_is_dirty := λ _ _, false;
  ps_adopt_inplace := λ _, lift (Err (Internal "shared borrow"));
  ps_read_extent := read_extent; ps_free_extent := λ _ _, lift (Err (Internal "shared borrow"));
  ps_read_external := read_external; ps_release_external := λ _, lift (Err (Internal "shared borrow")) |}.

(** ** Drawing from the free list *)

(** [Vec] kept ascending: the insertion [binary_search] would make. *)
Fixpoint sorted_insert (id : Z) (l : list Z) : list Z :=
  match l with
  | [] => [id]
  | x :: l' => if id <? x then id :: l else x :: sorted_insert id l'
  end.
Definition pop (l : list Z) : option (Z * list Z) :=
  match last l with Some id => Some (id, take (length l - 1) l) | None => None end.

Fixpoint partition_point {A} (f : A → bool) (l : list A) : nat :=
  match l with x :: l => if f x then S (partition_point f l) else 0 | [] => 0 end.
Definition pool_insert (start npages : Z) (from : option nat) (pool : list PoolRun) : list PoolRun :=
  insert_at (partition_point (λ r, run_start r <? start) pool) (MkPoolRun start npages from) pool.

(** [compute_oldest_pinned]: the scan, published to the cache. *)
Definition compute_oldest_pinned (s : WriteTxn) : Z * WriteTxn :=
  (pin_scan (eng s), set_eng (set_pin_cache (Z.max (pin_cache (eng s)) (pin_scan (eng s))) (eng s)) s).

(** The bound for an entry freed by [freed_txn]: recomputed once, when the
    cached one does not allow it. *)
Definition reuse_bound (freed_txn : Z) (s : WriteTxn) : Z * WriteTxn :=
  if (pin_cache (eng s) <? freed_txn) && negb (bound_recomputed s) then compute_oldest_pinned (set_recomputed s)
  else (pin_cache (eng s), s).

Definition pool_runs (idx : nat) (runs : list (Z * Z)) (pool : list PoolRun) : list PoolRun :=
  foldl (λ pool r, pool_insert r.1 r.2 (Some idx) pool) pool runs.

(** The two kinds of entry, once the bound allows them. *)
Definition draw_runs (key val : bytes) : M WriteTxn bool := fun s =>
  if is_async (eng s) && (durable (eng s) <? key_txn key) then (Ok false, s)
  else match decode_run_entry val (data_start (eng s)) (page_count (eng s)) with
       | Ok runs =>
           let x := ex s in
           let tr := taken_runs x ++ [MkTakenRuns key runs] in
           (Ok true, set_pg (set_drawn (taken (pg s)) (Some key) (pg s))
                       (set_ex (set_pool (pool_runs (length (taken_runs x)) runs (run_pool x)) (set_taken_runs tr x)) s))
       | Err e => (Err e, s)
       | Panic => (Panic, s)
       end.

Definition draw_pages (key val : bytes) : M WriteTxn bool := fun s =>
  match decode_ids (data_start (eng s)) (page_count (eng s)) None (chunks 8 val) with
  | Ok ids =>
      let p := pg s in
      (Ok true, set_pg (set_drawn (taken p ++ [MkTaken key ids]) (Some key)
                          (set_reusable (merge_sort Z.le (reusable p ++ ids)) p)) s)
  | Err e => (Err e, s)
  | Panic => (Panic, s)
  end.

Definition draw_entry (key val : bytes) : M WriteTxn bool := fun s =>
  if negb (bool_decide (length key = 11%nat)) then (Err (Corrupt "bad freelist entry"), s)
  else if negb ((key_kind key =? FK_RUNS) || (key_kind key =? FK_PAGES)) then (Err (Corrupt "bad freelist entry kind"), s)
  else if (key_kind key =? FK_PAGES) && negb (bool_decide (length val `mod` 8 = 0)%nat) then (Err (Corrupt "bad freelist entry"), s)
  else
    let '(bound, s) := reuse_bound (key_txn key) s in
    if bound <? key_txn key then (Ok false, s)
    else if key_kind key =? FK_RUNS then draw_runs key val s
    else draw_pages key val s.

Section Txn.
Context (content_hash : bytes → Z).

(** The first entry of the free list after the last one drawn. *)
Definition next_entry (s : WriteTxn) : res (option (bytes * bytes)) :=
  c ← @cursor _ shared (freelist_root (pg s)) ((λ k, (k, false)) <$> refill_cursor (pg s)) None s;
  '(e, _) ← @next _ shared content_hash (S (S (length (mem (eng s))))) c s;
  Ok e.

Definition refill_reusable : M WriteTxn bool := fun s =>
  if freelist_root (pg s) =? 0 then (Ok false, s)
  else match next_entry s with
       | Ok (Some (key, val)) => draw_entry key val s
       | Ok None => (Ok false, s)
       | Err e => (Err e, s)
       | Panic => (Panic, s)
       end.

Fixpoint draw_pool (draws : nat) : M WriteTxn unit := fun s =>
  match draws with
  | O => (Ok tt, s)
  | S draws =>
      if bool_decide (FREELIST_POOL_TARGET ≤ length (reusable (pg s)))%nat then (Ok tt, s)
      else (drawn ← refill_reusable; if (drawn : bool) then draw_pool draws else mret tt) s
  end.

(** ** Allocation *)

Definition ceiling (s : WriteTxn) : Z :=
  if reserved_alloc s then page_count (eng s) else Z.max 0 (page_count (eng s) - RESERVED_CONTROL_PAGES).

(** A page from the pool, or one above the high-water mark. *)
Definition take_page : M WriteTxn Z := fun s =>
  match pop (reusable (pg s)) with
  | Some (id, rest) => (Ok id, set_pg (set_reusable rest (pg s)) s)
  | None =>
      if ceiling s <=? high_water (pg s) then (Err DbFull, s)
      else (Ok (high_water (pg s)), set_pg (set_high_water (high_water (pg s) + 1) (pg s)) s)
  end.

Definition alloc_id : M WriteTxn Z := fun s =>
  (modify (set_allocs (to_uint 64 (allocs s + 1)));;
   (if bool_decide (reusable (pg s) = []) && negb (in_freelist_op s) then draw_pool FREELIST_POOL_DRAWS else mret tt);;
   take_page) s.

Definition alloc_raw : M WriteTxn Z :=
  id ← alloc_id;
  modify (λ s, set_pg (set_dirty ({[id]} ∪ dirty (pg s)) (pg s)) s);;
  mret id.

Definition alloc : M WriteTxn Z :=
  id ← alloc_raw;
  update (λ s, e ← shm_write id (replicate PAGE_SIZE 0) (eng s); Ok (set_eng e s));;
  mret id.

(** [free] from the journal entry on. *)
Definition release (id : Z) : M WriteTxn unit := fun s =>
  let was_dirty := bool_decide (id ∈ dirty (pg s)) in
  let s := if negb (in_freelist_op s) && was_dirty then journal id s else s in
  let s := set_pg (set_dirty (dirty (pg s) ∖ {[id]}) (pg s)) s in
  if was_dirty && negb (in_freelist_op s) then
    (Ok tt, if bool_decide (id ∈ reusable (pg s)) then s
            else set_pg (set_reusable (sorted_insert id (reusable (pg s))) (pg s)) s)
  else if bool_decide (id ∈ freed (pg s)) then (Err (Internal "double free of page"), s)
  else (Ok tt, set_pg (set_freed ({[id]} ∪ freed (pg s)) (pg s)) s).
Definition needs_image (id : Z) (s : WriteTxn) : bool :=
  negb (in_freelist_op s) && bool_decide (id ∈ dirty (pg s)) &&
  match sp_layers s with l :: _ => bool_decide (images l !! id = None) | [] => false end.
Definition free (id : Z) : M WriteTxn unit :=
  reads (λ s, if needs_image id s then _ ← shm_page id (eng s); Ok tt else Ok tt);;
  release id.

(** ** Extents *)

Definition free_extent (start_page npages : Z) : M WriteTxn unit := fun s =>
  let x := ex s in
  let edits := pending_map_edits x ++ [MapDelete start_page] in
  let own := allocated_runs x !! start_page in
  let pool := match own, sp_layers s with Some _, [] => pool_insert start_page npages None (run_pool x) | _, _ => run_pool x end in
  let parked := match own, sp_layers s with Some _, _ :: _ => parked_runs x ++ [(start_page, npages)] | _, _ => parked_runs x end in
  let freed_runs := match own with None => freed_runs x ++ [(start_page, npages)] | _ => freed_runs x end in
  (Ok tt, set_ex (MkExtents (extent_map_root x) pool (taken_runs x) freed_runs (base.delete start_page (allocated_runs x))
                    edits (extent_dirty x) parked (extent_buf x) (extent_buf_off x)) s).

Definition release_external (hash : Z) : M WriteTxn unit := mret tt.

Definition txn_store : PageStore WriteTxn := {|
  ps_page := page; ps_page_mut := page_mut; ps_put := put; ps_alloc := alloc; ps_alloc_raw := alloc_raw;
  ps_free := free; ps_is_dirty := is_dirty; ps_adopt_inplace := adopt_inplace; ps_read_extent := read_extent;
  ps_free_extent := free_extent; ps_read_external := read_external; ps_release_external := release_external |}.

(** ** The free list at commit *)

(** [freelist_plan]: each drawn entry that lost pages, or was rewritten before,
    with what is left of it; then this commit's own free pages, in chunks. *)
Definition kept_ids (s : WriteTxn) (e : TakenEntry) : list Z := filter (λ id, id ∈ reusable (pg s)) (te_ids e).
Definition plan_taken (s : WriteTxn) (written : list (bytes * list Z)) (e : TakenEntry) : list (bytes * list Z) :=
  if bool_decide (length (kept_ids s e) ≠ length (te_ids e)) || bool_decide (te_key e ∈ written.*1)
  then [(te_key e, kept_ids s e)] else [].
Definition own_pages (s : WriteTxn) : list Z :=
  merge_sort Z.le (elements (freed (pg s)) ++ filter (λ id, Forall (λ e, id ∉ te_ids e) (taken (pg s))) (reusable (pg s))).
Definition plan_own (s : WriteTxn) (new_txn : Z) : list (bytes * list Z) :=
  imap (λ i chunk, (freelist_key new_txn FK_PAGES (to_uint 16 (Z.of_nat i)), chunk)) (chunks FREELIST_CHUNK_PAGES (own_pages s)).
Definition freelist_plan (s : WriteTxn) (new_txn : Z) (written : list (bytes * list Z)) : list (bytes * list Z) :=
  concat (map (plan_taken s written) (taken (pg s))) ++ plan_own s new_txn.

Definition set_root (r : Z) (s : WriteTxn) : WriteTxn := set_pg (set_freelist_root r (pg s)) s.

Definition put_entry (fuel : nat) (key val : bytes) : M WriteTxn unit :=
  root ← reads (λ s, Ok (freelist_root (pg s)));
  out ← @insert _ txn_store fuel root key (Flat val) Upsert;
  modify (set_root (ins_root out)).
Definition drop_entry (fuel : nat) (key : bytes) : M WriteTxn unit :=
  root ← reads (λ s, Ok (freelist_root (pg s)));
  out ← @delete _ txn_store fuel root key;
  modify (set_root (del_root out)).

(** One pass: the keys that left the plan go, the entries that changed are
    written, or dropped when nothing is left of them. *)
Fixpoint drop_stale (fuel : nat) (plan written : list (bytes * list Z)) : M WriteTxn unit :=
  match written with
  | [] => mret tt
  | (k, _) :: written =>
      (if bool_decide (k ∈ plan.*1) then mret tt else drop_entry fuel k);; drop_stale fuel plan written
  end.
Fixpoint write_plan (fuel : nat) (written plan : list (bytes * list Z)) : M WriteTxn unit :=
  match plan with
  | [] => mret tt
  | (k, ids) :: plan =>
      (if bool_decide ((k, ids) ∈ written) then mret tt
       else if bool_decide (ids = []) then drop_entry fuel k else put_entry fuel k (encode_ids ids));;
      write_plan fuel written plan
  end.

Fixpoint fixpoint_loop (passes fuel : nat) (new_txn : Z) (written : list (bytes * list Z)) : M WriteTxn unit :=
  match passes with
  | O => lift (Err (Internal "freelist fixpoint did not converge"))
  | S passes =>
      plan ← reads (λ s, Ok (freelist_plan s new_txn written));
      if bool_decide (plan = written) then mret tt
      else drop_stale fuel plan written;; write_plan fuel written plan;; fixpoint_loop passes fuel new_txn plan
  end.

(** The run side: drawn entries that changed, then the commit's own runs,
    joined where adjacent. *)
Definition kept_runs (s : WriteTxn) (i : nat) : list (Z * Z) :=
  map (λ r, (run_start r, run_npages r)) (filter (λ r, run_from r = Some i) (run_pool (ex s))).
Fixpoint write_taken_runs (fuel : nat) (i : nat) (entries : list TakenRunEntry) : M WriteTxn unit :=
  match entries with
  | [] => mret tt
  | e :: entries =>
      kept ← reads (λ s, Ok (kept_runs s i));
      (if bool_decide (kept = tr_runs e) then mret tt
       else if bool_decide (kept = []) then drop_entry fuel (tr_key e) else put_entry fuel (tr_key e) (encode_run_entry kept));;
      write_taken_runs fuel (S i) entries
  end.

Definition run_le (a b : Z * Z) : Prop := a.1 < b.1 ∨ a.1 = b.1 ∧ a.2 ≤ b.2.
#[local] Instance run_le_dec : RelDecision run_le.
Proof. intros a b. unfold run_le. apply _. Defined.
(** [merged] with its last run in hand. *)
Fixpoint coalesce (last : Z * Z) (own : list (Z * Z)) : res (list (Z * Z)) :=
  match own with
  | [] => Ok [last]
  | (start, npages) :: own =>
      if last.1 + last.2 =? start then
        if 2 ^ 32 <=? last.2 + npages then Err (Internal "run coalesce overflow") else coalesce (last.1, last.2 + npages) own
      else merged ← coalesce (start, npages) own; Ok (last :: merged)
  end.
Definition RUNS_PER_CHUNK : nat := 80.
Fixpoint write_run_chunks (fuel : nat) (new_txn : Z) (i : nat) (chs : list (list (Z * Z))) : M WriteTxn unit :=
  match chs with
  | [] => mret tt
  | ch :: chs =>
      put_entry fuel (freelist_key new_txn FK_RUNS (to_uint 16 (Z.of_nat i))) (encode_run_entry ch);;
      write_run_chunks fuel new_txn (S i) chs
  end.
Definition own_runs (s : WriteTxn) : list (Z * Z) :=
  merge_sort run_le (freed_runs (ex s) ++ map (λ r, (run_start r, run_npages r)) (filter (λ r, run_from r = None) (run_pool (ex s)))).
Definition apply_run_plan (fuel : nat) (new_txn : Z) : M WriteTxn unit :=
  entries ← reads (λ s, Ok (taken_runs (ex s)));
  write_taken_runs fuel 0 entries;;
  merged ← reads (λ s, match own_runs s with [] => Ok [] | r :: own => coalesce r own end);
  write_run_chunks fuel new_txn 0 (chunks RUNS_PER_CHUNK merged).

(** Step 2 of [commit_inner]. *)
Definition commit_freelist (fuel : nat) (new_txn : Z) : M WriteTxn unit :=
  modify (set_freelist_op true);;
  runs ← reads (λ s, Ok (negb (bool_decide (taken_runs (ex s) = [])) || negb (bool_decide (freed_runs (ex s) = [])) ||
                         existsb (λ r, bool_decide (run_from r = None)) (run_pool (ex s))));
  (if (runs : bool) then apply_run_plan fuel new_txn else mret tt);;
  fixpoint_loop 64 fuel new_txn [];;
  modify (λ s, set_pg (set_drawn [] (refill_cursor (pg s)) (pg s)) s);;
  modify (set_freelist_op false).
End Txn.
