(* ===== verification/TxnOps.v ===== *)
(** The rest of the write transaction: extent runs ([engine/extent.rs]), the
    catalog and the system rows ([engine/write.rs]), the commit
    ([engine/commit.rs]) and savepoints ([engine/write/savepoint.rs]). *)

From S2P Require Import Prelude BtreeNode PageStore Btree Cursor Txn.
Local Open Scope Z_scope.

Section Ops.
Context (content_hash : bytes → Z).
Abbreviation txn_store := (txn_store content_hash).

(** ** Extent runs *)

(** The pieces from a run on that join up to [need] pages, and how many. *)
Fixpoint window (win need covered : Z) (pool : list PoolRun) : Z * nat :=
  match pool with
  | r :: pool =>
      if (run_start r =? win + covered) && (covered <? need) then
        let '(c, n) := window win need (covered + run_npages r) pool in (c, S n)
      else (covered, O)
  | [] => (covered, O)
  end.
Fixpoint consume (remaining : Z) (pool : list PoolRun) : list PoolRun :=
  match pool with
  | r :: rest =>
      if remaining <=? 0 then pool
      else
        let take := Z.min remaining (run_npages r) in
        if take =? run_npages r then consume (remaining - take) rest
        else MkPoolRun (run_start r + take) (run_npages r - take) (run_from r) :: rest
  | [] => []
  end.
Fixpoint pool_alloc_loop (fuel : nat) (need : Z) (before pool : list PoolRun) : option (Z * list PoolRun) :=
  match fuel, pool with
  | S fuel, r :: _ =>
      let '(covered, n) := window (run_start r) need 0 pool in
      if need <=? covered then Some (run_start r, before ++ consume need pool)
      else pool_alloc_loop fuel need (before ++ take (n `max` 1) pool) (drop (n `max` 1) pool)
  | _, _ => None
  end.
Definition pool_alloc (npages : Z) (pool : list PoolRun) : option (Z * list PoolRun) :=
  pool_alloc_loop (length pool) npages [] pool.

Definition note_run (start npages : Z) (s : WriteTxn) : WriteTxn :=
  set_ex (set_allocated (<[start := npages]> (allocated_runs (ex s))) (ex s)) s.

(** [draws] bounds the entries drawn: the free list has no more. *)
Fixpoint alloc_run (draws : nat) (npages : Z) : M WriteTxn Z := fun s =>
  match pool_alloc npages (run_pool (ex s)) with
  | Some (start, pool) => (Ok start, note_run start npages (set_ex (set_pool pool (ex s)) s))
  | None =>
      let high (s : WriteTxn) :=
        let start := high_water (pg s) in
        if 2 ^ 64 <=? start + npages then (Err (Internal "extent size overflow"), s)
        else if page_count (eng s) <? start + npages then (Err DbFull, s)
        else (Ok start, note_run start npages (set_pg (set_high_water (start + npages) (pg s)) s)) in
      if in_freelist_op s then high s
      else match refill_reusable content_hash s with
           | (Ok true, s) => match draws with S draws => alloc_run draws npages s | O => (Panic, s) end
           | (Ok false, s) => high s
           | (Err e, s) => (Err e, s)
           | (Panic, s) => (Panic, s)
           end
  end.

(** ** Trees by name *)

Definition SYS_PREFIX : Z := 2.
Definition sys_key (subkey : bytes) : bytes := SYS_PREFIX :: subkey.
Definition cat_tree_key (table_id index_no : Z) : bytes := 1 :: be_encode 4 table_id ++ be_encode 4 index_no.

Definition set_catalog (r : Z) (s : WriteTxn) : WriteTxn := set_pg (set_catalog_root r (pg s)) s.
Definition set_roots (t : gmap (Z * Z) (Z * Z)) (s : WriteTxn) : WriteTxn := set_pg (set_table_roots t (pg s)) s.

Definition catalog_upsert (fuel : nat) (key value : bytes) : M WriteTxn unit :=
  root ← reads (λ s, Ok (catalog_root (pg s)));
  out ← @insert _ txn_store fuel root key (Flat value) Upsert;
  modify (set_catalog (ins_root out)).
Definition sys_put (fuel : nat) (subkey value : bytes) : M WriteTxn unit := catalog_upsert fuel (sys_key subkey) value.
Definition sys_delete (fuel : nat) (subkey : bytes) : M WriteTxn bool :=
  root ← reads (λ s, Ok (catalog_root (pg s)));
  out ← @delete _ txn_store fuel root (sys_key subkey);
  modify (set_catalog (del_root out));;
  mret (del_existed out).

(** Root, row count and generation of a tree in the catalog. *)
Definition decode_entry (b : bytes) : res (Z * Z * Z) :=
  if negb (bool_decide (length b = 16%nat)) && negb (bool_decide (length b = 24%nat)) then Err (Corrupt "bad catalog entry size")
  else Ok (le_decode (take 8 b), le_decode (sub 8 8 b), if bool_decide (length b = 24%nat) then le_decode (sub 16 8 b) else 0).
Definition catalog_entry (root table_id index_no : Z) (s : WriteTxn) : res (Z * Z * Z) :=
  found ← @get _ shared content_hash root (cat_tree_key table_id index_no) s;
  match found with
  | None => Err (Corrupt "missing catalog entry")
  | Some b => decode_entry b
  end.

Definition tree_root (table_id index_no : Z) : M WriteTxn (Z * Z) := fun s =>
  match table_roots (pg s) !! (table_id, index_no) with
  | Some e => (Ok e, s)
  | None =>
      ('(root, count, _) ← reads (catalog_entry (catalog_root (pg s)) table_id index_no);
       modify (λ s, set_roots (<[(table_id, index_no) := (root, count)]> (table_roots (pg s))) s);;
       mret (root, count)) s
  end.
Definition set_tree_root (table_id index_no root count : Z) (s : WriteTxn) : WriteTxn :=
  let c := scalars s in
  set_roots (<[(table_id, index_no) := (root, count)]> (table_roots (pg s)))
    (set_scalars (MkScalars (schema_gen_bump c) (Z.lor (written_tables c) (Z.shiftl 1 (Z.land table_id 63)))
                    ({[table_id]} ∪ mutated_tables c) (commit_point c)) s).

(** ** Commit *)

Definition rejoin_parked (s : WriteTxn) : WriteTxn :=
  let x := ex s in
  set_ex (MkExtents (extent_map_root x) (foldl (λ pool r, pool_insert r.1 r.2 None pool) (run_pool x) (parked_runs x)) (taken_runs x)
            (freed_runs x) (allocated_runs x) (pending_map_edits x) (extent_dirty x) [] (extent_buf x) (extent_buf_off x)) s.

(** Catalog entries in key order. *)
Definition key_le (a b : (Z * Z) * (Z * Z)) : Prop := a.1.1 < b.1.1 ∨ a.1.1 = b.1.1 ∧ a.1.2 ≤ b.1.2.
#[local] Instance key_le_dec : RelDecision key_le.
Proof. intros a b. unfold key_le. apply _. Defined.

(** The mutated tables whose entry is not loaded yet, in order. *)
Fixpoint load_mutated (tids : list Z) : M WriteTxn (list ((Z * Z) * (Z * Z))) := fun s =>
  match tids with
  | [] => (Ok [], s)
  | tid :: tids =>
      match table_roots (pg s) !! (tid, 0) with
      | Some _ => load_mutated tids s
      | None => (e ← tree_root tid 0; es ← load_mutated tids; mret (((tid, 0), e) :: es)) s
      end
  end.

Definition next_gen (s : WriteTxn) (tid : Z) : Z :=
  let base := match catalog_entry (catalog_root (pg s)) tid 0 s with Ok (_, _, g) => g | _ => 0 end in
  to_uint 64 (base + if bool_decide (tid ∈ mutated_tables (scalars s)) then 1 else 0).

(** The entry of a primary tree ends with the generation. *)
Definition entry_bytes (gens : Z → Z) (tid ino root cnt : Z) : bytes :=
  le_encode 8 root ++ le_encode 8 cnt ++ if ino =? 0 then le_encode 8 (gens tid) else [].

(** [gens] are read before the first entry is written. *)
Fixpoint write_entries (fuel : nat) (gens : Z → Z) (es : list ((Z * Z) * (Z * Z))) : M WriteTxn unit :=
  match es with
  | [] => mret tt
  | ((tid, ino), (root, cnt)) :: es =>
      catalog_upsert fuel (cat_tree_key tid ino) (entry_bytes gens tid ino root cnt);;
      write_entries fuel gens es
  end.

Definition Z_sorted (X : gset Z) : list Z := merge_sort Z.le (elements X).
Definition write_back_catalog (fuel : nat) : M WriteTxn unit := fun s =>
  (let entries := merge_sort key_le (map_to_list (table_roots (pg s))) in
   more ← load_mutated (Z_sorted (mutated_tables (scalars s)));
   gens ← reads (λ s, Ok (next_gen s));
   write_entries fuel gens (entries ++ more)) s.

Fixpoint apply_map_edits (fuel : nat) (edits : list MapEdit) : M WriteTxn unit :=
  let set_map_root r s := let x := ex s in
    set_ex (MkExtents r (run_pool x) (taken_runs x) (freed_runs x) (allocated_runs x) (pending_map_edits x)
              (extent_dirty x) (parked_runs x) (extent_buf x) (extent_buf_off x)) s in
  match edits with
  | [] => mret tt
  | MapInsert start npages :: edits =>
      root ← reads (λ s, Ok (extent_map_root (ex s)));
      out ← @insert _ txn_store fuel root (be_encode 8 start) (Flat (le_encode 4 npages)) InsertOnly;
      (if ins_existed out then lift (Err (Internal "extent double-mapped")) else modify (set_map_root (ins_root out)));;
      apply_map_edits fuel edits
  | MapDelete start :: edits =>
      root ← reads (λ s, Ok (extent_map_root (ex s)));
      out ← @delete _ txn_store fuel root (be_encode 8 start);
      (if del_existed out then modify (set_map_root (del_root out)) else lift (Err (Corrupt "freed extent was not in the extent map")));;
      apply_map_edits fuel edits
  end.
Definition take_edits : M WriteTxn (list MapEdit) := fun s =>
  let x := ex s in
  (Ok (pending_map_edits x),
   set_ex (MkExtents (extent_map_root x) (run_pool x) (taken_runs x) (freed_runs x) (allocated_runs x) []
             (extent_dirty x) (parked_runs x) (extent_buf x) (extent_buf_off x)) s).

(** [file_write_at]: the mapping shows what the file holds. *)
Definition file_write (buf : bytes) (off : Z) (e : Eng) : Eng :=
  let flat := mjoin (mem e) in
  set_mem (λ _, chunks PAGE_SIZE (take (Z.to_nat off) flat ++ buf ++ drop (Z.to_nat off + length buf) flat)) e.
Definition flush_extent_buf (s : WriteTxn) : WriteTxn :=
  let x := ex s in
  if bool_decide (extent_buf x = []) then s
  else set_ex (MkExtents (extent_map_root x) (run_pool x) (taken_runs x) (freed_runs x) (allocated_runs x) (pending_map_edits x)
                 (extent_dirty x) (parked_runs x) [] (extent_buf_off x))
         (set_eng (file_write (extent_buf x) (extent_buf_off x) (eng s)) s).

(** ** Extent payloads *)

Definition EXTENT_COALESCE_MAX : Z := 256 * 1024.
Definition EXTENT_BUF_CAP : Z := 2 * 1024 * 1024.

Fixpoint write_pieces (pieces : list bytes) (off : Z) (e : Eng) : Eng :=
  match pieces with
  | [] => e
  | p :: pieces => write_pieces pieces (off + Z.of_nat (length p)) (file_write p off e)
  end.
Definition set_buf (buf : bytes) (off : Z) (s : WriteTxn) : WriteTxn :=
  let x := ex s in
  set_ex (MkExtents (extent_map_root x) (run_pool x) (taken_runs x) (freed_runs x) (allocated_runs x) (pending_map_edits x)
            (extent_dirty x) (parked_runs x) buf off) s.
Definition note_dirty (start npages : Z) (s : WriteTxn) : WriteTxn :=
  let x := ex s in
  set_ex (MkExtents (extent_map_root x) (run_pool x) (taken_runs x) (freed_runs x) (allocated_runs x) (pending_map_edits x)
            (extent_dirty x ++ [(start, npages)]) (parked_runs x) (extent_buf x) (extent_buf_off x)) s.

(** A payload of one run behind the buffer, or straight to the file. *)
Definition coalesce_payload (off cap : Z) (pieces : list bytes) (s : WriteTxn) : WriteTxn :=
  let x := ex s in
  let len := Z.of_nat (length (extent_buf x)) in
  let contiguous := negb (bool_decide (extent_buf x = [])) && (extent_buf_off x + len =? off) in
  let s := if negb contiguous || (EXTENT_BUF_CAP <? len + cap) then flush_extent_buf s else s in
  let base := if bool_decide (extent_buf (ex s) = []) then off else extent_buf_off (ex s) in
  set_buf (resize (Z.to_nat (off + cap - base)) 0 (extent_buf (ex s) ++ concat pieces)) base s.
Definition direct_payload (off cap total_len : Z) (pieces : list bytes) : M WriteTxn unit := fun s =>
  let s := flush_extent_buf s in
  let s := set_eng (write_pieces pieces off (eng s)) s in
  if cap <=? total_len then (Ok tt, s)
  else if 4096 <? cap - total_len then (Panic, s)
  else (Ok tt, set_eng (file_write (replicate (Z.to_nat (cap - total_len)) 0) (off + total_len) (eng s)) s).
Definition write_extent_payload (start_page npages : Z) (pieces : list bytes) (total_len : Z) : M WriteTxn unit := fun s =>
  let off := start_page * 4096 in
  if 2 ^ 64 <=? off then (Err (Internal "extent offset overflow"), s)
  else if negb (Z.of_nat (length (concat pieces)) =? total_len) then
    (Err (Internal "extent payload length disagrees with its pieces"), s)
  else
    let s := note_dirty start_page npages s in
    let cap := npages * 4096 in
    if cap <=? EXTENT_COALESCE_MAX then (Ok tt, coalesce_payload off cap pieces s)
    else direct_payload off cap total_len pieces s.

Definition note_edit (e : MapEdit) (s : WriteTxn) : WriteTxn :=
  let x := ex s in
  set_ex (MkExtents (extent_map_root x) (run_pool x) (taken_runs x) (freed_runs x) (allocated_runs x) (pending_map_edits x ++ [e])
            (extent_dirty x) (parked_runs x) (extent_buf x) (extent_buf_off x)) s.
Definition sys_put_extent (fuel : nat) (subkey bytes : bytes) : M WriteTxn unit :=
  let total_len := Z.of_nat (length bytes) in
  let npages := (total_len + 4095) / 4096 in
  if total_len =? 0 then lift (Err (Internal "sys_put_extent of an empty payload"))
  else if 2 ^ 32 <=? npages then lift (Err (Unsupported "segment block too large for one extent"))
  else
    start ← alloc_run fuel npages;
    write_extent_payload start npages [bytes] total_len;;
    modify (note_edit (MapInsert start npages));;
    root ← reads (λ s, Ok (catalog_root (pg s)));
    out ← @insert _ txn_store fuel root (sys_key subkey) (ExtentRef start total_len npages) Upsert;
    modify (set_catalog (ins_root out)).
Definition sys_get (subkey : bytes) (s : WriteTxn) : res (option bytes) :=
  @get _ shared content_hash (catalog_root (pg s)) (sys_key subkey) s.

(** The meta page a commit publishes. *)
Definition publish (new_txn : Z) (s : WriteTxn) : Meta :=
  MkMeta new_txn (catalog_root (pg s)) (freelist_root (pg s)) (high_water (pg s)) (extent_map_root (ex s))
    (to_uint 64 (m_schema_gen (meta s) + if schema_gen_bump (scalars s) then 1 else 0)).

(** [commit_inner] from the end of the guard's check to the meta page. *)
Definition commit (fuel : nat) : M WriteTxn Meta :=
  modify rejoin_parked;;
  new_txn ← reads (λ s, Ok (m_txn (meta s) + 1));
  write_back_catalog fuel;;
  edits ← take_edits;
  apply_map_edits fuel edits;;
  commit_freelist content_hash fuel new_txn;;
  modify flush_extent_buf;;
  reads (λ s, Ok (publish new_txn s)).

(** [restore_inplace_undo]; an id out of bounds is skipped. *)
Definition restore_image (s : WriteTxn) (im : Z * bytes) : WriteTxn :=
  match shm_write im.1 im.2 (eng s) with Ok e => set_eng e s | _ => s end.
Definition restore_inplace_undo (s : WriteTxn) : WriteTxn :=
  set_undo ∅ (foldl restore_image s (map_to_list (inplace_undo s))).

(** ** Savepoints *)

Record TxnSavepoint := MkSavepoint { sp_allocs : Z; sp_adopts : Z; sp_pristine : bool; sp_pages : Pages }.

Definition extents_untouched (s : WriteTxn) : bool :=
  let x := ex s in
  (extent_map_root x =? m_extent_map_root (meta s)) && bool_decide (pending_map_edits x = []) && bool_decide (freed_runs x = []) &&
  bool_decide (taken_runs x = []) && bool_decide (extent_dirty x = []) && bool_decide (allocated_runs x = ∅) &&
  bool_decide (run_pool x = []) && bool_decide (extent_buf x = []).
Definition is_pristine (s : WriteTxn) : bool := bool_decide (dirty (pg s) = ∅) && extents_untouched s.
Definition savepoint (s : WriteTxn) : TxnSavepoint := MkSavepoint (allocs s) (adopts s) (is_pristine s) (pg s).

Definition undo_is_exact (sp : TxnSavepoint) (s : WriteTxn) : bool :=
  (adopts s =? sp_adopts sp) && ((allocs s =? sp_allocs sp) || (sp_pristine sp && extents_untouched s)).

(** Everything the page side had, but the high-water mark: the pages above the
    old one go to the pool. *)
Definition rollback_to (sp : TxnSavepoint) (s : WriteTxn) : WriteTxn :=
  let p := sp_pages sp in
  set_pg (set_high_water (high_water (pg s)) (set_reusable (reusable p ++ seqZ (high_water p) (high_water (pg s) - high_water p)) p)) s.

Record TxnSavepointFull := MkFull {
  base : TxnSavepoint; layer_depth : nat; layer_epoch : Z; inplace_keys : gset Z; sp_scalars : Scalars; sp_ext : Extents }.

Definition savepoint_full (s : WriteTxn) : TxnSavepointFull * WriteTxn :=
  (MkFull (savepoint s) (length (sp_layers s)) (sp_epoch_next s) (dom (inplace_undo s)) (scalars s) (ex s),
   set_epoch (to_uint 64 (sp_epoch_next s + 1)) (set_layers (MkLayer (sp_epoch_next s) ∅ :: sp_layers s) s)).

Definition sp_layer_check (sp : TxnSavepointFull) (s : WriteTxn) : res unit :=
  if bool_decide (epoch <$> reverse (sp_layers s) !! layer_depth sp = Some (layer_epoch sp)) then Ok tt
  else Err (Internal "savepoint layer desync").

(** Pages adopted since, and images of the journal, written back. *)
Fixpoint write_images (l : list (Z * bytes)) : M WriteTxn unit :=
  match l with
  | [] => mret tt
  | (id, img) :: l => update (λ s, e ← shm_write id img (eng s); Ok (set_eng e s));; write_images l
  end.
Definition drop_adopted (sp : TxnSavepointFull) : M WriteTxn unit := fun s =>
  let after := filter (λ x, x.1 ∉ inplace_keys sp) (inplace_undo s) in
  (modify (λ s, set_undo (filter (λ x, x.1 ∈ inplace_keys sp) (inplace_undo s)) s);; write_images (map_to_list after)) s.

(** Layers above the target go, the newest first; the target stays, emptied. *)
Fixpoint replay (above : nat) : M WriteTxn unit := fun s =>
  match sp_layers s with
  | [] => (Panic, s)
  | l :: ls =>
      match above with
      | O => (modify (set_layers (MkLayer (epoch l) ∅ :: ls));; write_images (map_to_list (images l))) s
      | S above => (modify (set_layers ls);; write_images (map_to_list (images l));; replay above) s
      end
  end.

Definition rollback_to_full (sp : TxnSavepointFull) : M WriteTxn unit := fun s =>
  (reads (sp_layer_check sp);;
   modify (rollback_to (base sp));;
   drop_adopted sp;;
   modify (λ s, set_ex (sp_ext sp)
     (set_scalars (MkScalars (schema_gen_bump (sp_scalars sp)) (written_tables (sp_scalars sp)) (mutated_tables (scalars s))
                     (commit_point (sp_scalars sp))) s));;
   replay (length (sp_layers s) - S (layer_depth sp))) s.

Definition release_savepoint_full (sp : TxnSavepointFull) : M WriteTxn unit := fun s =>
  match sp_layer_check sp s with
  | Ok _ =>
      let n := (length (sp_layers s) - layer_depth sp)%nat in
      let released := take n (sp_layers s) in
      match drop n (sp_layers s) with
      | [] => (Ok tt, rejoin_parked (set_layers [] s))
      | parent :: ls =>
          (Ok tt, set_layers (MkLayer (epoch parent) (foldl (λ m l, m ∪ images l) (images parent) (reverse released)) :: ls) s)
      end
  | Err e => (Err e, s)
  | Panic => (Panic, s)
  end.

(** [restart]: back to the start of the transaction, the lock kept. *)
Definition restart (s : WriteTxn) : WriteTxn :=
  let s := restore_inplace_undo s in
  let m := meta s in
  MkTxn (eng s) m
    (MkPages (m_catalog_root m) (m_freelist_root m) ∅ ∅ ∅ (seqZ (m_high_water m) (high_water (pg s) - m_high_water m)) [] None (high_water (pg s)))
    (no_extents (m_extent_map_root m)) (MkScalars false 0 ∅ None) (allocs s) (adopts s) false (in_freelist_op s) (reserved_alloc s)
    (in_place s) (inplace_undo s) [] (sp_epoch_next s).
End Ops.
