(* ===== verification/TxnPool.v ===== *)
(** Drawing and allocating pages in a write transaction: what [refill_reusable]
    finds in the free-list tree, which pages [alloc_id] can hand out, and what
    it leaves alone. *)

From stdpp Require Import sorting.
From S2P Require Import Prelude BtreeNode PageStore Btree Overflow KvMap BtreeRep Cursor BtreeRange Txn.
Local Open Scope Z_scope.

(** * The shared borrow as a store *)

Definition page_of (s : WriteTxn) (id : Z) : bytes := default [] (mem (eng s) !! Z.to_nat id).

Definition shared_view : StoreView WriteTxn := {|
  live s r := match r with inl id => 0 < id < 2 ^ 64 ∧ id < page_count (eng s) | inr _ => False end;
  bytes_at := page_of;
  ok s := Forall (λ p, length p = PAGE_SIZE) (mem (eng s));
  out_of_space _ _ := True;
  pinned _ _ := False |}.

Lemma shm_page_ok s id : 0 ≤ id < page_count (eng s) → shm_page id (eng s) = Ok (page_of s id).
Proof.
  intros Hid. unfold shm_page, page_count, page_of in *. rewrite (proj2 (Z.leb_gt _ _)) by lia.
  destruct (lookup_lt_is_Some_2 (mem (eng s)) (Z.to_nat id)) as [p ->]; [lia|done].
Qed.

Lemma shm_page_Ok s id p : shm_page id (eng s) = Ok p → p = page_of s id.
Proof. unfold shm_page, page_of. destruct (_ <=? _); [done|]. by destruct (_ !! _); intros [= ->]. Qed.

Lemma page_of_length s id : Forall (λ p, length p = PAGE_SIZE) (mem (eng s)) → 0 ≤ id < page_count (eng s) →
  length (page_of s id) = PAGE_SIZE.
Proof.
  intros Hf Hid. unfold page_of, page_count in *.
  destruct (lookup_lt_is_Some_2 (mem (eng s)) (Z.to_nat id)) as [p Hp]; [lia|]. rewrite Hp. by eapply (Forall_lookup_1 _ _ _ _ Hf).
Qed.

Lemma shared_laws : @StoreLaws WriteTxn shared shared_view.
Proof.
  split; cbn; try done.
  - intros s id [? ?]. apply shm_page_ok. lia.
  - intros s id Hf [? ?]. apply page_of_length; [done|lia].
  - by intros s id _ [? _].
Qed.

(** * The entries not drawn yet *)

Definition undrawn (m0 : kvs) (s : WriteTxn) : kvs := in_range ((λ k, (k, false)) <$> refill_cursor (pg s)) None m0.
Definition entry_ids (e : bytes * bytes) : list Z :=
  if key_kind e.1 =? FK_PAGES then map le_decode (chunks 8 e.2) else [].
Definition ids_of (m : kvs) : list Z := concat (map entry_ids m).
Definition reuse_limit (s : WriteTxn) : Z :=
  if bound_recomputed s then pin_cache (eng s) else Z.max (pin_cache (eng s)) (pin_scan (eng s)).

(** The page [id] is in an entry the bound lets the transaction draw. *)
Definition drawable (m0 : kvs) (s : WriteTxn) (id : Z) : Prop :=
  ∃ e, e ∈ undrawn m0 s ∧ id ∈ entry_ids e ∧ key_txn e.1 ≤ reuse_limit s.

Section NextEntry.
Context (content_hash : bytes → Z).
#[local] Existing Instance shared.
#[local] Existing Instance shared_view.
#[local] Existing Instance shared_laws.

Lemma next_entry_spec s h F m0 : Forall (λ p, length p = PAGE_SIZE) (mem (eng s)) →
  tree_rep content_hash s h (freelist_root (pg s)) F m0 → (h < 64)%nat →
  next_entry content_hash s = Ok (head (undrawn m0 s)).
Proof.
  intros Hok Ht Hh. change (ok s) in Hok. unfold next_entry, undrawn.
  destruct (cursor_in_range content_hash s h _ F m0 ((λ k, (k, false)) <$> refill_cursor (pg s)) None Ht Hh) as (c&Hc&Hr).
  rewrite Hc. cbn [mbind res_mbind].
  pose proof (next_with_spec content_hash s (λ k v, x ← read_leaf_val content_hash v s; Ok (k, x)) (λ k x, (k, x))) as Hn.
  specialize (Hn ltac:(intros k lv x F' Hv; cbv beta; by rewrite (read_leaf_val_spec _ _ _ _ _ Hok Hv)) (S (S (length (mem (eng s))))) c _ Hr ltac:(lia)).
  unfold next. destruct (in_range _ None m0) as [|[k x] rest]; destruct Hn as (c'&->&_); done.
Qed.

(** The tree reads the same when the pages it owns, and the external files, do. *)
Lemma freelist_tree_alike s s' h root F m0 : page_count (eng s') = page_count (eng s) → files (eng s') = files (eng s) →
  (∀ id, Pg id ∈ F → page_of s' id = page_of s id) →
  tree_rep content_hash s h root F m0 → tree_rep content_hash s' h root F m0.
Proof.
  intros Hpc Hf Hb [?|[Hr Ht]]; [by left|right]. split; [done|]. eapply tree_alike; [done|].
  assert (Hl : ∀ r, r ∈ F → live s r) by (intros r; by eapply tree_live).
  split; [|intros ??; cbn; unfold read_external, read_external_payload; by rewrite Hf].
  intros [id|e] Hin; specialize (Hl _ Hin); cbn in *; [|done]. rewrite Hpc. auto.
Qed.
End NextEntry.

Lemma undrawn_sorted m0 s : kv_sorted m0 → kv_sorted (undrawn m0 s).
Proof. apply in_range_sorted. Qed.

Lemma in_range_none lo m : in_range lo None m = filter (λ e, after lo e.1 = true) m.
Proof. apply filter_all. by intros. Qed.

(** Drawing the first entry leaves the others. *)
Lemma undrawn_next m0 lo k v rest : kv_sorted m0 → in_range lo None m0 = (k, v) :: rest →
  in_range (Some (k, false)) None m0 = rest.
Proof.
  intros Hs Hr. pose proof (in_range_sorted lo None m0 Hs) as Hs'. rewrite Hr in Hs'. rewrite in_range_none in *.
  assert (after lo k = true) as Hk.
  { assert ((k, v) ∈ filter (λ e : bytes * bytes, after lo e.1 = true) m0) as [? _]%list_elem_of_filter by (rewrite Hr; constructor). done. }
  assert (∀ x, after (Some (k, false)) x = true → after lo x = true) as Hmono.
  { intros x. cbn. destruct lo as [[l inc]|]; [|done]. cbn in *.
    destruct (lex_cmp_spec k x), (lex_cmp_spec l k), (lex_cmp_spec l x); try done; korder. }
  assert (filter (λ e : bytes * bytes, after (Some (k, false)) e.1 = true) m0 =
          filter (λ e : bytes * bytes, after (Some (k, false)) e.1 = true) ((k, v) :: rest)) as ->.
  { rewrite <- Hr, list_filter_filter. apply list_filter_iff. intros e. split; [|tauto]. intros He. split; [done|]. by apply Hmono. }
  rewrite filter_cons_False by (cbn; by rewrite lex_cmp_refl).
  apply filter_all. intros e He. cbn. unfold kv_sorted in Hs'. cbn [fmap list_fmap fst] in Hs'.
  apply StronglySorted_inv in Hs' as [_ Hf]. rewrite Forall_forall in Hf.
  assert (key_lt k e.1) as Hlt by (apply Hf, list_elem_of_fmap; eauto). by rewrite Hlt.
Qed.

(** The entries drawn so far. *)
Definition drawn (m0 : kvs) (s : WriteTxn) : kvs :=
  match refill_cursor (pg s) with None => [] | Some k => filter (λ e, after (Some (k, false)) e.1 = false) m0 end.

Lemma split_at_cursor m0 s : kv_sorted m0 → m0 = drawn m0 s ++ undrawn m0 s.
Proof.
  intros Hs. unfold drawn, undrawn. rewrite in_range_none. destruct (refill_cursor (pg s)) as [c|]; cbn [fmap option_fmap option_map].
  2:{ cbn. symmetry. by apply filter_all. }
  induction m0 as [|e m IH]; [done|]. unfold kv_sorted in Hs. cbn [fmap list_fmap] in Hs. apply StronglySorted_inv in Hs as [Hs Hf].
  destruct (after (Some (c, false)) e.1) eqn:Ha.
  - rewrite filter_cons_False by congruence. rewrite (filter_cons_True _ e) by done.
    assert (∀ e', e' ∈ m → after (Some (c, false)) e'.1 = true) as Hm.
    { intros e' He'. rewrite Forall_forall in Hf. assert (key_lt e.1 e'.1) by (apply Hf, list_elem_of_fmap; eauto). cbn in *.
      destruct (lex_cmp_spec c e.1), (lex_cmp_spec c e'.1); try done; korder. }
    rewrite filter_none, filter_all; [done|done|]. intros e' He'. by rewrite Hm.
  - rewrite filter_cons_True by done. rewrite (filter_cons_False _ e) by congruence. cbn. f_equal. by apply IH.
Qed.

Lemma drawn_next m0 s s' k v rest : kv_sorted m0 → undrawn m0 s = (k, v) :: rest → refill_cursor (pg s') = Some k →
  drawn m0 s' = drawn m0 s ++ [(k, v)].
Proof.
  intros Hs Hu Hc. pose proof (split_at_cursor m0 s Hs) as H1. pose proof (split_at_cursor m0 s' Hs) as H2.
  assert (undrawn m0 s' = rest) as Hr. { unfold undrawn. rewrite Hc. by eapply undrawn_next. }
  rewrite Hr in H2. rewrite Hu in H1.
  assert (drawn m0 s' ++ rest = (drawn m0 s ++ [(k, v)]) ++ rest) as H3 by (rewrite <- (assoc_L (++)); cbn; by rewrite <- H1, <- H2).
  by apply app_inv_tail in H3.
Qed.

(** [taken] records the page entries drawn. *)
Definition taken_ok (m0 : kvs) (s : WriteTxn) : Prop :=
  taken (pg s) = map (λ e, MkTaken e.1 (entry_ids e)) (filter (λ e, key_kind e.1 = FK_PAGES) (drawn m0 s)).

Lemma decode_ids_Ok ds pc chs : ∀ prev ids, decode_ids ds pc prev chs = Ok ids →
  ids = map le_decode chs ∧ Forall (λ id, ds ≤ id < pc) ids ∧ StronglySorted Z.lt ids ∧
  (∀ p, prev = Some p → Forall (λ id, p < id) ids).
Proof.
  induction chs as [|ch chs IH]; intros prev ids; cbn [decode_ids map].
  { intros [= <-]. split_and!; [done|constructor..|]. intros; constructor. }
  destruct (_ || _) eqn:Hr; [done|]. apply orb_false_iff in Hr as [H1%Z.ltb_ge H2%Z.leb_gt].
  destruct (match prev with Some p => le_decode ch <=? p | None => false end) eqn:Hp; [done|].
  intros H. inv_res. destruct (IH _ _ Ha) as (->&Hf&Hs&Hl). specialize (Hl _ eq_refl).
  split_and!; [done|constructor; [lia|done]|by constructor|].
  intros p ->. apply Z.leb_gt in Hp. constructor; [done|]. eapply Forall_impl; [exact Hl|]. intros x Hx. cbn in Hx. lia.
Qed.

(** * Steps that only move pages from the free list to the pool *)

Definition scrub (s : WriteTxn) : WriteTxn :=
  set_ex (set_pool [] (set_taken_runs [] (ex s))) (set_pg (set_drawn [] None (set_reusable [] (pg s)))
    (set_allocs 0 (set_recomputed (set_eng (set_pin_cache 0 (eng s)) s)))).

(** An entry as commits write it. *)
Definition entry_wf (e : Eng) (kv : bytes * bytes) : Prop :=
  length kv.1 = 11%nat ∧
  (key_kind kv.1 = FK_PAGES ∧ (length kv.2 `mod` 8 = 0)%nat ∧ is_ok (decode_ids (data_start e) (page_count e) None (chunks 8 kv.2)) = true ∨
   key_kind kv.1 = FK_RUNS ∧ is_ok (decode_run_entry kv.2 (data_start e) (page_count e)) = true ∧ Forall is_byte kv.2).

(** ** Runs of pages *)

Definition tagged (i : nat) (pool : list PoolRun) : list PoolRun := filter (λ r, run_from r = Some i) pool.

(** No extent was written or freed; the pool of runs is in order and made of
    the entries drawn, each whole. *)
Record runs_ok (x : Extents) : Prop := {
  ru_idle : pending_map_edits x = [] ∧ parked_runs x = [] ∧ extent_buf x = [];
  ru_freed : freed_runs x = [];
  ru_sorted : StronglySorted (λ a b, run_start a ≤ run_start b) (run_pool x);
  ru_from : Forall (λ r, ∃ i, run_from r = Some i ∧ (i < length (taken_runs x))%nat) (run_pool x);
  ru_kept : ∀ i e, taken_runs x !! i = Some e → map (λ r, (run_start r, run_npages r)) (tagged i (run_pool x)) = tr_runs e;
}.

Abbreviation pool_sorted := (StronglySorted (λ a b : PoolRun, run_start a ≤ run_start b)).

(** A sorted pool around the place of a new run. *)
Lemma partition_point_split x (pool : list PoolRun) : pool_sorted pool →
  let n := partition_point (λ r, run_start r <? x) pool in
  Forall (λ r, run_start r < x) (take n pool) ∧ Forall (λ r, x ≤ run_start r) (drop n pool).
Proof.
  induction 1 as [|r pool Hs IH Hf]; cbn; [split; constructor|]. destruct IH as [IH1 IH2]. destruct (Z.ltb_spec (run_start r) x); cbn; [by split; [constructor|]|].
  split; [constructor|]. constructor; [done|]. eapply Forall_impl; [exact Hf|]. intros y Hy. cbn in Hy. lia.
Qed.

Lemma pool_insert_sorted x n from pool : pool_sorted pool → pool_sorted (pool_insert x n from pool).
Proof.
  intros Hs. destruct (partition_point_split x pool Hs) as [H1 H2]. unfold pool_insert, insert_at. rewrite Forall_forall in H1, H2.
  rewrite <- (take_drop (partition_point (λ r, run_start r <? x) pool) pool) in Hs.
  apply StronglySorted_app in Hs as (H3&H4&H5). apply StronglySorted_app. split_and!; [|done|constructor; [done|]].
  - intros a b Ha [->|Hb]%elem_of_cons; [cbn; specialize (H1 _ Ha); cbn in H1; lia|by apply H3].
  - apply Forall_forall. intros b Hb. cbn. by apply H2.
Qed.

Lemma tagged_insert x n i j pool : pool_sorted pool → (i = j → Forall (λ r, run_start r < x) (tagged i pool)) →
  tagged i (pool_insert x n (Some j) pool) = tagged i pool ++ (if decide (i = j) then [MkPoolRun x n (Some j)] else []).
Proof.
  intros Hs Hl. destruct (partition_point_split x pool Hs) as [_ H2]. unfold pool_insert, insert_at, tagged in *.
  set (k := partition_point _ _) in *. rewrite <- (take_drop k pool) in Hl |- * at 3. rewrite !filter_app, filter_cons. cbn [run_from].
  destruct (decide (i = j)) as [->|Hne].
  - rewrite decide_True by done. assert (filter (λ r, run_from r = Some j) (drop k pool) = []) as ->; [|by rewrite app_nil_r].
    apply filter_none. intros r Hr Hf. specialize (Hl eq_refl). rewrite filter_app, Forall_app, !Forall_forall in Hl. destruct Hl as [_ Hl].
    rewrite Forall_forall in H2. specialize (H2 r Hr). specialize (Hl r). cbn in *. rewrite list_elem_of_filter in Hl. specialize (Hl (conj Hf Hr)). lia.
  - rewrite decide_False by congruence. by rewrite app_nil_r.
Qed.

(** Adding the runs of one entry, in order, to the pool. *)
Lemma pool_runs_spec j runs : ∀ pool, pool_sorted pool → StronglySorted (λ a b : Z * Z, a.1 < b.1) runs →
  (∀ r q, r ∈ tagged j pool → q ∈ runs → run_start r < q.1) →
  let pool' := pool_runs j runs pool in
  pool_sorted pool' ∧ tagged j pool' = tagged j pool ++ map (λ q, MkPoolRun q.1 q.2 (Some j)) runs ∧
  (∀ i, i ≠ j → tagged i pool' = tagged i pool) ∧ (∀ r, r ∈ pool' → r ∈ pool ∨ run_from r = Some j).
Proof.
  induction runs as [|[x n] runs IH]; intros pool Hs Ha Hb; cbn [map].
  { rewrite app_nil_r. split_and!; cbn; auto. }
  change (pool_runs j ((x, n) :: runs) pool) with (pool_runs j runs (pool_insert x n (Some j) pool)).
  apply StronglySorted_inv in Ha as [Ha Hf]. rewrite Forall_forall in Hf.
  assert (Forall (λ r, run_start r < x) (tagged j pool)) as Hlt by (apply Forall_forall; intros r Hr; apply (Hb r (x, n) Hr); constructor).
  pose proof (tagged_insert x n j j pool Hs (λ _, Hlt)) as Ht. rewrite decide_True in Ht by done.
  destruct (IH (pool_insert x n (Some j) pool)) as (I1&I2&I3&I4); [by apply pool_insert_sorted|done| |].
  - intros r q. rewrite Ht, elem_of_app, list_elem_of_singleton. intros [Hr|Hr] Hq; [apply Hb; [done|by constructor]|subst r]. by apply (Hf q).
  - split_and!; [done| | |].
    + rewrite I2, Ht, <- (assoc_L (++)). done.
    + intros i Hi. rewrite I3 by done. rewrite tagged_insert by (done || (by intros ->)). rewrite decide_False by done. by rewrite app_nil_r.
    + intros r [Hr|?]%I4; [|by right]. unfold pool_insert, insert_at in Hr. rewrite elem_of_app, elem_of_cons in Hr.
      destruct Hr as [Hr|[->|Hr]]; [left; eapply elem_of_sublist; [exact Hr|apply sublist_take]|by right|left; eapply elem_of_sublist; [exact Hr|apply sublist_drop]].
Qed.

Lemma decode_runs_sorted ds pc chs : ∀ prev runs, Forall (Forall is_byte) chs → decode_runs ds pc prev chs = Ok runs →
  StronglySorted (λ a b : Z * Z, a.1 < b.1) runs ∧ Forall (λ r, prev ≤ r.1) runs.
Proof.
  induction chs as [|ch chs IH]; intros prev runs Hb; cbn [decode_runs]; [by intros [= <-]; split; constructor|].
  apply Forall_cons in Hb as [Hb1 Hb]. destruct (Z.eqb_spec (le_decode (drop 8 ch)) 0) as [|Hnz]; [done|].
  destruct (_ <=? _); [done|]. destruct (_ || _); [done|]. destruct (_ || _) eqn:Hp; [done|].
  apply orb_false_iff in Hp as [Hp%Z.ltb_ge _]. intros H. inv_res. destruct (IH _ _ Hb Ha) as [Hs Hf].
  assert (0 ≤ le_decode (drop 8 ch)) as Hn by (apply le_decode_bound; by apply Forall_drop).
  split; constructor; try done; (eapply Forall_impl; [exact Hf|]); intros q Hq; cbn in *; lia.
Qed.

Lemma chunks_sub {A} (P : A → Prop) n l : ∀ fuel, Forall P l → Forall (Forall P) (chunks_loop fuel n l).
Proof.
  intros fuel. revert l. induction fuel as [|fuel IH]; intros l Hl; [constructor|]. destruct l as [|x l]; [constructor|]. cbn [chunks_loop].
  constructor; [by apply Forall_take|]. by apply IH, Forall_drop.
Qed.

Record pool_step (m0 : kvs) (s s' : WriteTxn) : Prop := {
  pl_scrub : scrub s' = scrub s;
  pl_limit : reuse_limit s' = reuse_limit s;
  pl_perm : reusable (pg s') ++ ids_of (undrawn m0 s') ≡ₚ reusable (pg s) ++ ids_of (undrawn m0 s);
  pl_drawn : ∀ id, id ∈ reusable (pg s') → id ∈ reusable (pg s) ∨ drawable m0 s id;
  pl_rest : ∀ e, e ∈ undrawn m0 s' → e ∈ undrawn m0 s;
  pl_sorted : StronglySorted Z.le (reusable (pg s)) → StronglySorted Z.le (reusable (pg s'));
  pl_taken : taken_ok m0 s → taken_ok m0 s';
  pl_runs : Forall (entry_wf (eng s)) (undrawn m0 s) → runs_ok (ex s) → runs_ok (ex s');
}.

(** What a scrubbed state still shows. *)
Lemma scrub_fields s s' : scrub s' = scrub s →
  (mem (eng s') = mem (eng s) ∧ data_start (eng s') = data_start (eng s) ∧ files (eng s') = files (eng s)) ∧
  (dirty (pg s') = dirty (pg s) ∧ freed (pg s') = freed (pg s) ∧ high_water (pg s') = high_water (pg s) ∧
   freelist_root (pg s') = freelist_root (pg s)) ∧
  (in_freelist_op s' = in_freelist_op s ∧ reserved_alloc s' = reserved_alloc s ∧ in_place s' = in_place s ∧
   inplace_undo s' = inplace_undo s ∧ sp_layers s' = sp_layers s) ∧
  extent_buf (ex s') = extent_buf (ex s) ∧ extent_buf_off (ex s') = extent_buf_off (ex s).
Proof.
  intros H. split_and!;
    [exact (f_equal (λ x, mem (eng x)) H)|exact (f_equal (λ x, data_start (eng x)) H)|exact (f_equal (λ x, files (eng x)) H)
    |exact (f_equal (λ x, dirty (pg x)) H)|exact (f_equal (λ x, freed (pg x)) H)|exact (f_equal (λ x, high_water (pg x)) H)
    |exact (f_equal (λ x, freelist_root (pg x)) H)|exact (f_equal in_freelist_op H)|exact (f_equal reserved_alloc H)
    |exact (f_equal in_place H)|exact (f_equal inplace_undo H)|exact (f_equal sp_layers H)
    |exact (f_equal (λ x, extent_buf (ex x)) H)|exact (f_equal (λ x, extent_buf_off (ex x)) H)].
Qed.

Lemma drawable_mono m0 s s' id : pool_step m0 s s' → drawable m0 s' id → drawable m0 s id.
Proof. intros P (e&H1&H2&H3). exists e. rewrite (pl_limit _ _ _ P) in H3. split; [by apply (pl_rest _ _ _ P)|done]. Qed.

Lemma entry_wf_pool m0 s s' : pool_step m0 s s' → Forall (entry_wf (eng s)) (undrawn m0 s) → Forall (entry_wf (eng s')) (undrawn m0 s').
Proof.
  intros P. rewrite !Forall_forall. intros H e He%(pl_rest _ _ _ P). specialize (H e He).
  destruct (scrub_fields _ _ (pl_scrub _ _ _ P)) as ((Hm&Hds&_)&_). unfold entry_wf, page_count in *. by rewrite Hm, Hds.
Qed.

#[global] Instance pool_step_preorder m0 : PreOrder (pool_step m0).
Proof.
  split; [intros s; split; auto|]. intros s1 s2 s3 P1 P2. split.
  - by rewrite (pl_scrub _ _ _ P2), (pl_scrub _ _ _ P1).
  - by rewrite (pl_limit _ _ _ P2), (pl_limit _ _ _ P1).
  - by rewrite (pl_perm _ _ _ P2), (pl_perm _ _ _ P1).
  - intros id [?|?]%(pl_drawn _ _ _ P2); [by apply (pl_drawn _ _ _ P1)|right]. by eapply drawable_mono.
  - intros e ?%(pl_rest _ _ _ P2). by apply (pl_rest _ _ _ P1).
  - intros. by apply (pl_sorted _ _ _ P2), (pl_sorted _ _ _ P1).
  - intros. by apply (pl_taken _ _ _ P2), (pl_taken _ _ _ P1).
  - intros Hw Hr. apply (pl_runs _ _ _ P2); [by apply (entry_wf_pool _ _ _ P1)|by apply (pl_runs _ _ _ P1)].
Qed.

(** A step that moves no page. *)
Lemma pool_step_idle m0 s s' : scrub s' = scrub s → reuse_limit s' = reuse_limit s → reusable (pg s') = reusable (pg s) →
  refill_cursor (pg s') = refill_cursor (pg s) → taken (pg s') = taken (pg s) → ex s' = ex s → pool_step m0 s s'.
Proof.
  intros H1 H2 H3 H4 H5 H6. assert (undrawn m0 s' = undrawn m0 s) as Hu by (unfold undrawn; by rewrite H4).
  split; rewrite ?H3, ?Hu; auto.
  - unfold taken_ok, drawn. by rewrite H4, H5.
  - by rewrite H6.
Qed.

Lemma reuse_bound_spec m0 s t b s1 : reuse_bound t s = (b, s1) →
  pool_step m0 s s1 ∧ ((b <? t) = false → t ≤ reuse_limit s1) ∧ refill_cursor (pg s1) = refill_cursor (pg s).
Proof.
  unfold reuse_bound, compute_oldest_pinned. destruct (bound_recomputed s) eqn:Hr; rewrite ?andb_false_r; cbn [negb].
  { intros [= <- <-]. split_and!; [done| |done]. intros Hb%Z.ltb_ge. unfold reuse_limit. by rewrite Hr. }
  rewrite andb_true_r. destruct (_ <? _) eqn:Hc; intros [= <- <-].
  - split_and!; [|cbn; intros Hb%Z.ltb_ge; unfold reuse_limit; cbn; lia|done].
    apply pool_step_idle; try done. unfold reuse_limit. cbn. by rewrite Hr.
  - split_and!; [done| |done]. intros Hb%Z.ltb_ge. unfold reuse_limit. rewrite Hr. lia.
Qed.

(** * Drawing *)

Section Drawing.
Context (m0 : kvs) (Hsorted : kv_sorted m0).

(** The cursor is on the entry just drawn. *)
Lemma drawn_undrawn s s' k v rest : undrawn m0 s = (k, v) :: rest → refill_cursor (pg s') = Some k → undrawn m0 s' = rest.
Proof. intros Hu Hc. unfold undrawn. rewrite Hc. by eapply undrawn_next. Qed.

Lemma draw_pages_spec s k v rest r s' : undrawn m0 s = (k, v) :: rest → key_kind k = FK_PAGES → key_txn k ≤ reuse_limit s →
  draw_pages k v s = (r, s') → pool_step m0 s s'.
Proof.
  intros Hu Hk Ht. unfold draw_pages. destruct (decode_ids _ _ _ _) as [ids| |] eqn:Hd; [|by intros [= _ <-]..].
  intros [= _ <-]. apply decode_ids_Ok in Hd as (Hids&_). set (s' := set_pg _ s).
  assert (undrawn m0 s' = rest) as Hr by by eapply drawn_undrawn.
  assert (entry_ids (k, v) = ids) as He by (unfold entry_ids; cbn [fst snd]; by rewrite Hk).
  split; [done|done|..]; rewrite ?Hr, ?Hu.
  - cbn. rewrite merge_sort_Permutation. unfold ids_of. cbn [map concat]. rewrite He. by rewrite (assoc_L (++)).
  - cbn. intros id. rewrite merge_sort_Permutation, elem_of_app. intros [?|?]; [by left|right].
    exists (k, v). rewrite Hu, He. split; [constructor|done].
  - intros e He'. by constructor.
  - intros _. cbn. apply Sorted_StronglySorted; [apply _|]. apply Sorted_merge_sort; apply _.
  - unfold taken_ok. rewrite (drawn_next m0 s s' k v rest) by done. cbn. intros ->.
    rewrite filter_app, filter_cons_True by done. by rewrite filter_nil, map_app, <- He.
  - done.
Qed.

(** A drawn run entry is in the pool as it was in the free list. *)
Lemma draw_runs_ok s k v runs s' : decode_run_entry v (data_start (eng s)) (page_count (eng s)) = Ok runs → Forall is_byte v →
  ex s' = set_pool (pool_runs (length (taken_runs (ex s))) runs (run_pool (ex s))) (set_taken_runs (taken_runs (ex s) ++ [MkTakenRuns k runs]) (ex s)) →
  runs_ok (ex s) → runs_ok (ex s').
Proof.
  intros Hd Hb Hx [A0 A1 A2 A3 A4]. rewrite Forall_forall in A3. set (j := length (taken_runs (ex s))) in *.
  assert (StronglySorted (λ a b : Z * Z, a.1 < b.1) runs) as Hr.
  { unfold decode_run_entry in Hd. destruct (_ || _); [done|]. eapply decode_runs_sorted; [|exact Hd]. by apply chunks_sub. }
  assert (tagged j (run_pool (ex s)) = []) as Hj.
  { apply filter_none. intros r Hin Hf. destruct (A3 r Hin) as (i&Hi&Hlt). rewrite Hf in Hi. injection Hi as Hi. lia. }
  destruct (pool_runs_spec j runs _ A2 Hr) as (B1&B2&B3&B4); [rewrite Hj; by intros ? ? ?%elem_of_nil|]. rewrite Hj in B2. cbn [app] in B2.
  assert (length (taken_runs (ex s')) = S j) as Hlen by (rewrite Hx; cbn; rewrite length_app; cbn; unfold j; lia). split.
  - by rewrite Hx.
  - by rewrite Hx.
  - by rewrite Hx.
  - rewrite Hlen, Hx. apply Forall_forall. intros r [Hin|Hf]%B4; [|by exists j; split; [|lia]]. destruct (A3 r Hin) as (i&Hi&Hlt).
    exists i. split; [done|]. unfold j. lia.
  - intros i e. rewrite Hx. cbn [set_pool set_taken_runs run_pool taken_runs]. intros [He|[Hge He]]%lookup_app_Some.
    + apply lookup_lt_Some in He as Hlt. rewrite B3 by (unfold j; lia). by apply A4.
    + apply list_lookup_singleton_Some in He as [Hi <-]. assert (i = j) as -> by (unfold j; lia).
      rewrite B2, map_map. cbn. rewrite <- (map_id runs) at 2. apply map_ext. by intros [].
Qed.

Lemma draw_runs_spec s k v rest r s' : undrawn m0 s = (k, v) :: rest → key_kind k = FK_RUNS →
  draw_runs k v s = (r, s') → pool_step m0 s s'.
Proof.
  intros Hu Hk. unfold draw_runs. destruct (_ && _); [by intros [= _ <-]|].
  destruct (decode_run_entry _ _ _) as [runs| |] eqn:Hdec; [|by intros [= _ <-]..]. intros [= _ <-]. set (s' := set_pg _ _).
  assert (undrawn m0 s' = rest) as Hr by by eapply drawn_undrawn.
  assert (entry_ids (k, v) = []) as He by (unfold entry_ids; cbn [fst]; by rewrite Hk).
  split; [done|done|..]; rewrite ?Hr, ?Hu; [|by left| |done| |].
  - unfold ids_of. cbn [map concat]. by rewrite He.
  - intros e He'. by constructor.
  - unfold taken_ok. rewrite (drawn_next m0 s s' k v rest) by done. cbn. intros ->.
    rewrite filter_app, filter_cons_False by (cbn; by rewrite Hk). by rewrite filter_nil, app_nil_r.
  - rewrite Forall_cons. intros [[_ Hw] _] Hok. destruct Hw as [(Hk'&_)|(_&_&Hb)]; [cbn in Hk'; by rewrite Hk in Hk'|].
    by eapply (draw_runs_ok s k v runs).
Qed.

Lemma draw_entry_spec s k v rest r s' : undrawn m0 s = (k, v) :: rest → draw_entry k v s = (r, s') → pool_step m0 s s'.
Proof.
  intros Hu. unfold draw_entry. destruct (negb _); [by intros [= _ <-]|].
  destruct (negb _) eqn:Hkind; [by intros [= _ <-]|]. destruct (_ && _); [by intros [= _ <-]|].
  destruct (reuse_bound (key_txn k) s) as [b s1] eqn:Hb. apply (reuse_bound_spec m0) in Hb as (P&Hle&Hc).
  destruct (b <? _); [by intros [= _ <-]|]. specialize (Hle eq_refl).
  assert (undrawn m0 s1 = (k, v) :: rest) as Hu1 by (unfold undrawn; by rewrite Hc).
  destruct (Z.eqb_spec (key_kind k) FK_RUNS) as [Hk|Hk]; intros Hd; (transitivity s1; [done|]).
  - by eapply draw_runs_spec.
  - apply negb_false_iff, orb_true_iff in Hkind as [?|Hk0%Z.eqb_eq]; [lia|]. by eapply draw_pages_spec.
Qed.

Lemma draw_entry_ok s k v : entry_wf (eng s) (k, v) → ∃ b s', draw_entry k v s = (Ok b, s').
Proof.
  intros [Hl Hk]. unfold draw_entry. cbn [fst snd] in *. rewrite bool_decide_true by done. cbn [negb].
  destruct (reuse_bound (key_txn k) s) as [b s1] eqn:Hb.
  pose proof (proj1 (reuse_bound_spec m0 _ _ _ _ Hb)) as P. apply pl_scrub, scrub_fields in P as ((Hm&Hds&_)&_).
  destruct Hk as [(->&Hmod&Hd)|(->&Hd&_)]; cbn [Z.eqb orb negb andb]; unfold FK_PAGES, FK_RUNS; cbn [Z.eqb Pos.eqb orb negb andb].
  - rewrite bool_decide_true by done. cbn [negb]. destruct (b <? _); [by eexists _, _|]. unfold draw_pages, page_count in *.
    rewrite Hm, Hds. destruct (decode_ids _ _ _ _); try done. by eexists _, _.
  - destruct (b <? _); [by eexists _, _|]. unfold draw_runs, page_count in *. destruct (_ && _); [by eexists _, _|].
    rewrite Hm, Hds. destruct (decode_run_entry _ _ _); try done. by eexists _, _.
Qed.
End Drawing.

(** * States in which a draw reads the free list it should *)

Section Safe.
Context (content_hash : bytes → Z) (m0 : kvs) (Ffl : rset).

Definition freelist_tree (s : WriteTxn) (h : nat) : Prop :=
  @tree_rep WriteTxn shared shared_view content_hash s h (freelist_root (pg s)) Ffl m0.

(** While the free list is not being rewritten it is a tree with bindings [m0]
    on pages of its own. *)
Record safe (s : WriteTxn) : Prop := {
  sf_mem : Forall (λ p, length p = PAGE_SIZE) (mem (eng s));
  sf_sorted : kv_sorted m0;
  sf_tree : in_freelist_op s = false → ∃ h, (h < 64)%nat ∧ freelist_tree s h;
  sf_own : in_freelist_op s = false → ∀ id, Pg id ∈ Ffl →
    (id ∉ dirty (pg s)) ∧ (id ∉ reusable (pg s) ++ ids_of (undrawn m0 s)) ∧ 0 < id < high_water (pg s);
}.

Lemma safe_pool s s' : pool_step m0 s s' → safe s → safe s'.
Proof.
  intros P S. destruct (scrub_fields _ _ (pl_scrub _ _ _ P)) as ((Hm&_&Hf)&(Hd&_&Hh&Hr)&(Ho&_)&_). split.
  - rewrite Hm. apply S.
  - apply S.
  - rewrite Ho. intros Hop. destruct (sf_tree _ S Hop) as (h&Hlt&Ht). exists h. split; [done|]. unfold freelist_tree in *.
    rewrite Hr. eapply freelist_tree_alike; [| | |exact Ht]; [unfold page_count; by rewrite Hm|done|].
    intros id _. unfold page_of. by rewrite Hm.
  - rewrite Ho, Hd, Hh. intros Hop id Hin. rewrite (pl_perm _ _ _ P). by apply (sf_own _ S).
Qed.

Lemma refill_spec s r s' : safe s → in_freelist_op s = false → refill_reusable content_hash s = (r, s') → pool_step m0 s s'.
Proof.
  intros S Hop. unfold refill_reusable. destruct (_ =? _); [by intros [= _ <-]|].
  destruct (sf_tree _ S Hop) as (h&Hlt&Ht). rewrite (next_entry_spec _ _ _ _ _ (sf_mem _ S) Ht Hlt).
  destruct (undrawn m0 s) as [|[k v] rest] eqn:Hu; cbn [head]; [by intros [= _ <-]|].
  eapply draw_entry_spec; [apply S|done].
Qed.

Lemma refill_ok s : safe s → in_freelist_op s = false → Forall (entry_wf (eng s)) (undrawn m0 s) →
  ∃ b s', refill_reusable content_hash s = (Ok b, s').
Proof.
  intros S Hop Hw. unfold refill_reusable. destruct (_ =? _); [by eexists _, _|].
  destruct (sf_tree _ S Hop) as (h&Hlt&Ht). rewrite (next_entry_spec _ _ _ _ _ (sf_mem _ S) Ht Hlt).
  destruct (undrawn m0 s) as [|[k v] rest] eqn:Hu; cbn [head]; [by eexists _, _|].
  apply Forall_cons in Hw as [Hw _]. by eapply draw_entry_ok.
Qed.

Lemma draw_pool_spec n : ∀ s r s', safe s → in_freelist_op s = false → draw_pool content_hash n s = (r, s') → pool_step m0 s s'.
Proof.
  induction n as [|n IH]; intros s r s' S Hop; cbn [draw_pool]; [by intros [= _ <-]|].
  case_bool_decide; [by intros [= _ <-]|]. unfold mbind, M_mbind.
  destruct (refill_reusable content_hash s) as [[b|e|] s1] eqn:Hr; pose proof (refill_spec _ _ _ S Hop Hr) as P; [|by intros [= _ <-]..].
  destruct b; [|by intros [= _ <-]]. intros Hd. transitivity s1; [done|].
  eapply IH; [by eapply safe_pool| |exact Hd]. by destruct (scrub_fields _ _ (pl_scrub _ _ _ P)) as (_&_&(->&_)&_).
Qed.

Lemma draw_pool_ok n : ∀ s, safe s → in_freelist_op s = false → Forall (entry_wf (eng s)) (undrawn m0 s) →
  ∃ s', draw_pool content_hash n s = (Ok tt, s').
Proof.
  induction n as [|n IH]; intros s S Hop Hw; cbn [draw_pool]; [by eexists|]. case_bool_decide; [by eexists|].
  destruct (refill_ok s S Hop Hw) as (b&s1&Hr). unfold mbind, M_mbind. rewrite Hr. pose proof (refill_spec _ _ _ S Hop Hr) as P.
  destruct b; [|by eexists]. apply IH; [by eapply safe_pool| |by eapply entry_wf_pool].
  by destruct (scrub_fields _ _ (pl_scrub _ _ _ P)) as (_&_&(->&_)&_).
Qed.

(** [alloc_id] draws, then takes a page. *)
Lemma alloc_id_steps s r s' : safe s → alloc_id content_hash s = (r, s') →
  pool_step m0 s s' ∧ (∀ id, r ≠ Ok id) ∨ ∃ s1, pool_step m0 s s1 ∧ take_page s1 = (r, s').
Proof.
  intros S. unfold alloc_id. unfold mbind at 1, M_mbind at 1. cbn [modify].
  set (sa := set_allocs _ s). assert (pool_step m0 s sa) as Pa by by apply pool_step_idle.
  set (d := if bool_decide (reusable (pg s) = []) && negb (in_freelist_op s) then _ else _).
  assert (∀ r1 s1, d sa = (r1, s1) → pool_step m0 s s1) as Hdraw.
  { intros r1 s1. unfold d. destruct (_ && negb _) eqn:Hc; [|by intros [= _ <-]]. apply andb_true_iff in Hc as [_ Hop%negb_true_iff].
    intros Hd. transitivity sa; [done|]. eapply draw_pool_spec; [by eapply safe_pool|done|exact Hd]. }
  unfold mbind, M_mbind. destruct (d sa) as [[u|e|] s1].
  - intros Ht. right. exists s1. split; [by eapply Hdraw|done].
  - intros [= <- <-]. left. split; [by eapply Hdraw|done].
  - intros [= <- <-]. left. split; [by eapply Hdraw|done].
Qed.

Lemma alloc_id_ok s : safe s → (in_freelist_op s = false → Forall (entry_wf (eng s)) (undrawn m0 s)) →
  ∃ s1, pool_step m0 s s1 ∧ alloc_id content_hash s = take_page s1.
Proof.
  intros S Hw. unfold alloc_id. unfold mbind at 1, M_mbind at 1. cbn [modify].
  set (sa := set_allocs _ s). assert (pool_step m0 s sa) as Pa by by apply pool_step_idle.
  destruct (_ && negb _) eqn:Hc; [|by exists sa]. apply andb_true_iff in Hc as [_ Hop%negb_true_iff].
  destruct (draw_pool_ok FREELIST_POOL_DRAWS sa) as [s1 Hd]; [by eapply safe_pool|done|by apply Hw|].
  exists s1. unfold mbind, M_mbind. rewrite Hd. split; [|done]. transitivity sa; [done|].
  eapply draw_pool_spec; [by eapply safe_pool|done|exact Hd].
Qed.

Lemma pop_Some l id rest : pop l = Some (id, rest) → l = rest ++ [id].
Proof.
  unfold pop. destruct (last l) as [x|] eqn:Hl; [|done]. intros [= <- <-]. apply last_Some in Hl as [l' ->].
  rewrite length_app. cbn. by rewrite take_app_le, firstn_all2 by lia.
Qed.

Lemma pop_None l : pop l = None → l = [].
Proof. unfold pop. destruct (last l) eqn:Hl; [done|]. by apply last_None in Hl. Qed.

(** The page taken was in the pool or is a new one. *)
Lemma take_page_cases s r s' : take_page s = (r, s') →
  (∃ id rest, r = Ok id ∧ reusable (pg s) = rest ++ [id] ∧ s' = set_pg (set_reusable rest (pg s)) s) ∨
  reusable (pg s) = [] ∧
  (r = Ok (high_water (pg s)) ∧ high_water (pg s) < ceiling s ∧ s' = set_pg (set_high_water (high_water (pg s) + 1) (pg s)) s ∨
   r = Err DbFull ∧ ceiling s ≤ high_water (pg s) ∧ s' = s).
Proof.
  unfold take_page. destruct (pop _) as [[id rest]|] eqn:Hp.
  - intros [= <- <-]. left. exists id, rest. split_and!; [done|by apply pop_Some|done].
  - intros Ht. right. split; [by apply pop_None|]. destruct (Z.leb_spec (ceiling s) (high_water (pg s))); [right|left]; by injection Ht as <- <-.
Qed.

Lemma ceiling_le s : 0 ≤ page_count (eng s) → ceiling s ≤ page_count (eng s).
Proof. unfold ceiling, RESERVED_CONTROL_PAGES. destruct (reserved_alloc s); lia. Qed.
End Safe.
