(* ===== verification/TxnStore.v ===== *)
(** The write transaction satisfies the laws of [PageStore.StoreLaws], so every
    theorem proved of the B+tree against them holds of it. No operation touches
    a page a snapshot at or above the reuse bound can read. *)

From S2P Require Import Prelude BtreeNode PageStore Btree Overflow KvMap BtreeRep Cursor Txn TxnPool.
Local Open Scope Z_scope.

Section Store.
(** [m0] and [Ffl] are the bindings and the pages of the free list the
    transaction started from, [C0] the committed pages of the other trees. *)
Context (content_hash : bytes → Z) (m0 : kvs) (Ffl : rset) (C0 : gset Z).

(** * The view *)

Definition page_live (s : WriteTxn) (id : Z) : Prop :=
  id ∈ dirty (pg s) ∨ id ∈ C0 ∧ (id ∉ freed (pg s)) ∧ id ∉ reusable (pg s).

Definition in_data (s : WriteTxn) (id : Z) : Prop := data_start (eng s) ≤ id < high_water (pg s).

Record txn_ok (s : WriteTxn) : Prop := {
  to_safe : safe content_hash m0 Ffl s;
  to_bounds : 0 < data_start (eng s) ≤ high_water (pg s) ∧ high_water (pg s) ≤ page_count (eng s) < 2 ^ 64;
  to_dirty : ∀ id, id ∈ dirty (pg s) → in_data s id ∧ id ∉ freed (pg s);
  to_c0 : ∀ id, id ∈ C0 → in_data s id;
  to_freed : ∀ id, id ∈ freed (pg s) → in_data s id;
  to_nodup : NoDup (reusable (pg s) ++ ids_of (undrawn m0 s));
  to_pool : ∀ id, id ∈ reusable (pg s) ++ ids_of (undrawn m0 s) → in_data s id ∧ (id ∉ dirty (pg s)) ∧ id ∉ freed (pg s);
  to_undrawn : ∀ id, id ∈ ids_of (undrawn m0 s) → id ∉ C0;
  to_sorted : StronglySorted Z.le (reusable (pg s));
  to_entries : Forall (entry_wf (eng s)) (undrawn m0 s);
  to_own : in_freelist_op s = false → ∀ id, Pg id ∈ Ffl → in_data s id ∧ (id ∉ C0) ∧ id ∉ freed (pg s);
  to_runs : runs_ok (ex s);
}.

(** A committed page that a snapshot no older than the bound may read: this
    transaction has not taken it, and the bound keeps it from taking it. *)
Record protected (s : WriteTxn) (id : Z) : Prop := {
  pr_safe : safe content_hash m0 Ffl s;
  pr_mode : in_place s = false;
  pr_range : 0 < id < high_water (pg s);
  pr_clean : id ∉ dirty (pg s);
  pr_pool : id ∉ reusable (pg s);
  pr_bound : ¬ drawable m0 s id;
}.

Definition txn_view : StoreView WriteTxn := {|
  live s r := match r with inl id => 0 < id < page_count (eng s) ∧ page_live s id | inr _ => False end;
  bytes_at := page_of;
  ok := txn_ok;
  out_of_space o s := o = Some DbFull ∧ reusable (pg s) = [] ∧ ceiling s ≤ high_water (pg s);
  pinned := protected |}.

#[local] Instance txn_pages : PageStore WriteTxn := txn_store content_hash.
#[local] Existing Instance txn_view.

Lemma live_data s id : txn_ok s → page_live s id → in_data s id.
Proof. intros O [Hd|[Hc _]]; [by apply (to_dirty _ O)|by apply (to_c0 _ O)]. Qed.

Lemma live_range s id : txn_ok s → page_live s id → 0 < id < 2 ^ 64 ∧ id < page_count (eng s).
Proof. intros O Hl%live_data; [|done]. pose proof (to_bounds _ O). unfold in_data in *. lia. Qed.

Lemma live_of s id : txn_ok s → page_live s id → live s (Pg id).
Proof. intros O Hl. split; [|done]. pose proof (live_range _ _ O Hl). lia. Qed.

Lemma eff_pages s s' F F' : txn_ok s → txn_ok s' → files (eng s') = files (eng s) →
  (∀ id, page_live s id → Pg id ∉ F → (Pg id ∉ F') ∧ page_live s' id ∧ page_of s' id = page_of s id ∧
     (id ∈ dirty (pg s') ↔ id ∈ dirty (pg s))) →
  (∀ r, r ∈ F' → ∃ id, r = Pg id ∧ page_live s' id) →
  (∀ id, page_live s' id → Pg id ∈ F' ∨ page_live s id ∧ Pg id ∉ F) →
  eff s s' F F'.
Proof.
  intros O O' Hf Hfr Hin Hb. split.
  - done.
  - intros [id|e]; [|by intros []]. intros [_ Hi] Hn. destruct (Hfr id Hi Hn) as (?&?&?&Hd). split_and!; [done|by apply live_of|]. split; [done|].
    cbn. unfold is_dirty. by apply bool_decide_ext.
  - intros r Hr. destruct (Hin r Hr) as (id&->&?). by apply live_of.
  - intros [id|e]; [|by intros []]. intros [_ Hi]. destruct (Hb id Hi) as [?|[? ?]]; [by left|right]. split; [by apply live_of|done].
  - intros h t. cbn. unfold read_external, read_external_payload. by rewrite Hf.
Qed.

(** ** What the journal changes *)

Lemma journal_layers id s : ∃ l, journal id s = set_layers l s.
Proof.
  unfold journal. assert (s = set_layers (sp_layers s) s) as Hs by by destruct s.
  destruct (sp_layers s) as [|l ls]; [by eexists|]. destruct (shm_page _ _); [|by eexists..].
  destruct (images l !! id); by eexists.
Qed.

(** Only the mapping, the page sets and the phase matter. *)
Lemma safe_same s s' : eng s' = eng s → pg s' = pg s → in_freelist_op s' = in_freelist_op s →
  safe content_hash m0 Ffl s → safe content_hash m0 Ffl s'.
Proof.
  intros He Hp Ho S. assert (undrawn m0 s' = undrawn m0 s) as Hu by (unfold undrawn; by rewrite Hp).
  destruct S as [H1 H2 H3 H4]. split; rewrite ?He, ?Hp, ?Ho, ?Hu; try done. intros Hop.
  destruct (H3 Hop) as (h&Hlt&Ht). exists h. split; [done|]. unfold freelist_tree in *. rewrite Hp.
  eapply (freelist_tree_alike _ s); [by rewrite He|by rewrite He| |exact Ht]. intros j _. unfold page_of. by rewrite He.
Qed.

Lemma ok_same s s' : eng s' = eng s → pg s' = pg s → ex s' = ex s → in_freelist_op s' = in_freelist_op s → txn_ok s → txn_ok s'.
Proof.
  intros He Hp Hx Ho O. assert (undrawn m0 s' = undrawn m0 s) as Hu by (unfold undrawn; by rewrite Hp).
  destruct O as [O1 O2 O3 O4 O5 O6 O7 O8 O9 O10 O11 O12]. split; unfold in_data in *; rewrite ?He, ?Hp, ?Ho, ?Hu; try done.
  - by eapply safe_same.
  - by rewrite Hx.
Qed.

Lemma ok_layers l s : txn_ok s → txn_ok (set_layers l s).
Proof. by apply ok_same. Qed.

(** ** Writing a page *)

Definition set_page (id : Z) (p : bytes) (s : WriteTxn) : WriteTxn := set_eng (set_mem (<[Z.to_nat id := p]>) (eng s)) s.

Lemma page_of_set_ne s id p j : 0 < j → j ≠ id → page_of (set_page id p s) j = page_of s j.
Proof. intros Hj Hne. unfold page_of. cbn. rewrite list_lookup_insert_ne; [done|]. lia. Qed.

Lemma page_of_set s id p : 0 ≤ id < page_count (eng s) → page_of (set_page id p s) id = p.
Proof. intros Hid. unfold page_of, page_count in *. cbn. by rewrite list_lookup_insert_eq by lia. Qed.

Lemma page_count_set s id p : page_count (eng (set_page id p s)) = page_count (eng s).
Proof. unfold page_count. cbn. by rewrite length_insert. Qed.

Lemma safe_set s id p : length p = PAGE_SIZE → (in_freelist_op s = false → Pg id ∉ Ffl) →
  safe content_hash m0 Ffl s → safe content_hash m0 Ffl (set_page id p s).
Proof.
  intros Hp Hn S. destruct S as [H1 H2 H3 H4] eqn:HS. split; [cbn; by apply Forall_insert|done| |done].
  intros Hop. destruct (H3 Hop) as (h&Hlt&Ht). exists h. split; [done|]. unfold freelist_tree in *.
  eapply (freelist_tree_alike _ s); [apply page_count_set|done| |exact Ht]. intros j Hj. apply page_of_set_ne.
  - by destruct (H4 Hop j Hj) as (_&_&?&_).
  - intros ->. by apply (Hn Hop).
Qed.

Lemma ok_set s id p : length p = PAGE_SIZE → (in_freelist_op s = false → Pg id ∉ Ffl) → txn_ok s → txn_ok (set_page id p s).
Proof.
  intros Hp Hn O. destruct O eqn:HO. split; try done.
  - by apply safe_set.
  - by rewrite page_count_set.
  - eapply Forall_impl; [done|]. intros e. unfold entry_wf. by rewrite page_count_set.
Qed.

Lemma dirty_not_freelist s id : txn_ok s → id ∈ dirty (pg s) → in_freelist_op s = false → Pg id ∉ Ffl.
Proof. intros O Hd Hop Hin. by destruct (sf_own _ _ _ _ (to_safe _ O) Hop id Hin) as (?&_). Qed.

Lemma txn_put_eff s id p : txn_ok s → page_live s id → is_dirty id s = true → length p = PAGE_SIZE →
  eff s (put id p s) {[Pg id]} {[Pg id]} ∧ page_of (put id p s) id = p ∧ is_dirty id (put id p s) = true.
Proof.
  intros O Hl Hd%bool_decide_eq_true Hp. pose proof (live_range _ _ O Hl) as Hr. unfold put. rewrite bool_decide_true by done.
  destruct (journal_layers id s) as [l ->]. change (set_eng _ (set_layers l s)) with (set_page id p (set_layers l s)).
  split_and!; [|apply (page_of_set (set_layers l s)); cbn; lia|by apply bool_decide_eq_true].
  apply eff_pages; [done| |done|..].
  - apply ok_set; [done| |by apply ok_layers]. by apply (dirty_not_freelist s).
  - intros j Hj Hn. split_and!; [done|done| |done]. apply (page_of_set_ne (set_layers l s)); [|set_solver].
    pose proof (live_range _ _ O Hj). lia.
  - intros r ->%elem_of_singleton. by exists id.
  - intros j Hj. destruct (decide (j = id)) as [->|]; [left; set_solver|right; split; [done|set_solver]].
Qed.

(** ** Allocation *)

Lemma undrawn_pool_sub s s' id : pool_step m0 s s' → id ∈ ids_of (undrawn m0 s') → id ∈ ids_of (undrawn m0 s).
Proof.
  intros P. unfold ids_of. rewrite !list_elem_of_In, !in_concat. intros (x&Hx&Hin). exists x. split; [|done].
  apply in_map_iff in Hx as (e&He&Hi). apply in_map_iff. exists e. split; [done|].
  apply list_elem_of_In. apply (pl_rest _ _ _ P). by apply list_elem_of_In.
Qed.

Lemma ok_pool s s' : pool_step m0 s s' → txn_ok s → txn_ok s'.
Proof.
  intros P O. destruct (scrub_fields _ _ (pl_scrub _ _ _ P)) as ((Hm&Hds&_)&(Hd&Hf&Hh&Hr)&(Ho&_)&_).
  assert (∀ id, in_data s' id ↔ in_data s id) as Hin by (intros id; unfold in_data; by rewrite Hds, Hh).
  destruct O as [O1 O2 O3 O4 O5 O6 O7 O8 O9 O10 O11 O12]. split.
  - by eapply safe_pool.
  - unfold page_count. by rewrite Hds, Hh, Hm.
  - intros id. rewrite Hd, Hf, Hin. apply O3.
  - intros id. rewrite Hin. apply O4.
  - intros id. rewrite Hf, Hin. apply O5.
  - by rewrite (pl_perm _ _ _ P).
  - intros id. rewrite (pl_perm _ _ _ P), Hin, Hd, Hf. apply O7.
  - intros id ?%(undrawn_pool_sub _ _ _ P). by apply O8.
  - by apply (pl_sorted _ _ _ P).
  - by eapply entry_wf_pool.
  - rewrite Ho, Hf. intros Hop id Hi. rewrite Hin. by apply O11.
  - by apply (pl_runs _ _ _ P).
Qed.

Lemma live_pool s s' id : pool_step m0 s s' → txn_ok s → page_live s' id ↔ page_live s id.
Proof.
  intros P O. pose proof (ok_pool _ _ P O) as O'.
  destruct (scrub_fields _ _ (pl_scrub _ _ _ P)) as (_&(Hd&Hf&_)&_). unfold page_live. rewrite Hd, Hf.
  assert (id ∈ C0 → id ∈ reusable (pg s') ↔ id ∈ reusable (pg s)) as Hr; [|naive_solver].
  intros Hc. assert (id ∈ reusable (pg s') ++ ids_of (undrawn m0 s') ↔ id ∈ reusable (pg s) ++ ids_of (undrawn m0 s)) as Hp
    by by rewrite (pl_perm _ _ _ P).
  rewrite !elem_of_app in Hp. pose proof (to_undrawn _ O id). pose proof (to_undrawn _ O' id). tauto.
Qed.

(** The state after a page was taken and marked dirty. *)
Definition mark_dirty (id : Z) (s : WriteTxn) : WriteTxn := set_pg (set_dirty ({[id]} ∪ dirty (pg s)) (pg s)) s.

(** A page that leaves the pool, or is new, is not in use. *)
Record fresh (s s1 : WriteTxn) (id : Z) : Prop := {
  fr_ok : txn_ok (mark_dirty id s1);
  fr_new : ¬ page_live s id;
  fr_range : 0 < id < page_count (eng s1);
  fr_mem : mem (eng s1) = mem (eng s);
  fr_files : files (eng s1) = files (eng s);
  fr_dirty : dirty (pg s1) = dirty (pg s);
  fr_live : ∀ j, j ≠ id → page_live s1 j ↔ page_live s j;
  fr_op : in_freelist_op s1 = false → Pg id ∉ Ffl;
}.

Lemma take_pool_fresh s id rest : txn_ok s → reusable (pg s) = rest ++ [id] → fresh s (set_pg (set_reusable rest (pg s)) s) id.
Proof.
  intros O Hp. pose proof (to_nodup _ O) as Hnd. rewrite Hp in Hnd.
  assert (id ∈ reusable (pg s) ++ ids_of (undrawn m0 s)) as Hin by (rewrite Hp; set_solver).
  destruct (to_pool _ O id Hin) as (Hid&Hnd'&Hnf). pose proof (to_bounds _ O) as Hb. unfold in_data in Hid.
  assert ((id ∉ rest) ∧ (id ∉ ids_of (undrawn m0 s)) ∧ NoDup (rest ++ ids_of (undrawn m0 s))) as (Hn1&Hn2&Hn3).
  { apply NoDup_app in Hnd as (H1&H2&H3). apply NoDup_app in H1 as (H1&H4&_). split_and!.
    - intros Hx. by apply (H4 id Hx), list_elem_of_singleton.
    - apply H2. set_solver.
    - apply NoDup_app. split_and!; [done| |done]. intros j Hj. apply H2. set_solver. }
  assert (in_freelist_op s = false → Pg id ∉ Ffl) as Hfl.
  { intros Hop Hx. by destruct (sf_own _ _ _ _ (to_safe _ O) Hop id Hx) as (_&?&_). }
  destruct O as [O1 O2 O3 O4 O5 O6 O7 O8 O9 O10 O11 O12]. split; try done.
  - split; try done; cbn.
    + destruct O1 as [S1 S2 S3 S4]. split; try done; cbn.
      * intros Hop. destruct (S3 Hop) as (h&Hlt&Ht). exists h. split; [done|]. unfold freelist_tree in *.
        by eapply (freelist_tree_alike _ s); [..|exact Ht].
      * intros Hop j Hj. destruct (S4 Hop j Hj) as (A1&A2&A3). rewrite Hp in A2. specialize (Hfl Hop). rewrite !elem_of_app in *.
        split_and!; [|tauto|lia|lia]. intros [->%elem_of_singleton|?]%elem_of_union; tauto.
    + intros j [->%elem_of_singleton|Hj]%elem_of_union; [done|by apply O3].
    + intros j Hj. assert (j ∈ reusable (pg s) ++ ids_of (undrawn m0 s)) as Hj' by (rewrite Hp, !elem_of_app in *; tauto).
      destruct (O7 j Hj') as (A1&A2&A3). split_and!; [done| |done]. intros [->%elem_of_singleton|?]%elem_of_union; [|done]. by apply elem_of_app in Hj as [?|?].
    + rewrite Hp in O9. by apply StronglySorted_app_1_l in O9.
  - intros [?|(_&_&Hx)]; [done|]. rewrite Hp in Hx. set_solver.
  - cbn. lia.
  - intros j Hne. unfold page_live. cbn. rewrite Hp, elem_of_app, list_elem_of_singleton. tauto.
Qed.

Lemma take_new_fresh s : txn_ok s → reusable (pg s) = [] → high_water (pg s) < page_count (eng s) →
  fresh s (set_pg (set_high_water (high_water (pg s) + 1) (pg s)) s) (high_water (pg s)).
Proof.
  intros O Hp Hlt. pose proof (to_bounds _ O) as Hb.
  assert (∀ j, in_data s j → j ≠ high_water (pg s)) as Hne by (unfold in_data; lia).
  assert (∀ j, in_data s j → data_start (eng s) ≤ j < high_water (pg s) + 1) as Hmono by (unfold in_data; lia).
  assert (in_freelist_op s = false → Pg (high_water (pg s)) ∉ Ffl) as Hfl.
  { intros Hop Hx. destruct (sf_own _ _ _ _ (to_safe _ O) Hop _ Hx) as (_&_&?&?). lia. }
  destruct O as [O1 O2 O3 O4 O5 O6 O7 O8 O9 O10 O11 O12]. split; try done.
  - split; try done; unfold in_data; cbn.
    + destruct O1 as [S1 S2 S3 S4]. split; try done; cbn.
      * intros Hop. destruct (S3 Hop) as (h&Hlt'&Ht). exists h. split; [done|]. unfold freelist_tree in *.
        by eapply (freelist_tree_alike _ s); [..|exact Ht].
      * intros Hop j Hj. destruct (S4 Hop j Hj) as (A1&A2&A3). split_and!; [|done|lia|lia].
        intros [->%elem_of_singleton|?]%elem_of_union; [by apply Hfl|done].
    + unfold page_count in *. cbn. lia.
    + intros j [->%elem_of_singleton|Hj]%elem_of_union; [|destruct (O3 j Hj); auto].
      split; [lia|]. intros Hx. by apply (Hne _ (O5 _ Hx)).
    + intros j Hj. by apply Hmono, O4.
    + intros j Hj. by apply Hmono, O5.
    + intros j Hj. destruct (O7 j Hj) as (A1&A2&A3). split_and!; [apply Hmono, A1..| |done].
      intros [->%elem_of_singleton|?]%elem_of_union; [by apply (Hne _ A1)|done].
    + intros Hop j Hj. destruct (O11 Hop j Hj) as (A1&A2). auto.
  - intros [Hx|[Hx _]]; [by apply (Hne _ (proj1 (O3 _ Hx)))|by apply (Hne _ (O4 _ Hx))].
  - unfold page_count in *. cbn. lia.
Qed.

Lemma fresh_live s s1 id j : fresh s s1 id → page_live (mark_dirty id s1) j → j = id ∨ page_live s j.
Proof.
  intros Fr Hl. destruct (decide (j = id)) as [|Hne]; [by left|right]. apply (fr_live _ _ _ Fr j Hne).
  unfold page_live in *. cbn in Hl. rewrite elem_of_union, elem_of_singleton in Hl. tauto.
Qed.

Lemma fresh_eff s s1 id : txn_ok s → fresh s s1 id → eff s (mark_dirty id s1) ∅ {[Pg id]}.
Proof.
  intros O Fr. apply eff_pages; [done|apply Fr|apply Fr|..].
  - intros j Hj _. assert (j ≠ id) as Hne by (intros ->; by apply (fr_new _ _ _ Fr)). split_and!.
    + intros Hx%elem_of_singleton. by injection Hx.
    + apply (fr_live _ _ _ Fr j Hne) in Hj. unfold page_live in *. cbn. rewrite elem_of_union. tauto.
    + unfold page_of. cbn. by rewrite (fr_mem _ _ _ Fr).
    + cbn. rewrite elem_of_union, elem_of_singleton, (fr_dirty _ _ _ Fr). tauto.
  - intros r ->%elem_of_singleton. exists id. split; [done|]. left. cbn. by apply elem_of_union_l, elem_of_singleton.
  - intros j [->|?]%(fresh_live _ _ _ _ Fr); [left; by apply elem_of_singleton|right; split; [done|apply not_elem_of_empty]].
Qed.

Lemma eff_pool s s1 s2 F F' : pool_step m0 s s1 → txn_ok s → eff s1 s2 F F' → eff s s2 F F'.
Proof.
  intros P O E. destruct (scrub_fields _ _ (pl_scrub _ _ _ P)) as ((Hm&_&Hf)&(Hd&_)&_).
  assert (eff s s1 ∅ ∅) as E0.
  { apply eff_pages; [done|by eapply ok_pool|done|..].
    - intros j Hj _. split_and!; [apply not_elem_of_empty|by apply (live_pool _ _ _ P O)|unfold page_of; by rewrite Hm|by rewrite Hd].
    - by intros r ?%elem_of_empty.
    - intros j Hj%(live_pool _ _ _ P O). right. split; [done|apply not_elem_of_empty]. }
  destruct E as [E1 E2 E3 E4 E5]. split; [done| |done| |].
  - intros r Hl Hn. destruct (eff_frame _ _ _ _ E0 r Hl (not_elem_of_empty r)) as (_&Hl1&Hs1).
    destruct (E2 r Hl1 Hn) as (?&?&?). split_and!; [done|done|]. by eapply same_rsrc_trans.
  - intros r [?|[Hl ?]]%E4; [by left|right]. split; [|done]. by destruct (eff_back _ _ _ _ E0 r Hl) as [?%elem_of_empty|[? _]].
  - intros. by rewrite E5, (eff_ext _ _ _ _ E0).
Qed.

Lemma alloc_fresh s : txn_ok s →
  (∃ id s1 s2, pool_step m0 s s1 ∧ alloc_id content_hash s = (Ok id, s2) ∧ fresh s1 s2 id) ∨
  (∃ s1, alloc_id content_hash s = (Err DbFull, s1) ∧ reusable (pg s1) = [] ∧ ceiling s1 ≤ high_water (pg s1)).
Proof.
  intros O. destruct (alloc_id_ok content_hash m0 Ffl s (to_safe _ O)) as (s1&P&Ha); [intros; apply O|].
  pose proof (ok_pool _ _ P O) as O1. rewrite Ha. destruct (take_page s1) as [r s2] eqn:Ht.
  destruct (take_page_cases _ _ _ Ht) as [(id&rest&->&Hr&->)|(Hr&[(->&Hlt&->)|(->&Hle&->)])].
  - left. eexists id, s1, _. split_and!; [done|done|]. by apply take_pool_fresh.
  - left. eexists _, s1, _. split_and!; [done|done|]. apply take_new_fresh; [done|done|].
    pose proof (ceiling_le s1). unfold page_count in *. lia.
  - right. exists s1. done.
Qed.

Lemma alloc_raw_spec s : txn_ok s →
  wps (alloc_raw content_hash) (λ id s', eff s s' ∅ {[Pg id]} ∧ is_dirty id s' = true ∧
    0 < id < page_count (eng s') ∧ (in_freelist_op s' = false → Pg id ∉ Ffl)) s.
Proof.
  intros O. unfold wp, alloc_raw, mbind, M_mbind.
  destruct (alloc_fresh s O) as [(id&s1&s2&P&->&Fr)|(s1&->&?&?)]; [|done]. cbn.
  change (set_pg _ s2) with (mark_dirty id s2). pose proof (fr_range _ _ _ Fr).
  split; [|split; [|split; [|apply Fr]]].
  - eapply eff_pool; [done|done|]. apply fresh_eff; [by eapply ok_pool|done].
  - apply bool_decide_eq_true. cbn. by apply elem_of_union_l, elem_of_singleton.
  - done.
Qed.

Lemma txn_alloc_spec s : txn_ok s →
  wps (alloc content_hash) (λ id s', eff s s' ∅ {[Pg id]} ∧ page_of s' id = replicate PAGE_SIZE 0 ∧ is_dirty id s' = true) s.
Proof.
  intros O. unfold alloc. apply wp_bind. eapply wp_mono; [by apply alloc_raw_spec|].
  intros id s1 (E&Hd&Hr&Hfl). unfold wp, mbind, M_mbind, update, shm_write. cbn [mbind res_mbind].
  rewrite (proj2 (Z.leb_gt _ _)) by lia. cbn. change (set_eng _ s1) with (set_page id (replicate PAGE_SIZE 0) s1).
  pose proof (eff_ok _ _ _ _ E) as O1. apply bool_decide_eq_true in Hd as Hd'.
  split_and!; [|apply page_of_set; lia|done].
  eapply (eff_trans _ _ _ ∅ {[Pg id]}); [exact E|]. apply eff_pages; [done|by apply ok_set; [apply length_replicate|..]|done|..].
  - intros j Hj Hn. split_and!; [done|done| |done]. apply page_of_set_ne; [pose proof (live_range _ _ O1 Hj); lia|].
    intros ->. by apply Hn, elem_of_singleton.
  - intros r ->%elem_of_singleton. exists id. split; [done|by left].
  - intros j Hj. destruct (decide (Pg j ∈ ({[Pg id]} : rset))); [by left|by right].
Qed.

(** ** Freeing *)

(** New sets for the pages, everything else as it was. *)
Lemma ok_sets s l d f r : txn_ok s →
  (∀ id, id ∈ d → in_data s id ∧ id ∉ f) → (∀ id, id ∈ f → in_data s id) → NoDup (r ++ ids_of (undrawn m0 s)) →
  (∀ id, id ∈ r ++ ids_of (undrawn m0 s) → in_data s id ∧ (id ∉ d) ∧ id ∉ f) → StronglySorted Z.le r →
  (in_freelist_op s = false → ∀ id, Pg id ∈ Ffl → (id ∉ d) ∧ (id ∉ r) ∧ id ∉ f) →
  txn_ok (set_pg (set_dirty d (set_freed f (set_reusable r (pg s)))) (set_layers l s)).
Proof.
  intros [O1 O2 O3 O4 O5 O6 O7 O8 O9 O10 O11 O12] Hd Hf Hn Hp Hs Hfl. split; try done.
  - destruct O1 as [S1 S2 S3 S4]. split; try done.
    + intros Hop. destruct (S3 Hop) as (h&Hlt'&Ht). exists h. split; [done|]. unfold freelist_tree in *.
      by eapply (freelist_tree_alike _ s); [..|exact Ht].
    + cbn. intros Hop id Hid. destruct (S4 Hop id Hid) as (_&A2&A3). destruct (Hfl Hop id Hid) as (B1&B2&_).
      rewrite elem_of_app in *. split_and!; [done| |apply A3..]. intros [?|?]; [done|]. apply A2. by right.
  - cbn. intros Hop id Hid. destruct (O11 Hop id Hid) as (A1&A2&_). by destruct (Hfl Hop id Hid) as (_&_&?).
Qed.

Lemma sorted_insert_perm id l : sorted_insert id l ≡ₚ id :: l.
Proof. induction l as [|x l IH]; cbn; [done|]. destruct (_ <? _); [done|]. rewrite IH. constructor. Qed.

Lemma sorted_insert_sorted id l : StronglySorted Z.le l → StronglySorted Z.le (sorted_insert id l).
Proof.
  induction l as [|x l IH]; cbn; [by repeat constructor|]. intros [Hs Hf]%StronglySorted_inv.
  destruct (Z.ltb_spec id x) as [Hlt|Hge].
  - constructor; [by constructor|]. constructor; [lia|]. eapply Forall_impl; [exact Hf|]. intros y Hy. cbn in *. lia.
  - constructor; [by apply IH|]. rewrite (sorted_insert_perm id l). by constructor.
Qed.

(** The page leaves the live set; where it goes is not live either. *)
Lemma free_eff s l d f r id : txn_ok s → page_live s id →
  txn_ok (set_pg (set_dirty d (set_freed f (set_reusable r (pg s)))) (set_layers l s)) →
  (∀ j, j ∈ d ↔ j ∈ dirty (pg s) ∧ j ≠ id) → (∀ j, j ≠ id → j ∈ f ↔ j ∈ freed (pg s)) →
  (∀ j, j ≠ id → j ∈ r ↔ j ∈ reusable (pg s)) → id ∈ f ∨ id ∈ r →
  eff s (set_pg (set_dirty d (set_freed f (set_reusable r (pg s)))) (set_layers l s)) {[Pg id]} ∅.
Proof.
  intros O Hl O' Hd Hf Hr Hx.
  assert (∀ j, page_live (set_pg (set_dirty d (set_freed f (set_reusable r (pg s)))) (set_layers l s)) j ↔ page_live s j ∧ j ≠ id) as Hlive.
  { intros j. unfold page_live. cbn. rewrite Hd. destruct (decide (j = id)) as [->|Hne]; [tauto|].
    rewrite (Hf j Hne), (Hr j Hne). tauto. }
  apply eff_pages; [done|done|done|..].
  - intros j Hj Hn. assert (j ≠ id) as Hne by (intros ->; by apply Hn, elem_of_singleton).
    split_and!; [apply not_elem_of_empty|by apply Hlive|done|]. cbn. rewrite Hd. tauto.
  - by intros ? ?%elem_of_empty.
  - intros j [Hj Hne]%Hlive. right. split; [done|]. intros Hin%elem_of_singleton. by injection Hin.
Qed.

Lemma live_not_free s id : txn_ok s → page_live s id → (id ∉ reusable (pg s) ++ ids_of (undrawn m0 s)) ∧ id ∉ freed (pg s).
Proof.
  intros O [Hd|(Hc&Hf&Hr)].
  - split; [|by apply (to_dirty _ O)]. intros Hx. by destruct (to_pool _ O id Hx) as (_&?&_).
  - split; [|done]. intros [?|Hx]%elem_of_app; [done|]. by apply (to_undrawn _ O id).
Qed.

(** A committed page, or any page while the free list is rewritten. *)
Lemma free_to_freed s id : txn_ok s → page_live s id → (id ∈ dirty (pg s) → in_freelist_op s = true) →
  eff s (set_pg (set_dirty (dirty (pg s) ∖ {[id]}) (set_freed ({[id]} ∪ freed (pg s)) (set_reusable (reusable (pg s)) (pg s))))
           (set_layers (sp_layers s) s)) {[Pg id]} ∅.
Proof.
  intros O Hl Hc. pose proof (live_data _ _ O Hl) as Hin. destruct (live_not_free _ _ O Hl) as [Hnp Hnf].
  apply free_eff; [done|done| |set_solver|set_solver|done|left; set_solver].
  apply ok_sets; [done|..]; try apply O.
  - intros j [Hj Hne]%elem_of_difference. destruct (to_dirty _ O j Hj). set_solver.
  - intros j [->%elem_of_singleton|Hj]%elem_of_union; [done|by apply (to_freed _ O)].
  - intros j Hj. destruct (to_pool _ O j Hj) as (A1&A2&A3). split_and!; [apply A1..|set_solver|].
    by intros [->%elem_of_singleton|?]%elem_of_union.
  - intros Hop j Hj. destruct (sf_own _ _ _ _ (to_safe _ O) Hop j Hj) as (A1&A2&_). destruct (to_own _ O Hop j Hj) as (_&A4&A3).
    rewrite elem_of_app in A2. split_and!; [set_solver|tauto|]. intros [->%elem_of_singleton|?]%elem_of_union; [|done].
    destruct Hl as [Hd|[? _]]; [|done]. by rewrite (Hc Hd) in Hop.
Qed.

(** A page of this transaction goes back to the pool. *)
Lemma free_to_pool s id l : txn_ok s → id ∈ dirty (pg s) → in_freelist_op s = false →
  eff s (set_pg (set_dirty (dirty (pg s) ∖ {[id]}) (set_freed (freed (pg s)) (set_reusable (sorted_insert id (reusable (pg s))) (pg s))))
           (set_layers l s)) {[Pg id]} ∅.
Proof.
  intros O Hd Hop. assert (page_live s id) as Hl by by left. pose proof (live_data _ _ O Hl) as Hin.
  destruct (live_not_free _ _ O Hl) as [Hnp Hnf]. pose proof (dirty_not_freelist s id O Hd Hop) as Hfl.
  apply free_eff; [done|done| |set_solver|done| |right; rewrite sorted_insert_perm; constructor].
  2:{ intros j Hne. rewrite sorted_insert_perm, elem_of_cons. tauto. }
  apply ok_sets; [done|..].
  - intros j [Hj Hne]%elem_of_difference. by apply (to_dirty _ O).
  - apply O.
  - rewrite sorted_insert_perm. cbn. constructor; [done|apply O].
  - intros j. rewrite sorted_insert_perm. cbn. intros [->|Hj]%elem_of_cons; [split_and!; [apply Hin..|set_solver|done]|].
    destruct (to_pool _ O j Hj) as (A1&A2&A3). split_and!; [apply A1..|set_solver|done].
  - apply sorted_insert_sorted, O.
  - intros _ j Hj. destruct (sf_own _ _ _ _ (to_safe _ O) Hop j Hj) as (A1&A2&_). destruct (to_own _ O Hop j Hj) as (_&_&A3).
    rewrite elem_of_app in A2. split_and!; [set_solver| |done]. rewrite sorted_insert_perm, elem_of_cons. intros [->|?]; tauto.
Qed.

Lemma txn_free_spec s id : txn_ok s → page_live s id → wps (free id) (λ _ s', eff s s' {[Pg id]} ∅) s.
Proof.
  intros O Hl. destruct (live_not_free _ _ O Hl) as [Hnp Hnf]. rewrite elem_of_app in Hnp. destruct (live_range s id O Hl) as [Hid Hpc].
  eapply wp_bind, wp_reads; [destruct (needs_image id s); [rewrite shm_page_ok by lia|]; done|]. unfold wp, release.
  destruct (decide (id ∈ dirty (pg s))) as [Hd|Hd]; [rewrite bool_decide_true by done|rewrite bool_decide_false by done].
  - destruct (in_freelist_op s) eqn:Hop; cbn [negb andb].
    + cbn [set_pg set_dirty freed pg in_freelist_op]. rewrite Hop. cbn [andb negb]. rewrite bool_decide_false by done.
      by apply free_to_freed.
    + destruct (journal_layers id s) as [l ->]. cbn [set_layers set_pg set_dirty freed pg in_freelist_op reusable]. rewrite Hop. cbn [andb negb].
      rewrite bool_decide_false by tauto. by apply free_to_pool.
  - rewrite andb_false_r. cbn [andb set_pg set_dirty freed pg in_freelist_op]. rewrite bool_decide_false by done. by apply free_to_freed.
Qed.

(** ** Adoption in place *)

Lemma adopt_spec s id : txn_ok s → page_live s id →
  wps (adopt_inplace id) (λ b s', eff s s' {[Pg id]} {[Pg id]} ∧ page_of s' id = page_of s id ∧ (b = true → is_dirty id s' = true)) s.
Proof.
  intros O Hl. assert (eff s s {[Pg id]} {[Pg id]}) as Er by (apply eff_refl; [done|intros r ->%elem_of_singleton; by apply live_of]).
  unfold wp, adopt_inplace. destruct (in_place s); cbn [negb]; [|done]. case_bool_decide as Hd.
  { split_and!; [done|done|]. intros _. by apply bool_decide_eq_true. }
  destruct Hl as [?|(Hc&Hf&Hr)]; [done|]. destruct (live_range s id O) as [Hid Hpc]; [by right|].
  rewrite shm_page_ok by lia. set (s' := set_adopted _ _ _).
  assert (∀ j, page_live s' j ↔ page_live s j) as Hlive.
  { intros j. unfold page_live. cbn. rewrite elem_of_union, elem_of_singleton. split; [intros [[->|?]|?]; tauto|tauto]. }
  split_and!; [|done|intros _; apply bool_decide_eq_true; cbn; by apply elem_of_union_l, elem_of_singleton].
  apply eff_pages; [done| |done|..].
  - pose proof (ok_sets s (sp_layers s) ({[id]} ∪ dirty (pg s)) (freed (pg s)) (reusable (pg s)) O) as O'.
    eapply ok_same; [..|apply O']; try done; try apply O.
    + intros j [->%elem_of_singleton|Hj]%elem_of_union; [split; [by apply (to_c0 _ O)|done]|by apply (to_dirty _ O)].
    + intros j Hj. destruct (to_pool _ O j Hj) as (A1&A2&A3). split_and!; [apply A1..| |done].
      intros [->%elem_of_singleton|?]%elem_of_union; [|done]. apply elem_of_app in Hj as [?|?]; [done|]. by apply (to_undrawn _ O id).
    + intros Hop j Hj. destruct (sf_own _ _ _ _ (to_safe _ O) Hop j Hj) as (A1&A2&_). destruct (to_own _ O Hop j Hj) as (_&A4&A3).
      rewrite elem_of_app in A2. split_and!; [|tauto|done]. intros [->%elem_of_singleton|?]%elem_of_union; tauto.
  - intros j Hj Hn. split_and!; [done|by apply Hlive|done|]. cbn. rewrite elem_of_union, elem_of_singleton.
    split; [|tauto]. intros [->|?]; [|done]. by destruct Hn; apply elem_of_singleton.
  - intros r ->%elem_of_singleton. exists id. split; [done|]. apply Hlive. by right.
  - intros j Hj%Hlive. destruct (decide (Pg j ∈ ({[Pg id]} : rset))); [by left|by right].
Qed.

(** * Snapshots *)

Lemma protected_same s s' id : eng s' = eng s → pg s' = pg s → in_freelist_op s' = in_freelist_op s → in_place s' = in_place s →
  bound_recomputed s' = bound_recomputed s → protected s id → protected s' id.
Proof.
  intros He Hp Ho Hi Hb [H1 H2 H3 H4 H5 H6]. split; rewrite ?Hp, ?Hi; try done; [by eapply safe_same|].
  unfold drawable, undrawn, reuse_limit in *. by rewrite He, Hp, Hb.
Qed.

Lemma protected_pool s s' id : pool_step m0 s s' → protected s id → protected s' id.
Proof.
  intros P [H1 H2 H3 H4 H5 H6]. destruct (scrub_fields _ _ (pl_scrub _ _ _ P)) as (_&(Hd&_&Hh&_)&(_&_&Hi&_)&_).
  split; rewrite ?Hd, ?Hh, ?Hi; try done.
  - by eapply safe_pool.
  - by intros [?|?]%(pl_drawn _ _ _ P).
  - intros ?%(drawable_mono _ _ _ _ P). done.
Qed.

(** New page sets that keep the free list's pages and [id] out of use. *)
Lemma protected_sets s d f r h id : protected s id → id ∉ d → id ∉ r → high_water (pg s) ≤ h →
  (in_freelist_op s = false → ∀ j, Pg j ∈ Ffl → (j ∉ d) ∧ j ∉ r) →
  protected (set_pg (set_high_water h (set_dirty d (set_freed f (set_reusable r (pg s))))) s) id.
Proof.
  intros [[S1 S2 S3 S4] H2 H3 H4 H5 H6] Hd Hr Hh Hfl. split; try done; [|cbn; lia]. split; try done.
  - intros Hop. destruct (S3 Hop) as (n&Hlt&Ht). exists n. split; [done|]. unfold freelist_tree in *.
    by eapply (freelist_tree_alike _ s); [..|exact Ht].
  - cbn. intros Hop j Hj. destruct (S4 Hop j Hj) as (_&A2&A3). destruct (Hfl Hop j Hj) as [B1 B2]. rewrite elem_of_app in *.
    split_and!; [done| |lia|lia]. tauto.
Qed.

Lemma protected_set s id j p : protected s id → j ≠ id → length p = PAGE_SIZE → (in_freelist_op s = false → Pg j ∉ Ffl) →
  protected (set_page j p s) id ∧ page_of (set_page j p s) id = page_of s id.
Proof.
  intros [H1 H2 H3 H4 H5 H6] Hne Hp Hfl. split; [|apply page_of_set_ne; [lia|done]]. split; try done. by apply safe_set.
Qed.

Lemma keeps_put s j p p' : page_mut j s = Ok p → keeps s (put j p' s).
Proof.
  unfold page_mut. case_bool_decide as Hd; [|done]. intros _ id Hp. destruct (journal_layers j s) as [l Hl]. unfold put. rewrite Hl.
  assert (protected (set_layers l s) id) as Hp' by by apply (protected_same s).
  case_bool_decide; [|done]. change (set_eng _ (set_layers l s)) with (set_page j p' (set_layers l s)).
  destruct (protected_set _ id j p' Hp') as [? ?]; [|done| |done].
  - intros ->. by apply (pr_clean _ _ Hp).
  - intros Hop Hin. by destruct (sf_own _ _ _ _ (pr_safe _ _ Hp) Hop j Hin).
Qed.

Lemma mark_dirty_pages j p s : mark_dirty j (set_pg p s) =
  set_pg (set_high_water (high_water p) (set_dirty ({[j]} ∪ dirty p) (set_freed (freed p) (set_reusable (reusable p) p)))) s.
Proof. by destruct p. Qed.

(** A page [alloc_id] hands out is not protected, nor one of the free list. *)
Lemma keeps_alloc_id s id : protected s id → ∀ r s', alloc_id content_hash s = (r, s') →
  protected s' id ∧ mem (eng s') = mem (eng s) ∧
  ∀ j, r = Ok j → j ≠ id ∧ protected (mark_dirty j s') id ∧ (in_freelist_op s' = false → Pg j ∉ Ffl).
Proof.
  intros Hp r s' Ha. destruct (alloc_id_steps _ _ _ _ _ _ (pr_safe _ _ Hp) Ha) as [[P Hn]|(s1&P&Ht)].
  { split_and!; [by eapply protected_pool|apply (scrub_fields _ _ (pl_scrub _ _ _ P))|]. intros j ->. by destruct (Hn j). }
  pose proof (protected_pool _ _ _ P Hp) as Hp1. pose proof (pr_safe _ _ Hp1) as S1.
  destruct (scrub_fields _ _ (pl_scrub _ _ _ P)) as ((Hm&_)&_). rewrite <- Hm.
  assert (∀ d h r', (∀ j, j ∈ d → j ∈ dirty (pg s1) ∨ j ∈ reusable (pg s1) ∨ j = high_water (pg s1)) →
    (∀ j, j ∈ r' → j ∈ reusable (pg s1)) → high_water (pg s1) ≤ h → protected (set_pg (set_high_water h (set_dirty d (set_freed (freed (pg s1)) (set_reusable r' (pg s1))))) s1) id) as Hset.
  { intros d h r' Hd Hr Hh. pose proof (pr_range _ _ Hp1). apply protected_sets; [done|..|done|].
    - intros [?|[?|?]]%Hd; [by apply (pr_clean _ _ Hp1)|by apply (pr_pool _ _ Hp1)|lia].
    - intros ?%Hr. by apply (pr_pool _ _ Hp1).
    - intros Hop j Hj. destruct (sf_own _ _ _ _ S1 Hop j Hj) as (A1&A2&A3). rewrite elem_of_app in A2.
      split; [intros [?|[?|?]]%Hd; [done|tauto|lia]|intros ?%Hr; tauto]. }
  destruct (take_page_cases _ _ _ Ht) as [(j&rest&->&Hr&->)|(Hr&[(->&Hlt&->)|(->&_&->)])]; [| |by split_and!].
  - assert (j ∈ reusable (pg s1) ∧ ∀ i, i ∈ rest → i ∈ reusable (pg s1)) as [Hj Hrest].
    { rewrite Hr. split; [apply elem_of_app; right; constructor|]. intros i Hi. by apply elem_of_app; left. }
    split_and!; [apply (Hset (dirty (pg s1)) (high_water (pg s1)) rest); [auto|done|lia]|done|]. intros j' [= <-]. split_and!.
    + intros ->. by apply (pr_pool _ _ Hp1).
    + rewrite (mark_dirty_pages j _ s1). apply Hset; [|done|done].
      intros i [->%elem_of_singleton|?]%elem_of_union; auto.
    + intros Hop Hin. destruct (sf_own _ _ _ _ S1 Hop j Hin) as (_&A2&_). apply A2, elem_of_app. by left.
  - split_and!; [apply (Hset (dirty (pg s1)) (high_water (pg s1) + 1) (reusable (pg s1))); [auto|auto|lia]|done|].
    intros j' [= <-]. pose proof (pr_range _ _ Hp1). split_and!; [lia| |].
    + rewrite (mark_dirty_pages _ _ s1). apply (Hset ({[high_water (pg s1)]} ∪ dirty (pg s1)) (high_water (pg s1) + 1) (reusable (pg s1))); [|done|lia].
      intros i [->%elem_of_singleton|?]%elem_of_union; auto.
    + intros Hop Hin. destruct (sf_own _ _ _ _ S1 Hop _ Hin) as (_&_&A3). lia.
Qed.

Lemma keeps_alloc_raw : moves keeps (alloc_raw content_hash).
Proof.
  intros s id Hp. unfold alloc_raw, mbind, M_mbind. destruct (alloc_id content_hash s) as [r s1] eqn:Ha.
  destruct (keeps_alloc_id s id Hp r s1 Ha) as (Hp1&Hm&Hj). assert (page_of s1 id = page_of s id) as Hb by (unfold page_of; by rewrite Hm).
  destruct r as [j| |]; [|done..]. cbn. by destruct (Hj j eq_refl) as (_&?&_).
Qed.

Lemma keeps_alloc : moves keeps (alloc content_hash).
Proof.
  intros s id Hp. unfold alloc, alloc_raw, mbind, M_mbind. destruct (alloc_id content_hash s) as [r s1] eqn:Ha.
  destruct (keeps_alloc_id s id Hp r s1 Ha) as (Hp1&Hm&Hj). assert (page_of s1 id = page_of s id) as Hb by (unfold page_of; by rewrite Hm).
  destruct r as [j| |]; [|done..]. cbn. destruct (Hj j eq_refl) as (Hne&Hp2&Hfl). unfold update, shm_write. cbn.
  destruct (_ <=? _); cbn; [done|]. change (set_eng _ _) with (set_page j (replicate PAGE_SIZE 0) (mark_dirty j s1)).
  destruct (protected_set _ id j (replicate PAGE_SIZE 0) Hp2) as [? Hb2]; [done|apply length_replicate|done|]. split; [done|]. by rewrite Hb2.
Qed.

Lemma keeps_free j : moves keeps (free j).
Proof.
  apply moves_bind; [apply _|apply moves_reads, _|]. intros [] s id Hp. unfold release. set (s1 := if negb _ && _ then journal j s else s).
  assert (∃ l, s1 = set_layers l s) as [l Hs1].
  { subst s1. destruct (_ && _); [apply journal_layers|]. exists (sp_layers s). by destruct s. }
  rewrite Hs1. clear s1 Hs1. cbn [set_layers set_pg pg in_freelist_op freed reusable set_dirty]. pose proof (pr_safe _ _ Hp) as S.
  assert (∀ d f r, (∀ i, i ∈ d → i ∈ dirty (pg s)) → (∀ i, i ∈ r → i ∈ reusable (pg s) ∨ (in_freelist_op s = false ∧ i ∈ dirty (pg s))) →
    protected (set_pg (set_high_water (high_water (pg s)) (set_dirty d (set_freed f (set_reusable r (pg s))))) (set_layers l s)) id) as Hset.
  { intros d f r Hd Hr. apply (protected_sets (set_layers l s)); [by apply (protected_same s)| | |done|].
    - intros ?%Hd. by apply (pr_clean _ _ Hp).
    - intros [?|[_ ?]]%Hr; [by apply (pr_pool _ _ Hp)|by apply (pr_clean _ _ Hp)].
    - intros Hop i Hi. destruct (sf_own _ _ _ _ S Hop i Hi) as (A1&A2&_). rewrite elem_of_app in A2.
      split; [intros ?%Hd; done|intros [?|[_ ?]]%Hr; tauto]. }
  assert (∀ i, i ∈ dirty (pg s) ∖ {[j]} → i ∈ dirty (pg s)) as Hdif by (intros i Hi; by apply elem_of_difference in Hi as [? _]).
  destruct (bool_decide (j ∈ dirty (pg s)) && _) eqn:Hc.
  - apply andb_true_iff in Hc as [Hd%bool_decide_eq_true Hop%negb_true_iff]. case_bool_decide; (split; [|done]).
    + exact (Hset _ (freed (pg s)) (reusable (pg s)) Hdif (λ _ H, or_introl H)).
    + refine (Hset _ (freed (pg s)) (sorted_insert j (reusable (pg s))) Hdif _).
      intros i. rewrite sorted_insert_perm. intros [->|?]%elem_of_cons; auto.
  - clear Hc. case_bool_decide; (split; [|done]).
    + exact (Hset _ (freed (pg s)) (reusable (pg s)) Hdif (λ _ H, or_introl H)).
    + pose proof (Hset (dirty (pg s) ∖ {[j]}) ({[j]} ∪ freed (pg s)) (reusable (pg s)) Hdif (λ _ H, or_introl H)) as Hx. exact Hx.
Qed.

Lemma txn_keeps : Respects (keeps : relation WriteTxn).
Proof.
  split; [apply _|apply keeps_put|apply keeps_alloc|apply keeps_alloc_raw|apply keeps_free|..].
  - intros j s id Hp. cbn. unfold adopt_inplace. rewrite (pr_mode _ _ Hp). done.
  - intros e n s id Hp. split; [by apply (protected_same s)|done].
  - by intros h s id Hp.
Qed.

Lemma txn_laws : StoreLaws WriteTxn.
Proof.
  split.
  - intros s id [Hid _]. apply shm_page_ok. lia.
  - intros s id O [Hid _]. apply page_of_length; [apply O|lia].
  - intros s id O [Hid _]. pose proof (to_bounds _ O). lia.
  - intros s id [Hid _] Hd. cbn in *. unfold page_mut. unfold is_dirty in Hd. rewrite Hd. apply shm_page_ok. lia.
  - intros s id p O [_ Hl] Hd Hp. by apply txn_put_eff.
  - apply txn_alloc_spec.
  - intros s O. eapply wp_mono; [by apply alloc_raw_spec|]. by intros id s' (?&?&_).
  - intros s id O [_ Hl]. by apply txn_free_spec.
  - intros s id O [_ Hl]. by apply adopt_spec.
  - by intros s e n O [].
  - intros s h O. apply wp_ret. apply eff_refl; [done|by intros r ?%elem_of_empty].
  - apply txn_keeps.
Qed.
End Store.
