(* ===== verification/FreelistCodec.v ===== *)
(** Entries of the free list as bytes: chunks, keys, and lists of page ids. *)

From S2P Require Import Prelude BtreeNode KvMap Txn TxnPool.
Local Open Scope Z_scope.

(** * Chunks *)

Section Chunks.
Context {A : Type}.
Implicit Types (l : list A).

Lemma chunks_loop_concat n l : ∀ fuel, (0 < n)%nat → (length l ≤ fuel)%nat → concat (chunks_loop fuel n l) = l.
Proof.
  intros fuel Hn. revert l. induction fuel as [|fuel IH]; intros l Hl.
  { destruct l; [done|cbn in Hl; lia]. }
  destruct l as [|x l]; [done|]. cbn [chunks_loop concat]. rewrite IH.
  - apply take_drop.
  - rewrite length_drop. cbn [length] in *. lia.
Qed.

Lemma concat_chunks n l : (0 < n)%nat → concat (chunks n l) = l.
Proof. intros Hn. by apply chunks_loop_concat. Qed.

Lemma chunks_loop_Forall n l : ∀ fuel, (0 < n)%nat → Forall (λ c, (0 < length c ≤ n)%nat ∧ c `sublist_of` l) (chunks_loop fuel n l).
Proof.
  intros fuel Hn. revert l. induction fuel as [|fuel IH]; intros l; [constructor|]. destruct l as [|x l]; cbn [chunks_loop]; [constructor|].
  constructor.
  - rewrite length_take. cbn [length]. split; [lia|apply sublist_take].
  - eapply Forall_impl; [apply IH|]. intros c [Hc Hs]. split; [done|]. etrans; [exact Hs|apply sublist_drop].
Qed.

Lemma chunks_Forall n l : (0 < n)%nat → Forall (λ c, (0 < length c ≤ n)%nat ∧ c `sublist_of` l) (chunks n l).
Proof. apply chunks_loop_Forall. Qed.

Lemma chunks_loop_count n l : ∀ fuel, (0 < n)%nat → (n * length (chunks_loop fuel n l) < length l + n)%nat.
Proof.
  intros fuel Hn. revert l. induction fuel as [|fuel IH]; intros l; cbn [chunks_loop length]; [lia|].
  destruct l as [|x l]; cbn [length]; [lia|]. specialize (IH (drop n (x :: l))). rewrite length_drop in IH. cbn [length] in IH.
  destruct (decide (n ≤ S (length l))%nat); [lia|].
  assert (drop n (x :: l) = []) as Hd by (apply drop_ge; cbn [length]; lia). rewrite Hd. destruct fuel; cbn [chunks_loop length]; lia.
Qed.

Lemma chunks_count n l : (0 < n)%nat → (n * length (chunks n l) < length l + n)%nat.
Proof. apply chunks_loop_count. Qed.

Lemma chunks_loop_flat n (ls : list (list A)) : ∀ fuel, (0 < n)%nat → Forall (λ c, length c = n) ls → (length ls ≤ fuel)%nat →
  chunks_loop fuel n (concat ls) = ls.
Proof.
  intros fuel Hn Hf. revert fuel. induction Hf as [|c ls Hc _ IH]; intros fuel Hl; [by destruct fuel|].
  destruct fuel as [|fuel]; cbn [length] in Hl; [lia|]. cbn [concat]. destruct c as [|x c]; [cbn in Hc; lia|].
  cbn [chunks_loop app]. rewrite (app_comm_cons c (concat ls) x).
  rewrite take_app_length' by done. rewrite drop_app_length' by done. f_equal. apply IH. lia.
Qed.

(** Pieces of one length are the chunks of their concatenation. *)
Lemma chunks_flat n (ls : list (list A)) : (0 < n)%nat → Forall (λ c, length c = n) ls → chunks n (concat ls) = ls.
Proof.
  intros Hn Hf. apply chunks_loop_flat; [done|done|]. induction Hf as [|c ls Hc _ IH]; cbn [concat length]; [lia|].
  rewrite length_app. lia.
Qed.
End Chunks.

(** * Page entries *)

Lemma chunks_encode ids : chunks 8 (encode_ids ids) = map (le_encode 8) ids.
Proof.
  apply chunks_flat; [lia|]. apply Forall_forall. intros c (id&->&_)%list_elem_of_fmap. apply length_le_encode.
Qed.

Lemma length_encode_ids ids : length (encode_ids ids) = (8 * length ids)%nat.
Proof. unfold encode_ids. induction ids as [|id ids IH]; cbn [map concat length]; [lia|]. rewrite length_app, length_le_encode, IH. lia. Qed.

Lemma entry_ids_encode k ids : key_kind k = FK_PAGES → Forall (is_uint 64) ids → entry_ids (k, encode_ids ids) = ids.
Proof.
  intros Hk Hf. unfold entry_ids. cbn [fst snd]. rewrite Hk. cbn. rewrite chunks_encode, map_map.
  rewrite <- (map_id ids) at 2. apply map_ext_in. intros id Hin%list_elem_of_In. apply le_decode_encode_id. by eapply Forall_forall in Hf.
Qed.

Lemma decode_ids_encode ds pc ids : ∀ prev, Forall (λ id, ds ≤ id < pc) ids → StronglySorted Z.lt ids →
  Forall (is_uint 64) ids → (∀ p, prev = Some p → Forall (λ id, p < id) ids) →
  decode_ids ds pc prev (map (le_encode 8) ids) = Ok ids.
Proof.
  induction ids as [|id ids IH]; intros prev Hr Hs Hu Hp; [done|]. cbn [map decode_ids].
  apply Forall_cons in Hr as [Hr1 Hr], Hu as [Hu1 Hu]. apply StronglySorted_inv in Hs as [Hs Hf].
  rewrite le_decode_encode_id by done. rewrite (proj2 (Z.ltb_ge _ _)), (proj2 (Z.leb_gt _ _)) by lia. cbn [orb].
  assert (match prev with Some p => id <=? p | None => false end = false) as ->.
  { destruct prev as [p|]; [|done]. specialize (Hp p eq_refl). apply Forall_cons in Hp as [Hp _]. by apply Z.leb_gt. }
  rewrite IH; [done|done|done|done|]. by intros p [= <-].
Qed.

Lemma entry_wf_encode e k ids : length k = 11%nat → key_kind k = FK_PAGES → Forall (λ id, data_start e ≤ id < page_count e) ids →
  StronglySorted Z.lt ids → Forall (is_uint 64) ids → entry_wf e (k, encode_ids ids).
Proof.
  intros Hl Hk Hr Hs Hu. split; [done|]. left. cbn [fst snd]. split_and!; [done| |].
  - rewrite length_encode_ids. rewrite Nat.mul_comm. apply Nat.Div0.mod_mul.
  - by rewrite chunks_encode, decode_ids_encode.
Qed.

(** * Keys *)

Lemma freelist_key_length t k c : length (freelist_key t k c) = 11%nat.
Proof. unfold freelist_key, be_encode. rewrite !length_app, !length_reverse, !length_le_encode. done. Qed.

Lemma freelist_key_kind t k c : key_kind (freelist_key t k c) = k.
Proof.
  unfold key_kind, freelist_key, be_encode. rewrite lookup_app_r by (rewrite length_reverse, length_le_encode; lia).
  rewrite length_reverse, length_le_encode. done.
Qed.

Lemma freelist_key_txn t k c : is_uint 64 t → key_txn (freelist_key t k c) = t.
Proof.
  intros Ht. unfold key_txn, freelist_key, be_encode, be_decode.
  rewrite take_app_length' by (rewrite length_reverse, length_le_encode; done). rewrite reverse_involutive. by apply le_decode_encode_id.
Qed.

Lemma freelist_key_inj t k c c' : is_uint 16 c → is_uint 16 c' → freelist_key t k c = freelist_key t k c' → c = c'.
Proof.
  intros Hc Hc' H. unfold freelist_key in H. do 2 apply app_inv_head in H. unfold be_encode in H. apply (f_equal reverse) in H.
  rewrite !reverse_involutive in H. apply (f_equal le_decode) in H. by rewrite !le_decode_encode_id in H.
Qed.
