(* ===== verification/FreelistAccount.v ===== *)
(** Page accounting in a write transaction: every page below the high-water
    mark is in use, in the pool, freed, or listed in the free list; no operation
    of the store loses one. *)

From S2P Require Import Prelude BtreeNode PageStore Btree Overflow KvMap BtreeRep Cursor Txn TxnPool TxnStore.
Local Open Scope Z_scope.

Section Account.
Context (content_hash : bytes → Z) (m0 : kvs) (Ffl : rset).
(** [C] are the committed pages of all trees, [R0] the pages of extent runs. *)
Context (C : gset Z) (R0 : Z → Prop).

#[local] Instance account_store : PageStore WriteTxn := txn_store content_hash.

Record acct (s : WriteTxn) : Prop := {
  ac_safe : safe content_hash m0 Ffl s;
  ac_mode : in_place s = false;
  ac_cover : ∀ id, in_data s id →
    id ∈ dirty (pg s) ∨ id ∈ C ∨ id ∈ reusable (pg s) ++ ids_of (undrawn m0 s) ∨ id ∈ freed (pg s) ∨ R0 id;
  ac_taken : taken_ok m0 s;
}.

Definition keeps_acct (s s' : WriteTxn) : Prop := acct s → acct s'.
#[local] Instance keeps_acct_preorder : PreOrder keeps_acct.
Proof. split; unfold keeps_acct; [by intros s|]. intros s1 s2 s3. auto. Qed.

Lemma acct_same s s' : eng s' = eng s → pg s' = pg s → in_freelist_op s' = in_freelist_op s → in_place s' = in_place s →
  acct s → acct s'.
Proof.
  intros He Hp Ho Hi [A1 A2 A3 A4]. split; [by eapply safe_same|by rewrite Hi| |].
  - unfold in_data, undrawn in *. rewrite He, Hp. done.
  - unfold taken_ok, drawn in *. by rewrite Hp.
Qed.

Lemma acct_pool s s' : pool_step m0 s s' → acct s → acct s'.
Proof.
  intros P [A1 A2 A3 A4]. destruct (scrub_fields _ _ (pl_scrub _ _ _ P)) as ((_&Hds&_)&(Hd&Hf&Hh&_)&(_&_&Hi&_)&_).
  split; [by eapply safe_pool|by rewrite Hi| |by apply (pl_taken _ _ _ P)].
  intros id. unfold in_data. rewrite Hds, Hh, Hd, Hf, (pl_perm _ _ _ P). apply A3.
Qed.

(** New page sets that still cover everything. *)
Lemma acct_sets s d f r h : acct s → high_water (pg s) ≤ h →
  (in_freelist_op s = false → ∀ j, Pg j ∈ Ffl → (j ∉ d) ∧ j ∉ r) →
  (∀ id, id ∈ dirty (pg s) ∨ id ∈ reusable (pg s) ∨ id ∈ freed (pg s) ∨ high_water (pg s) ≤ id < h → id ∈ d ∨ id ∈ r ∨ id ∈ f) →
  acct (set_pg (set_high_water h (set_dirty d (set_freed f (set_reusable r (pg s))))) s).
Proof.
  intros [[S1 S2 S3 S4] A2 A3 A4] Hh Hfl Hc. split; [|done| |done]. 1: split; try done.
  - intros Hop. destruct (S3 Hop) as (n&Hlt&Ht). exists n. split; [done|]. unfold freelist_tree in *.
    by eapply (freelist_tree_alike _ s); [..|exact Ht].
  - cbn. intros Hop j Hj. destruct (S4 Hop j Hj) as (_&B2&B3). destruct (Hfl Hop j Hj) as [? ?]. rewrite elem_of_app in *.
    split_and!; [done|tauto|lia|lia].
  - intros id [Hlo Hhi]. cbn in *. specialize (A3 id). specialize (Hc id). unfold in_data in A3. rewrite !elem_of_app in *.
    change (ids_of (undrawn m0 (set_pg _ s))) with (ids_of (undrawn m0 s)).
    destruct (decide (id < high_water (pg s))); [|naive_solver lia]. destruct (A3 ltac:(lia)) as [?|[?|[[?|?]|[?|?]]]]; tauto.
Qed.

Lemma acct_page s j p : acct s → length p = PAGE_SIZE → (in_freelist_op s = false → Pg j ∉ Ffl) → acct (set_page j p s).
Proof. intros [A1 A2 A3 A4] Hp Hfl. split; [by apply safe_set|done|done|done]. Qed.

Lemma acct_alloc_id s : acct s → ∀ r s', alloc_id content_hash s = (r, s') →
  match r with
  | Ok j => acct (mark_dirty j s') ∧ (in_freelist_op s' = false → Pg j ∉ Ffl)
  | _ => acct s'
  end.
Proof.
  intros A r s' Ha. destruct (alloc_id_steps _ _ _ _ _ _ (ac_safe _ A) Ha) as [[P Hn]|(s1&P&Ht)].
  { destruct r as [j| |]; [by destruct (Hn j)|by eapply acct_pool..]. }
  pose proof (acct_pool _ _ P A) as A1. pose proof (ac_safe _ A1) as S1.
  destruct (take_page_cases _ _ _ Ht) as [(j&rest&->&Hr&->)|(Hr&[(->&Hlt&->)|(->&_&->)])]; [| |done].
  - assert (in_freelist_op s1 = false → Pg j ∉ Ffl) as Hj.
    { intros Hop Hin. destruct (sf_own _ _ _ _ S1 Hop j Hin) as (_&B2&_). apply B2. rewrite Hr. set_solver. }
    split; [|done]. rewrite mark_dirty_pages. apply acct_sets; [done|cbn; lia|..]; cbn.
    + intros Hop i Hi. destruct (sf_own _ _ _ _ S1 Hop i Hi) as (B1&B2&_). rewrite Hr in B2. specialize (Hj Hop).
      rewrite !elem_of_app in B2. split; [|tauto]. intros [->%elem_of_singleton|?]%elem_of_union; tauto.
    + intros id. rewrite Hr, elem_of_union, elem_of_singleton, elem_of_app, list_elem_of_singleton. intros [?|[[?|?]|[?|?]]]; try tauto. lia.
  - assert (in_freelist_op s1 = false → Pg (high_water (pg s1)) ∉ Ffl) as Hj.
    { intros Hop Hin. destruct (sf_own _ _ _ _ S1 Hop _ Hin) as (_&_&?). lia. }
    split; [|done]. rewrite mark_dirty_pages. apply (acct_sets s1 ({[high_water (pg s1)]} ∪ dirty (pg s1)) (freed (pg s1)) (reusable (pg s1)) (high_water (pg s1) + 1)); [done|lia|..].
    + intros Hop i Hi. destruct (sf_own _ _ _ _ S1 Hop i Hi) as (B1&B2&B3). rewrite elem_of_app in B2.
      split; [|tauto]. intros [->%elem_of_singleton|?]%elem_of_union; [lia|tauto].
    + intros id. rewrite elem_of_union, elem_of_singleton. intros [?|[?|[?|?]]]; try tauto. left. left. lia.
Qed.

Lemma acct_alloc_raw : moves keeps_acct (alloc_raw content_hash).
Proof.
  intros s A. unfold alloc_raw, mbind, M_mbind. destruct (alloc_id content_hash s) as [r s1] eqn:Ha.
  pose proof (acct_alloc_id s A r s1 Ha) as H. destruct r as [j| |]; [apply H|done..].
Qed.

Lemma acct_alloc : moves keeps_acct (alloc content_hash).
Proof.
  intros s A. unfold alloc, alloc_raw, mbind, M_mbind. destruct (alloc_id content_hash s) as [r s1] eqn:Ha.
  pose proof (acct_alloc_id s A r s1 Ha) as H. destruct r as [j| |]; [|done..]. destruct H as [H Hj]. cbn. unfold update, shm_write. cbn.
  destruct (_ <=? _); [done|]. cbn. by apply (acct_page (mark_dirty j s1) j (replicate PAGE_SIZE 0) H); [apply length_replicate|].
Qed.

Lemma acct_put s j p p' : page_mut j s = Ok p → keeps_acct s (put j p' s).
Proof.
  unfold page_mut. case_bool_decide as Hd; [|done]. intros _ A. destruct (journal_layers j s) as [l Hl]. unfold put. rewrite Hl.
  assert (acct (set_layers l s)) as A' by by apply (acct_same s). case_bool_decide; [|done].
  apply (acct_page (set_layers l s) j p' A'); [done|]. intros Hop Hin. by destruct (sf_own _ _ _ _ (ac_safe _ A) Hop j Hin).
Qed.

Lemma acct_free j : moves keeps_acct (free j).
Proof.
  apply moves_bind; [apply _|apply moves_reads, _|]. intros [] s A. unfold release. set (s1 := if negb _ && _ then journal j s else s).
  assert (∃ l, s1 = set_layers l s) as [l Hs1].
  { subst s1. destruct (_ && _); [apply journal_layers|]. exists (sp_layers s). by destruct s. }
  rewrite Hs1. clear s1 Hs1. cbn [set_layers set_pg pg in_freelist_op freed reusable set_dirty].
  assert (acct (set_layers l s)) as A' by by apply (acct_same s). pose proof (ac_safe _ A) as S.
  assert (∀ f r, (∀ i, i ∈ r → i ∈ reusable (pg s) ∨ (in_freelist_op s = false ∧ i ∈ dirty (pg s))) →
    (∀ i, i ∈ reusable (pg s) ∨ i ∈ freed (pg s) → i ∈ r ∨ i ∈ f) → (j ∈ dirty (pg s) → j ∈ r ∨ j ∈ f) →
    acct (set_pg (set_high_water (high_water (pg s)) (set_dirty (dirty (pg s) ∖ {[j]}) (set_freed f (set_reusable r (pg s))))) (set_layers l s))) as Hset.
  { intros f r Hr Hc Hj. apply (acct_sets (set_layers l s)); [done|done|..].
    - intros Hop i Hi. destruct (sf_own _ _ _ _ S Hop i Hi) as (B1&B2&_). rewrite elem_of_app in B2.
      split; [by rewrite elem_of_difference; intros [? _]|intros [?|[_ ?]]%Hr; tauto].
    - cbn. intros id H. specialize (Hc id). rewrite elem_of_difference, elem_of_singleton. destruct (decide (id = j)) as [->|]; [|].
      + destruct H as [H|[H|[H|H]]]; [tauto..|lia].
      + destruct H as [H|[H|[H|H]]]; [tauto..|lia]. }
  destruct (bool_decide (j ∈ dirty (pg s)) && _) eqn:Hc.
  - apply andb_true_iff in Hc as [Hd%bool_decide_eq_true Hop%negb_true_iff]. case_bool_decide as Hin.
    + apply (Hset (freed (pg s)) (reusable (pg s))); auto.
    + apply (Hset (freed (pg s)) (sorted_insert j (reusable (pg s)))).
      * intros i. rewrite sorted_insert_perm, elem_of_cons. intros [->|?]; auto.
      * intros i. rewrite sorted_insert_perm, elem_of_cons. tauto.
      * rewrite sorted_insert_perm, elem_of_cons. auto.
  - clear Hc. case_bool_decide as Hin.
    + apply (Hset (freed (pg s)) (reusable (pg s))); auto.
    + assert (X := Hset ({[j]} ∪ freed (pg s)) (reusable (pg s)) ltac:(auto) ltac:(intros i; rewrite elem_of_union; tauto) ltac:(intros _; right; by apply elem_of_union_l, elem_of_singleton)). exact X.
Qed.

Lemma acct_respects : Respects keeps_acct.
Proof.
  split; [apply _|apply acct_put|apply acct_alloc|apply acct_alloc_raw|apply acct_free|..].
  - intros j s A. cbn. unfold adopt_inplace. rewrite (ac_mode _ A). done.
  - intros e n s A. by apply (acct_same s).
  - by intros h s A.
Qed.
End Account.
