(* ===== verification/FreelistWrite.v ===== *)
(** Rewriting the free list: what one entry written or dropped does to the
    tree, and what the passes of [commit_freelist] leave in it. *)

From S2P Require Import Prelude BtreeNode PageStore Btree Overflow KvMap BtreeRep BtreeInsert BtreeDelete BtreeSnapshot BtreeSpec BtreeView.
From S2P Require Import Cursor Txn TxnPool TxnStore FreelistCodec FreelistAccount.
Local Open Scope Z_scope.

(** * What no store operation changes while the free list is rewritten *)

Section Frozen.
Context (content_hash : bytes → Z).
#[local] Instance frozen_store : PageStore WriteTxn := txn_store content_hash.

Definition drawn_same (s s' : WriteTxn) : Prop :=
  taken (pg s') = taken (pg s) ∧ refill_cursor (pg s') = refill_cursor (pg s) ∧
  data_start (eng s') = data_start (eng s) ∧ page_count (eng s') = page_count (eng s) ∧ files (eng s') = files (eng s) ∧
  catalog_root (pg s') = catalog_root (pg s) ∧ ∀ id, id ∈ reusable (pg s') → id ∈ reusable (pg s).

Lemma drawn_same_trans s1 s2 s3 : drawn_same s1 s2 → drawn_same s2 s3 → drawn_same s1 s3.
Proof. intros (?&?&?&?&?&?&Ha) (?&?&?&?&?&?&Hb). split_and!; [congruence..|]. intros id ?%Hb. by apply Ha. Qed.

Definition frozen (s s' : WriteTxn) : Prop :=
  in_freelist_op s = true → in_freelist_op s' = true ∧ drawn_same s s'.

#[local] Instance frozen_preorder : PreOrder frozen.
Proof.
  split; unfold frozen, drawn_same; [by intros s|]. intros s1 s2 s3 H1 H2 Ho. destruct (H1 Ho) as (Ho2&A).
  destruct (H2 Ho2) as (Ho3&B). split; [done|]. by eapply drawn_same_trans.
Qed.

Lemma frozen_alloc_raw : moves frozen (alloc_raw content_hash).
Proof.
  intros s Ho. unfold alloc_raw, alloc_id, mbind, M_mbind. cbn [modify]. rewrite Ho, andb_false_r. cbn.
  destruct (take_page (set_allocs _ s)) as [r s1] eqn:Ht.
  destruct (take_page_cases _ _ _ Ht) as [(id&rest&->&Hr&->)|(_&[(->&_&->)|(->&_&->)])]; (split; [exact Ho|]); unfold drawn_same; split_and!; try done.
  cbn in *. intros j Hj. rewrite Hr. apply elem_of_app. by left.
Qed.

Lemma frozen_alloc : moves frozen (alloc content_hash).
Proof.
  unfold alloc. apply moves_bind; [apply _|apply frozen_alloc_raw|]. intros id.
  apply moves_bind; [apply _| |intros; apply moves_ret, _]. intros s Ho. unfold update, shm_write.
  destruct (_ <=? _); [by split_and!|]. unfold drawn_same, page_count. cbn. rewrite length_insert. by split_and!.
Qed.

Lemma frozen_put s id p : frozen s (put id p s).
Proof.
  intros Ho. unfold put. destruct (journal_layers id s) as [l ->]. case_bool_decide; [|by split_and!].
  unfold drawn_same, page_count. cbn. rewrite length_insert. by split_and!.
Qed.

Lemma frozen_free id : moves frozen (free id).
Proof.
  apply moves_bind; [apply _|apply moves_reads, _|]. intros [] s Ho. unfold release. rewrite Ho. cbn [negb andb set_pg pg freed set_dirty in_freelist_op]. rewrite Ho, andb_false_r.
  case_bool_decide; by split_and!.
Qed.

Lemma frozen_respects : Respects frozen.
Proof.
  split; [apply _|intros; apply frozen_put|apply frozen_alloc|apply frozen_alloc_raw|apply frozen_free|..].
  - intros id s Ho. cbn. unfold adopt_inplace. destruct (in_place s); cbn [negb]; [|by split_and!].
    case_bool_decide; [by split_and!|]. destruct (shm_page id (eng s)); by split_and!.
  - intros e n s Ho. by split_and!.
  - intros h s Ho. by split_and!.
Qed.
End Frozen.

(** * One entry *)

Section Entries.
Context (content_hash : bytes → Z) (m0 : kvs) (Ffl : rset) (C : gset Z) (R0 : Z → Prop).
#[local] Instance entries_store : PageStore WriteTxn := txn_store content_hash.
#[local] Instance entries_view : StoreView WriteTxn := txn_view content_hash m0 Ffl C.
#[local] Instance entries_laws : StoreLaws WriteTxn := txn_laws content_hash m0 Ffl C.
#[local] Existing Instance acct_respects.
#[local] Existing Instance frozen_respects.

Definition small_entry (v : bytes) : Prop := (length v ≤ 960)%nat.

(** The free list, in the middle of its rewriting, holds [D] on the pages [F]. *)
Record rewriting (s : WriteTxn) (F : rset) (D : gmap bytes bytes) : Prop := {
  rw_ok : txn_ok content_hash m0 Ffl C s;
  rw_op : in_freelist_op s = true;
  rw_acct : acct content_hash m0 Ffl C R0 s;
  rw_tree : ∃ h, tree_map content_hash s h (freelist_root (pg s)) F D;
  rw_small : ∀ k v, D !! k = Some v → small_entry v;
}.

(** From [s], owning [F], to [s'], owning [F']. *)
Definition rewrites (s s' : WriteTxn) (F F' : rset) (D : gmap bytes bytes) : Prop :=
  eff s s' F F' ∧ drawn_same s s' ∧ keeps s s' ∧ rewriting s' F' D.

Lemma owned_bound (s : WriteTxn) (F : rset) : txn_ok content_hash m0 Ffl C s → (∀ r, r ∈ F → live s r) → (size F < Z.to_nat (page_count (eng s)))%nat.
Proof.
  intros O Hl. pose proof (to_bounds _ _ _ _ _ O) as Hb.
  assert (F ⊆ list_to_set (Pg <$> seqZ 1 (page_count (eng s) - 1))) as Hs.
  { intros r Hr. specialize (Hl r Hr). destruct r as [id|e]; [|done]. destruct Hl as [Hid _].
    apply elem_of_list_to_set, list_elem_of_fmap. exists id. split; [done|]. apply elem_of_seqZ. lia. }
  apply subseteq_size in Hs. rewrite size_list_to_set, length_fmap, length_seqZ in Hs.
  - lia.
  - apply NoDup_fmap_2; [apply _|apply NoDup_seqZ].
Qed.

(** Moving the root changes nothing a page shows. *)
Lemma set_root_ok s r : txn_ok content_hash m0 Ffl C s → in_freelist_op s = true → txn_ok content_hash m0 Ffl C (set_root r s).
Proof.
  intros [[S1 S2 S3 S4] O2 O3 O4 O5 O6 O7 O8 O9 O10 O11 O12] Ho. split; try done. split; try done. cbn. by rewrite Ho.
Qed.

Lemma set_root_acct s r : acct content_hash m0 Ffl C R0 s → in_freelist_op s = true → acct content_hash m0 Ffl C R0 (set_root r s).
Proof. intros [[S1 S2 S3 S4] A2 A3 A4] Ho. split; try done. split; try done. cbn. by rewrite Ho. Qed.

Lemma set_root_eff s s' r F F' : eff s s' F F' → in_freelist_op s' = true → eff s (set_root r s') F F'.
Proof.
  intros [E1 E2 E3 E4 E5] Ho. split; [by apply set_root_ok|exact E2|exact E3|exact E4|exact E5].
Qed.

Lemma set_root_tree s r h F D : tree_map content_hash s h r F D → tree_map content_hash (set_root r s) h (freelist_root (pg (set_root r s))) F D.
Proof.
  intros Ht. eapply tree_map_alike; [exact Ht|]. split; [|done]. intros q Hq. pose proof (tree_map_live _ _ _ _ _ _ _ Ht Hq) as Hl.
  destruct q; [|done]. by split.
Qed.

Lemma set_root_keeps s r : in_freelist_op s = true → keeps s (set_root r s).
Proof.
  intros Ho id [[S1 S2 S3 S4] H2 H3 H4 H5 H6]. split; [|done]. split; try done. split; try done. cbn. by rewrite Ho.
Qed.

Lemma rooted_step s s' r h F F' D : eff s s' F F' → keeps s s' → keeps_acct content_hash m0 Ffl C R0 s s' → frozen s s' → rewriting s F D →
  ∀ D', tree_map content_hash s' h r F' D' → (∀ k v, D' !! k = Some v → small_entry v) → rewrites s (set_root r s') F F' D'.
Proof.
  intros E Hk Ha Hf [W1 W2 W3 W4 W5] D' Ht Hs. destruct (Hf W2) as [Ho Hd]. specialize (Ha W3).
  split; [by apply set_root_eff|split; [exact Hd|split; [etrans; [exact Hk|by apply set_root_keeps]|]]]. split; [apply set_root_ok; [apply E|done]|done|by apply set_root_acct| |done].
  exists h. by apply set_root_tree.
Qed.
Section Fuel.
Context (fuel : nat).
Abbreviation enough s := (Z.to_nat (page_count (eng s)) ≤ fuel)%nat.

Lemma rewriting_height s F D : rewriting s F D → enough s →
  ∃ h, (h < fuel)%nat ∧ tree_map content_hash s h (freelist_root (pg s)) F D.
Proof.
  intros W Hf. destruct (rw_tree _ _ _ W) as [h Ht]. destruct (tree_map_height _ _ _ _ _ _ Ht) as (h'&Hh&_&Ht').
  exists h'. split; [|done]. pose proof (owned_bound s F (rw_ok _ _ _ W)) as Hb.
  specialize (Hb (λ r, tree_map_live _ _ _ _ _ _ _ Ht)). lia.
Qed.

Lemma put_entry_spec s F D k v : rewriting s F D → enough s → (length k ≤ MAX_KEY)%nat → small_entry v →
  wps (put_entry content_hash fuel k v) (λ _ s', ∃ F', rewrites s s' F F' (<[k := v]> D)) s.
Proof.
  intros W Hf Hk Hv. destruct (rewriting_height _ _ _ W Hf) as (h&Hh&Ht). unfold put_entry. apply wp_bind. eapply wp_reads; [done|].
  apply wp_bind. eapply wp_mono.
  { eapply wp_moves; [apply (insert_moves (keeps_acct content_hash m0 Ffl C R0))|].
    eapply wp_moves; [apply (insert_moves frozen)|]. eapply wp_moves; [apply (insert_moves keeps)|].
    eapply (insert_map _ _ _ _ _ _ _ k (Flat v) v ∅ Upsert); [apply W|exact Ht| |done|done].
    split; [done| |by rewrite bool_decide_false by (by intros [? _])|apply disjoint_empty_r|].
    - cbn. unfold small_entry in Hv. lia.
    - intros y Hy _. pose proof (rw_small _ _ _ W _ _ Hy) as Hs. unfold small_entry, MAX_FREEABLE in *. lia. }
  intros out s' [[[(_&F'&h'&_&E&Ht') Hkp] Hfr] Ha]. unfold wp. cbn [modify]. exists F'. rewrite union_empty_r_L in E.
  eapply rooted_step; try done. cbn. intros k' v' [[_ <-]|[_ ?]]%lookup_insert_Some; [done|]. by eapply (rw_small _ _ _ W).
Qed.

Lemma drop_entry_spec s F D k : rewriting s F D → enough s →
  wps (drop_entry content_hash fuel k) (λ _ s', ∃ F', rewrites s s' F F' (base.delete k D)) s.
Proof.
  intros W Hf. destruct (rewriting_height _ _ _ W Hf) as (h&Hh&Ht). unfold drop_entry. apply wp_bind. eapply wp_reads; [done|].
  apply wp_bind. eapply wp_mono.
  { eapply wp_moves; [apply (delete_moves (keeps_acct content_hash m0 Ffl C R0))|].
    eapply wp_moves; [apply (delete_moves frozen)|]. eapply wp_moves; [apply (delete_moves keeps)|].
    eapply (delete_map _ _ _ _ _ _ _ k); [apply W|exact Ht| |done].
    intros y Hy. pose proof (rw_small _ _ _ W _ _ Hy) as Hs. unfold small_entry, MAX_FREEABLE in *. lia. }
  intros out s' [[[(_&F'&h'&_&E&Ht') Hkp] Hfr] Ha]. unfold wp. cbn [modify]. exists F'.
  eapply rooted_step; try done. intros k' v' [_ ?]%lookup_delete_Some. by eapply (rw_small _ _ _ W).
Qed.

Lemma rewrites_refl s F D : rewriting s F D → rewrites s s F F D.
Proof.
  intros W. split; [|split; [by split_and!|split; [done|done]]]. destruct (rw_tree _ _ _ W) as [h Ht]. apply eff_refl; [apply W|]. intros r. by apply (tree_map_live _ _ _ _ _ _ _ Ht).
Qed.

Lemma rewrites_trans s1 s2 s3 F1 F2 F3 D2 D3 : rewrites s1 s2 F1 F2 D2 → rewrites s2 s3 F2 F3 D3 → rewrites s1 s3 F1 F3 D3.
Proof.
  intros (E1&Hd1&K1&_) (E2&Hd2&K2&W). split; [by eapply eff_trans|split; [by eapply drawn_same_trans|split; [by etrans|done]]].
Qed.

Lemma rewrites_enough s s' F F' D : rewrites s s' F F' D → enough s → enough s'.
Proof. intros (_&(_&_&_&->&_&_)&_). done. Qed.

(** ** A pass *)

Definition entry_val (ids : list Z) : option bytes := if decide (ids = []) then None else Some (encode_ids ids).
Abbreviation planned plan k := ((list_to_map plan : gmap bytes (list Z)) !! k).

Lemma drop_stale_spec plan W : ∀ s F D, rewriting s F D → enough s →
  wps (drop_stale content_hash fuel plan W)
    (λ _ s', ∃ F' D', rewrites s s' F F' D' ∧
       ∀ k, D' !! k = if decide (k ∈ W.*1 ∧ k ∉ plan.*1) then None else D !! k) s.
Proof.
  induction W as [|[k0 ids0] W IH]; intros s F D Hw Hf; cbn [drop_stale].
  { apply wp_ret. exists F, D. split; [by apply rewrites_refl|]. intros k. rewrite decide_False; [done|]. by intros [?%elem_of_nil _]. }
  apply wp_bind. case_bool_decide as Hk.
  - apply wp_ret. eapply wp_mono; [by apply IH|]. intros _ s' (F'&D'&Hr&HD). exists F', D'. split; [done|].
    intros k. rewrite HD. apply decide_ext. cbn. rewrite elem_of_cons. naive_solver.
  - eapply wp_mono; [by apply drop_entry_spec|]. intros _ s1 (F1&R1). eapply wp_mono.
    { apply IH; [apply R1|by eapply rewrites_enough]. }
    intros _ s' (F'&D'&Hr&HD). exists F', D'. split; [by eapply rewrites_trans|].
    intros k. rewrite HD. cbn. repeat case_decide; try done.
    + set_solver.
    + destruct (decide (k = k0)) as [->|]; [by rewrite lookup_delete_eq|]. set_solver.
    + rewrite lookup_delete_ne; [done|]. set_solver.
Qed.

Lemma write_plan_spec W plan : ∀ s F D, NoDup plan.*1 → Forall (λ e, (length e.1 ≤ MAX_KEY)%nat ∧ (length e.2 ≤ FREELIST_CHUNK_PAGES)%nat) plan →
  rewriting s F D → enough s →
  wps (write_plan content_hash fuel W plan)
    (λ _ s', ∃ F' D', rewrites s s' F F' D' ∧
       ∀ k, D' !! k = match planned plan k with
                      | Some ids => if decide ((k, ids) ∈ W) then D !! k else entry_val ids
                      | None => D !! k
                      end) s.
Proof.
  induction plan as [|[k0 ids0] plan IH]; intros s F D Hn Hl Hw Hf; cbn [write_plan].
  { apply wp_ret. exists F, D. split; [by apply rewrites_refl|done]. }
  cbn [fmap list_fmap fst] in Hn. apply NoDup_cons in Hn as [Hk0 Hn]. apply Forall_cons in Hl as [[Hl1 Hl2] Hl]. cbn [fst snd] in Hl1, Hl2.
  assert (planned plan k0 = None) as Hnone by by apply not_elem_of_list_to_map_1.
  apply wp_bind. eapply (wp_mono _ _ (λ _ s1, ∃ F1 D1, rewrites s s1 F F1 D1 ∧ 
    D1 !! k0 = (if decide ((k0, ids0) ∈ W) then D !! k0 else entry_val ids0) ∧ ∀ k, k ≠ k0 → D1 !! k = D !! k)).
  { case_bool_decide as Hin; [|case_bool_decide as Hnil].
    - apply wp_ret. exists F, D. split_and!; [by apply rewrites_refl|by rewrite decide_True|done].
    - eapply wp_mono; [by apply drop_entry_spec|]. intros _ s1 (F1&R1). eexists F1, _. split_and!; [done| |].
      + rewrite decide_False by done. unfold entry_val. by rewrite decide_True, lookup_delete_eq.
      + intros k ?. by rewrite lookup_delete_ne.
    - eapply wp_mono; [apply put_entry_spec; try done|].
      { unfold small_entry. rewrite length_encode_ids. unfold FREELIST_CHUNK_PAGES in Hl2. lia. }
      intros _ s1 (F1&R1). eexists F1, _. split_and!; [done| |].
      + rewrite decide_False by done. unfold entry_val. by rewrite decide_False, lookup_insert_eq.
      + intros k ?. by rewrite lookup_insert_ne. }
  intros _ s1 (F1&D1&R1&Hd1&Hd2). eapply wp_mono; [apply IH; [done|done|apply R1|by eapply rewrites_enough]|].
  intros _ s' (F'&D'&Hr&HD). exists F', D'. split; [by eapply rewrites_trans|]. intros k. rewrite HD. cbn [list_to_map foldr].
  destruct (decide (k = k0)) as [->|Hne].
  - change (foldr _ ∅ plan) with (list_to_map plan : gmap bytes (list Z)) in *. rewrite Hnone. cbn. by rewrite lookup_insert_eq.
  - cbn. rewrite lookup_insert_ne by done. rewrite Hd2 by done. done.
Qed.
End Fuel.
End Entries.
