(* ===== verification/FreelistPlan.v ===== *)
(** The plan of a commit's free list and the passes that write it. *)

From S2P Require Import Prelude BtreeNode PageStore Btree Overflow KvMap BtreeRep BtreeInsert BtreeDelete BtreeSnapshot BtreeSpec BtreeView.
From S2P Require Import Cursor Txn TxnPool TxnStore FreelistCodec FreelistAccount FreelistWrite.
Local Open Scope Z_scope.

(** A free list as commits up to [txn] wrote it. *)
Record freelist_wf (e : Eng) (txn : Z) (m : kvs) : Prop := {
  fw_entries : Forall (entry_wf e) m;
  fw_ids : NoDup (ids_of m);
  fw_small : Forall (λ kv, small_entry kv.2) m;
  fw_txn : Forall (λ kv, key_txn kv.1 ≤ txn) m;
}.

Lemma chunks_short {A} n (l : list A) k : (0 < n)%nat → (length l ≤ n * k)%nat → (length (chunks n l) ≤ k)%nat.
Proof. intros Hn Hl. pose proof (chunks_count n l Hn). nia. Qed.

Lemma elem_of_concat {A} (x : A) (ls : list (list A)) : x ∈ concat ls ↔ ∃ l, l ∈ ls ∧ x ∈ l.
Proof. rewrite list_elem_of_In, in_concat. setoid_rewrite list_elem_of_In. naive_solver. Qed.

Lemma fmap_sublist {A B} (f : A → B) l l' : l `sublist_of` l' → f <$> l `sublist_of` f <$> l'.
Proof. induction 1; cbn; by constructor. Qed.

Section Plan.
Context (m0 : kvs) (new_txn : Z) (Htxn : is_uint 64 new_txn).
Context (Hsorted : kv_sorted m0).
Implicit Types (s : WriteTxn) (W : list (bytes * list Z)).

Definition own_key (k : bytes) : Prop := ∃ c, k = freelist_key new_txn FK_PAGES c.

Lemma own_key_fresh e txn k : freelist_wf e txn m0 → txn < new_txn → own_key k → k ∉ m0.*1.
Proof.
  intros Hw Hlt [c ->] (kv&He&Hin)%list_elem_of_fmap. pose proof (fw_txn _ _ _ Hw) as Hf. rewrite Forall_forall in Hf.
  specialize (Hf _ Hin). rewrite <- He, freelist_key_txn in Hf by done. lia.
Qed.

(** ** The entries drawn *)

Lemma taken_elem s e : taken_ok m0 s → e ∈ taken (pg s) →
  ∃ kv, kv ∈ drawn m0 s ∧ key_kind kv.1 = FK_PAGES ∧ e = MkTaken kv.1 (entry_ids kv).
Proof. intros -> (kv&->&[Hk Hin]%list_elem_of_filter)%list_elem_of_fmap. by exists kv. Qed.

Lemma drawn_sub s kv : kv ∈ drawn m0 s → kv ∈ m0.
Proof. rewrite (split_at_cursor m0 s Hsorted) at 2. rewrite elem_of_app. by left. Qed.

Lemma taken_keys_NoDup s : taken_ok m0 s → NoDup (map te_key (taken (pg s))).
Proof.
  intros ->. rewrite map_map. cbn. change (map (λ x : bytes * bytes, x.1)) with (fmap (M := list) (fst (A := bytes) (B := bytes))).
  eapply sublist_NoDup; [by apply (kv_sorted_NoDup m0)|]. apply fmap_sublist. etrans; [apply sublist_filter|].
  rewrite (split_at_cursor m0 s Hsorted) at 2. by apply sublist_inserts_r.
Qed.

(** ** Keys of the plan *)

Lemma plan_taken_key s W e k : k ∈ (plan_taken s W e).*1 → k = te_key e.
Proof. unfold plan_taken. destruct (_ || _); cbn; [by intros ->%list_elem_of_singleton|by intros ?%elem_of_nil]. Qed.

Lemma plan_taken_keys s W l : (concat (map (plan_taken s W) l)).*1 `sublist_of` map te_key l.
Proof.
  induction l as [|e l IH]; [done|]. cbn [map concat]. rewrite fmap_app. unfold plan_taken at 1.
  destruct (_ || _); cbn; [by apply sublist_skip|by apply sublist_cons].
Qed.

Lemma plan_own_keys s k : k ∈ (plan_own s new_txn).*1 → own_key k.
Proof. intros (e&->&Hin)%list_elem_of_fmap. apply elem_of_lookup_imap in Hin as (i&c&->&_). by eexists. Qed.

Lemma plan_own_NoDup s : (length (own_pages s) ≤ FREELIST_CHUNK_PAGES * Z.to_nat (2 ^ 16))%nat → NoDup (plan_own s new_txn).*1.
Proof.
  intros Hl. pose proof (chunks_short FREELIST_CHUNK_PAGES (own_pages s) _ ltac:(unfold FREELIST_CHUNK_PAGES; lia) Hl) as Hc.
  unfold plan_own. rewrite fmap_imap. apply NoDup_alt. intros i j k. rewrite !list_lookup_imap.
  destruct (_ !! i) as [ci|] eqn:Hi, (_ !! j) as [cj|] eqn:Hj; try done. cbn [fmap option_fmap option_map fst compose]. intros H1 H2.
  assert (freelist_key new_txn FK_PAGES (to_uint 16 (Z.of_nat i)) = freelist_key new_txn FK_PAGES (to_uint 16 (Z.of_nat j))) as He by congruence.
  apply lookup_lt_Some in Hi, Hj. apply freelist_key_inj in He; [|by apply is_sint_to_uint..].
  unfold to_uint in He. rewrite !Z.mod_small in He by lia. lia.
Qed.

Lemma plan_NoDup s W e txn : freelist_wf e txn m0 → txn < new_txn → taken_ok m0 s →
  (length (own_pages s) ≤ FREELIST_CHUNK_PAGES * Z.to_nat (2 ^ 16))%nat → NoDup (freelist_plan s new_txn W).*1.
Proof.
  intros Hw Hlt Ht Hl. unfold freelist_plan. rewrite fmap_app. apply NoDup_app. split_and!.
  - eapply sublist_NoDup; [by apply (taken_keys_NoDup s)|]. apply plan_taken_keys.
  - intros k Hk Ho%plan_own_keys. eapply own_key_fresh in Ho; [|done|done]. apply Ho.
    eapply elem_of_sublist in Hk; [|apply plan_taken_keys]. apply list_elem_of_fmap in Hk as (te&->&He).
    apply taken_elem in He as (kv&Hin%drawn_sub&_&->); [|done]. apply list_elem_of_fmap. by exists kv.
  - by apply plan_own_NoDup.
Qed.

Lemma plan_keys s W k : taken_ok m0 s → k ∈ (freelist_plan s new_txn W).*1 → k ∈ map te_key (taken (pg s)) ∨ own_key k.
Proof.
  intros Ht. unfold freelist_plan. rewrite fmap_app, elem_of_app. intros [Hk|Hk%plan_own_keys]; [left|by right].
  eapply elem_of_sublist; [exact Hk|apply plan_taken_keys].
Qed.

(** A drawn entry stays in the plan once it was written. *)
Lemma plan_keeps_taken s W k : k ∈ map te_key (taken (pg s)) → k ∈ W.*1 → k ∈ (freelist_plan s new_txn W).*1.
Proof.
  intros (e&->&He)%list_elem_of_fmap Hk. unfold freelist_plan. rewrite fmap_app, elem_of_app. left.
  apply list_elem_of_fmap. exists (te_key e, kept_ids s e). split; [done|]. apply elem_of_concat. exists (plan_taken s W e).
  split; [apply list_elem_of_fmap; by exists e|]. unfold plan_taken. rewrite (bool_decide_true (te_key e ∈ _)) by done.
  rewrite orb_true_r. constructor.
Qed.

Lemma entry_ids_short e txn kv : freelist_wf e txn m0 → kv ∈ m0 → (length (entry_ids kv) ≤ FREELIST_CHUNK_PAGES)%nat.
Proof.
  intros Hw Hin. pose proof (fw_small _ _ _ Hw) as Hs. rewrite Forall_forall in Hs. specialize (Hs _ Hin). cbn in Hs.
  unfold entry_ids. destruct (_ =? _); [|cbn; lia]. rewrite length_map. apply chunks_short; [lia|]. unfold small_entry, FREELIST_CHUNK_PAGES in *. lia.
Qed.

Lemma plan_sizes s W e txn : freelist_wf e txn m0 → taken_ok m0 s →
  Forall (λ x, (length x.1 ≤ MAX_KEY)%nat ∧ (length x.2 ≤ FREELIST_CHUNK_PAGES)%nat) (freelist_plan s new_txn W).
Proof.
  intros Hw Ht. apply Forall_app. split; apply Forall_forall.
  - intros x (l&(te&->&Hte)%list_elem_of_fmap&Hx)%elem_of_concat. apply taken_elem in Hte as (kv&Hin%drawn_sub&Hk&->); [|done].
    unfold plan_taken in Hx. destruct (_ || _); [|by apply elem_of_nil in Hx]. apply list_elem_of_singleton in Hx as ->. cbn. split.
    + pose proof (fw_entries _ _ _ Hw) as Hf. rewrite Forall_forall in Hf. destruct (Hf _ Hin) as [-> _]. unfold MAX_KEY. lia.
    + etrans; [apply length_filter|]. by eapply entry_ids_short.
  - intros x (i&c&->&Hc)%elem_of_lookup_imap. cbn. rewrite freelist_key_length. split; [unfold MAX_KEY; lia|].
    apply list_elem_of_lookup_2 in Hc. pose proof (chunks_Forall FREELIST_CHUNK_PAGES (own_pages s) ltac:(unfold FREELIST_CHUNK_PAGES; lia)) as Hf.
    rewrite Forall_forall in Hf. destruct (Hf _ Hc). lia.
Qed.
End Plan.

(** * The passes *)

Section Passes.
Context (content_hash : bytes → Z) (m0 : kvs) (Ffl : rset) (C : gset Z) (R0 : Z → Prop).
#[local] Instance passes_store : PageStore WriteTxn := txn_store content_hash.
#[local] Instance passes_view : StoreView WriteTxn := txn_view content_hash m0 Ffl C.
#[local] Instance passes_laws : StoreLaws WriteTxn := txn_laws content_hash m0 Ffl C.
Context (fuel : nat) (new_txn txn : Z) (s1 : WriteTxn).
Context (Htxn : is_uint 64 new_txn) (Hlt : txn < new_txn).
Context (Hwf : freelist_wf (eng s1) txn m0) (Hpc : page_count (eng s1) ≤ 120 * 2 ^ 16) (Hfuel : (Z.to_nat (page_count (eng s1)) ≤ fuel)%nat).
Abbreviation ok := (txn_ok content_hash m0 Ffl C).
Abbreviation rewriting := (rewriting content_hash m0 Ffl C R0).
Abbreviation rewrites := (rewrites content_hash m0 Ffl C R0).
Abbreviation planned plan k := ((list_to_map plan : gmap bytes (list Z)) !! k).

Lemma own_pages_perm s : own_pages s ≡ₚ elements (freed (pg s)) ++ filter (λ id, Forall (λ e, id ∉ te_ids e) (taken (pg s))) (reusable (pg s)).
Proof. apply merge_sort_Permutation. Qed.

Lemma own_pages_NoDup s : ok s → NoDup (own_pages s).
Proof.
  intros O. rewrite own_pages_perm. apply NoDup_app. split_and!; [apply NoDup_elements| |].
  - intros id Hf%elem_of_elements [_ Hr]%list_elem_of_filter. destruct (to_pool _ _ _ _ _ O id) as (_&_&?); [|done]. apply elem_of_app. by left.
  - apply NoDup_filter. pose proof (to_nodup _ _ _ _ _ O) as Hn. by apply NoDup_app in Hn as [? _].
Qed.

Lemma own_pages_data s id : ok s → id ∈ own_pages s → in_data s id.
Proof.
  intros O. rewrite own_pages_perm, elem_of_app, elem_of_elements. intros [Hf|[_ Hr]%list_elem_of_filter].
  - by apply (to_freed _ _ _ _ _ O).
  - apply (to_pool _ _ _ _ _ O), elem_of_app. by left.
Qed.

Lemma own_pages_count s : ok s → page_count (eng s) = page_count (eng s1) →
  (length (own_pages s) ≤ FREELIST_CHUNK_PAGES * Z.to_nat (2 ^ 16))%nat.
Proof.
  intros O Hc. pose proof (to_bounds _ _ _ _ _ O) as Hb.
  assert (own_pages s ⊆+ seqZ 0 (page_count (eng s))) as Hs%submseteq_length.
  { apply NoDup_submseteq; [by apply own_pages_NoDup|]. intros id Hid%own_pages_data; [|done]. apply elem_of_seqZ. unfold in_data in Hid. lia. }
  rewrite length_seqZ in Hs. unfold FREELIST_CHUNK_PAGES. lia.
Qed.

(** [W] is what the free list says beside [m0]. *)
Record pass (s : WriteTxn) (W : list (bytes * list Z)) (F : rset) (D : gmap bytes bytes) : Prop := {
  pa_step : rewrites s1 s Ffl F D;
  pa_keys : NoDup W.*1;
  pa_over : ∀ k, D !! k = match planned W k with Some ids => entry_val ids | None => to_map m0 !! k end;
  pa_from : ∀ k, k ∈ W.*1 → k ∈ map te_key (taken (pg s1)) ∨ own_key new_txn k;
}.

Lemma pass_wf s W F D : pass s W F D → freelist_wf (eng s) txn m0.
Proof.
  intros P. destruct (pa_step _ _ _ _ P) as (_&(_&_&Hd&Hc&_)&_). destruct Hwf as [H1 H2 H3 H4]. split; try done.
  eapply Forall_impl; [exact H1|]. intros kv. unfold entry_wf. by rewrite Hd, Hc.
Qed.

Lemma pass_stale s W F D k : pass s W F D → k ∈ W.*1 → k ∉ (freelist_plan s new_txn W).*1 → to_map m0 !! k = None.
Proof.
  intros P Hk Hn. destruct (pa_step _ _ _ _ P) as (_&(Ht&_)&_). destruct (pa_from _ _ _ _ P k Hk) as [Hin|Hown].
  - rewrite <- Ht in Hin. by destruct Hn; apply plan_keeps_taken.
  - rewrite to_map_get. apply kv_get_None. by eapply own_key_fresh.
Qed.

Lemma pass_next s W F D : pass s W F D →
  wps (drop_stale content_hash fuel (freelist_plan s new_txn W) W;; write_plan content_hash fuel W (freelist_plan s new_txn W))
    (λ _ s', ∃ F' D', pass s' (freelist_plan s new_txn W) F' D') s.
Proof.
  intros P. set (plan := freelist_plan s new_txn W). destruct (pa_step _ _ _ _ P) as (E&Hsame&_&Hrw). pose proof Hsame as (Ht&_&_&Hc&_).
  pose proof (rw_ok _ _ _ _ _ _ _ _ Hrw) as O. pose proof (ac_taken _ _ _ _ _ _ (rw_acct _ _ _ _ _ _ _ _ Hrw)) as Htk.
  pose proof (sf_sorted _ _ _ _ (to_safe _ _ _ _ _ O)) as Hso. pose proof (pass_wf _ _ _ _ P) as Hw.
  assert (NoDup plan.*1) as Hnd by (eapply plan_NoDup; try done; by apply own_pages_count).
  apply wp_bind. eapply wp_mono; [apply drop_stale_spec; [exact Hrw|by rewrite Hc]|]. intros _ s2 (F2&D2&R2&HD2).
  eapply wp_mono; [apply write_plan_spec; [exact Hnd|by eapply plan_sizes|apply R2|eapply rewrites_enough; [exact R2|by rewrite Hc]]|].
  intros _ s3 (F3&D3&R3&HD3). exists F3, D3. split.
  - eapply rewrites_trans; [exact (pa_step _ _ _ _ P)|]. by eapply rewrites_trans.
  - done.
  - intros k. rewrite HD3. destruct (planned plan k) as [ids|] eqn:Hp.
    + case_decide as Hin; [|done]. rewrite HD2, decide_False, (pa_over _ _ _ _ P).
      * by rewrite (elem_of_list_to_map_1 _ _ _ (pa_keys _ _ _ _ P) Hin).
      * intros [_ Hn]. apply Hn. apply elem_of_list_to_map_2 in Hp. apply list_elem_of_fmap. by exists (k, ids).
    + rewrite HD2, (pa_over _ _ _ _ P). apply not_elem_of_list_to_map in Hp. case_decide as Hk.
      * symmetry. by eapply pass_stale; [exact P|apply Hk..].
      * destruct (planned W k) eqn:Hw'; [|done]. destruct Hk. split; [|done]. apply elem_of_list_to_map_2 in Hw'.
        apply list_elem_of_fmap. by eexists (_, _).
  - intros k Hk. rewrite <- Ht. by eapply plan_keys.
Qed.

(** A commit may also stop because the plan kept moving. *)
Definition commit_fails (o : option Error) (s : WriteTxn) : Prop :=
  out_of_space o s ∨ o = Some (Internal "freelist fixpoint did not converge").

Lemma loop_spec passes : ∀ s W F D, pass s W F D →
  wp commit_fails (fixpoint_loop content_hash passes fuel new_txn W)
    (λ _ s', ∃ W' F' D', pass s' W' F' D' ∧ freelist_plan s' new_txn W' = W') s.
Proof.
  induction passes as [|passes IH]; intros s W F D P; cbn [fixpoint_loop]; [by right|].
  apply wp_bind. eapply wp_reads; [done|]. case_bool_decide as Hfix.
  - apply wp_ret. by exists W, F, D.
  - pose proof (pass_next _ _ _ _ P) as Hn. apply (wp_weaken _ commit_fails) in Hn; [|by left].
    unfold wp, mbind, M_mbind in *. destruct (drop_stale _ _ _ _ s) as [[[]|e|] s2]; [|done..].
    destruct (write_plan _ _ _ _ s2) as [[[]|e|] s3]; [|done..]. destruct Hn as (F'&D'&P'). by eapply IH.
Qed.
End Passes.
