(* ===== verification/FreelistCommit.v ===== *)
(** What a commit leaves in the free list: exactly the pages not in use, each
    once; and the transaction that starts from it. *)

From stdpp Require Import sorting.
From S2P Require Import Prelude BtreeNode PageStore Btree Overflow KvMap BtreeRep BtreeInsert BtreeDelete BtreeSnapshot BtreeSpec BtreeView.
From S2P Require Import Cursor Txn TxnPool TxnStore FreelistCodec FreelistAccount FreelistWrite FreelistPlan.
Local Open Scope Z_scope.

Lemma ids_of_app a b : ids_of (a ++ b) = ids_of a ++ ids_of b.
Proof. unfold ids_of. by rewrite map_app, concat_app. Qed.

Lemma ids_of_perm a b : a ≡ₚ b → ids_of a ≡ₚ ids_of b.
Proof. unfold ids_of. induction 1; cbn [map concat]; [done|by f_equiv| |by etrans]. by rewrite !(assoc_L (++)), (comm (++) (entry_ids y)). Qed.

Lemma filter_length_eq {A} (P : A → Prop) `{∀ x, Decision (P x)} l : length (filter P l) = length l → filter P l = l.
Proof.
  induction l as [|x l IH]; [done|]. rewrite filter_cons. pose proof (length_filter P l). case_decide; cbn [length]; intros Hl; [|lia].
  f_equal. apply IH. lia.
Qed.

Lemma StronglySorted_sublist {A} (R : relation A) l l' : l `sublist_of` l' → StronglySorted R l' → StronglySorted R l.
Proof.
  induction 1 as [|x l l' Hs IH|x l l' Hs IH]; [done|..]; intros [Hss Hf]%StronglySorted_inv; [|by apply IH].
  constructor; [by apply IH|]. rewrite Forall_forall in *. intros y Hy. apply Hf. by eapply elem_of_sublist.
Qed.

Lemma StronglySorted_lt l : StronglySorted Z.le l → NoDup l → StronglySorted Z.lt l.
Proof.
  induction 1 as [|x l Hs IH Hf]; intros Hn; [constructor|]. apply NoDup_cons in Hn as [Hx Hn]. constructor; [by apply IH|].
  rewrite Forall_forall in *. intros y Hy. specialize (Hf y Hy). cbn in Hf. assert (x ≠ y) by congruence. lia.
Qed.

Lemma own_pages_sorted s : StronglySorted Z.le (own_pages s).
Proof. apply Sorted_StronglySorted; [apply _|]. apply Sorted_merge_sort; apply _. Qed.

(** * The bindings the last pass leaves *)

Section Account.
Context (m0 : kvs) (Hsorted : kv_sorted m0) (s : WriteTxn) (Htaken : taken_ok m0 s).
Context (W : list (bytes * list Z)) (HW : NoDup W.*1).
Abbreviation planned plan k := ((list_to_map plan : gmap bytes (list Z)) !! k).
Abbreviation mk := (λ e : bytes * bytes, MkTaken e.1 (entry_ids e)).
Abbreviation paged := (λ e : bytes * bytes, key_kind e.1 = FK_PAGES).

Definition rest : kvs := filter (λ kv, kv.1 ∉ W.*1) m0.
Definition encoded : kvs := map (λ e, (e.1, encode_ids e.2)) (filter (λ e, e.2 ≠ []) W).

Lemma encoded_elem k v : (k, v) ∈ encoded ↔ ∃ ids, planned W k = Some ids ∧ entry_val ids = Some v.
Proof.
  unfold encoded, entry_val. rewrite list_elem_of_fmap. split.
  - intros ([k' ids]&[= -> ->]&[Hne Hin]%list_elem_of_filter). exists ids. cbn in Hne. rewrite decide_False by done.
    split; [by apply elem_of_list_to_map|done].
  - intros (ids&Hin%elem_of_list_to_map&Hv); [|done]. case_decide; [done|]. injection Hv as <-. exists (k, ids). split; [done|].
    by apply list_elem_of_filter.
Qed.

Lemma over_perm m : kv_sorted m →
  (∀ k, to_map m !! k = match planned W k with Some ids => entry_val ids | None => to_map m0 !! k end) → m ≡ₚ rest ++ encoded.
Proof.
  intros Hm Hov. pose proof (kv_sorted_NoDup _ Hm) as Hn. pose proof (kv_sorted_NoDup _ Hsorted) as Hn0.
  assert (NoDup (rest ++ encoded)) as Hne.
  { apply NoDup_app. split_and!; [by apply NoDup_filter, (NoDup_fmap_1 fst)| |].
    - intros [k v] [Hk _]%list_elem_of_filter (ids&Hp&_)%encoded_elem. apply Hk. apply elem_of_list_to_map_2 in Hp.
      apply list_elem_of_fmap. by exists (k, ids).
    - apply (NoDup_fmap_1 fst). unfold encoded. rewrite <- list_fmap_compose. cbn.
      eapply sublist_NoDup; [exact HW|]. apply fmap_sublist, sublist_filter. }
  apply NoDup_Permutation; [by apply (NoDup_fmap_1 fst)|done|]. intros [k v]. rewrite elem_of_app, encoded_elem.
  unfold rest. rewrite list_elem_of_filter. cbn.
  assert ((k, v) ∈ m ↔ to_map m !! k = Some v) as -> by (by apply elem_of_list_to_map).
  assert ((k, v) ∈ m0 ↔ to_map m0 !! k = Some v) as -> by (by apply elem_of_list_to_map).
  rewrite Hov. destruct (planned W k) as [ids|] eqn:Hp.
  - apply elem_of_list_to_map_2 in Hp. split; [intros Hv; right; by exists ids|]. intros [[Hk _]|(?&[= <-]&?)]; [|done].
    destruct Hk. apply list_elem_of_fmap. by exists (k, ids).
  - apply not_elem_of_list_to_map in Hp. split; [by left|]. by intros [[_ ?]|(?&?&_)].
Qed.

Lemma ids_of_encoded : Forall (λ e, key_kind e.1 = FK_PAGES ∧ Forall (is_uint 64) e.2) W → ids_of encoded = concat (map snd W).
Proof.
  unfold encoded, ids_of. clear HW. induction 1 as [|[k ids] W' [Hk Hu] _ IH]; [done|]. rewrite filter_cons. cbn [fst snd] in *.
  case_decide as Hn; cbn [map concat fst snd].
  - by rewrite entry_ids_encode, IH.
  - subst ids. exact IH.
Qed.

Lemma plan_taken_cases e : plan_taken s W e = [(te_key e, kept_ids s e)] ∨ plan_taken s W e = [] ∧ kept_ids s e = te_ids e.
Proof.
  unfold plan_taken. destruct (_ || _) eqn:Hc; [by left|right]. split; [done|].
  apply orb_false_iff in Hc as [Hl%bool_decide_eq_false _]. apply dec_stable in Hl. by apply filter_length_eq in Hl.
Qed.

(** Drawn entries: those still as they were and those rewritten together have
    what is left of each. *)
Lemma taken_account L : (∀ kv, kv ∈ L → paged kv → plan_taken s W (mk kv) = [] ∨ kv.1 ∈ W.*1) →
  (∀ kv, kv ∈ L → paged kv → kv.1 ∈ W.*1 → plan_taken s W (mk kv) ≠ []) →
  ids_of (filter (λ kv, kv.1 ∉ W.*1) L) ++ concat (map snd (concat (map (plan_taken s W) (map mk (filter paged L))))) ≡ₚ
  concat (map (kept_ids s) (map mk (filter paged L))).
Proof.
  induction L as [|kv L IH]; intros H1 H2; [done|].
  specialize (IH ltac:(intros; apply H1; [by constructor|done]) ltac:(intros; apply H2; [by constructor|done|done])).
  specialize (H1 kv ltac:(constructor)). specialize (H2 kv ltac:(constructor)). rewrite !filter_cons.
  destruct (decide (paged kv)) as [Hp|Hp]; cbn [map concat].
  - specialize (H1 Hp). specialize (H2 Hp). rewrite map_app, concat_app, <- IH. clear IH.
    destruct (plan_taken_cases (mk kv)) as [Hpt|[Hpt Hk]]; rewrite Hpt in *.
    + destruct H1 as [?|H1]; [done|]. rewrite decide_False by tauto. cbn [map concat snd]. rewrite app_nil_r.
      rewrite !(assoc_L (++)). by rewrite (comm (++) (ids_of _) (kept_ids s _)).
    + rewrite decide_True by (intros Hx; by apply H2). rewrite Hk. unfold ids_of. cbn [map concat te_ids app]. by rewrite (assoc_L (++)).
  - assert (entry_ids kv = []) as He by (unfold entry_ids; by rewrite (proj2 (Z.eqb_neq _ _))).
    case_decide; [|done]. unfold ids_of. cbn [map concat]. by rewrite He.
Qed.

Lemma taken_ids : concat (map te_ids (taken (pg s))) = ids_of (drawn m0 s).
Proof.
  rewrite Htaken. generalize (drawn m0 s). intros L. induction L as [|kv L IH]; [done|]. rewrite filter_cons.
  unfold ids_of in *. cbn [map concat]. case_decide as Hp; cbn [map concat te_ids].
  - by rewrite IH.
  - unfold entry_ids at 2. rewrite (proj2 (Z.eqb_neq _ _)) by done. done.
Qed.

Lemma kept_filter (l : list TakenEntry) : concat (map (kept_ids s) l) = filter (λ id, id ∈ reusable (pg s)) (concat (map te_ids l)).
Proof. induction l as [|e l IH]; [done|]. cbn [map concat]. by rewrite filter_app, IH. Qed.

(** What was drawn and not used, and what came back, is the pool. *)
Lemma pool_account : NoDup (ids_of m0) → NoDup (reusable (pg s)) →
  concat (map (kept_ids s) (taken (pg s))) ++ filter (λ id, Forall (λ e, id ∉ te_ids e) (taken (pg s))) (reusable (pg s)) ≡ₚ reusable (pg s).
Proof.
  intros Hn Hr. rewrite kept_filter, taken_ids.
  assert (∀ id, Forall (λ e, id ∉ te_ids e) (taken (pg s)) ↔ id ∉ ids_of (drawn m0 s)) as Hf.
  { intros id. rewrite <- taken_ids, Forall_forall, elem_of_concat. setoid_rewrite list_elem_of_fmap. naive_solver. }
  apply NoDup_Permutation; [|done|].
  - apply NoDup_app. split_and!; [|intros id [_ Hd]%list_elem_of_filter [Hx _]%list_elem_of_filter; by apply Hf in Hx|by apply NoDup_filter].
    apply NoDup_filter. rewrite (split_at_cursor m0 s Hsorted), ids_of_app in Hn. by apply NoDup_app in Hn as [? _].
  - intros id. rewrite elem_of_app, !list_elem_of_filter, Hf. destruct (decide (id ∈ ids_of (drawn m0 s))); tauto.
Qed.
End Account.

(** * The free list a commit leaves *)

Section Result.
Context (content_hash : bytes → Z) (m0 : kvs) (Ffl : rset) (C : gset Z) (R0 : Z → Prop).
#[local] Instance result_store : PageStore WriteTxn := txn_store content_hash.
#[local] Instance result_view : StoreView WriteTxn := txn_view content_hash m0 Ffl C.
#[local] Instance result_laws : StoreLaws WriteTxn := txn_laws content_hash m0 Ffl C.
Context (new_txn txn : Z) (s1 : WriteTxn) (Htxn : is_uint 64 new_txn) (Hlt : txn < new_txn) (Hwf : freelist_wf (eng s1) txn m0).
(** The state after the last pass, the plan it wrote, and the bindings. *)
Context (s : WriteTxn) (W : list (bytes * list Z)) (F : rset) (D : gmap bytes bytes) (m : kvs).
Context (Hpass : pass content_hash m0 Ffl C R0 new_txn s1 s W F D) (Hplan : freelist_plan s new_txn W = W).
Context (Hm : kv_sorted m) (HD : to_map m = D).

Lemma res_rw : rewriting content_hash m0 Ffl C R0 s F D.
Proof. apply (pa_step _ _ _ _ _ _ _ _ _ _ _ Hpass). Qed.
Lemma res_ok : txn_ok content_hash m0 Ffl C s.
Proof. apply res_rw. Qed.
Lemma res_sorted : kv_sorted m0.
Proof. apply (to_safe _ _ _ _ _ res_ok). Qed.
Lemma res_taken : taken_ok m0 s.
Proof. apply (rw_acct _ _ _ _ _ _ _ _ res_rw). Qed.
Lemma res_wf : freelist_wf (eng s) txn m0.
Proof. by eapply pass_wf. Qed.

Lemma res_from k : k ∈ W.*1 → k ∈ (drawn m0 s).*1 ∨ own_key new_txn k.
Proof.
  intros Hk. rewrite <- Hplan in Hk. apply (plan_keys m0) in Hk as [(te&->&Hin)%list_elem_of_fmap|?]; [|by right|apply res_taken].
  apply (taken_elem m0) in Hin as (kv&Hd&_&->); [|apply res_taken]. left. apply list_elem_of_fmap. by exists kv.
Qed.

Lemma undrawn_unplanned kv : kv ∈ undrawn m0 s → kv.1 ∉ W.*1.
Proof.
  intros Hu. assert (kv ∈ m0) as Hin by (rewrite (split_at_cursor m0 s res_sorted); apply elem_of_app; by right).
  intros [Hd|Ho]%res_from.
  - pose proof (kv_sorted_NoDup _ res_sorted) as Hn. rewrite (split_at_cursor m0 s res_sorted), fmap_app in Hn.
    apply NoDup_app in Hn as (_&Hn&_). apply (Hn kv.1 Hd). apply list_elem_of_fmap. by exists kv.
  - eapply own_key_fresh; [done|apply res_wf|done|exact Ho|]. apply list_elem_of_fmap. by exists kv.
Qed.

Lemma concat_plan_own : concat (map snd (plan_own s new_txn)) = own_pages s.
Proof.
  unfold plan_own. assert (∀ (f : nat → list Z → bytes) l, map snd (imap (λ i c, (f i c, c)) l) = l) as Hs.
  { intros f l. revert f. induction l as [|c l IH]; intros f; [done|]. cbn [imap map snd]. f_equal. apply (IH (λ i, f (S i))). }
  rewrite (Hs (λ i _, _)). apply concat_chunks. unfold FREELIST_CHUNK_PAGES. lia.
Qed.

Lemma plan_entry k ids : (k, ids) ∈ W →
  length k = 11%nat ∧ key_kind k = FK_PAGES ∧ Forall (λ id, data_start (eng s) ≤ id < page_count (eng s)) ids ∧ StronglySorted Z.lt ids ∧
  (own_key new_txn k ∧ (∀ id, id ∈ ids → id ∈ own_pages s) ∨ key_txn k ≤ txn ∧ ∀ id, id ∈ ids → id ∈ reusable (pg s)).
Proof.
  pose proof (to_bounds _ _ _ _ _ res_ok) as Hb. rewrite <- Hplan. intros [(l&(te&->&Hte)%list_elem_of_fmap&Hx)%elem_of_concat|Hx]%elem_of_app.
  - apply (taken_elem m0) in Hte as (kv&Hd%drawn_sub&Hk&->); [|apply res_sorted|apply res_taken].
    destruct (plan_taken_cases s W (MkTaken kv.1 (entry_ids kv))) as [Hp|[Hp _]]; rewrite Hp in Hx; [|by apply elem_of_nil in Hx].
    apply list_elem_of_singleton in Hx as [= -> ->]. pose proof res_wf as [He _ _ Ht]. rewrite Forall_forall in He, Ht. specialize (Ht _ Hd).
    destruct (He _ Hd) as [Hl [(_&_&Hok)|[Hk' _]]]; [|by rewrite Hk in Hk'].
    destruct (decode_ids _ _ _ _) as [ids| |] eqn:Hdec; try done. apply decode_ids_Ok in Hdec as (Hids&Hr&Hs&_).
    assert (entry_ids kv = ids) as He' by (unfold entry_ids; rewrite Hk; done). cbn [te_key]. unfold kept_ids. cbn [te_ids]. rewrite He'.
    split_and!; [done|done| |eapply StronglySorted_sublist; [apply sublist_filter|done]|right; split; [done|]; by intros id [? _]%list_elem_of_filter].
    apply Forall_forall. intros id [_ Hid]%list_elem_of_filter. rewrite Forall_forall in Hr. by apply Hr.
  - apply elem_of_lookup_imap in Hx as (i&c&[= -> ->]&Hc%list_elem_of_lookup_2).
    pose proof (chunks_Forall FREELIST_CHUNK_PAGES (own_pages s) ltac:(unfold FREELIST_CHUNK_PAGES; lia)) as Hf. rewrite Forall_forall in Hf.
    destruct (Hf _ Hc) as [_ Hsub]. assert (∀ id, id ∈ c → id ∈ own_pages s) as Hin by (intros id ?; by eapply elem_of_sublist).
    split_and!; [apply freelist_key_length|apply freelist_key_kind| | |left; split; [by eexists|done]].
    + apply Forall_forall. intros id Hid%Hin. apply (own_pages_data _ _ _ _ _ _ res_ok) in Hid. unfold in_data in Hid. lia.
    + apply StronglySorted_lt; [|eapply sublist_NoDup; [|exact Hsub]; by apply (own_pages_NoDup content_hash m0 Ffl C), res_ok].
      eapply StronglySorted_sublist; [exact Hsub|]. apply own_pages_sorted.
Qed.

Lemma plan_uints : Forall (λ e, key_kind e.1 = FK_PAGES ∧ Forall (is_uint 64) e.2) W.
Proof.
  pose proof (to_bounds _ _ _ _ _ res_ok) as Hb. apply Forall_forall. intros [k ids] Hin. destruct (plan_entry k ids Hin) as (_&Hk&Hr&_).
  split; [done|]. eapply Forall_impl; [exact Hr|]. intros id. unfold is_uint. cbn. lia.
Qed.

Lemma res_perm : m ≡ₚ rest m0 W ++ encoded W.
Proof.
  apply over_perm; [apply res_sorted|apply Hpass|done|]. intros k. rewrite HD. apply (pa_over _ _ _ _ _ _ _ _ _ _ _ Hpass).
Qed.

Lemma plan_taken_in kv x : kv ∈ drawn m0 s → key_kind kv.1 = FK_PAGES → plan_taken s W (MkTaken kv.1 (entry_ids kv)) = [(kv.1, x)] → kv.1 ∈ W.*1.
Proof.
  intros Hin Hk Hpt. rewrite <- Hplan. unfold freelist_plan. rewrite fmap_app, elem_of_app. left. apply list_elem_of_fmap. exists (kv.1, x).
  split; [done|]. apply elem_of_concat. exists [(kv.1, x)]. split; [|constructor]. rewrite <- Hpt. apply list_elem_of_fmap. eexists. split; [done|].
  rewrite res_taken. apply list_elem_of_fmap. exists kv. split; [done|]. by apply list_elem_of_filter.
Qed.

(** Every free page is listed once. *)
Lemma res_ids : ids_of m ≡ₚ (reusable (pg s) ++ ids_of (undrawn m0 s)) ++ elements (freed (pg s)).
Proof.
  rewrite (ids_of_perm _ _ res_perm), ids_of_app, ids_of_encoded by apply plan_uints. rewrite <- Hplan at 2. unfold freelist_plan.
  rewrite map_app, concat_app, concat_plan_own, own_pages_perm. unfold rest. rewrite (split_at_cursor m0 s res_sorted) at 1.
  rewrite filter_app, ids_of_app, (filter_all (λ kv : bytes * bytes, kv.1 ∉ W.*1) (undrawn m0 s)) by apply undrawn_unplanned.
  pose proof (taken_account s W (drawn m0 s)) as Ht. rewrite <- res_taken in Ht.
  pose proof (pool_account m0 res_sorted s res_taken (fw_ids _ _ _ res_wf)) as Hp.
  specialize (Hp (proj1 (proj1 (NoDup_app _ _) (to_nodup _ _ _ _ _ res_ok)))). revert Hp.
  generalize (filter (λ id, Forall (λ e, id ∉ te_ids e) (taken (pg s))) (reusable (pg s))). intros back Hp. rewrite <- Hp, <- Ht.
  - solve_Permutation.
  - intros kv Hin Hk. destruct (plan_taken_cases s W (MkTaken kv.1 (entry_ids kv))) as [Hpt|[? _]]; [right|by left].
    by eapply plan_taken_in.
  - intros kv _ _ Hk. unfold plan_taken. cbn [te_key]. rewrite (bool_decide_true (kv.1 ∈ _)) by done. by rewrite orb_true_r.
Qed.

Lemma res_new_wf : freelist_wf (eng s) new_txn m.
Proof.
  pose proof res_wf as [H1 H2 H3 H4]. rewrite Forall_forall in H1, H3, H4.
  assert (∀ kv, kv ∈ m → kv ∈ m0 ∨ ∃ k ids, (k, ids) ∈ W ∧ kv = (k, encode_ids ids)) as Hin.
  { intros kv. rewrite res_perm, elem_of_app. intros [[_ ?]%list_elem_of_filter|([k ids]&->&[_ ?]%list_elem_of_filter)%list_elem_of_fmap]; [by left|right].
    by exists k, ids. }
  split.
  - apply Forall_forall. intros kv [?|(k&ids&Hw&->)]%Hin; [by apply H1|]. destruct (plan_entry k ids Hw) as (Hl&Hk&Hr&Hs&_).
    apply entry_wf_encode; try done. pose proof plan_uints as Hu. rewrite Forall_forall in Hu. by destruct (Hu _ Hw).
  - rewrite res_ids. apply NoDup_app. split_and!; [apply res_ok| |apply NoDup_elements].
    intros id Hp ?%elem_of_elements. by destruct (to_pool _ _ _ _ _ res_ok id Hp) as (_&_&?).
  - apply Forall_forall. intros kv [?|(k&ids&Hw&->)]%Hin; [by apply H3|]. cbn. unfold small_entry. rewrite length_encode_ids.
    pose proof (plan_sizes m0 new_txn res_sorted s W _ _ res_wf res_taken) as Hf. rewrite Hplan, Forall_forall in Hf. destruct (Hf _ Hw) as [_ Hl].
    cbn in Hl. unfold FREELIST_CHUNK_PAGES in Hl. lia.
  - apply Forall_forall. intros kv [Hk|(k&ids&Hw&->)]%Hin; [specialize (H4 _ Hk); cbn in H4; lia|]. cbn.
    destruct (plan_entry k ids Hw) as (_&_&_&_&[[[c ->] _]|[? _]]); [|lia]. rewrite freelist_key_txn by done. lia.
Qed.

(** A page out of the pool is listed under this commit's number, or where it
    was listed before. *)
Lemma res_listed kv id : kv ∈ m → id ∈ entry_ids kv → (id ∉ reusable (pg s)) → key_txn kv.1 = new_txn ∨ kv ∈ m0.
Proof.
  intros Hkv Hid Hn. rewrite res_perm, elem_of_app in Hkv. destruct Hkv as [[_ Hin]%list_elem_of_filter|Hkv]; [by right|left].
  apply list_elem_of_fmap in Hkv as ([k ids]&->&[_ Hin]%list_elem_of_filter). cbn [fst snd] in *.
  destruct (plan_entry k ids Hin) as (_&Hk&_&_&[[[c ->] _]|[_ Hr]]); [by apply freelist_key_txn|].
  destruct Hn. apply Hr. rewrite entry_ids_encode in Hid; [done|done|]. pose proof plan_uints as Hu. rewrite Forall_forall in Hu. by destruct (Hu _ Hin).
Qed.
End Result.
