(* ===== verification/TxnCommit.v ===== *)
(** A write transaction from its start to the commit of its free list: the
    invariant [in_txn], its preservation by the operations on trees, and what
    the commit publishes to the next transaction. *)

From S2P Require Import Prelude BtreeNode PageStore Btree Overflow KvMap BtreeRep BtreeInsert BtreeDelete BtreeSnapshot BtreeSpec BtreeView.
From S2P Require Import Cursor Txn TxnOps TxnPool TxnStore FreelistCodec FreelistAccount FreelistWrite FreelistPlan FreelistCommit.
Local Open Scope Z_scope.

Definition pages_of (F : rset) : gset Z := list_to_set (omap (λ r, match r with inl id => Some id | inr _ => None end) (elements F)).

Lemma elem_of_own_pages id F : id ∈ pages_of F ↔ Pg id ∈ F.
Proof.
  unfold pages_of. rewrite elem_of_list_to_set, list_elem_of_omap. split.
  - intros ([j|j]&Hin%elem_of_elements&[= ->]). done.
  - intros Hin. exists (Pg id). split; [by apply elem_of_elements|done].
Qed.

(** * What the operations on trees do not change *)

Section Steady.
Context (content_hash : bytes → Z).
#[local] Instance steady_store : PageStore WriteTxn := txn_store content_hash.

Definition steady (s s' : WriteTxn) : Prop :=
  (in_freelist_op s' = in_freelist_op s ∧ meta s' = meta s ∧ in_place s' = in_place s ∧ scalars s' = scalars s ∧
   table_roots (pg s') = table_roots (pg s)) ∧
  data_start (eng s') = data_start (eng s) ∧ page_count (eng s') = page_count (eng s) ∧ files (eng s') = files (eng s) ∧
  (Forall (λ p, length p = PAGE_SIZE) (mem (eng s)) → Forall (λ p, length p = PAGE_SIZE) (mem (eng s'))) ∧
  (in_place s = false → inplace_undo s' = inplace_undo s) ∧
  freelist_root (pg s') = freelist_root (pg s) ∧ catalog_root (pg s') = catalog_root (pg s).

#[local] Instance steady_preorder : PreOrder steady.
Proof.
  split; [by intros s|]. intros s1 s2 s3 ((?&?&?&?&?)&?&?&?&A1&A2&?&?) ((?&?&Hp&?&?)&?&?&?&B1&B2&?&?).
  split; [split_and!; congruence|]. split_and!; try congruence; [auto|]. intros Hi. rewrite B2, A2; [done|done|congruence].
Qed.

Lemma steady_refill : moves steady (refill_reusable content_hash).
Proof.
  intros s. unfold refill_reusable. destruct (_ =? _); [done|]. destruct (next_entry content_hash s) as [[[k v]|]| |]; [|done..].
  unfold draw_entry. destruct (negb _); [done|]. destruct (negb _); [done|]. destruct (_ && _); [done|].
  destruct (reuse_bound (key_txn k) s) as [b s1] eqn:Hb. assert (steady s s1) as H1.
  { unfold reuse_bound, compute_oldest_pinned in Hb. destruct (_ && _); by injection Hb as _ <-. }
  destruct (b <? _); [done|]. unfold draw_runs, draw_pages. destruct (_ =? _); [destruct (_ && _); [done|]|].
  - destruct (decode_run_entry _ _ _); exact H1.
  - destruct (decode_ids _ _ _ _); exact H1.
Qed.

Lemma steady_draw n : moves steady (draw_pool content_hash n).
Proof.
  induction n as [|n IH]; intros s; cbn [draw_pool]; [done|]. destruct (bool_decide _); [done|]. revert s. apply moves_bind; [apply _|apply steady_refill|].
  intros []; [apply IH|apply moves_ret, _].
Qed.

Lemma steady_take : moves steady take_page.
Proof.
  intros s. destruct (take_page s) as [r s'] eqn:Ht. destruct (take_page_cases _ _ _ Ht) as [(id&rest&->&Hr&->)|(_&[(->&_&->)|(->&_&->)])]; done.
Qed.

Lemma steady_alloc_id : moves steady (alloc_id content_hash).
Proof.
  intros s. unfold alloc_id. unfold mbind at 1, M_mbind at 1. cbn [modify]. set (sa := set_allocs _ s). transitivity sa; [done|].
  set (d := if _ && _ then _ else _). apply (moves_bind steady d (λ _, take_page)); [|intros; apply steady_take].
  unfold d. destruct (_ && _); [apply steady_draw|apply moves_ret, _].
Qed.

Lemma steady_alloc_raw : moves steady (alloc_raw content_hash).
Proof.
  unfold alloc_raw. apply moves_bind; [apply _|apply steady_alloc_id|]. intros id. apply moves_bind; [apply _|by intros s|]. intros. apply moves_ret, _.
Qed.

Lemma steady_page s id p : length p = PAGE_SIZE → steady s (set_page id p s).
Proof. intros Hp. unfold steady. rewrite page_count_set. split_and!; try done. cbn. intros. by apply Forall_insert. Qed.

Lemma steady_alloc : moves steady (alloc content_hash).
Proof.
  unfold alloc. apply moves_bind; [apply _|apply steady_alloc_raw|]. intros id. apply moves_bind; [apply _| |intros; apply moves_ret, _].
  intros s. unfold update, shm_write. destruct (_ <=? _); [done|]. apply steady_page, length_replicate.
Qed.

Lemma steady_free id : moves steady (free id).
Proof.
  apply moves_bind; [apply _|apply moves_reads, _|]. intros [] s. unfold release. set (s1 := if negb _ && _ then journal id s else s).
  assert (∃ l, s1 = set_layers l s) as [l Hs1].
  { subst s1. destruct (_ && _); [apply journal_layers|]. exists (sp_layers s). by destruct s. }
  rewrite Hs1. clear s1 Hs1. destruct (bool_decide (id ∈ dirty _) && _); [destruct (bool_decide _)|destruct (bool_decide _)]; done.
Qed.

Lemma steady_respects : Respects steady.
Proof.
  split; [apply _| |apply steady_alloc|apply steady_alloc_raw|apply steady_free|..].
  - intros s id p p' _. cbn. unfold put. destruct (journal_layers id s) as [l ->]. case_bool_decide; [|done]. by apply (steady_page (set_layers l s)).
  - intros id s. cbn. unfold adopt_inplace. destruct (in_place s) eqn:Hi; cbn [negb]; [|done]. case_bool_decide; [done|]. destruct (shm_page _ _); [|done..].
    unfold steady. cbn. by rewrite Hi.
  - done.
  - done.
Qed.
End Steady.

(** * The state of the database between and during transactions *)

Section InTxn.
(** [R0] are the pages outside the page allocator: extents and their runs. *)
Context (content_hash : bytes → Z) (R0 : Z → Prop).
#[local] Instance intxn_store : PageStore WriteTxn := txn_store content_hash.

Abbreviation start e mt := (make_write_txn e mt false).

(** A committed database: the free list is a tree on the pages [F] with the
    bindings [m]; the other trees have the pages [C]; every page is in exactly
    one of the three, or in an extent. *)
Record snapshot_ok (e : Eng) (mt : Meta) (m : kvs) (F : rset) (C : gset Z) : Prop := {
  sn_mem : Forall (λ p, length p = PAGE_SIZE) (mem e);
  sn_bounds : 0 < data_start e ≤ m_high_water mt ∧ m_high_water mt ≤ page_count e < 2 ^ 64;
  sn_sorted : kv_sorted m;
  sn_tree : ∃ h, (h < 64)%nat ∧ @tree_rep WriteTxn shared shared_view content_hash (start e mt) h (m_freelist_root mt) F m;
  sn_wf : freelist_wf e (m_txn mt) m;
  sn_data : ∀ id, id ∈ C ∨ Pg id ∈ F ∨ id ∈ ids_of m → data_start e ≤ id < m_high_water mt;
  sn_disj : ∀ id, ¬ (id ∈ C ∧ Pg id ∈ F) ∧ ¬ (id ∈ C ∧ id ∈ ids_of m) ∧ ¬ (Pg id ∈ F ∧ id ∈ ids_of m);
  sn_cover : ∀ id, data_start e ≤ id < m_high_water mt → id ∈ C ∨ Pg id ∈ F ∨ id ∈ ids_of m ∨ R0 id;
}.

Record in_txn (m0 : kvs) (Ffl : rset) (C0 : gset Z) (s : WriteTxn) : Prop := {
  it_ok : txn_ok content_hash m0 Ffl C0 s;
  it_acct : acct content_hash m0 Ffl (C0 ∪ pages_of Ffl) R0 s;
  it_old : ∀ id, id ∈ C0 ∪ pages_of Ffl → protected content_hash m0 Ffl s id;
  it_phase : in_freelist_op s = false;
  it_wf : freelist_wf (eng s) (m_txn (meta s)) m0;
}.

Lemma undrawn_start e mt m : undrawn m (start e mt) = m.
Proof. unfold undrawn. cbn. rewrite in_range_none. by apply filter_all. Qed.

Lemma start_safe e mt m F C : snapshot_ok e mt m F C → safe content_hash m F (start e mt).
Proof.
  intros [S1 S2 S3 S4 S5 S6 S7 S8]. split; [done|done|done|]. intros _ id Hid. rewrite undrawn_start. cbn. split_and!; [apply not_elem_of_empty| |..].
  - intros Hx. by destruct (S7 id) as (_&_&[]).
  - specialize (S6 id ltac:(auto)). lia.
  - specialize (S6 id ltac:(auto)). lia.
Qed.

(** A page listed nowhere is out of reach, whatever the readers have pinned. *)
Lemma start_protected e mt m F C id : snapshot_ok e mt m F C → id ∈ C ∨ Pg id ∈ F → protected content_hash m F (start e mt) id.
Proof.
  intros S Hid. pose proof S as [S1 S2 S3 S4 S5 S6 S7 S8]. split; [by eapply start_safe|done| |apply not_elem_of_empty|apply not_elem_of_nil|].
  - cbn. specialize (S6 id ltac:(tauto)). lia.
  - intros (kv&Hkv&Hin&_). rewrite undrawn_start in Hkv. assert (id ∈ ids_of m) as Hx.
    { apply elem_of_concat. exists (entry_ids kv). split; [apply list_elem_of_fmap; by exists kv|done]. }
    destruct (S7 id) as (_&H1&H2). tauto.
Qed.

Lemma start_in_txn e mt m F C : snapshot_ok e mt m F C → in_txn m F C (start e mt).
Proof.
  intros S. pose proof S as [S1 S2 S3 S4 S5 S6 S7 S8]. pose proof (start_safe _ _ _ _ _ S) as Hsafe. split; [| | |done|done].
  - split; [done|done|..]; unfold in_data; cbn [make_write_txn eng pg dirty freed reusable high_water]; rewrite ?undrawn_start; cbn [app].
    + by intros id ?%elem_of_empty.
    + intros id Hid. apply S6. auto.
    + by intros id ?%elem_of_empty.
    + apply S5.
    + intros id Hid. split; [apply S6; auto|split; apply not_elem_of_empty].
    + intros id Hid Hc. destruct (S7 id) as (_&H1&_). tauto.
    + constructor.
    + apply S5.
    + intros _ id Hid. split; [apply S6; auto|split; [|apply not_elem_of_empty]]. intros Hc. destruct (S7 id) as (H1&_). tauto.
    + split; try done; constructor.
  - split; [done|done| |].
    + intros id Hid. rewrite undrawn_start. cbn. destruct (S8 id Hid) as [?|[?|[?|?]]]; [| |auto..]; right; left; apply elem_of_union; rewrite elem_of_own_pages; auto.
    + done.
  - intros id Hid. eapply start_protected; [exact S|]. by rewrite elem_of_union, elem_of_own_pages in Hid.
Qed.

(** ** Operations on trees *)

Lemma in_txn_step m0 Ffl C0 s s' : in_txn m0 Ffl C0 s → txn_ok content_hash m0 Ffl C0 s' →
  keeps_acct content_hash m0 Ffl (C0 ∪ pages_of Ffl) R0 s s' → @keeps _ (txn_view content_hash m0 Ffl C0) s s' → steady s s' → in_txn m0 Ffl C0 s'.
Proof.
  intros [I1 I2 I3 I4 I5] O Ha Hk ((Ho&Hm&_)&Hd&Hc&_). split; [done|by apply Ha| |by rewrite Ho|].
  - intros id Hid. by apply (Hk id), I3.
  - rewrite Hm. destruct I5 as [A1 A2 A3 A4]. split; try done. eapply Forall_impl; [exact A1|]. intros kv. unfold entry_wf. by rewrite Hd, Hc.
Qed.

(** ** Rewriting the free list *)

Section Commit.
Context (m0 : kvs) (Ffl : rset) (C0 : gset Z) (s : WriteTxn) (I : in_txn m0 Ffl C0 s).
Abbreviation C := (C0 ∪ pages_of Ffl).
#[local] Instance commit_view : StoreView WriteTxn := txn_view content_hash m0 Ffl C.
#[local] Instance commit_laws : StoreLaws WriteTxn := txn_laws content_hash m0 Ffl C.

Definition entered : WriteTxn := set_freelist_op true s.

Lemma entered_safe : safe content_hash m0 Ffl entered.
Proof. destruct (to_safe _ _ _ _ _ (it_ok _ _ _ _ I)). by split. Qed.

(** While the free list is rewritten its old pages count as committed. *)
Lemma entered_ok : txn_ok content_hash m0 Ffl C entered.
Proof.
  pose proof (it_ok _ _ _ _ I) as [O1 O2 O3 O4 O5 O6 O7 O8 O9 O10 O11 O12]. specialize (O11 (it_phase _ _ _ _ I)).
  split; try done; [apply entered_safe|..].
  - intros id. rewrite elem_of_union, elem_of_own_pages. intros [?|Hid]; [by apply O4|]. by destruct (O11 id Hid).
  - intros id Hid. rewrite elem_of_union, elem_of_own_pages. intros [?|Hf]; [by apply (O8 id)|].
    destruct (sf_own _ _ _ _ O1 (it_phase _ _ _ _ I) id Hf) as (_&Hn&_). apply Hn, elem_of_app. by right.
Qed.

Lemma entered_acct : acct content_hash m0 Ffl C R0 entered.
Proof. destruct (it_acct _ _ _ _ I) as [A1 A2 A3 A4]. split; [apply entered_safe|done..]. Qed.

Lemma entered_keeps : keeps s entered.
Proof. intros id [P1 P2 P3 P4 P5 P6]. split; [|done]. split; [apply entered_safe|done..]. Qed.

(** Pages in use by the other trees. *)
Lemma entered_live id : page_live C entered id ∧ Pg id ∉ Ffl ↔ page_live C0 s id.
Proof.
  pose proof (it_phase _ _ _ _ I) as Hop. pose proof (it_ok _ _ _ _ I) as O. unfold page_live. cbn. rewrite elem_of_union, elem_of_own_pages.
  split; [tauto|]. intros [Hd|(Hc&Hf&Hr)].
  - split; [by left|]. intros Hx. by destruct (sf_own _ _ _ _ (to_safe _ _ _ _ _ O) Hop id Hx) as (?&_).
  - split; [auto|]. intros Hx. by destruct (to_own _ _ _ _ _ O Hop id Hx) as (_&?&_).
Qed.

Lemma entered_tree : ∃ h, tree_map content_hash entered h (freelist_root (pg entered)) Ffl (to_map m0).
Proof.
  pose proof (it_phase _ _ _ _ I) as Hop. pose proof (it_ok _ _ _ _ I) as O. destruct (sf_tree _ _ _ _ (to_safe _ _ _ _ _ O) Hop) as (h&_&Ht).
  exists h, m0. split; [|done]. eapply (seen_tree_rep shared shared_view); [|exact Ht]. split; [|done]. intros r Hr.
  assert (@live _ shared_view s r) as Hl.
  { destruct Ht as [(_&_&->)|[_ Ht]]; [by apply elem_of_empty in Hr|]. by eapply (@tree_live _ shared shared_view). }
  destruct r as [id|e]; [|done]. destruct Hl as [[Hid _] Hlt]. split; [|done]. split; [done|]. right. rewrite elem_of_union, elem_of_own_pages.
  destruct (to_own _ _ _ _ _ O Hop id Hr) as (_&_&Hf). destruct (sf_own _ _ _ _ (to_safe _ _ _ _ _ O) Hop id Hr) as (_&Hn&_).
  rewrite elem_of_app in Hn. split_and!; [by right|done|tauto].
Qed.

Lemma entered_pass new_txn : pass content_hash m0 Ffl C R0 new_txn entered entered [] Ffl (to_map m0).
Proof.
  split; [|constructor|done|by intros k ?%elem_of_nil]. split; [|split; [by split_and!|split; [done|]]].
  - destruct entered_tree as [h Ht]. apply eff_refl; [apply entered_ok|]. intros r. by apply (tree_map_live _ _ _ _ _ _ _ Ht).
  - split; [apply entered_ok|done|apply entered_acct|apply entered_tree|]. intros k v Hkv.
    apply elem_of_list_to_map_2 in Hkv. pose proof (fw_small _ _ _ (it_wf _ _ _ _ I)) as Hs. rewrite Forall_forall in Hs. by apply (Hs (k, v)).
Qed.
End Commit.

(** Runs drawn and not used: nothing to write. *)
Lemma write_taken_runs_idle fuel s : ∀ entries i, (∀ j e, entries !! j = Some e → kept_runs s (i + j) = tr_runs e) →
  write_taken_runs content_hash fuel i entries s = (Ok tt, s).
Proof.
  induction entries as [|e entries IH]; intros i Hk; cbn [write_taken_runs]; [done|].
  unfold mbind, M_mbind, reads. rewrite bool_decide_true by (specialize (Hk 0%nat e eq_refl); by rewrite Nat.add_0_r in Hk). cbn.
  apply IH. intros j e' He. specialize (Hk (S j) e' He). by rewrite <- Nat.add_succ_comm in Hk.
Qed.

Lemma apply_run_plan_idle fuel new_txn s : runs_ok (ex s) → apply_run_plan content_hash fuel new_txn s = (Ok tt, s).
Proof.
  intros [_ A1 A2 A3 A4]. unfold apply_run_plan, mbind, M_mbind, reads. rewrite write_taken_runs_idle by (intros j e He; by apply A4).
  assert (own_runs s = []) as ->; [|done]. unfold own_runs. rewrite A1. assert (filter (λ r, run_from r = None) (run_pool (ex s)) = []) as ->; [|done].
  apply filter_none. intros r Hr. rewrite Forall_forall in A3. destruct (A3 r Hr) as (i&->&_). done.
Qed.

(** ** What the commit leaves *)

Definition client_pages (C0 : gset Z) (s : WriteTxn) : gset Z :=
  dirty (pg s) ∪ filter (λ id, (id ∉ freed (pg s)) ∧ id ∉ reusable (pg s)) C0.

Lemma elem_of_client_pages C0 s id : id ∈ client_pages C0 s ↔ page_live C0 s id.
Proof. unfold client_pages, page_live. rewrite elem_of_union, elem_of_filter. tauto. Qed.

(** The same mapping, with other bounds from the readers. *)
Definition set_pins (cache scan : Z) (e : Eng) : Eng := MkEng (mem e) (data_start e) (files e) (is_async e) (durable e) cache scan.

Lemma snapshot_pins c p e mt m F C : snapshot_ok e mt m F C → snapshot_ok (set_pins c p e) mt m F C.
Proof.
  intros [S1 S2 S3 (h&Hh&Ht) S5 S6 S7 S8]. split; try done.
  - exists h. split; [done|]. by eapply (freelist_tree_alike _ (start e mt)); [..|exact Ht].
  - destruct S5. by split.
Qed.

(** The free list names [id], if at all, as freed by transaction [t] or later. *)
Definition since (t : Z) (m : kvs) (id : Z) : Prop := ∀ kv, kv ∈ m → id ∈ entry_ids kv → t ≤ key_txn kv.1.
Definition held (t : Z) (mt : Meta) (m : kvs) (id : Z) : Prop := 0 < id < m_high_water mt ∧ since t m id.

(** A bound below [t] keeps such a page. *)
Lemma start_held e mt m F C c p t id : snapshot_ok e mt m F C → held t mt m id → reuse_limit (start (set_pins c p e) mt) < t →
  protected content_hash m F (start (set_pins c p e) mt) id.
Proof.
  intros Hs [Hr Hsince] Hlim. split; [by eapply start_safe, snapshot_pins|done|done|apply not_elem_of_empty|apply not_elem_of_nil|].
  intros (kv&Hkv&Hin&Ht). rewrite undrawn_start in Hkv. specialize (Hsince kv Hkv Hin). lia.
Qed.

(** From the transaction [s] with committed pages [C0] and the free list [m0]
    on the pages [Ffl], the mapping [e] and the meta page [mt] were reached:
    the pages the other trees use are the same and read the same; a protected
    page reads the same and stays held as long as it was. *)
Record commits (m0 : kvs) (Ffl : rset) (C0 : gset Z) (s : WriteTxn) (e : Eng) (mt : Meta) (m : kvs) (F : rset) : Prop := {
  cm_snapshot : ∀ h, (h < 64)%nat → @tree_rep WriteTxn shared shared_view content_hash (start e mt) h (m_freelist_root mt) F m →
    snapshot_ok e mt m F (client_pages C0 s);
  cm_client : ∀ id, page_live C0 s id → page_of (start e mt) id = page_of s id;
  cm_old : ∀ id, protected content_hash m0 Ffl s id → page_of (start e mt) id = page_of s id;
  cm_held : ∀ id t, protected content_hash m0 Ffl s id → since t m0 id → t ≤ m_txn mt → held t mt m id;
}.

(** The pages the new snapshot adds are dirty, and dirty pages are data pages:
    logging them logs the commit. *)
Definition logs_all (Ffl : rset) (C0 : gset Z) (s s' : WriteTxn) (F : rset) : Prop :=
  (∀ id, id ∈ client_pages C0 s ∨ Pg id ∈ F → id ∈ dirty (pg s') ∨ id ∈ C0 ∨ Pg id ∈ Ffl) ∧
  (∀ id, id ∈ dirty (pg s') → data_start (eng s) ≤ id < page_count (eng s)) ∧ data_start (eng s') = data_start (eng s).

Section Result.
Context (m0 : kvs) (Ffl : rset) (C0 : gset Z) (s : WriteTxn) (I : in_txn m0 Ffl C0 s).
Abbreviation C := (C0 ∪ pages_of Ffl).
#[local] Instance post_view : StoreView WriteTxn := txn_view content_hash m0 Ffl C.
#[local] Instance post_laws : StoreLaws WriteTxn := txn_laws content_hash m0 Ffl C.
Context (new_txn : Z) (Htxn : is_uint 64 new_txn) (Hlt : m_txn (meta s) < new_txn).
Context (s2 : WriteTxn) (W : list (bytes * list Z)) (F : rset) (D : gmap bytes bytes) (m : kvs).
Context (Hpass : pass content_hash m0 Ffl C R0 new_txn (entered s) s2 W F D) (Hplan : freelist_plan s2 new_txn W = W).
Context (Hm : kv_sorted m) (HD : to_map m = D).

Lemma entered_wf : freelist_wf (eng (entered s)) (m_txn (meta s)) m0.
Proof. apply I. Qed.

Lemma post_ok : txn_ok content_hash m0 Ffl C s2.
Proof. exact (res_ok _ _ _ _ _ _ _ _ _ _ _ Hpass). Qed.

Lemma post_ids : ids_of m ≡ₚ (reusable (pg s2) ++ ids_of (undrawn m0 s2)) ++ elements (freed (pg s2)).
Proof. eapply res_ids; try done. apply entered_wf. Qed.

Lemma post_eff : eff (entered s) s2 Ffl F.
Proof. apply (pa_step _ _ _ _ _ _ _ _ _ _ _ Hpass). Qed.

Lemma post_live id : page_live C s2 id ↔ Pg id ∈ F ∨ page_live C0 s id.
Proof.
  pose proof post_eff as E. pose proof post_ok as O. pose proof (entered_ok _ _ _ _ I) as Oe. split.
  - intros Hl. destruct (eff_back _ _ _ _ E (Pg id)) as [?|[[_ Hl'] Hn]]; [by apply (live_of content_hash)|by left|right]. by apply (entered_live _ _ _ _ I).
  - intros [Hin|Hl].
    + by destruct (eff_live _ _ _ _ E _ Hin).
    + apply (entered_live _ _ _ _ I) in Hl as [Hl Hn]. destruct (eff_frame _ _ _ _ E (Pg id)) as (_&[_ ?]&_); [by apply (live_of content_hash)|done|done].
Qed.

Lemma post_disj id : page_live C0 s id → Pg id ∉ F.
Proof.
  intros Hl. apply (entered_live _ _ _ _ I) in Hl as [Hl Hn].
  by destruct (eff_frame _ _ _ _ post_eff (Pg id)) as (?&_&_); [apply (live_of content_hash), Hl; apply (entered_ok _ _ _ _ I)|..].
Qed.

Lemma post_free id : id ∈ ids_of m ↔ id ∈ reusable (pg s2) ++ ids_of (undrawn m0 s2) ∨ id ∈ freed (pg s2).
Proof. by rewrite post_ids, elem_of_app, elem_of_elements. Qed.

Lemma post_snapshot h : (h < 64)%nat →
  @tree_rep WriteTxn shared shared_view content_hash (start (eng s2) (publish new_txn s2)) h (freelist_root (pg s2)) F m →
  snapshot_ok (eng s2) (publish new_txn s2) m F (client_pages C0 s).
Proof.
  intros Hh Ht. pose proof post_ok as O. pose proof (to_bounds _ _ _ _ _ O) as Hb.
  assert (∀ id, id ∈ ids_of m → ¬ page_live C s2 id) as Hfree.
  { intros id Hid Hl. destruct (live_not_free _ _ _ _ _ _ O Hl) as [H1 H2]. apply post_free in Hid. tauto. }
  split; cbn [publish m_high_water m_txn m_freelist_root].
  - apply O.
  - done.
  - done.
  - by exists h.
  - eapply res_new_wf; try done. apply entered_wf.
  - intros id Hid. change (in_data s2 id). destruct Hid as [Hid%elem_of_client_pages|[Hid|Hid]].
    + apply (live_data _ _ _ _ _ _ O), post_live. by right.
    + apply (live_data _ _ _ _ _ _ O), post_live. by left.
    + apply post_free in Hid as [Hid|Hid]; [by apply (to_pool _ _ _ _ _ O)|by apply (to_freed _ _ _ _ _ O)].
  - intros id. rewrite elem_of_client_pages. split_and!.
    + intros [Hl Hf]. by apply (post_disj id).
    + intros [Hl Hf]. apply (Hfree id Hf), post_live. by right.
    + intros [Hl Hf]. apply (Hfree id Hf), post_live. by left.
  - intros id Hid. change (in_data s2 id) in Hid. rewrite elem_of_client_pages, post_free.
    destruct (ac_cover _ _ _ _ _ _ (rw_acct _ _ _ _ _ _ _ _ (res_rw _ _ _ _ _ _ _ _ _ _ _ Hpass)) id Hid) as [Hd|[Hc|[?|[?|?]]]]; [| |tauto..].
    + assert (page_live C s2 id) as Hl%post_live by by left. tauto.
    + destruct (decide (id ∈ freed (pg s2))); [tauto|]. destruct (decide (id ∈ reusable (pg s2))) as [Hr|Hr]; [rewrite elem_of_app; tauto|].
      assert (page_live C s2 id) as Hl%post_live by by right. tauto.
Qed.

Lemma post_logs : logs_all Ffl C0 s s2 F.
Proof.
  pose proof post_ok as O. destruct (pa_step _ _ _ _ _ _ _ _ _ _ _ Hpass) as (_&(_&_&Hds&Hpc&_)&_). cbn in Hds, Hpc. split_and!; [| |exact Hds].
  - intros id Hid. assert (page_live C s2 id) as [?|[Hc _]]; [|by left|rewrite elem_of_union, elem_of_own_pages in Hc; tauto].
    apply post_live. rewrite elem_of_client_pages in Hid. tauto.
  - intros id Hid. destruct (to_dirty _ _ _ _ _ O id Hid) as [Hd _]. pose proof (to_bounds _ _ _ _ _ O) as Hb. unfold in_data in Hd. lia.
Qed.

Lemma post_commits : commits m0 Ffl C0 s (eng s2) (publish new_txn s2) m F.
Proof.
  destruct (pa_step _ _ _ _ _ _ _ _ _ _ _ Hpass) as (E&_&Hk&_).
  assert (∀ id, protected content_hash m0 Ffl s id → protected content_hash m0 Ffl s2 id ∧ page_of s2 id = page_of s id) as Hold.
  { intros id Hid. destruct (entered_keeps _ _ _ _ I id Hid) as [He _]. by apply Hk. }
  split; [apply post_snapshot|..].
  - intros id Hl. apply (entered_live _ _ _ _ I) in Hl as [Hl Hn].
    by destruct (eff_frame _ _ _ _ E (Pg id)) as (_&_&[? _]); [apply (live_of content_hash), Hl; apply (entered_ok _ _ _ _ I)|..].
  - intros id Hid. by apply Hold.
  - intros id t Hid Hs Ht. destruct (Hold id Hid) as [Hp _]. refine (conj (pr_range _ _ _ _ _ Hp) _). intros kv Hkv Hin.
    assert (key_txn kv.1 = new_txn ∨ kv ∈ m0) as [->|Hm0]; [|done|by apply Hs].
    eapply res_listed; try done; [apply entered_wf|apply Hp].
Qed.
End Result.

(** The commit of the free list succeeds, runs out of pages, or gives up after
    64 passes; when it succeeds, the database it publishes is consistent. *)
Lemma commit_freelist_spec m0 Ffl C0 s fuel : in_txn m0 Ffl C0 s → is_uint 64 (m_txn (meta s) + 1) →
  page_count (eng s) ≤ 120 * 2 ^ 16 → (Z.to_nat (page_count (eng s)) ≤ fuel)%nat →
  wp (commit_fails content_hash m0 Ffl (C0 ∪ pages_of Ffl)) (commit_freelist content_hash fuel (m_txn (meta s) + 1))
    (λ _ s', ∃ h m F, ((h ≤ size F)%nat ∧ @tree_rep WriteTxn shared shared_view content_hash s' h (freelist_root (pg s')) F m) ∧
       commits m0 Ffl C0 s (eng s') (publish (m_txn (meta s) + 1) s') m F ∧
       catalog_root (pg s') = catalog_root (pg s) ∧ extent_buf (ex s') = [] ∧
       page_count (eng s') = page_count (eng s) ∧ files (eng s') = files (eng s) ∧ logs_all Ffl C0 s s' F) s.
Proof.
  intros I Htxn Hpc Hf. set (t := m_txn (meta s) + 1) in *. assert (m_txn (meta s) < t) as Hlt by (unfold t; lia).
  assert (wp (commit_fails content_hash m0 Ffl (C0 ∪ pages_of Ffl)) (fixpoint_loop content_hash 64 fuel t []) (λ _ s2, ∃ h m F,
    ((h ≤ size F)%nat ∧ @tree_rep WriteTxn shared shared_view content_hash s2 h (freelist_root (pg s2)) F m) ∧
    commits m0 Ffl C0 s (eng s2) (publish t s2) m F ∧
    catalog_root (pg s2) = catalog_root (pg s) ∧ extent_buf (ex s2) = [] ∧
    page_count (eng s2) = page_count (eng s) ∧ files (eng s2) = files (eng s) ∧ logs_all Ffl C0 s s2 F) (entered s)) as Hloop.
  { eapply wp_mono; [eapply (loop_spec content_hash m0 Ffl _ R0 fuel t (m_txn (meta s)) (entered s)); [done|done|apply I|done|done|by apply entered_pass]|].
    intros _ s2 (W&F&D&P&Hplan). pose proof (res_rw _ _ _ _ _ _ _ _ _ _ _ P) as Hrw.
    destruct (rw_tree _ _ _ _ _ _ _ _ Hrw) as (h0&Ht0). destruct (tree_map_height _ _ _ _ _ _ Ht0) as (h&Hsz&_&m&Ht&HD). pose proof (tree_map_sorted _ _ _ _ _ _ Ht) as Hs. exists h, m, F. split; [split; [done|]|split_and!].
    - eapply (seen_tree_rep (txn_store content_hash) (txn_view content_hash m0 Ffl (C0 ∪ pages_of Ffl))); [|exact Ht]. split; [|done].
      intros r Hr. pose proof (rw_ok _ _ _ _ _ _ _ _ Hrw) as O. pose proof (to_bounds _ _ _ _ _ O) as Hb.
      assert (@live _ (txn_view content_hash m0 Ffl (C0 ∪ pages_of Ffl)) s2 r) as Hl by by eapply (eff_live _ _ _ _ (proj1 (pa_step _ _ _ _ _ _ _ _ _ _ _ P))).
      destruct r as [id|]; [|done]. destruct Hl as [Hid Hl]. split; [|done]. cbn. lia.
    - by eapply post_commits.
    - by destruct (pa_step _ _ _ _ _ _ _ _ _ _ _ P) as (_&(_&_&_&_&_&?&_)&_).
    - apply (ru_idle _ (to_runs _ _ _ _ _ (rw_ok _ _ _ _ _ _ _ _ Hrw))).
    - by destruct (pa_step _ _ _ _ _ _ _ _ _ _ _ P) as (_&(_&_&_&?&_)&_).
    - by destruct (pa_step _ _ _ _ _ _ _ _ _ _ _ P) as (_&(_&_&_&_&?&_)&_).
    - by eapply post_logs. }
  unfold commit_freelist. unfold mbind at 1, M_mbind at 1. cbn [modify]. fold (entered s). unfold wp, mbind, M_mbind, reads in *.
  set (runs := _ || _ || _). assert ((if runs then apply_run_plan content_hash fuel t else mret tt) (entered s) = (Ok tt, entered s)) as Hruns.
  { destruct runs; [|done]. apply apply_run_plan_idle, (to_runs _ _ _ _ _ (it_ok _ _ _ _ I)). }
  change (set_freelist_op true s) with (entered s). rewrite Hruns. destruct (fixpoint_loop content_hash 64 fuel t [] (entered s)) as [[[]|e|] s2]; [|exact Hloop..].
  destruct Hloop as (h&m&F&[Hsz Ht]&Hc). exists h, m, F. split; [split; [done|]|exact Hc]. by eapply (freelist_tree_alike _ s2); [..|exact Ht].
Qed.
End InTxn.
