(* ===== verification/TxnRun.v ===== *)
(** Whole transactions: changes to the catalog tree, then the commit, or an
    abort that leaves the committed database as it was. *)

From stdpp Require Import sorting.
From S2P Require Import Prelude BtreeNode PageStore Btree Overflow KvMap BtreeRep BtreeInsert BtreeDelete BtreeSnapshot BtreeSpec BtreeView.
From S2P Require Import Cursor Txn TxnOps TxnPool TxnStore FreelistCodec FreelistAccount FreelistWrite FreelistPlan FreelistCommit TxnCommit.
Local Open Scope Z_scope.

Section Run.
Context (content_hash : bytes → Z) (R0 : Z → Prop).
#[local] Instance run_store : PageStore WriteTxn := txn_store content_hash.
#[local] Existing Instance acct_respects.
#[local] Existing Instance frozen_respects.
#[local] Existing Instance steady_respects.
Abbreviation in_txn := (in_txn content_hash R0).
Abbreviation protected := (protected content_hash).
Abbreviation start e mt := (make_write_txn e mt false).

(** * Failures keep the old pages *)

Definition mapping_same (s s' : WriteTxn) : Prop :=
  data_start (eng s') = data_start (eng s) ∧ page_count (eng s') = page_count (eng s) ∧ files (eng s') = files (eng s) ∧
  (Forall (λ p, length p = PAGE_SIZE) (mem (eng s)) → Forall (λ p, length p = PAGE_SIZE) (mem (eng s'))) ∧
  in_place s' = in_place s ∧ (in_place s = false → inplace_undo s' = inplace_undo s).

Section Old.
Context (m0 : kvs) (Ffl : rset).

Definition old_kept (s s' : WriteTxn) : Prop := mapping_same s s' ∧ ∀ id, protected m0 Ffl s id → protected m0 Ffl s' id ∧ page_of s' id = page_of s id.
#[global] Instance old_kept_preorder : PreOrder old_kept.
Proof.
  split; [by intros s; split|]. intros s1 s2 s3 [(A1&A2&A3&A4&A5&A6) Ha] [(B1&B2&B3&B4&B5&B6) Hb].
  split; [split_and!; [congruence..|auto|congruence|]; intros Hi; rewrite B6, A6; congruence|]. intros id Hid.
  destruct (Ha id Hid) as [Hp Hp1]. destruct (Hb id Hp) as [? Hp2]. split; [done|congruence].
Qed.

Lemma old_kept_insert fuel root key val mode : moves old_kept (insert fuel root key val mode).
Proof.
  pose proof (txn_keeps content_hash m0 Ffl ∅) as Hr. intros s. split.
  - destruct (insert_moves steady fuel root key val mode s) as ((_&_&?&_)&?&?&?&?&?&_). by split_and!.
  - apply (@insert_moves _ _ (@keeps _ (txn_view content_hash m0 Ffl ∅)) Hr fuel root key val mode s).
Qed.

Lemma old_kept_delete fuel root key : moves old_kept (delete fuel root key).
Proof.
  pose proof (txn_keeps content_hash m0 Ffl ∅) as Hr. intros s. split.
  - destruct (delete_moves steady fuel root key s) as ((_&_&?&_)&?&?&?&?&?&_). by split_and!.
  - apply (@delete_moves _ _ (@keeps _ (txn_view content_hash m0 Ffl ∅)) Hr fuel root key s).
Qed.

(** The catalog root and the cached roots play no part in what is protected. *)
Lemma old_kept_roots s p : freelist_root p = freelist_root (pg s) → dirty p = dirty (pg s) → reusable p = reusable (pg s) →
  refill_cursor p = refill_cursor (pg s) → high_water p = high_water (pg s) → old_kept s (set_pg p s).
Proof.
  intros H1 H2 H3 H4 H5. split; [done|]. intros id [[S1 S2 S3 S4] P2 P3 P4 P5 P6]. split; [|done].
  assert (undrawn m0 (set_pg p s) = undrawn m0 s) as Hu by (unfold undrawn; cbn; by rewrite H4).
  split; cbn; rewrite ?H1, ?H2, ?H3, ?H5; try done.
  - split; cbn; rewrite ?H1, ?H2, ?H3, ?H5, ?Hu; try done. intros Hop. destruct (S3 Hop) as (h&Hh&Ht). exists h. split; [done|].
    unfold freelist_tree in *. cbn. rewrite H1. by eapply (freelist_tree_alike _ s); [..|exact Ht].
  - unfold drawable in *. by rewrite Hu.
Qed.

(** ** While the free list is rewritten *)

Definition old_kept_op (s s' : WriteTxn) : Prop := in_freelist_op s = true → in_freelist_op s' = true ∧ old_kept s s'.
#[local] Instance old_kept_op_preorder : PreOrder old_kept_op.
Proof.
  split; [by intros s|]. intros s1 s2 s3 Ha Hb Ho. destruct (Ha Ho) as [Ho2 ?]. destruct (Hb Ho2) as [? ?]. split; [done|]. by etrans.
Qed.

Lemma old_kept_op_of {A} (m : M WriteTxn A) : moves frozen m → moves old_kept m → moves old_kept_op m.
Proof. intros Hf Hk s Ho. split; [by apply (Hf s)|apply Hk]. Qed.

Lemma old_kept_set_root r : moves old_kept_op (modify (set_root r)).
Proof.
  intros s Ho. split; [done|]. split; [done|]. by apply (set_root_keeps content_hash m0 Ffl ∅).
Qed.

Lemma old_kept_put fuel k v : moves old_kept_op (put_entry content_hash fuel k v).
Proof.
  apply moves_bind; [apply _|apply moves_reads, _|]. intros root. apply moves_bind; [apply _| |intros out; apply old_kept_set_root].
  apply old_kept_op_of; [apply (insert_moves frozen)|apply old_kept_insert].
Qed.

Lemma old_kept_drop fuel k : moves old_kept_op (drop_entry content_hash fuel k).
Proof.
  apply moves_bind; [apply _|apply moves_reads, _|]. intros root. apply moves_bind; [apply _| |intros out; apply old_kept_set_root].
  apply old_kept_op_of; [apply (delete_moves frozen)|apply old_kept_delete].
Qed.

Lemma old_kept_stale fuel plan W : moves old_kept_op (drop_stale content_hash fuel plan W).
Proof.
  induction W as [|[k ids] W IH]; cbn [drop_stale]; [apply moves_ret, _|]. apply moves_bind; [apply _| |done].
  case_bool_decide; [apply moves_ret, _|apply old_kept_drop].
Qed.

Lemma old_kept_plan fuel W plan : moves old_kept_op (write_plan content_hash fuel W plan).
Proof.
  induction plan as [|[k ids] plan IH]; cbn [write_plan]; [apply moves_ret, _|]. apply moves_bind; [apply _| |done].
  case_bool_decide; [apply moves_ret, _|]. case_bool_decide; [apply old_kept_drop|apply old_kept_put].
Qed.

Lemma old_kept_loop passes fuel t : ∀ W, moves old_kept_op (fixpoint_loop content_hash passes fuel t W).
Proof.
  induction passes as [|passes IH]; intros W; cbn [fixpoint_loop]; [apply moves_lift, _|].
  apply moves_bind; [apply _|apply moves_reads, _|]. intros plan. case_bool_decide; [apply moves_ret, _|].
  apply moves_bind; [apply _|apply old_kept_stale|]. intros _. apply moves_bind; [apply _|apply old_kept_plan|]. intros _. apply IH.
Qed.

(** A commit that fails has left the old pages alone. *)
Lemma commit_freelist_old fuel t s : runs_ok (ex s) →
  ∀ r s', commit_freelist content_hash fuel t s = (r, s') → r ≠ Ok tt → old_kept s s'.
Proof.
  intros Hx r s'. unfold commit_freelist. unfold mbind at 1, M_mbind at 1. cbn [modify]. unfold mbind, M_mbind, reads.
  set (s1 := set_freelist_op true s). assert (old_kept s s1) as H1.
  { split; [done|]. intros id [[S1 S2 S3 S4] P2 P3 P4 P5 P6]. split; [|done]. by split. }
  set (runs := _ || _ || _). assert ((if runs then apply_run_plan content_hash fuel t else mret tt) s1 = (Ok tt, s1)) as ->.
  { destruct runs; [|done]. by apply apply_run_plan_idle. }
  pose proof (old_kept_loop 64 fuel t [] s1 eq_refl) as [_ H2]. destruct (fixpoint_loop content_hash 64 fuel t [] s1) as [[[]|e|] s2]; cbn in H2.
  - by intros [= <- _].
  - intros [= _ <-] _. by etrans.
  - intros [= _ <-] _. by etrans.
Qed.
End Old.

(** * Changing the catalog *)

Definition small_values (D : gmap bytes bytes) : Prop := ∀ k v, D !! k = Some v → Z.of_nat (length v) ≤ MAX_FREEABLE.

Section Open.
Context (m0 : kvs) (Ffl : rset) (C0 : gset Z).
#[local] Instance open_view : StoreView WriteTxn := txn_view content_hash m0 Ffl C0.
#[local] Instance open_laws : StoreLaws WriteTxn := txn_laws content_hash m0 Ffl C0.

(** A transaction whose catalog tree, on the pages [F], holds [D]. *)
Record open_txn (s : WriteTxn) (F : rset) (D : gmap bytes bytes) : Prop := {
  op_txn : in_txn m0 Ffl C0 s;
  op_tree : ∃ h, tree_map content_hash s h (catalog_root (pg s)) F D;
  op_small : small_values D;
}.

(** The roots of other trees say nothing about the pages. *)
Definition set_heads (r : Z) (T : gmap (Z * Z) (Z * Z)) (s : WriteTxn) : WriteTxn := set_pg (set_table_roots T (set_catalog_root r (pg s))) s.

Lemma set_heads_ok s r T : txn_ok content_hash m0 Ffl C0 s → txn_ok content_hash m0 Ffl C0 (set_heads r T s).
Proof.
  intros [[S1 S2 S3 S4] O2 O3 O4 O5 O6 O7 O8 O9 O10 O11 O12]. split; try done. split; try done.
  intros Hop. destruct (S3 Hop) as (h&Hh&Ht). exists h. split; [done|]. unfold freelist_tree in *. by eapply (freelist_tree_alike _ s); [..|exact Ht].
Qed.

Lemma set_heads_in s r T : in_txn m0 Ffl C0 s → in_txn m0 Ffl C0 (set_heads r T s).
Proof.
  intros I. pose proof I as [I1 [A1 A2 A3 A4] I3 I4 I5]. pose proof (set_heads_ok _ r T I1) as O. split; [done| | |done|done].
  - split; [apply O|done..].
  - intros id Hid. by apply (old_kept_roots m0 Ffl s), I3.
Qed.

Lemma set_catalog_ok s r : txn_ok content_hash m0 Ffl C0 s → txn_ok content_hash m0 Ffl C0 (set_catalog r s).
Proof. apply (set_heads_ok s r (table_roots (pg s))). Qed.

Lemma set_catalog_in s r : in_txn m0 Ffl C0 s → in_txn m0 Ffl C0 (set_catalog r s).
Proof. apply (set_heads_in s r (table_roots (pg s))). Qed.

Lemma set_scalars_in s c : in_txn m0 Ffl C0 s → in_txn m0 Ffl C0 (set_scalars c s).
Proof.
  intros [I1 I2 I3 I4 I5]. split; [by apply (ok_same _ _ _ _ s)|by apply (acct_same _ _ _ _ _ s)| |done|done]. intros id Hid. by apply (protected_same _ _ _ s), I3.
Qed.

Lemma set_tree_root_open s F D tid ino root cnt : open_txn s F D → open_txn (set_tree_root tid ino root cnt s) F D.
Proof.
  intros [I [h Ht] Hs]. split; [by apply (set_heads_in (set_scalars _ s)), set_scalars_in| |done]. exists h.
  eapply tree_map_alike; [exact Ht|]. split; [|done]. intros q Hq. pose proof (tree_map_live _ _ _ _ _ _ _ Ht Hq) as Hl. destruct q; [|done]. by split.
Qed.

Lemma set_catalog_eff s s' r F F' : eff s s' F F' → eff s (set_catalog r s') F F'.
Proof. intros [E1 E2 E3 E4 E5]. split; [by apply set_catalog_ok|exact E2|exact E3|exact E4|exact E5]. Qed.

Lemma set_catalog_tree s r h F D : tree_map content_hash s h r F D → tree_map content_hash (set_catalog r s) h r F D.
Proof.
  intros Ht. eapply tree_map_alike; [exact Ht|]. split; [|done]. intros q Hq. pose proof (tree_map_live _ _ _ _ _ _ _ Ht Hq) as Hl.
  destruct q; [|done]. by split.
Qed.

Lemma tree_map_fuel s h r F D fuel : txn_ok content_hash m0 Ffl C0 s → (Z.to_nat (page_count (eng s)) ≤ fuel)%nat →
  tree_map content_hash s h r F D → ∃ h', (h' < fuel)%nat ∧ tree_map content_hash s h' r F D.
Proof.
  intros O Hf Ht. destruct (tree_map_height _ _ _ _ _ _ Ht) as (h'&Hh&_&Ht'). exists h'. split; [|done].
  pose proof (owned_bound content_hash m0 Ffl C0 s F O (λ q, tree_map_live _ _ _ _ _ _ _ Ht)). lia.
Qed.

(** What one change to the catalog does. *)
Definition changes (s s' : WriteTxn) (F F' : rset) (D : gmap bytes bytes) : Prop :=
  eff s s' F F' ∧ old_kept m0 Ffl s s' ∧ (meta s' = meta s ∧ scalars s' = scalars s ∧ table_roots (pg s') = table_roots (pg s)) ∧ open_txn s' F' D.

Lemma catalog_step s s1 r h F F' D D' : open_txn s F D → eff s s1 F F' → steady s s1 → old_kept m0 Ffl s s1 →
  keeps_acct content_hash m0 Ffl (C0 ∪ pages_of Ffl) R0 s s1 → tree_map content_hash s1 h r F' D' → small_values D' →
  changes s (set_catalog r s1) F F' D'.
Proof.
  intros [I Ht Hs] E Hst Hk Ha Ht' Hs'. split; [by apply set_catalog_eff|]. split; [|split; [by destruct Hst as ((_&?&_&?&?)&_)|]].
  - etrans; [exact Hk|]. by apply old_kept_roots.
  - split; [|exists h; by apply set_catalog_tree|done]. apply set_catalog_in. eapply in_txn_step; [done|apply E|done| |done]. exact (proj2 Hk).
Qed.

Section Fuel.
Context (fuel : nat).
Abbreviation enough s := (Z.to_nat (page_count (eng s)) ≤ fuel)%nat.

Lemma catalog_put s F D key v : open_txn s F D → enough s → (length key ≤ MAX_KEY)%nat → Z.of_nat (length v) ≤ MAX_FREEABLE →
  wps (catalog_upsert content_hash fuel key v)
    (λ _ s', ∃ F', changes s s' F F' (<[key := v]> D)) s.
Proof.
  intros Hop Hf Hk Hv. pose proof Hop as [I [h0 Ht0] Hs]. destruct (tree_map_fuel _ _ _ _ _ fuel (it_ok _ _ _ _ _ _ I) Hf Ht0) as (h&Hh&Ht).
  apply wp_bind. eapply wp_reads; [done|]. apply wp_bind. eapply wp_mono.
  { eapply wp_moves; [apply (insert_moves (keeps_acct content_hash m0 Ffl (C0 ∪ pages_of Ffl) R0))|].
    eapply wp_moves; [apply (insert_moves steady)|]. eapply wp_moves; [apply (old_kept_insert m0 Ffl)|].
    eapply (insert_map _ _ _ _ _ _ _ key (Flat v) v ∅ Upsert); [apply I|exact Ht| |done|done].
    split; [done| |by rewrite bool_decide_false by (by intros [? _])|apply disjoint_empty_r|].
    - cbn. unfold MAX_FREEABLE in Hv. lia.
    - intros y Hy _. by eapply Hs. }
  intros out s' [[[(_&F'&h'&_&E&Ht') Hkp] Hst] Ha]. exists F'. rewrite union_empty_r_L in E. eapply catalog_step; try done.
  cbn. intros k' v' [[_ <-]|[_ ?]]%lookup_insert_Some; [done|]. by eapply Hs.
Qed.

Lemma catalog_del s F D key : open_txn s F D → enough s →
  wps (root ← reads (λ s, Ok (catalog_root (pg s))); out ← delete fuel root key; modify (set_catalog (del_root out));; mret (del_existed out))
    (λ b s', b = bool_decide (is_Some (D !! key)) ∧ ∃ F', changes s s' F F' (base.delete key D)) s.
Proof.
  intros Hop Hf. pose proof Hop as [I [h0 Ht0] Hs]. destruct (tree_map_fuel _ _ _ _ _ fuel (it_ok _ _ _ _ _ _ I) Hf Ht0) as (h&Hh&Ht).
  apply wp_bind. eapply wp_reads; [done|]. apply wp_bind. eapply wp_mono.
  { eapply wp_moves; [apply (delete_moves (keeps_acct content_hash m0 Ffl (C0 ∪ pages_of Ffl) R0))|].
    eapply wp_moves; [apply (delete_moves steady)|]. eapply wp_moves; [apply (old_kept_delete m0 Ffl)|].
    eapply (delete_map _ _ _ _ _ _ _ key); [apply I|exact Ht| |done]. intros y Hy. by eapply Hs. }
  intros out s' [[[(Hex&F'&h'&_&E&Ht') Hkp] Hst] Ha]. split; [exact Hex|]. exists F'. eapply catalog_step; try done.
  intros k' v' [_ ?]%lookup_delete_Some. by eapply Hs.
Qed.

Lemma changes_refl s F D : open_txn s F D → changes s s F F D.
Proof.
  intros Hop. pose proof Hop as [I [h Ht] _]. split; [|split; [done|by split_and!]]. apply eff_refl; [apply I|]. intros q. by apply (tree_map_live _ _ _ _ _ _ _ Ht).
Qed.

Lemma changes_trans s1 s2 s3 F1 F2 F3 D2 D3 : changes s1 s2 F1 F2 D2 → changes s2 s3 F2 F3 D3 → changes s1 s3 F1 F3 D3.
Proof. intros (E1&K1&(?&?&?)&_) (E2&K2&(?&?&?)&W). split; [by eapply eff_trans|]. split; [by etrans|]. split; [split_and!; congruence|done]. Qed.

Lemma changes_enough s s' F F' D : changes s s' F F' D → enough s → enough s'.
Proof. intros (_&((_&->&_)&_)&_). done. Qed.

(** ** The catalog at commit *)

Abbreviation entry := ((Z * Z) * (Z * Z))%type.
Definition written_catalog (gens : Z → Z) (es : list entry) (D : gmap bytes bytes) : gmap bytes bytes :=
  foldl (λ D (e : entry), <[cat_tree_key e.1.1 e.1.2 := entry_bytes gens e.1.1 e.1.2 e.2.1 e.2.2]> D) D es.

Lemma cat_tree_key_inj t i t' i' : is_uint 32 t → is_uint 32 i → is_uint 32 t' → is_uint 32 i' →
  cat_tree_key t i = cat_tree_key t' i' → t = t' ∧ i = i'.
Proof.
  intros H1 H2 H3 H4 He. unfold cat_tree_key in He. apply (f_equal tail) in He. cbn [tail] in He. unfold be_encode in He.
  apply app_inj_1 in He as [Ha Hb]; [|by rewrite !length_reverse, !length_le_encode].
  apply (f_equal reverse) in Ha, Hb. rewrite !reverse_involutive in Ha, Hb. apply (f_equal le_decode) in Ha, Hb.
  by rewrite !le_decode_encode_id in Ha, Hb.
Qed.

Lemma written_other gens es : ∀ D k, (∀ e, e ∈ es → k ≠ cat_tree_key e.1.1 e.1.2) → written_catalog gens es D !! k = D !! k.
Proof.
  induction es as [|e es IH]; intros D k Hk; [done|]. unfold written_catalog. cbn [foldl]. fold (written_catalog gens es).
  etrans; [apply IH; intros e' He'; apply Hk; by constructor|]. rewrite lookup_insert_ne; [done|]. intros Heq. by apply (Hk e); [constructor|].
Qed.

Lemma written_in gens es : ∀ D e, NoDup es.*1 → Forall (λ e, is_uint 32 e.1.1 ∧ is_uint 32 e.1.2) es → e ∈ es →
  written_catalog gens es D !! cat_tree_key e.1.1 e.1.2 = Some (entry_bytes gens e.1.1 e.1.2 e.2.1 e.2.2).
Proof.
  induction es as [|e0 es IH]; intros D e Hn Hw Hin; [by apply elem_of_nil in Hin|]. cbn [fmap list_fmap] in Hn. apply NoDup_cons in Hn as [Hn0 Hn].
  apply Forall_cons in Hw as [[H1 H2] Hw]. unfold written_catalog. cbn [foldl]. fold (written_catalog gens es).
  apply elem_of_cons in Hin as [->|Hin]; [|by apply IH].
  etrans; [apply written_other|by rewrite lookup_insert_eq]. intros e Hin Heq. rewrite Forall_forall in Hw. destruct (Hw e Hin) as [H3 H4].
  destruct (cat_tree_key_inj _ _ _ _ H1 H2 H3 H4 Heq) as [Ha Hb]. apply Hn0. apply list_elem_of_fmap. exists e. split; [|done].
  destruct e0 as [[? ?] ?], e as [[? ?] ?]. cbn in *. congruence.
Qed.

Lemma written_entry (gens : Z → Z) (T : gmap (Z * Z) (Z * Z)) (D : gmap bytes bytes) (tid ino root cnt : Z) :
  map_Forall (λ k e, (is_uint 32 k.1 ∧ is_uint 32 k.2) ∧ is_uint 64 e.1 ∧ is_uint 64 e.2) T → T !! (tid, ino) = Some (root, cnt) →
  written_catalog gens (merge_sort key_le (map_to_list T)) D !! cat_tree_key tid ino = Some (entry_bytes gens tid ino root cnt).
Proof.
  intros Hw He. apply (written_in gens _ D ((tid, ino), (root, cnt))).
  - rewrite merge_sort_Permutation. apply NoDup_fst_map_to_list.
  - rewrite merge_sort_Permutation. apply Forall_forall. intros [k e] Hin%elem_of_map_to_list. by apply (Hw k e Hin).
  - rewrite merge_sort_Permutation. by apply elem_of_map_to_list.
Qed.

Lemma decode_entry_bytes gens tid ino root cnt : is_uint 64 root → is_uint 64 cnt → is_uint 64 (gens tid) →
  decode_entry (entry_bytes gens tid ino root cnt) = Ok (root, cnt, if ino =? 0 then gens tid else 0).
Proof.
  intros Hr Hc Hg. unfold decode_entry, entry_bytes. rewrite !length_app, !length_le_encode.
  assert (take 8 (le_encode 8 root ++ le_encode 8 cnt ++ (if ino =? 0 then le_encode 8 (gens tid) else [])) = le_encode 8 root) as ->
    by (apply take_app_length'; by rewrite length_le_encode).
  assert (sub 8 8 (le_encode 8 root ++ le_encode 8 cnt ++ (if ino =? 0 then le_encode 8 (gens tid) else [])) = le_encode 8 cnt) as ->.
  { unfold sub. rewrite drop_app_length' by (by rewrite length_le_encode). apply take_app_length'. by rewrite length_le_encode. }
  rewrite !le_decode_encode_id by done. destruct (ino =? 0).
  - rewrite length_le_encode. cbn [negb]. rewrite (bool_decide_true (8 + (8 + 8) = 24)%nat) by done. rewrite andb_false_r.
    do 3 f_equal. unfold sub. rewrite (assoc_L (++)), drop_app_length' by (by rewrite length_app, !length_le_encode).
    rewrite take_ge by (rewrite length_le_encode; lia). by apply le_decode_encode_id.
  - cbn. done.
Qed.

Lemma write_entries_spec gens es : ∀ s F D, open_txn s F D → enough s →
  wps (write_entries content_hash fuel gens es) (λ _ s', ∃ F', changes s s' F F' (written_catalog gens es D)) s.
Proof.
  induction es as [|[[tid ino] [root cnt]] es IH]; intros s F D Ho Hf; cbn [write_entries].
  { apply wp_ret. exists F. by apply changes_refl. }
  apply wp_bind. eapply wp_mono; [apply catalog_put; [done|done| |]|].
  - unfold cat_tree_key. cbn [length]. rewrite length_app. unfold be_encode. rewrite !length_reverse, !length_le_encode. unfold MAX_KEY. lia.
  - unfold entry_bytes. rewrite !length_app, !length_le_encode. destruct (ino =? 0); rewrite ?length_le_encode; cbn [length]; unfold MAX_FREEABLE; lia.
  - intros _ s1 (F1&H1). eapply wp_mono; [apply IH; [apply H1|by eapply changes_enough]|]. intros _ s' (F'&H2). exists F'. by eapply changes_trans.
Qed.

Lemma write_entries_old gens es : moves (old_kept m0 Ffl) (write_entries content_hash fuel gens es).
Proof.
  induction es as [|[[tid ino] [root cnt]] es IH]; cbn [write_entries]; [apply moves_ret, _|]. apply moves_bind; [apply _| |done].
  apply moves_bind; [apply _|apply moves_reads, _|]. intros r. apply moves_bind; [apply _|apply old_kept_insert|].
  intros out s. by apply old_kept_roots.
Qed.

Lemma load_mutated_old tids : moves (old_kept m0 Ffl) (load_mutated content_hash tids).
Proof.
  induction tids as [|tid tids IH]; intros s; cbn [load_mutated]; [done|]. destruct (table_roots (pg s) !! (tid, 0)); [apply IH|]. revert s.
  apply moves_bind; [apply _| |intros e; apply moves_bind; [apply _|done|intros; apply moves_ret, _]].
  intros s. unfold tree_root. destruct (_ !! _); [done|]. refine (moves_bind (old_kept m0 Ffl) _ _ _ _ s); [apply moves_reads, _|]. intros [[r c] g].
  apply moves_bind; [apply _| |intros; apply moves_ret, _]. intros s'. by apply old_kept_roots.
Qed.

Lemma write_back_old : moves (old_kept m0 Ffl) (write_back_catalog content_hash fuel).
Proof.
  intros s. unfold write_back_catalog. refine (moves_bind (old_kept m0 Ffl) _ _ _ _ s); [apply load_mutated_old|]. intros more.
  apply moves_bind; [apply _|apply moves_reads, _|]. intros gens. apply write_entries_old.
Qed.

Lemma load_mutated_loaded tids s : (∀ tid, tid ∈ tids → is_Some (table_roots (pg s) !! (tid, 0))) → load_mutated content_hash tids s = (Ok [], s).
Proof.
  induction tids as [|tid tids IH]; intros Hl; cbn [load_mutated]; [done|]. destruct (Hl tid) as [e ->]; [constructor|]. apply IH.
  intros t Ht. apply Hl. by constructor.
Qed.

Lemma write_back_spec s F D : open_txn s F D → enough s →
  (∀ tid, tid ∈ mutated_tables (scalars s) → is_Some (table_roots (pg s) !! (tid, 0))) →
  wps (write_back_catalog content_hash fuel)
    (λ _ s', ∃ F', changes s s' F F' (written_catalog (next_gen content_hash s) (merge_sort key_le (map_to_list (table_roots (pg s)))) D)) s.
Proof.
  intros Ho Hf Hl. unfold write_back_catalog. unfold wp. cbn beta zeta. unfold mbind at 1, M_mbind at 1.
  rewrite load_mutated_loaded; [|intros tid; unfold Z_sorted; rewrite merge_sort_Permutation, elem_of_elements; apply Hl].
  rewrite app_nil_r. unfold mbind, M_mbind, reads. by apply write_entries_spec.
Qed.

(** ** The whole commit *)

Lemma rejoin_idle s : parked_runs (ex s) = [] → rejoin_parked s = s.
Proof. intros H. unfold rejoin_parked. rewrite H. destruct s, ex. cbn in *. by subst. Qed.

Lemma take_edits_idle s : pending_map_edits (ex s) = [] → take_edits s = (Ok [], s).
Proof. intros H. unfold take_edits. rewrite H. destruct s, ex. cbn in *. by subst. Qed.

Lemma flush_idle s : extent_buf (ex s) = [] → flush_extent_buf s = s.
Proof. intros H. unfold flush_extent_buf. by rewrite bool_decide_true. Qed.

(** A tree of the transaction, in the database the commit published. *)
Lemma commits_tree s e mt m F h root G D : commits content_hash R0 m0 Ffl C0 s e mt m F → snapshot_ok content_hash R0 e mt m F (client_pages C0 s) →
  files e = files (eng s) → tree_map content_hash s h root G D →
  @tree_map _ (txn_store content_hash) (txn_view content_hash m F (client_pages C0 s)) content_hash (start e mt) h root G D.
Proof.
  intros Hc S Hf Ht. eapply (seen_tree_map _ _ (txn_store content_hash) (txn_view content_hash m F (client_pages C0 s))); [|exact Ht].
  split; [|intros hs t; cbn; unfold read_external, read_external_payload; cbn; by rewrite Hf].
  intros q Hq. pose proof (tree_map_live _ _ _ _ _ _ _ Ht Hq) as Hl. destruct q as [id|]; [|done]. destruct Hl as [Hid Hl].
  split; [|left; by apply (cm_client _ _ _ _ _ _ _ _ _ _ Hc)]. assert (id ∈ client_pages C0 s) as Hcl by by apply elem_of_client_pages.
  destruct S as [S1 S2 S3 S4 S5 S6 S7 S8]. pose proof (S6 id ltac:(auto)) as Hd. cbn. split; [lia|].
  right. split_and!; [done|apply not_elem_of_empty|apply not_elem_of_nil].
Qed.

Definition txn_fails (o : option Error) (s0 s : WriteTxn) : Prop :=
  (o = Some DbFull ∨ o = Some (Internal "freelist fixpoint did not converge")) ∧ old_kept m0 Ffl s0 s.

Lemma commit_spec s F D : open_txn s F D → enough s → is_uint 64 (m_txn (meta s) + 1) → page_count (eng s) ≤ 120 * 2 ^ 16 →
  (∀ tid, tid ∈ mutated_tables (scalars s) → is_Some (table_roots (pg s) !! (tid, 0))) →
  wp (λ o s', txn_fails o s s') (commit content_hash fuel)
    (λ mt s', m_txn mt = m_txn (meta s) + 1 ∧ files (eng s') = files (eng s) ∧ page_count (eng s') = page_count (eng s) ∧
       ∃ s1 F1, changes s s1 F F1 (written_catalog (next_gen content_hash s) (merge_sort key_le (map_to_list (table_roots (pg s)))) D) ∧
       m_catalog_root mt = catalog_root (pg s1) ∧
       ∃ h m Fl, ((h ≤ size Fl)%nat ∧ @tree_rep WriteTxn shared shared_view content_hash (start (eng s') mt) h (m_freelist_root mt) Fl m) ∧
         commits content_hash R0 m0 Ffl C0 s1 (eng s') mt m Fl ∧ logs_all Ffl C0 s1 s' Fl) s.
Proof.
  intros Ho Hf Ht Hpc Hl. pose proof (op_txn _ _ _ Ho) as I. destruct (ru_idle _ (to_runs _ _ _ _ _ (it_ok _ _ _ _ _ _ I))) as (He&Hp&Hb).
  unfold commit. unfold wp. unfold mbind at 1, M_mbind at 1. cbn [modify]. rewrite (rejoin_idle s Hp).
  unfold mbind at 1, M_mbind at 1, reads at 1. unfold mbind at 1, M_mbind at 1.
  pose proof (write_back_spec s F D Ho Hf Hl) as Hw. pose proof (write_back_old s) as Hwo. unfold wp in Hw.
  destruct (write_back_catalog content_hash fuel s) as [[[]|e|] s1]; cbn in Hwo; [|split; [left; apply Hw|done]..].
  destruct Hw as (F1&Hch). pose proof Hch as (E&Hk&(Hm&_&_)&Ho1). pose proof (op_txn _ _ _ Ho1) as I1.
  pose proof (changes_enough _ _ _ _ _ Hch Hf) as Hf1. assert (page_count (eng s1) = page_count (eng s)) as Hpc1 by apply Hk.
  destruct (ru_idle _ (to_runs _ _ _ _ _ (it_ok _ _ _ _ _ _ I1))) as (He1&_&_).
  unfold mbind at 1, M_mbind at 1. rewrite (take_edits_idle s1 He1). cbn [apply_map_edits]. unfold mbind at 1, M_mbind at 1. cbn [mret M_mret].
  unfold mbind at 1, M_mbind at 1. rewrite <- Hm.
  pose proof (commit_freelist_spec content_hash R0 m0 Ffl C0 s1 fuel I1) as Hc. rewrite Hm, Hpc1 in Hc. specialize (Hc Ht Hpc Hf).
  rewrite Hm. unfold wp in Hc. pose proof (commit_freelist_old m0 Ffl fuel (m_txn (meta s) + 1) s1 (to_runs _ _ _ _ _ (it_ok _ _ _ _ _ _ I1))) as Hold.
  destruct (commit_freelist content_hash fuel (m_txn (meta s) + 1) s1) as [[[]|e|] s2].
  - destruct Hc as (h&m&Fl&[Hsz Htr]&Hcm&Hcat&Hbuf&Hpc2&Hf2&Hlogs). unfold mbind, M_mbind. cbn [modify]. rewrite (flush_idle s2 Hbuf). cbn [reads].
    split; [done|]. split; [rewrite Hf2; apply Hk|]. split; [congruence|]. exists s1, F1. split; [done|]. split; [done|]. exists h, m, Fl. split; [split; [done|]|done].
    by eapply (freelist_tree_alike _ s2); [..|exact Htr].
  - split; [|etrans; [exact Hk|by eapply Hold]]. destruct Hc as [[? _]|?]; auto.
  - split; [|etrans; [exact Hk|by eapply Hold]]. destruct Hc as [[? _]|?]; auto.
Qed.
End Fuel.
End Open.
End Run.
