(* ===== verification/TxnDb.v ===== *)
(** Histories of transactions on the system rows of a database: begin, change,
    commit or abort. *)

From stdpp Require Import sorting.
From S2P Require Import Prelude BtreeNode PageStore Btree Overflow KvMap BtreeRep BtreeInsert BtreeDelete BtreeSnapshot BtreeSpec BtreeView.
From S2P Require Import Cursor Txn TxnOps TxnPool TxnStore FreelistCodec FreelistAccount FreelistWrite FreelistPlan FreelistCommit TxnCommit TxnRun.
Local Open Scope Z_scope.

(** * The machine *)

Inductive SysOp := SysPut (k v : bytes) | SysDelete (k : bytes).

(** The mapping and the newest meta page. *)
Abbreviation Db := (Eng * Meta)%type.

Section Machine.
Context (content_hash : bytes → Z) (fuel : nat).

Definition exec_op (op : SysOp) : M WriteTxn unit :=
  match op with
  | SysPut k v => sys_put content_hash fuel k v
  | SysDelete k => sys_delete content_hash fuel k;; mret tt
  end.
Fixpoint exec_ops (ops : list SysOp) : M WriteTxn unit :=
  match ops with [] => mret tt | op :: ops => exec_op op;; exec_ops ops end.

(** Begin, run, commit; an error aborts and leaves the meta page as it was. *)
Definition transact (ops : list SysOp) (d : Db) : res unit * Db :=
  match (exec_ops ops;; commit content_hash fuel) (make_write_txn d.1 d.2 false) with
  | (Ok mt, s) => (Ok tt, (eng s, mt))
  | (Err e, s) => (Err e, (eng (restore_inplace_undo s), d.2))
  | (Panic, s) => (Panic, (eng (restore_inplace_undo s), d.2))
  end.

(** The pages the commit logs: the dirty ones, sorted. *)
Definition logged_ids (ops : list SysOp) (d : Db) : list Z :=
  merge_sort Z.le (elements (dirty (pg ((exec_ops ops;; commit content_hash fuel) (make_write_txn d.1 d.2 false)).2))).

(** What a reader of the snapshot finds under [key]. *)
Definition sys_read (key : bytes) (d : Db) : res (option bytes) :=
  @get _ shared content_hash (m_catalog_root d.2) (sys_key key) (make_write_txn d.1 d.2 false).
End Machine.

(** * The specification *)

Definition spec_op (D : gmap bytes bytes) (op : SysOp) : gmap bytes bytes :=
  match op with SysPut k v => <[sys_key k := v]> D | SysDelete k => base.delete (sys_key k) D end.
Definition op_ok (op : SysOp) : Prop :=
  match op with
  | SysPut k v => (length k < MAX_KEY)%nat ∧ Z.of_nat (length v) ≤ MAX_FREEABLE
  | SysDelete k => True
  end.

Section Db.
Context (content_hash : bytes → Z) (R0 : Z → Prop) (fuel : nat).
#[local] Instance db_store : PageStore WriteTxn := txn_store content_hash.
Abbreviation start e mt := (make_write_txn e mt false).

(** A consistent database whose catalog holds [D]. *)
Record db_ok (d : Db) (m : kvs) (F : rset) (C : gset Z) (D : gmap bytes bytes) : Prop := {
  db_snapshot : snapshot_ok content_hash R0 d.1 d.2 m F C;
  db_catalog : ∃ h Fc, @tree_map _ db_store (txn_view content_hash m F C) content_hash (start d.1 d.2) h (m_catalog_root d.2) Fc D;
  db_small : small_values D;
}.

Lemma exec_ops_spec m F C ops : ∀ s Fc D, open_txn content_hash R0 m F C s Fc D → (Z.to_nat (page_count (eng s)) ≤ fuel)%nat → Forall op_ok ops →
  @wp WriteTxn (@out_of_space _ (txn_view content_hash m F C)) _ (exec_ops content_hash fuel ops)
    (λ _ s', ∃ Fc', changes content_hash R0 m F C s s' Fc Fc' (foldl spec_op D ops)) s.
Proof.
  induction ops as [|op ops IH]; intros s Fc D Ho Hf Hok; cbn [exec_ops].
  { apply wp_ret. exists Fc. by apply changes_refl. }
  apply Forall_cons in Hok as [Hop Hok]. apply wp_bind.
  eapply (wp_mono _ _ (λ _ s1, ∃ F1, changes content_hash R0 m F C s s1 Fc F1 (spec_op D op))).
  - destruct op as [k v|k]; cbn [exec_op].
    + destruct Hop. by apply catalog_put.
    + apply wp_bind. eapply wp_mono; [by apply catalog_del|]. intros b s1 [_ ?]. by apply wp_ret.
  - intros _ s1 (F1&H1). eapply wp_mono; [apply IH; [apply H1|by eapply changes_enough|done]|]. intros _ s' (F'&H2). exists F'. by eapply changes_trans.
Qed.

Lemma exec_ops_old m F ops : moves (old_kept content_hash m F) (exec_ops content_hash fuel ops).
Proof.
  induction ops as [|op ops IH]; cbn [exec_ops]; [apply moves_ret, _|]. apply moves_bind; [apply _| |done].
  destruct op as [k v|k]; cbn [exec_op].
  - apply moves_bind; [apply _|apply moves_reads, _|]. intros r. apply moves_bind; [apply _|apply old_kept_insert|]. intros out s. by apply old_kept_roots.
  - apply moves_bind; [apply _| |intros; apply moves_ret, _]. apply moves_bind; [apply _|apply moves_reads, _|]. intros r.
    apply moves_bind; [apply _|apply old_kept_delete|]. intros out. apply moves_bind; [apply _| |intros; apply moves_ret, _].
    intros s. by apply old_kept_roots.
Qed.

(** Every page out of the transaction's reach reads as before. *)
Definition old_intact (m : kvs) (F : rset) (d d' : Db) : Prop :=
  ∀ id, protected content_hash m F (start d.1 d.2) id → page_of (start d'.1 d'.2) id = page_of (start d.1 d.2) id.

(** An aborted transaction: the old database is still there. *)
Lemma abort_ok d m F C D s : db_ok d m F C D → old_kept content_hash m F (start d.1 d.2) s →
  db_ok (eng (restore_inplace_undo s), d.2) m F C D ∧
  (page_count (eng (restore_inplace_undo s)) = page_count d.1 ∧ files (eng (restore_inplace_undo s)) = files d.1) ∧ old_intact m F d (eng (restore_inplace_undo s), d.2).
Proof.
  intros [S (h&Fc&Ht) Hs] [(H1&H2&H3&H4&H5&H6) Hk].
  assert (eng (restore_inplace_undo s) = eng s) as He by (unfold restore_inplace_undo; by rewrite H6). rewrite He.
  assert (∀ id, id ∈ C ∨ Pg id ∈ F → page_of s id = page_of (start d.1 d.2) id) as Hb.
  { intros id Hid. destruct (Hk id) as [_ ?]; [|done]. by eapply start_protected. }
  pose proof S as [S1 S2 S3 (hf&Hhf&Htf) S5 S6 S7 S8]. cbn in H1, H2, H3. split; [|split; [done|intros id Hid; by apply Hk]]. split; cbn [fst snd]; [|exists h, Fc|done].
  - split; cbn [fst snd]; rewrite ?H1, ?H2; try done; [by apply H4| |].
    + exists hf. split; [done|]. eapply (freelist_tree_alike _ (start d.1 d.2)); [done|done| |exact Htf]. intros id Hid. by apply Hb; right.
    + destruct S5 as [A1 A2 A3 A4]. split; try done. eapply Forall_impl; [exact A1|]. intros kv. unfold entry_wf. by rewrite H1, H2.
  - eapply (@tree_map_alike _ _ (txn_view content_hash m F C)); [exact Ht|].
    split; [|intros hs t; cbn; unfold read_external, read_external_payload; cbn; by rewrite H3].
    intros q Hq. pose proof (@tree_map_live _ _ (txn_view content_hash m F C) content_hash _ _ _ _ _ q Ht Hq) as Hl. destruct q as [id|]; [|done]. destruct Hl as [Hid Hl]. cbn in *. rewrite H2. split; [done|].
    apply Hb. left. destruct Hl as [?%elem_of_empty|[? _]]; done.
Qed.

Definition fits (d : Db) : Prop :=
  is_uint 64 (m_txn d.2 + 1) ∧ page_count d.1 ≤ 120 * 2 ^ 16 ∧ (Z.to_nat (page_count d.1) ≤ fuel)%nat.

Lemma start_open d m F C D : db_ok d m F C D → ∃ Fc, open_txn content_hash R0 m F C (start d.1 d.2) Fc D.
Proof. intros [S (h&Fc&Ht) Hs]. exists Fc. split; [by apply start_in_txn|by exists h|done]. Qed.

(** The snapshot [C'], [F'] has no pages but those of [C], [F] and [L]. *)
Definition covered (L : list Z) (C : gset Z) (F : rset) (C' : gset Z) (F' : rset) : Prop :=
  ∀ id, id ∈ C' ∨ Pg id ∈ F' → id ∈ L ∨ id ∈ C ∨ Pg id ∈ F.

(** The database a commit leaves, which logs the pages [L]. *)
Record committed (d d' : Db) (L : list Z) (m : kvs) (F : rset) (C : gset Z) (D : gmap bytes bytes) (h : nat) (m' : kvs) (F' : rset) : Prop := {
  cd_txn : m_txn d'.2 = m_txn d.2 + 1;
  cd_count : page_count d'.1 = page_count d.1 ∧ files d'.1 = files d.1;
  cd_height : (h ≤ size F')%nat ∧ @tree_rep WriteTxn shared shared_view content_hash (start d'.1 d'.2) h (m_freelist_root d'.2) F' m';
  cd_ok : (h < 64)%nat → ∃ C', db_ok d' m' F' C' D ∧ covered L C F C' F';
  cd_logged : NoDup L ∧ Forall (λ id, data_start d.1 ≤ id < page_count d.1) L;
  cd_intact : old_intact m F d d';
  cd_held : ∀ id t, protected content_hash m F (start d.1 d.2) id → since t m id → t ≤ m_txn d'.2 → held t d'.2 m' id;
  cd_data : data_start d'.1 = data_start d.1;
}.

Lemma transact_spec d m F C D ops : db_ok d m F C D → fits d → Forall op_ok ops →
  match transact content_hash fuel ops d with
  | (Ok _, d') => ∃ h m' F', committed d d' (logged_ids content_hash fuel ops d) m F C (foldl spec_op D ops) h m' F'
  | (Err e, d') => (e = DbFull ∨ e = Internal "freelist fixpoint did not converge") ∧ db_ok d' m F C D ∧ d'.2 = d.2 ∧ (page_count d'.1 = page_count d.1 ∧ files d'.1 = files d.1) ∧ old_intact m F d d'
  | (Panic, _) => False
  end.
Proof.
  intros Hd (Ht&Hpc&Hf) Hops. destruct (start_open d m F C D Hd) as [Fc Ho]. set (s := start d.1 d.2) in *.
  pose proof (exec_ops_spec m F C ops s Fc D Ho Hf Hops) as Hx. pose proof (exec_ops_old m F ops s) as Hxo.
  unfold transact, logged_ids. fold s. unfold mbind, M_mbind. unfold wp in Hx.
  destruct (exec_ops content_hash fuel ops s) as [[[]|e|] s1]; cbn in Hxo.
  2:{ destruct Hx as (He&_). injection He as ->. destruct (abort_ok d m F C D s1 Hd Hxo) as (?&?&?). split; [by left|]. done. }
  2:{ by destruct Hx as (He&_). }
  destruct Hx as (F1&E1&K1&(M1&Sc1&Tr1)&Ho1).
  assert (mutated_tables (scalars s1) = ∅ ∧ table_roots (pg s1) = ∅) as [Hmut Htab] by (by rewrite Sc1, Tr1).
  pose proof (commit_spec content_hash R0 m F C fuel s1 F1 _ Ho1) as Hc. destruct K1 as [(Hds1&Hpc1&Hf1&_) K1].
  rewrite Hpc1, M1, Hmut, Htab, map_to_list_empty in Hc. specialize (Hc Hf Ht Hpc ltac:(by intros ? ?%elem_of_empty)). unfold wp in Hc.
  destruct (commit content_hash fuel s1) as [[mt|e|] s2].
  - destruct Hc as (Htx&Hf2&Hpc2&s3&F3&(E3&K3&_&Ho3)&Hcat&h&m'&Fl&Htr&Hcm&Hla&Hld&Hds2). exists h, m', Fl.
    assert (∀ id, protected content_hash m F s id → protected content_hash m F s3 id ∧ page_of s3 id = page_of s id) as Hk.
    { intros id Hid. destruct (K1 id Hid) as [Hp1 <-]. by apply K3. }
    split; [done|split; [exact Hpc2|exact (eq_trans Hf2 Hf1)]|exact Htr|..].
    + intros Hh. exists (client_pages C s3). split; [|intros id Hid; destruct (Hla id Hid) as [?|?]; [left|by right]; cbn; by rewrite merge_sort_Permutation, elem_of_elements]. pose proof (cm_snapshot _ _ _ _ _ _ _ _ _ _ Hcm h Hh (proj2 Htr)) as Hsn.
      split; [exact Hsn| |apply Ho3]. destruct (op_tree _ _ _ _ _ _ _ _ Ho3) as [hc Htc]. exists hc, F3. cbn [fst snd]. rewrite Hcat.
      eapply commits_tree; [done|done| |done]. destruct K3 as [(_&_&->&_) _]. by rewrite Hf2.
    + cbn. rewrite merge_sort_Permutation. split; [apply NoDup_elements|]. apply Forall_forall. intros id Hid%elem_of_elements.
      destruct K3 as [(Hds3&Hpc3&_) _]. specialize (Hld id Hid). rewrite Hds3, Hpc3, Hds1, Hpc1 in Hld. exact Hld.
    + intros id Hid. destruct (Hk id Hid) as [Hp Hb]. change (page_of (start (eng s2) mt) id = page_of s id). rewrite <- Hb.
      by apply (cm_old _ _ _ _ _ _ _ _ _ _ Hcm).
    + intros id t Hid. apply (cm_held _ _ _ _ _ _ _ _ _ _ Hcm). by apply Hk.
    + destruct K3 as [(Hds3&_) _]. exact (eq_trans Hds2 (eq_trans Hds3 Hds1)).
  - destruct Hc as (He&Hk2). destruct (abort_ok d m F C D s2 Hd) as (?&?&?); [by etrans|]. split; [|done].
    destruct He as [He|He]; injection He as ->; auto.
  - by destruct Hc as ([?|?]&_).
Qed.

(** * Histories *)

Definition shallow (root : Z) (d : Db) : Prop :=
  ∀ h F m, @tree_rep WriteTxn shared shared_view content_hash (start d.1 d.2) h root F m → (h ≤ size F)%nat → (h < 64)%nat.

(** Transactions one after another, each with the bounds [c] and [p] that it
    finds in the reader table, all below [t]. *)
Inductive history (t : Z) (d : Db) (D : gmap bytes bytes) : Db → gmap bytes bytes → Prop :=
  | history_start : history t d D d D
  | history_commit d1 D1 c p ops d2 : history t d D d1 D1 →
      Z.max c p < t → m_txn d1.2 + 1 < 2 ^ 64 → Forall op_ok ops →
      transact content_hash fuel ops (set_pins c p d1.1, d1.2) = (Ok tt, d2) → shallow (m_freelist_root d2.2) d2 →
      history t d D d2 (foldl spec_op D1 ops)
  | history_abort d1 D1 c p ops e d2 : history t d D d1 D1 →
      Z.max c p < t → m_txn d1.2 + 1 < 2 ^ 64 → Forall op_ok ops →
      transact content_hash fuel ops (set_pins c p d1.1, d1.2) = (Err e, d2) → history t d D d2 D1.

Lemma db_pins d m F C D c p : db_ok d m F C D → db_ok (set_pins c p d.1, d.2) m F C D.
Proof.
  intros [S (h&Fc&Ht) Hs]. split; [by apply snapshot_pins| |done]. exists h, Fc. eapply (@tree_map_alike _ _ (txn_view content_hash m F C)); [exact Ht|].
  split; [|done]. intros q Hq. pose proof (@tree_map_live _ _ (txn_view content_hash m F C) content_hash _ _ _ _ _ q Ht Hq) as Hl. by destruct q.
Qed.

(** What a history keeps of the pages of its first snapshot. *)
Record keeps_snapshot (t : Z) (d : Db) (F : rset) (C : gset Z) (d' : Db) (m' : kvs) : Prop := {
  ks_txn : m_txn d.2 ≤ m_txn d'.2;
  ks_count : page_count d'.1 = page_count d.1 ∧ files d'.1 = files d.1;
  ks_pages : ∀ id, id ∈ C ∨ Pg id ∈ F → page_of (start d'.1 d'.2) id = page_of (start d.1 d.2) id ∧ held t d'.2 m' id;
}.

Lemma keeps_start d m F C D t : db_ok d m F C D → keeps_snapshot t d F C d m.
Proof.
  intros [S _ _]. split; [done|done|]. intros id Hid. split; [done|]. destruct S as [S1 S2 S3 S4 S5 S6 S7 S8]. split.
  - specialize (S6 id ltac:(tauto)). lia.
  - intros kv Hkv Hin. assert (id ∈ ids_of m) as Hx. { apply elem_of_concat. exists (entry_ids kv). split; [apply list_elem_of_fmap; by exists kv|done]. }
    destruct (S7 id) as (_&H1&H2). tauto.
Qed.

Lemma history_spec d m F C D d' D' : db_ok d m F C D → page_count d.1 ≤ 120 * 2 ^ 16 → (Z.to_nat (page_count d.1) ≤ fuel)%nat → 0 ≤ m_txn d.2 →
  history (m_txn d.2 + 1) d D d' D' → ∃ m' F' C', db_ok d' m' F' C' D' ∧ keeps_snapshot (m_txn d.2 + 1) d F C d' m'.
Proof.
  intros Hd Hpc Hf Ht0. set (t := m_txn d.2 + 1). induction 1 as [|d1 D1 c p ops d2 _ (m1&F1&C1&Hd1&K1) Hpin Htx Hops Hrun Hsh|d1 D1 c p ops e d2 _ (m1&F1&C1&Hd1&K1) Hpin Htx Hops Hrun].
  { exists m, F, C. split; [done|by eapply keeps_start]. }
  all: pose proof (db_pins _ _ _ _ _ c p Hd1) as Hdp; destruct K1 as [Kt [Kc Kf] Kp];
    assert (∀ id, id ∈ C ∨ Pg id ∈ F → protected content_hash m1 F1 (start (set_pins c p d1.1) d1.2) id) as Hprot
      by (intros id Hid; eapply start_held; [apply Hd1|by apply Kp|unfold reuse_limit; cbn; lia]);
    assert (fits (set_pins c p d1.1, d1.2)) as Hfit
      by (unfold fits, is_uint, page_count in *; cbn in *; split_and!; lia);
    pose proof (transact_spec _ _ _ _ _ ops Hdp Hfit Hops) as Hspec; rewrite Hrun in Hspec.
  - destruct Hspec as (h&m2&F2&[A1 [A2 A2'] [A3 A3'] A4 _ A5 A6 _]). destruct (A4 (Hsh _ _ _ A3' A3)) as (C2&Hd2&_). exists m2, F2, C2. split; [done|]. split.
    + cbn in A1. lia.
    + rewrite <- Kc, <- Kf. by split.
    + intros id Hid. specialize (Hprot id Hid). destruct (Kp id Hid) as [Hb [_ Hs]]. split; [etrans; [exact (A5 id Hprot)|exact Hb]|].
      apply A6; [done|done|]. cbn in A1. unfold t. lia.
  - destruct Hspec as (_&Hd2&Hm&Hc2&Hin). exists m1, F1, C1. split; [done|]. cbn in Hm. split.
    + by rewrite Hm.
    + rewrite <- Kc, <- Kf. exact Hc2.
    + intros id Hid. specialize (Hprot id Hid). destruct (Kp id Hid) as [Hb Hh]. split; [etrans; [exact (Hin id Hprot)|exact Hb]|by rewrite Hm].
Qed.

(** ** Readers *)

(** A snapshot, read through a mapping in which its pages read the same. *)
Lemma read_snapshot d m F C D e key : db_ok d m F C D → shallow (m_catalog_root d.2) d → page_count e = page_count d.1 → files e = files d.1 →
  Forall (λ p, length p = PAGE_SIZE) (mem e) →
  (∀ id, id ∈ C → page_of (start e d.2) id = page_of (start d.1 d.2) id) → sys_read content_hash key (e, d.2) = Ok (D !! sys_key key).
Proof.
  intros [S (h0&Fc&Ht0) _] Hsh Hpc Hf He Hb. destruct S as [S1 S2 S3 S4 S5 S6 S7 S8].
  destruct (@tree_map_height _ _ (txn_view content_hash m F C) content_hash _ _ _ _ _ Ht0) as (h&Hsz&_&Ht).
  assert (∀ e', page_count e' = page_count d.1 → files e' = files d.1 → (∀ id, id ∈ C → page_of (start e' d.2) id = page_of (start d.1 d.2) id) →
    @tree_map _ shared shared_view content_hash (start e' d.2) h (m_catalog_root d.2) Fc D) as Hshared.
  { intros e' H1 H2 H3. eapply (seen_tree_map (txn_store content_hash) (txn_view content_hash m F C)); [|exact Ht].
    split; [|intros hs t; cbn; unfold read_external, read_external_payload; cbn; by rewrite H2].
    intros q Hq. pose proof (@tree_map_live _ _ (txn_view content_hash m F C) content_hash _ _ _ _ _ q Ht Hq) as Hl.
    destruct q as [id|]; [|done]. destruct Hl as [Hid Hl]. assert (id ∈ C) as Hc by by destruct Hl as [?%elem_of_empty|[? _]].
    pose proof (S6 id ltac:(auto)). split; [cbn in *; lia|]. left. by apply H3. }
  assert (h < 64)%nat as Hh. { destruct (Hshared d.1) as (mm&Htr&_); [done..|]. by eapply Hsh. }
  apply (@get_map _ shared shared_view shared_laws content_hash _ h _ Fc); [exact He|by apply Hshared|done].
Qed.
End Db.
