(* ===== verification/TxnTheorems.v ===== *)
(** What the write transaction and its commit guarantee. *)

From stdpp Require Import sorting.
From S2P Require Import Prelude BtreeNode PageStore Btree Overflow KvMap BtreeRep BtreeInsert BtreeDelete BtreeSnapshot BtreeSpec BtreeView.
From S2P Require Import Cursor Txn TxnOps TxnPool TxnStore FreelistCodec FreelistAccount FreelistWrite FreelistPlan FreelistCommit TxnCommit TxnRun TxnDb.
Local Open Scope Z_scope.

(** * A small database *)

Definition no_hash : bytes → Z := λ _, 0.
Definition empty_db : Db := (MkEng (replicate 60 (replicate PAGE_SIZE 0)) 5 ∅ false 0 0 0, MkMeta 1 0 0 5 0 0).
Definition put_1 : list SysOp := [SysPut [7] [1; 2; 3]].
Definition put_2 : list SysOp := [SysPut [7] [9]].
Definition db_1 : Db := (transact no_hash 60 put_1 empty_db).2.
Definition db_2 : Db := (transact no_hash 60 put_2 (set_pins 0 2 db_1.1, db_1.2)).2.

Lemma empty_ok : db_ok no_hash (λ _, False) empty_db [] ∅ ∅ ∅.
Proof.
  split; [|exists 0%nat, ∅; apply tree_map_empty|by intros k v ?%lookup_empty_Some]. split; cbn [empty_db fst snd mem data_start m_high_water m_freelist_root m_txn].
  - apply Forall_replicate, length_replicate.
  - unfold page_count. cbn [mem]. rewrite length_replicate. lia.
  - constructor.
  - exists 0%nat. split; [lia|]. by left.
  - split; constructor.
  - intros id [?%elem_of_empty|[?%elem_of_empty|?%elem_of_nil]]; done.
  - intros id. split_and!; intros [?%elem_of_empty ?]; done.
  - lia.
Qed.

Lemma empty_fits : fits 60 empty_db.
Proof. unfold fits, is_uint, page_count. cbn [empty_db fst snd mem m_txn]. rewrite length_replicate. lia. Qed.

Lemma shallow_empty d : shallow no_hash 0 d.
Proof. intros h F m [(_&_&->)|[? _]] Hh; [|done]. rewrite size_empty in Hh. lia. Qed.

(** * Properties *)

(** C1. A transaction happens or does not. On a consistent database, a
    transaction that puts and deletes system rows and commits never panics. If
    it returns, the transaction number went up by one, the published free list
    is a tree, and (while that tree is less than 64 levels high) the new
    database is consistent and its catalog is the old map with the operations
    applied in order. If it fails, then for lack of space or because the free
    list of the commit did not settle, and the database is the old one, with the
    same meta page and the same map. In a consistent database every
    data page below the high-water mark belongs to the trees that hold the
    database ([C], the catalog's pages among them), to the free-list tree ([F]),
    to one entry of the free list ([m]), or to a run set aside ([R0]), and to
    only one of the first three. *)
Theorem transaction_atomic content_hash R0 fuel d m F C D ops : db_ok content_hash R0 d m F C D → fits fuel d → Forall op_ok ops →
  match transact content_hash fuel ops d with
  | (Ok _, d') => m_txn d'.2 = m_txn d.2 + 1 ∧ ∃ h m' F',
      @tree_rep WriteTxn shared shared_view content_hash (make_write_txn d'.1 d'.2 false) h (m_freelist_root d'.2) F' m' ∧
      ((h < 64)%nat → ∃ C', db_ok content_hash R0 d' m' F' C' (foldl spec_op D ops))
  | (Err e, d') => (e = DbFull ∨ e = Internal "freelist fixpoint did not converge") ∧ d'.2 = d.2 ∧ db_ok content_hash R0 d' m F C D
  | (Panic, _) => False
  end.
Proof.
  intros Hd Hf Hops. pose proof (transact_spec _ _ _ _ _ _ _ _ ops Hd Hf Hops) as H.
  destruct (transact content_hash fuel ops d) as [[[]|e|] d']; [|naive_solver..].
  destruct H as (h&m'&F'&[A1 _ [_ A3] A4 _ _ _ _]). split; [done|]. exists h, m', F'. split; [done|].
  intros Hh. destruct (A4 Hh) as (C'&Hd'&_). by exists C'.
Qed.

Lemma db_1_ok : ∃ m F C, db_ok no_hash (λ _, False) db_1 m F C {[sys_key [7] := [1; 2; 3]]}.
Proof.
  pose proof (transact_spec no_hash (λ _, False) 60 empty_db [] ∅ ∅ ∅ put_1 empty_ok) as H.
  assert (Forall op_ok put_1) as Ho by (repeat constructor; cbn; unfold MAX_KEY, MAX_FREEABLE; lia).
  specialize (H empty_fits Ho). unfold db_1. assert ((transact no_hash 60 put_1 empty_db).1 = Ok tt) as Hok by (vm_compute; done).
  assert (m_freelist_root (transact no_hash 60 put_1 empty_db).2.2 = 0) as Hr by (vm_compute; done).
  destruct (transact no_hash 60 put_1 empty_db) as [r d']. cbn [fst snd] in *. subst r. destruct H as (h&m'&F'&[_ _ [A3 A3'] A4 _ _ _ _]).
  rewrite Hr in A3'. destruct (A4 (shallow_empty d' h F' m' A3' A3)) as (C'&Hd&_). by exists m', F', C'.
Qed.

Lemma shallow_leaf root d : kind (page_of (make_write_txn d.1 d.2 false) root) = KIND_LEAF → shallow no_hash root d.
Proof.
  intros Hk [|h] F m Ht Hh; [lia|]. destruct Ht as [(_&_&->)|[_ Ht]]; [rewrite size_empty in Hh; lia|].
  destruct Ht as (lm&seps&F0&[_ [_ Hkind _ _ _ _ _ _ _] _ _]&_). cbn in Hkind. by rewrite Hk in Hkind.
Qed.

(** C2. Snapshot isolation. A reader holds the snapshot [d] and so transaction
    [m_txn d.2] is pinned; any number of transactions then commit or abort, each
    with a bound on reuse that respects the pin. The reader still reads, under
    every key, what the map of its snapshot holds, although commits reuse pages
    freed before the pin; and the newest database is consistent and reads as the
    map with all committed changes. *)
Theorem snapshot_isolation content_hash R0 fuel d m F C D d' D' : db_ok content_hash R0 d m F C D →
  page_count d.1 ≤ 120 * 2 ^ 16 → (Z.to_nat (page_count d.1) ≤ fuel)%nat → 0 ≤ m_txn d.2 → shallow content_hash (m_catalog_root d.2) d →
  history content_hash fuel (m_txn d.2 + 1) d D d' D' →
  (∀ key, sys_read content_hash key (d'.1, d.2) = Ok (D !! sys_key key)) ∧
  ∃ m' F' C', db_ok content_hash R0 d' m' F' C' D' ∧
    (shallow content_hash (m_catalog_root d'.2) d' → ∀ key, sys_read content_hash key d' = Ok (D' !! sys_key key)).
Proof.
  intros Hd Hpc Hf Ht Hsh Hh. destruct (history_spec _ _ _ _ _ _ _ _ _ _ Hd Hpc Hf Ht Hh) as (m'&F'&C'&Hd'&[_ [Kc Kf] Kp]).
  pose proof (sn_mem _ _ _ _ _ _ _ (db_snapshot _ _ _ _ _ _ _ Hd')) as Hmem. split.
  - intros key. eapply read_snapshot; [exact Hd|done|done|done|done|]. intros id Hid. by apply Kp; left.
  - exists m', F', C'. split; [done|]. intros Hsh' key. destruct d' as [e' mt']. by eapply (read_snapshot _ _ (e', mt')).
Qed.

Lemma snapshot_isolation_witness : sys_read no_hash [7] (db_2.1, db_1.2) = Ok (Some [1; 2; 3]) ∧ sys_read no_hash [7] db_2 = Ok (Some [9]).
Proof.
  destruct db_1_ok as (m&F&C&Hd). destruct (snapshot_isolation no_hash (λ _, False) 60 db_1 m F C {[sys_key [7] := [1; 2; 3]]} db_2
    (foldl spec_op {[sys_key [7] := [1; 2; 3]]} put_2) Hd) as [Hold (m'&F'&C'&_&Hnew)].
  - apply Z.leb_le. vm_compute. reflexivity.
  - apply Nat.leb_le. vm_compute. reflexivity.
  - apply Z.leb_le. vm_compute. reflexivity.
  - apply shallow_leaf. vm_compute. reflexivity.
  - apply (history_commit no_hash 60 _ _ _ db_1 {[sys_key [7] := [1; 2; 3]]} 0 2 put_2).
    + constructor.
    + apply Z.ltb_lt. vm_compute. reflexivity.
    + apply Z.ltb_lt. vm_compute. reflexivity.
    + repeat constructor; cbn; unfold MAX_KEY, MAX_FREEABLE; lia.
    + rewrite (surjective_pairing (transact _ _ _ _)). refine (f_equal2 pair _ eq_refl). vm_compute. reflexivity.
    + apply shallow_leaf. vm_compute. reflexivity.
  - split.
    + rewrite Hold. rewrite lookup_singleton_eq. reflexivity.
    + rewrite Hnew by (apply shallow_leaf; vm_compute; reflexivity). cbn [foldl put_2 spec_op]. rewrite lookup_insert_eq. reflexivity.
Defined.

Lemma transaction_atomic_witness : m_txn (transact no_hash 60 put_1 empty_db).2.2 = 2.
Proof.
  assert (Forall op_ok put_1) as Ho by (repeat constructor; cbn; unfold MAX_KEY, MAX_FREEABLE; lia).
  pose proof (transaction_atomic no_hash (λ _, False) 60 empty_db [] ∅ ∅ ∅ put_1 empty_ok empty_fits Ho) as H.
  assert ((transact no_hash 60 put_1 empty_db).1 = Ok tt) as Hok by (vm_compute; reflexivity).
  destruct (transact no_hash 60 put_1 empty_db) as [r d']. cbn [fst snd] in *. subst r. exact (proj1 H).
Defined.



