(* ===== verification/Extent.v ===== *)
(** Extent payloads and runs: what [write_extent_payload] leaves for a read
    through the coalescing buffer and for one through the file, and which pages
    the pool of runs gives away. *)

From S2P Require Import Prelude BtreeNode PageStore Btree Cursor Txn TxnOps FreelistCodec.
Local Open Scope Z_scope.

(** * Bytes of a file overwritten at an offset *)

Definition splice (off : nat) (b l : bytes) : bytes := take off l ++ b ++ drop (off + length b) l.

Lemma splice_nil off l : splice off [] l = l.
Proof. unfold splice. cbn. rewrite Nat.add_0_r. apply take_drop. Qed.

Lemma length_splice off b l : (off + length b ≤ length l)%nat → length (splice off b l) = length l.
Proof. intros. unfold splice. rewrite !length_app, length_take, length_drop. lia. Qed.

Lemma lookup_splice off b l i : (off + length b ≤ length l)%nat →
  splice off b l !! i = if decide (off ≤ i < off + length b)%nat then b !! (i - off)%nat else l !! i.
Proof.
  intros Hl. unfold splice. destruct (decide (i < off)%nat).
  { rewrite decide_False by lia. rewrite lookup_app_l by (rewrite length_take; lia). apply lookup_take_lt. lia. }
  rewrite lookup_app_r by (rewrite length_take; lia). rewrite length_take, Nat.min_l by lia. case_decide.
  - rewrite lookup_app_l by lia. done.
  - rewrite lookup_app_r by lia. rewrite lookup_drop. f_equal. lia.
Qed.

Lemma splice_splice off b c l : (off + length b + length c ≤ length l)%nat → splice (off + length b) c (splice off b l) = splice off (b ++ c) l.
Proof.
  intros Hl. apply list_eq. intros i. rewrite !lookup_splice by (rewrite ?length_splice, ?length_app; lia). rewrite length_app.
  repeat case_decide; try lia; try done.
  - rewrite lookup_app_r by lia. f_equal. lia.
  - by rewrite lookup_app_l by lia.
Qed.

Lemma sub_splice_in off b l i n : (off + length b ≤ length l)%nat → (off ≤ i)%nat → (i + n ≤ off + length b)%nat →
  sub i n (splice off b l) = sub (i - off) n b.
Proof.
  intros Hl Hi Hn. apply list_eq. intros j. rewrite !lookup_sub. case_decide; [|done]. rewrite lookup_splice by done.
  rewrite decide_True by lia. f_equal. lia.
Qed.

Lemma sub_splice_out off b l i n : (off + length b ≤ length l)%nat → (i + n ≤ off)%nat ∨ (off + length b ≤ i)%nat →
  sub i n (splice off b l) = sub i n l.
Proof.
  intros Hl Hi. apply list_eq. intros j. rewrite !lookup_sub. case_decide; [|done]. rewrite lookup_splice by done.
  by rewrite decide_False by lia.
Qed.

(** * The file behind the mapping *)

Definition paged (e : Eng) : Prop := Forall (λ p, length p = PAGE_SIZE) (mem e).
Definition file_bytes (e : Eng) : bytes := mjoin (mem e).

Lemma mjoin_concat (ps : list bytes) : mjoin ps = concat ps.
Proof. induction ps as [|p ps IH]; [done|]. cbn. by f_equal. Qed.

Lemma length_paged (ps : list bytes) : Forall (λ p, length p = PAGE_SIZE) ps → length (concat ps) = (PAGE_SIZE * length ps)%nat.
Proof. induction 1 as [|p ps Hp _ IH]; cbn [concat length]; [lia|]. rewrite length_app, IH, Hp. lia. Qed.

Lemma page_pos : (0 < PAGE_SIZE)%nat.
Proof. unfold PAGE_SIZE. lia. Qed.

Lemma chunks_paged n : ∀ l fuel, length l = (PAGE_SIZE * n)%nat → (n ≤ fuel)%nat →
  Forall (λ p, length p = PAGE_SIZE) (chunks_loop fuel PAGE_SIZE l : list bytes) ∧ length (chunks_loop fuel PAGE_SIZE l : list bytes) = n.
Proof.
  induction n as [|n IH]; intros l fuel Hl Hf.
  { destruct l; [by destruct fuel|]. cbn in Hl. lia. }
  pose proof page_pos as Hpos. destruct fuel as [|fuel]; [lia|]. destruct l as [|x l]; [cbn [length] in Hl; lia|]. cbn [chunks_loop].
  destruct (IH (drop PAGE_SIZE (x :: l)) fuel) as [H1 H2]; [rewrite length_drop; lia|lia|]. split; [constructor|cbn [length]; by rewrite H2].
  - rewrite length_take. lia.
  - done.
Qed.

(** A write in range is a splice and keeps the pages. *)
Lemma file_write_spec buf off e : paged e → 0 ≤ off → off + Z.of_nat (length buf) ≤ page_count e * 4096 →
  file_bytes (file_write buf off e) = splice (Z.to_nat off) buf (file_bytes e) ∧
  paged (file_write buf off e) ∧ page_count (file_write buf off e) = page_count e ∧
  data_start (file_write buf off e) = data_start e.
Proof.
  intros Hp Ho Hl. unfold file_bytes, paged, page_count in *. unfold file_write. cbn [mem set_mem data_start].
  rewrite !mjoin_concat.
  pose proof (length_paged _ Hp) as Hlen. fold (splice (Z.to_nat off) buf (concat (mem e))).
  assert (length (splice (Z.to_nat off) buf (concat (mem e))) = (PAGE_SIZE * length (mem e))%nat) as Hs.
  { rewrite length_splice; [done|]. unfold PAGE_SIZE in *. lia. }
  destruct (chunks_paged (length (mem e)) (splice (Z.to_nat off) buf (concat (mem e))) (length (splice (Z.to_nat off) buf (concat (mem e)))) Hs) as [H1 H2].
  { rewrite Hs. pose proof page_pos. nia. }
  unfold chunks. rewrite H2. split; [|done]. apply concat_chunks, page_pos.
Qed.

(** * The buffer over the file *)

(** What the file holds once the buffer is flushed. *)
Definition view (s : WriteTxn) : bytes :=
  splice (Z.to_nat (extent_buf_off (ex s))) (extent_buf (ex s)) (file_bytes (eng s)).

Definition buf_end (s : WriteTxn) : Z := extent_buf_off (ex s) + Z.of_nat (length (extent_buf (ex s))).

Record buffered (s : WriteTxn) : Prop := {
  bf_paged : paged (eng s);
  bf_low : 0 ≤ extent_buf_off (ex s);
  bf_high : buf_end s ≤ page_count (eng s) * 4096;
  bf_size : page_count (eng s) * 4096 < 2 ^ 64;
}.

Definition pages_for (total_len : Z) : Z := (total_len + 4095) / 4096.

(** A run of the data region, and a value of [total_len] bytes in it. *)
Record run_at (s : WriteTxn) (start total_len : Z) : Prop := {
  ra_pos : 0 < total_len;
  ra_low : 0 ≤ start ∧ data_start (eng s) ≤ start;
  ra_high : start + pages_for total_len ≤ page_count (eng s);
}.

(** The value is in the buffer, or the buffer covers no byte of it. *)
Definition whole (s : WriteTxn) (start total_len : Z) : Prop :=
  extent_buf (ex s) = [] ∨
  extent_buf_off (ex s) ≤ start * 4096 ∧ start * 4096 + total_len ≤ buf_end s ∨
  start * 4096 + total_len ≤ extent_buf_off (ex s) ∨ buf_end s ≤ start * 4096.

Lemma pages_for_spec total_len : 0 < total_len → pages_for total_len * 4096 - 4096 < total_len ≤ pages_for total_len * 4096.
Proof. intros. unfold pages_for. pose proof (Z.div_mod (total_len + 4095) 4096 ltac:(lia)). pose proof (Z.mod_pos_bound (total_len + 4095) 4096 ltac:(lia)). lia. Qed.

Lemma length_file e : paged e → Z.of_nat (length (file_bytes e)) = page_count e * 4096.
Proof. intros Hp. unfold file_bytes. rewrite mjoin_concat, length_paged by done. unfold page_count, PAGE_SIZE. lia. Qed.

Lemma view_in_range s : buffered s → (Z.to_nat (extent_buf_off (ex s)) + length (extent_buf (ex s)) ≤ length (file_bytes (eng s)))%nat.
Proof. intros [H1 H2 H3 _]. pose proof (length_file _ H1). unfold buf_end in H3. lia. Qed.

Lemma length_view s : buffered s → Z.of_nat (length (view s)) = page_count (eng s) * 4096.
Proof. intros B. unfold view. rewrite length_splice by by apply view_in_range. apply length_file, B. Qed.

Lemma read_file e start total_len : paged e → page_count e * 4096 < 2 ^ 64 → 0 < total_len → 0 ≤ start ∧ data_start e ≤ start →
  start + pages_for total_len ≤ page_count e →
  read_extent_from_shm start total_len e = Ok (sub (Z.to_nat (start * 4096)) (Z.to_nat total_len) (file_bytes e)).
Proof.
  intros Hp Hpc Ht [H1 H2] H3. pose proof (pages_for_spec total_len Ht). unfold read_extent_from_shm. fold (pages_for total_len).
  rewrite !(proj2 (Z.leb_gt _ _)) by lia. rewrite !(proj2 (Z.ltb_ge _ _)) by lia. cbn [orb].
  unfold shm_bytes. rewrite !(proj2 (Z.leb_gt _ _)) by lia. by rewrite !(proj2 (Z.ltb_ge _ _)) by lia.
Qed.

Lemma read_view s start total_len : buffered s → run_at s start total_len → whole s start total_len →
  read_extent start total_len s = Ok (sub (Z.to_nat (start * 4096)) (Z.to_nat total_len) (view s)).
Proof.
  intros B [Ht Hl Hh] Hw. pose proof B as [B1 B2 B3 B4]. pose proof (view_in_range s B) as Hr. unfold read_extent, whole, buf_end in *.
  destruct (decide (extent_buf (ex s) = [])) as [Hn|Hn].
  { rewrite bool_decide_true by done. cbn [negb andb]. unfold view. rewrite Hn, splice_nil. by apply read_file. }
  rewrite bool_decide_false by done. cbn [negb andb].
  assert (0 < length (extent_buf (ex s)))%nat by (destruct (extent_buf (ex s)); [done|cbn; lia]).
  destruct Hw as [?|[[W1 W2]|Hw]]; [done|..].
  - rewrite !(proj2 (Z.leb_le _ _)) by lia. cbn [andb]. unfold view. rewrite sub_splice_in by lia. do 2 f_equal. lia.
  - assert ((extent_buf_off (ex s) <=? start * 4096) && (start * 4096 + total_len <=? extent_buf_off (ex s) + Z.of_nat (length (extent_buf (ex s)))) = false) as ->.
    { apply andb_false_iff. rewrite !Z.leb_gt. lia. }
    rewrite read_file by done. unfold view. by rewrite sub_splice_out by lia.
Qed.

(** ** Flushing *)

Lemma flush_spec s : buffered s →
  let s' := flush_extent_buf s in
  buffered s' ∧ view s' = view s ∧ file_bytes (eng s') = view s ∧ extent_buf (ex s') = [] ∧ extent_buf_off (ex s') = extent_buf_off (ex s) ∧
  page_count (eng s') = page_count (eng s) ∧ data_start (eng s') = data_start (eng s).
Proof.
  intros B s'. subst s'. unfold flush_extent_buf. case_bool_decide as Hn.
  { split_and!; try done. unfold view. by rewrite Hn, splice_nil. }
  pose proof B as [B1 B2 B3 B4]. destruct (file_write_spec (extent_buf (ex s)) (extent_buf_off (ex s)) (eng s) B1 B2 B3) as (F1&F2&F3&F4).
  assert (view (flush_extent_buf s) = view s) as Hv.
  { unfold flush_extent_buf. rewrite bool_decide_false by done. unfold view at 1. cbn. by rewrite splice_nil. }
  unfold flush_extent_buf in Hv. rewrite bool_decide_false in Hv by done.
  split_and!; try done. split; unfold buf_end in *; cbn; try done; [|by rewrite F3]. rewrite F3. lia.
Qed.

(** ** Writing *)

Definition padded (npages : Z) (pieces : list bytes) : bytes := resize (Z.to_nat (npages * 4096)) 0 (concat pieces).

(** The outcome of a write of [pieces] at [start]: one splice of the view. *)
Record wrote (s s' : WriteTxn) (start npages : Z) (pieces : list bytes) : Prop := {
  wr_ok : buffered s';
  wr_same : page_count (eng s') = page_count (eng s) ∧ data_start (eng s') = data_start (eng s);
  wr_view : view s' = splice (Z.to_nat (start * 4096)) (padded npages pieces) (view s);
  wr_here : ∀ len, 0 < len ≤ npages * 4096 → whole s' start len;
  wr_there : ∀ start' len, 0 < len → start' + pages_for len ≤ start ∨ start + npages ≤ start' → whole s start' len → whole s' start' len;
}.

Lemma resize_app_all (a b : bytes) n : (length b ≤ n)%nat → resize (length a + n) 0 (a ++ b) = a ++ resize n 0 b.
Proof.
  intros Hn. rewrite !resize_ge by (rewrite ?length_app; lia). rewrite <- app_assoc. do 3 f_equal. rewrite length_app. lia.
Qed.

Lemma coalesce_spec s start npages pieces : buffered s → 0 ≤ start → 0 < npages → start + npages ≤ page_count (eng s) →
  Z.of_nat (length (concat pieces)) ≤ npages * 4096 → wrote s (coalesce_payload (start * 4096) (npages * 4096) pieces s) start npages pieces.
Proof.
  intros B Hs Hn Hpc Hl. unfold coalesce_payload.
  set (contig := negb (bool_decide (extent_buf (ex s) = [])) && (extent_buf_off (ex s) + Z.of_nat (length (extent_buf (ex s))) =? start * 4096)).
  assert (length (padded npages pieces) = Z.to_nat (npages * 4096)) as Hlp by apply length_resize.
  destruct (negb contig || _) eqn:Hc.
  - destruct (flush_spec s B) as (B'&Hv&Hf&He&Ho&Hp&Hd). set (s1 := flush_extent_buf s) in *. rewrite He. rewrite bool_decide_true by done.
    replace (start * 4096 + npages * 4096 - start * 4096) with (npages * 4096) by lia. fold (padded npages pieces). rewrite app_nil_l. fold (padded npages pieces).
    assert (buf_end (set_buf (padded npages pieces) (start * 4096) s1) = start * 4096 + npages * 4096) as Hbe.
    { unfold buf_end. cbn. rewrite Hlp. lia. }
    split; [split; cbn; [apply B'|lia|rewrite Hbe; lia|apply B']|done| | |].
    + unfold view at 1. cbn. by rewrite Hf.
    + intros len Hlen. right. left. rewrite Hbe. cbn. lia.
    + intros st len Hlen Hdis _. right. right. rewrite Hbe. cbn. pose proof (pages_for_spec len Hlen). lia.
  - apply orb_false_iff in Hc as [Hc%negb_false_iff _]. subst contig. apply andb_true_iff in Hc as [Hne%negb_true_iff Hend%Z.eqb_eq].
    rewrite Hne. apply bool_decide_eq_false in Hne. pose proof B as [B1 B2 B3 B4].
    set (buf := extent_buf (ex s)) in *. set (off := extent_buf_off (ex s)) in *.
    assert (resize (Z.to_nat (start * 4096 + npages * 4096 - off)) 0 (buf ++ concat pieces) = buf ++ padded npages pieces) as Hbuf.
    { replace (Z.to_nat (start * 4096 + npages * 4096 - off)) with (length buf + Z.to_nat (npages * 4096))%nat by lia.
      apply resize_app_all. lia. }
    rewrite Hbuf.
    assert (buf_end (set_buf (buf ++ padded npages pieces) off s) = start * 4096 + npages * 4096) as Hbe.
    { unfold buf_end. cbn. rewrite length_app, Hlp. lia. }
    split; [split; [apply B1|apply B2|rewrite Hbe; cbn; lia|apply B4]|done| | |].
    + unfold view. cbn. fold buf off. replace (Z.to_nat (start * 4096)) with (Z.to_nat off + length buf)%nat by lia. rewrite splice_splice; [done|].
      pose proof (length_file _ B1). rewrite Hlp. lia.
    + intros len Hlen. right. left. rewrite Hbe. cbn. fold off. lia.
    + intros st len Hlen Hdis [?|Hw]; [done|]. right. rewrite Hbe. unfold buf_end in Hw. cbn. fold off buf in Hw |- *.
      pose proof (pages_for_spec len Hlen). lia.
Qed.

Lemma write_pieces_spec pieces : ∀ off e, paged e → 0 ≤ off → off + Z.of_nat (length (concat pieces)) ≤ page_count e * 4096 →
  file_bytes (write_pieces pieces off e) = splice (Z.to_nat off) (concat pieces) (file_bytes e) ∧
  paged (write_pieces pieces off e) ∧ page_count (write_pieces pieces off e) = page_count e ∧ data_start (write_pieces pieces off e) = data_start e.
Proof.
  induction pieces as [|p pieces IH]; intros off e Hp Ho Hl; cbn [write_pieces concat].
  { by rewrite splice_nil. }
  cbn [concat] in Hl. rewrite length_app in Hl. destruct (file_write_spec p off e Hp Ho) as (F1&F2&F3&F4); [lia|].
  destruct (IH (off + Z.of_nat (length p)) (file_write p off e) F2) as (G1&G2&G3&G4); [lia|rewrite F3; lia|].
  rewrite G1, G3, G4, F1, F3, F4. split_and!; try done. replace (Z.to_nat (off + Z.of_nat (length p))) with (Z.to_nat off + length p)%nat by lia.
  apply splice_splice. pose proof (length_file e Hp). lia.
Qed.

(** The padding of a payload that fills its pages but for less than one. *)
Lemma padded_app npages pieces total_len : Z.of_nat (length (concat pieces)) = total_len → total_len ≤ npages * 4096 →
  padded npages pieces = concat pieces ++ replicate (Z.to_nat (npages * 4096 - total_len)) 0.
Proof. intros Hl Hn. unfold padded. rewrite resize_ge by lia. do 2 f_equal. lia. Qed.

Lemma direct_spec s start pieces total_len : buffered s → 0 ≤ start → start + pages_for total_len ≤ page_count (eng s) →
  Z.of_nat (length (concat pieces)) = total_len → 0 < total_len →
  ∃ s', direct_payload (start * 4096) (pages_for total_len * 4096) total_len pieces s = (Ok tt, s') ∧ wrote s s' start (pages_for total_len) pieces.
Proof.
  intros B Hs Hpc Hl Hpos. pose proof (pages_for_spec total_len Hpos) as Hpf. set (n := pages_for total_len) in *. unfold direct_payload.
  destruct (flush_spec s B) as (B'&Hv&Hf&He&Ho&Hp&Hd). set (s1 := flush_extent_buf s) in *.
  destruct (write_pieces_spec pieces (start * 4096) (eng s1) (bf_paged _ B')) as (G1&G2&G3&G4); [lia|rewrite Hp; lia|].
  assert (∀ e, paged e → page_count e = page_count (eng s) → data_start e = data_start (eng s) →
    file_bytes e = splice (Z.to_nat (start * 4096)) (padded n pieces) (view s) → wrote s (set_eng e s1) start n pieces) as Hend.
  { intros e E1 E2 E3 E4. pose proof B' as [_ C2 C3 C4]. unfold buf_end in C3. rewrite He in C3. cbn in C3.
    assert (buf_end (set_eng e s1) = extent_buf_off (ex s)) as Hbe by (unfold buf_end; cbn; rewrite He; cbn; lia).
    split; [split; [done|done|rewrite Hbe; cbn; lia|cbn; by rewrite E2; apply B]|done| | |].
    - unfold view at 1. cbn. by rewrite He, splice_nil.
    - intros len Hlen. by left.
    - intros st len Hlen _ _. by left. }
  pose proof (padded_app n pieces total_len Hl ltac:(lia)) as Hpad. pose proof (length_view s B) as Hlv. destruct (_ <=? _) eqn:Hle.
  - apply Z.leb_le in Hle. eexists. split; [done|]. apply Hend; [done|congruence|congruence|]. rewrite G1, Hf, Hpad.
    replace (n * 4096 - total_len) with 0 by lia. cbn. by rewrite app_nil_r.
  - rewrite (proj2 (Z.ltb_ge _ _)) by lia. cbn [eng set_eng].
    destruct (file_write_spec (replicate (Z.to_nat (n * 4096 - total_len)) 0) (start * 4096 + total_len) (write_pieces pieces (start * 4096) (eng s1)) G2)
      as (F1&F2&F3&F4); [lia|rewrite length_replicate; lia|].
    eexists. split; [done|]. apply Hend; [done|congruence|congruence|]. rewrite F1, G1, Hf, Hpad.
    replace (Z.to_nat (start * 4096 + total_len)) with (Z.to_nat (start * 4096) + length (concat pieces))%nat by lia.
    apply splice_splice. rewrite length_replicate. lia.
Qed.

Lemma write_extent_spec s start pieces total_len : buffered s → run_at s start total_len → Z.of_nat (length (concat pieces)) = total_len →
  ∃ s', write_extent_payload start (pages_for total_len) pieces total_len s = (Ok tt, s') ∧ wrote s s' start (pages_for total_len) pieces.
Proof.
  intros B [Ht [Hlo _] Hhi] Hl. pose proof (pages_for_spec total_len Ht). pose proof (bf_size _ B). unfold write_extent_payload.
  rewrite (proj2 (Z.leb_gt _ _)) by lia. rewrite (proj2 (Z.eqb_eq _ _)) by done. cbn [negb]. 
  assert (buffered (note_dirty start (pages_for total_len) s)) as B' by by destruct B.
  destruct (_ <=? _).
  - eexists. split; [done|]. destruct (coalesce_spec (note_dirty start (pages_for total_len) s) start (pages_for total_len) pieces B') as [W1 W2 W3 W4 W5]; [cbn [note_dirty set_ex eng]; lia..|].
    by split.
  - destruct (direct_spec (note_dirty start (pages_for total_len) s) start pieces total_len B') as (s'&Hd&[W1 W2 W3 W4 W5]); [cbn [note_dirty set_ex eng]; lia..|].
    exists s'. split; [done|]. by split.
Qed.

(** * The pool of runs *)

Definition run_end (r : PoolRun) : Z := run_start r + run_npages r.
Definition in_pool (pool : list PoolRun) (id : Z) : Prop := ∃ r, r ∈ pool ∧ run_start r ≤ id < run_end r.

(** Ascending, disjoint, no empty run. *)
Record pool_ok (pool : list PoolRun) : Prop := {
  po_sorted : StronglySorted (λ r r', run_end r ≤ run_start r') pool;
  po_pos : Forall (λ r, 0 < run_npages r) pool;
}.

(** Every page of [start, start + need) is in the pool. *)
Definition full (pool : list PoolRun) (need start : Z) : Prop := ∀ id, start ≤ id < start + need → in_pool pool id.

Lemma in_pool_cons r pool id : in_pool (r :: pool) id ↔ run_start r ≤ id < run_end r ∨ in_pool pool id.
Proof. unfold in_pool. set_solver. Qed.
Lemma in_pool_app a b id : in_pool (a ++ b) id ↔ in_pool a id ∨ in_pool b id.
Proof. unfold in_pool. set_solver. Qed.
Lemma in_pool_nil id : ¬ in_pool [] id.
Proof. unfold in_pool. set_solver. Qed.

Lemma pool_ok_cons r pool : pool_ok (r :: pool) ↔ 0 < run_npages r ∧ Forall (λ r', run_end r ≤ run_start r') pool ∧ pool_ok pool.
Proof.
  split.
  - intros [Hs Hp]. apply StronglySorted_inv in Hs as [? ?]. apply Forall_cons in Hp as [? ?]. by split_and!.
  - intros (?&?&[? ?]). by split; constructor.
Qed.

Lemma pool_ok_app a b : pool_ok (a ++ b) ↔ pool_ok a ∧ pool_ok b ∧ ∀ r r', r ∈ a → r' ∈ b → run_end r ≤ run_start r'.
Proof.
  induction a as [|x a IH]; cbn [app].
  - split; [|naive_solver]. intros ?. split_and!; [split; constructor|done|]. by intros r r' ?%elem_of_nil.
  - rewrite !pool_ok_cons, IH, Forall_app, (Forall_forall _ b). set_solver.
Qed.

Lemma pool_low w pool id : Forall (λ r, w ≤ run_start r) pool → in_pool pool id → w ≤ id.
Proof. intros Hf (r&Hr&?). rewrite Forall_forall in Hf. specialize (Hf r Hr). lia. Qed.

Lemma window_spec win need pool : ∀ covered, pool_ok pool → Forall (λ r, win + covered ≤ run_start r) pool →
  let '(c, n) := window win need covered pool in
  covered ≤ c ∧ (n ≤ length pool)%nat ∧ (∀ id, in_pool (take n pool) id ↔ win + covered ≤ id < win + c) ∧
  (c < need → Forall (λ r, win + c < run_start r) (drop n pool)).
Proof.
  induction pool as [|r pool IH]; intros covered Hok Hlow; cbn [window].
  { cbn. split_and!; [lia..| |constructor]. intros id. split; [by intros ?%in_pool_nil|lia]. }
  apply pool_ok_cons in Hok as (Hp&Hf&Hok). apply Forall_cons in Hlow as [Hr _]. destruct (_ && _) eqn:Hc.
  - apply andb_true_iff in Hc as [He%Z.eqb_eq _]. specialize (IH (covered + run_npages r) Hok). unfold run_end in Hf.
    destruct (window win need (covered + run_npages r) pool) as [c n]. destruct IH as (I1&I2&I3&I4).
    { eapply Forall_impl; [exact Hf|]. intros r' ?. cbn in *. lia. }
    cbn [length take drop]. split_and!; [lia..| |done]. intros id. rewrite in_pool_cons, I3. unfold run_end. lia.
  - cbn [take drop]. split_and!; [lia|lia| |].
    + intros id. split; [by intros ?%in_pool_nil|lia].
    + intros Hlt. rewrite (proj2 (Z.ltb_lt _ _)) in Hc by done. rewrite andb_true_r in Hc. apply Z.eqb_neq in Hc.
      constructor; [lia|]. eapply Forall_impl; [exact Hf|]. unfold run_end. intros r' ?. cbn in *. lia.
Qed.

(** What is left of the pool: each run the end of an old one, its provenance kept. *)
Definition pieces_of (pool' pool : list PoolRun) : Prop :=
  Forall (λ r', ∃ r, r ∈ pool ∧ run_from r' = run_from r ∧ run_start r ≤ run_start r' ∧ run_end r' = run_end r) pool'.

Lemma pieces_refl pool : pieces_of pool pool.
Proof. apply Forall_forall. intros r Hr. exists r. split_and!; by try lia. Qed.
Lemma pieces_sub a b c : pieces_of a b → b ⊆ c → pieces_of a c.
Proof. intros H Hs. eapply Forall_impl; [exact H|]. intros r' (r&Hr&?). exists r. split; [by apply Hs|done]. Qed.

Lemma consume_spec pool : ∀ win remaining, 0 ≤ remaining → pool_ok pool → Forall (λ r, win ≤ run_start r) pool → full pool remaining win →
  pool_ok (consume remaining pool) ∧ pieces_of (consume remaining pool) pool ∧
  ∀ id, in_pool (consume remaining pool) id ↔ in_pool pool id ∧ win + remaining ≤ id.
Proof.
  induction pool as [|r pool IH]; intros win remaining Hn Hok Hlow Hfull; cbn [consume].
  { split_and!; [done|constructor|]. intros id. split; [by intros ?%in_pool_nil|by intros [?%in_pool_nil _]]. }
  case_match eqn:Hrem.
  { apply Z.leb_le in Hrem. split_and!; [done|apply pieces_refl|]. intros id. split; [|tauto]. intros Hin. split; [done|].
    pose proof (pool_low _ _ _ Hlow Hin). lia. }
  apply Z.leb_gt in Hrem. apply pool_ok_cons in Hok as (Hp&Hf&Hok). apply Forall_cons in Hlow as [Hr Hlow].
  assert (run_start r = win) as Hw.
  { destruct (proj1 (in_pool_cons _ _ _) (Hfull win ltac:(lia))) as [?|?%(pool_low _ _ _ Hf)]; [lia|]. unfold run_end in *. lia. }
  unfold run_end in Hf. case_match eqn:Ht.
  - apply Z.eqb_eq in Ht. assert (Z.min remaining (run_npages r) = run_npages r) as Hm by lia. rewrite Hm in *.
    destruct (IH (win + run_npages r) (remaining - run_npages r)) as (I1&I2&I3); [lia|done|by rewrite <- Hw| |].
    + intros id Hid. destruct (proj1 (in_pool_cons _ _ _) (Hfull id ltac:(lia))) as [?|?]; [unfold run_end in *; lia|done].
    + split_and!; [done|eapply pieces_sub; [exact I2|set_solver]|]. intros id. rewrite I3, in_pool_cons. unfold run_end.
      split; [intros [? ?]; split; [by right|lia]|intros [[?|?] ?]; [lia|split; [done|lia]]].
  - apply Z.eqb_neq in Ht. assert (Z.min remaining (run_npages r) = remaining) as Hm by lia. rewrite Hm in *. split_and!.
    + apply pool_ok_cons. unfold run_end. cbn. split_and!; [lia| |done]. by replace (run_start r + remaining + (run_npages r - remaining)) with (run_start r + run_npages r) by lia.
    + constructor; [|eapply pieces_sub; [apply pieces_refl|set_solver]]. exists r. unfold run_end. cbn. split_and!; [set_solver|done|lia|lia].
    + intros id. rewrite !in_pool_cons. unfold run_end. cbn. split; [intros [?|Hin]|intros [[?|?] ?]]; [lia| |lia|by right].
      split; [by right|]. pose proof (pool_low _ _ _ Hf Hin). lia.
Qed.

(** The run handed out, and the pool without it. *)
Record taken_from (pool : list PoolRun) (need start : Z) (pool' : list PoolRun) : Prop := {
  tf_ok : pool_ok pool';
  tf_full : full pool need start;
  tf_pages : ∀ id, in_pool pool' id ↔ in_pool pool id ∧ ¬ start ≤ id < start + need;
  tf_pieces : pieces_of pool' pool;
  tf_first : ∀ a, full pool need a → start ≤ a;
}.

(** The pages after a block that is too short and ends in a gap. *)
Lemma full_skip need c w n pool a : 0 < need → c < need → Forall (λ r, w ≤ run_start r) pool →
  (∀ id, in_pool (take n pool) id ↔ w ≤ id < w + c) → Forall (λ r, w + c < run_start r) (drop n pool) → full pool need a → full (drop n pool) need a.
Proof.
  intros Hn Hc Hlow Hblock Hgap Hfull id Hid.
  assert (∀ i, in_pool pool i ↔ in_pool (take n pool) i ∨ in_pool (drop n pool) i) as Hsplit.
  { intros i. by rewrite <- in_pool_app, take_drop. }
  destruct (proj1 (Hsplit id) (Hfull id Hid)) as [Hb|?]; [|done]. apply Hblock in Hb. exfalso.
  pose proof (pool_low _ _ _ Hlow (Hfull a ltac:(lia))).
  destruct (proj1 (Hsplit (w + c)) (Hfull (w + c) ltac:(lia))) as [?%Hblock|(r&Hr&?)]; [lia|].
  rewrite Forall_forall in Hgap. specialize (Hgap r Hr). lia.
Qed.

Lemma pool_alloc_loop_spec need fuel : ∀ before pool, 0 < need → pool_ok (before ++ pool) → (length pool ≤ fuel)%nat →
  (∀ a, full (before ++ pool) need a → full pool need a) →
  match pool_alloc_loop fuel need before pool with
  | Some (start, pool') => taken_from (before ++ pool) need start pool'
  | None => ∀ a, ¬ full (before ++ pool) need a
  end.
Proof.
  assert (∀ before a, 0 < need → (∀ a, full (before ++ []) need a → full [] need a) → ¬ full (before ++ []) need a) as Hend.
  { intros before a Hn Hall Hf. apply (in_pool_nil a), (Hall a Hf). lia. }
  induction fuel as [|fuel IH]; intros before pool Hn Hok Hlen Hall; (destruct pool as [|r pool]; [cbn; intros a; by apply Hend|]); [cbn in Hlen; lia|].
  cbn [pool_alloc_loop]. pose proof Hok as Hok0. apply pool_ok_app in Hok as (Hb&Hp&Hbp).
  assert (Forall (λ r', run_start r + 0 ≤ run_start r') (r :: pool)) as Hlow.
  { apply pool_ok_cons in Hp as (Hr&Hf&_). constructor; [lia|]. eapply Forall_impl; [exact Hf|]. unfold run_end. intros ? ?. cbn in *. lia. }
  pose proof (window_spec (run_start r) need (r :: pool) 0 Hp Hlow) as Hw.
  assert ((0 < (window (run_start r) need 0 (r :: pool)).2)%nat) as Hn1.
  { cbn [window]. rewrite Z.add_0_r, Z.eqb_refl, (proj2 (Z.ltb_lt _ _)) by done. cbn [andb]. destruct (window _ _ _ pool). cbn. lia. }
  destruct (window (run_start r) need 0 (r :: pool)) as [c n]. cbn [snd] in Hn1. destruct Hw as (Hc&Hl&Hblock&Hgap). rewrite Z.add_0_r in *.
  destruct (need <=? c) eqn:Hnc.
  - apply Z.leb_le in Hnc. assert (full (r :: pool) need (run_start r)) as Hfull.
    { intros id Hid. rewrite <- (take_drop n (r :: pool)). apply in_pool_app. left. apply Hblock. lia. }
    destruct (consume_spec (r :: pool) (run_start r) need ltac:(lia) Hp Hlow Hfull) as (C1&C2&C3).
    assert (∀ r', r' ∈ before → run_end r' ≤ run_start r) as Hbr by (intros r' ?; apply Hbp; set_solver). split.
    + apply pool_ok_app. split_and!; [done|done|]. intros r1 r2 H1 H2. unfold pieces_of in C2. rewrite Forall_forall in C2.
      destruct (C2 r2 H2) as (r3&Hr3&_&?&_). specialize (Hbp r1 r3 H1 Hr3). lia.
    + intros id Hid. apply in_pool_app. right. by apply Hfull.
    + intros id. rewrite !in_pool_app, C3. split.
      * intros [(r1&Hr1&?)|[? ?]]; [|split; [by right|lia]]. specialize (Hbr r1 Hr1). split; [left; by exists r1|lia].
      * intros [[?|Hin] Hout]; [by left|right]. split; [done|]. pose proof (pool_low _ _ _ Hlow Hin). lia.
    + apply Forall_app. split; [eapply pieces_sub; [apply pieces_refl|set_solver]|eapply pieces_sub; [exact C2|set_solver]].
    + intros a Ha. apply (pool_low _ _ _ Hlow), (Hall a Ha). lia.
  - apply Z.leb_gt in Hnc. rewrite (Nat.max_l n 1) by lia. specialize (IH (before ++ take n (r :: pool)) (drop n (r :: pool)) Hn).
    rewrite <- app_assoc, take_drop in IH. apply IH; [done|rewrite length_drop; cbn [length] in *; lia|].
    intros a Ha. apply (full_skip need c (run_start r) n); auto.
Qed.

Lemma pool_alloc_spec need pool : 0 < need → pool_ok pool →
  match pool_alloc need pool with
  | Some (start, pool') => taken_from pool need start pool'
  | None => ∀ a, ¬ full pool need a
  end.
Proof. intros Hn Hok. apply (pool_alloc_loop_spec need (length pool) [] pool); auto. Qed.

(** * Several payloads *)

Definition blen (b : bytes) : Z := Z.of_nat (length b).

(** The value [b] stands at [start], for readers of the transaction and, once
    flushed, for readers of the file. *)
Record holds (s : WriteTxn) (start : Z) (b : bytes) : Prop := {
  ho_run : run_at s start (blen b);
  ho_whole : whole s start (blen b);
  ho_bytes : sub (Z.to_nat (start * 4096)) (length b) (view s) = b;
}.

Definition apart (start : Z) (b : bytes) (start' : Z) (b' : bytes) : Prop :=
  start + pages_for (blen b) ≤ start' ∨ start' + pages_for (blen b') ≤ start.

Lemma holds_read s start b : buffered s → holds s start b →
  read_extent start (blen b) s = Ok b ∧ read_extent_from_shm start (blen b) (eng (flush_extent_buf s)) = Ok b.
Proof.
  intros B [Hr Hw Hb]. split.
  - rewrite read_view by done. unfold blen. by rewrite Nat2Z.id, Hb.
  - destruct (flush_spec s B) as (B'&_&Hf&_&_&Hp&Hd). destruct Hr as [R1 R2 R3].
    rewrite read_file; [|apply B'|apply B'|done|by rewrite Hd|by rewrite Hp]. rewrite Hf. unfold blen. by rewrite Nat2Z.id, Hb.
Qed.

Lemma read_holds s start b : buffered s → run_at s start (blen b) → whole s start (blen b) → read_extent start (blen b) s = Ok b → holds s start b.
Proof. intros B Hr Hw Hb. split; [done..|]. rewrite read_view in Hb by done. unfold blen in Hb. rewrite Nat2Z.id in Hb. by injection Hb. Qed.

Lemma wrote_here s s' start pieces : buffered s → run_at s start (blen (concat pieces)) → wrote s s' start (pages_for (blen (concat pieces))) pieces →
  holds s' start (concat pieces).
Proof.
  intros B [R1 R2 R3] [W1 [W2 W2'] W3 W4 W5]. pose proof (pages_for_spec _ R1) as Hpf. split.
  - split; [done|by rewrite W2'|by rewrite W2].
  - apply W4. lia.
  - rewrite W3. unfold blen in *. pose proof (length_view s B).
    rewrite sub_splice_in by (unfold padded; rewrite ?length_resize; lia). rewrite Nat.sub_diag. unfold padded. rewrite resize_ge by lia.
    apply sub_app_exact.
Qed.

Lemma wrote_there s s' start pieces start' b : buffered s → run_at s start (blen (concat pieces)) →
  wrote s s' start (pages_for (blen (concat pieces))) pieces → apart start' b start (concat pieces) → holds s start' b → holds s' start' b.
Proof.
  intros B [R1 R2 R3] [W1 [W2 W2'] W3 W4 W5] Ha [[P1 P2 P3] Hw Hb]. unfold apart in Ha. split.
  - split; [done|by rewrite W2'|by rewrite W2].
  - by apply W5.
  - pose proof (pages_for_spec _ P1). pose proof (pages_for_spec _ R1). pose proof (length_view s B). unfold blen in *. rewrite W3.
    rewrite sub_splice_out; [done|..]; unfold padded; rewrite length_resize; lia.
Qed.

Fixpoint write_all (ws : list (Z * list bytes)) : M WriteTxn unit :=
  match ws with
  | [] => mret tt
  | (start, pieces) :: ws =>
      write_extent_payload start (pages_for (blen (concat pieces))) pieces (blen (concat pieces));; write_all ws
  end.

Lemma write_all_spec ws : ∀ s, buffered s → Forall (λ w, run_at s w.1 (blen (concat w.2))) ws →
  (∀ i j w w', ws !! i = Some w → ws !! j = Some w' → i ≠ j → apart w.1 (concat w.2) w'.1 (concat w'.2)) →
  ∃ s', write_all ws s = (Ok tt, s') ∧ buffered s' ∧ Forall (λ w, holds s' w.1 (concat w.2)) ws ∧
    ∀ start b, Forall (λ w, apart start b w.1 (concat w.2)) ws → holds s start b → holds s' start b.
Proof.
  induction ws as [|[start pieces] ws IH]; intros s B Hr Hd; cbn [write_all].
  { exists s. split_and!; [done|done|constructor|done]. }
  apply Forall_cons in Hr as [Hr Hrs]. cbn [fst snd] in Hr. destruct (write_extent_spec s start pieces _ B Hr eq_refl) as (s1&Hrun&W).
  destruct (IH s1) as (s'&Hrun'&B'&Hall&Hkeep).
  - apply W.
  - destruct W as [_ [W2 W2'] _ _ _]. eapply Forall_impl; [exact Hrs|]. intros w [P1 P2 P3]. split; [done|by rewrite W2'|by rewrite W2].
  - intros i j w w' Hi Hj Hij. by apply (Hd (S i) (S j)); [..|lia].
  - exists s'. split_and!.
    + unfold mbind, M_mbind. by rewrite Hrun.
    + done.
    + constructor; [|done]. apply Hkeep; [|exact (wrote_here s s1 start pieces B Hr W)]. apply Forall_lookup. intros i w Hi. by apply (Hd 0%nat (S i)).
    + intros st b Ha Hh. apply Forall_cons in Ha as [Ha Has]. apply Hkeep; [done|]. exact (wrote_there s s1 start pieces st b B Hr W Ha Hh).
Qed.
