(* ===== verification/ExtentTheorems.v ===== *)
(** What the extents of a write transaction guarantee. *)

From S2P Require Import Prelude BtreeNode PageStore Btree Cursor Txn TxnOps FreelistCodec Extent TxnDb TxnTheorems.
Local Open Scope Z_scope.

(** C10. Extent payloads read back. Payloads written one after another to runs
    that share no page are all accepted, whether they gather in the coalescing
    buffer, flush it, or go straight to the file. Afterwards each reads back as
    it was written, inside the transaction and, once the buffer is flushed as
    every commit does first, from the file; and every other extent of the data
    region that was readable as [b] still is. *)
Theorem extents_read_back s ws : buffered s → Forall (λ w, run_at s w.1 (blen (concat w.2))) ws →
  (∀ i j w w', ws !! i = Some w → ws !! j = Some w' → i ≠ j → apart w.1 (concat w.2) w'.1 (concat w'.2)) →
  ∃ s', write_all ws s = (Ok tt, s') ∧
    (∀ start pieces, (start, pieces) ∈ ws →
       read_extent start (blen (concat pieces)) s' = Ok (concat pieces) ∧
       read_extent_from_shm start (blen (concat pieces)) (eng (flush_extent_buf s')) = Ok (concat pieces)) ∧
    ∀ start b, Forall (λ w, apart start b w.1 (concat w.2)) ws → run_at s start (blen b) → whole s start (blen b) →
      read_extent start (blen b) s = Ok b → read_extent start (blen b) s' = Ok b.
Proof.
  intros B Hr Hd. destruct (write_all_spec ws s B Hr Hd) as (s'&Hrun&B'&Hall&Hkeep). exists s'. split_and!; [done|..].
  - intros start pieces Hin. rewrite Forall_forall in Hall. by apply holds_read, (Hall _ Hin).
  - intros start b Ha Hra Hw Hb. apply holds_read; [done|]. apply Hkeep; [done|]. by apply read_holds.
Qed.

(** Two small payloads that share the buffer, one that starts it again. *)
Definition three_payloads : list (Z * list bytes) := [(10, [[1; 2]; [3]]); (11, [replicate 5000 7]); (8, [[9]])].

Lemma extents_read_back_witness : ∃ s', write_all three_payloads (make_write_txn empty_db.1 empty_db.2 false) = (Ok tt, s') ∧
  read_extent 11 5000 s' = Ok (replicate 5000 7).
Proof.
  destruct (extents_read_back (make_write_txn empty_db.1 empty_db.2 false) three_payloads) as (s'&Hrun&Hall&_).
  - split; [apply Forall_replicate, length_replicate|apply Z.leb_le; vm_compute; reflexivity|apply Z.leb_le; vm_compute; reflexivity|apply Z.ltb_lt; vm_compute; reflexivity].
  - repeat constructor; apply Z.leb_le || apply Z.ltb_lt; vm_compute; reflexivity.
  - intros i j w w' Hi Hj Hij. unfold apart.
    destruct i as [|[|[|i]]]; cbn in Hi; try discriminate Hi; injection Hi as <-;
      (destruct j as [|[|[|j]]]; cbn in Hj; try discriminate Hj; injection Hj as <-); try done;
      unfold blen, pages_for; cbn [fst snd concat app length]; rewrite ?app_nil_r, ?length_replicate; vm_compute; by (left; discriminate) || (right; discriminate).
  - exists s'. split; [exact Hrun|]. destruct (Hall 11 [replicate 5000 7]) as [Hread _]; [exact (list_elem_of_further _ _ _ (list_elem_of_here _ _))|].
    unfold blen in Hread. cbn [concat] in Hread. rewrite app_nil_r, length_replicate in Hread. exact Hread.
Defined.

(** First fit. From a pool of disjoint runs in page order, [pool_alloc]
    hands out the lowest [need] pages that follow each other, also across
    adjacent runs of different origin: exactly these leave the pool, what stays
    of a run keeps its end and its origin, and the pool stays in order. It
    gives up only when no such pages exist. *)
Theorem pool_alloc_first_fit need pool : 0 < need → pool_ok pool →
  match pool_alloc need pool with
  | Some (start, pool') =>
      pool_ok pool' ∧ full pool need start ∧ (∀ a, full pool need a → start ≤ a) ∧
      (∀ id, in_pool pool' id ↔ in_pool pool id ∧ ¬ start ≤ id < start + need) ∧
      (∀ r', r' ∈ pool' → ∃ r, r ∈ pool ∧ run_from r' = run_from r ∧ run_start r ≤ run_start r' ∧ run_end r' = run_end r)
  | None => ∀ a, ¬ full pool need a
  end.
Proof.
  intros Hn Hok. pose proof (pool_alloc_spec need pool Hn Hok) as H. destruct (pool_alloc need pool) as [[start pool']|]; [|done].
  destruct H as [H1 H2 H3 H4 H5]. split_and!; [done..|]. unfold pieces_of in H4. by rewrite Forall_forall in H4.
Qed.

Lemma pool_alloc_first_fit_witness :
  let pool := [MkPoolRun 5 2 None; MkPoolRun 9 3 (Some 0%nat); MkPoolRun 12 4 (Some 1%nat)] in
  pool_alloc 5 pool = Some (9, [MkPoolRun 5 2 None; MkPoolRun 14 2 (Some 1%nat)]) ∧ full pool 5 9.
Proof.
  intros pool. split; [reflexivity|]. pose proof (pool_alloc_first_fit 5 pool) as H. apply H; [lia|].
  split; repeat constructor; unfold run_end; cbn; lia.
Defined.
