(* ===== verification/Savepoint.v ===== *)
(** Rolling back to a savepoint: what the journal of page images keeps, whatever
    happens between the savepoint and the rollback. *)

From S2P Require Import Prelude BtreeNode PageStore Btree Overflow KvMap BtreeRep BtreeInsert BtreeDelete BtreeSnapshot BtreeSpec BtreeView.
From S2P Require Import Cursor Txn TxnOps TxnPool TxnStore FreelistAccount FreelistPlan TxnCommit TxnRun.
Local Open Scope Z_scope.

(** * Images *)

(** The oldest image of a page in layers given newest first. *)
Fixpoint oldest (ls : list SpLayer) (id : Z) : option bytes :=
  match ls with
  | [] => None
  | l :: ls => match oldest ls id with Some img => Some img | None => images l !! id end
  end.

Lemma oldest_app a b id : oldest (a ++ b) id = match oldest b id with Some img => Some img | None => oldest a id end.
Proof. induction a as [|l a IH]; cbn; [by destruct (oldest b id)|]. rewrite IH. by destruct (oldest b id). Qed.

Lemma oldest_head l ls id : is_Some (images l !! id) → is_Some (oldest (l :: ls) id).
Proof. cbn. by destruct (oldest ls id). Qed.

Lemma oldest_in ls id img : oldest ls id = Some img → ∃ l, l ∈ ls ∧ images l !! id = Some img.
Proof.
  induction ls as [|l ls IH]; cbn; [done|]. destruct (oldest ls id) as [i|] eqn:Ho.
  - intros [= ->]. destruct (IH eq_refl) as (l'&?&?). exists l'. split; [by right|done].
  - intros ?. exists l. split; [left|done].
Qed.

Section Savepoint.
Context (content_hash : bytes → Z) (m0 : kvs) (Ffl : rset) (C : gset Z).
#[local] Instance sp_store : PageStore WriteTxn := txn_store content_hash.
Abbreviation protected := (protected content_hash m0 Ffl).
Abbreviation pool s := (reusable (pg s) ++ ids_of (undrawn m0 s)).

(** A transaction between two calls of the store, also after one that failed:
    the pages it wrote, those it may hand out and the committed pages [C] are
    apart. *)
Record tidy (s : WriteTxn) : Prop := {
  td_phase : in_freelist_op s = false;
  td_mode : in_place s = false;
  td_safe : safe content_hash m0 Ffl s;
  td_old : ∀ id, id ∈ C → protected s id;
  td_start : 0 < high_water (pg s) ≤ page_count (eng s);
  td_nodup : NoDup (pool s);
  td_range : ∀ id, id ∈ dirty (pg s) ∨ id ∈ pool s → 0 < id < high_water (pg s);
  td_disj : ∀ id, id ∈ dirty (pg s) → id ∉ pool s;
}.

Definition fixed (s s' : WriteTxn) : Prop := mapping_same s s' ∧ meta s' = meta s ∧ high_water (pg s) ≤ high_water (pg s').

#[global] Instance fixed_preorder : PreOrder fixed.
Proof.
  split; [by intros s; split|]. intros s1 s2 s3 [(A1&A2&A3&A4&A5&A6) [Am Ah]] [(B1&B2&B3&B4&B5&B6) [Bm Bh]].
  split; [|split; [congruence|lia]]. split_and!; [congruence..|auto|congruence|]. intros Hi. rewrite B6, A6; congruence.
Qed.

(** The savepoint taken in [s0] can still be reached from [s]: its layer is in
    the journal, every page that was dirty then is dirty now with the same bytes
    or has an image of them, and the images are of pages of the transaction. *)
Record undoable (s0 s : WriteTxn) : Prop := {
  ud_above : ∃ above, sp_layers s = above ++ sp_layers s0 ∧ epoch <$> last above = Some (sp_epoch_next s0) ∧
    (∀ id, id ∈ dirty (pg s0) →
       match oldest above id with
       | Some img => img = page_of s0 id
       | None => id ∈ dirty (pg s) ∧ page_of s id = page_of s0 id
       end) ∧
    (∀ l id img, l ∈ above → images l !! id = Some img → length img = PAGE_SIZE ∧ 0 < id < page_count (eng s) ∧ id ∉ C);
  ud_fixed : fixed s0 s;
  ud_old : ∀ id, id ∈ C → page_of s id = page_of s0 id;
}.

(** The journal under a change of the state: pages in [X] have an image in the
    newest layer. *)
Lemma undo_step (X : Z → Prop) s0 s s' : undoable s0 s → sp_layers s' = sp_layers s → fixed s s' →
  (∀ id, X id → ∃ l ls, sp_layers s = l :: ls ∧ is_Some (images l !! id)) →
  (∀ id, id ∈ C → page_of s' id = page_of s id) →
  (∀ id, id ∈ dirty (pg s) → X id ∨ id ∈ dirty (pg s') ∧ page_of s' id = page_of s id) → undoable s0 s'.
Proof.
  intros [(above&Hl&He&Hp&Hw) Hf Ho] Hl' Hf' HX HC Hd. split; [|by etrans|intros id Hid; rewrite HC by done; by apply Ho].
  exists above. rewrite Hl'. split_and!; [done|done| |].
  - intros id Hid. specialize (Hp id Hid). destruct (oldest above id) eqn:Hold; [done|]. destruct Hp as [Hdirty Hb].
    destruct (Hd id Hdirty) as [Hx|[? Hb']]; [|by split; [|congruence]]. exfalso. destruct (HX id Hx) as (l&ls&Hls&Himg).
    rewrite Hl in Hls. destruct above as [|l' above]; [done|]. cbn in Hls. injection Hls as -> _.
    destruct (oldest_head l above id Himg) as [? Hh]. congruence.
  - destruct Hf' as [(_&->&_) _]. done.
Qed.

(** ** Journaling a page *)

Lemma undo_journal s0 s id : tidy s → id ∈ dirty (pg s) → id < page_count (eng s) → undoable s0 s → undoable s0 (journal id s).
Proof.
  intros T Hd Hpc [(above&Hl&He&Hp&Hw) Hf Ho]. pose proof (td_range _ T id ltac:(auto)) as Hid.
  unfold journal. destruct (sp_layers s) as [|l ls] eqn:Hls; [by destruct above|]. rewrite shm_page_ok by lia.
  destruct (images l !! id) as [|] eqn:Himg; [split; [exists above; by rewrite Hls|done..]|].
  destruct above as [|l' above]; [done|]. cbn in Hl. injection Hl as <- ->.
  set (l1 := MkLayer (epoch l) (<[id := page_of s id]> (images l))).
  split; [|done|done]. exists (l1 :: above). split_and!; [done|by destruct above| |].
  - intros j Hj. specialize (Hp j Hj). cbn in Hp |- *. destruct (oldest above j); [done|].
    destruct (decide (j = id)) as [->|Hne].
    + rewrite lookup_insert_eq. rewrite Himg in Hp. by destruct Hp.
    + rewrite lookup_insert_ne by done. done.
  - intros lay j img Hin Hlay. apply elem_of_cons in Hin as [->|Hin]; [|by apply (Hw lay); [right|]].
    cbn in Hlay. apply lookup_insert_Some in Hlay as [[<- <-]|[_ Hlay]]; [|by apply (Hw l); [left|]].
    split_and!; [|lia|done|].
    + pose proof (sf_mem _ _ _ _ (td_safe _ T)) as Hm. rewrite Forall_forall in Hm. unfold page_of, page_count in *.
      destruct (lookup_lt_is_Some_2 (mem (eng s)) (Z.to_nat id)) as [p Hpg]; [lia|]. rewrite Hpg. apply Hm. by eapply list_elem_of_lookup_2.
    + intros Hc. by apply (pr_clean _ _ _ _ _ (td_old _ T id Hc)).
Qed.

Lemma journal_head s id : id < page_count (eng s) → 0 ≤ id → sp_layers s ≠ [] →
  ∃ l ls, sp_layers (journal id s) = l :: ls ∧ is_Some (images l !! id).
Proof.
  intros Hpc Hid Hne. unfold journal. destruct (sp_layers s) as [|l ls] eqn:Hls; [done|]. rewrite shm_page_ok by lia.
  destruct (images l !! id) eqn:Himg; [exists l, ls; by rewrite Himg|]. eexists _, ls. split; [done|]. cbn. by rewrite lookup_insert_eq.
Qed.

(** ** Tidy states *)

Lemma tidy_same s s' : eng s' = eng s → pg s' = pg s → in_freelist_op s' = in_freelist_op s → in_place s' = in_place s →
  bound_recomputed s' = bound_recomputed s → tidy s → tidy s'.
Proof.
  intros He Hp Ho Hi Hb [T1 T2 T3 T4 T0 T5 T6 T7]. assert (undrawn m0 s' = undrawn m0 s) as Hu by (unfold undrawn; by rewrite Hp).
  split; rewrite ?Ho, ?Hi, ?Hp, ?Hu, ?He; try done; [by eapply safe_same|]. intros id Hid. eapply protected_same; [..|by apply T4]; done.
Qed.

Lemma tidy_pool s s' : pool_step m0 s s' → tidy s → tidy s'.
Proof.
  intros P [T1 T2 T3 T4 T0 T5 T6 T7]. destruct (scrub_fields _ _ (pl_scrub _ _ _ P)) as ((Hm&_)&(Hd&_&Hh&_)&(Ho&_&Hi&_)&_).
  split; rewrite ?Ho, ?Hi, ?Hd, ?Hh; try done.
  - by eapply safe_pool.
  - intros id Hid. eapply protected_pool; [done|by apply T4].
  - unfold page_count in *. by rewrite Hm.
  - by rewrite (pl_perm _ _ _ P).
  - intros id. rewrite (pl_perm _ _ _ P). apply T6.
  - intros id Hid. rewrite (pl_perm _ _ _ P). by apply T7.
Qed.

Lemma safe_sets s d f r h : safe content_hash m0 Ffl s → high_water (pg s) ≤ h → (in_freelist_op s = false → ∀ j, Pg j ∈ Ffl → (j ∉ d) ∧ j ∉ r) →
  safe content_hash m0 Ffl (set_pg (set_high_water h (set_dirty d (set_freed f (set_reusable r (pg s))))) s).
Proof.
  intros [S1 S2 S3 S4] Hh Hfl. split; try done.
  - intros Hop. destruct (S3 Hop) as (n&Hlt&Ht). exists n. split; [done|]. unfold freelist_tree in *.
    by eapply (freelist_tree_alike _ s); [..|exact Ht].
  - cbn. intros Hop j Hj. destruct (S4 Hop j Hj) as (_&B2&B3). destruct (Hfl Hop j Hj) as [? ?]. rewrite elem_of_app in *.
    split_and!; [done|tauto|lia|lia].
Qed.

(** Pages of the transaction: not committed, not of the free list. *)
Definition mine (id : Z) : Prop := (id ∉ C) ∧ Pg id ∉ Ffl.

Lemma tidy_sets s d f r h : tidy s → high_water (pg s) ≤ h ≤ page_count (eng s) → NoDup (r ++ ids_of (undrawn m0 s)) →
  (∀ id, id ∈ d ∨ id ∈ r → 0 < id < h ∧ mine id) → (∀ id, id ∈ d → id ∉ r ++ ids_of (undrawn m0 s)) →
  tidy (set_pg (set_high_water h (set_dirty d (set_freed f (set_reusable r (pg s))))) s).
Proof.
  intros [T1 T2 T3 T4 T0 T5 T6 T7] Hh Hnd Hin Hdis.
  assert (∀ j, Pg j ∈ Ffl → (j ∉ d) ∧ j ∉ r) as Hfl by (intros j Hj; split; intros Hx; by destruct (Hin j ltac:(auto)) as (_&_&?)).
  split; try done.
  - apply safe_sets; [done|lia|done].
  - intros id Hid. apply protected_sets; [by apply T4|..|lia|done]; intros Hx; by destruct (Hin id ltac:(auto)) as (_&?&_).
  - change (0 < h ≤ page_count (eng s)). lia.
  - change (pool _) with (r ++ ids_of (undrawn m0 s)). cbn. intros id [Hx|Hx]; [by apply Hin; left|]. apply elem_of_app in Hx as [?|Hx]; [by apply Hin; right|].
    specialize (T6 id ltac:(rewrite elem_of_app; auto)). lia.
Qed.

Lemma tidy_page s j p : tidy s → length p = PAGE_SIZE → mine j → tidy (set_page j p s).
Proof.
  intros [T1 T2 T3 T4 T0 T5 T6 T7] Hp [Hc Hfl]. split; try done; [by apply safe_set| |by rewrite page_count_set]. intros id Hid.
  destruct (protected_set content_hash m0 Ffl s id j p) as [? _]; [by apply T4|by intros ->|done|done|done].
Qed.

Lemma mine_dirty s id : tidy s → id ∈ dirty (pg s) → mine id.
Proof.
  intros T Hd. split; intros Hx; [by apply (pr_clean _ _ _ _ _ (td_old _ T id Hx))|].
  by destruct (sf_own _ _ _ _ (td_safe _ T) (td_phase _ T) id Hx) as (?&_).
Qed.

Lemma mine_pool s id : tidy s → id ∈ reusable (pg s) → mine id.
Proof.
  intros T Hd. split; intros Hx; [by apply (pr_pool _ _ _ _ _ (td_old _ T id Hx))|].
  destruct (sf_own _ _ _ _ (td_safe _ T) (td_phase _ T) id Hx) as (_&Hn&_). apply Hn, elem_of_app. by left.
Qed.

Lemma mine_new s : tidy s → mine (high_water (pg s)).
Proof.
  intros T. split; intros Hx; [pose proof (pr_range _ _ _ _ _ (td_old _ T _ Hx)); lia|].
  destruct (sf_own _ _ _ _ (td_safe _ T) (td_phase _ T) _ Hx) as (_&_&?). lia.
Qed.

(** ** Allocation *)

(** What [alloc_id] leaves, and the page it hands out. *)
Record allocs_id (s : WriteTxn) (r : res Z) (s' : WriteTxn) : Prop := {
  ai_tidy : tidy s';
  ai_mem : mem (eng s') = mem (eng s) ∧ dirty (pg s') = dirty (pg s) ∧ sp_layers s' = sp_layers s;
  ai_high : high_water (pg s) ≤ high_water (pg s');
  ai_id : ∀ j, r = Ok j → tidy (mark_dirty j s') ∧ (j ∉ dirty (pg s)) ∧ mine j ∧ 0 < j;
}.

Lemma taken_pool s j rest : tidy s → reusable (pg s) = rest ++ [j] → allocs_id s (Ok j) (set_pg (set_reusable rest (pg s)) s).
Proof.
  intros T Hr. assert (j ∈ reusable (pg s) ∧ ∀ i, i ∈ rest → i ∈ reusable (pg s)) as [Hj Hrest].
  { rewrite Hr. split; [apply elem_of_app; right; constructor|]. intros i Hi. by apply elem_of_app; left. }
  pose proof (td_nodup _ T) as Hnd. rewrite Hr in Hnd.
  assert (NoDup (rest ++ ids_of (undrawn m0 s)) ∧ j ∉ rest ++ ids_of (undrawn m0 s)) as [Hnd' Hnj].
  { rewrite <- app_assoc in Hnd. apply NoDup_app in Hnd as (H1&H2&H3). cbn in H3. apply NoDup_cons in H3 as [H3 H4]. split.
    - apply NoDup_app. split_and!; [done| |done]. intros i Hi. specialize (H2 i Hi). set_solver.
    - rewrite elem_of_app. intros [Hx|Hx]; [|done]. specialize (H2 j Hx). set_solver. }
  assert (∀ d, (∀ id, id ∈ d → id = j ∨ id ∈ dirty (pg s)) →
    tidy (set_pg (set_high_water (high_water (pg s)) (set_dirty d (set_freed (freed (pg s)) (set_reusable rest (pg s))))) s)) as Hset.
  { intros d Hd. apply tidy_sets; [done|pose proof (td_start _ T); lia|done| |].
    - assert (∀ id, id ∈ dirty (pg s) ∨ id ∈ reusable (pg s) → 0 < id < high_water (pg s) ∧ mine id) as Hm.
      { intros id Hid. split; [apply (td_range _ T); rewrite elem_of_app; tauto|]. destruct Hid; [by eapply mine_dirty|by eapply mine_pool]. }
      intros id [[->|?]%Hd|?]; apply Hm; auto.
    - intros id [->|Hid]%Hd; [done|]. pose proof (td_disj _ T id Hid) as Hn. rewrite !elem_of_app in *. naive_solver. }
  split; [|done|done|].
  - pose proof (Hset (dirty (pg s)) ltac:(auto)) as Hx. exact Hx.
  - intros j' [= <-]. split_and!; [|intros Hd; apply (td_disj _ T j Hd), elem_of_app; by left|by eapply mine_pool|].
    + rewrite (mark_dirty_pages j _ s). apply (Hset ({[j]} ∪ dirty (pg s))). intros id [->%elem_of_singleton|?]%elem_of_union; auto.
    + apply (td_range _ T). rewrite elem_of_app. auto.
Qed.

Lemma taken_new s : tidy s → high_water (pg s) < page_count (eng s) → allocs_id s (Ok (high_water (pg s))) (set_pg (set_high_water (high_water (pg s) + 1) (pg s)) s).
Proof.
  intros T Hlt. set (j := high_water (pg s)) in *. pose proof (td_start _ T) as Hpos.
  assert (∀ d, (∀ id, id ∈ d → id = j ∨ id ∈ dirty (pg s)) →
    tidy (set_pg (set_high_water (j + 1) (set_dirty d (set_freed (freed (pg s)) (set_reusable (reusable (pg s)) (pg s))))) s)) as Hset.
  { intros d Hd. apply tidy_sets; [done|lia|apply T| |].
    - intros id Hid. assert (id = j ∨ id ∈ dirty (pg s) ∨ id ∈ reusable (pg s)) as [->|Hx] by (destruct Hid as [[?|?]%Hd|?]; auto).
      + split; [lia|by apply mine_new].
      + split; [|destruct Hx; [by eapply mine_dirty|by eapply mine_pool]]. assert (0 < id < j) by (apply (td_range _ T); rewrite elem_of_app; tauto). lia.
    - intros id [->|Hid]%Hd; [|by apply (td_disj _ T)]. intros Hx. pose proof (td_range _ T j ltac:(auto)). lia. }
  split; [|done|cbn; lia|].
  - pose proof (Hset (dirty (pg s)) ltac:(auto)) as Hx. exact Hx.
  - intros j' [= <-]. split_and!; [|intros Hd; pose proof (td_range _ T j ltac:(auto)); lia|by apply mine_new|lia].
    rewrite (mark_dirty_pages _ _ s). apply (Hset ({[j]} ∪ dirty (pg s))). intros id [->%elem_of_singleton|?]%elem_of_union; auto.
Qed.

Lemma alloc_id_tidy s r s' : tidy s → alloc_id content_hash s = (r, s') → allocs_id s r s'.
Proof.
  intros T Ha. destruct (alloc_id_steps _ _ _ _ _ _ (td_safe _ T) Ha) as [[P Hn]|(s1&P&Ht)];
    destruct (scrub_fields _ _ (pl_scrub _ _ _ P)) as ((Hm&_)&(Hd&_&Hh&_)&(_&_&_&_&Hl)&_); pose proof (tidy_pool _ _ P T) as T1.
  { split; [done|done|lia|]. intros j ->. by destruct (Hn j). }
  assert (allocs_id s1 r s') as [A1 (A2&A3&A4) A5 A6].
  { destruct (take_page_cases _ _ _ Ht) as [(j&rest&->&Hr&->)|(Hr&[(->&Hlt&->)|(->&_&->)])]; [by apply taken_pool|apply taken_new; [done|]; pose proof (ceiling_le s1); unfold page_count in *; lia|].
    by split. }
  split; [done|split_and!; congruence|lia|]. rewrite <- Hd. done.
Qed.

(** * Every operation of the store is logged *)

Definition logged (s s' : WriteTxn) : Prop := tidy s → tidy s' ∧ ∀ s0, undoable s0 s → undoable s0 s'.
#[global] Instance logged_preorder : PreOrder logged.
Proof. split; [by intros s|]. intros s1 s2 s3 H1 H2 T. destruct (H1 T) as [T2 U2]. destruct (H2 T2) as [T3 U3]. auto. Qed.

Lemma journal_same id s : ∃ l, journal id s = set_layers l s.
Proof. apply journal_layers. Qed.

Lemma tidy_layers l s : tidy s → tidy (set_layers l s).
Proof. by apply tidy_same. Qed.

Lemma fixed_page s j p : length p = PAGE_SIZE → fixed s (set_page j p s).
Proof.
  intros Hp. split; [|done]. unfold mapping_same. rewrite page_count_set. split_and!; try done. cbn. intros. by apply Forall_insert.
Qed.

Lemma undo_layers s0 s : undoable s0 s → sp_layers s ≠ [].
Proof. intros [(above&->&He&_) _ _]. by destruct above. Qed.

Lemma logged_put s id p p' : page_mut id s = Ok p → logged s (put id p' s).
Proof.
  unfold page_mut. case_bool_decide as Hd; [|done]. unfold shm_page. destruct (_ <=? _) eqn:Hpc; [done|]. apply Z.leb_gt in Hpc. intros _ T.
  pose proof (td_range _ T id ltac:(auto)) as Hid. pose proof (mine_dirty _ _ T Hd) as Hm.
  assert (tidy (journal id s)) as T1 by (destruct (journal_same id s) as [l ->]; by apply tidy_layers).
  unfold put. case_bool_decide as Hlen; [|split; [done|]; intros s0 U; by apply undo_journal].
  change (set_eng _ (journal id s)) with (set_eng (set_mem (<[Z.to_nat id:=p']>) (eng s)) (journal id s)).
  replace (set_eng _ (journal id s)) with (set_page id p' (journal id s)) by (by destruct (journal_same id s) as [l ->]).
  split; [by apply tidy_page|]. intros s0 U. pose proof (undo_journal s0 s id T Hd Hpc U) as U1.
  apply (undo_step (λ j, j = id) s0 (journal id s)); [done|done|by apply fixed_page|..].
  - intros j ->. apply journal_head; [done|lia|by eapply undo_layers].
  - intros j Hj. apply page_of_set_ne; [apply (pr_range _ _ _ _ _ (td_old _ T j Hj))|]. intros ->. by destruct Hm.
  - intros j Hj. destruct (decide (j = id)); [by left|right]. split; [done|]. apply page_of_set_ne; [|done].
    apply (td_range _ T1). auto.
Qed.

(** A change that leaves every dirty page dirty, with its bytes. *)
Lemma logged_grow s s' : sp_layers s' = sp_layers s → steady s s' → high_water (pg s) ≤ high_water (pg s') → dirty (pg s) ⊆ dirty (pg s') →
  (∀ id, id ∈ C ∨ id ∈ dirty (pg s) → page_of s' id = page_of s id) → tidy s' → tidy s' ∧ ∀ s0, undoable s0 s → undoable s0 s'.
Proof.
  intros Hl ((_&?&?&_)&?&?&?&?&?&_) Hh Hd Hp T'. split; [done|]. intros s0 U. apply (undo_step (λ _, False) s0 s); [done|done|by split|done|auto|].
  intros id Hid. right. split; [by apply Hd|auto].
Qed.

Lemma logged_raw : moves logged (alloc_raw content_hash).
Proof.
  intros s T. pose proof (steady_alloc_raw content_hash s) as Hs. unfold alloc_raw, mbind, M_mbind in *.
  destruct (alloc_id content_hash s) as [r s1] eqn:Ha. destruct (alloc_id_tidy s r s1 T Ha) as [A1 (A2&A3&A4) A5 A6].
  assert (∀ id, page_of s1 id = page_of s id) as Hpg by (intros id; unfold page_of; by rewrite A2).
  destruct r as [j|e|]; cbn [fst snd modify] in *; [|apply logged_grow; [done|done|done|by rewrite A3|auto|done]..].
  apply logged_grow; [done|done|done|cbn; rewrite A3; apply union_subseteq_r|intros; apply Hpg|exact (proj1 (A6 j eq_refl))].
Qed.

Lemma logged_alloc : moves logged (alloc content_hash).
Proof.
  intros s T. pose proof (steady_alloc content_hash s) as Hs. unfold alloc, alloc_raw, mbind, M_mbind, update in *.
  destruct (alloc_id content_hash s) as [r s1] eqn:Ha. destruct (alloc_id_tidy s r s1 T Ha) as [A1 (A2&A3&A4) A5 A6].
  assert (∀ id, page_of s1 id = page_of s id) as Hpg by (intros id; unfold page_of; by rewrite A2).
  destruct r as [j|e|]; cbn [fst snd modify] in *; [|apply logged_grow; [done|done|done|by rewrite A3|auto|done]..].
  destruct (A6 j eq_refl) as (T1&Hnd&Hm&Hj). unfold shm_write in *. cbn [set_pg eng mret M_mret] in *. change (set_pg _ s1) with (mark_dirty j s1) in *.
  assert (dirty (pg s) ⊆ {[j]} ∪ dirty (pg s1)) as Hsub by (rewrite A3; apply union_subseteq_r).
  destruct (_ <=? _); cbn [mbind res_mbind fst snd] in *; [apply logged_grow; [done|done|done|done|intros; apply Hpg|done]|].
  cbn [fst snd] in *. set (s2 := set_eng _ _) in *. assert (s2 = set_page j (replicate PAGE_SIZE 0) (mark_dirty j s1)) as Hs2 by reflexivity.
  clearbody s2. subst s2. unfold mret, M_mret in *. cbn [fst snd] in *. apply logged_grow; [done|done|done|done| |apply tidy_page; [done|apply length_replicate|done]].
  intros id Hid. rewrite page_of_set_ne; [apply Hpg| |].
  - destruct Hid as [Hid|Hid]; [apply (pr_range _ _ _ _ _ (td_old _ T id Hid))|apply (td_range _ T); auto].
  - intros ->. destruct Hid; [by destruct Hm|done].
Qed.

(** A page that [free] takes out of the dirty set has its image. *)
Lemma freed_image s j : tidy s → j ∈ dirty (pg s) → (needs_image j s = true → j < page_count (eng s)) → ∀ s0, undoable s0 s →
  undoable s0 (journal j s) ∧ ∃ l ls, sp_layers (journal j s) = l :: ls ∧ is_Some (images l !! j).
Proof.
  intros T Hd Hn s0 U. pose proof (td_range _ T j ltac:(auto)) as Hj. destruct (needs_image j s) eqn:Hni.
  - specialize (Hn eq_refl). split; [by apply undo_journal|]. apply journal_head; [done|lia|by eapply undo_layers].
  - unfold needs_image in Hni. rewrite (td_phase _ T), bool_decide_true in Hni by done. cbn [negb andb] in Hni.
    pose proof (undo_layers _ _ U) as Hne. destruct (sp_layers s) as [|l ls] eqn:Hls; [done|]. apply bool_decide_eq_false in Hni.
    assert (journal j s = s) as ->.
    { unfold journal. rewrite Hls. destruct (images l !! j); [by destruct (shm_page j (eng s))|done]. }
    split; [done|]. exists l, ls. split; [done|]. by apply not_eq_None_Some.
Qed.

Lemma logged_release s j : (needs_image j s = true → j < page_count (eng s)) → logged s (release j s).2.
Proof.
  intros Hn T. unfold release. rewrite (td_phase _ T). cbn [negb andb]. destruct (decide (j ∈ dirty (pg s))) as [Hd|Hd].
  - rewrite bool_decide_true by done. destruct (journal_same j s) as [l Hl]. pose proof (freed_image s j T Hd Hn) as Hu. rewrite Hl in Hu |- *.
    cbn [set_layers set_pg in_freelist_op pg set_dirty reusable]. rewrite (td_phase _ T). cbn [negb andb].
    rewrite bool_decide_false by (intros Hx; apply (td_disj _ T j Hd), elem_of_app; by left). cbn [snd].
    pose proof (td_nodup _ T) as Hnd. pose proof (td_disj _ T j Hd) as Hnj. split.
    + pose proof (tidy_sets (set_layers l s) (dirty (pg s) ∖ {[j]}) (freed (pg s)) (sorted_insert j (reusable (pg s))) (high_water (pg s))) as Hx.
      apply Hx; [by apply tidy_layers|split; [done|apply (td_start _ T)]|..].
      * rewrite sorted_insert_perm. cbn. constructor; done.
      * intros id Hid. assert (id ∈ dirty (pg s) ∨ id ∈ reusable (pg s)) as Hid'.
        { destruct Hid as [[? _]%elem_of_difference|Hid]; [by left|]. rewrite sorted_insert_perm, elem_of_cons in Hid. destruct Hid as [->|?]; auto. }
        split; [apply (td_range _ T); rewrite elem_of_app; tauto|]. destruct Hid'; [by eapply mine_dirty|by eapply mine_pool].
      * intros id [Hid Hne%not_elem_of_singleton]%elem_of_difference. rewrite sorted_insert_perm. cbn. rewrite elem_of_cons. intros [?|?]; [done|]. by apply (td_disj _ T id Hid).
    + intros s0 U. destruct (Hu s0 U) as [U1 (h&hs&Hh&Himg)]. apply (undo_step (λ i, i = j) s0 (set_layers l s)); [done|done|done| |done|].
      * intros i ->. by exists h, hs.
      * intros i Hi. destruct (decide (i = j)); [by left|right]. split; [|done]. cbn. by apply elem_of_difference; split; [|apply not_elem_of_singleton].
  - rewrite bool_decide_false by done. cbn [set_pg set_dirty in_freelist_op pg freed andb]. assert (dirty (pg s) ∖ {[j]} = dirty (pg s)) as Hdd by set_solver.
    assert (∀ f, let s' := set_pg (set_high_water (high_water (pg s)) (set_dirty (dirty (pg s) ∖ {[j]}) (set_freed f (set_reusable (reusable (pg s)) (pg s))))) s in
      tidy s' ∧ ∀ s0, undoable s0 s → undoable s0 s') as Hend.
    { intros f s'. split.
      - apply tidy_sets; [done|split; [done|apply T]|apply T| |].
        + rewrite Hdd. intros id Hid. split; [apply (td_range _ T); rewrite elem_of_app; tauto|]. destruct Hid; [by eapply mine_dirty|by eapply mine_pool].
        + rewrite Hdd. apply T.
      - intros s0 U. apply (undo_step (λ _, False) s0 s); try done. intros i Hi. right. split; [|done]. cbn. by rewrite Hdd. }
    case_bool_decide; [pose proof (Hend (freed (pg s))) as Hx|pose proof (Hend ({[j]} ∪ freed (pg s))) as Hx]; exact Hx.
Qed.

Lemma logged_free j : moves logged (free j).
Proof.
  intros s. unfold free, mbind, M_mbind, reads. destruct (needs_image j s) eqn:Hn.
  - unfold shm_page. destruct (_ <=? _) eqn:Hpc; [done|]. apply Z.leb_gt in Hpc. unfold res_of_option. destruct (mem (eng s) !! _); [|done].
    cbn [mbind res_mbind]. by apply logged_release.
  - cbn [mbind res_mbind]. by apply logged_release; rewrite Hn.
Qed.

#[global] Instance logged_respects : Respects logged.
Proof.
  split; [apply _|apply logged_put|apply logged_alloc|apply logged_raw|apply logged_free|..].
  - intros j s T. cbn. unfold adopt_inplace. rewrite (td_mode _ T). done.
  - intros e n s T. split; [by apply (tidy_same s)|]. intros s0 U. apply (undo_step (λ _, False) s0 s); try done. intros id Hid. by right.
  - by intros h s.
Qed.

(** The roots and what a statement notes beside the pages. *)
Lemma logged_heads s r T : logged s (set_heads r T s).
Proof.
  intros Ht. split.
  - pose proof Ht as [T1 T2 T3 T4 T0 T5 T6 T7]. split; try done.
    + destruct T3 as [S1 S2 S3 S4]. split; try done. intros Hop. destruct (S3 Hop) as (n&Hlt&Hf). exists n. split; [done|]. unfold freelist_tree in *.
      by eapply (freelist_tree_alike _ s); [..|exact Hf].
    + intros id Hid. by apply (old_kept_roots content_hash m0 Ffl s), T4.
  - intros s0 U. apply (undo_step (λ _, False) s0 s); try done. intros id Hid. by right.
Qed.

Lemma logged_scalars s c : logged s (set_scalars c s).
Proof.
  intros T. split; [by apply (tidy_same s)|]. intros s0 U. apply (undo_step (λ _, False) s0 s); try done. intros id Hid. by right.
Qed.
End Savepoint.
