(* ===== verification/Rollback.v ===== *)
(** [rollback_to_full] restores the transaction its savepoint was taken in, and
    [release_savepoint_full] keeps the outer savepoints reachable. *)

From S2P Require Import Prelude BtreeNode PageStore Btree Overflow KvMap BtreeRep BtreeInsert BtreeDelete BtreeSnapshot BtreeSpec BtreeView.
From S2P Require Import Cursor Txn TxnOps TxnPool TxnStore FreelistAccount FreelistPlan TxnCommit TxnRun Savepoint.
Local Open Scope Z_scope.

(** * Writing images back *)

Definition with_mem (mm : list bytes) (s : WriteTxn) : WriteTxn := set_eng (set_mem (λ _, mm) (eng s)) s.

Lemma write_images_spec l : ∀ s, NoDup l.*1 → Forall (λ x, 0 ≤ x.1 < page_count (eng s)) l →
  ∃ mm, write_images l s = (Ok tt, with_mem mm s) ∧ length mm = length (mem (eng s)) ∧
    (Forall (λ x, length x.2 = PAGE_SIZE) l → Forall (λ p, length p = PAGE_SIZE) (mem (eng s)) → Forall (λ p, length p = PAGE_SIZE) mm) ∧
    ∀ id, 0 ≤ id → page_of (with_mem mm s) id = default (page_of s id) (list_to_map (M := gmap Z bytes) l !! id).
Proof.
  induction l as [|[i img] l IH]; intros s Hnd Hf; cbn [write_images].
  { exists (mem (eng s)). split_and!; [|done|done|done]. unfold mret, M_mret, with_mem. by destruct s as [[]]. }
  apply NoDup_cons in Hnd as [Hi Hnd]. apply Forall_cons in Hf as [Hr Hf]. cbn [fst] in Hr, Hi.
  assert (update (λ s, e ← shm_write i img (eng s); Ok (set_eng e s)) s = (Ok tt, set_page i img s)) as Hu.
  { unfold update, shm_write. by rewrite (proj2 (Z.leb_gt _ _)) by lia. }
  destruct (IH (set_page i img s)) as (mm&Hrun&Hlen&Hall&Hpg); [done|by rewrite page_count_set|]. exists mm.
  split_and!.
  - unfold mbind at 1, M_mbind at 1. rewrite Hu. exact Hrun.
  - cbn in Hlen. by rewrite Hlen, length_insert.
  - intros [Hp Hps]%Forall_cons Hm. apply Hall; [done|]. cbn. by apply Forall_insert.
  - intros id Hid. change (with_mem mm s) with (with_mem mm (set_page i img s)) || (replace (page_of (with_mem mm s) id) with (page_of (with_mem mm (set_page i img s)) id) by done).
    rewrite Hpg by done. rewrite list_to_map_cons. destruct (decide (id = i)) as [->|Hne].
    + rewrite lookup_insert_eq, not_elem_of_list_to_map_1 by done. cbn. rewrite page_of_set; [done|lia].
    + rewrite lookup_insert_ne by done. f_equal. unfold page_of. cbn. rewrite list_lookup_insert_ne; [done|lia].
Qed.

Definition sized (m : gmap Z bytes) (s : WriteTxn) : Prop := map_Forall (λ id img, 0 ≤ id < page_count (eng s) ∧ length img = PAGE_SIZE) m.

Lemma write_map_spec m s : sized m s → Forall (λ p, length p = PAGE_SIZE) (mem (eng s)) →
  ∃ mm, write_images (map_to_list m) s = (Ok tt, with_mem mm s) ∧ length mm = length (mem (eng s)) ∧ Forall (λ p, length p = PAGE_SIZE) mm ∧
    ∀ id, 0 ≤ id → page_of (with_mem mm s) id = default (page_of s id) (m !! id).
Proof.
  intros Hs Hm. destruct (write_images_spec (map_to_list m) s) as (mm&Hrun&Hlen&Hall&Hpg).
  - apply NoDup_fst_map_to_list.
  - apply Forall_forall. intros [id img] Hin%elem_of_map_to_list. apply (Hs id img Hin).
  - exists mm. split_and!; [done|done| |].
    + apply Hall; [|done]. apply Forall_forall. intros [id img] Hin%elem_of_map_to_list. apply (Hs id img Hin).
    + intros id Hid. rewrite Hpg by done. by rewrite list_to_map_to_list.
Qed.

(** Layers above the target and the target itself, newest first. *)
Lemma replay_spec above : ∀ s l low, sp_layers s = above ++ l :: low → Forall (λ p, length p = PAGE_SIZE) (mem (eng s)) →
  (∀ lay, lay ∈ above ++ [l] → sized (images lay) s) →
  ∃ mm, replay (length above) s = (Ok tt, set_layers (MkLayer (epoch l) ∅ :: low) (with_mem mm s)) ∧ length mm = length (mem (eng s)) ∧
    Forall (λ p, length p = PAGE_SIZE) mm ∧ ∀ id, 0 ≤ id → page_of (with_mem mm s) id = default (page_of s id) (oldest (above ++ [l]) id).
Proof.
  induction above as [|h above IH]; intros s l low Hl Hm Hs; cbn [length replay app] in *; rewrite Hl.
  - destruct (write_map_spec (images l) (set_layers (MkLayer (epoch l) ∅ :: low) s)) as (mm&Hrun&Hlen&Hall&Hpg); [apply Hs; by left|done|].
    exists mm. split_and!; [|done|done|done]. unfold mbind, M_mbind, modify. cbn [snd fst]. exact Hrun.
  - destruct (write_map_spec (images h) (set_layers (above ++ l :: low) s)) as (mm&Hrun&Hlen&Hall&Hpg); [apply Hs; by left|done|].
    set (s1 := with_mem mm (set_layers (above ++ l :: low) s)) in *.
    destruct (IH s1 l low eq_refl Hall) as (mm'&Hrun'&Hlen'&Hall'&Hpg').
    { intros lay Hlay. specialize (Hs lay ltac:(by right)). unfold sized, page_count in *. cbn in *. by rewrite Hlen. }
    exists mm'. split_and!; [|cbn in Hlen'; by rewrite Hlen'|done|].
    + unfold mbind, M_mbind, modify. cbn [snd fst]. rewrite Hrun. exact Hrun'.
    + intros id Hid. specialize (Hpg' id Hid). specialize (Hpg id Hid). cbn [oldest].
      change (page_of (with_mem mm' s) id) with (page_of (with_mem mm' s1) id). rewrite Hpg'. destruct (oldest (above ++ [l]) id); [done|]. cbn [default]. exact Hpg.
Qed.

(** * Rolling back *)

Lemma StronglySorted_seqZ_le a n : StronglySorted Z.le (seqZ a n).
Proof.
  remember (Z.to_nat n) as k eqn:Hk. revert a n Hk. induction k as [|k IH]; intros a n Hk; [rewrite seqZ_nil by lia; constructor|].
  rewrite seqZ_cons by lia. constructor; [apply IH; lia|]. apply Forall_forall. intros x Hx%elem_of_seqZ. lia.
Qed.

Section Rollback.
Context (content_hash : bytes → Z) (R0 : Z → Prop) (m0 : kvs) (Ffl : rset) (C0 : gset Z).
Abbreviation C := (C0 ∪ pages_of Ffl).
Abbreviation in_txn := (in_txn content_hash R0 m0 Ffl C0).
Abbreviation tidy := (tidy content_hash m0 Ffl C).
Abbreviation undoable := (undoable C).
Abbreviation logged := (logged content_hash m0 Ffl C).

Lemma in_txn_tidy s : in_txn s → tidy s.
Proof.
  intros [O A Hold Hop _]. pose proof (to_bounds _ _ _ _ _ O) as Hb.
  assert (∀ id, in_data s id → 0 < id < high_water (pg s)) as Hin by (unfold in_data; lia).
  split; try done; [apply A|apply O|lia|apply O| |].
  - intros id [Hid|Hid]; [by apply Hin, (to_dirty _ _ _ _ _ O)|by apply Hin, (to_pool _ _ _ _ _ O)].
  - intros id Hid Hp. by destruct (to_pool _ _ _ _ _ O id Hp) as (_&?&_).
Qed.

(** The state in which the savepoint is open. *)
Definition pushed (s0 : WriteTxn) : WriteTxn := (savepoint_full s0).2.

Lemma pushed_logged s0 : tidy s0 → tidy (pushed s0) ∧ ∀ s, undoable s s0 → undoable s (pushed s0).
Proof.
  intros T. split; [by apply (tidy_same content_hash m0 Ffl _ s0)|]. intros s [(above&Hl&He&Hp&Hw) Hf Ho]. split; [|by etrans|done].
  exists (MkLayer (sp_epoch_next s0) ∅ :: above). split_and!.
  - cbn. by rewrite Hl.
  - destruct above as [|x above]; [done|]. done.
  - intros id Hid. specialize (Hp id Hid). cbn. destruct (oldest above id); [done|]. by rewrite lookup_empty.
  - intros l id img [->|Hin]%elem_of_cons Himg; [cbn in Himg; by rewrite lookup_empty in Himg|]. by apply (Hw l).
Qed.

Lemma pushed_undoable s0 : undoable s0 (pushed s0).
Proof.
  split; [|done|done]. exists [MkLayer (sp_epoch_next s0) ∅]. split_and!; [done|done| |].
  - intros id Hid. cbn. by rewrite lookup_empty.
  - intros l id img ->%list_elem_of_singleton. cbn. by rewrite lookup_empty.
Qed.

(** The pages of the savepoint, those minted since in the pool. *)
Definition rolled_pages (s0 s : WriteTxn) : Pages :=
  set_high_water (high_water (pg s))
    (set_reusable (reusable (pg s0) ++ seqZ (high_water (pg s0)) (high_water (pg s) - high_water (pg s0))) (pg s0)).

Record back (s0 s s' : WriteTxn) : Prop := {
  bk_pages : pg s' = rolled_pages s0 s;
  bk_ext : ex s' = ex s0;
  bk_layers : sp_layers s' = sp_layers (pushed s0);
  bk_bytes : ∀ id, id ∈ dirty (pg s0) ∨ id ∈ C → page_of s' id = page_of s0 id;
  bk_fixed : fixed s0 s' ∧ in_freelist_op s' = false;
  bk_high : high_water (pg s) ≤ page_count (eng s');
  bk_sized : Forall (λ p, length p = PAGE_SIZE) (mem (eng s'));
  bk_scalars : scalars s' = MkScalars (schema_gen_bump (scalars s0)) (written_tables (scalars s0)) (mutated_tables (scalars s)) (commit_point (scalars s0));
}.

(** No page was adopted in place. *)
Lemma drop_adopted_none s0 s : inplace_undo s = inplace_undo s0 → drop_adopted (savepoint_full s0).1 s = (Ok tt, s).
Proof.
  intros Hu. unfold drop_adopted. cbn [savepoint_full fst inplace_keys]. rewrite Hu.
  assert (filter (λ x : Z * bytes, x.1 ∉ dom (inplace_undo s0)) (inplace_undo s0) = ∅) as ->.
  { apply map_empty_filter_2. intros i x Hx Hn. cbn in Hn. by apply Hn, elem_of_dom. }
  rewrite map_to_list_empty. unfold mbind, M_mbind, modify. cbn. rewrite Hu. f_equal.
  rewrite map_filter_id by (intros i x Hx; by apply elem_of_dom). rewrite <- Hu. by destruct s.
Qed.

Lemma rollback_state s0 s : tidy s → undoable s0 s → in_place s0 = false → ∃ s', rollback_to_full (savepoint_full s0).1 s = (Ok tt, s') ∧ back s0 s s'.
Proof.
  intros T [(above&Hl&He&Hp&Hw) [(F1&F2&F3&F4&F5&F6) [Fm Fh]] Ho] Hi.
  destruct (decide (above = [])) as [->|Hne]; [done|]. destruct (exists_last Hne) as (top&l&->). rewrite last_snoc in He. cbn in He. injection He as He.
  unfold rollback_to_full. unfold mbind at 1, M_mbind at 1, reads, sp_layer_check. cbn [savepoint_full fst layer_depth layer_epoch].
  rewrite bool_decide_true.
  2:{ rewrite Hl, reverse_app, lookup_app_r by (by rewrite length_reverse). rewrite length_reverse, Nat.sub_diag, reverse_app. cbn. by rewrite He. }
  unfold mbind at 1, M_mbind at 1. cbn [modify base]. set (s1 := rollback_to (savepoint s0) s).
  pose proof (drop_adopted_none s0 s1 (F6 Hi)) as Hd. cbn [savepoint_full fst] in Hd.
  unfold mbind at 1, M_mbind at 1. rewrite Hd. unfold mbind, M_mbind. cbn [modify sp_ext sp_scalars]. set (s2 := set_ex (ex s0) _).
  rewrite <- app_assoc in Hl. assert (length (sp_layers s) - S (length (sp_layers s0)) = length top)%nat as Hn.
  { rewrite Hl, length_app. cbn. lia. }
  rewrite Hn. destruct (replay_spec top s2 l (sp_layers s0)) as (mm&Hrun&Hlen&Hall&Hpg).
  - exact Hl.
  - apply (sf_mem _ _ _ _ (td_safe _ _ _ _ _ T)).
  - intros lay Hlay id img Himg. destruct (Hw lay id img Hlay Himg) as (?&?&_). split; [change (page_count (eng s2)) with (page_count (eng s)); lia|done].
  - eexists. split; [exact Hrun|]. split; try done.
    + cbn. by rewrite He.
    + intros id Hid. change (page_of (with_mem mm s2) id = page_of s0 id). assert (0 ≤ id) as Hid0.
      { destruct Hid as [Hid|Hid]; [|pose proof (pr_range _ _ _ _ _ (td_old _ _ _ _ _ T id Hid)); lia].
        specialize (Hp id Hid). destruct (oldest (top ++ [l]) id) as [img|] eqn:Hold; [|pose proof (td_range _ _ _ _ _ T id ltac:(tauto)); lia].
        apply oldest_in in Hold as (lay&Hin&Himg). destruct (Hw lay id img Hin Himg) as (_&?&_). lia. }
      rewrite Hpg by done. change (page_of s2 id) with (page_of s id). destruct Hid as [Hid|Hid].
      * specialize (Hp id Hid). destruct (oldest (top ++ [l]) id); [done|]. by destruct Hp.
      * destruct (oldest (top ++ [l]) id) as [img|] eqn:Hold; [|by apply Ho]. apply oldest_in in Hold as (lay&Hin&Himg).
        by destruct (Hw lay id img Hin Himg) as (_&_&?).
    + split; [split; [|split; [done|exact Fh]]|apply T]. unfold mapping_same, page_count in *. cbn in *. rewrite Hlen. by split_and!.
    + pose proof (td_start _ _ _ _ _ T) as [_ Hhp]. unfold page_count in *. cbn in *. by rewrite Hlen.
Qed.

Section Back.
Context (s0 s s' : WriteTxn) (I : in_txn s0) (B : back s0 s s').

Lemma back_high : high_water (pg s0) ≤ high_water (pg s).
Proof. destruct (bk_fixed _ _ _ B) as [[_ [_ H]] _]. rewrite (bk_pages _ _ _ B) in H. done. Qed.

Lemma back_fields : (data_start (eng s') = data_start (eng s0) ∧ page_count (eng s') = page_count (eng s0) ∧ files (eng s') = files (eng s0)) ∧
  meta s' = meta s0 ∧ in_place s' = false ∧ dirty (pg s') = dirty (pg s0) ∧ freed (pg s') = freed (pg s0) ∧
  undrawn m0 s' = undrawn m0 s0 ∧ high_water (pg s') = high_water (pg s).
Proof.
  destruct (bk_fixed _ _ _ B) as [[(F1&F2&F3&_&F5&_) [Fm _]] _]. pose proof (bk_pages _ _ _ B) as Hp. split_and!; try done.
  - rewrite F5. apply (it_acct _ _ _ _ _ _ I).
  - by rewrite Hp.
  - by rewrite Hp.
  - unfold undrawn. by rewrite Hp.
  - by rewrite Hp.
Qed.

Lemma back_reusable id : id ∈ reusable (pg s') ↔ id ∈ reusable (pg s0) ∨ high_water (pg s0) ≤ id < high_water (pg s).
Proof. rewrite (bk_pages _ _ _ B). cbn. rewrite elem_of_app, elem_of_seqZ. pose proof back_high. split; intros [?|?]; auto; right; lia. Qed.

Lemma back_safe : safe content_hash m0 Ffl s'.
Proof.
  destruct back_fields as ((_&Hpc&Hf)&_&_&Hd&_&Hu&Hh). destruct (bk_fixed _ _ _ B) as [_ Hop]. pose proof (it_ok _ _ _ _ _ _ I) as O.
  pose proof (it_phase _ _ _ _ _ _ I) as Hop0. destruct (to_safe _ _ _ _ _ O) as [S1 S2 S3 S4]. pose proof back_high. split.
  - apply (bk_sized _ _ _ B).
  - done.
  - intros _. destruct (S3 Hop0) as (h&Hlt&Ht). exists h. split; [done|]. unfold freelist_tree in *. rewrite (bk_pages _ _ _ B).
    eapply (freelist_tree_alike _ s0); [done|done| |exact Ht]. intros id Hid. apply (bk_bytes _ _ _ B). right. apply elem_of_union_r, elem_of_own_pages, Hid.
  - intros _ id Hid. destruct (S4 Hop0 id Hid) as (A1&A2&A3). rewrite Hd, Hu, Hh, elem_of_app, back_reusable. rewrite elem_of_app in A2. split_and!; [done| |lia|lia].
    intros [[?|?]|?]; [tauto|lia|tauto].
Qed.

Lemma back_ok : txn_ok content_hash m0 Ffl C0 s'.
Proof.
  destruct back_fields as ((Hds&Hpc&Hf)&_&_&Hd&Hfr&Hu&Hh). destruct (bk_fixed _ _ _ B) as [_ Hop]. pose proof back_high as Hhw.
  pose proof (it_phase _ _ _ _ _ _ I) as Hop0. pose proof (it_ok _ _ _ _ _ _ I) as [O1 O2 O3 O4 O5 O6 O7 O8 O9 O10 O11 O12].
  assert (∀ id, in_data s0 id → in_data s' id ∧ id < high_water (pg s0)) as Hin by (unfold in_data; rewrite Hds, Hh; lia).
  assert (∀ id, id ∈ ids_of (undrawn m0 s0) ∨ id ∈ reusable (pg s0) → in_data s0 id) as Hpool by (intros id Hid; apply O7, elem_of_app; tauto).
  pose proof (bk_high _ _ _ B) as Hpcs. rewrite Hpc in Hpcs.
  split; rewrite ?Hds, ?Hpc, ?Hd, ?Hfr, ?Hu, ?Hh; try done.
  - apply back_safe.
  - lia.
  - intros id Hid. destruct (O3 id Hid) as [? ?]. split; [by apply Hin|done].
  - intros id Hid. by apply Hin, O4.
  - intros id Hid. by apply Hin, O5.
  - rewrite (bk_pages _ _ _ B). cbn. rewrite <- app_assoc. apply NoDup_app in O6 as (N1&N2&N3). apply NoDup_app. split_and!; [done| |].
    + intros id Hid. rewrite elem_of_app, elem_of_seqZ. intros [?|?]; [|by apply (N2 id)]. destruct (Hin id (Hpool id ltac:(auto))). lia.
    + apply NoDup_app. split_and!; [apply NoDup_seqZ| |done]. intros id Hid%elem_of_seqZ Hx. destruct (Hin id (Hpool id ltac:(auto))). lia.
  - intros id. rewrite elem_of_app, back_reusable. intros Hid. assert (id ∈ reusable (pg s0) ++ ids_of (undrawn m0 s0) ∨ high_water (pg s0) ≤ id < high_water (pg s)) as [Hx|Hx]
      by (rewrite elem_of_app; tauto).
    + destruct (O7 id Hx) as (?&?&?). split_and!; [by apply Hin|done|done].
    + split_and!; [unfold in_data; rewrite Hds, Hh; lia|intros Hy%O3; destruct Hy as [Hy _]|intros Hy%O5]; unfold in_data in Hy; lia.
  - rewrite (bk_pages _ _ _ B). cbn. apply StronglySorted_app. split_and!; [|done|].
    + intros x y Hx Hy%elem_of_seqZ. destruct (Hin x (Hpool x ltac:(auto))). lia.
    + apply StronglySorted_seqZ_le.
  - eapply Forall_impl; [exact O10|]. intros e. unfold entry_wf. by rewrite Hds, Hpc.
  - intros _ id Hid. destruct (O11 Hop0 id Hid) as (?&?). split; [by apply Hin|done].
  - by rewrite (bk_ext _ _ _ B).
Qed.

Lemma back_in_txn : in_txn s'.
Proof.
  destruct back_fields as ((Hds&Hpc&Hf)&Hm&Hi&Hd&Hfr&Hu&Hh). destruct (bk_fixed _ _ _ B) as [_ Hop]. pose proof back_high as Hhw.
  pose proof I as [O [A1 A2 A3 A4] Hold Hop0 Hwf]. pose proof back_ok as O'. split; [done| | |done|].
  - split; [apply back_safe|done| |].
    + intros id [Hlo Hhi]. rewrite Hd, Hfr, Hu, elem_of_app, back_reusable. rewrite Hds in Hlo. rewrite Hh in Hhi. specialize (A3 id). unfold in_data in A3.
      rewrite elem_of_app in A3. destruct (decide (id < high_water (pg s0))); [|right; right; left; left; right; lia]. destruct (A3 ltac:(lia)) as [?|[?|[[?|?]|[?|?]]]]; tauto.
    + unfold taken_ok, drawn in *. rewrite (bk_pages _ _ _ B). done.
  - intros id Hid. pose proof (Hold id Hid) as [P1 P2 P3 P4 P5 P6]. split; [apply back_safe|done|rewrite Hh; lia|by rewrite Hd| |].
    + rewrite back_reusable. intros [?|?]; [done|lia].
    + intros (e&He&Hine&_). rewrite Hu in He. assert (id ∈ ids_of (undrawn m0 s0)) as Hx.
      { apply elem_of_concat. exists (entry_ids e). split; [apply list_elem_of_fmap; by exists e|done]. }
      apply elem_of_union in Hid as [Hc|Hfl%elem_of_own_pages]; [by apply (to_undrawn _ _ _ _ _ O id)|].
      destruct (sf_own _ _ _ _ (to_safe _ _ _ _ _ O) Hop0 id Hfl) as (_&Hn&_). apply Hn, elem_of_app. by right.
  - rewrite Hm. destruct Hwf as [W1 W2 W3 W4]. split; try done. eapply Forall_impl; [exact W1|]. intros kv. unfold entry_wf. by rewrite Hds, Hpc.
Qed.

(** Older savepoints, and this one, can still be reached. *)
Lemma back_undoable s1 : undoable s1 (pushed s0) → undoable s1 s'.
Proof.
  intros U. destruct back_fields as (_&_&_&Hd&_). apply (undo_step _ (λ _, False) s1 (pushed s0)); [done|apply B|apply B|done|..].
  - intros id Hid. apply (bk_bytes _ _ _ B). auto.
  - intros id Hid. right. rewrite Hd. split; [done|]. apply (bk_bytes _ _ _ B). by left.
Qed.

(** Every tree of the savepoint is there again. *)
Lemma back_tree h r F D : @tree_map _ (txn_store content_hash) (txn_view content_hash m0 Ffl C0) content_hash s0 h r F D →
  @tree_map _ (txn_store content_hash) (txn_view content_hash m0 Ffl C0) content_hash s' h r F D.
Proof.
  intros Ht. destruct back_fields as ((Hds&Hpc&Hf)&_&_&Hd&Hfr&Hu&Hh). pose proof (it_ok _ _ _ _ _ _ I) as O.
  eapply (@tree_map_alike _ _ (txn_view content_hash m0 Ffl C0)); [exact Ht|].
  split; [|intros hs t; cbn; unfold read_external, read_external_payload; by rewrite Hf].
  intros q Hq. pose proof (@tree_map_live _ _ (txn_view content_hash m0 Ffl C0) content_hash _ _ _ _ _ q Ht Hq) as Hl.
  destruct q as [id|]; [|done]. destruct Hl as [Hid Hl]. pose proof (live_data _ _ _ _ _ _ O Hl) as Hin. unfold in_data in Hin. split.
  - split; [by rewrite Hpc|]. destruct Hl as [?|(?&?&?)]; [left; by rewrite Hd|right]. rewrite Hfr, back_reusable. split_and!; [done|done|]. intros [?|?]; [done|lia].
  - apply (bk_bytes _ _ _ B). destruct Hl as [?|(?&_)]; [by left|right]. by apply elem_of_union_l.
Qed.
End Back.

(** * Releasing *)

Lemma undoable_trans s0 s1 s2 : undoable s0 s1 → undoable s1 s2 → undoable s0 s2.
Proof.
  intros [(a&Hl&He&Hp&Hw) Hf Ho] [(b&Hl'&He'&Hp'&Hw') Hf' Ho']. split; [|by etrans|intros id Hid; by rewrite Ho', Ho].
  exists (b ++ a). split_and!.
  - by rewrite Hl', Hl, app_assoc.
  - rewrite last_app. by destruct (last a).
  - intros id Hid. specialize (Hp id Hid). rewrite oldest_app. destruct (oldest a id); [done|]. destruct Hp as [Hd Hb].
    specialize (Hp' id Hd). destruct (oldest b id); [congruence|]. destruct Hp'. split; [done|congruence].
  - intros l id img [Hin|Hin]%elem_of_app Himg; [by apply (Hw' l)|]. destruct (Hw l id img Hin Himg) as (?&?&?). destruct Hf' as [(_&->&_) _]. done.
Qed.

Lemma fold_images rel m id : foldl (λ m l, m ∪ images l) m (reverse rel) !! id = match m !! id with Some img => Some img | None => oldest rel id end.
Proof.
  induction rel as [|l rel IH]; [cbn; by destruct (m !! id)|]. rewrite reverse_cons, foldl_app. cbn. rewrite lookup_union, IH.
  destruct (m !! id); [by destruct (images l !! id)|]. destruct (oldest rel id); [by destruct (images l !! id)|by destruct (images l !! id)].
Qed.

(** The outcome: other layers, the same transaction. *)
Lemma release_state s0 s : undoable s0 s → in_txn s → ∃ ls, release_savepoint_full (savepoint_full s0).1 s = (Ok tt, set_layers ls s) ∧
  ∀ s1, undoable s1 s0 → undoable s1 (set_layers ls s).
Proof.
  intros U I. pose proof U as [(above&Hl&He&Hp&Hw) _ _]. unfold release_savepoint_full, sp_layer_check. cbn [savepoint_full fst layer_depth layer_epoch].
  destruct (decide (above = [])) as [->|Hne]; [done|]. destruct (exists_last Hne) as (top&l&Hab). rewrite Hab, last_snoc in He. cbn in He. injection He as He.
  rewrite bool_decide_true.
  2:{ rewrite Hl, Hab, reverse_app, lookup_app_r by (by rewrite length_reverse). rewrite length_reverse, Nat.sub_diag, reverse_app. cbn. by rewrite He. }
  assert (length (sp_layers s) - length (sp_layers s0) = length above)%nat as -> by (rewrite Hl, length_app; lia). rewrite Hl, drop_app_length.
  destruct (sp_layers s0) as [|parent ls] eqn:Hs0.
  - exists []. split.
    + unfold rejoin_parked. cbn. destruct (ru_idle _ (to_runs _ _ _ _ _ (it_ok _ _ _ _ _ _ I))) as (_&Hpk&_). rewrite Hpk. cbn.
      destruct s as [? ? ? x]. cbn in *. destruct x. cbn in *. by subst.
    + intros s1 [(a&Hl1&He1&_) _ _]. rewrite Hs0 in Hl1. by destruct a.
  - rewrite take_app_length. eexists. split; [done|]. intros s1 U1. pose proof (undoable_trans _ _ _ U1 U) as [_ Hf1 Ho1].
    pose proof U1 as [(a&Hl1&He1&Hp1&Hw1) _ _]. rewrite Hs0 in Hl1. destruct a as [|p a]; [done|]. cbn in Hl1. injection Hl1 as <- ->.
    set (merged := MkLayer _ _). assert (∀ id, oldest (merged :: a) id = oldest (above ++ parent :: a) id) as Hm.
    { intros id. rewrite oldest_app. cbn [oldest]. destruct (oldest a id); [done|]. cbn. rewrite fold_images. by destruct (images parent !! id). }
    split; [|done|done]. exists (merged :: a). split_and!; [done|by destruct a| |].
    + intros id Hid. rewrite Hm. specialize (Hp1 id Hid). rewrite oldest_app. destruct (oldest (parent :: a) id); [done|]. destruct Hp1 as [Hd Hb].
      specialize (Hp id Hd). destruct (oldest above id); [congruence|]. destruct Hp as [Hd2 Hb2]. split; [done|]. exact (eq_trans Hb2 Hb).
    + destruct U as [_ [(_&Hpc&_) _] _]. intros lay id img [->|Hin]%elem_of_cons Himg.
      * cbn in Himg. rewrite fold_images in Himg. change (page_count (eng (set_layers _ s))) with (page_count (eng s)). destruct (images parent !! id) as [i|] eqn:Hpar.
        { injection Himg as ->. rewrite Hpc. by apply (Hw1 parent); [left|]. }
        apply oldest_in in Himg as (lay&Hin&Himg). by apply (Hw lay).
      * change (page_count (eng (set_layers _ s))) with (page_count (eng s)). rewrite Hpc. by apply (Hw1 lay); [right|].
Qed.

(** The journal and its counter are no part of it. *)
Lemma in_txn_layers s ls n : in_txn s → in_txn (set_epoch n (set_layers ls s)).
Proof.
  intros [I1 I2 I3 I4 I5]. split; [by apply (ok_same _ _ _ _ s)|by apply (acct_same _ _ _ _ _ s)| |done|done]. intros id Hid. by apply (protected_same _ _ _ s), I3.
Qed.
End Rollback.
