(* ===== verification/Session.v ===== *)
(** The write session of [crates/mpedb/src/write_session.rs]: statements and
    named savepoints over one write transaction. *)

From S2P Require Import Prelude Text Btree Txn TxnOps.
Local Open Scope Z_scope.

(** The statement executor: the outcome, and whether a failed statement may have
    left part of its work. *)
Class Executor (Stmt : Type) := exec_stmt : Stmt → WriteTxn → (res unit * bool) * WriteTxn.

Record NamedSavepoint := MkNamed { sp_name : bytes; snap : TxnSavepointFull }.

(** [savepoints] is the Rust vector with its last element first. *)
Record WriteSession := MkSession { txn : WriteTxn; savepoints : list NamedSavepoint; poisoned : bool }.

Definition poisoned_err : Error := Unsupported "transaction poisoned by a partially-applied statement; rollback and retry".
Definition no_such_savepoint : Error := Bind "no such savepoint".

(** ** Savepoints by name *)

Definition open_savepoint (name : bytes) : M WriteSession unit := fun se =>
  let '(sp, s) := savepoint_full (txn se) in
  (Ok tt, MkSession s (MkNamed name sp :: savepoints se) (poisoned se)).

(** The innermost savepoint of that name, counted from the newest. *)
Fixpoint find_savepoint (name : bytes) (sps : list NamedSavepoint) : option nat :=
  match sps with
  | [] => None
  | sp :: sps => if eq_ignore_ascii_case (sp_name sp) name then Some O else S <$> find_savepoint name sps
  end.

Definition on_savepoint (name : bytes) (f : TxnSavepointFull → M WriteTxn unit) (keep : nat → nat) : M WriteSession unit := fun se =>
  match find_savepoint name (savepoints se) with
  | None => (Err no_such_savepoint, se)
  | Some n =>
      match savepoints se !! n with
      | None => (Panic, se)
      | Some sp =>
          match f (snap sp) (txn se) with
          | (Ok _, s) => (Ok tt, MkSession s (drop (keep n) (savepoints se)) (poisoned se))
          | (Err e, s) => (Err e, MkSession s (savepoints se) true)
          | (Panic, s) => (Panic, MkSession s (savepoints se) (poisoned se))
          end
      end
  end.
Definition release_savepoint (name : bytes) : M WriteSession unit := on_savepoint name release_savepoint_full S.
Definition rollback_to_savepoint (name : bytes) : M WriteSession unit := on_savepoint name rollback_to_full (λ n, n).

(** ** Statements *)

Section Statements.
Context {Stmt : Type} `{!Executor Stmt}.

Definition exec_prepared (st : Stmt) : M WriteSession unit := fun se =>
  let '((r, partial), s) := exec_stmt st (txn se) in
  (r, MkSession s (savepoints se) (poisoned se || match r with Err _ => partial | _ => false end)).

Fixpoint exec_rows (sts : list Stmt) : M WriteSession unit :=
  match sts with [] => mret tt | st :: sts => exec_prepared st;; exec_rows sts end.

(** The end of a scope under an anonymous savepoint. *)
Definition undo_scope (sp : TxnSavepointFull) : M WriteTxn unit := rollback_to_full sp;; release_savepoint_full sp.
Definition close_scope (sp : TxnSavepointFull) (se : WriteSession) : res unit * WriteSession :=
  match release_savepoint_full sp (txn se) with
  | (Ok _, s) => (Ok tt, MkSession s (savepoints se) (poisoned se))
  | (Err e, s) => (Err e, MkSession s (savepoints se) true)
  | (Panic, s) => (Panic, MkSession s (savepoints se) (poisoned se))
  end.

(** All rows or none: on an error the scope is rolled back and the error of the
    row returned. *)
Definition query_many (sts : list Stmt) : M WriteSession unit := fun se =>
  let '(sp, s) := savepoint_full (txn se) in
  match exec_rows sts (MkSession s (savepoints se) (poisoned se)) with
  | (Ok _, se) => close_scope sp se
  | (Err e, se) =>
      match undo_scope sp (txn se) with
      | (Ok _, s) => (Err e, MkSession s (savepoints se) false)
      | (Err _, s) => (Err e, MkSession s (savepoints se) true)
      | (Panic, s) => (Panic, MkSession s (savepoints se) (poisoned se))
      end
  | (Panic, se) => (Panic, se)
  end.

(** One statement; an error of the rollback hides that of the statement. *)
Definition execute_atomic (st : Stmt) : M WriteSession unit := fun se =>
  let '(sp, s) := savepoint_full (txn se) in
  match exec_prepared st (MkSession s (savepoints se) (poisoned se)) with
  | (Ok _, se) => close_scope sp se
  | (Err original, se) =>
      match undo_scope sp (txn se) with
      | (Ok _, s) => (Err original, MkSession s (savepoints se) false)
      | (Err error, s) => (Err error, MkSession s (savepoints se) true)
      | (Panic, s) => (Panic, MkSession s (savepoints se) (poisoned se))
      end
  | (Panic, se) => (Panic, se)
  end.

(** ** A request to the session *)

Inductive Request :=
  | Savepoint (name : bytes)
  | Release (name : bytes)
  | RollbackTo (name : bytes)
  | Execute (st : Stmt)
  | ExecuteAtomic (st : Stmt)
  | QueryMany (sts : list Stmt).

Definition request (q : Request) : M WriteSession unit := fun se =>
  if poisoned se then (Err poisoned_err, se)
  else match q with
       | Savepoint name => open_savepoint name se
       | Release name => release_savepoint name se
       | RollbackTo name => rollback_to_savepoint name se
       | Execute st => exec_prepared st se
       | ExecuteAtomic st => execute_atomic st se
       | QueryMany sts => query_many sts se
       end.

(** The answers to a script; the caller goes on after an error. *)
Fixpoint requests (qs : list Request) (se : WriteSession) : list (res unit) * WriteSession :=
  match qs with
  | [] => ([], se)
  | q :: qs =>
      let '(r, se) := request q se in
      let '(rs, se) := requests qs se in (r :: rs, se)
  end.

(** ** The end of the session *)

Definition session_commit (content_hash : bytes → Z) (fuel : nat) : M WriteSession Meta := fun se =>
  if poisoned se then (Err poisoned_err, MkSession (restore_inplace_undo (txn se)) (savepoints se) true)
  else let '(r, s) := commit content_hash fuel (txn se) in (r, MkSession s (savepoints se) false).
End Statements.

Arguments Request : clear implicits.
