(* ===== verification/SessionRefine.v ===== *)
(** A write session refines a stack of finite maps: each savepoint keeps the map
    as it was, a rollback returns to it, a release forgets it. *)

From S2P Require Import Prelude Text BtreeNode PageStore Btree Overflow KvMap BtreeRep BtreeInsert BtreeDelete BtreeSnapshot BtreeSpec BtreeView.
From S2P Require Import Cursor Txn TxnOps TxnPool TxnStore FreelistAccount FreelistPlan TxnCommit TxnRun Savepoint Rollback Session.
Local Open Scope Z_scope.

(** * What the session expects of the statement executor *)

(** A statement reaches the pages through the store, or notes things beside
    them; when it succeeds it changes the map the catalog holds as specified,
    and when it fails whole it leaves the map alone. *)
Class ExecutorLaws (Stmt : Type) `{!Executor Stmt} (content_hash : bytes → Z) (R0 : Z → Prop) := {
  stmt_ok : Stmt → Prop;
  stmt_fits : Z → Prop;
  stmt_spec : Stmt → gmap bytes bytes → gmap bytes bytes;
  stmt_logged m0 Ffl C st s : logged content_hash m0 Ffl C s (exec_stmt st s).2;
  stmt_pages st s : page_count (eng (exec_stmt st s).2) = page_count (eng s);
  stmt_open m0 Ffl C0 st s F D : open_txn content_hash R0 m0 Ffl C0 s F D → stmt_fits (page_count (eng s)) → stmt_ok st →
    match exec_stmt st s with
    | ((Ok _, _), s') => ∃ F', open_txn content_hash R0 m0 Ffl C0 s' F' (stmt_spec st D)
    | ((Err _, false), s') => ∃ F', open_txn content_hash R0 m0 Ffl C0 s' F' D
    | ((Err _, true), _) => True
    | ((Panic, _), _) => False
    end;
}.

(** * The abstract session *)

Abbreviation Map := (gmap bytes bytes).
Abbreviation SpecState := (Map * list (bytes * Map))%type.

Fixpoint spec_find (name : bytes) (ds : list (bytes * Map)) : option nat :=
  match ds with
  | [] => None
  | d :: ds => if eq_ignore_ascii_case d.1 name then Some O else S <$> spec_find name ds
  end.

Section Refine.
Context (content_hash : bytes → Z) (R0 : Z → Prop) {Stmt : Type} `{!Executor Stmt, !ExecutorLaws Stmt content_hash R0}.

Definition spec_ok (q : Request Stmt) (st : SpecState) : SpecState :=
  match q with
  | Savepoint name => (st.1, (name, st.1) :: st.2)
  | Release name => match spec_find name st.2 with Some n => (st.1, drop (S n) st.2) | None => st end
  | RollbackTo name =>
      match spec_find name st.2 with
      | Some n => match st.2 !! n with Some d => (d.2, drop n st.2) | None => st end
      | None => st
      end
  | Execute s | ExecuteAtomic s => (stmt_spec s st.1, st.2)
  | QueryMany ss => (foldl (λ D s, stmt_spec s D) st.1 ss, st.2)
  end.
(** An answer that is an error leaves the maps alone. *)
Definition spec_request (q : Request Stmt) (r : res unit) (st : SpecState) : SpecState :=
  match r with Ok _ => spec_ok q st | _ => st end.
Fixpoint spec_requests (qs : list (Request Stmt)) (rs : list (res unit)) (st : SpecState) : SpecState :=
  match qs, rs with q :: qs, r :: rs => spec_requests qs rs (spec_request q r st) | _, _ => st end.

(** Which answers are right: a savepoint is always taken, a name is found
    exactly when it is on the stack. *)
Definition answer_ok (q : Request Stmt) (r : res unit) (st : SpecState) : Prop :=
  match q with
  | Savepoint _ => r = Ok tt
  | Release name | RollbackTo name => r = match spec_find name st.2 with Some _ => Ok tt | None => Err no_such_savepoint end
  | _ => r ≠ Panic
  end.

Definition request_ok (q : Request Stmt) : Prop :=
  match q with Execute s | ExecuteAtomic s => stmt_ok s | QueryMany ss => Forall stmt_ok ss | _ => True end.

(** * Simulation *)

Section Sim.
Context (m0 : kvs) (Ffl : rset) (C0 : gset Z).
Abbreviation C := (C0 ∪ pages_of Ffl).
Abbreviation open_txn := (open_txn content_hash R0 m0 Ffl C0).
Abbreviation tidy := (tidy content_hash m0 Ffl C).
Abbreviation undoable := (undoable C).

(** Each name stands for a state that can be reached from the next one up. *)
Fixpoint stack_ok (s : WriteTxn) (sps : list NamedSavepoint) (ds : list (bytes * Map)) : Prop :=
  match sps, ds with
  | [], [] => True
  | sp :: sps, d :: ds =>
      sp_name sp = d.1 ∧ ∃ g F, snap sp = (savepoint_full g).1 ∧ undoable g s ∧ open_txn g F d.2 ∧ stack_ok g sps ds
  | _, _ => False
  end.

Record sim (se : WriteSession) (st : SpecState) : Prop := {
  sm_clean : poisoned se = false;
  sm_txn : ∃ F, open_txn (txn se) F st.1;
  sm_fits : stmt_fits (page_count (eng (txn se)));
  sm_stack : stack_ok (txn se) (savepoints se) st.2;
}.

Lemma open_tidy s F D : open_txn s F D → tidy s.
Proof. intros [I _ _]. by eapply in_txn_tidy. Qed.

Lemma stack_moves s s' sps ds : (∀ g, undoable g s → undoable g s') → stack_ok s sps ds → stack_ok s' sps ds.
Proof. destruct sps as [|sp sps], ds as [|d ds]; try done. intros Hm (Hn&g&F&Hs&Hu&Ho&Hr). split; [done|]. exists g, F. auto. Qed.

Lemma stack_find s name : ∀ sps ds, stack_ok s sps ds → find_savepoint name sps = spec_find name ds.
Proof.
  intros sps. revert s. induction sps as [|sp sps IH]; intros s [|d ds]; try done. cbn [stack_ok find_savepoint spec_find]. intros (->&g&F&_&_&_&Hr).
  by rewrite (IH g ds Hr).
Qed.

(** A savepoint below the top is reached as well. *)
Lemma stack_lookup n : ∀ s sps ds d, stack_ok s sps ds → ds !! n = Some d → ∃ sp g F, sps !! n = Some sp ∧ sp_name sp = d.1 ∧
  snap sp = (savepoint_full g).1 ∧ undoable g s ∧ open_txn g F d.2 ∧ stack_ok g (drop (S n) sps) (drop (S n) ds).
Proof.
  induction n as [|n IH]; intros s [|sp sps] [|d0 ds] d; try done; cbn [stack_ok lookup list_lookup]; intros (Hn&g&F&Hs&Hu&Ho&Hr) Hd.
  - injection Hd as <-. exists sp, g, F. by rewrite !drop_0 || cbn; split_and!.
  - destruct (IH g sps ds d Hr Hd) as (sp'&g'&F'&H1&H2&H3&H4&H5&H6). exists sp', g', F'. split_and!; try done. by eapply undoable_trans.
Qed.

Lemma spec_find_lookup name ds n : spec_find name ds = Some n → ∃ d, ds !! n = Some d.
Proof.
  revert n. induction ds as [|d ds IH]; cbn; [done|]. destruct (eq_ignore_ascii_case d.1 name); intros n; [intros [= <-]; by exists d|].
  destruct (spec_find name ds) as [k|]; [|done]. intros [= <-]. by apply (IH k).
Qed.

(** ** Opening, rolling back, releasing *)

Lemma open_layers ls n s F D : open_txn s F D → open_txn (set_epoch n (set_layers ls s)) F D.
Proof.
  intros [I [h Ht] Hs]. split; [by apply in_txn_layers|exists h|done].
  eapply (@tree_map_alike _ _ (txn_view content_hash m0 Ffl C0)); [exact Ht|]. split; [|done]. intros q Hq.
  pose proof (@tree_map_live _ _ (txn_view content_hash m0 Ffl C0) content_hash _ _ _ _ _ q Ht Hq) as Hl. by destruct q.
Qed.

(** A rollback, from wherever the journal still reaches. *)
Lemma rollback_open g s F D : open_txn g F D → tidy s → undoable g s →
  ∃ s', rollback_to_full (savepoint_full g).1 s = (Ok tt, s') ∧ open_txn s' F D ∧ page_count (eng s') = page_count (eng g) ∧
    ∀ s1, undoable s1 (pushed g) → undoable s1 s'.
Proof.
  intros [I [h Ht] Hs] T U. destruct (rollback_state content_hash R0 m0 Ffl C0 g s T U) as (s'&Hrun&B); [apply (it_acct _ _ _ _ _ _ I)|].
  exists s'. split; [done|]. split; [split|split].
  - by eapply back_in_txn.
  - exists h. rewrite (bk_pages _ _ _ _ _ B). by eapply back_tree.
  - done.
  - by apply (bk_fixed _ _ _ _ _ B).
  - intros s1. by eapply back_undoable.
Qed.

Lemma release_open g s F D : open_txn s F D → undoable g s →
  ∃ s', release_savepoint_full (savepoint_full g).1 s = (Ok tt, s') ∧ open_txn s' F D ∧ page_count (eng s') = page_count (eng s) ∧
    ∀ s1, undoable s1 g → undoable s1 s'.
Proof.
  intros Ho U. destruct (release_state content_hash R0 m0 Ffl C0 g s U) as (ls&Hrun&Hk); [apply Ho|]. exists (set_layers ls s).
  split_and!; [done|by apply (open_layers ls (sp_epoch_next s))|done|done].
Qed.

Lemma sim_savepoint name se st : sim se st → ∃ se', open_savepoint name se = (Ok tt, se') ∧ sim se' (spec_ok (Savepoint name) st).
Proof.
  intros [Hp [F Ho] Hf Hst]. eexists. split; [done|]. split; cbn [poisoned txn savepoints spec_ok fst snd]; [done| |done|].
  - exists F. by apply (open_layers (MkLayer (sp_epoch_next (txn se)) ∅ :: sp_layers (txn se)) (to_uint 64 (sp_epoch_next (txn se) + 1))).
  - split; [done|]. exists (txn se), F. split_and!; [done|apply pushed_undoable|done|done].
Qed.

Lemma sim_rollback name se st : sim se st → ∃ r se', rollback_to_savepoint name se = (r, se') ∧ answer_ok (RollbackTo name) r st ∧
  sim se' (spec_request (RollbackTo name) r st).
Proof.
  intros S. pose proof S as [Hp [F Ho] Hf Hst]. unfold rollback_to_savepoint, on_savepoint. rewrite (stack_find _ name _ _ Hst). cbn [answer_ok].
  destruct (spec_find name st.2) as [n|] eqn:Hn; [|by eexists _, _]. destruct (spec_find_lookup _ _ _ Hn) as [d Hd].
  destruct (stack_lookup n _ _ _ d Hst Hd) as (sp&g&Fg&Hsp&Hname&Hsn&U&Hg&Hrest). rewrite Hsp, Hsn.
  destruct (rollback_open g (txn se) Fg d.2 Hg (open_tidy _ _ _ Ho) U) as (s'&->&Ho'&Hpc&Hk).
  eexists _, _. split; [done|]. split; [done|]. cbn [spec_request spec_ok]. rewrite Hn, Hd. split; cbn [poisoned txn savepoints fst snd].
  - done.
  - by exists Fg.
  - rewrite Hpc. destruct U as [_ [(_&Hpc'&_) _] _]. by rewrite <- Hpc'.
  - rewrite (drop_S _ _ _ Hsp), (drop_S _ _ _ Hd). split; [done|]. exists g, Fg. split_and!; [done|apply Hk, pushed_undoable|done|done].
Qed.

Lemma sim_release name se st : sim se st → ∃ r se', release_savepoint name se = (r, se') ∧ answer_ok (Release name) r st ∧
  sim se' (spec_request (Release name) r st).
Proof.
  intros S. pose proof S as [Hp [F Ho] Hf Hst]. unfold release_savepoint, on_savepoint. rewrite (stack_find _ name _ _ Hst). cbn [answer_ok].
  destruct (spec_find name st.2) as [n|] eqn:Hn; [|by eexists _, _]. destruct (spec_find_lookup _ _ _ Hn) as [d Hd].
  destruct (stack_lookup n _ _ _ d Hst Hd) as (sp&g&Fg&Hsp&Hname&Hsn&U&Hg&Hrest). rewrite Hsp, Hsn.
  destruct (release_open g (txn se) F st.1 Ho U) as (s'&->&Ho'&Hpc&Hk).
  eexists _, _. split; [done|]. split; [done|]. cbn [spec_request spec_ok]. rewrite Hn. split; cbn [poisoned txn savepoints fst snd].
  - done.
  - by exists F.
  - by rewrite Hpc.
  - by eapply stack_moves.
Qed.

(** ** Statements *)

Lemma sim_execute stm se st : sim se st → stmt_ok stm → ∃ r se', exec_prepared stm se = (r, se') ∧ r ≠ Panic ∧
  (poisoned se' = true ∧ (∃ e, r = Err e) ∨ sim se' (spec_request (Execute stm) r st)).
Proof.
  intros [Hp [F Ho] Hf Hst] Hok. pose proof (stmt_open m0 Ffl C0 stm _ _ _ Ho Hf Hok) as Hx.
  destruct (stmt_logged m0 Ffl C stm (txn se) (open_tidy _ _ _ Ho)) as [_ Hk]. pose proof (stmt_pages stm (txn se)) as Hpc.
  unfold exec_prepared. destruct (exec_stmt stm (txn se)) as [[r partial] s']. cbn [snd] in *. rewrite Hp.
  destruct r as [[]|e|]; [|destruct partial|done]; (eexists _, _; split; [done|]; split; [done|]).
  - right. split; cbn; [done|done|by rewrite Hpc|by eapply stack_moves].
  - left. split; [done|by eexists].
  - right. split; cbn; [done|done|by rewrite Hpc|by eapply stack_moves].
Qed.

(** What a body of statements does, run in a clean session. *)
Record body_run (se : WriteSession) (r : res unit) (se' : WriteSession) (D' : Map) : Prop := {
  br_names : savepoints se' = savepoints se;
  br_pages : page_count (eng (txn se')) = page_count (eng (txn se));
  br_logged : logged content_hash m0 Ffl C (txn se) (txn se');
  br_panic : r ≠ Panic;
  br_done : r = Ok tt → poisoned se' = false ∧ ∃ F', open_txn (txn se') F' D';
}.

Lemma exec_prepared_run stm se F D : open_txn (txn se) F D → poisoned se = false → stmt_fits (page_count (eng (txn se))) → stmt_ok stm →
  ∃ r se', exec_prepared stm se = (r, se') ∧ body_run se r se' (stmt_spec stm D).
Proof.
  intros Ho Hp Hf Hok. pose proof (stmt_open m0 Ffl C0 stm _ _ _ Ho Hf Hok) as Hx. pose proof (stmt_logged m0 Ffl C stm (txn se)) as Hk.
  pose proof (stmt_pages stm (txn se)) as Hpc. unfold exec_prepared. destruct (exec_stmt stm (txn se)) as [[r partial] s']. cbn [snd] in *. rewrite Hp.
  eexists r, _. split; [done|]. split; cbn; [done|done|done|by intros ->|by intros ->].
Qed.

Lemma exec_rows_run sts : ∀ se F D, open_txn (txn se) F D → poisoned se = false → stmt_fits (page_count (eng (txn se))) → Forall stmt_ok sts →
  ∃ r se', exec_rows sts se = (r, se') ∧ body_run se r se' (foldl (λ D s, stmt_spec s D) D sts).
Proof.
  induction sts as [|stm sts IH]; intros se F D Ho Hp Hf Hok; cbn [exec_rows foldl].
  { eexists _, _. split; [done|]. split; [done|done|by intros ?|done|]. intros _. split; [done|]. by exists F. }
  apply Forall_cons in Hok as [Hok Hoks]. destruct (exec_prepared_run stm se F D Ho Hp Hf Hok) as (r&se1&Hrun&[R1 R2 R3 R4 R5]).
  unfold mbind, M_mbind. rewrite Hrun. destruct r as [[]|e|]; [|eexists _, _; split; [done|by split]|done].
  destruct (R5 eq_refl) as (Hp1&F1&Ho1). destruct (IH se1 F1 _ Ho1 Hp1 ltac:(by rewrite R2) Hoks) as (r'&se'&Hrun'&[Q1 Q2 Q3 Q4 Q5]).
  exists r', se'. split; [done|]. split; [by rewrite Q1|by rewrite Q2|by etrans|done|done].
Qed.

(** ** Scopes *)

Section Scope.
Context (se : WriteSession) (st : SpecState) (F : rset) (S : sim se st) (Ho : open_txn (txn se) F st.1).
Abbreviation opened := (MkSession (pushed (txn se)) (savepoints se) (poisoned se)).

Lemma opened_reach r se' D' : body_run opened r se' D' → tidy (txn se') ∧ undoable (txn se) (txn se').
Proof.
  intros [_ _ Hk _ _]. destruct (pushed_logged content_hash m0 Ffl C0 (txn se) (open_tidy _ _ _ Ho)) as [T _]. destruct (Hk T) as [? Hu].
  split; [done|]. apply Hu, pushed_undoable.
Qed.

Lemma scope_closed se' D' : body_run opened (Ok tt) se' D' → ∃ se2, close_scope (savepoint_full (txn se)).1 se' = (Ok tt, se2) ∧ sim se2 (D', st.2).
Proof.
  intros B. destruct (opened_reach _ _ _ B) as [T U]. destruct B as [B1 B2 B3 B4 B5]. destruct (B5 eq_refl) as (Hp&F'&Ho').
  destruct (release_open _ _ _ _ Ho' U) as (s'&Hrun&Ho2&Hpc&Hk). unfold close_scope. rewrite Hrun. eexists. split; [done|].
  split; cbn; [done|by exists F'| |].
  - rewrite Hpc, B2. apply S.
  - rewrite B1. eapply stack_moves; [exact Hk|apply S].
Qed.

Lemma scope_undone r se' D' : body_run opened r se' D' →
  ∃ s', undo_scope (savepoint_full (txn se)).1 (txn se') = (Ok tt, s') ∧ sim (MkSession s' (savepoints se') false) st.
Proof.
  intros B. destruct (opened_reach _ _ _ B) as [T U]. destruct B as [B1 B2 _ _ _].
  destruct (rollback_open (txn se) (txn se') F st.1 Ho T U) as (s1&Hrun&Ho1&Hpc1&Hk1).
  destruct (release_open (txn se) s1 F st.1 Ho1) as (s2&Hrun2&Ho2&Hpc2&Hk2); [apply Hk1, pushed_undoable|].
  exists s2. split; [unfold undo_scope, mbind, M_mbind; by rewrite Hrun|]. split; cbn; [done|by exists F| |].
  - rewrite Hpc2, Hpc1. apply S.
  - rewrite B1. eapply stack_moves; [exact Hk2|apply S].
Qed.
End Scope.

Lemma sim_many sts se st : sim se st → Forall stmt_ok sts → ∃ r se', query_many sts se = (r, se') ∧ r ≠ Panic ∧ sim se' (spec_request (QueryMany sts) r st).
Proof.
  intros S Hok. pose proof S as [Hp [F Ho] Hf _]. unfold query_many. rewrite (surjective_pairing (savepoint_full (txn se))). fold (pushed (txn se)).
  destruct (exec_rows_run sts (MkSession (pushed (txn se)) (savepoints se) (poisoned se)) F st.1) as (r&se1&->&B); [|done..|].
  { by apply (open_layers (MkLayer (sp_epoch_next (txn se)) ∅ :: sp_layers (txn se)) (to_uint 64 (sp_epoch_next (txn se) + 1))). }
  destruct r as [[]|e|]; [| |by destruct (br_panic _ _ _ _ B)].
  - destruct (scope_closed se st F S Ho se1 _ B) as (se2&->&S2). by eexists _, _.
  - destruct (scope_undone se st F S Ho _ se1 _ B) as (s2&->&S2). by eexists _, _.
Qed.

Lemma sim_atomic stm se st : sim se st → stmt_ok stm → ∃ r se', execute_atomic stm se = (r, se') ∧ r ≠ Panic ∧ sim se' (spec_request (ExecuteAtomic stm) r st).
Proof.
  intros S Hok. pose proof S as [Hp [F Ho] Hf _]. unfold execute_atomic. rewrite (surjective_pairing (savepoint_full (txn se))). fold (pushed (txn se)).
  destruct (exec_prepared_run stm (MkSession (pushed (txn se)) (savepoints se) (poisoned se)) F st.1) as (r&se1&->&B); [|done..|].
  { by apply (open_layers (MkLayer (sp_epoch_next (txn se)) ∅ :: sp_layers (txn se)) (to_uint 64 (sp_epoch_next (txn se) + 1))). }
  destruct r as [[]|e|]; [| |by destruct (br_panic _ _ _ _ B)].
  - destruct (scope_closed se st F S Ho se1 _ B) as (se2&->&S2). by eexists _, _.
  - destruct (scope_undone se st F S Ho _ se1 _ B) as (s2&->&S2). by eexists _, _.
Qed.

(** ** One request, and many *)

Lemma sim_request q se st : sim se st → request_ok q → ∃ r se', request q se = (r, se') ∧
  (poisoned se' = true ∧ (∃ stm e, q = Execute stm ∧ r = Err e) ∨ answer_ok q r st ∧ sim se' (spec_request q r st)).
Proof.
  intros S Hok. unfold request. rewrite (sm_clean _ _ S). destruct q as [name|name|name|stm|stm|sts]; cbn [request_ok] in Hok.
  - destruct (sim_savepoint name se st S) as (se'&?&?). exists (Ok tt), se'. split; [done|]. by right.
  - destruct (sim_release name se st S) as (r&se'&?&?&?). exists r, se'. split; [done|]. by right.
  - destruct (sim_rollback name se st S) as (r&se'&?&?&?). exists r, se'. split; [done|]. by right.
  - destruct (sim_execute stm se st S Hok) as (r&se'&?&?&[[? [e ->]]|?]); exists r, se' || exists (Err e), se'; (split; [done|]); [left; by split; [|exists stm, e]|by right].
  - destruct (sim_atomic stm se st S Hok) as (r&se'&?&?&?). exists r, se'. split; [done|]. by right.
  - destruct (sim_many sts se st S Hok) as (r&se'&?&?&?). exists r, se'. split; [done|]. by right.
Qed.

Lemma requests_poisoned qs se : poisoned se = true → poisoned (requests qs se).2 = true.
Proof.
  revert se. induction qs as [|q qs IH]; intros se Hp; cbn [requests]; [done|]. unfold request. rewrite Hp. specialize (IH se Hp).
  by destruct (requests qs se).
Qed.
End Sim.

(** The answers of a session that is never poisoned. *)
Fixpoint answers_ok (qs : list (Request Stmt)) (rs : list (res unit)) (st : SpecState) : Prop :=
  match qs, rs with
  | [], [] => True
  | q :: qs, r :: rs => answer_ok q r st ∧ answers_ok qs rs (spec_request q r st)
  | _, _ => False
  end.

Lemma sim_requests m0 Ffl C0 qs : ∀ se st, sim m0 Ffl C0 se st → Forall request_ok qs →
  let '(rs, se') := requests qs se in
  poisoned se' = true ∧ (∃ i stm e, qs !! i = Some (Execute stm) ∧ rs !! i = Some (Err e)) ∨
  answers_ok qs rs st ∧ sim m0 Ffl C0 se' (spec_requests qs rs st).
Proof.
  induction qs as [|q qs IH]; intros se st S Hok; cbn [requests]; [by right|]. apply Forall_cons in Hok as [Hok Hoks].
  destruct (sim_request m0 Ffl C0 q se st S Hok) as (r&se1&->&[[Hp (stm&e&->&->)]|[Ha S1]]).
  - pose proof (requests_poisoned qs se1 Hp) as Hq. destruct (requests qs se1). left. split; [done|]. by exists 0%nat, stm, e.
  - specialize (IH se1 _ S1 Hoks). destruct (requests qs se1) as [rs se']. destruct IH as [[? (i&stm&e&?&?)]|[? ?]]; [left|by right].
    split; [done|]. by exists (Datatypes.S i), stm, e.
Qed.
End Refine.
