(* ===== verification/SavepointTheorems.v ===== *)
(** What savepoints and write sessions guarantee, and where they do not. *)

From S2P Require Import Prelude Text BtreeNode PageStore Btree Overflow KvMap BtreeRep BtreeInsert BtreeDelete BtreeSnapshot BtreeSpec BtreeView.
From S2P Require Import Cursor Txn TxnOps TxnPool TxnStore FreelistAccount FreelistPlan TxnCommit TxnRun TxnDb TxnTheorems Savepoint Rollback Session SessionRefine.
Local Open Scope Z_scope.

(** * Statements on the system rows *)

Section SysExecutor.
Context (content_hash : bytes → Z) (R0 : Z → Prop) (fuel : nat).

(** A failed statement may have left some of its changes. *)
#[global] Instance sys_executor : Executor (list SysOp) := λ ops s, let '(r, s') := exec_ops content_hash fuel ops s in ((r, true), s').

Lemma exec_ops_logged m0 Ffl C ops : moves (logged content_hash m0 Ffl C) (exec_ops content_hash fuel ops).
Proof.
  assert (∀ r, moves (logged content_hash m0 Ffl C) (modify (set_catalog r))) as Hset.
  { intros r s. apply (logged_heads content_hash m0 Ffl C s r (table_roots (pg s))). }
  induction ops as [|op ops IH]; cbn [exec_ops]; [apply moves_ret, _|]. apply moves_bind; [apply _| |done].
  destruct op as [k v|k]; cbn [exec_op]; unfold sys_put, catalog_upsert, sys_delete.
  - apply moves_bind; [apply _|apply moves_reads, _|]. intros r. apply moves_bind; [apply _|apply (insert_moves (logged content_hash m0 Ffl C))|done].
  - apply moves_bind; [apply _| |intros; apply moves_ret, _]. apply moves_bind; [apply _|apply moves_reads, _|]. intros r.
    apply moves_bind; [apply _|apply (delete_moves (logged content_hash m0 Ffl C))|]. intros out. apply moves_bind; [apply _|done|intros; apply moves_ret, _].
Qed.

#[global] Instance sys_executor_laws : ExecutorLaws (list SysOp) content_hash R0.
Proof.
  refine {| stmt_ok := Forall op_ok; stmt_fits := λ pc, (Z.to_nat pc ≤ fuel)%nat; stmt_spec := λ ops D, foldl spec_op D ops |}.
  - intros m0 Ffl C ops s. unfold exec_stmt, sys_executor. pose proof (exec_ops_logged m0 Ffl C ops s) as H. by destruct (exec_ops content_hash fuel ops s).
  - intros ops s. unfold exec_stmt, sys_executor. destruct (exec_ops_old content_hash fuel [] ∅ ops s) as [(_&H&_) _]. by destruct (exec_ops content_hash fuel ops s).
  - intros m0 Ffl C0 ops s F D Ho Hf Hok. unfold exec_stmt, sys_executor. pose proof (exec_ops_spec content_hash R0 fuel m0 Ffl C0 ops s F D Ho Hf Hok) as H.
    unfold wp in H. destruct (exec_ops content_hash fuel ops s) as [[[]|e|] s']; [|done|by destruct H as (?&_)].
    destruct H as (F'&Hc). exists F'. apply Hc.
Defined.
End SysExecutor.

(** * Properties *)

Definition start_session (d : Db) : WriteSession := MkSession (make_write_txn d.1 d.2 false) [] false.

(** C5. A write session is a stack of maps. For any script of statements,
    savepoints, rollbacks, releases, atomic statements and batches, run on a
    consistent database by any executor that meets [ExecutorLaws], a session
    that was not poisoned answered every request as the abstract session does:
    a savepoint remembers the map, [ROLLBACK TO] the innermost savepoint of a
    name (in any case) restores it and keeps the savepoint, [RELEASE] keeps the
    changes and forgets the savepoints from that one on, an unknown name is an
    error without effect, a failed atomic statement or batch leaves the map and
    the stack as they were. The catalog of the open transaction holds the
    abstract map, the names on both stacks agree, and no request panics. Only a
    plain statement that failed can have poisoned the session. *)
Theorem session_refines_stack {Stmt : Type} `{!Executor Stmt} content_hash R0 `{!ExecutorLaws Stmt content_hash R0} d m F C D (qs : list (Request Stmt)) :
  db_ok content_hash R0 d m F C D → stmt_fits (page_count d.1) → Forall (request_ok content_hash R0) qs →
  let '(rs, se) := requests qs (start_session d) in
  if poisoned se then ∃ i stm e, qs !! i = Some (Execute stm) ∧ rs !! i = Some (Err e)
  else
    let st := spec_requests content_hash R0 qs rs (D, []) in
    answers_ok content_hash R0 qs rs (D, []) ∧ map sp_name (savepoints se) = st.2.*1 ∧
    ∃ F', open_txn content_hash R0 m F C (txn se) F' st.1.
Proof.
  intros Hd Hf Hok. destruct (start_open content_hash R0 d m F C D Hd) as [Fc Ho].
  pose proof (sim_requests content_hash R0 m F C qs (start_session d) (D, [])) as H.
  assert (sim content_hash R0 m F C (start_session d) (D, [])) as Hs by (split; [done|by exists Fc|done|done]). specialize (H Hs Hok).
  destruct (requests qs (start_session d)) as [rs se]. destruct H as [[-> H]|[Ha [S1 S2 S3 S4]]]; [done|]. rewrite S1. split_and!; [done| |done].
  clear -S4. revert S4. generalize (txn se), (savepoints se), (spec_requests content_hash R0 qs rs (D, [])).2. intros s sps. revert s.
  induction sps as [|sp sps IH]; intros s [|x ds]; try done. cbn. intros (->&g&F'&_&_&_&Hr). f_equal. by eapply IH.
Qed.

Definition script : list (Request (list SysOp)) :=
  [Execute [SysPut [7] [1]]; Savepoint [97]; Execute [SysPut [7] [2]; SysPut [9] [4]]; Savepoint [98];
   QueryMany [[SysDelete [7]]; [SysPut [8] [5]]]; RollbackTo [65]; RollbackTo [98]; ExecuteAtomic [SysPut [8] [3]]; Release [97]].
#[local] Existing Instance sys_executor.

Lemma session_refines_stack_witness : ∃ F,
  open_txn no_hash (λ _, False) [] ∅ ∅ (txn (@requests _ (sys_executor no_hash 60) script (start_session empty_db)).2) F
    (<[sys_key [8] := [3]]> (<[sys_key [7] := [1]]> ∅)).
Proof.
  pose proof (@session_refines_stack _ (sys_executor no_hash 60) no_hash (λ _, False) (sys_executor_laws no_hash (λ _, False) 60)
    empty_db [] ∅ ∅ ∅ script empty_ok) as H.
  assert (∃ se, @requests _ (sys_executor no_hash 60) script (start_session empty_db) =
    ([Ok tt; Ok tt; Ok tt; Ok tt; Ok tt; Ok tt; Err no_such_savepoint; Ok tt; Ok tt], se)) as [se Hrun].
  { eexists. rewrite (surjective_pairing (@requests _ _ _ _)). refine (f_equal2 pair _ eq_refl). vm_compute. reflexivity. }
  assert (poisoned (@requests _ (sys_executor no_hash 60) script (start_session empty_db)).2 = false) as Hp by (vm_compute; reflexivity).
  rewrite Hrun in H, Hp |- *. cbn [snd] in Hp |- *. rewrite Hp in H. destruct H as (_&_&F'&Ho).
  - apply Nat.leb_le. vm_compute. reflexivity.
  - repeat constructor; cbn; unfold MAX_KEY, MAX_FREEABLE; lia.
  - exists F'. exact Ho.
Defined.





