(* ===== verification/Wal.v ===== *)
(** The write-ahead log of [shm.rs] (record codec) and [shm/wal.rs] (append,
    deferred flush, checkpoint, recovery). *)

From S2P Require Import Prelude BtreeNode Txn.
Local Open Scope Z_scope.

(** * Records *)

Definition WAL_MAGIC : Z := 0x334C4157.
Definition WAL_RECORD_FIXED : nat := 60.
Definition WAL_PAGE_ENTRY : nat := 8 + 1 + PAGE_SIZE.
Definition WAL_ENC_FULL : Z := 0.
Definition WAL_ENC_SPLIT : Z := 1.
Definition WAL_HDR_LEN : nat := 20.
Definition WAL_TRAILER_LEN : nat := 40.
Definition WAL_GROW_CHUNK : Z := 4 * 1024 * 1024.

Inductive WalPageImg :=
| WalFull (img : bytes)
| WalSplit (prefix : bytes) (suffix_start : nat) (suffix : bytes).

(** The whole page is overwritten; a length that does not fit panics. *)
Definition write_into (i : WalPageImg) (dst : bytes) : res bytes :=
  match i with
  | WalFull img => if bool_decide (length img = length dst) then Ok img else Panic
  | WalSplit prefix suffix_start suffix =>
      if bool_decide (length prefix ≤ length dst ∧ suffix_start + length suffix = length dst)%nat
      then Ok (take suffix_start (prefix ++ replicate (length dst - length prefix) 0) ++ suffix) else Panic
  end.

Record WalRecord := MkRecord {
  w_txn : Z; w_pages : list (Z * WalPageImg); w_catalog_root : Z; w_freelist_root : Z; w_high_water : Z;
  w_extent_map_root : Z; w_len : Z }.

Section Wal.
(** [xxh3] is the library's hash; [full_pages] the knob that turns the lean
    encoding off. *)
Context (xxh3 : bytes → Z) (full_pages : bool).

Definition wal_checksum (offset : Z) (rec : bytes) : Z := xxh3 (le_encode 8 offset ++ rec).

Definition append_wal_page_img (id : Z) (img : bytes) : bytes :=
  let '(prefix_end, suffix_start) := used_span img in
  le_encode 8 id ++
  (if bool_decide (length img = PAGE_SIZE) && bool_decide (4 < suffix_start - prefix_end)%nat && negb full_pages
   then [WAL_ENC_SPLIT] ++ le_encode 2 (Z.of_nat prefix_end) ++ le_encode 2 (Z.of_nat suffix_start) ++
        take prefix_end img ++ drop suffix_start img
   else [WAL_ENC_FULL] ++ img).

(** The record up to its checksum. [rec_len] is cut to 32 bits. *)
Definition wal_body (m : Meta) (pages : list (Z * bytes)) : bytes :=
  let entries := concat (map (λ x, append_wal_page_img x.1 x.2) pages) in
  le_encode 4 WAL_MAGIC ++ le_encode 8 (m_txn m) ++ le_encode 4 (Z.of_nat (length pages)) ++
  le_encode 4 (Z.of_nat (WAL_HDR_LEN + length entries + WAL_TRAILER_LEN)) ++
  entries ++
  le_encode 8 (m_catalog_root m) ++ le_encode 8 (m_freelist_root m) ++ le_encode 8 (m_high_water m) ++
  le_encode 8 (m_extent_map_root m).
Definition encode_wal_record (offset : Z) (m : Meta) (pages : list (Z * bytes)) : bytes :=
  wal_body m pages ++ le_encode 8 (wal_checksum offset (wal_body m pages)).

(** A little-endian field of [n] bytes. *)
Definition uint_at (n : nat) (buf : bytes) (o : nat) : option Z := le_decode <$> get_range o (o + n) buf.

Definition decode_img (enc : Z) (buf : bytes) (pos : nat) : option (WalPageImg * nat) :=
  if enc =? WAL_ENC_FULL then
    img ← get_range pos (pos + PAGE_SIZE) buf;
    Some (WalFull img, pos + PAGE_SIZE)%nat
  else if enc =? WAL_ENC_SPLIT then
    prefix_len ← Z.to_nat <$> uint_at 2 buf pos;
    suffix_start ← Z.to_nat <$> uint_at 2 buf (pos + 2);
    if bool_decide (suffix_start < prefix_len ∨ PAGE_SIZE < suffix_start)%nat then None
    else
      prefix ← get_range (pos + 4) (pos + 4 + prefix_len) buf;
      suffix ← get_range (pos + 4 + prefix_len) (pos + 4 + prefix_len + (PAGE_SIZE - suffix_start)) buf;
      Some (WalSplit prefix suffix_start suffix, pos + 4 + prefix_len + (PAGE_SIZE - suffix_start))%nat
  else None.

Fixpoint decode_pages (n : nat) (page_count : Z) (buf : bytes) (pos : nat) : option (list (Z * WalPageImg) * nat) :=
  match n with
  | O => Some ([], pos)
  | S n =>
      id ← uint_at 8 buf pos;
      if page_count <=? id then None
      else
        enc ← buf !! (pos + 8)%nat;
        '(img, pos) ← decode_img enc buf (pos + 9);
        '(rest, pos) ← decode_pages n page_count buf pos;
        Some ((id, img) :: rest, pos)
  end.

Definition rec_len_ok (n_pages rec_len : Z) : bool :=
  (Z.of_nat WAL_RECORD_FIXED <=? rec_len) && (rec_len <=? Z.of_nat WAL_RECORD_FIXED + n_pages * Z.of_nat WAL_PAGE_ENTRY).

Definition decode_wal_record (buf : bytes) (offset page_count : Z) : option WalRecord :=
  magic ← uint_at 4 buf 0;
  if negb (magic =? WAL_MAGIC) then None
  else
    txn_id ← uint_at 8 buf 4;
    n_pages ← uint_at 4 buf 12;
    if page_count <? n_pages then None
    else
      rec_len ← uint_at 4 buf 16;
      if negb (rec_len_ok n_pages rec_len) then None
      else if Z.of_nat (length buf) <? rec_len then None
      else
        let len := Z.to_nat rec_len in
        sum ← uint_at 8 buf (len - 8);
        if negb (wal_checksum offset (take (len - 8) buf) =? sum) then None
        else
          '(pages, pos) ← decode_pages (Z.to_nat n_pages) page_count buf WAL_HDR_LEN;
          if negb (bool_decide (pos + WAL_TRAILER_LEN = len)%nat) then None
          else
            catalog_root ← uint_at 8 buf pos;
            freelist_root ← uint_at 8 buf (pos + 8);
            high_water ← uint_at 8 buf (pos + 16);
            extent_map_root ← uint_at 8 buf (pos + 24);
            Some (MkRecord txn_id pages catalog_root freelist_root high_water extent_map_root rec_len).

(** * The log and the words that describe it *)

(** What a process sees: the mapped pages, the two meta pages ([None]: the
    checksum does not match), the three words of the lock page, and the log
    file with its cached size. *)
Record WalShm := MkWal {
  w_mem : list bytes; w_meta_a : option Meta; w_meta_b : option Meta; wal_len : Z; wal_ckpt : Z;
  wal_appended : Z; w_log : bytes; w_alloc : Z }.

Definition set_log (log : bytes) (alloc : Z) (w : WalShm) : WalShm :=
  MkWal (w_mem w) (w_meta_a w) (w_meta_b w) (wal_len w) (wal_ckpt w) (wal_appended w) log alloc.
Definition set_words (len ckpt app : Z) (w : WalShm) : WalShm :=
  MkWal (w_mem w) (w_meta_a w) (w_meta_b w) len ckpt app (w_log w) (w_alloc w).
Definition set_pages (mem : list bytes) (w : WalShm) : WalShm :=
  MkWal mem (w_meta_a w) (w_meta_b w) (wal_len w) (wal_ckpt w) (wal_appended w) (w_log w) (w_alloc w).
Definition set_metas (a b : option Meta) (w : WalShm) : WalShm :=
  MkWal (w_mem w) a b (wal_len w) (wal_ckpt w) (wal_appended w) (w_log w) (w_alloc w).

Definition newest_meta (w : WalShm) : option Meta :=
  match w_meta_a w, w_meta_b w with
  | Some a, Some b => Some (if m_txn b <=? m_txn a then a else b)
  | Some m, None | None, Some m => Some m
  | None, None => None
  end.

Definition wal_ensure_alloc (need : Z) (w : WalShm) : WalShm :=
  if need <=? w_alloc w then w
  else
    let cur := Z.of_nat (length (w_log w)) in
    let target := (Z.max need cur + WAL_GROW_CHUNK - 1) / WAL_GROW_CHUNK * WAL_GROW_CHUNK in
    set_log (w_log w ++ replicate (Z.to_nat (target - cur)) 0) target w.

(** [write_all_at]: a write past the end of the file fills the gap with zeros. *)
Definition write_log (buf : bytes) (off : Z) (w : WalShm) : WalShm :=
  let o := Z.to_nat off in
  set_log (take o (w_log w) ++ replicate (o - length (w_log w)) 0 ++ buf ++ drop (o + length buf) (w_log w)) (w_alloc w) w.

Fixpoint dirty_pages (ids : list Z) (w : WalShm) : res (list (Z * bytes)) :=
  match ids with
  | [] => Ok []
  | id :: ids =>
      if Z.of_nat (length (w_mem w)) <=? id then Err (Corrupt "page id out of bounds")
      else
        img ← res_of_option (Corrupt "page id out of bounds") (w_mem w !! Z.to_nat id);
        rest ← dirty_pages ids w;
        Ok ((id, img) :: rest)
  end.

(** Encode the record of a commit for [off] and write it there. *)
Definition append_record (off : Z) (ids : list Z) (snap : Meta) (w : WalShm) : res (bytes * WalShm) :=
  pages ← dirty_pages ids w;
  let buf := encode_wal_record off snap pages in
  Ok (buf, write_log buf off (wal_ensure_alloc (off + Z.of_nat (length buf)) w)).

(** [wal_commit]: at [wal_len], which moves once the log is synced. *)
Definition wal_commit (ids : list Z) (snap : Meta) (w : WalShm) : res WalShm :=
  '(buf, w') ← append_record (wal_len w) ids snap w;
  Ok (set_words (wal_len w + Z.of_nat (length buf)) (wal_ckpt w) (wal_appended w) w').

(** [wal_append_async]: at [wal_appended], without a sync. *)
Definition wal_append_async (ids : list Z) (snap : Meta) (w : WalShm) : res WalShm :=
  '(buf, w') ← append_record (wal_appended w) ids snap w;
  Ok (set_words (wal_len w) (wal_ckpt w) (wal_appended w + Z.of_nat (length buf)) w').

(** [wal_flush_deferred], after the sync: what was appended when it began is
    durable. *)
Definition wal_flush_deferred (appended : Z) (w : WalShm) : WalShm :=
  set_words (Z.max (wal_len w) appended) (wal_ckpt w) (wal_appended w) w.

(** [wal_checkpoint_if]: how far it goes, the words it stores once the mapping
    is synced, and the hole it punches. *)
Definition ckpt_target (is_async : bool) (w : WalShm) : Z := if is_async then wal_appended w else wal_len w.
Definition ckpt_due (is_async : bool) (threshold : Z) (w : WalShm) : bool :=
  threshold <=? Z.max 0 (ckpt_target is_async w - wal_ckpt w).
Definition store_ckpt (is_async : bool) (w : WalShm) : WalShm :=
  let target := ckpt_target is_async w in
  set_words (if is_async then Z.max (wal_len w) target else wal_len w) target (wal_appended w) w.
Definition punch_hole (len : Z) (w : WalShm) : WalShm :=
  set_log (replicate (Z.to_nat len `min` length (w_log w)) 0 ++ drop (Z.to_nat len) (w_log w)) (w_alloc w) w.

(** * Recovery *)

Definition replay_meta (r : WalRecord) : Meta :=
  MkMeta (w_txn r) (w_catalog_root r) (w_freelist_root r) (w_high_water r) (w_extent_map_root r) 0.

Fixpoint replay_pages (ps : list (Z * WalPageImg)) : M (list bytes) unit :=
  match ps with
  | [] => mret tt
  | (id, img) :: ps =>
      update (λ mem, if Z.of_nat (length mem) <=? id then Err (Corrupt "page id out of bounds")
                     else
                       dst ← res_of_option (Corrupt "page id out of bounds") (mem !! Z.to_nat id);
                       p ← write_into img dst;
                       Ok (<[Z.to_nat id := p]> mem));;
      replay_pages ps
  end.

(** The record at [off]: header, length, then the whole of it. *)
Definition record_at (off page_count : Z) (log : bytes) : option WalRecord :=
  let at_off := drop (Z.to_nat off) log in
  let header := take WAL_HDR_LEN at_off in
  if bool_decide (length header < WAL_HDR_LEN)%nat then None
  else
    let n_pages := le_decode (sub 12 4 header) in
    let rec_len := le_decode (sub 16 4 header) in
    if negb (le_decode (sub 0 4 header) =? WAL_MAGIC) || (page_count <? n_pages) || negb (rec_len_ok n_pages rec_len) then None
    else if Z.of_nat (length at_off) <? rec_len then None
    else decode_wal_record (take (Z.to_nat rec_len) at_off) off page_count.

(** The scan; a record that does not follow the one before, or that holds a
    control page, ends it. [fuel] bounds the records, of which the log holds
    fewer than bytes. *)
Fixpoint recover_loop (fuel : nat) (data_start off : Z) (prev : option Z) (last : option Meta) (w : WalShm)
    : res (Z * option Meta) * WalShm :=
  match fuel with
  | O => (Panic, w)
  | S fuel =>
      match record_at off (Z.of_nat (length (w_mem w))) (w_log w) with
      | None => (Ok (off, last), w)
      | Some r =>
          if match prev with Some p => negb (w_txn r =? p + 1) | None => false end then (Ok (off, last), w)
          else if existsb (λ x, x.1 <? data_start) (w_pages r) then (Ok (off, last), w)
          else match replay_pages (w_pages r) (w_mem w) with
               | (Ok _, mem) => recover_loop fuel data_start (off + w_len r) (Some (w_txn r)) (Some (replay_meta r)) (set_pages mem w)
               | (Err e, mem) => (Err e, set_pages mem w)
               | (Panic, mem) => (Panic, set_pages mem w)
               end
      end
  end.

Definition wal_recover (data_start : Z) (w : WalShm) : res Z * WalShm :=
  match recover_loop (S (length (w_log w))) data_start (wal_ckpt w) None None w with
  | (Ok (off, last), w') =>
      if off <? wal_len w then (Err (Corrupt "wal valid prefix ends below the durable bytes"), w')
      else
        let w' := match last with Some m => set_metas (Some m) (Some m) w' | None => w' end in
        (Ok off, set_words off off off w')
  | (Err e, w') => (Err e, w')
  | (Panic, w') => (Panic, w')
  end.
End Wal.
