(* ===== verification/WalCodec.v ===== *)
(** Records of the log as bytes: what was encoded decodes, at the offset it was
    encoded for, to images that restore the pages up to bytes nobody reads. *)

From S2P Require Import Prelude BtreeNode Lean Txn Wal.
Local Open Scope Z_scope.

Section Fields.
Lemma uint_at_skip n (pre r : bytes) o z : length pre = o → 0 ≤ z < 2 ^ (8 * Z.of_nat n) →
  uint_at n (pre ++ le_encode n z ++ r) o = Some z.
Proof.
  intros Hl Hz. unfold uint_at. rewrite (get_range_skip o (o + n) n pre) by (rewrite ?length_le_encode; lia).
  cbn. by rewrite le_decode_encode_id.
Qed.
End Fields.

Section Codec.
Context (xxh3 : bytes → Z) (full_pages : bool).
Context (xxh3_64 : ∀ b, is_uint 64 (xxh3 b)).

(** The image the log keeps of a page. *)
Definition img_of (p : bytes) : WalPageImg :=
  let '(a, b) := used_span p in
  if bool_decide (4 < b - a)%nat && negb full_pages then WalSplit (take a p) b (drop b p) else WalFull p.
Definition restored (p : bytes) : bytes := match img_of p with WalFull p => p | WalSplit _ _ _ => lean p end.

Lemma restored_reads p : reads_as p (restored p).
Proof. unfold restored, img_of. destruct (used_span p). destruct (_ && _); [by right|by left]. Qed.

Lemma length_restored p : length p = PAGE_SIZE → length (restored p) = PAGE_SIZE.
Proof.
  intros Hl. destruct (restored_reads p) as [->| ->]; [done|]. pose proof (lean_outside p Hl) as H. by destruct (used_span p), H.
Qed.

Lemma write_img p dst : length p = PAGE_SIZE → length dst = PAGE_SIZE → write_into (img_of p) dst = Ok (restored p).
Proof.
  intros Hp Hd. pose proof (used_span_le p Hp) as Hs. unfold restored, img_of, lean. destruct (used_span p) as [a b]. cbn [fst snd] in Hs.
  destruct (bool_decide _ && negb full_pages); cbn [write_into].
  - assert (length (take a p) = a) as Ha by (rewrite length_take; lia). rewrite bool_decide_true by (rewrite length_drop; lia).
    f_equal. rewrite app_assoc. f_equal. rewrite take_app, Ha, (take_ge (take a p)) by lia. f_equal. rewrite take_replicate. f_equal. lia.
  - by rewrite bool_decide_true by congruence.
Qed.

Lemma length_entry id p : length p = PAGE_SIZE → (0 < length (append_wal_page_img full_pages id p) ≤ WAL_PAGE_ENTRY)%nat.
Proof.
  intros Hp. pose proof (used_span_le p Hp) as Hs. unfold append_wal_page_img. destruct (used_span p) as [a b]. cbn [fst snd] in Hs.
  rewrite (bool_decide_true (length p = _)) by done. unfold WAL_PAGE_ENTRY. cbn [andb]. destruct (_ && _) eqn:E; rewrite !length_app, !length_le_encode.
  - apply andb_prop in E as [E%bool_decide_eq_true _]. rewrite ?length_app, ?length_le_encode, length_take, length_drop. cbn. lia.
  - cbn. lia.
Qed.

Lemma decode_entry_img id p pre r : length p = PAGE_SIZE →
  let e := append_wal_page_img full_pages id p in
  ∃ enc, (pre ++ e ++ r) !! (length pre + 8)%nat = Some enc ∧
    decode_img enc (pre ++ e ++ r) (length pre + 9) = Some (img_of p, (length pre + length e)%nat).
Proof.
  intros Hp. pose proof (used_span_le p Hp) as Hs. unfold append_wal_page_img, img_of. destruct (used_span p) as [a b]. cbn [fst snd] in Hs.
  rewrite (bool_decide_true (length p = _)) by done. cbn [andb]. destruct (_ && _) eqn:E; cbn zeta.
  - exists WAL_ENC_SPLIT. split.
    { rewrite <- app_assoc, lookup_app_r by lia. rewrite lookup_app_r by (rewrite length_le_encode; lia).
      by replace (length pre + 8 - length pre - length (le_encode 8 id))%nat with 0%nat by (rewrite length_le_encode; lia). }
    assert (length (take a p) = a) as Ha by (rewrite length_take; lia).
    set (pre' := pre ++ le_encode 8 id ++ [WAL_ENC_SPLIT]).
    assert (length pre' = length pre + 9)%nat as Hpre by (unfold pre'; rewrite !length_app, length_le_encode; cbn; lia).
    replace (pre ++ (le_encode 8 id ++ [WAL_ENC_SPLIT] ++ le_encode 2 (Z.of_nat a) ++ le_encode 2 (Z.of_nat b) ++ take a p ++ drop b p) ++ r)
      with (pre' ++ le_encode 2 (Z.of_nat a) ++ le_encode 2 (Z.of_nat b) ++ take a p ++ drop b p ++ r) by (unfold pre'; by rewrite <- !app_assoc).
    unfold decode_img. cbn [Z.eqb WAL_ENC_SPLIT WAL_ENC_FULL].
    rewrite (uint_at_skip 2 pre' _ (length pre + 9)) by (first [done|sizes]). cbn [fmap option_fmap option_map mbind option_bind].
    rewrite (app_assoc pre'). rewrite (uint_at_skip 2 (pre' ++ _)) by (first [rewrite length_app, length_le_encode; lia|sizes]).
    cbn [fmap option_fmap option_map mbind option_bind]. rewrite !Nat2Z.id. rewrite bool_decide_false by lia.
    rewrite (app_assoc _ (le_encode 2 (Z.of_nat b))). set (pre2 := (_ ++ le_encode 2 (Z.of_nat b))).
    assert (length pre2 = length pre + 9 + 4)%nat as Hpre2 by (unfold pre2; rewrite !length_app, !length_le_encode; lia).
    rewrite (get_range_skip (length pre + 9 + 4) _ a pre2) by lia. cbn [mbind option_bind].
    rewrite (app_assoc pre2). assert (length (pre2 ++ take a p) = length pre + 9 + 4 + a)%nat as Hpre3 by (rewrite length_app; lia).
    rewrite (get_range_skip (length pre + 9 + 4 + a) _ (PAGE_SIZE - b) (pre2 ++ take a p)) by (rewrite ?length_drop; lia). cbn [mbind option_bind].
    f_equal. f_equal. rewrite !length_app, !length_le_encode, length_drop, Ha. cbn [length]. lia.
  - exists WAL_ENC_FULL. split.
    { rewrite <- app_assoc, lookup_app_r by lia. rewrite lookup_app_r by (rewrite length_le_encode; lia).
      by replace (length pre + 8 - length pre - length (le_encode 8 id))%nat with 0%nat by (rewrite length_le_encode; lia). }
    set (pre' := pre ++ le_encode 8 id ++ [WAL_ENC_FULL]).
    assert (length pre' = length pre + 9)%nat as Hpre by (unfold pre'; rewrite !length_app, length_le_encode; cbn; lia).
    replace (pre ++ (le_encode 8 id ++ [WAL_ENC_FULL] ++ p) ++ r) with (pre' ++ p ++ r) by (unfold pre'; by rewrite <- !app_assoc).
    unfold decode_img. cbn [Z.eqb WAL_ENC_FULL]. rewrite (get_range_skip _ _ PAGE_SIZE pre') by lia. cbn [mbind option_bind].
    f_equal. f_equal. rewrite !length_app, length_le_encode, Hp. cbn [length]. lia.
Qed.

Definition entry_of (x : Z * bytes) : bytes := append_wal_page_img full_pages x.1 x.2.
(** A page of a record: in the file, whole. *)
Definition logged (page_count : Z) (x : Z * bytes) : Prop := 0 ≤ x.1 < page_count ∧ length x.2 = PAGE_SIZE.

Lemma entry_id x pre r : is_uint 64 x.1 → uint_at 8 (pre ++ entry_of x ++ r) (length pre) = Some x.1.
Proof.
  intros Hu. unfold entry_of, append_wal_page_img. destruct (used_span x.2). rewrite <- app_assoc. by apply uint_at_skip.
Qed.

Lemma decode_entries pc xs : pc ≤ 2 ^ 64 → ∀ pre r, Forall (logged pc) xs →
  decode_pages (length xs) pc (pre ++ concat (map entry_of xs) ++ r) (length pre) =
    Some (map (λ x, (x.1, img_of x.2)) xs, (length pre + length (concat (map entry_of xs)))%nat).
Proof.
  intros Hpc. induction xs as [|x xs IH]; intros pre r Hx.
  { cbn. by rewrite Nat.add_0_r. }
  apply Forall_cons in Hx as [[Hid Hp] Hx]. cbn [map concat length decode_pages]. rewrite <- app_assoc.
  rewrite (entry_id x pre) by (unfold is_uint; lia). cbn [mbind option_bind].
  destruct (Z.leb_spec pc x.1); [lia|]. destruct (decode_entry_img x.1 x.2 pre (concat (map entry_of xs) ++ r) Hp) as (enc&He&Hi).
  fold (entry_of x) in He, Hi. rewrite He. cbn [mbind option_bind]. rewrite Hi. cbn [mbind option_bind].
  specialize (IH (pre ++ entry_of x) r Hx). rewrite <- app_assoc, length_app in IH. rewrite IH. cbn [mbind option_bind].
  f_equal. f_equal. rewrite length_app. lia.
Qed.

Definition entries_of (xs : list (Z * bytes)) : bytes := concat (map entry_of xs).

Lemma length_entries xs : Forall (λ x, length x.2 = PAGE_SIZE) xs → (length xs ≤ length (entries_of xs) ≤ length xs * WAL_PAGE_ENTRY)%nat.
Proof.
  unfold entries_of. induction 1 as [|x xs Hx _ IH]; cbn [map concat length]; [lia|]. rewrite length_app.
  pose proof (length_entry x.1 x.2 Hx). fold (entry_of x) in *. lia.
Qed.

Record meta_wf (m : Meta) : Prop := {
  mw_txn : is_uint 64 (m_txn m); mw_catalog : is_uint 64 (m_catalog_root m); mw_freelist : is_uint 64 (m_freelist_root m);
  mw_high : is_uint 64 (m_high_water m); mw_extents : is_uint 64 (m_extent_map_root m) }.

(** What a record must be to decode: short enough for its 32-bit length. *)
Record record_wf (pc : Z) (m : Meta) (xs : list (Z * bytes)) : Prop := {
  rw_meta : meta_wf m;
  rw_pages : Forall (logged pc) xs;
  rw_count : Z.of_nat (length xs) ≤ pc;
  rw_len : Z.of_nat (WAL_RECORD_FIXED + length (entries_of xs)) < 2 ^ 32;
}.

Lemma length_record off m xs : length (encode_wal_record xxh3 full_pages off m xs) = (WAL_RECORD_FIXED + length (entries_of xs))%nat.
Proof.
  unfold encode_wal_record, wal_body. rewrite !length_app, !length_le_encode. unfold WAL_RECORD_FIXED, entries_of. fold entry_of. lia.
Qed.

Definition record_of (m : Meta) (xs : list (Z * bytes)) : WalRecord :=
  MkRecord (m_txn m) (map (λ x, (x.1, img_of x.2)) xs) (m_catalog_root m) (m_freelist_root m) (m_high_water m) (m_extent_map_root m)
    (Z.of_nat (WAL_RECORD_FIXED + length (entries_of xs))).

(** The fields of the header. *)
Lemma header_fields m xs r : meta_wf m → Z.of_nat (length xs) < 2 ^ 32 → Z.of_nat (WAL_RECORD_FIXED + length (entries_of xs)) < 2 ^ 32 →
  let buf := wal_body full_pages m xs ++ r in
  uint_at 4 buf 0 = Some WAL_MAGIC ∧ uint_at 8 buf 4 = Some (m_txn m) ∧ uint_at 4 buf 12 = Some (Z.of_nat (length xs)) ∧
  uint_at 4 buf 16 = Some (Z.of_nat (WAL_RECORD_FIXED + length (entries_of xs))).
Proof.
  intros [Ht _ _ _ _] Hn Hl. cbn zeta. unfold wal_body. fold entry_of. fold (entries_of xs).
  replace (Z.of_nat (WAL_HDR_LEN + length (entries_of xs) + WAL_TRAILER_LEN)) with (Z.of_nat (WAL_RECORD_FIXED + length (entries_of xs)))
    by (unfold WAL_HDR_LEN, WAL_TRAILER_LEN, WAL_RECORD_FIXED; lia).
  set (tail := entries_of xs ++ _). rewrite <- !app_assoc. split_and!.
  - apply (uint_at_skip 4 []); [done|]. unfold WAL_MAGIC. lia.
  - apply (uint_at_skip 8 (le_encode 4 WAL_MAGIC)); [by rewrite length_le_encode|exact Ht].
  - rewrite (app_assoc (le_encode 4 WAL_MAGIC)). apply (uint_at_skip 4 (_ ++ _)); [by rewrite length_app, !length_le_encode|lia].
  - rewrite (app_assoc (le_encode 4 WAL_MAGIC)), (app_assoc (le_encode 4 WAL_MAGIC ++ _)).
    apply (uint_at_skip 4 ((_ ++ _) ++ _)); [by rewrite !length_app, !length_le_encode|]. lia.
Qed.

Lemma body_parts m xs : ∃ hdr, length hdr = WAL_HDR_LEN ∧ wal_body full_pages m xs = hdr ++ entries_of xs ++
  le_encode 8 (m_catalog_root m) ++ le_encode 8 (m_freelist_root m) ++ le_encode 8 (m_high_water m) ++ le_encode 8 (m_extent_map_root m).
Proof.
  exists (le_encode 4 WAL_MAGIC ++ le_encode 8 (m_txn m) ++ le_encode 4 (Z.of_nat (length xs)) ++
    le_encode 4 (Z.of_nat (WAL_HDR_LEN + length (entries_of xs) + WAL_TRAILER_LEN))).
  split; [by rewrite !length_app, !length_le_encode|]. unfold wal_body, entries_of. by rewrite <- !app_assoc.
Qed.

Lemma decode_record off pc m xs : pc ≤ 2 ^ 64 → record_wf pc m xs →
  decode_wal_record xxh3 (encode_wal_record xxh3 full_pages off m xs) off pc = Some (record_of m xs).
Proof.
  intros Hpc [[Ht Hc Hf Hh He] Hx Hn Hl]. pose proof (length_entries xs) as Hle.
  assert (Forall (λ x, length x.2 = PAGE_SIZE) xs) as Hx' by (eapply Forall_impl; [exact Hx|]; by intros x []). specialize (Hle Hx').
  pose proof (header_fields m xs (le_encode 8 (wal_checksum xxh3 off (wal_body full_pages m xs)))) as H.
  unfold decode_wal_record, encode_wal_record. set (body := wal_body full_pages m xs) in *. set (len := (WAL_RECORD_FIXED + length (entries_of xs))%nat) in *.
  assert (length body = len - 8)%nat as Hb.
  { pose proof (length_record off m xs) as Hlr. unfold encode_wal_record in Hlr. rewrite length_app, length_le_encode in Hlr. fold body len in Hlr. lia. }
  assert (8 ≤ len)%nat as Hl8 by (unfold len, WAL_RECORD_FIXED; lia).
  destruct H as (H1&H2&H3&H4); [done|lia|done|]. cbn zeta in H1, H2, H3, H4. rewrite H1. cbn [mbind option_bind]. rewrite Z.eqb_refl. cbn [negb].
  rewrite H2, H3. cbn [mbind option_bind]. destruct (Z.ltb_spec pc (Z.of_nat (length xs))); [lia|]. rewrite H4. cbn [mbind option_bind].
  assert (rec_len_ok (Z.of_nat (length xs)) (Z.of_nat len) = true) as ->.
  { unfold rec_len_ok, len. apply andb_true_intro. split; apply Z.leb_le; lia. }
  cbn [negb]. rewrite length_app, length_le_encode, Hb. destruct (Z.ltb_spec (Z.of_nat (len - 8 + 8)) (Z.of_nat len)); [lia|].
  rewrite Nat2Z.id. cbn zeta. pose proof (uint_at_skip 8 body [] (len - 8) (wal_checksum xxh3 off body) Hb) as Hsum. rewrite app_nil_r in Hsum.
  rewrite Hsum by apply xxh3_64. cbn [mbind option_bind]. rewrite take_app_le by lia. rewrite take_ge by lia. rewrite Z.eqb_refl. cbn [negb].
  rewrite Nat2Z.id. set (sum := le_encode 8 (wal_checksum _ _ _)).
  destruct (body_parts m xs) as (hdr&Hhdr&Hparts). fold body in Hparts. rewrite Hparts, <- !app_assoc.
  pose proof (decode_entries pc xs Hpc hdr) as Hd. fold (entries_of xs) in Hd. rewrite <- Hhdr, Hd by done. cbn [mbind option_bind].
  rewrite bool_decide_true by (unfold len, WAL_RECORD_FIXED, WAL_HDR_LEN, WAL_TRAILER_LEN in *; lia). cbn [negb].
  set (pre := hdr ++ entries_of xs). assert (length hdr + length (entries_of xs) = length pre)%nat as -> by (unfold pre; by rewrite length_app).
  rewrite (app_assoc hdr). fold pre. rewrite (uint_at_skip 8 pre _ (length pre)) by done. cbn [mbind option_bind].
  rewrite (app_assoc pre), (uint_at_skip 8 (pre ++ _) _ (length pre + 8)) by (first [done|by rewrite !length_app, ?length_le_encode]). cbn [mbind option_bind].
  rewrite (app_assoc (pre ++ _)), (uint_at_skip 8 ((pre ++ _) ++ _) _ (length pre + 16)) by (first [done|rewrite !length_app, ?length_le_encode; lia]). cbn [mbind option_bind].
  rewrite (app_assoc ((pre ++ _) ++ _)), (uint_at_skip 8 (((pre ++ _) ++ _) ++ _) _ (length pre + 24)) by (first [done|rewrite !length_app, ?length_le_encode; lia]). done.
Qed.

(** The record found where it was written. *)
Lemma record_at_here off pc m xs pre r : 0 ≤ off → Z.of_nat (length pre) = off → pc ≤ 2 ^ 64 → record_wf pc m xs →
  record_at xxh3 off pc (pre ++ encode_wal_record xxh3 full_pages off m xs ++ r) = Some (record_of m xs).
Proof.
  intros H0 Hoff Hpc Hw. pose proof (decode_record off pc m xs Hpc Hw) as Hd. destruct Hw as [Hm Hx Hn Hl].
  pose proof (length_entries xs) as Hle. assert (Forall (λ x, length x.2 = PAGE_SIZE) xs) as Hx' by (eapply Forall_impl; [exact Hx|]; by intros x []). specialize (Hle Hx').
  pose proof (length_record off m xs) as Hlen. set (rec := encode_wal_record xxh3 full_pages off m xs) in *. set (len := (WAL_RECORD_FIXED + length (entries_of xs))%nat) in *.
  unfold record_at. replace (Z.to_nat off) with (length pre) by lia. rewrite drop_app_length. set (hd := take WAL_HDR_LEN (rec ++ r)).
  assert (WAL_HDR_LEN ≤ len)%nat as Hge by (unfold len, WAL_HDR_LEN, WAL_RECORD_FIXED; lia).
  assert (length hd = WAL_HDR_LEN) as Hhd by (unfold hd; rewrite length_take, length_app; lia).
  rewrite bool_decide_false by lia. cbn zeta.
  assert (∀ o n z, (o + n ≤ WAL_HDR_LEN)%nat → uint_at n rec o = Some z → le_decode (sub o n hd) = z) as Hfield.
  { intros o n z Hon. unfold uint_at. rewrite get_range_Some by lia. cbn. intros [= <-]. unfold hd. apply (f_equal le_decode).
    replace (o + n - o)%nat with n by lia. change (take 20 (rec ++ r)) with (sub 0 20 (rec ++ r)).
    rewrite sub_sub by exact Hon. cbn [Nat.add]. by rewrite sub_app_l by lia. }
  destruct (header_fields m xs (le_encode 8 (wal_checksum xxh3 off (wal_body full_pages m xs))) Hm) as (H1&_&H3&H4); [lia|done|].
  change (wal_body full_pages m xs ++ _) with rec in H1, H3, H4.
  rewrite (Hfield 0%nat 4%nat _ ltac:(unfold WAL_HDR_LEN; lia) H1), (Hfield 12%nat 4%nat _ ltac:(unfold WAL_HDR_LEN; lia) H3), (Hfield 16%nat 4%nat _ ltac:(unfold WAL_HDR_LEN; lia) H4).
  rewrite Z.eqb_refl. destruct (Z.ltb_spec pc (Z.of_nat (length xs))); [lia|]. fold len.
  assert (rec_len_ok (Z.of_nat (length xs)) (Z.of_nat len) = true) as ->.
  { unfold rec_len_ok, len. apply andb_true_intro. split; apply Z.leb_le; lia. }
  cbn [negb orb]. rewrite length_app. destruct (Z.ltb_spec (Z.of_nat (length rec + length r)) (Z.of_nat len)); [lia|].
  rewrite Nat2Z.id, take_app_le, take_ge by lia. exact Hd.
Qed.
End Codec.
