(* ===== verification/Crash.v ===== *)
(** Power loss. The log of [shm/wal.rs] with the writer, the kernel and the disk
    as a machine: pages and words of the mapping reach the disk at any time and
    in any order, bytes of the log only when synced, and the power can fail
    between any two steps. *)

From stdpp Require Import gmap.
From S2P Require Import Prelude BtreeNode Lean Txn Wal WalCodec.
Local Open Scope Z_scope.

(** * What a commit was *)

(** The meta page it publishes, the pages it logs, the mapping when it logged
    them, the pages its snapshot uses, and where its record lies. *)
Record Commit := MkCommit { c_meta : Meta; c_ids : list Z; c_mem : list bytes; c_use : gset Z; c_off : Z }.

Inductive Pc :=
| Free
| InTxn
| Logged (c : Commit)
| Synced (c : Commit)
| Counted (c : Commit)
| CkptSynced
| CkptStored
| CkptDurable.

(** What survives a power loss. [d_sync] is how many bytes of the log do. *)
Record Disk := MkDisk { d_mem : list bytes; d_a : option Meta; d_b : option Meta; d_len : Z; d_ckpt : Z; d_sync : Z }.

(** [newest] is the commit the newest meta page names; [cands] are the commits
    whose record was written at the end of the log and not yet counted; [gap]
    says that a writer died after it counted its record and before it published
    its meta page. *)
Record Node := MkNode { vol : WalShm; disk : Disk; pc : Pc; newest : Commit; cands : list Commit; gap : bool }.

Inductive MetaSide := A | B.
Inductive Event :=
| Begin
| Store (id : Z) (p : bytes)
| Log (ids : list Z) (snap : Meta) (use : gset Z)
| Sync
| Count
| Flip
| Die
| CkptBegin
| CkptStore
| CkptLock
| CkptPunch
| Flush
| BackPage (id : Z) (mask : list bool)
| BackMeta (side : MetaSide) (torn : bool)
| BackLen
| BackCkpt.

(** Part of a page reached the disk. *)
Fixpoint mix (mask : list bool) (old new : bytes) : bytes :=
  match mask, old, new with
  | b :: mask, o :: old, n :: new => (if b then n else o) :: mix mask old new
  | _, _, _ => new
  end.
Definition mix_meta (torn : bool) (old new : option Meta) : option Meta :=
  if bool_decide (old = new) then new else if torn then None else new.

Section Machine.
Context (xxh3 : bytes → Z) (full_pages : bool) (data_start : Z) (is_async : bool).

Definition c_pages (c : Commit) : list (Z * bytes) := map (λ id, (id, default [] (c_mem c !! Z.to_nat id))) (c_ids c).
Definition c_bytes (c : Commit) : bytes := encode_wal_record xxh3 full_pages (c_off c) (c_meta c) (c_pages c).
Definition c_end (c : Commit) : Z := c_off c + Z.of_nat (length (c_bytes c)).

(** [write_meta_slot] into the page that is not the newest. *)
Definition publish_meta (m : Meta) (w : WalShm) : WalShm :=
  match w_meta_a w, w_meta_b w with
  | Some a, Some b => if m_txn b <=? m_txn a then set_metas (Some a) (Some m) w else set_metas (Some m) (Some b) w
  | Some a, None => set_metas (Some a) (Some m) w
  | None, b => set_metas (Some m) b w
  end.

Definition log_end (w : WalShm) : Z := if is_async then wal_appended w else wal_len w.
Definition count (c : Commit) (w : WalShm) : WalShm :=
  if is_async then set_words (wal_len w) (wal_ckpt w) (c_end c) w else set_words (c_end c) (wal_ckpt w) (wal_appended w) w.

(** A record that fits its 32-bit length, of pages of the data region. *)
Definition loggable (ids : list Z) (snap : Meta) (use : gset Z) (len : Z) (n : Node) : bool :=
  forallb (λ id, data_start <=? id) ids && bool_decide (NoDup ids) && bool_decide (use ⊆ c_use (newest n) ∪ list_to_set ids) &&
  (m_txn snap =? m_txn (c_meta (newest n)) + 1) && (len <? 2 ^ 32) &&
  forallb (λ z, (0 <=? z) && (z <? 2 ^ 64)) [m_txn snap; m_catalog_root snap; m_freelist_root snap; m_high_water snap; m_extent_map_root snap].

Definition set_disk (d : Disk) (n : Node) : Node := MkNode (vol n) d (pc n) (newest n) (cands n) (gap n).
Definition set_pc (p : Pc) (n : Node) : Node := MkNode (vol n) (disk n) p (newest n) (cands n) (gap n).
Definition set_vol (w : WalShm) (n : Node) : Node := MkNode w (disk n) (pc n) (newest n) (cands n) (gap n).

Definition log_step (ids : list Z) (snap : Meta) (use : gset Z) (n : Node) : option Node :=
  let w := vol n in
  let off := log_end w in
  match append_record xxh3 full_pages off ids snap w with
  | Ok (buf, w') =>
      if loggable ids snap use (Z.of_nat (length buf)) n then
        let d := disk n in
        let c := MkCommit snap ids (w_mem w) use off in
        Some (MkNode w' (MkDisk (d_mem d) (d_a d) (d_b d) (d_len d) (d_ckpt d) (Z.min (d_sync d) off)) (Logged c) (newest n) (c :: cands n) (gap n))
      else None
  | _ => None
  end.

(** The kernel writes back what it likes. *)
Definition back_step (ev : Event) (n : Node) : option Node :=
  let w := vol n in let d := disk n in
  match ev with
  | BackPage id mask =>
      match d_mem d !! Z.to_nat id, w_mem w !! Z.to_nat id with
      | Some old, Some new => Some (set_disk (MkDisk (<[Z.to_nat id := mix mask old new]> (d_mem d)) (d_a d) (d_b d) (d_len d) (d_ckpt d) (d_sync d)) n)
      | _, _ => None
      end
  | BackMeta A torn => Some (set_disk (MkDisk (d_mem d) (mix_meta torn (d_a d) (w_meta_a w)) (d_b d) (d_len d) (d_ckpt d) (d_sync d)) n)
  | BackMeta B torn => Some (set_disk (MkDisk (d_mem d) (d_a d) (mix_meta torn (d_b d) (w_meta_b w)) (d_len d) (d_ckpt d) (d_sync d)) n)
  | BackLen => Some (set_disk (MkDisk (d_mem d) (d_a d) (d_b d) (wal_len w) (d_ckpt d) (d_sync d)) n)
  | BackCkpt => Some (set_disk (MkDisk (d_mem d) (d_a d) (d_b d) (d_len d) (wal_ckpt w) (d_sync d)) n)
  | _ => None
  end.

Definition step (ev : Event) (n : Node) : option Node :=
  let w := vol n in let d := disk n in
  match ev, pc n with
  | Begin, Free => Some (set_pc InTxn n)
  | Store id p, InTxn =>
      if (data_start <=? id) && (id <? Z.of_nat (length (w_mem w))) && bool_decide (id ∉ c_use (newest n)) && bool_decide (length p = PAGE_SIZE)
      then Some (set_vol (set_pages (<[Z.to_nat id := p]> (w_mem w)) w) n) else None
  | Log ids snap use, InTxn => log_step ids snap use n
  | Sync, Logged c =>
      if is_async then None
      else Some (set_disk (MkDisk (d_mem d) (d_a d) (d_b d) (d_len d) (d_ckpt d) (c_end c)) (set_pc (Synced c) n))
  | Count, Logged c => if is_async then Some (MkNode (count c w) d (Counted c) (newest n) [] (gap n)) else None
  | Count, Synced c => Some (MkNode (count c w) d (Counted c) (newest n) [] (gap n))
  | Flip, Counted c => Some (MkNode (publish_meta (c_meta c) w) d Free c (cands n) (gap n))
  | Die, Free => None
  | Die, Counted _ => Some (MkNode w d Free (newest n) (cands n) true)
  | Die, _ => Some (set_pc Free n)
  | CkptBegin, Free => Some (MkNode w (MkDisk (w_mem w) (w_meta_a w) (w_meta_b w) (wal_len w) (wal_ckpt w) (d_sync d)) CkptSynced (newest n) (cands n) (gap n))
  | CkptStore, CkptSynced => Some (MkNode (store_ckpt is_async w) d CkptStored (newest n) (cands n) (gap n))
  | CkptLock, CkptStored => Some (MkNode w (MkDisk (d_mem d) (d_a d) (d_b d) (wal_len w) (wal_ckpt w) (d_sync d)) CkptDurable (newest n) (cands n) (gap n))
  | CkptPunch, CkptDurable => Some (MkNode (punch_hole (wal_ckpt w) w) d Free (newest n) (cands n) (gap n))
  | Flush, _ =>
      if is_async then
        Some (MkNode (wal_flush_deferred (wal_appended w) w) (MkDisk (d_mem d) (d_a d) (d_b d) (d_len d) (d_ckpt d) (Z.max (d_sync d) (wal_appended w)))
                (pc n) (newest n) (cands n) (gap n))
      else None
  | BackPage _ _, _ | BackMeta _ _, _ | BackLen, _ | BackCkpt, _ => back_step ev n
  | _, _ => None
  end.

Fixpoint run (evs : list Event) (n : Node) : option Node :=
  match evs with [] => Some n | ev :: evs => n' ← step ev n; run evs n' end.

(** * The state after the power came back *)

(** The log is as long as it was synced, and as it was where it was not
    reclaimed. *)
Definition log_kept (n : Node) (log : bytes) : Prop :=
  d_sync (disk n) ≤ Z.of_nat (length log) ∧ ∀ i, d_ckpt (disk n) ≤ Z.of_nat i < d_sync (disk n) → log !! i = w_log (vol n) !! i.

Definition has_record (c : Commit) (log : bytes) : Prop :=
  sub (Z.to_nat (c_off c)) (length (c_bytes c)) log = c_bytes c.

(** Where the records end. What lies beyond the last counted record is one of
    the records written there, or nothing with a valid checksum. *)
Definition torn_tail (n : Node) (log : bytes) : Prop :=
  let stops off := record_at xxh3 off (Z.of_nat (length (w_mem (vol n)))) log = None in
  stops (log_end (vol n)) ∨ ∃ c, c ∈ cands n ∧ has_record c log ∧ stops (c_end c).

Record power_loss (n : Node) (w : WalShm) : Prop := {
  pl_mem : w_mem w = d_mem (disk n);
  pl_metas : w_meta_a w = d_a (disk n) ∧ w_meta_b w = d_b (disk n);
  pl_words : wal_len w = d_len (disk n) ∧ wal_ckpt w = d_ckpt (disk n);
  pl_log : log_kept n (w_log w);
}.

(** A machine whose disk holds what the mapping shows. *)
Definition settled (w : WalShm) (c : Commit) : Node :=
  MkNode w (MkDisk (w_mem w) (w_meta_a w) (w_meta_b w) (wal_len w) (wal_ckpt w) (wal_len w)) Free c [] false.

Record start_ok (n : Node) : Prop := {
  so_settled : n = settled (vol n) (newest n);
  so_pages : Forall (λ p, length p = PAGE_SIZE) (w_mem (vol n));
  so_count : Z.of_nat (length (w_mem (vol n))) ≤ 2 ^ 64;
  so_log : 0 ≤ wal_ckpt (vol n) ∧ wal_ckpt (vol n) = wal_len (vol n) ∧ wal_len (vol n) ≤ Z.of_nat (length (w_log (vol n)));
  so_meta : newest_meta (vol n) = Some (c_meta (newest n));
  so_txn : is_uint 64 (m_txn (c_meta (newest n)));
  so_mem : c_mem (newest n) = w_mem (vol n);
  so_use : ∀ id, id ∈ c_use (newest n) → data_start ≤ id < Z.of_nat (length (w_mem (vol n)));
}.

(** The commit the log brings back: the newest counted one. *)
Definition counted (n : Node) : Commit := match pc n with Counted c => c | _ => newest n end.
End Machine.
