(* ===== verification/CrashInv.v ===== *)
(** The invariant of the log in [wal] mode: which records it holds, what the
    pages on disk still show, and that every step keeps this. *)

From stdpp Require Import gmap.
From S2P Require Import Prelude BtreeNode Lean Txn Wal WalCodec Crash.
Local Open Scope Z_scope.

Section Inv.
Context (xxh3 : bytes → Z) (full_pages : bool) (data_start : Z).
Context (xxh3_64 : ∀ b, is_uint 64 (xxh3 b)) (ds_pos : 0 ≤ data_start).
Abbreviation step := (step xxh3 full_pages data_start false).
Abbreviation run := (run xxh3 full_pages data_start false).
Abbreviation c_end := (c_end xxh3 full_pages).
Abbreviation c_bytes := (c_bytes xxh3 full_pages).
Abbreviation has_record := (has_record xxh3 full_pages).
Implicit Types (c b : Commit) (h : list Commit) (n : Node) (w : WalShm).

(** * Chains of commits *)

Record commit_ok (N : nat) c : Prop := {
  ck_record : record_wf full_pages (Z.of_nat N) (c_meta c) (c_pages c);
  ck_ids : Forall (λ id, data_start ≤ id < Z.of_nat N) (c_ids c);
  ck_mem : length (c_mem c) = N;
}.

(** [c] is built on [b]: what [b]'s snapshot uses, [c] did not touch. *)
Record follows b c : Prop := {
  fo_txn : m_txn (c_meta c) = m_txn (c_meta b) + 1;
  fo_use : c_use c ⊆ c_use b ∪ list_to_set (c_ids c);
  fo_mem : ∀ id, id ∈ c_use b → c_mem c !! Z.to_nat id = c_mem b !! Z.to_nat id;
}.

(** Histories have their newest commit first. *)
Definition top b h : Commit := match h with [] => b | c :: _ => c end.
Definition end_of (off : Z) h : Z := match h with [] => off | c :: _ => c_end c end.
Fixpoint chained (N : nat) b (off : Z) h : Prop :=
  match h with
  | [] => True
  | c :: h => commit_ok N c ∧ follows (top b h) c ∧ c_off c = end_of off h ∧ chained N b off h
  end.
Definition logs (id : Z) h : Prop := Exists (λ c, id ∈ c_ids c) h.

Lemma top_app b h2 h1 : top b (h2 ++ h1) = top (top b h1) h2.
Proof. by destruct h2. Qed.
Lemma end_of_app off h2 h1 : end_of off (h2 ++ h1) = end_of (end_of off h1) h2.
Proof. by destruct h2. Qed.

Lemma chained_app N b off h2 h1 : chained N b off (h2 ++ h1) ↔ chained N (top b h1) (end_of off h1) h2 ∧ chained N b off h1.
Proof.
  induction h2 as [|c h2 IH]; cbn [app chained]; [naive_solver|]. rewrite top_app, end_of_app, IH. naive_solver.
Qed.

Lemma c_end_ge c : c_off c + 60 ≤ c_end c.
Proof. unfold Crash.c_end, Crash.c_bytes. rewrite length_record. unfold WAL_RECORD_FIXED. lia. Qed.

Lemma chained_off N b off h : chained N b off h → off + Z.of_nat (length h) ≤ end_of off h ∧ Forall (λ c, off ≤ c_off c ∧ c_end c ≤ end_of off h) h.
Proof.
  induction h as [|c h IH]; cbn [chained end_of length]; [intros _; split; [lia|constructor]|]. intros (_&_&Ho&Hc). destruct (IH Hc) as [H1 H2].
  pose proof (c_end_ge c). split; [lia|]. constructor; [lia|]. eapply Forall_impl; [exact H2|]. cbn. lia.
Qed.

(** * The log *)

Lemma has_record_lookup c log : 0 ≤ c_off c → has_record c log ↔
  ∀ i, (i < length (c_bytes c))%nat → log !! (Z.to_nat (c_off c) + i)%nat = c_bytes c !! i.
Proof.
  intros H0. unfold Crash.has_record. split.
  - intros Hs i Hi. by rewrite <- Hs, lookup_sub, decide_True.
  - intros Hl. apply list_eq. intros i. rewrite lookup_sub. case_decide; [by apply Hl|]. by rewrite lookup_ge_None_2 by lia.
Qed.

Lemma has_record_keep c log log' : 0 ≤ c_off c →
  (∀ i, c_off c ≤ Z.of_nat i < c_end c → log' !! i = log !! i) → has_record c log → has_record c log'.
Proof.
  intros H0 Hk. rewrite !has_record_lookup by done. intros Hl i Hi. rewrite Hk by (unfold Crash.c_end; lia). by apply Hl.
Qed.

Lemma has_record_len c log : 0 ≤ c_off c → has_record c log → c_end c ≤ Z.of_nat (length log).
Proof.
  intros H0 Hs. unfold Crash.has_record in Hs. apply (f_equal length) in Hs. unfold sub in Hs. rewrite length_take, length_drop in Hs.
  pose proof (c_end_ge c). unfold Crash.c_end in *. lia.
Qed.

Lemma has_record_at N c log : 0 ≤ c_off c → Z.of_nat N ≤ 2 ^ 64 → commit_ok N c → has_record c log →
  record_at xxh3 (c_off c) (Z.of_nat N) log = Some (record_of full_pages (c_meta c) (c_pages c)).
Proof.
  intros H0 HN [Hr _ _] Hs. pose proof (has_record_len c log H0 Hs) as Hl. pose proof (c_end_ge c).
  assert (log = take (Z.to_nat (c_off c)) log ++ c_bytes c ++ drop (Z.to_nat (c_off c) + length (c_bytes c)) log) as ->.
  { rewrite <- Hs at 1. unfold sub. rewrite <- drop_drop, take_drop. by rewrite take_drop. }
  apply record_at_here; try done. rewrite length_take. lia.
Qed.

(** Writing a record at the end of the log. *)
Lemma dirty_pages_spec ids w xs : dirty_pages ids w = Ok xs →
  xs = map (λ id, (id, default [] (w_mem w !! Z.to_nat id))) ids ∧ Forall (λ id, id < Z.of_nat (length (w_mem w))) ids.
Proof.
  revert xs. induction ids as [|id ids IH]; intros xs; cbn [dirty_pages map]; [by intros [= <-]|]. destruct (Z.leb_spec (Z.of_nat (length (w_mem w))) id); [done|].
  destruct (w_mem w !! Z.to_nat id) as [img|] eqn:E; [|done]. cbn [res_of_option mbind res_mbind]. destruct (dirty_pages ids w) as [rest| |]; [|done..].
  cbn. intros [= <-]. destruct (IH rest eq_refl) as [-> ?]. split; [done|]. by constructor.
Qed.

Lemma write_log_spec buf off w : 0 ≤ off ≤ Z.of_nat (length (w_log w)) → let w' := write_log buf off (wal_ensure_alloc (off + Z.of_nat (length buf)) w) in
  (w_mem w' = w_mem w ∧ w_meta_a w' = w_meta_a w ∧ w_meta_b w' = w_meta_b w ∧ wal_len w' = wal_len w ∧ wal_ckpt w' = wal_ckpt w) ∧
  (∀ i, Z.of_nat i < off → w_log w' !! i = w_log w !! i) ∧ sub (Z.to_nat off) (length buf) (w_log w') = buf.
Proof.
  intros Hoff. cbn zeta. set (w1 := wal_ensure_alloc _ w).
  assert ((w_mem w1 = w_mem w ∧ w_meta_a w1 = w_meta_a w ∧ w_meta_b w1 = w_meta_b w ∧ wal_len w1 = wal_len w ∧ wal_ckpt w1 = wal_ckpt w) ∧
    ∃ z, w_log w1 = w_log w ++ z) as [H1 [z Hz]].
  { unfold w1, wal_ensure_alloc. case_match; [split; [done|]; exists []; by rewrite app_nil_r|]. cbn. split; [done|eauto]. }
  split; [done|]. cbn [w_log write_log set_log]. rewrite Hz. set (o := Z.to_nat off).
  assert (length (take o (w_log w ++ z)) = o) as Ho by (rewrite length_take, length_app; lia). split.
  - intros i Hi. rewrite lookup_app_l by lia. rewrite lookup_take_lt by lia. by rewrite lookup_app_l by lia.
  - rewrite length_app. replace (o - (length (w_log w) + length z))%nat with 0%nat by lia. cbn [replicate app].
    rewrite sub_app_r by lia. replace (o - length (take o (w_log w ++ z)))%nat with 0%nat by lia. apply sub_app_exact.
Qed.

(** * The invariant *)

(** [h1] lies between the checkpoint on disk and the one in memory, [h2]
    between that and the end of the log; [b] is the commit [h1] starts from. *)
Record inv b h1 h2 n : Prop := {
  i_pages : Forall (λ p, length p = PAGE_SIZE) (w_mem (vol n)) ∧ Forall (λ p, length p = PAGE_SIZE) (d_mem (disk n));
  i_count : length (d_mem (disk n)) = length (w_mem (vol n)) ∧ Z.of_nat (length (w_mem (vol n))) ≤ 2 ^ 64;
  i_chain : chained (length (w_mem (vol n))) b (d_ckpt (disk n)) (h2 ++ h1);
  i_ckpt : 0 ≤ d_ckpt (disk n) ∧ end_of (d_ckpt (disk n)) h1 = wal_ckpt (vol n) ∧ end_of (d_ckpt (disk n)) (h2 ++ h1) = wal_len (vol n);
  i_log : Forall (λ c, has_record c (w_log (vol n))) (h2 ++ h1);
  i_sync : d_len (disk n) ≤ wal_len (vol n) ∧ wal_len (vol n) ≤ d_sync (disk n) ≤ Z.of_nat (length (w_log (vol n)));
  i_top : top b (h2 ++ h1) = counted n;
  i_use : ∀ id, id ∈ c_use (counted n) → data_start ≤ id < Z.of_nat (length (w_mem (vol n))) ∧ w_mem (vol n) !! Z.to_nat id = c_mem (counted n) !! Z.to_nat id;
  i_cands : Forall (λ c, commit_ok (length (w_mem (vol n))) c ∧ follows (counted n) c ∧ c_off c = wal_len (vol n)) (cands n);
  i_disk : ∀ id, id ∈ c_use (counted n) → ¬ logs id h2 → d_mem (disk n) !! Z.to_nat id = c_mem (counted n) !! Z.to_nat id;
  i_meta : newest_meta (vol n) = Some (c_meta (newest n)) ∧ is_uint 64 (m_txn (c_meta (newest n)));
  i_dmeta : h2 = [] → d_a (disk n) = w_meta_a (vol n) ∧ d_b (disk n) = w_meta_b (vol n);
  i_pc : match pc n with
         | Logged c => c ∈ cands n ∧ has_record c (w_log (vol n)) ∧ w_mem (vol n) = c_mem c
         | Synced c => c ∈ cands n ∧ has_record c (w_log (vol n)) ∧ w_mem (vol n) = c_mem c ∧ d_sync (disk n) = c_end c
         | Counted c => h2 ≠ [] ∧ follows (newest n) c ∧ is_uint 64 (m_txn (c_meta c))
         | CkptSynced => (∀ id, id ∈ c_use (counted n) → d_mem (disk n) !! Z.to_nat id = c_mem (counted n) !! Z.to_nat id) ∧
             d_a (disk n) = w_meta_a (vol n) ∧ d_b (disk n) = w_meta_b (vol n)
         | CkptDurable => d_ckpt (disk n) = wal_ckpt (vol n)
         | _ => True
         end;
}.

Lemma log_inv_start n : start_ok data_start n → inv (newest n) [] [] n.
Proof.
  destruct n as [v d p c cs g]. intros [S0 S1 S2 (S3&S4&S5) S6 S7 S8 S9]. unfold settled in S0. cbn [vol newest] in *.
  injection S0 as -> -> -> ->. split; cbn; try done.
  - intros id Hid. split; [by apply S9|by rewrite S8].
  - intros id _ _. by rewrite S8.
Qed.

(** * Steps *)

Lemma inv_store b h1 h2 n id p : inv b h1 h2 n → pc n = InTxn → data_start ≤ id < Z.of_nat (length (w_mem (vol n))) → id ∉ c_use (newest n) →
  length p = PAGE_SIZE → inv b h1 h2 (set_vol (set_pages (<[Z.to_nat id := p]> (w_mem (vol n))) (vol n)) n).
Proof.
  intros [I1 I2 I3 I4 I5 I6 I7 I8 I9 I10 I11 I12 I13] Hpc Hid Hni Hp. unfold counted in *. rewrite Hpc in *.
  split; unfold counted; cbn; rewrite ?length_insert, ?Hpc; try done.
  - split; [apply Forall_insert; [apply I1|done]|apply I1].
  - intros j Hj. destruct (I8 j Hj) as [? Hm]. split; [done|]. rewrite list_lookup_insert_ne; [done|]. intros Heq.
    assert (id = j) as -> by lia. done.
Qed.

Lemma length_mix mask old new : length (mix mask old new) = length new.
Proof. revert old new. induction mask as [|m mask IH]; intros [|o old] [|x new]; try done. cbn. by rewrite IH. Qed.
Lemma mix_same mask p : mix mask p p = p.
Proof. revert p. induction mask as [|m mask IH]; intros [|x p]; try done. cbn. rewrite IH. by destruct m. Qed.
Lemma mix_meta_same torn m : mix_meta torn m m = m.
Proof. unfold mix_meta. by rewrite bool_decide_true. Qed.

Lemma inv_back_page b h1 h2 n id mask old new : inv b h1 h2 n → d_mem (disk n) !! Z.to_nat id = Some old → w_mem (vol n) !! Z.to_nat id = Some new →
  inv b h1 h2 (set_disk (MkDisk (<[Z.to_nat id := mix mask old new]> (d_mem (disk n))) (d_a (disk n)) (d_b (disk n)) (d_len (disk n)) (d_ckpt (disk n)) (d_sync (disk n))) n).
Proof.
  intros [I1 I2 I3 I4 I5 I6 I7 I8 I9 I10 I11 I12 I13] Ho Hn.
  assert (∀ j, j ∈ c_use (counted n) → d_mem (disk n) !! Z.to_nat j = c_mem (counted n) !! Z.to_nat j →
    <[Z.to_nat id := mix mask old new]> (d_mem (disk n)) !! Z.to_nat j = c_mem (counted n) !! Z.to_nat j) as Hsame.
  { intros j Hj Hd. destruct (I8 j Hj) as [_ Hm]. destruct (decide (Z.to_nat id = Z.to_nat j)) as [He|]; [|by rewrite list_lookup_insert_ne].
    rewrite <- He in *. rewrite list_lookup_insert_eq by (by eapply lookup_lt_Some). rewrite <- Hd, Ho. rewrite Ho in Hd. rewrite Hn in Hm.
    assert (old = new) as -> by congruence. by rewrite mix_same. }
  split; unfold set_disk; cbn; rewrite ?length_insert; try done.
  - split; [apply I1|]. apply Forall_insert; [apply I1|]. rewrite length_mix. eapply (Forall_lookup_1 _ _ _ _ (proj1 I1) Hn).
  - intros j Hj Hl. apply Hsame; [done|]. by apply I10.
  - unfold counted in *. cbn. destruct (pc n); try done. destruct I13 as [Hd ?]. split; [|done]. intros j Hj. apply Hsame; [done|]. by apply Hd.
Qed.

Lemma inv_back_meta b h1 h2 n ta tb xa xb : inv b h1 h2 n → xa = d_a (disk n) ∨ xa = mix_meta ta (d_a (disk n)) (w_meta_a (vol n)) →
  xb = d_b (disk n) ∨ xb = mix_meta tb (d_b (disk n)) (w_meta_b (vol n)) →
  inv b h1 h2 (set_disk (MkDisk (d_mem (disk n)) xa xb (d_len (disk n)) (d_ckpt (disk n)) (d_sync (disk n))) n).
Proof.
  intros [I1 I2 I3 I4 I5 I6 I7 I8 I9 I10 I11 I12 I13] Ha Hb.
  assert (d_a (disk n) = w_meta_a (vol n) → xa = w_meta_a (vol n)) as Ha' by (intros E; destruct Ha as [->| ->]; [done|]; by rewrite E, mix_meta_same).
  assert (d_b (disk n) = w_meta_b (vol n) → xb = w_meta_b (vol n)) as Hb' by (intros E; destruct Hb as [->| ->]; [done|]; by rewrite E, mix_meta_same).
  split; unfold set_disk; cbn; try done.
  - intros Hh. destruct (I12 Hh). auto.
  - destruct (pc n) eqn:Epc; try done. destruct I13 as (?&?&?). split_and!; [|by apply Ha'|by apply Hb']. unfold counted in *. cbn. by rewrite Epc in *.
Qed.

(** The checkpoint on disk catches up with the one in memory. *)
Lemma inv_ckpt_back b h1 h2 n len : inv b h1 h2 n → len ≤ wal_len (vol n) →
  inv (top b h1) [] h2 (set_disk (MkDisk (d_mem (disk n)) (d_a (disk n)) (d_b (disk n)) len (wal_ckpt (vol n)) (d_sync (disk n))) n).
Proof.
  intros [I1 I2 I3 (K1&K2&K3) I5 I6 I7 I8 I9 I10 I11 I12 I13] Hlen. apply chained_app in I3 as [C2 C1]. rewrite K2 in C2.
  destruct (chained_off _ _ _ _ C1) as [Hge _]. rewrite end_of_app, K2 in K3. apply Forall_app in I5 as [L2 _].
  split; unfold set_disk; cbn; rewrite ?app_nil_r; try done.
  - split; [lia|done].
  - lia.
  - by rewrite <- top_app.
  - unfold counted in *. cbn. by destruct (pc n).
Qed.

(** A step of the writer that changes neither the mapping nor the disk. *)
Lemma inv_pc b h1 h2 n p : inv b h1 h2 n → (∀ c, pc n ≠ Counted c) → p = Free ∨ p = InTxn → inv b h1 h2 (set_pc p n).
Proof.
  intros [I1 I2 I3 I4 I5 I6 I7 I8 I9 I10 I11 I12 I13] Hn Hp.
  assert (counted (set_pc p n) = counted n) as Hc by (unfold counted, set_pc; cbn; destruct Hp as [->| ->], (pc n); naive_solver).
  split; rewrite ?Hc; cbn; try done. by destruct Hp as [->| ->].
Qed.

Lemma pages_of_ok N mem ids : length mem = N → Forall (λ p, length p = PAGE_SIZE) mem → Forall (λ id, data_start ≤ id < Z.of_nat N) ids →
  Forall (logged (Z.of_nat N)) (map (λ id, (id, default [] (mem !! Z.to_nat id))) ids).
Proof.
  intros HN Hm. induction 1 as [|id ids Hid _ IH]; cbn [map]; constructor; [|done]. split; cbn [fst snd]; [lia|].
  destruct (lookup_lt_is_Some_2 mem (Z.to_nat id)) as [p Hp]; [lia|]. rewrite Hp. cbn. by apply (Forall_lookup_1 _ _ _ _ Hm Hp).
Qed.

Lemma ids_count (N : nat) ids : NoDup ids → Forall (λ id, 0 ≤ id < Z.of_nat N) ids → (length ids ≤ N)%nat.
Proof.
  intros Hd Hi. replace N with (length (seqZ 0 (Z.of_nat N))) by (rewrite length_seqZ; lia). apply submseteq_length, NoDup_submseteq; [done|].
  intros id Hid. apply elem_of_seqZ. rewrite Forall_forall in Hi. apply Hi in Hid. lia.
Qed.
(** The record of a commit is written. *)
Lemma inv_log b h1 h2 n ids snap use n' : inv b h1 h2 n → pc n = InTxn →
  log_step xxh3 full_pages data_start false ids snap use n = Some n' → inv b h1 h2 n'.
Proof.
  intros [I1 I2 I3 I4 I5 I6 I7 I8 I9 I10 I11 I12 I13] Hpc. unfold log_step, append_record. cbn zeta. unfold log_end.
  assert (counted n = newest n) as Hcn by (unfold counted; by rewrite Hpc). rewrite Hcn in *.
  destruct (dirty_pages ids (vol n)) as [xs| |] eqn:Ed; [|done..]. cbn [mbind res_mbind]. destruct (loggable _ _ _ _ _ _) eqn:El; [|done]. intros [= <-].
  apply dirty_pages_spec in Ed as [-> Hlt]. destruct (chained_off _ _ _ _ I3) as [Hge Hends]. destruct I4 as (K1&K2&K3).
  destruct (write_log_spec (encode_wal_record xxh3 full_pages (wal_len (vol n)) snap (map (λ id, (id, default [] (w_mem (vol n) !! Z.to_nat id))) ids)) (wal_len (vol n)) (vol n)) as ((W1&W2&W3&W4&W5)&Wlow&Wrec); [lia|].
  set (w' := write_log _ _ _) in *. set (c := MkCommit snap ids (w_mem (vol n)) use (wal_len (vol n))).
  assert (has_record c (w_log w')) as Hrec by exact Wrec.
  pose proof (has_record_len c _ ltac:(cbn; lia) Hrec) as Hcl. pose proof (c_end_ge c) as Hce. cbn [c_off c] in Hce.
  unfold loggable in El. repeat (apply andb_prop in El as [El ?]). rename H into Hu, H0 into H32, H1 into Htx, H2 into Huse, H3 into Hnd.
  apply bool_decide_eq_true in Huse, Hnd. apply Z.eqb_eq in Htx. apply Z.ltb_lt in H32.
  assert (Forall (λ id, data_start ≤ id < Z.of_nat (length (w_mem (vol n)))) ids) as Hids.
  { rewrite Forall_forall in *. intros id Hid. split; [|by apply Hlt]. rewrite forallb_forall in El. apply Z.leb_le, El. by apply list_elem_of_In. }
  assert (commit_ok (length (w_mem (vol n))) c) as Hck.
  { split; [|done|done]. split; cbn [c_meta c].
    - cbn [forallb] in Hu. split; unfold is_uint; lia.
    - by apply pages_of_ok; [done|apply I1|].
    - unfold c_pages. rewrite length_map. apply inj_le, ids_count; [done|]. eapply Forall_impl; [exact Hids|]. cbn. lia.
    - rewrite length_record in H32. exact H32. }
  assert (follows (newest n) c) as Hfo.
  { split; [done|done|]. intros id Hid. by apply I8. }
  split; unfold counted; cbn [vol disk pc newest cands gap d_mem d_a d_b d_len d_ckpt d_sync]; rewrite ?W1, ?W2, ?W3, ?W4, ?W5; try done.
  - rewrite Forall_forall in *. intros x Hx. specialize (Hends x Hx). apply (has_record_keep x (w_log (vol n))); [lia| |by apply I5].
    intros i Hi. apply Wlow. lia.
  - lia.
  - by constructor.
  - by unfold newest_meta in *; rewrite W2, W3.
  - split_and!; [by left|done|done].
Qed.

(** Its record is synced, and then counted. *)
Lemma inv_sync b h1 h2 n c : inv b h1 h2 n → pc n = Logged c →
  inv b h1 h2 (set_disk (MkDisk (d_mem (disk n)) (d_a (disk n)) (d_b (disk n)) (d_len (disk n)) (d_ckpt (disk n)) (c_end c)) (set_pc (Synced c) n)).
Proof.
  intros [I1 I2 I3 I4 I5 I6 I7 I8 I9 I10 I11 I12 I13] Hpc. assert (counted n = newest n) as Hcn by (unfold counted; by rewrite Hpc). rewrite Hpc, Hcn in *.
  destruct I13 as (Hc&Hr&Hm). rewrite Forall_forall in I9. destruct (I9 c Hc) as (Hck&Hfo&Hoff).
  destruct (chained_off _ _ _ _ I3) as [Hge _]. assert (0 ≤ c_off c) as H0 by lia. pose proof (has_record_len c _ H0 Hr). pose proof (c_end_ge c).
  split; unfold counted; cbn; try done.
  - lia.
  - by rewrite Forall_forall.
Qed.

Lemma inv_count b h1 h2 n c : inv b h1 h2 n → pc n = Synced c → inv b h1 (c :: h2) (MkNode (count xxh3 full_pages false c (vol n)) (disk n) (Counted c) (newest n) [] (gap n)).
Proof.
  intros [I1 I2 I3 I4 I5 I6 I7 I8 I9 I10 I11 I12 I13] Hpc. assert (counted n = newest n) as Hcn by (unfold counted; by rewrite Hpc). rewrite Hpc, Hcn in *.
  destruct I13 as (Hc&Hr&Hm&Hs). rewrite Forall_forall in I9. destruct (I9 c Hc) as (Hck&Hfo&Hoff). destruct Hfo as [F1 F2 F3]. destruct I4 as (K1&K2&K3).
  pose proof (c_end_ge c). split; unfold counted; cbn; try done.
  - split_and!; [done| |congruence|done]. rewrite I7. done.
  - by constructor.
  - lia.
  - intros id Hid. split; [|by rewrite Hm]. apply F2, elem_of_union in Hid as [Hid|Hid]; [by apply I8|]. apply elem_of_list_to_set in Hid.
    destruct Hck as [_ Hids _]. rewrite Forall_forall in Hids. by apply Hids.
  - intros id Hid Hl. assert ((id ∉ c_ids c) ∧ (¬ logs id h2)) as [Hn1 Hn2] by (split; intros ?; apply Hl; unfold logs; [by left|by right]).
    apply F2, elem_of_union in Hid as [Hid|Hid%elem_of_list_to_set]; [|done]. rewrite F3 by done. by apply I10.
  - split_and!; [done|done|]. destruct Hck as [[[? _ _ _ _] _ _ _] _ _]. done.
Qed.
Lemma newest_publish w m m0 : newest_meta w = Some m0 → m_txn m0 < m_txn m → newest_meta (publish_meta m w) = Some m.
Proof.
  intros Hm Hlt. unfold newest_meta, publish_meta in *. destruct (w_meta_a w) as [x|], (w_meta_b w) as [y|]; [|injection Hm as ->; cbn; f_equal; case_match; try done; lia..|done].
  destruct (Z.leb_spec (m_txn y) (m_txn x)); injection Hm as ->; cbn; f_equal; case_match; try done; lia.
Qed.

Lemma publish_rest m w : let w' := publish_meta m w in
  w_mem w' = w_mem w ∧ wal_len w' = wal_len w ∧ wal_ckpt w' = wal_ckpt w ∧ w_log w' = w_log w.
Proof. cbn zeta. unfold publish_meta. repeat case_match; done. Qed.

Lemma inv_flip b h1 h2 n c : inv b h1 h2 n → pc n = Counted c → inv b h1 h2 (MkNode (publish_meta (c_meta c) (vol n)) (disk n) Free c (cands n) (gap n)).
Proof.
  intros [I1 I2 I3 I4 I5 I6 I7 I8 I9 I10 I11 I12 I13] Hpc. unfold counted in *. rewrite Hpc in *. destruct I13 as (Hne&Hfo&Hu).
  destruct (publish_rest (c_meta c) (vol n)) as (P1&P2&P3&P4). destruct I11 as [M1 M2].
  split; unfold counted; cbn [vol disk pc newest cands gap]; rewrite ?P1, ?P2, ?P3, ?P4; try done.
  split; [|done]. apply (newest_publish _ _ _ M1). rewrite (fo_txn _ _ Hfo). lia.
Qed.

(** * Checkpoints *)

Lemma inv_ckpt_begin b h1 h2 n : inv b h1 h2 n → pc n = Free →
  inv (top b h1) [] h2 (MkNode (vol n) (MkDisk (w_mem (vol n)) (w_meta_a (vol n)) (w_meta_b (vol n)) (wal_len (vol n)) (wal_ckpt (vol n)) (d_sync (disk n))) CkptSynced (newest n) (cands n) (gap n)).
Proof.
  intros Hi Hpc. apply (inv_ckpt_back _ _ _ _ (wal_len (vol n))) in Hi; [|done]. destruct Hi as [I1 I2 I3 I4 I5 I6 I7 I8 I9 I10 I11 I12 I13].
  unfold counted in *. cbn in *. rewrite Hpc in *. split; unfold counted; cbn; try done.
  - split; apply I1.
  - split; [done|apply I2].
  - intros id Hid _. by apply I8.
  - split; [|done]. intros id Hid. by apply I8.
Qed.

Lemma inv_ckpt_store b h1 h2 n : inv b h1 h2 n → pc n = CkptSynced → inv b (h2 ++ h1) [] (MkNode (store_ckpt false (vol n)) (disk n) CkptStored (newest n) (cands n) (gap n)).
Proof.
  intros [I1 I2 I3 (K1&K2&K3) I5 I6 I7 I8 I9 I10 I11 I12 I13] Hpc. unfold counted in *. rewrite Hpc in *. destruct I13 as (D1&D2&D3).
  split; unfold counted; cbn; try done. intros id Hid _. by apply D1.
Qed.

Lemma inv_ckpt_lock b h1 h2 n : inv b h1 h2 n → pc n = CkptStored →
  inv (top b h1) [] h2 (MkNode (vol n) (MkDisk (d_mem (disk n)) (d_a (disk n)) (d_b (disk n)) (wal_len (vol n)) (wal_ckpt (vol n)) (d_sync (disk n))) CkptDurable (newest n) (cands n) (gap n)).
Proof.
  intros Hi Hpc. apply (inv_ckpt_back _ _ _ _ (wal_len (vol n))) in Hi; [|done]. destruct Hi as [I1 I2 I3 I4 I5 I6 I7 I8 I9 I10 I11 I12 I13].
  unfold counted in *. cbn in *. rewrite Hpc in *. by split.
Qed.

Lemma punch_rest len w : 0 ≤ len ≤ Z.of_nat (length (w_log w)) → let w' := punch_hole len w in
  length (w_log w') = length (w_log w) ∧ ∀ i, len ≤ Z.of_nat i → w_log w' !! i = w_log w !! i.
Proof.
  intros Hl. cbn. split.
  - rewrite length_app, length_replicate, length_drop. lia.
  - intros i Hi. rewrite lookup_app_r by (rewrite length_replicate; lia). rewrite lookup_drop, length_replicate. f_equal. lia.
Qed.

Lemma inv_ckpt_punch b h1 h2 n : inv b h1 h2 n → pc n = CkptDurable → inv b h1 h2 (MkNode (punch_hole (wal_ckpt (vol n)) (vol n)) (disk n) Free (newest n) (cands n) (gap n)).
Proof.
  intros [I1 I2 I3 (K1&K2&K3) I5 I6 I7 I8 I9 I10 I11 I12 I13] Hpc. unfold counted in *. rewrite Hpc in *.
  destruct (chained_off _ _ _ _ I3) as [Hge Hends]. rewrite K3 in Hge. destruct (punch_rest (wal_ckpt (vol n)) (vol n)) as [P1 P2]; [lia|].
  split; unfold counted; cbn [vol disk pc newest cands gap]; try done.
  - rewrite Forall_forall in *. intros x Hx. specialize (Hends x Hx). apply (has_record_keep x (w_log (vol n))); [lia| |by apply I5].
    intros i Hi. apply P2. lia.
  - rewrite P1. exact I6.
Qed.

(** * Every step *)

Definition holds_inv n : Prop := ∃ b h1 h2, inv b h1 h2 n.

Lemma step_gap ev n n' : step ev n = Some n' → gap n' = false → gap n = false.
Proof.
  unfold Crash.step, log_step, back_step. cbn zeta. destruct ev, (pc n); try done; repeat case_match; try done; by intros [= <-].
Qed.

Lemma inv_back ev n n' : holds_inv n → back_step ev n = Some n' → holds_inv n'.
Proof.
  intros (b&h1&h2&Hi). destruct ev as [| | | | | | | | | | | |id mask|side torn| |]; try done; cbn [back_step].
  - destruct (d_mem (disk n) !! Z.to_nat id) eqn:Eo; [|done]. destruct (w_mem (vol n) !! Z.to_nat id) eqn:En; [|done]. intros [= <-].
    exists b, h1, h2. by eapply inv_back_page.
  - destruct side; intros [= <-]; exists b, h1, h2; eapply (inv_back_meta _ _ _ _ torn torn); eauto.
  - intros [= <-]. exists b, h1, h2. destruct Hi as [I1 I2 I3 I4 I5 I6 I7 I8 I9 I10 I11 I12 I13]. split; try done. cbn. lia.
  - intros [= <-]. exists (top b h1), [], h2. apply inv_ckpt_back; [done|]. apply (i_sync _ _ _ _ Hi).
Qed.

(** A writer that dies before it published its meta page leaves [gap]. *)
Lemma log_inv_step ev n n' : holds_inv n → step ev n = Some n' → gap n' = false → holds_inv n'.
Proof.
  intros Hh Hs Hg. pose proof (inv_back ev n n' Hh) as Hback. destruct Hh as (b&h1&h2&Hi).
  unfold Crash.step in Hs. cbn zeta in Hs. destruct ev, (pc n) eqn:Epc; try done; try (by apply Hback).
  all: try (injection Hs as <-; try discriminate Hg).
  all: try (by exists b, h1, h2; apply inv_pc; [done|rewrite Epc; done|auto]).
  - case_match eqn:E; [|done]. injection Hs as <-. repeat (apply andb_prop in E as [E ?]).
    exists b, h1, h2. apply inv_store; [done|done|lia|by eapply bool_decide_eq_true|by eapply bool_decide_eq_true].
  - exists b, h1, h2. by eapply inv_log.
  - exists b, h1, h2. by apply inv_sync.
  - eexists b, h1, (_ :: h2). by apply inv_count.
  - exists b, h1, h2. by apply inv_flip.
  - exists (top b h1), [], h2. by apply inv_ckpt_begin.
  - exists b, (h2 ++ h1), []. by apply inv_ckpt_store.
  - exists (top b h1), [], h2. by apply inv_ckpt_lock.
  - exists b, h1, h2. by apply inv_ckpt_punch.
Qed.

Lemma inv_run evs n n' : run evs n = Some n' → gap n' = false → holds_inv n → holds_inv n' ∧ gap n = false.
Proof.
  revert n. induction evs as [|ev evs IH]; intros n; cbn; [by intros [= <-]|]. destruct (Crash.step _ _ _ _ ev n) as [m|] eqn:Es; [|done]. cbn. intros Hr Hg Hi.
  assert (gap m = false) as Hm.
  { clear -Hr Hg. revert m Hr. induction evs as [|ev evs IH]; intros m; cbn; [by intros [= <-]|]. destruct (Crash.step _ _ _ _ ev m) as [k|] eqn:Es; [|done]. cbn.
    intros Hr. eapply step_gap; [done|]. by apply (IH k). }
  split; [|by eapply step_gap]. apply (IH m Hr Hg). by eapply log_inv_step.
Qed.
End Inv.
