(* ===== verification/WalRecover.v ===== *)
(** Recovery after a power loss: the log's records are replayed to their end,
    and every page of the newest logged commit reads as it was committed. *)

From stdpp Require Import gmap.
From S2P Require Import Prelude BtreeNode Lean Txn Wal WalCodec Crash CrashInv.
Local Open Scope Z_scope.

Section Recover.
Context (xxh3 : bytes → Z) (full_pages : bool) (data_start : Z).
Context (xxh3_64 : ∀ b, is_uint 64 (xxh3 b)) (ds_pos : 0 ≤ data_start).
Abbreviation c_end := (c_end xxh3 full_pages).
Abbreviation has_record := (has_record xxh3 full_pages).
Abbreviation chained := (chained xxh3 full_pages data_start).
Abbreviation end_of := (end_of xxh3 full_pages).
Abbreviation commit_ok := (commit_ok full_pages data_start).
Implicit Types (c b : Commit) (h : list Commit) (n : Node) (w : WalShm).

(** * Replay of one record *)

Definition put_images (xs : list (Z * bytes)) (mem : list bytes) : list bytes :=
  foldl (λ m x, <[Z.to_nat x.1 := restored full_pages x.2]> m) mem xs.

Lemma put_cons x xs mem : put_images (x :: xs) mem = put_images xs (<[Z.to_nat x.1 := restored full_pages x.2]> mem).
Proof. done. Qed.

Lemma length_put xs mem : length (put_images xs mem) = length mem.
Proof. unfold put_images. revert mem. induction xs as [|x xs IH]; intros mem; cbn; [done|]. by rewrite IH, length_insert. Qed.

Lemma put_whole N xs mem : Forall (logged N) xs → Forall (λ p, length p = PAGE_SIZE) mem → Forall (λ p, length p = PAGE_SIZE) (put_images xs mem).
Proof.
  intros Hx. revert mem. induction Hx as [|x xs [_ Hl] _ IH]; intros mem Hm; cbn; [done|]. apply IH, Forall_insert; [done|]. by apply length_restored.
Qed.

Lemma replay_put xs mem : Forall (logged (Z.of_nat (length mem))) xs → Forall (λ p, length p = PAGE_SIZE) mem →
  replay_pages (map (λ x, (x.1, img_of full_pages x.2)) xs) mem = (Ok tt, put_images xs mem).
Proof.
  revert mem. induction xs as [|x xs IH]; intros mem Hx Hm; [done|]. apply Forall_cons in Hx as [[Hid Hl] Hx]. cbn [map replay_pages put_images foldl].
  destruct (lookup_lt_is_Some_2 mem (Z.to_nat x.1)) as [dst Hd]; [lia|]. pose proof (Forall_lookup_1 _ _ _ _ Hm Hd) as Hdl.
  unfold mbind, M_mbind, update. destruct (Z.leb_spec (Z.of_nat (length mem)) x.1); [lia|]. rewrite Hd. cbn [res_of_option mbind res_mbind].
  cbn in Hdl. rewrite (write_img full_pages _ _ Hl Hdl). apply IH; [by rewrite length_insert|]. apply Forall_insert; [done|]. by apply length_restored.
Qed.

Lemma put_other xs mem j : Forall (λ x, Z.to_nat x.1 ≠ j) xs → put_images xs mem !! j = mem !! j.
Proof. intros Hx. revert mem. induction Hx as [|x xs Hx _ IH]; intros mem; cbn; [done|]. etrans; [apply IH|]. by apply list_lookup_insert_ne. Qed.

(** A page of the record reads as it was logged. *)
Lemma put_page (src : list bytes) ids mem id p : id ∈ ids → Forall (λ i, 0 ≤ i < Z.of_nat (length mem)) ids → src !! Z.to_nat id = Some p →
  put_images (map (λ i, (i, default [] (src !! Z.to_nat i))) ids) mem !! Z.to_nat id = Some (restored full_pages p).
Proof.
  intros Hin Hb Hp. revert mem Hb. induction ids as [|i ids IH]; intros mem Hb; [by apply elem_of_nil in Hin|]. apply Forall_cons in Hb as [Hi Hb].
  cbn [map]. rewrite put_cons. cbn [fst snd]. destruct (decide (id ∈ ids)) as [Hid|Hid]; [by apply IH; [|rewrite length_insert]|].
  apply elem_of_cons in Hin as [->|?]; [|done]. rewrite put_other.
  - rewrite list_lookup_insert_eq by lia. by rewrite Hp.
  - apply Forall_map, Forall_forall. intros j Hj. cbn. rewrite Forall_forall in Hb. specialize (Hb j Hj). intros Heq. by assert (j = i) as -> by lia.
Qed.

(** * Replay of a history *)

Fixpoint replay_all h (mem : list bytes) : list bytes :=
  match h with [] => mem | c :: h => put_images (c_pages c) (replay_all h mem) end.

Lemma length_replay h mem : length (replay_all h mem) = length mem.
Proof. induction h as [|c h IH]; cbn; [done|]. by rewrite length_put. Qed.

Lemma replay_whole N b off h mem : chained N b off h → Forall (λ p, length p = PAGE_SIZE) mem → Forall (λ p, length p = PAGE_SIZE) (replay_all h mem).
Proof.
  induction h as [|c h IH]; cbn; [done|]. intros ([[_ Hp _ _] _ _]&_&_&Hc) Hm. eapply put_whole; [exact Hp|]. by apply IH.
Qed.

Definition prev_of h : option Z := m_txn ∘ c_meta <$> head h.
Definition last_of h : option Meta := (λ c, replay_meta (record_of full_pages (c_meta c) (c_pages c))) <$> head h.

Lemma recover_history N b h w fuel : 0 ≤ wal_ckpt w → Z.of_nat N ≤ 2 ^ 64 → length (w_mem w) = N → Forall (λ p, length p = PAGE_SIZE) (w_mem w) →
  chained N b (wal_ckpt w) h → Forall (λ c, has_record c (w_log w)) h →
  recover_loop xxh3 (length h + fuel) data_start (wal_ckpt w) None None w =
    recover_loop xxh3 fuel data_start (end_of (wal_ckpt w) h) (prev_of h) (last_of h) (set_pages (replay_all h (w_mem w)) w).
Proof.
  intros H0 HN Hl Hm. revert fuel. induction h as [|c h IH]; intros fuel Hc Hr; [by destruct w|].
  destruct Hc as (Hck&Hfo&Hoff&Hc). apply Forall_cons in Hr as [Hrc Hr]. cbn [length]. rewrite Nat.add_succ_comm, (IH (S fuel) Hc Hr).
  destruct (chained_off _ _ _ _ _ _ _ Hc) as [Hge _]. cbn [recover_loop w_mem set_pages w_log]. rewrite length_replay, Hl, <- Hoff.
  rewrite (has_record_at xxh3 full_pages data_start xxh3_64 N c) by (first [lia|done]). destruct Hck as [Hrw Hids Hcm]. cbn [w_txn w_pages record_of].
  assert (match prev_of h with Some p => negb (m_txn (c_meta c) =? p + 1) | None => false end = false) as ->.
  { destruct h as [|c' h]; [done|]. cbn. destruct Hfo as [Ht _ _]. cbn in Ht. by rewrite Ht, Z.eqb_refl. }
  assert (existsb (λ x, x.1 <? data_start) (map (λ x, (x.1, img_of full_pages x.2)) (c_pages c)) = false) as ->.
  { unfold c_pages. rewrite map_map. cbn. clear -Hids. induction Hids as [|id ids Hid _ IH]; cbn; [done|]. rewrite IH. by destruct (Z.ltb_spec id data_start); [lia|]. }
  rewrite replay_put; [|rewrite length_replay, Hl; apply Hrw|by eapply replay_whole]. cbn [replay_all CrashInv.end_of w_len].
  unfold Crash.c_end, Crash.c_bytes. by rewrite length_record.
Qed.

(** A page of the newest commit: restored from its last record, or untouched
    since before the first. *)
Lemma replay_use N b off h mem id : length mem = N → chained N b off h → id ∈ c_use (top b h) → data_start ≤ id < Z.of_nat N →
  (¬ logs id h → mem !! Z.to_nat id = c_mem (top b h) !! Z.to_nat id) →
  is_Some (c_mem (top b h) !! Z.to_nat id) →
  ∃ p q, c_mem (top b h) !! Z.to_nat id = Some p ∧ replay_all h mem !! Z.to_nat id = Some q ∧ reads_as p q.
Proof.
  intros Hl. induction h as [|c h IH]; cbn [chained top]; intros Hc Hid Hb Hun [p Hp].
  { exists p, p. cbn. rewrite Hun; [by rewrite Hp|]. by intros ?%Exists_nil. }
  destruct Hc as ([Hrw Hids Hcm]&[F1 F2 F3]&Hoff&Hc). cbn [replay_all]. destruct (decide (id ∈ c_ids c)) as [Hin|Hin].
  - exists p, (restored full_pages p). split_and!; [done| |apply restored_reads]. apply put_page; [done| |done].
    rewrite length_replay. eapply Forall_impl; [exact Hids|]. cbn. lia.
  - apply F2, elem_of_union in Hid as [Hid|Hid%elem_of_list_to_set]; [|done]. rewrite put_other.
    + rewrite F3 in * by done. apply IH; [done|done|done| |by eexists]. intros Hnl. apply Hun. unfold logs. rewrite Exists_cons. tauto.
    + apply Forall_map, Forall_forall. intros j Hj. cbn. rewrite Forall_forall in Hids. specialize (Hids j Hj). intros Heq.
      assert (j = id) as -> by lia. done.
Qed.
(** * After a power loss *)

(** The history [h] of the log that came back, on the commit [b]. *)
Record comes_back n w b h : Prop := {
  cb_chain : chained (length (w_mem w)) b (wal_ckpt w) h;
  cb_log : Forall (λ c, has_record c (w_log w)) h;
  cb_stop : record_at xxh3 (end_of (wal_ckpt w) h) (Z.of_nat (length (w_mem w))) (w_log w) = None;
  cb_top : top b h = counted n ∨ top b h ∈ cands n;
  cb_len : 0 ≤ wal_ckpt w ∧ wal_len w ≤ end_of (wal_ckpt w) h ≤ Z.of_nat (length (w_log w));
  cb_use : ∀ id, id ∈ c_use (top b h) → data_start ≤ id < Z.of_nat (length (w_mem w)) ∧ is_Some (c_mem (top b h) !! Z.to_nat id) ∧
    (¬ logs id h → w_mem w !! Z.to_nat id = c_mem (top b h) !! Z.to_nat id);
  cb_meta : match h with [] => newest_meta w = Some (c_meta b) ∧ is_uint 64 (m_txn (c_meta b)) | _ => True end;
}.

Lemma power_loss_kept b h1 h2 n w : inv xxh3 full_pages data_start b h1 h2 n → power_loss n w → Forall (λ c, has_record c (w_log w)) (h2 ++ h1).
Proof.
  intros [I1 I2 I3 I4 I5 I6 I7 I8 I9 I10 I11 I12 I13] [L1 L2 L3 L4]. destruct (chained_off _ _ _ _ _ _ _ I3) as [_ Hends]. destruct I4 as (K1&K2&K3). rewrite K3 in Hends.
  rewrite Forall_forall in *. intros c Hc. specialize (Hends c Hc). eapply has_record_keep; [lia| |by apply I5]. intros i Hi. apply (proj2 L4). lia.
Qed.

Lemma log_long N b off h w : 0 ≤ off ≤ Z.of_nat (length (w_log w)) → chained N b off h → Forall (λ c, has_record c (w_log w)) h → end_of off h ≤ Z.of_nat (length (w_log w)).
Proof.
  intros H0 Hc Hr. destruct h as [|c h]; [cbn; lia|]. apply Forall_cons in Hr as [Hr _]. apply (has_record_len xxh3 full_pages); [|done].
  destruct Hc as (_&_&Ho&Hc). destruct (chained_off _ _ _ _ _ _ _ Hc). lia.
Qed.

Lemma comes_back_ok n w : holds_inv xxh3 full_pages data_start n → power_loss n w →
  torn_tail xxh3 full_pages false n (w_log w) → ∃ b h, comes_back n w b h.
Proof.
  intros (b&h1&h2&Hi) Hp Ht. pose proof (power_loss_kept _ _ _ _ _ Hi Hp) as Hkept. destruct Hi as [I1 I2 I3 I4 I5 I6 I7 I8 I9 I10 I11 I12 I13].
  destruct Hp as [L1 [L2 L2'] [L3 L3'] [Hll _]]. destruct I4 as (K1&K2&K3). destruct I2 as [N1 N2].
  destruct (chained_off _ _ _ _ _ _ _ I3) as [Hoff0 _].
  assert (length (w_mem w) = length (w_mem (vol n))) as HN by congruence.
  assert (∀ id, id ∈ c_use (counted n) → ¬ logs id (h2 ++ h1) → w_mem w !! Z.to_nat id = c_mem (counted n) !! Z.to_nat id) as Hun.
  { intros id Hid Hl. rewrite L1. apply I10; [done|]. intros Hx. apply Hl. unfold logs in *. rewrite Exists_app. by left. }
  destruct Ht as [Hstop|(c&Hc&Hrc&Hstop)].
  - exists b, (h2 ++ h1). split; rewrite ?HN, ?L3', ?L3; try done.
    + by rewrite K3.
    + by left.
    + split; [done|]. split; [lia|]. eapply log_long; [|done..]. lia.
    + intros id Hid. rewrite I7 in *. destruct (I8 id Hid) as [Hb Hm]. split_and!; [lia|lia| |by apply Hun].
      rewrite <- Hm. apply lookup_lt_is_Some_2. lia.
    + destruct (h2 ++ h1) eqn:Eh; [|done]. apply app_eq_nil in Eh as [-> ->]. cbn in I7. subst b.
      assert (counted n = newest n) as ->. { unfold counted in *. destruct (pc n); [done..| |done|done|done]. by destruct I13. }
      destruct I12 as [Ea Eb]; [done|]. destruct I11 as [M1 M2]. split; [|done]. unfold newest_meta in *. by rewrite L2, L2', Ea, Eb.
  - rewrite Forall_forall in I9. destruct (I9 c Hc) as (Hck&Hfo&Hoff).
    assert (chained (length (w_mem (vol n))) b (d_ckpt (disk n)) (c :: h2 ++ h1)) as Hch.
    { cbn. split_and!; [done|by rewrite I7|congruence|done]. }
    assert (Forall (λ c, has_record c (w_log w)) (c :: h2 ++ h1)) as Hrs by by constructor.
    pose proof (c_end_ge xxh3 full_pages c) as Hge.
    exists b, (c :: h2 ++ h1). split; rewrite ?HN, ?L3', ?L3; try done.
    + by right.
    + split; [done|]. split; [cbn [CrashInv.end_of]; lia|]. eapply log_long; [|done..]. lia.
    + intros id Hid. cbn [top] in *. destruct Hfo as [F1 F2 F3]. destruct Hck as [Hrw Hids Hcm].
      assert (data_start ≤ id < Z.of_nat (length (w_mem (vol n)))) as Hb.
      { apply F2, elem_of_union in Hid as [Hid|Hid%elem_of_list_to_set]; [by apply I8|]. rewrite Forall_forall in Hids. by apply Hids. }
      split_and!; [lia|lia|apply lookup_lt_is_Some_2; lia|]. intros Hnl.
      assert ((id ∉ c_ids c) ∧ (¬ logs id (h2 ++ h1))) as [Hn1 Hn2] by (unfold logs in Hnl; rewrite Exists_cons in Hnl; tauto).
      apply F2, elem_of_union in Hid as [Hid|Hid%elem_of_list_to_set]; [|done]. rewrite F3 by done. by apply Hun.
Qed.

(** The commit [c] is what the mapping [w] shows: its roots, and its pages. *)
Definition same_roots (m m' : Meta) : Prop :=
  m_txn m' = m_txn m ∧ m_catalog_root m' = m_catalog_root m ∧ m_freelist_root m' = m_freelist_root m ∧
  m_high_water m' = m_high_water m ∧ m_extent_map_root m' = m_extent_map_root m.

Record shows w c : Prop := {
  sh_meta : ∃ m, newest_meta w = Some m ∧ same_roots (c_meta c) m;
  sh_use : ∀ id, id ∈ c_use c → ∃ p q, c_mem c !! Z.to_nat id = Some p ∧ w_mem w !! Z.to_nat id = Some q ∧ reads_as p q;
}.

(** A machine to go on with. *)
Definition reopened w c : Node := settled w (MkCommit (default (c_meta c) (newest_meta w)) (c_ids c) (w_mem w) (c_use c) (wal_len w)).

Lemma recover_ok n w b h : Forall (λ p, length p = PAGE_SIZE) (w_mem w) → Z.of_nat (length (w_mem w)) ≤ 2 ^ 64 → comes_back n w b h →
  ∃ off w', wal_recover xxh3 data_start w = (Ok off, w') ∧ shows w' (top b h) ∧ start_ok data_start (reopened w' (top b h)).
Proof.
  intros Hm HN [B1 B2 B3 B4 (B5&B5'&B5'') B6 B7]. destruct (chained_off _ _ _ _ _ _ _ B1) as [Hfuel _].
  assert (S (length (w_log w)) = length h + S (length (w_log w) - length h))%nat as Hf by lia.
  set (off := end_of (wal_ckpt w) h) in *. set (w1 := set_pages (replay_all h (w_mem w)) w).
  set (w' := set_words off off off (match last_of h with Some m => set_metas (Some m) (Some m) w1 | None => w1 end)).
  assert (wal_recover xxh3 data_start w = (Ok off, w')) as Hrec.
  { unfold wal_recover. rewrite Hf, (recover_history (length (w_mem w)) b h w) by done. fold off w1. cbn [recover_loop w_mem set_pages w_log w1].
    rewrite length_replay, B3. destruct (Z.ltb_spec off (wal_len w)); [lia|]. done. }
  assert (w_mem w' = replay_all h (w_mem w) ∧ w_log w' = w_log w) as [Hw1 Hw2] by (unfold w'; by destruct (last_of h)).
  assert (shows w' (top b h)) as Hsh.
  { split.
    - destruct h as [|c h]; cbn in *; [destruct B7; by eexists|]. eexists. split; [unfold w', newest_meta; cbn; by rewrite Z.leb_refl|done].
    - intros id Hid. rewrite Hw1. destruct (B6 id Hid) as (Hb&Hs&Hun). by eapply replay_use. }
  exists off, w'. split_and!; [done|done|]. destruct Hsh as [(m&Hnm&Htx&_) Hu]. split; unfold reopened; cbn [vol newest settled c_meta c_mem c_use].
  - done.
  - rewrite Hw1. by eapply replay_whole.
  - by rewrite Hw1, length_replay.
  - rewrite Hw2. unfold w'. cbn. lia.
  - by rewrite Hnm.
  - rewrite Hnm. cbn. rewrite Htx. destruct h as [|c h]; [apply B7|]. destruct B1 as ([[[? _ _ _ _] _ _ _] _ _]&_). done.
  - done.
  - intros id Hid. rewrite Hw1, length_replay. by apply B6.
Qed.
Lemma recovery_ok evs n0 n w : start_ok data_start n0 → Crash.run xxh3 full_pages data_start false evs n0 = Some n → gap n = false →
  power_loss n w → torn_tail xxh3 full_pages false n (w_log w) →
  ∃ off w' c, wal_recover xxh3 data_start w = (Ok off, w') ∧ (c = counted n ∨ c ∈ cands n) ∧ shows w' c ∧ start_ok data_start (reopened w' c).
Proof.
  intros Hs Hr Hg Hp Ht. assert (holds_inv xxh3 full_pages data_start n) as Hi.
  { eapply inv_run; [done..|]. by exists (newest n0), [], []; apply log_inv_start. }
  destruct (comes_back_ok _ _ Hi Hp Ht) as (b&h&Hcb). destruct Hi as (b'&h1&h2&[I1 I2 _ _ _ _ _ _ _ _ _ _ _]).
  destruct (recover_ok n w b h) as (off&w'&Hrec&Hsh&Hst); [rewrite (pl_mem _ _ Hp); apply I1|rewrite (pl_mem _ _ Hp); destruct I2; lia|done|].
  exists off, w', (top b h). split_and!; [done|apply Hcb|done|done].
Qed.
End Recover.
