(* ===== verification/WalDb.v ===== *)
(** The recovered pages as a database, and the transaction as a run of the
    machine. *)

From stdpp Require Import sorting.
From S2P Require Import Prelude BtreeNode PageStore Btree Overflow Lean KvMap BtreeRep BtreeInsert BtreeDelete BtreeSnapshot BtreeSpec BtreeView.
From S2P Require Import Cursor Txn TxnOps TxnPool TxnStore FreelistCodec FreelistAccount FreelistWrite FreelistPlan FreelistCommit TxnCommit TxnRun TxnDb.
From S2P Require Import Wal WalCodec Crash CrashInv WalRecover.
Local Open Scope Z_scope.

Section Db.
Context (content_hash : bytes → Z) (R0 : Z → Prop).
Abbreviation start e mt := (make_write_txn e mt false).

(** Mappings of the same file in which the snapshot's pages read the same. *)
Record same_file (e e' : Eng) : Prop := {
  sf_count : page_count e' = page_count e; sf_data : Txn.data_start e' = Txn.data_start e; sf_files : files e' = files e;
  sf_pages : Forall (λ p, length p = PAGE_SIZE) (mem e') }.

Lemma db_recovered e e' mt mt' m F C D : db_ok content_hash R0 (e, mt) m F C D → same_file e e' → same_roots mt mt' →
  (∀ id, id ∈ C ∨ Pg id ∈ F → reads_as (page_of (start e mt) id) (page_of (start e' mt') id)) → db_ok content_hash R0 (e', mt') m F C D.
Proof.
  intros [S (h&Fc&Ht) Hs] [E1 E2 E3 E4] (M1&M2&M3&M4&M5) Hr. destruct S as [S1 S2 S3 (hf&Hhf&Htf) S5 S6 S7 S8]. cbn [fst snd] in *.
  assert (∀ hs t, read_external hs t (start e' mt') = read_external hs t (start e mt)) as Hx
    by (intros hs t; unfold read_external, read_external_payload; cbn; by rewrite E3).
  split; cbn [fst snd]; [|exists h, Fc|done].
  - split; rewrite ?E1, ?E2, ?M1, ?M3, ?M4; try done.
    + exists hf. split; [done|]. eapply (seen_tree_rep shared shared_view); [|exact Htf]. split; [|exact Hx]. intros r Hin.
      assert (@live _ shared_view (start e mt) r) as Hl.
      { destruct Htf as [(_&_&->)|[_ Ht']]; [by apply elem_of_empty in Hin|]. by eapply (@tree_live _ shared shared_view). }
      destruct r as [id|]; [|done]. cbn in *. rewrite E1. split; [done|]. by apply Hr; right.
    + destruct S5 as [A1 A2 A3 A4]. split; try done. eapply Forall_impl; [exact A1|]. intros kv. unfold entry_wf. by rewrite E1, E2.
  - rewrite M2. eapply (seen_tree_map (txn_store content_hash) (txn_view content_hash m F C)); [|exact Ht]. split; [|exact Hx].
    intros q Hq. pose proof (@tree_map_live _ _ (txn_view content_hash m F C) content_hash _ _ _ _ _ q Ht Hq) as Hl.
    destruct q as [id|]; [|done]. destruct Hl as [Hid Hl]. assert (id ∈ C) as Hc by by destruct Hl as [?%elem_of_empty|[? _]].
    split; [cbn in *; by rewrite E1|]. by apply Hr; left.
Qed.

(** A mapping that shows a commit shows the database it committed. *)
Lemma shows_db w c e' mt' d m F C D : shows w c → db_ok content_hash R0 d m F C D → c_meta c = d.2 → c_mem c = mem d.1 → c_use c = C ∪ pages_of F →
  same_file d.1 e' → mem e' = w_mem w → newest_meta w = Some mt' → db_ok content_hash R0 (e', mt') m F C D.
Proof.
  intros [(mt&Hmt&Hroots) Hu] Hd Hm Hmem Huse Hf He Hn. assert (mt = mt') as -> by congruence. destruct d as [e m0]. cbn [fst snd] in *.
  eapply db_recovered; [exact Hd|done|by rewrite <- Hm|]. intros id Hid. destruct (Hu id) as (p&q&Hp&Hq&Hr).
  { rewrite Huse, elem_of_union, elem_of_own_pages. tauto. }
  unfold page_of. cbn. by rewrite He, <- Hmem, Hp, Hq.
Qed.
End Db.

(** * The writer's events *)

Definition is_back (ev : Event) : bool :=
  match ev with BackPage _ _ | BackMeta _ _ | BackLen | BackCkpt => true | _ => false end.
Definition writer_events (evs : list Event) : list Event := List.filter (λ ev, negb (is_back ev)) evs.

(** A transaction that stores [stores] and commits. *)
Definition txn_events (stores : list (Z * bytes)) (ids : list Z) (mt : Meta) (use : gset Z) : list Event :=
  Begin :: map (λ x, Store x.1 x.2) stores ++ [Log ids mt use; Sync; Count; Flip].
Definition stored (stores : list (Z * bytes)) (mem : list bytes) : list bytes := foldl (λ m x, <[Z.to_nat x.1 := x.2]> m) mem stores.

Section Events.
Context (xxh3 : bytes → Z) (full_pages : bool) (data_start : Z).
Abbreviation step := (step xxh3 full_pages data_start false).
Abbreviation run := (run xxh3 full_pages data_start false).

(** Write-back changes only what is on disk, and the writer does not look there. *)
Definition same_mem (n n1 : Node) : Prop :=
  vol n1 = vol n ∧ pc n1 = pc n ∧ newest n1 = newest n ∧ cands n1 = cands n ∧ gap n1 = gap n.

Lemma step_same ev n n1 n' : same_mem n n1 → is_back ev = false → step ev n = Some n' → ∃ n1', step ev n1 = Some n1' ∧ same_mem n' n1'.
Proof.
  destruct n as [v d p c cs g], n1 as [v1 d1 p1 c1 cs1 g1]. intros (H1&H2&H3&H4&H5) Hb. cbn in H1, H2, H3, H4, H5. subst.
  unfold Crash.step, log_step, loggable. cbn [vol disk pc newest cands gap]. destruct ev, p; try done.
  all: repeat case_match; try done; intros [= <-]; eexists; (split; [reflexivity|done]).
Qed.

Lemma run_writer evs : ∀ n n1 n', same_mem n n1 → run evs n = Some n' → ∃ n1', run (writer_events evs) n1 = Some n1' ∧ same_mem n' n1'.
Proof.
  induction evs as [|ev evs IH]; intros n n1 n' Hs; cbn [Crash.run writer_events List.filter].
  { intros [= <-]. by exists n1. }
  destruct (step ev n) as [k|] eqn:Es; [|done]. cbn [mbind option_bind]. intros Hr. destruct (is_back ev) eqn:Eb; cbn [negb].
  - apply (IH k n1 n'); [|done]. assert (same_mem k n) as (?&?&?&?&?).
    { destruct ev; try done; cbn in Es; unfold back_step in Es; cbn zeta in Es; repeat case_match; try done; by injection Es as <-. }
    destruct Hs as (?&?&?&?&?). unfold same_mem. split_and!; congruence.
  - destruct (step_same ev n n1 k Hs Eb Es) as (k1&Hk&Hsk). cbn [Crash.run]. rewrite Hk. cbn. by apply (IH k).
Qed.

Lemma prefix_cases {A} (x : A) l P : P `prefix_of` x :: l → P = [] ∨ ∃ P', P = x :: P' ∧ P' `prefix_of` l.
Proof. destruct P as [|y P]; [by left|]. intros Hp. right. apply prefix_cons_inv_1 in Hp as Hx. apply prefix_cons_inv_2 in Hp. subst. by exists P. Qed.

Lemma run_cons ev evs n n' : run (ev :: evs) n = Some n' → ∃ k, step ev n = Some k ∧ run evs k = Some n'.
Proof. cbn. destruct (step ev n) as [k|]; [|done]. intros ?. by exists k. Qed.

Lemma append_words buf off need w : let w' := write_log buf off (wal_ensure_alloc need w) in
  wal_ckpt w' = wal_ckpt w ∧ wal_appended w' = wal_appended w.
Proof. cbn zeta. unfold write_log, wal_ensure_alloc. by case_match. Qed.

(** The steps of a commit, taken together, are [wal_commit]. *)
Lemma commit_steps ids snap use n n' : pc n = InTxn → run [Log ids snap use; Sync; Count] n = Some n' →
  wal_commit xxh3 full_pages ids snap (vol n) = Ok (vol n').
Proof.
  intros Hpc (k&Hk&Hr)%run_cons. unfold Crash.step, log_step in Hk. rewrite Hpc in Hk. cbn zeta in Hk. unfold wal_commit, append_record, log_end in *.
  destruct (dirty_pages ids (vol n)) as [xs| |] eqn:Ed; [|done..]. cbn [mbind res_mbind] in *. case_match; [|done]. apply dirty_pages_spec in Ed as [-> _].
  set (buf := encode_wal_record _ _ _ _ _) in *. destruct (append_words buf (wal_len (vol n)) (wal_len (vol n) + Z.of_nat (length buf)) (vol n)) as [W1 W2].
  set (w' := write_log _ _ _) in *. clearbody w'. injection Hk as <-. injection Hr as <-. cbn [vol]. unfold count. by rewrite W1, W2.
Qed.

(** The writer is in its transaction: it stored, and has not logged. *)
Definition storing (c0 : Commit) (n : Node) : Prop := pc n = InTxn ∧ newest n = c0 ∧ cands n = [] ∧ gap n = false.

Lemma run_stores c0 stores tail : ∀ P n n', P `prefix_of` map (λ x, Store x.1 x.2) stores ++ tail → storing c0 n → run P n = Some n' →
  (storing c0 n' ∧ (length P ≤ length stores)%nat) ∨
  ∃ P2 n2, P = map (λ x, Store x.1 x.2) stores ++ P2 ∧ P2 `prefix_of` tail ∧ run P2 n2 = Some n' ∧ storing c0 n2 ∧
    w_mem (vol n2) = stored stores (w_mem (vol n)) ∧ wal_len (vol n2) = wal_len (vol n).
Proof.
  induction stores as [|x stores IH]; intros P n n' Hp Hs Hr; cbn [map app] in *; [right; by exists P, n|].
  apply prefix_cases in Hp as [->|(P'&->&Hp)]; [left; injection Hr as <-; split; [done|cbn; lia]|].
  apply run_cons in Hr as (k&Hk&Hr). pose proof Hs as (Hpc&H2&H3&H4). unfold Crash.step in Hk. rewrite Hpc in Hk. cbn zeta in Hk.
  case_match; [|done]. injection Hk as <-. edestruct (IH P') as [[? Hl]|(P2&n2&->&?&?&?&?&?)]; [exact Hp| |exact Hr|left|right].
  - by split_and!.
  - split; [done|]. cbn. lia.
  - exists P2, n2. by split_and!.
Qed.

(** How far a run got, and what a crash would bring back. *)
Definition got (c0 c : Commit) (all : Prop) (n : Node) : Prop :=
  gap n = false ∧ (counted n = c0 ∧ ¬ all ∨ counted n = c) ∧ ∀ c', c' ∈ cands n → c' = c ∧ ¬ all.

Lemma run_tail c0 P n n' ids mt use : storing c0 n → P `prefix_of` [Log ids mt use; Sync; Count; Flip] → run P n = Some n' →
  got c0 (MkCommit mt ids (w_mem (vol n)) use (wal_len (vol n))) (P = [Log ids mt use; Sync; Count; Flip]) n'.
Proof.
  intros (E1&E2&E3&E4) Hp Hr. set (c := MkCommit _ _ _ _ _).
  apply prefix_cases in Hp as [->|(P1&->&Hp)].
  { injection Hr as <-. split; [done|]. unfold counted. rewrite E1, E3. split; [by left|]. by intros c' ?%elem_of_nil. }
  apply run_cons in Hr as (k&Hk&Hr). unfold Crash.step, log_step in Hk. rewrite E1 in Hk. cbn zeta in Hk.
  destruct (append_record _ _ _ _ _ _) as [[buf w']| |]; [|done..]. case_match; [|done]. injection Hk as <-. rewrite E2, E3, E4 in Hr.
  change (MkCommit mt ids (w_mem (vol n)) use (log_end false (vol n))) with c in Hr.
  apply prefix_cases in Hp as [->|(P2&->&Hp)].
  { injection Hr as <-. split; [done|]. split; [by left|]. intros c' Hc'%list_elem_of_singleton. done. }
  apply run_cons in Hr as (k&Hk&Hr). injection Hk as <-. apply prefix_cases in Hp as [->|(P3&->&Hp)].
  { injection Hr as <-. split; [done|]. split; [by left|]. intros c' Hc'%list_elem_of_singleton. done. }
  apply run_cons in Hr as (k&Hk&Hr). injection Hk as <-. apply prefix_cases in Hp as [->|(P4&->&Hp)].
  { injection Hr as <-. split; [done|]. split; [by right|]. by intros c' ?%elem_of_nil. }
  apply run_cons in Hr as (k&Hk&Hr). injection Hk as <-. apply prefix_nil_inv in Hp as ->.
  injection Hr as <-. split; [done|]. split; [by right|]. by intros c' ?%elem_of_nil.
Qed.

Lemma run_txn_prefix P n n' stores ids mt use : pc n = Free → cands n = [] → gap n = false → P `prefix_of` txn_events stores ids mt use → run P n = Some n' →
  got (newest n) (MkCommit mt ids (stored stores (w_mem (vol n))) use (wal_len (vol n))) (P = txn_events stores ids mt use) n'.
Proof.
  intros Hpc Hc Hg Hp Hr. unfold txn_events in *. apply prefix_cases in Hp as [->|(P1&->&Hp)].
  { injection Hr as <-. split; [done|]. unfold counted. rewrite Hpc, Hc. split; [by left|]. by intros c' ?%elem_of_nil. }
  apply run_cons in Hr as (k&Hk&Hr). unfold Crash.step in Hk. rewrite Hpc in Hk. injection Hk as <-.
  destruct (run_stores (newest n) stores _ P1 (set_pc InTxn n) n' Hp) as [[(E1&E2&E3&E4) Hl]|(P2&n2&->&Hp2&Hr2&Hs&E5&E6)]; [done|done|..].
  - split; [done|]. unfold counted. rewrite E1, E3. split; [|by intros c' ?%elem_of_nil]. left. split; [done|].
    intros [= ->]. rewrite length_app, length_map in Hl. cbn in Hl. lia.
  - pose proof (run_tail _ _ _ _ _ _ _ Hs Hp2 Hr2) as (G1&G2&G3). cbn [vol set_pc] in E5, E6. rewrite E5, E6 in G2, G3.
    assert (Begin :: map (λ x, Store x.1 x.2) stores ++ P2 = Begin :: map (λ x, Store x.1 x.2) stores ++ [Log ids mt use; Sync; Count; Flip] →
      P2 = [Log ids mt use; Sync; Count; Flip]) as Hall by (by intros [= ?%app_inv_head]).
    split; [done|]. split; [destruct G2 as [[? ?]|?]; [left; split; [done|]; auto|by right]|]. intros c' Hc'. destruct (G3 c' Hc'). auto.
Qed.
(** ** The transaction runs *)

Definition store_ok (n : Node) (x : Z * bytes) : Prop :=
  data_start ≤ x.1 < Z.of_nat (length (w_mem (vol n))) ∧ (x.1 ∉ c_use (newest n)) ∧ length x.2 = PAGE_SIZE.

Lemma length_stored stores mem : length (stored stores mem) = length mem.
Proof. unfold stored. revert mem. induction stores as [|x stores IH]; intros mem; cbn; [done|]. by rewrite IH, length_insert. Qed.

Lemma stores_run stores tail : ∀ n, Forall (store_ok n) stores → pc n = InTxn →
  run (map (λ x, Store x.1 x.2) stores ++ tail) n = run tail (set_vol (set_pages (stored stores (w_mem (vol n))) (vol n)) n).
Proof.
  induction stores as [|x stores IH]; intros n Hs Hpc; [by destruct n as [[] ? ? ? ? ?]|]. apply Forall_cons in Hs as [(H1&H2&H3) Hs].
  cbn [map app Crash.run]. unfold Crash.step. cbn zeta. rewrite Hpc. rewrite (proj2 (Z.leb_le _ _)), (proj2 (Z.ltb_lt _ _)) by lia.
  rewrite !bool_decide_true by done. cbn [andb mbind option_bind]. rewrite IH; [done| |done]. eapply Forall_impl; [exact Hs|].
  intros y. unfold store_ok. cbn. by rewrite length_insert.
Qed.

Lemma dirty_pages_ok ids w : Forall (λ id, 0 ≤ id < Z.of_nat (length (w_mem w))) ids →
  dirty_pages ids w = Ok (map (λ id, (id, default [] (w_mem w !! Z.to_nat id))) ids).
Proof.
  induction 1 as [|id ids Hid _ IH]; [done|]. cbn [dirty_pages map]. destruct (Z.leb_spec (Z.of_nat (length (w_mem w))) id); [lia|].
  destruct (lookup_lt_is_Some_2 (w_mem w) (Z.to_nat id)) as [p Hp]; [lia|]. rewrite Hp. cbn. by rewrite IH.
Qed.

(** The record of a commit: how long it is. *)
Definition log_bytes (ids : list Z) (mem : list bytes) : Z :=
  Z.of_nat (WAL_RECORD_FIXED + length (entries_of full_pages (map (λ id, (id, default [] (mem !! Z.to_nat id))) ids))).

Lemma commit_runs n c : pc n = Logged c → is_Some (run [Sync; Count; Flip] n).
Proof. destruct n as [v d p c0 cs g]. cbn [pc]. intros ->. by eexists. Qed.

Lemma txn_runs n stores ids mt use : 0 ≤ data_start → pc n = Free → Forall (store_ok n) stores → NoDup ids →
  Forall (λ id, data_start ≤ id < Z.of_nat (length (w_mem (vol n)))) ids → use ⊆ c_use (newest n) ∪ list_to_set ids →
  m_txn mt = m_txn (c_meta (newest n)) + 1 → meta_wf mt → log_bytes ids (stored stores (w_mem (vol n))) < 2 ^ 32 →
  is_Some (run (txn_events stores ids mt use) n).
Proof.
  intros Hds Hpc Hs Hnd Hids Huse Htx [M1 M2 M3 M4 M5] Hlen. unfold txn_events. cbn [Crash.run]. unfold Crash.step. cbn zeta. rewrite Hpc. cbn [mbind option_bind].
  rewrite stores_run by done. set (n2 := set_vol _ _).
  assert (∃ k c, step (Log ids mt use) n2 = Some k ∧ pc k = Logged c) as (k&c&Hk&Hkc);
    [|change (is_Some (k ← step (Log ids mt use) n2; run [Sync; Count; Flip] k)); rewrite Hk; by eapply commit_runs].
  unfold Crash.step. change (pc n2) with InTxn. cbn zeta iota. unfold log_step, append_record. cbn zeta. rewrite dirty_pages_ok.
  2:{ cbn. rewrite length_stored. eapply Forall_impl; [exact Hids|]. cbn. lia. }
  cbn [mbind res_mbind]. assert (∀ len, len < 2 ^ 32 → loggable data_start ids mt use len n2 = true) as Hlog.
  { intros len Hl. unfold loggable, is_uint in *. rewrite !bool_decide_true by done. change (newest n2) with (newest n).
    repeat (apply andb_true_intro; split); try done; try lia.
    apply forallb_forall. intros id Hid%list_elem_of_In. rewrite Forall_forall in Hids. apply Z.leb_le, Hids, Hid. }
  rewrite Hlog by (rewrite length_record; exact Hlen). by eexists _, _.
Qed.
End Events.

(** * A crash in a transaction *)

Section CrashTxn.
Context (content_hash : bytes → Z) (R0 : Z → Prop) (xxh3 : bytes → Z) (full_pages : bool).
Context (xxh3_64 : ∀ b, is_uint 64 (xxh3 b)).

(** The machine [n] is at rest and holds the database [d]. *)
Record at_rest (n : Node) (d : Db) (F : rset) (C : gset Z) : Prop := {
  ar_start : start_ok (Txn.data_start d.1) n;
  ar_mem : w_mem (vol n) = mem d.1;
  ar_meta : c_meta (newest n) = d.2;
  ar_use : c_use (newest n) = C ∪ pages_of F;
}.

Lemma crash_txn d m F C D d' m' F' C' D' L n0 stores evs n w : db_ok content_hash R0 d m F C D → db_ok content_hash R0 d' m' F' C' D' →
  page_count d'.1 = page_count d.1 → files d'.1 = files d.1 → Txn.data_start d'.1 = Txn.data_start d.1 → at_rest n0 d F C →
  stored stores (mem d.1) = mem d'.1 → let all := txn_events stores L d'.2 (C' ∪ pages_of F') in
  writer_events evs `prefix_of` all → Crash.run xxh3 full_pages (Txn.data_start d.1) false evs n0 = Some n →
  power_loss n w → torn_tail xxh3 full_pages false n (w_log w) →
  ∃ off w' mt, wal_recover xxh3 (Txn.data_start d.1) w = (Ok off, w') ∧ newest_meta w' = Some mt ∧
    ∀ e, same_file d.1 e → mem e = w_mem w' →
      db_ok content_hash R0 (e, mt) m' F' C' D' ∨ writer_events evs ≠ all ∧ db_ok content_hash R0 (e, mt) m F C D.
Proof.
  intros Hd Hd' Hpc Hf Hds [A1 A2 A3 A4] Hst. cbn zeta. intros Hp Hr Hpl Ht. set (all := txn_events _ _ _ _) in *.
  assert (pc n0 = Free ∧ cands n0 = [] ∧ gap n0 = false ∧ c_mem (newest n0) = mem d.1) as (R1&R2&R3&R4).
  { destruct A1 as [S0 _ _ _ _ _ S6 _]. rewrite S6, A2. rewrite S0. done. }
  destruct (run_writer xxh3 full_pages (Txn.data_start d.1) evs n0 n0 n ltac:(done) Hr) as (n1&Hr1&(_&E2&E3&E4&E5)).
  destruct (run_txn_prefix _ _ _ _ _ _ _ _ _ _ R1 R2 R3 Hp Hr1) as (G1&G2&G3). rewrite A2, Hst in G2, G3. fold all in G2, G3.
  assert (counted n1 = counted n) as Hcn by (unfold counted; by rewrite E2, E3). rewrite E4 in G3. rewrite Hcn in G2.
  assert (0 ≤ Txn.data_start d.1) as Hds0 by (pose proof (sn_bounds _ _ _ _ _ _ _ (db_snapshot _ _ _ _ _ _ _ Hd)); lia).
  destruct (recovery_ok xxh3 full_pages (Txn.data_start d.1) xxh3_64 Hds0 evs n0 n w A1 Hr) as (off&w'&c&Hrec&Hc&Hsh&_); [congruence|done|done|].
  destruct (sh_meta _ _ Hsh) as (mt&Hmt&_). exists off, w', mt. split_and!; [done|done|]. intros e He Hmem.
  set (c1 := MkCommit d'.2 L (mem d'.1) (C' ∪ pages_of F') (wal_len (vol n0))) in *.
  assert (c = newest n0 ∧ writer_events evs ≠ all ∨ c = c1) as [[-> Hne]| ->].
  { destruct Hc as [->|Hc]; [tauto|]. right. by apply G3. }
  - right. split; [done|]. by eapply shows_db.
  - left. eapply (shows_db content_hash R0 w' c1 e mt d'); try done. destruct He as [X1 X2 X3 X4]. split; [congruence..|done].
Qed.
End CrashTxn.
