(* ===== verification/WalTheorems.v ===== *)
(** What the log guarantees, and where it does not. *)

From stdpp Require Import gmap.
From S2P Require Import Prelude BtreeNode PageStore Btree Overflow Lean KvMap BtreeRep BtreeInsert BtreeSpec Txn TxnPool TxnStore TxnCommit TxnDb TxnTheorems.
From S2P Require Import Wal WalCodec Crash CrashInv WalRecover WalDb.
Local Open Scope Z_scope.

(** * A small file *)

Definition sum_hash : bytes → Z := λ b, to_uint 64 (foldl Z.add 0 b).
Lemma sum_hash_64 b : is_uint 64 (sum_hash b).
Proof. by apply is_sint_to_uint. Qed.

Definition meta_n (txn : Z) : Meta := MkMeta txn 0 0 8 0 0.
Definition page_n (x : Z) : bytes := x :: replicate (PAGE_SIZE - 1) x.
Definition file_0 : WalShm :=
  MkWal (replicate 8 (replicate PAGE_SIZE 0)) (Some (meta_n 1)) (Some (meta_n 1)) 0 0 0 (replicate (Z.to_nat 16384) 0) 16384.
Definition node_0 : Node := settled file_0 (MkCommit (meta_n 1) [] (w_mem file_0) ∅ 0).

Lemma node_0_ok : start_ok 5 node_0.
Proof.
  split; try done. apply Forall_replicate, length_replicate.
Qed.

Definition put_page (id x txn : Z) (use : gset Z) : list Event :=
  [Begin; Store id (page_n x); Log [id] (meta_n txn) use].
Definition commit_page (id x txn : Z) (use : gset Z) : list Event := put_page id x txn use ++ [Sync; Count; Flip].

Definition run_of (async : bool) (evs : list Event) : Node := default node_0 (run sum_hash false 5 async evs node_0).
Definition crash_of (n : Node) (log : bytes) : WalShm :=
  MkWal (d_mem (disk n)) (d_a (disk n)) (d_b (disk n)) (d_len (disk n)) (d_ckpt (disk n)) 0 log 16384.

Lemma crash_of_loss n : d_sync (disk n) ≤ Z.of_nat (length (w_log (vol n))) → power_loss n (crash_of n (w_log (vol n))).
Proof. by split. Qed.

(** Two commits and a torn third, of which the mapping's page reached the disk. *)
Definition evs_1 : list Event :=
  commit_page 5 1 2 {[5]} ++ [BackMeta A false] ++ commit_page 6 2 3 {[5; 6]} ++ put_page 7 3 4 {[5; 7]} ++ [BackPage 7 []].

Lemma meta_wf_check m : forallb (λ z, (0 <=? z) && (z <? 2 ^ 64)) [m_txn m; m_catalog_root m; m_freelist_root m; m_high_water m; m_extent_map_root m] = true → meta_wf m.
Proof. cbn [forallb]. intros H. split; unfold is_uint; lia. Qed.

(** * Properties *)

(** C4. Recovery after a power loss, in [wal] mode. From a file at rest, run
    any commits, deaths of writers, checkpoints and write-backs: pages, meta pages
    and words of the mapping reach the disk at any time, in any order, and torn.
    Then the power fails. Of the log there is what was synced and not reclaimed;
    behind its counted end lies a whole record that was written there, or nothing
    that checks. If no writer died between counting its record and publishing its
    meta page, recovery succeeds and brings back a commit [c], the last that was
    counted or one whose record is whole: the newest meta page has its roots,
    every page its snapshot uses reads as when it was logged, and the file is at
    rest again. *)
Theorem recovery_restores xxh3 full_pages data_start evs n0 n w :
  (∀ b, is_uint 64 (xxh3 b)) → 0 ≤ data_start → start_ok data_start n0 →
  run xxh3 full_pages data_start false evs n0 = Some n → gap n = false → power_loss n w → torn_tail xxh3 full_pages false n (w_log w) →
  ∃ off w' c, wal_recover xxh3 data_start w = (Ok off, w') ∧ (c = counted n ∨ c ∈ cands n) ∧ shows w' c ∧ start_ok data_start (reopened w' c).
Proof. intros. by eapply recovery_ok. Qed.

Lemma recovery_restores_witness :
  let n := run_of false evs_1 in let w := crash_of n (w_log (vol n)) in
  ∃ off w' c, wal_recover sum_hash 5 w = (Ok off, w') ∧ (c = counted n ∨ c ∈ cands n) ∧ shows w' c ∧ start_ok 5 (reopened w' c).
Proof.
  cbn zeta. apply (recovery_restores sum_hash false 5 evs_1 node_0).
  - exact sum_hash_64.
  - lia.
  - exact node_0_ok.
  - unfold run_of. vm_compute. reflexivity.
  - vm_compute. reflexivity.
  - apply crash_of_loss, Z.leb_le. vm_compute. reflexivity.
  - right. eexists. split_and!.
    + vm_compute. left.
    + vm_compute. reflexivity.
    + vm_compute. reflexivity.
Defined.

(** ** Records *)

(** C7. A record read back at the offset it was encoded for decodes to
    its transaction, roots and length, and to an image for each page which,
    written over whatever the page holds, gives a page with the same cells if it
    was a node and the same part of a chain if it was an overflow page. (The image
    leaves out the bytes between [used_span]'s ends.) *)
Theorem wal_record_roundtrip xxh3 full_pages off page_count m xs : (∀ b, is_uint 64 (xxh3 b)) → page_count ≤ 2 ^ 64 → record_wf full_pages page_count m xs →
  let rec := encode_wal_record xxh3 full_pages off m xs in
  ∃ r, decode_wal_record xxh3 rec off page_count = Some r ∧ same_roots m (replay_meta r) ∧ w_len r = Z.of_nat (length rec) ∧
    Forall2 (λ x y, y.1 = x.1 ∧ ∀ dst, length dst = PAGE_SIZE → ∃ q, write_into y.2 dst = Ok q ∧ length q = PAGE_SIZE ∧
      (∀ k lm cells, k = KIND_LEAF ∨ k = KIND_BRANCH → node_rep x.2 k lm cells → node_rep q k lm cells) ∧
      (∀ chunk next, holds x.2 chunk next → holds q chunk next)) xs (w_pages r).
Proof.
  intros Hx Hpc Hw. cbn zeta. exists (record_of full_pages m xs). split; [by apply decode_record|]. split; [done|]. split; [by rewrite length_record|].
  destruct Hw as [_ Hp _ _]. cbn [record_of w_pages]. induction Hp as [|x xs [_ Hl] _ IH]; cbn [map]; constructor; [|done].
  split; [done|]. intros dst Hd. exists (restored full_pages x.2). split; [by apply write_img|]. split; [by apply length_restored|]. cbn [fst snd]. split.
  - intros. eapply reads_as_node; [done|apply restored_reads|done].
  - intros. eapply reads_as_holds; [apply restored_reads|done].
Qed.

Lemma wal_record_roundtrip_witness : ∃ r, decode_wal_record sum_hash (encode_wal_record sum_hash false 77 (meta_n 2) [(5, page_n 1)]) 77 8 = Some r ∧ w_txn r = 2.
Proof.
  destruct (wal_record_roundtrip sum_hash false 77 8 (meta_n 2) [(5, page_n 1)]) as (r&Hr&(Ht&_)&_).
  - exact sum_hash_64.
  - lia.
  - split; [by apply meta_wf_check|apply Forall_singleton; split; cbn; [lia|by rewrite length_replicate]|cbn; lia|apply Z.ltb_lt; vm_compute; reflexivity].
  - exists r. split; [exact Hr|exact Ht].
Defined.

(** ** A crash in a transaction *)







(** ** A writer that dies before it publishes *)



(** ** Deferred syncs *)




